(* ===== verification/_CoqProject ===== *)
-Q . S2P
Prelude.v
Wire.v
Checksum.v
Protocol.v
Fs.v
FsTriples.v
Directory.v
WalRecord.v
Wal.v
KvStore.v
KvInvariant.v
KvTheorems.v
KvWitnesses.v
RaftTypes.v
RaftFormat.v
RaftStorage.v
RaftTotality.v
RaftFiles.v
RaftNode.v
RaftInvariant.v
RaftStep.v
RaftJournal.v
RaftRecovery.v
RaftCreation.v
RaftDurability.v
RaftLifecycle.v
RaftStoreTheorems.v
RaftStoreWitnesses.v
RaftHandlers.v
RaftSafety.v
RaftImages.v
ElectionSafety.v
RaftEmits.v
LogTree.v
AbstractRaft.v
ReplicatedLog.v
AbstractSafety.v
AbstractLogs.v
RaftRefinement.v
ConsensusSafety.v
PersistedRaft.v
PersistedSafety.v
PersistedTheorems.v
RaftTheorems.v
RaftWitnesses.v
ConsensusWitnesses.v
PersistedWitnesses.v
ClusterCodecs.v
StateMachine.v
SnapshotCodec.v
ClusterTheorems.v
ClusterNode.v
ClusterSafety.v
ClusterMirror.v
OwnerTheorems.v
ClusterWitnesses.v
OwnerWitnesses.v
PeerTransport.v
TransportTheorems.v
TransportWitnesses.v
ClusterConfig.v
ConfigTheorems.v
RequestExecutor.v
TcpServer.v
TcpSafety.v
TcpEvents.v
TcpLineage.v
TcpTheorems.v
TcpWitnesses.v
