(* ===== verification/Prelude.v ===== *)
(** * ForgeKV: a verification development

    ForgeKV is a key/value server in C++: a standalone store over a write-ahead
    log, and a replicated store over Raft.  The files of this directory model it
    as Rocq definitions and prove what makes it correct.  Paths below are
    relative to [src/] of the repository.

    ** The program and its parts

    - A client or a peer sends frames over TCP.  [protocol/] encodes and parses
      them; [server/tcp_server.cpp] reads them from its connections and hands
      each request to [server/request_executor.cpp], whose workers call a handler
      and give the response back.
    - In the standalone server the handler is the store of
      [storage/kv_store.cpp], which writes every mutation to the log of
      [storage/wal.cpp] before it answers.
    - In the cluster server the handler passes the request to the owner thread of
      [cluster/node.cpp].  The owner runs a persisted Raft node
      ([raft/persisted_raft_node.cpp]): the pure Raft node of
      [raft/raft_node.cpp] over the durable store of [raft/raft_storage.cpp] and
      [raft/snapshot_store.cpp].  Committed entries reach the state machine of
      [cluster/state_machine.cpp]; messages to the other voters leave through the
      peer transport, which is part of [cluster/node.cpp].

    ** How the code is rendered

    Unsigned integers are [Z], with the wrap-around written out ([u8] to [u64]
    below).  Bytes are [Byte.byte]; strings and byte vectors are lists of them.
    Hash maps and sets are [gmap] and [gset]; where the order of traversal shows,
    it is a parameter.  A member function that changes its object or throws is a
    computation of the monad [M] below: it maps the object to the object it leaves
    and a [result], and a throw keeps the changes made before it, as in C++.
    Code with threads is cut into its critical sections; a run is any sequence of
    them.  Calls of the operating system are not code of the repository: file
    operations follow the documented behaviour collected in [Fs.v], socket calls
    return values that are inputs of the model, and the random engine, the
    traversal order of unordered maps, [inet_pton] and the sizes of C++ types are
    parameters with named laws.

    ** Files

    Foundations:
    - [Prelude] (this file): machine integers, the error monad, lists.
    - [Wire], [Checksum], [Protocol]: [protocol/wire.h], [checksum.cpp],
      [serializer.cpp], [parser.cpp].
    - [Fs]: files, a page cache, partial, interrupted and failing calls, crashes.
      [FsTriples]: crash triples, statements about every disk a computation goes
      through.  [Directory]: replacing a file by renaming over it.

    The standalone store:
    - [WalRecord], [Wal]: [storage/wal_record.cpp], [storage/wal.cpp].
    - [KvStore]: [storage/kv_store.cpp], as steps of callers, writer and closer;
      [KvInvariant] its invariant, [KvTheorems] and [KvWitnesses] the results.

    The Raft store:
    - [RaftTypes], [RaftFormat], [RaftStorage]: [raft/types.h], the file formats,
      [raft/snapshot_store.cpp] and [raft/raft_storage.cpp].
    - [RaftTotality] (opening ends on every directory), [RaftFiles],
      [RaftJournal], [RaftRecovery], [RaftCreation], [RaftDurability],
      [RaftLifecycle] (the life of a store through crashes),
      [RaftStoreTheorems], [RaftStoreWitnesses].

    The Raft node:
    - [RaftNode]: all of [raft/raft_node.cpp].
    - [RaftInvariant] (the representation invariant), [RaftStep] (the contract
      [Step] of an operation), [RaftHandlers], [RaftSafety] (the contract holds of
      every handler and public operation), [RaftImages] (snapshots),
      [RaftTheorems], [RaftWitnesses].
    - [ElectionSafety]: the cluster of voters, disks and a network, and its
      elections.
    - [AbstractRaft]: the replication protocol as small steps of a node, and the
      world of all nodes.  [LogTree] (logs as paths of one tree), [ReplicatedLog]
      (what the durable states of the past commit), [AbstractSafety] and
      [AbstractLogs] (the invariant, and that every step keeps it).
    - [RaftEmits] (which actions a computation emits), [RaftRefinement] (every
      operation of [RaftNode] is a sequence of steps of the protocol),
      [ConsensusSafety] (so is every execution of the cluster, and what follows
      for its nodes), [ConsensusWitnesses] (a run of three nodes).
    - [PersistedRaft]: [raft/persisted_raft_node.cpp]; [PersistedSafety],
      [PersistedTheorems], [PersistedWitnesses].

    The cluster server:
    - [ClusterCodecs], [StateMachine], [SnapshotCodec]: [cluster/codecs.cpp],
      [cluster/state_machine.cpp], [cluster/snapshot_codec.cpp];
      [ClusterTheorems].
    - [ClusterNode]: the owner thread of [cluster/node.cpp] and its two request
      handlers; [ClusterSafety] (promises), [ClusterMirror] (the state machine and
      the log), [OwnerTheorems], [ClusterWitnesses], [OwnerWitnesses].
    - [PeerTransport]: the transport of [cluster/node.cpp]; [TransportTheorems],
      [TransportWitnesses].
    - [ClusterConfig]: parsing and validation of its options; [ConfigTheorems].

    The TCP server:
    - [RequestExecutor]: [server/request_executor.cpp].
    - [TcpServer]: [server/tcp_server.cpp] with [net/connection.h] and
      [net/reactor_config.h]; [TcpSafety], [TcpEvents], [TcpLineage] its
      invariants, [TcpTheorems] and [TcpWitnesses] the results.

    ** What the theorems show

    - Bytes: parsing undoes serialization for every way the stream is cut into
      chunks, and accepts nothing else; the table-driven checksum is the bitwise
      one; commands, peer messages and snapshots survive their encodings.
    - Standalone store: its map is the replay of its log; an acknowledged mutation
      is found again after a crash; [close] answers every caller.
    - Raft store: what an update made durable is what every later opening gives
      back, through any crashes; an interrupted update leaves the old or the new
      state; opening any directory comes to an end.
    - Raft node: [verify_invariants] never throws; committed entries are kept and
      applied once, in order; votes, commitment, AppendEntries, snapshot transfer
      and compaction do what Raft needs; a node rebuilt from what its actions
      persisted is the node.
    - Cluster of nodes: in every execution with crashes, restarts, lost, repeated
      and reordered messages, one leader for a term.  When nothing was stored at
      the beginning, the execution refines the protocol of [AbstractRaft]: logs
      that agree on a term agree below it, a leader holds what was committed in
      earlier terms, and no two nodes apply different entries at one index.
    - Persisted node: nothing is published before it is durable, and a crash keeps
      a prefix of the persistence actions.
    - Owner thread: a request is answered at most once and every answer is true:
      success is only reported for a committed command, which takes effect once;
      the state machine is the replay of the log over the snapshot.
    - TCP server: a connection gets back the responses of its own requests, in
      order, from a byte stream that is exactly the concatenation of their
      encodings; the configured limits hold; a completed request makes its
      connection readable again.

    Theorems of the files ending in [Witnesses] also record behaviour that the
    documents of the repository do not intend: a new log that can vanish, an
    interrupted snapshot installation that cannot be reopened, a state that
    cannot be snapshotted, a refusal that touches an erased connection, and a
    refused connection that is never read again.

    ** Bounds and fuel

    Loops of the code become structural recursion over the data they consume: the
    entries, the frames, the answers of the kernel, the results of socket calls.
    Six take fuel.  [Parser::consume] takes the number of bytes of its input, as
    each round consumes a byte (its out-of-fuel result does not occur,
    [consume_loop_refines]).  The recovery loops of [Wal.v] and [RaftStorage.v]
    take the size of the file, as each record has a header
    ([recover_loop_safe], [returns_recover_loop]).  [first_conflict] takes the
    length of the log it walks back through, [batches] the number of entries it
    distributes, and [decimal] twenty digits, enough for 64 bits.
    [Room] of [RaftSafety] keeps the log index and the request number of a node
    below 2^64 during one operation: the code has no check for their wrap-around,
    unlike that of the term, which throws and is modelled.  The limits on
    frames, keys, values, snapshots and queues are the constants of the code.

    ** Not modelled

    - Metrics, logging and the HTTP page of [server/admin_server.cpp]: they are
      printed for operators and no other part reads them.
    - [net/socket_ops.cpp], the creation of listeners, epoll instances, threads
      and connections, and the [main] functions: calls of the operating system.
    - The simulator [sim/raft_simulator.cpp] and the chaos tests, benchmarks and
      fuzzers: they drive the program and are no part of it.  The theorems about
      the cluster of [ElectionSafety] range over every schedule of its nodes.
    - Progress of the cluster: nothing is shown about when an election succeeds or
      an entry commits, which depends on timing.  That a snapshot sent to a peer
      is the state the covered entries lead to is shown for the node that takes
      it ([OwnerTheorems]), not across nodes.
    - Timing: deadlines are inputs.  The model says what a timeout does, not how
      long anything takes.
    - Weak memory: every critical section is atomic, as the mutexes make it.
    - [PersistedRaftNode::compact] with a snapshot that is already durable is
      modelled; the theorems about the driver are about the other case. *)

From Stdlib Require Import ZArith Lia.
From Stdlib Require Import Strings.Byte.
From stdpp Require Export base tactics numbers list gmap strings.

Global Open Scope Z_scope.

(** ** Notation and automation *)

Declare Scope forge_scope.
Delimit Scope forge_scope with forge.
Global Open Scope forge_scope.

Create HintDb forge.
Create Rewrite HintDb forge_len.

(** ** Machine integers

    Unsigned machine integers are integers of type [Z]; the wrap-around of the
    C++ arithmetic is written out with [u8], [u16], [u32] and [u64]. *)

Definition u8_max : Z := 255.
Definition u32_max : Z := 4294967295.
Definition u64_max : Z := 18446744073709551615.

Definition u8 (z : Z) : Z := z mod 256.
Definition u16 (z : Z) : Z := z mod 65536.
Definition u32 (z : Z) : Z := z mod 4294967296.
Definition u64 (z : Z) : Z := z mod 18446744073709551616.

Definition is_u16 (z : Z) : Prop := 0 <= z < 65536.
Definition is_u32 (z : Z) : Prop := 0 <= z < 4294967296.
Definition is_u64 (z : Z) : Prop := 0 <= z < 18446744073709551616.

Lemma u64_small z : is_u64 z -> u64 z = z.
Proof. apply Z.mod_small. Qed.

Lemma u32_small z : is_u32 z -> u32 z = z.
Proof. apply Z.mod_small. Qed.

Lemma u16_small z : is_u16 z -> u16 z = z.
Proof. apply Z.mod_small. Qed.

Lemma u64_range z : is_u64 (u64 z).
Proof. apply Z.mod_pos_bound. lia. Qed.

Lemma u32_range z : is_u32 (u32 z).
Proof. apply Z.mod_pos_bound. lia. Qed.

#[export] Hint Resolve u64_range u32_range : forge.

(** The number of elements of a container, as the unsigned [size()] of the
    C++ containers. *)
Definition size_of {A} (l : list A) : Z := Z.of_nat (length l).

Lemma size_of_nonneg {A} (l : list A) : 0 <= size_of l.
Proof. unfold size_of. lia. Qed.

Lemma size_of_app {A} (l k : list A) : size_of (l ++ k) = size_of l + size_of k.
Proof. unfold size_of. rewrite length_app. lia. Qed.

(** ** Bytes *)

Abbreviation byte := Byte.byte.

#[export] Instance byte_eq_dec : EqDecision byte := Byte.byte_eq_dec.

Definition Z_of_byte (b : byte) : Z := Z.of_N (Byte.to_N b).

(** [static_cast<std::byte>] of an unsigned value keeps its low eight bits. *)
Definition byte_of_Z (z : Z) : byte :=
  match Byte.of_N (Z.to_N (z mod 256)) with
  | Some b => b
  | None => Byte.x00
  end.

Lemma Z_of_byte_range b : 0 <= Z_of_byte b < 256.
Proof. unfold Z_of_byte. pose proof (Byte.to_N_bounded b). lia. Qed.

Lemma byte_of_Z_of_byte b : byte_of_Z (Z_of_byte b) = b.
Proof.
  unfold byte_of_Z. rewrite Z.mod_small by apply Z_of_byte_range.
  unfold Z_of_byte. rewrite N2Z.id, Byte.of_to_N. done.
Qed.

Lemma Z_of_byte_of_Z z : Z_of_byte (byte_of_Z z) = z mod 256.
Proof.
  unfold byte_of_Z. pose proof (Z.mod_pos_bound z 256 ltac:(lia)) as Hr.
  destruct (Byte.of_N (Z.to_N (z mod 256))) as [b|] eqn:E.
  - apply Byte.to_of_N in E. unfold Z_of_byte. rewrite E. lia.
  - apply Byte.of_N_None_iff in E. lia.
Qed.

#[export] Instance byte_inhabited : Inhabited byte := populate Byte.x00.

#[export] Program Instance byte_countable : Countable byte :=
  inj_countable' Byte.to_N (fun n => default Byte.x00 (Byte.of_N n)) _.
Next Obligation. intros b. simpl. by rewrite Byte.of_to_N. Qed.

Lemma Z_of_byte_inj a b : Z_of_byte a = Z_of_byte b -> a = b.
Proof.
  intros H. rewrite <- (byte_of_Z_of_byte a), <- (byte_of_Z_of_byte b). congruence.
Qed.

(** A [std::span] over part of a buffer: [subspan off n bs] is
    [bs.subspan(off, n)], and [byte_at bs i] is [bs[i]]. *)
Definition subspan (off n : nat) (bs : list byte) : list byte := take n (drop off bs).
Definition byte_at (bs : list byte) (i : nat) : byte := nth i bs Byte.x00.

(** ** Errors *)

(** The codes of [storage::StorageError] and [raft::RaftStorageError]. *)
Inductive StorageErrorCode : Set :=
| storage_io
| storage_corruption
| storage_invalid_lsn
| storage_closed.

Inductive RaftStorageErrorCode : Set :=
| raft_io
| raft_corruption
| raft_invalid_update
| raft_closed.

(** The exceptions the modelled code throws; [callback_error] stands for what a
    function supplied by the caller (an output sink, a hook) throws. *)
Inductive exn : Set :=
| invalid_argument
| out_of_range
| logic_error
| overflow_error
| length_error
| runtime_error
| storage_error (code : StorageErrorCode)
| raft_storage_error (code : RaftStorageErrorCode)
| callback_error.

#[export] Instance StorageErrorCode_eq_dec : EqDecision StorageErrorCode.
Proof. solve_decision. Defined.
#[export] Instance RaftStorageErrorCode_eq_dec : EqDecision RaftStorageErrorCode.
Proof. solve_decision. Defined.
#[export] Instance exn_eq_dec : EqDecision exn.
Proof. solve_decision. Defined.

Inductive result (A : Type) : Type :=
| Ok (a : A)
| Throw (e : exn).
Arguments Ok {A} _.
Arguments Throw {A} _.

(** ** Bit-level reasoning *)

Lemma testbit_shiftr_small a i n : 0 <= a < 2 ^ n -> n <= i -> Z.testbit a i = false.
Proof.
  intros Ha Hi. destruct (decide (a = 0)) as [->|Hne]; [apply Z.bits_0|].
  apply Z.bits_above_log2; [lia|].
  apply Z.log2_lt_pow2; [lia|].
  eapply Z.lt_le_trans; [apply Ha|]. apply Z.pow_le_mono_r; lia.
Qed.

Lemma below_pow2_bits a n :
  0 <= n -> 0 <= a -> (forall i, n <= i -> Z.testbit a i = false) -> a < 2 ^ n.
Proof.
  intros Hn Ha Hbits. destruct (decide (a = 0)) as [->|Hne]; [by apply Z.pow_pos_nonneg|].
  apply Z.log2_lt_pow2; [lia|].
  destruct (decide (n <= Z.log2 a)) as [Hle|]; [|lia].
  specialize (Hbits _ Hle). rewrite Z.bit_log2 in Hbits by lia. done.
Qed.

Lemma lxor_range a b n :
  0 <= n -> 0 <= a < 2 ^ n -> 0 <= b < 2 ^ n -> 0 <= Z.lxor a b < 2 ^ n.
Proof.
  intros Hn Ha Hb. assert (0 <= Z.lxor a b) by (apply Z.lxor_nonneg; lia).
  split; [done|]. apply below_pow2_bits; [done..|]. intros i Hi.
  by rewrite Z.lxor_spec, (testbit_shiftr_small a i n), (testbit_shiftr_small b i n).
Qed.

Lemma lor_range a b n :
  0 <= n -> 0 <= a < 2 ^ n -> 0 <= b < 2 ^ n -> 0 <= Z.lor a b < 2 ^ n.
Proof.
  intros Hn Ha Hb. assert (0 <= Z.lor a b) by (apply Z.lor_nonneg; lia).
  split; [done|]. apply below_pow2_bits; [done..|]. intros i Hi.
  by rewrite Z.lor_spec, (testbit_shiftr_small a i n), (testbit_shiftr_small b i n).
Qed.

(** ** Stateful code that may throw

    A computation over an object of type [S]: it returns the object as it left
    it together with its value or the exception it threw.  The object keeps the
    changes made before the throw, as the C++ member functions do. *)

Definition M (S A : Type) : Type := S -> S * result A.

Definition ret {S A} (a : A) : M S A := fun s => (s, Ok a).

Definition bind {S A B} (m : M S A) (k : A -> M S B) : M S B := fun s =>
  match m s with
  | (s', Ok a) => k a s'
  | (s', Throw e) => (s', Throw e)
  end.

Definition throw {S A} (e : exn) : M S A := fun s => (s, Throw e).
Definition get {S} : M S S := fun s => (s, Ok s).
Definition modify {S} (f : S -> S) : M S unit := fun s => (f s, Ok tt).

Notation "'let*' x := m 'in' k" := (bind m (fun x => k))
  (at level 10, x name, m at level 100, k at level 200) : forge_scope.
Notation "m ;; k" := (bind m (fun _ => k))
  (at level 100, k at level 200, right associativity) : forge_scope.

(** [if (b) { m }] *)
Definition when {S} (b : bool) (m : M S unit) : M S unit := if b then m else ret tt.

(** A range-for loop. *)
Fixpoint for_each {S A} (l : list A) (body : A -> M S unit) : M S unit :=
  match l with
  | [] => ret tt
  | a :: l' => body a ;; for_each l' body
  end.

(** Every state a computation ends in is related to the one it starts in. *)
Definition within {S A} (R : relation S) (m : M S A) : Prop := forall s, R s (m s).1.

Section Within.
Context {S : Type} (R : relation S) `{!PreOrder R}.

Lemma within_bind {A B} (m : M S A) (k : A -> M S B) :
  within R m -> (forall a, within R (k a)) -> within R (bind m k).
Proof.
  intros Hm Hk s. unfold bind. specialize (Hm s). destruct (m s) as [s1 [a|e]]; [|done].
  etransitivity; [exact Hm|apply Hk].
Qed.

Lemma within_ret {A} (a : A) : within R (ret a).
Proof. intros s. apply reflexivity. Qed.

Lemma within_throw {A} e : within R (throw (A := A) e).
Proof. intros s. apply reflexivity. Qed.

Lemma within_get : within R get.
Proof. intros s. apply reflexivity. Qed.

Lemma within_when b (m : M S unit) : within R m -> within R (when b m).
Proof. intros Hm. destruct b; [done|apply within_ret]. Qed.

Lemma within_for_each {A} (l : list A) (f : A -> M S unit) :
  (forall x, x ∈ l -> within R (f x)) -> within R (for_each l f).
Proof.
  induction l as [|x l IH]; intros Hf; [apply within_ret|].
  apply within_bind; [apply Hf; by left|]. intros _. apply IH. intros y Hy. apply Hf. by right.
Qed.

End Within.

(** Unfolding one computation step by step in a goal. *)
Lemma bind_Ok {S A B} (m : M S A) (k : A -> M S B) s s' a :
  m s = (s', Ok a) -> bind m k s = k a s'.
Proof. intros E. unfold bind. by rewrite E. Qed.

Lemma bind_inv {S A B} (m : M S A) (k : A -> M S B) s s' b :
  bind m k s = (s', Ok b) -> exists s1 a, m s = (s1, Ok a) /\ k a s1 = (s', Ok b).
Proof.
  unfold bind. destruct (m s) as [s1 [a|e]]; intros H; [by exists s1, a|done].
Qed.
