(* ===== verification/Wire.v ===== *)
(** * Big-endian wire integers

    [src/protocol/wire.h] and the [write_u16]/[read_u16] helpers that
    [wal_record.cpp], [raft_storage.cpp], [snapshot_store.cpp],
    [snapshot_codec.cpp] and [node.cpp] each repeat.  A write into a
    [std::span] is modelled by the bytes it stores; [write_at] stores them into
    a buffer at an offset. *)

From S2P Require Import Prelude.

(** ** Writers *)

Definition write_u16 (value : Z) : list byte :=
  [byte_of_Z (Z.land (Z.shiftr value 8) 255);
   byte_of_Z (Z.land value 255)].

Definition write_u32 (value : Z) : list byte :=
  [byte_of_Z (Z.land (Z.shiftr value 24) 255);
   byte_of_Z (Z.land (Z.shiftr value 16) 255);
   byte_of_Z (Z.land (Z.shiftr value 8) 255);
   byte_of_Z (Z.land value 255)].

(** The loop over [index < 8] with [shift = (7 - index) * 8]. *)
Definition write_u64 (value : Z) : list byte :=
  map (fun index : nat =>
         byte_of_Z (Z.land (Z.shiftr value ((7 - Z.of_nat index) * 8)) 255))
      (seq 0 8).

(** ** Readers *)

Definition read_u16 (source : list byte) : Z :=
  u16 (Z.lor (Z.shiftl (Z_of_byte (byte_at source 0)) 8)
             (Z_of_byte (byte_at source 1))).

Definition read_u32 (source : list byte) : Z :=
  Z.lor (Z.lor (Z.lor (u32 (Z.shiftl (Z_of_byte (byte_at source 0)) 24))
                      (u32 (Z.shiftl (Z_of_byte (byte_at source 1)) 16)))
               (u32 (Z.shiftl (Z_of_byte (byte_at source 2)) 8)))
        (Z_of_byte (byte_at source 3)).

(** The range-for over [source.first<8>()]. *)
Definition read_u64 (source : list byte) : Z :=
  fold_left (fun value b => Z.lor (u64 (Z.shiftl value 8)) (Z_of_byte b))
            (take 8 source) 0.

(** ** Buffers *)

(** Storing [data] into [buffer] from offset [off] on. *)
Definition write_at (off : nat) (data buffer : list byte) : list byte :=
  take off buffer ++ data ++ drop (off + length data) buffer.

(** [std::vector<std::byte> bytes(n)]: [n] zero bytes. *)
Definition zero_bytes (n : nat) : list byte := replicate n Byte.x00.

(** ** Lemmas *)

Lemma length_write_u16 v : length (write_u16 v) = 2%nat.
Proof. done. Qed.
Lemma length_write_u32 v : length (write_u32 v) = 4%nat.
Proof. done. Qed.
Lemma length_write_u64 v : length (write_u64 v) = 8%nat.
Proof. done. Qed.

#[export] Hint Rewrite length_write_u16 length_write_u32 length_write_u64 : forge_len.

Lemma byte_of_land_shiftr v n :
  0 <= n -> Z_of_byte (byte_of_Z (Z.land (Z.shiftr v n) 255)) = (v / 2 ^ n) mod 256.
Proof.
  intros Hn. rewrite Z_of_byte_of_Z.
  change 255 with (Z.ones 8). rewrite Z.land_ones by lia.
  rewrite Z.shiftr_div_pow2 by lia. change (2 ^ 8) with 256.
  apply Z.mod_mod. lia.
Qed.

(** Appending a byte below a shifted value is addition. *)
Lemma lor_shiftl_byte v k b :
  0 <= k -> 0 <= b < 2 ^ k -> Z.lor (Z.shiftl v k) b = v * 2 ^ k + b.
Proof.
  intros Hk Hb. rewrite <- Z.shiftl_mul_pow2 by lia.
  rewrite <- Z.add_lor_land, (Z.land_comm _ b).
  replace (Z.land b (Z.shiftl v k)) with 0; [lia|].
  symmetry. apply Z.bits_inj'. intros i Hi. rewrite Z.land_spec, Z.bits_0.
  destruct (decide (i < k)).
  - rewrite Z.shiftl_spec_low by lia. apply andb_false_r.
  - rewrite (testbit_shiftr_small b i k) by lia. done.
Qed.

Definition be_value (bs : list byte) : Z :=
  fold_left (fun value b => value * 256 + Z_of_byte b) bs 0.

Lemma read_u16_be b0 b1 rest :
  read_u16 (b0 :: b1 :: rest) = be_value [b0; b1].
Proof.
  unfold read_u16, be_value, byte_at. simpl nth. simpl fold_left.
  pose proof (Z_of_byte_range b0). pose proof (Z_of_byte_range b1).
  rewrite lor_shiftl_byte by (simpl; lia).
  unfold u16. rewrite Z.mod_small by (simpl; lia). simpl. lia.
Qed.

Lemma read_u32_be b0 b1 b2 b3 rest :
  read_u32 (b0 :: b1 :: b2 :: b3 :: rest) = be_value [b0; b1; b2; b3].
Proof.
  unfold read_u32, be_value, byte_at. simpl nth. simpl fold_left.
  pose proof (Z_of_byte_range b0). pose proof (Z_of_byte_range b1).
  pose proof (Z_of_byte_range b2). pose proof (Z_of_byte_range b3).
  unfold u32. rewrite !Z.shiftl_mul_pow2 by lia.
  rewrite !Z.mod_small by (simpl; lia).
  rewrite <- !Z.shiftl_mul_pow2 by lia.
  rewrite <- !Z.lor_assoc, (lor_shiftl_byte _ 8) by (simpl; lia).
  rewrite (lor_shiftl_byte _ 16) by (simpl; lia).
  rewrite (lor_shiftl_byte _ 24) by (simpl; lia).
  simpl Z.pow. lia.
Qed.

Lemma be_fold_bound bs acc :
  0 <= acc ->
  0 <= fold_left (fun value b => value * 256 + Z_of_byte b) bs acc
    < (acc + 1) * 256 ^ Z.of_nat (length bs).
Proof.
  revert acc. induction bs as [|b bs IH]; intros acc Hacc; simpl fold_left; [simpl; lia|].
  pose proof (Z_of_byte_range b).
  specialize (IH (acc * 256 + Z_of_byte b) ltac:(lia)).
  simpl length. rewrite Nat2Z.inj_succ, Z.pow_succ_r by lia.
  pose proof (Z.pow_pos_nonneg 256 (Z.of_nat (length bs)) ltac:(lia) ltac:(lia)).
  nia.
Qed.

(** The shifting loop of [read_u64] computes the positional value as long as
    nothing is shifted out of the 64 bits. *)
Lemma read_u64_fold bs acc :
  0 <= acc -> (acc + 1) * 256 ^ Z.of_nat (length bs) <= 18446744073709551616 ->
  fold_left (fun value b => Z.lor (u64 (Z.shiftl value 8)) (Z_of_byte b)) bs acc =
  fold_left (fun value b => value * 256 + Z_of_byte b) bs acc.
Proof.
  revert acc. induction bs as [|b bs IH]; intros acc Hacc Hle; [done|]. simpl fold_left.
  simpl length in Hle. rewrite Nat2Z.inj_succ, Z.pow_succ_r in Hle by lia.
  pose proof (Z_of_byte_range b).
  pose proof (Z.pow_pos_nonneg 256 (Z.of_nat (length bs)) ltac:(lia) ltac:(lia)).
  unfold u64 at 2. rewrite Z.mod_small; cycle 1.
  { rewrite Z.shiftl_mul_pow2 by lia. change (2 ^ 8) with 256. nia. }
  rewrite lor_shiftl_byte by (simpl; lia). change (2 ^ 8) with 256.
  apply IH; [simpl; lia|].
  etransitivity; [|exact Hle]. change (2 ^ 8) with 256.
  rewrite Z.mul_assoc. apply Z.mul_le_mono_nonneg_r; lia.
Qed.

Lemma read_u64_be source :
  length source = 8%nat -> read_u64 source = be_value source.
Proof.
  intros Hlen. unfold read_u64, be_value.
  rewrite take_ge by lia. apply read_u64_fold; [lia|]. rewrite Hlen. vm_compute. done.
Qed.

(** ** Round trips *)

Lemma be_value_split bs b :
  be_value (bs ++ [b]) = be_value bs * 256 + Z_of_byte b.
Proof. unfold be_value. rewrite fold_left_app. done. Qed.

(** The low [n] bytes of [v], most significant first. *)
Fixpoint be_bytes (n : nat) (v : Z) : list byte :=
  match n with
  | O => []
  | S n' => be_bytes n' (v / 256) ++ [byte_of_Z (v mod 256)]
  end.

Lemma be_value_bytes n v : be_value (be_bytes n v) = v mod 256 ^ Z.of_nat n.
Proof.
  revert v. induction n as [|n IH]; intros v; [simpl; rewrite Z.mod_1_r; done|].
  simpl be_bytes. rewrite be_value_split, IH, Z_of_byte_of_Z, Z.mod_mod by lia.
  rewrite Nat2Z.inj_succ, Z.pow_succ_r by lia.
  pose proof (Z.pow_pos_nonneg 256 (Z.of_nat n) ltac:(lia) ltac:(lia)).
  rewrite Z.rem_mul_r by lia. lia.
Qed.

Lemma be_byte_low v : byte_of_Z (Z.land v 255) = byte_of_Z (v mod 256).
Proof. change 255 with (Z.ones 8). by rewrite Z.land_ones by lia. Qed.

Lemma be_byte_shift v n :
  0 <= n -> byte_of_Z (Z.land (Z.shiftr v n) 255) = byte_of_Z (v / 2 ^ n mod 256).
Proof. intros Hn. by rewrite be_byte_low, Z.shiftr_div_pow2 by lia. Qed.

Lemma write_u16_be v : write_u16 v = be_bytes 2 v.
Proof. unfold write_u16. rewrite be_byte_shift, be_byte_low by lia. done. Qed.

Lemma write_u32_be v : write_u32 v = be_bytes 4 v.
Proof.
  unfold write_u32. simpl be_bytes. rewrite !be_byte_shift, be_byte_low, !Z.div_div by lia. done.
Qed.

Lemma write_u64_be v : write_u64 v = be_bytes 8 v.
Proof.
  unfold write_u64. simpl seq. simpl map. simpl be_bytes.
  rewrite !be_byte_shift, !Z.div_div by lia. rewrite Z.div_1_r. done.
Qed.

Lemma read_write_u16 v rest : is_u16 v -> read_u16 (write_u16 v ++ rest) = v.
Proof.
  intros Hv. unfold write_u16. simpl app. rewrite read_u16_be.
  change (be_value (write_u16 v) = v).
  rewrite write_u16_be, be_value_bytes. by apply Z.mod_small.
Qed.

Lemma read_write_u32 v rest : is_u32 v -> read_u32 (write_u32 v ++ rest) = v.
Proof.
  intros Hv. unfold write_u32. simpl app. rewrite read_u32_be.
  change (be_value (write_u32 v) = v).
  rewrite write_u32_be, be_value_bytes. by apply Z.mod_small.
Qed.

Lemma read_write_u64 v rest : is_u64 v -> read_u64 (write_u64 v ++ rest) = v.
Proof.
  intros Hv. unfold read_u64. rewrite take_app_le by done.
  change (read_u64 (write_u64 v) = v).
  rewrite read_u64_be, write_u64_be, be_value_bytes by done. by apply Z.mod_small.
Qed.

(** ** Reading back what a decoder accepted *)

Lemma be_bytes_value bs : be_bytes (length bs) (be_value bs) = bs.
Proof.
  induction bs as [|b bs IH] using rev_ind; [done|].
  rewrite length_app, Nat.add_comm. simpl be_bytes.
  rewrite be_value_split. pose proof (Z_of_byte_range b).
  rewrite Z.div_add_l, Z.div_small, Z.add_0_r, IH by lia.
  rewrite Z.add_comm, Z.mod_add, Z.mod_small, byte_of_Z_of_byte by lia. done.
Qed.

Lemma be_value_range bs : 0 <= be_value bs < 256 ^ Z.of_nat (length bs).
Proof. pose proof (be_fold_bound bs 0 ltac:(lia)). unfold be_value. lia. Qed.

Lemma write_read_u64 bs : length bs = 8%nat -> write_u64 (read_u64 bs) = bs.
Proof. intros H. rewrite read_u64_be, write_u64_be by done. rewrite <- H. apply be_bytes_value. Qed.

Lemma read_u64_range bs : length bs = 8%nat -> is_u64 (read_u64 bs).
Proof.
  intros H. rewrite read_u64_be by done. pose proof (be_value_range bs) as Hr.
  rewrite H in Hr. apply Hr.
Qed.

Lemma write_read_u32 bs : length bs = 4%nat -> write_u32 (read_u32 bs) = bs.
Proof.
  intros H. destruct bs as [|a [|b [|c [|d [|]]]]]; try done.
  rewrite read_u32_be, write_u32_be. apply (be_bytes_value [a; b; c; d]).
Qed.

Lemma read_u32_range bs : length bs = 4%nat -> is_u32 (read_u32 bs).
Proof.
  intros H. destruct bs as [|a [|b [|c [|d [|]]]]]; try done.
  rewrite read_u32_be. apply (be_value_range [a; b; c; d]).
Qed.

Lemma write_read_u16 bs : length bs = 2%nat -> write_u16 (read_u16 bs) = bs.
Proof.
  intros H. destruct bs as [|a [|b [|]]]; try done.
  rewrite read_u16_be, write_u16_be. apply (be_bytes_value [a; b]).
Qed.

(** ** Stores into buffers *)

Lemma length_write_at off data buffer :
  (off + length data <= length buffer)%nat ->
  length (write_at off data buffer) = length buffer.
Proof. intros H. unfold write_at. rewrite !length_app, length_take, length_drop. lia. Qed.

Lemma write_at_app_l off data a b :
  (off + length data <= length a)%nat ->
  write_at off data (a ++ b) = write_at off data a ++ b.
Proof.
  intros H. unfold write_at. rewrite take_app_le, drop_app_le by lia.
  by rewrite !(assoc_L (++)).
Qed.

Lemma write_at_app_r off data a b :
  (length a <= off)%nat ->
  write_at off data (a ++ b) = a ++ write_at (off - length a) data b.
Proof.
  intros H. unfold write_at. rewrite take_app_ge, drop_app_ge by lia.
  rewrite <- !(assoc_L (++)). repeat f_equal. lia.
Qed.

Lemma write_at_all data buffer :
  length data = length buffer -> write_at 0 data buffer = data.
Proof. intros H. unfold write_at. simpl. rewrite drop_ge, app_nil_r by lia. done. Qed.

(** ** Fixed-size fields as explicit bytes

    [explode_u64 v] replaces [write_u64 v] by eight bytes, so that stores and
    reads at fixed offsets compute. *)

Ltac explode_u16 v :=
  let L := fresh in pose proof (length_write_u16 v) as L;
  generalize dependent (write_u16 v); let l := fresh "l" in intros l L;
  do 3 (destruct l as [|? l]; [try done|try done]); clear L.

Ltac explode_u32 v :=
  let L := fresh in pose proof (length_write_u32 v) as L;
  generalize dependent (write_u32 v); let l := fresh "l" in intros l;
  intros; do 5 (destruct l as [|? l]; [try done|try done]); try clear L.

Ltac explode_u64 v :=
  let L := fresh in pose proof (length_write_u64 v) as L;
  generalize dependent (write_u64 v); let l := fresh "l" in intros l;
  intros; do 9 (destruct l as [|? l]; [try done|try done]); try clear L.
