(* ===== verification/Checksum.v ===== *)
(** * CRC-32

    [src/protocol/checksum.h] and [checksum.cpp]: the eight lookup tables of the
    slicing-by-8 algorithm, the [Crc32] accumulator and [crc32].  The reference
    definition processes one bit at a time; the table-driven update, which takes
    eight bytes per round and then the remaining ones, is proved equal to it, so
    that a checksum does not depend on how the input is cut into chunks. *)

From S2P Require Import Prelude.

(** ** The code *)

(** One round of the bit loop of [make_crc32_tables]. *)
Definition crc_bit (remainder : Z) : Z :=
  Z.lxor (Z.shiftr remainder 1)
         (if Z.land remainder 1 =? 0 then 0 else 3988292384).

(** The bit loop: [tables[0][value]] is [crc_shift value]. *)
Definition crc_shift (remainder : Z) : Z := Nat.iter 8 crc_bit remainder.

(** [tables[slice]] from [tables[0]] and [tables[slice - 1]]. *)
Definition crc_next_table (first previous : list Z) : list Z :=
  map (fun p => Z.lxor (Z.shiftr p 8) (nth (Z.to_nat (Z.land p 255)) first 0)) previous.

(** The tables, [tables[0]] first. *)
Definition make_crc32_tables : list (list Z) :=
  let first := map (fun value : nat => crc_shift (Z.of_nat value)) (seq 0 256) in
  map (fun slice : nat => Nat.iter slice (crc_next_table first) first) (seq 0 8).

Definition kCrc32Tables : list (list Z) := Eval vm_compute in make_crc32_tables.

(** [kCrc32Tables[slice][index]] *)
Definition crc_table (slice : nat) (index : Z) : Z :=
  nth (Z.to_nat index) (nth slice kCrc32Tables []) 0.

(** The body of the byte-wise loop of [Crc32::update]. *)
Definition crc_update_byte (remainder : Z) (b : byte) : Z :=
  let index := Z.land (Z.lxor remainder (Z_of_byte b)) 255 in
  Z.lxor (Z.shiftr remainder 8) (crc_table 0 index).

(** The body of the eight-byte loop of [Crc32::update]. *)
Definition crc_update_eight (remainder : Z) (b0 b1 b2 b3 b4 b5 b6 b7 : byte) : Z :=
  let first := Z.lor (Z.lor (Z.lor (Z_of_byte b0) (u32 (Z.shiftl (Z_of_byte b1) 8)))
                            (u32 (Z.shiftl (Z_of_byte b2) 16)))
                     (u32 (Z.shiftl (Z_of_byte b3) 24)) in
  let combined := Z.lxor remainder first in
  Z.lxor (Z.lxor (Z.lxor (Z.lxor (Z.lxor (Z.lxor (Z.lxor
    (crc_table 7 (Z.land combined 255))
    (crc_table 6 (Z.land (Z.shiftr combined 8) 255)))
    (crc_table 5 (Z.land (Z.shiftr combined 16) 255)))
    (crc_table 4 (Z.shiftr combined 24)))
    (crc_table 3 (Z_of_byte b4)))
    (crc_table 2 (Z_of_byte b5)))
    (crc_table 1 (Z_of_byte b6)))
    (crc_table 0 (Z_of_byte b7)).

(** [Crc32::update] on the remainder: the [while (remaining.size() >= 8)] loop,
    then the byte-wise loop. *)
Fixpoint crc_loops (eight : Z -> byte -> byte -> byte -> byte -> byte -> byte -> byte -> byte -> Z)
    (one : Z -> byte -> Z) (remainder : Z) (remaining : list byte) : Z :=
  match remaining with
  | b0 :: b1 :: b2 :: b3 :: b4 :: b5 :: b6 :: b7 :: rest =>
      crc_loops eight one (eight remainder b0 b1 b2 b3 b4 b5 b6 b7) rest
  | _ => fold_left one remaining remainder
  end.

Definition Crc32_update : Z -> list byte -> Z := crc_loops crc_update_eight crc_update_byte.

Definition Crc32_init : Z := 4294967295.

(** [Crc32::value] *)
Definition Crc32_value (remainder : Z) : Z := Z.lxor remainder 4294967295.

Definition crc32 (bytes : list byte) : Z :=
  Crc32_value (Crc32_update Crc32_init bytes).

(** ** The reference: one bit at a time *)

Definition crc_ref_byte (remainder : Z) (b : byte) : Z :=
  crc_shift (Z.lxor remainder (Z_of_byte b)).

Definition crc_ref (remainder : Z) (bytes : list byte) : Z :=
  fold_left crc_ref_byte bytes remainder.

(** ** The bit step is linear over exclusive or *)

Lemma kCrc32Tables_eq : kCrc32Tables = make_crc32_tables.
Proof. vm_compute. reflexivity. Qed.

Lemma land_1_lxor a b :
  Z.land (Z.lxor a b) 1 = Z.lxor (Z.land a 1) (Z.land b 1).
Proof.
  apply Z.bits_inj'. intros i Hi.
  rewrite Z.land_spec, !Z.lxor_spec, !Z.land_spec.
  destruct (Z.testbit a i), (Z.testbit b i), (Z.testbit 1 i); done.
Qed.

Lemma land_1_cases a : Z.land a 1 = 0 \/ Z.land a 1 = 1.
Proof.
  pose proof (Z.land_ones a 1 ltac:(lia)) as H. change (Z.ones 1) with 1 in H.
  change (2 ^ 1) with 2 in H. pose proof (Z.mod_pos_bound a 2 ltac:(lia)). lia.
Qed.

Lemma crc_bit_lxor a b : crc_bit (Z.lxor a b) = Z.lxor (crc_bit a) (crc_bit b).
Proof.
  unfold crc_bit. rewrite Z.shiftr_lxor, land_1_lxor.
  destruct (land_1_cases a) as [-> | ->], (land_1_cases b) as [-> | ->]; simpl;
  rewrite ?Z.lxor_0_r; try done;
  apply Z.bits_inj'; intros i Hi; rewrite !Z.lxor_spec;
  destruct (Z.testbit (a ≫ 1) i), (Z.testbit (b ≫ 1) i), (Z.testbit 3988292384 i); done.
Qed.

Lemma crc_bits_lxor n a b :
  Nat.iter n crc_bit (Z.lxor a b) = Z.lxor (Nat.iter n crc_bit a) (Nat.iter n crc_bit b).
Proof. induction n as [|n IH]; [done|]. by rewrite !Nat.iter_succ, IH, crc_bit_lxor. Qed.

Lemma crc_shift_lxor a b : crc_shift (Z.lxor a b) = Z.lxor (crc_shift a) (crc_shift b).
Proof. unfold crc_shift. by rewrite crc_bits_lxor. Qed.

Lemma crc_shifts_lxor n a b :
  Nat.iter n crc_shift (Z.lxor a b) = Z.lxor (Nat.iter n crc_shift a) (Nat.iter n crc_shift b).
Proof. induction n as [|n IH]; [done|]. by rewrite !Nat.iter_succ, IH, crc_shift_lxor. Qed.

Lemma crc_bit_even x : crc_bit (Z.shiftl x 1) = x.
Proof.
  unfold crc_bit. replace (Z.land (Z.shiftl x 1) 1) with 0.
  - simpl. rewrite Z.lxor_0_r, Z.shiftr_shiftl_l, Z.shiftl_0_r by lia. done.
  - pose proof (Z.land_ones (Z.shiftl x 1) 1 ltac:(lia)) as H. change (Z.ones 1) with 1 in H.
    rewrite H, Z.shiftl_mul_pow2 by lia. symmetry. by apply Z.mod_mul.
Qed.

(** A value above the low byte is just shifted down. *)
Lemma crc_shift_high x : crc_shift (Z.shiftl x 8) = x.
Proof.
  unfold crc_shift.
  assert (forall n, Nat.iter n crc_bit (Z.shiftl x (Z.of_nat n)) = x) as Hn.
  { intros n. induction n as [|n IH]; [apply Z.shiftl_0_r|].
    rewrite Nat.iter_succ_r.
    replace (Z.shiftl x (Z.of_nat (S n)))
      with (Z.shiftl (Z.shiftl x (Z.of_nat n)) 1); [by rewrite crc_bit_even|].
    rewrite Z.shiftl_shiftl by lia. f_equal. lia. }
  apply (Hn 8%nat).
Qed.

Lemma split_low_byte r : r = Z.lxor (Z.shiftl (Z.shiftr r 8) 8) (Z.land r 255).
Proof.
  apply Z.bits_inj'. intros i Hi. rewrite Z.lxor_spec, Z.land_spec.
  change 255 with (Z.ones 8).
  destruct (decide (i < 8)).
  - rewrite Z.shiftl_spec_low, Z.ones_spec_low by lia.
    by destruct (Z.testbit r i).
  - rewrite Z.shiftl_spec_high, Z.shiftr_spec, Z.ones_spec_high by lia.
    replace (i - 8 + 8) with i by lia. by destruct (Z.testbit r i).
Qed.

Lemma land_255_range z : 0 <= Z.land z 255 < 256.
Proof. change 255 with (Z.ones 8). rewrite Z.land_ones by lia. apply Z.mod_pos_bound. lia. Qed.

Lemma land_255_byte b : Z.land (Z_of_byte b) 255 = Z_of_byte b.
Proof.
  change 255 with (Z.ones 8). rewrite Z.land_ones by lia.
  apply Z.mod_small, Z_of_byte_range.
Qed.

Lemma crc_bit_range r : 0 <= r < 2 ^ 32 -> 0 <= crc_bit r < 2 ^ 32.
Proof.
  intros Hr. unfold crc_bit. apply lxor_range; [lia| |destruct (_ =? _); simpl; lia].
  rewrite Z.shiftr_div_pow2 by lia. split; [apply Z.div_pos; simpl; lia|].
  apply Z.div_lt_upper_bound; simpl in *; lia.
Qed.

Lemma crc_ref_byte_range r b : 0 <= r < 2 ^ 32 -> 0 <= crc_ref_byte r b < 2 ^ 32.
Proof.
  intros Hr. unfold crc_ref_byte, crc_shift. cbn [Nat.iter].
  repeat apply crc_bit_range. apply lxor_range; [lia|done|].
  pose proof (Z_of_byte_range b). simpl. lia.
Qed.

Lemma crc_shift_eq r : crc_shift r = Nat.iter 8 crc_bit r.
Proof. reflexivity. Qed.

#[local] Opaque crc_shift.

(** ** The tables hold shifted bytes *)

Definition crc_first_table : list Z :=
  map (fun value : nat => crc_shift (Z.of_nat value)) (seq 0 256).

Lemma nth_map_seq {A} (f : nat -> A) (n : nat) (i : nat) (d : A) :
  (i < n)%nat -> nth i (map f (seq 0 n)) d = f i.
Proof.
  intros Hi. rewrite (nth_indep _ d (f 0%nat)) by (rewrite length_map, length_seq; lia).
  rewrite map_nth, seq_nth by lia. done.
Qed.

Lemma crc_first_table_nth i :
  0 <= i < 256 -> nth (Z.to_nat i) crc_first_table 0 = crc_shift i.
Proof.
  intros Hi. unfold crc_first_table. rewrite nth_map_seq by lia.
  by rewrite Z2Nat.id by lia.
Qed.

Lemma crc_shift_table p :
  Z.lxor (Z.shiftr p 8) (nth (Z.to_nat (Z.land p 255)) crc_first_table 0) = crc_shift p.
Proof.
  rewrite crc_first_table_nth by apply land_255_range.
  rewrite (split_low_byte p) at 3. by rewrite crc_shift_lxor, crc_shift_high.
Qed.

Lemma crc_tables_slice slice :
  Nat.iter slice (crc_next_table crc_first_table) crc_first_table =
  map (fun value : nat => Nat.iter (S slice) crc_shift (Z.of_nat value)) (seq 0 256).
Proof.
  induction slice as [|slice IH].
  { reflexivity. }
  rewrite Nat.iter_succ, IH. unfold crc_next_table. rewrite map_map.
  apply map_ext. intros v. rewrite crc_shift_table. by rewrite <- Nat.iter_succ.
Qed.

(** [kCrc32Tables[slice][i]] is the byte [i] followed by [slice] zero bytes. *)
Lemma crc_table_shift slice i :
  (slice < 8)%nat -> 0 <= i < 256 ->
  crc_table slice i = Nat.iter (S slice) crc_shift i.
Proof.
  intros Hs Hi. unfold crc_table. rewrite kCrc32Tables_eq.
  unfold make_crc32_tables. rewrite nth_map_seq by lia.
  fold crc_first_table. rewrite crc_tables_slice, nth_map_seq by lia.
  by rewrite Z2Nat.id by lia.
Qed.

#[global] Opaque crc_table.

(** ** One byte *)

Lemma crc_update_byte_ref r b : crc_update_byte r b = crc_ref_byte r b.
Proof.
  unfold crc_update_byte. cbv zeta.
  rewrite crc_table_shift by (lia || apply land_255_range). cbn [Nat.iter].
  unfold crc_ref_byte.
  rewrite (split_low_byte (Z.lxor r (Z_of_byte b))) at 2.
  rewrite crc_shift_lxor, crc_shift_high. f_equal.
  rewrite Z.shiftr_lxor. pose proof (Z_of_byte_range b).
  by rewrite (Z.shiftr_div_pow2 (Z_of_byte b)), Z.div_small, Z.lxor_0_r by (simpl; lia).
Qed.

(** ** Eight bytes *)

Lemma lor_disjoint_lxor a b : Z.land a b = 0 -> Z.lor a b = Z.lxor a b.
Proof.
  intros H. apply Z.bits_inj'. intros i Hi. rewrite Z.lor_spec, Z.lxor_spec.
  assert (Z.testbit (Z.land a b) i = false) as Hb by (by rewrite H, Z.bits_0).
  rewrite Z.land_spec in Hb. destruct (Z.testbit a i), (Z.testbit b i); done.
Qed.

Lemma lor_shift_lxor b x : Z.lor (Z_of_byte b) (Z.shiftl x 8) = Z.lxor (Z_of_byte b) (Z.shiftl x 8).
Proof.
  apply lor_disjoint_lxor, Z.bits_inj'. intros i Hi. rewrite Z.land_spec, Z.bits_0.
  destruct (decide (i < 8)).
  - rewrite Z.shiftl_spec_low by lia. apply andb_false_r.
  - rewrite (testbit_shiftr_small _ i 8); [done| |lia]. apply Z_of_byte_range.
Qed.

Lemma crc_shifts_high n x :
  Nat.iter (S n) crc_shift (Z.shiftl x 8) = Nat.iter n crc_shift x.
Proof. rewrite Nat.iter_succ_r. by rewrite crc_shift_high. Qed.

(** Shifting a value peels its low byte off. *)
Lemma crc_shifts_split n r :
  Nat.iter (S n) crc_shift r =
  Z.lxor (Nat.iter (S n) crc_shift (Z.land r 255)) (Nat.iter n crc_shift (Z.shiftr r 8)).
Proof.
  rewrite (split_low_byte r) at 1. rewrite crc_shifts_lxor, crc_shifts_high.
  apply Z.lxor_comm.
Qed.

(** The little-endian word of four bytes, as nested shifts. *)
Lemma crc_word_nested b0 b1 b2 b3 :
  Z.lor (Z.lor (Z.lor (Z_of_byte b0) (u32 (Z.shiftl (Z_of_byte b1) 8)))
               (u32 (Z.shiftl (Z_of_byte b2) 16)))
        (u32 (Z.shiftl (Z_of_byte b3) 24)) =
  Z.lxor (Z_of_byte b0) (Z.shiftl (Z.lxor (Z_of_byte b1) (Z.shiftl
    (Z.lxor (Z_of_byte b2) (Z.shiftl (Z_of_byte b3) 8)) 8)) 8).
Proof.
  pose proof (Z_of_byte_range b1). pose proof (Z_of_byte_range b2). pose proof (Z_of_byte_range b3).
  unfold u32. rewrite !Z.mod_small by (rewrite Z.shiftl_mul_pow2 by lia; simpl; lia).
  rewrite <- !lor_shift_lxor, !Z.shiftl_lor, !Z.shiftl_shiftl by lia.
  by rewrite <- !Z.lor_assoc.
Qed.

Lemma crc_word_range b0 b1 b2 b3 :
  0 <= Z.lor (Z.lor (Z.lor (Z_of_byte b0) (u32 (Z.shiftl (Z_of_byte b1) 8)))
               (u32 (Z.shiftl (Z_of_byte b2) 16)))
        (u32 (Z.shiftl (Z_of_byte b3) 24)) < 2 ^ 32.
Proof.
  pose proof (Z_of_byte_range b0).
  repeat apply lor_range; try apply u32_range; simpl; lia.
Qed.

Lemma crc_ref_range bs r : 0 <= r < 2 ^ 32 -> 0 <= crc_ref r bs < 2 ^ 32.
Proof.
  revert r. induction bs as [|b bs IH]; intros r Hr; [done|].
  simpl. apply IH. by apply crc_ref_byte_range.
Qed.

Lemma crc_update_eight_ref r b0 b1 b2 b3 b4 b5 b6 b7 :
  0 <= r < 2 ^ 32 ->
  crc_update_eight r b0 b1 b2 b3 b4 b5 b6 b7 = crc_ref r [b0; b1; b2; b3; b4; b5; b6; b7].
Proof.
  intros Hr. unfold crc_update_eight. cbv zeta.
  pose proof (crc_word_range b0 b1 b2 b3) as Hw.
  pose proof (crc_word_nested b0 b1 b2 b3) as Hn.
  set (word := Z.lor _ _) in *.
  pose proof (lxor_range r word 32 ltac:(lia) Hr Hw) as Hc.
  assert (0 <= Z.shiftr (Z.lxor r word) 24 < 256) as Htop.
  { rewrite Z.shiftr_div_pow2 by lia. split; [apply Z.div_pos; simpl; lia|].
    apply Z.div_lt_upper_bound; simpl in *; lia. }
  rewrite !crc_table_shift by (lia || apply land_255_range || apply Z_of_byte_range || apply Htop).
  assert (forall c, Z.lxor (Z.lxor (Z.lxor (Nat.iter 8 crc_shift (Z.land c 255))
      (Nat.iter 7 crc_shift (Z.land (Z.shiftr c 8) 255)))
      (Nat.iter 6 crc_shift (Z.land (Z.shiftr c 16) 255)))
      (Nat.iter 5 crc_shift (Z.shiftr c 24)) = Nat.iter 8 crc_shift c) as Hsplit.
  { intros c. rewrite (crc_shifts_split 7 c), (crc_shifts_split 6 (Z.shiftr c 8)).
    rewrite Z.shiftr_shiftr by lia. rewrite (crc_shifts_split 5 (Z.shiftr c (8 + 8))).
    rewrite Z.shiftr_shiftr by lia. by rewrite !Z.lxor_assoc. }
  rewrite Hsplit, crc_shifts_lxor, Hn.
  rewrite (crc_shifts_lxor 8 (Z_of_byte b0)), crc_shifts_high.
  rewrite (crc_shifts_lxor 7 (Z_of_byte b1)), crc_shifts_high.
  rewrite (crc_shifts_lxor 6 (Z_of_byte b2)), crc_shifts_high.
  unfold crc_ref. cbn [fold_left]. unfold crc_ref_byte.
  rewrite !crc_shift_lxor. cbn [Nat.iter]. by rewrite !Z.lxor_assoc.
Qed.

(** ** The table-driven update is the bitwise definition *)

(** Both loops together fold a one-byte function [h], when each of them agrees
    with it on the remainders that can occur. *)
Lemma crc_loops_fold eight one h (P : Z -> Prop) :
  (forall r b, P r -> one r b = h r b) ->
  (forall r b0 b1 b2 b3 b4 b5 b6 b7, P r ->
     eight r b0 b1 b2 b3 b4 b5 b6 b7 = fold_left h [b0; b1; b2; b3; b4; b5; b6; b7] r) ->
  (forall r b, P r -> P (h r b)) ->
  forall bs r, P r -> crc_loops eight one r bs = fold_left h bs r.
Proof.
  intros Hone Height HP.
  assert (forall bs r, P r -> fold_left one bs r = fold_left h bs r) as Hones.
  { induction bs as [|b bs IH]; intros r Hr; [done|]. cbn [fold_left].
    rewrite Hone by done. auto. }
  assert (forall bs r, P r -> P (fold_left h bs r)) as HPs.
  { induction bs as [|b bs IH]; intros r Hr; [done|]. cbn [fold_left]. auto. }
  intros bs. induction bs as [bs IH] using (induction_ltof1 _ (@length byte)).
  unfold ltof in IH. intros r Hr.
  do 8 (destruct bs as [|? bs]; [by apply Hones|]).
  cbn [crc_loops]. rewrite IH.
  - by rewrite Height.
  - cbn [length]. lia.
  - rewrite Height by done. auto.
Qed.

Lemma Crc32_update_ref bs r : 0 <= r < 2 ^ 32 -> Crc32_update r bs = crc_ref r bs.
Proof.
  apply (crc_loops_fold _ _ _ (fun r => 0 <= r < 2 ^ 32)).
  - intros. apply crc_update_byte_ref.
  - intros. by apply crc_update_eight_ref.
  - apply crc_ref_byte_range.
Qed.

Lemma Crc32_update_range bs r : 0 <= r < 2 ^ 32 -> 0 <= Crc32_update r bs < 2 ^ 32.
Proof. intros Hr. rewrite Crc32_update_ref by done. by apply crc_ref_range. Qed.

Lemma Crc32_update_app a b r :
  0 <= r < 2 ^ 32 -> Crc32_update r (a ++ b) = Crc32_update (Crc32_update r a) b.
Proof.
  intros Hr. pose proof (Crc32_update_range a r Hr).
  rewrite !Crc32_update_ref by (done || by rewrite <- Crc32_update_ref).
  unfold crc_ref. by rewrite fold_left_app.
Qed.

Lemma Crc32_value_range r : 0 <= r < 2 ^ 32 -> is_u32 (Crc32_value r).
Proof. intros Hr. apply (lxor_range r 4294967295 32); simpl; lia. Qed.

Lemma Crc32_init_range : 0 <= Crc32_init < 2 ^ 32.
Proof. vm_compute. split; congruence. Qed.

#[export] Hint Resolve Crc32_update_range Crc32_value_range Crc32_init_range : forge.

(** ** Error detection

    One bit step loses nothing: it sends only zero to zero.  So the whole update is injective in the remainder, and in any window
    of at most four bytes. *)

Lemma crc_bit_kernel x : 0 <= x < 2 ^ 32 -> crc_bit x = 0 -> x = 0.
Proof.
  intros Hx E. unfold crc_bit in E. apply Z.lxor_eq in E.
  destruct (land_1_cases x) as [Hl|Hl]; rewrite Hl in E; simpl in E.
  - change 1 with (Z.ones 1) in Hl. rewrite Z.land_ones in Hl by lia.
    rewrite Z.shiftr_div_pow2 in E by lia. change (2 ^ 1) with 2 in *.
    pose proof (Z.div_mod x 2). lia.
  - rewrite Z.shiftr_div_pow2 in E by lia. change (2 ^ 1) with 2 in *.
    change (2 ^ 32) with 4294967296 in Hx. pose proof (Z.div_mod x 2 ltac:(lia)).
    pose proof (Z.mod_pos_bound x 2 ltac:(lia)). lia.
Qed.

Lemma crc_bit_inj a b :
  0 <= a < 2 ^ 32 -> 0 <= b < 2 ^ 32 -> crc_bit a = crc_bit b -> a = b.
Proof.
  intros Ha Hb E.
  apply Z.lxor_eq, crc_bit_kernel; [by apply lxor_range|].
  rewrite crc_bit_lxor, E. apply Z.lxor_nilpotent.
Qed.

Lemma crc_bits_range n r : 0 <= r < 2 ^ 32 -> 0 <= Nat.iter n crc_bit r < 2 ^ 32.
Proof. intros Hr. induction n as [|n IH]; [done|]. by apply crc_bit_range. Qed.

Lemma crc_bits_inj n a b :
  0 <= a < 2 ^ 32 -> 0 <= b < 2 ^ 32 ->
  Nat.iter n crc_bit a = Nat.iter n crc_bit b -> a = b.
Proof.
  intros Ha Hb. induction n as [|n IH]; intros E; [done|].
  apply IH, crc_bit_inj; [by apply crc_bits_range..|done].
Qed.

Lemma crc_shift_range r : 0 <= r < 2 ^ 32 -> 0 <= crc_shift r < 2 ^ 32.
Proof. rewrite crc_shift_eq. apply (crc_bits_range 8). Qed.

Lemma crc_shift_inj a b :
  0 <= a < 2 ^ 32 -> 0 <= b < 2 ^ 32 -> crc_shift a = crc_shift b -> a = b.
Proof.
  intros Ha Hb E. rewrite (crc_shift_eq a), (crc_shift_eq b) in E.
  exact (crc_bits_inj 8 a b Ha Hb E).
Qed.

Lemma lxor_cancel c a b : Z.lxor c a = Z.lxor c b -> a = b.
Proof.
  intros E. rewrite <- (Z.lxor_0_l a), <- (Z.lxor_0_l b), <- (Z.lxor_nilpotent c).
  by rewrite !Z.lxor_assoc, E.
Qed.

Lemma byte_below b : 0 <= Z_of_byte b < 2 ^ 32.
Proof. pose proof (Z_of_byte_range b). simpl. lia. Qed.

Lemma crc_ref_byte_inj a b c :
  0 <= a < 2 ^ 32 -> 0 <= b < 2 ^ 32 -> crc_ref_byte a c = crc_ref_byte b c -> a = b.
Proof.
  intros Ha Hb E. pose proof (byte_below c). apply crc_shift_inj in E; [|by apply lxor_range..].
  apply (lxor_cancel (Z_of_byte c)). by rewrite !(Z.lxor_comm (Z_of_byte c)).
Qed.

Lemma crc_ref_inj bs a b :
  0 <= a < 2 ^ 32 -> 0 <= b < 2 ^ 32 -> crc_ref a bs = crc_ref b bs -> a = b.
Proof.
  revert a b. induction bs as [|c bs IH]; intros a b Ha Hb E; [done|].
  apply (crc_ref_byte_inj a b c); [done..|]. apply IH; [by apply crc_ref_byte_range..|done].
Qed.

(** The little-endian value of a window. *)
Fixpoint le_value (bs : list byte) : Z :=
  match bs with
  | [] => 0
  | b :: bs' => Z.lxor (Z_of_byte b) (Z.shiftl (le_value bs') 8)
  end.

Lemma le_value_add b bs : le_value (b :: bs) = Z_of_byte b + 256 * le_value bs.
Proof.
  cbn [le_value]. pose proof (Z_of_byte_range b). rewrite <- Z.add_nocarry_lxor.
  - rewrite Z.shiftl_mul_pow2 by lia. change (2 ^ 8) with 256. lia.
  - apply Z.bits_inj'. intros i Hi. rewrite Z.land_spec, Z.bits_0.
    destruct (decide (i < 8)).
    + rewrite Z.shiftl_spec_low by lia. apply andb_false_r.
    + by rewrite (testbit_shiftr_small (Z_of_byte b) i 8) by (simpl; lia).
Qed.

Lemma le_value_range bs : 0 <= le_value bs < 256 ^ Z.of_nat (length bs).
Proof.
  induction bs as [|b bs IH]; [vm_compute; split; congruence|].
  rewrite le_value_add. cbn [length]. rewrite Nat2Z.inj_succ, Z.pow_succ_r by lia.
  pose proof (Z_of_byte_range b). lia.
Qed.

Lemma le_value_inj a b : length a = length b -> le_value a = le_value b -> a = b.
Proof.
  revert b. induction a as [|x a IH]; intros [|y b] Hlen; try done.
  rewrite !le_value_add. intros E.
  pose proof (Z_of_byte_range x). pose proof (Z_of_byte_range y).
  f_equal; [apply Z_of_byte_inj; lia|]. apply IH; [by injection Hlen|lia].
Qed.

Lemma crc_ref_window bs r :
  crc_ref r bs = Nat.iter (length bs) crc_shift (Z.lxor r (le_value bs)).
Proof.
  revert r. induction bs as [|b bs IH]; intros r; [by cbn; rewrite Z.lxor_0_r|].
  change (crc_ref r (b :: bs)) with (crc_ref (crc_ref_byte r b) bs). rewrite IH.
  cbn [length le_value]. rewrite Nat.iter_succ_r. unfold crc_ref_byte. f_equal.
  by rewrite <- Z.lxor_assoc, (crc_shift_lxor (Z.lxor r _)), crc_shift_high.
Qed.

Lemma crc_shifts_inj n a b :
  0 <= a < 2 ^ 32 -> 0 <= b < 2 ^ 32 ->
  Nat.iter n crc_shift a = Nat.iter n crc_shift b -> a = b.
Proof.
  revert a b. induction n as [|n IH]; intros a b Ha Hb E; [done|].
  rewrite !Nat.iter_succ_r in E. apply crc_shift_inj; [done..|].
  apply IH; [by apply crc_shift_range..|done].
Qed.

(** Two buffers that differ only inside a window of at most four bytes have
    different remainders. *)
Lemma Crc32_update_window pre a b post r :
  0 <= r < 2 ^ 32 -> length a = length b -> (length a <= 4)%nat ->
  Crc32_update r (pre ++ a ++ post) = Crc32_update r (pre ++ b ++ post) -> a = b.
Proof.
  intros Hr Hlen H4. rewrite !Crc32_update_ref by done. unfold crc_ref.
  rewrite !fold_left_app. fold crc_ref_byte.
  pose proof (crc_ref_range pre r Hr) as Hp. fold (crc_ref r pre).
  generalize dependent (crc_ref r pre). intros p Hp.
  intros E. apply crc_ref_inj in E; [|by apply crc_ref_range..].
  fold (crc_ref p a) (crc_ref p b) in E.
  rewrite !crc_ref_window, Hlen in E.
  assert (forall w, (length w <= 4)%nat -> 0 <= le_value w < 2 ^ 32) as Hw.
  { intros w Hl. pose proof (le_value_range w) as Hv.
    assert (256 ^ Z.of_nat (length w) <= 256 ^ 4) by (apply Z.pow_le_mono_r; lia).
    simpl in *. lia. }
  apply crc_shifts_inj in E; [|apply lxor_range; (done || apply Hw; lia)..].
  apply le_value_inj; [done|]. by apply (lxor_cancel p).
Qed.

Lemma crc32_window pre a b post :
  length a = length b -> (length a <= 4)%nat ->
  crc32 (pre ++ a ++ post) = crc32 (pre ++ b ++ post) -> a = b.
Proof.
  intros Hlen H4 E. unfold crc32, Crc32_value in E.
  rewrite !(Z.lxor_comm _ 4294967295) in E. apply lxor_cancel in E.
  by apply (Crc32_update_window pre a b post Crc32_init Crc32_init_range).
Qed.

(** ** Theorems *)

(** C28. The table-driven checksum, eight bytes at a time with a byte loop for the
    rest, is the bit-by-bit CRC-32; and updating it piece by piece gives the
    checksum of the whole. *)
Theorem crc32_is_the_bitwise_definition a b :
  crc32 (a ++ b) = Z.lxor (crc_ref 4294967295 (a ++ b)) 4294967295 /\
  Crc32_value (Crc32_update (Crc32_update Crc32_init a) b) = crc32 (a ++ b).
Proof.
  unfold crc32, Crc32_value. rewrite Crc32_update_app by apply Crc32_init_range.
  split; [|done]. rewrite <- Crc32_update_app by apply Crc32_init_range.
  by rewrite Crc32_update_ref by apply Crc32_init_range.
Qed.

(** Changing bytes inside a window of at most four bytes always changes the
    checksum. *)
Theorem crc32_detects_bursts pre a b post :
  length a = length b -> (length a <= 4)%nat -> a <> b ->
  crc32 (pre ++ a ++ post) <> crc32 (pre ++ b ++ post).
Proof. intros Hlen H4 Hne E. apply Hne. by apply (crc32_window pre a b post). Qed.

Lemma crc32_detects_bursts_witness :
  crc32 ([Byte.x31; Byte.x32] ++ [Byte.x33] ++ [Byte.x34]) <>
  crc32 ([Byte.x31; Byte.x32] ++ [Byte.x73] ++ [Byte.x34]).
Proof. apply crc32_detects_bursts; [done|cbn; lia|congruence]. Defined.

(** The check value of the standard: the checksum of the digits 1 to 9. *)
Example crc32_check_value :
  crc32 [Byte.x31; Byte.x32; Byte.x33; Byte.x34; Byte.x35; Byte.x36; Byte.x37; Byte.x38; Byte.x39]
  = 3421780262.
Proof. vm_compute. reflexivity. Qed.
