(* ===== verification/Protocol.v ===== *)
(** * The frame protocol

    [src/protocol/frame.h], [serializer.cpp] and [parser.cpp]: the frame
    format, [serialize], and the incremental [Parser] that receives a byte
    stream in chunks of any size.

    An enumeration with a fixed underlying type holds any value of that type
    (the parser casts the received byte before checking it), so [Namespace] and
    [MessageType] are bytes with named values. *)

From S2P Require Import Prelude Wire Checksum.

(** ** [frame.h] *)

Definition kMagic : Z := 1179342385.
Definition kVersion : Z := 1.
Definition kHeaderSize : nat := 24.
Definition kMaxKeySize : Z := 1024.
Definition kMaxValueSize : Z := 1048576.
Definition kMaxClientCommandSize : Z := kMaxKeySize + kMaxValueSize + 64.
Definition kMaxPayloadSize : Z := kMaxKeySize + kMaxValueSize + 256.
Definition kMaxFrameSize : Z := Z.of_nat kHeaderSize + kMaxPayloadSize.

Definition Namespace : Set := byte.
Definition Namespace_client : Namespace := Byte.x01.
Definition Namespace_raft : Namespace := Byte.x02.

Definition MessageType : Set := byte.
Definition MessageType_put : MessageType := Byte.x01.
Definition MessageType_get : MessageType := Byte.x02.
Definition MessageType_delete_key : MessageType := Byte.x03.
Definition MessageType_ping : MessageType := Byte.x04.
Definition MessageType_raft_append_entries : MessageType := Byte.x40.
Definition MessageType_raft_request_vote : MessageType := Byte.x41.
Definition MessageType_raft_install_snapshot : MessageType := Byte.x42.
Definition MessageType_ok : MessageType := Byte.x80.
Definition MessageType_not_found : MessageType := Byte.x81.
Definition MessageType_error : MessageType := Byte.x82.
Definition MessageType_redirect : MessageType := Byte.x83.
Definition MessageType_busy : MessageType := Byte.x84.

Inductive ProtocolError : Set :=
| none
| invalid_magic
| unsupported_version
| invalid_namespace
| invalid_message_type
| message_type_namespace_mismatch
| unsupported_flags
| payload_too_large
| checksum_mismatch
| truncated_frame
| parser_failed.

#[export] Instance ProtocolError_eq_dec : EqDecision ProtocolError.
Proof. solve_decision. Defined.

Definition is_valid_namespace (message_namespace : Namespace) : bool :=
  Byte.eqb message_namespace Namespace_client || Byte.eqb message_namespace Namespace_raft.

Definition is_client_message_type (message_type : MessageType) : bool :=
  existsb (Byte.eqb message_type)
    [MessageType_put; MessageType_get; MessageType_delete_key; MessageType_ping;
     MessageType_ok; MessageType_not_found; MessageType_error;
     MessageType_redirect; MessageType_busy].

Definition is_raft_message_type (message_type : MessageType) : bool :=
  Byte.eqb message_type MessageType_raft_append_entries ||
  Byte.eqb message_type MessageType_raft_request_vote ||
  Byte.eqb message_type MessageType_raft_install_snapshot.

Definition is_valid_message_type (message_type : MessageType) : bool :=
  is_client_message_type message_type || is_raft_message_type message_type.

Definition message_type_matches_namespace
    (message_namespace : Namespace) (message_type : MessageType) : bool :=
  (Byte.eqb message_namespace Namespace_client && is_client_message_type message_type) ||
  (Byte.eqb message_namespace Namespace_raft && is_raft_message_type message_type).

Record FrameHeader : Set := {
  h_message_namespace : Namespace;
  h_message_type : MessageType;
  h_flags : byte;
  h_request_id : Z;
  h_payload_length : Z;
  h_checksum : Z
}.

Record Frame : Set := {
  message_namespace : Namespace;
  message_type : MessageType;
  flags : byte;
  request_id : Z;
  payload : list byte
}.

#[export] Instance Frame_eq_dec : EqDecision Frame.
Proof. solve_decision. Defined.

(** ** [serializer.cpp] *)

Record SerializeResult : Set := {
  sr_bytes : list byte;
  sr_error : ProtocolError
}.

Definition validate (frame : Frame) : ProtocolError :=
  if negb (is_valid_namespace (message_namespace frame)) then invalid_namespace
  else if negb (is_valid_message_type (message_type frame)) then invalid_message_type
  else if negb (message_type_matches_namespace (message_namespace frame) (message_type frame))
  then message_type_namespace_mismatch
  else if negb (Byte.eqb (flags frame) Byte.x00) then unsupported_flags
  else if kMaxPayloadSize <? size_of (payload frame) then payload_too_large
  else none.

Definition serialize (frame : Frame) : SerializeResult :=
  match validate frame with
  | none =>
      let bytes := zero_bytes (kHeaderSize + length (payload frame)) in
      let bytes := write_at 0 (write_u32 kMagic) bytes in
      let bytes := write_at 4 [byte_of_Z kVersion] bytes in
      let bytes := write_at 5 [message_namespace frame] bytes in
      let bytes := write_at 6 [message_type frame] bytes in
      let bytes := write_at 7 [flags frame] bytes in
      let bytes := write_at 8 (write_u64 (request_id frame)) bytes in
      let bytes := write_at 16 (write_u32 (u32 (size_of (payload frame)))) bytes in
      let bytes := write_at kHeaderSize (payload frame) bytes in
      let checksum := Crc32_update Crc32_init (subspan 0 20 bytes) in
      let checksum := Crc32_update checksum (drop kHeaderSize bytes) in
      let bytes := write_at 20 (write_u32 (Crc32_value checksum)) bytes in
      {| sr_bytes := bytes; sr_error := none |}
  | validation_error => {| sr_bytes := []; sr_error := validation_error |}
  end.

(** ** [parser.cpp] *)

Record ParseBatch : Set := {
  pb_frames : list Frame;
  pb_error : ProtocolError
}.

Record Parser : Set := {
  header_ : list byte;
  header_bytes_ : nat;
  current_header_ : FrameHeader;
  payload_ : list byte;
  payload_bytes_ : nat;
  checksum_ : Z;
  awaiting_payload_ : bool;
  failed_ : bool
}.

Definition FrameHeader_default : FrameHeader :=
  {| h_message_namespace := Namespace_client; h_message_type := MessageType_ping;
     h_flags := Byte.x00; h_request_id := 0; h_payload_length := 0; h_checksum := 0 |}.

Definition Parser_default : Parser :=
  {| header_ := zero_bytes kHeaderSize; header_bytes_ := 0;
     current_header_ := FrameHeader_default; payload_ := []; payload_bytes_ := 0;
     checksum_ := Crc32_init; awaiting_payload_ := false; failed_ := false |}.

Definition reset_frame_state (p : Parser) : Parser :=
  {| header_ := header_ p; header_bytes_ := 0; current_header_ := FrameHeader_default;
     payload_ := []; payload_bytes_ := 0; checksum_ := Crc32_init;
     awaiting_payload_ := false; failed_ := failed_ p |}.

Definition set_failed (p : Parser) : Parser :=
  {| header_ := header_ p; header_bytes_ := header_bytes_ p;
     current_header_ := current_header_ p; payload_ := payload_ p;
     payload_bytes_ := payload_bytes_ p; checksum_ := checksum_ p;
     awaiting_payload_ := awaiting_payload_ p; failed_ := true |}.

Definition fail (p : Parser) (error : ProtocolError) (frames : list Frame) : Parser * ParseBatch :=
  (reset_frame_state (set_failed p), {| pb_frames := frames; pb_error := error |}).

(** [decode_header]: the checks in their order, on the 24 bytes of [header_]. *)
Definition decode_header (bytes : list byte) : ProtocolError + FrameHeader :=
  let ns := byte_at bytes 5 in
  let ty := byte_at bytes 6 in
  let payload_length := read_u32 (subspan 16 4 bytes) in
  if negb (read_u32 (subspan 0 4 bytes) =? kMagic) then inl invalid_magic
  else if negb (Z_of_byte (byte_at bytes 4) =? kVersion) then inl unsupported_version
  else if negb (is_valid_namespace ns) then inl invalid_namespace
  else if negb (is_valid_message_type ty) then inl invalid_message_type
  else if negb (message_type_matches_namespace ns ty) then inl message_type_namespace_mismatch
  else if negb (Byte.eqb (byte_at bytes 7) Byte.x00) then inl unsupported_flags
  else if kMaxPayloadSize <? payload_length then inl payload_too_large
  else inr {| h_message_namespace := ns; h_message_type := ty; h_flags := byte_at bytes 7;
              h_request_id := read_u64 (subspan 8 8 bytes);
              h_payload_length := payload_length;
              h_checksum := read_u32 (subspan 20 4 bytes) |}.

(** [complete_frame]: the error, or the parser and the frames it leaves. *)
Definition complete_frame (p : Parser) (frames : list Frame) :
    ProtocolError + (Parser * list Frame) :=
  if negb (Crc32_value (checksum_ p) =? h_checksum (current_header_ p))
  then inl checksum_mismatch
  else
    let frame := {| message_namespace := h_message_namespace (current_header_ p);
                    message_type := h_message_type (current_header_ p);
                    flags := h_flags (current_header_ p);
                    request_id := h_request_id (current_header_ p);
                    payload := payload_ p |} in
    inr (reset_frame_state p, frames ++ [frame]).

(** One half of an iteration of the loop of [consume] leaves the loop with a
    result or goes on with the parser, the frames and the rest of the input. *)
Inductive ConsumeStep : Set :=
| Exit (p : Parser) (batch : ParseBatch)
| Go (p : Parser) (frames : list Frame) (input : list byte).

(** The payload of [p] is complete: [complete_frame], or [fail]. *)
Definition finish_payload (p : Parser) (frames : list Frame) (input : list byte) : ConsumeStep :=
  match complete_frame p frames with
  | inl e => let (p', batch) := fail p e frames in Exit p' batch
  | inr (p', frames') => Go p' frames' input
  end.

(** [if (!awaiting_payload_) {...}] *)
Definition receive_header (p : Parser) (frames : list Frame) (input : list byte) : ConsumeStep :=
  if awaiting_payload_ p then Go p frames input
  else
    let count := Nat.min (kHeaderSize - header_bytes_ p) (length input) in
    let p := {| header_ := write_at (header_bytes_ p) (take count input) (header_ p);
                header_bytes_ := header_bytes_ p + count;
                current_header_ := current_header_ p; payload_ := payload_ p;
                payload_bytes_ := payload_bytes_ p; checksum_ := checksum_ p;
                awaiting_payload_ := awaiting_payload_ p; failed_ := failed_ p |} in
    let input := drop count input in
    if negb (Nat.eqb (header_bytes_ p) kHeaderSize)
    then Exit p {| pb_frames := frames; pb_error := none |}
    else
      match decode_header (header_ p) with
      | inl e => let (p', batch) := fail p e frames in Exit p' batch
      | inr h =>
          let p := {| header_ := header_ p; header_bytes_ := header_bytes_ p;
                      current_header_ := h;
                      payload_ := resize (Z.to_nat (h_payload_length h)) Byte.x00 (payload_ p);
                      payload_bytes_ := 0;
                      checksum_ := Crc32_update Crc32_init (take 20 (header_ p));
                      awaiting_payload_ := true; failed_ := failed_ p |} in
          match payload_ p with
          | [] => finish_payload p frames input
          | _ :: _ => Go p frames input
          end
      end.

(** [if (awaiting_payload_ && offset < input.size()) {...}] *)
Definition receive_payload (p : Parser) (frames : list Frame) (input : list byte) : ConsumeStep :=
  if negb (awaiting_payload_ p && (0 <? size_of input)) then Go p frames input
  else
    let count := Nat.min (length (payload_ p) - payload_bytes_ p) (length input) in
    let chunk := take count input in
    let p := {| header_ := header_ p; header_bytes_ := header_bytes_ p;
                current_header_ := current_header_ p;
                payload_ := write_at (payload_bytes_ p) chunk (payload_ p);
                payload_bytes_ := payload_bytes_ p + count;
                checksum_ := Crc32_update (checksum_ p) chunk;
                awaiting_payload_ := awaiting_payload_ p; failed_ := failed_ p |} in
    let input := drop count input in
    if Nat.eqb (payload_bytes_ p) (length (payload_ p))
    then finish_payload p frames input
    else Go p frames input.

(** [while (offset < input.size()) {...}]; the input is the part after
    [offset].  The fuel bounds the iterations: [None] when it runs out. *)
Fixpoint consume_loop (fuel : nat) (p : Parser) (frames : list Frame) (input : list byte) :
    option (Parser * ParseBatch) :=
  match input, fuel with
  | [], _ => Some (p, {| pb_frames := frames; pb_error := none |})
  | _, O => None
  | _, S fuel' =>
      match receive_header p frames input with
      | Exit p' batch => Some (p', batch)
      | Go p1 frames1 input1 =>
          match receive_payload p1 frames1 input1 with
          | Exit p' batch => Some (p', batch)
          | Go p2 frames2 input2 => consume_loop fuel' p2 frames2 input2
          end
      end
  end.

(** Every iteration takes at least one byte, so the length of the input is
    enough fuel ([consume_refines] below). *)
Definition consume (p : Parser) (input : list byte) : option (Parser * ParseBatch) :=
  if failed_ p then Some (p, {| pb_frames := []; pb_error := parser_failed |})
  else consume_loop (length input) p [] input.

Definition finish (p : Parser) : Parser * ProtocolError :=
  if failed_ p then (p, parser_failed)
  else if negb (Nat.eqb (header_bytes_ p) 0) || awaiting_payload_ p
  then (reset_frame_state (set_failed p), truncated_frame)
  else (p, none).

Definition buffered_bytes (p : Parser) : Z :=
  Z.of_nat (header_bytes_ p) + Z.of_nat (payload_bytes_ p).

(** ** What a stream of bytes means

    The parser is specified on the whole stream, with no chunks and no state:
    [parse_one] reads the first frame of a stream, and [Parsed bs frames e rest]
    says that the stream [bs] is the frames [frames] followed by the error [e],
    or by the bytes [rest] of an incomplete frame when [e] is [none]. *)

Inductive First : Set :=
| Incomplete
| Bad (e : ProtocolError)
| Good (frame : Frame) (rest : list byte).

Definition header_frame (h : FrameHeader) (data : list byte) : Frame :=
  {| message_namespace := h_message_namespace h; message_type := h_message_type h;
     flags := h_flags h; request_id := h_request_id h; payload := data |}.

Definition parse_one (bs : list byte) : First :=
  if Nat.ltb (length bs) kHeaderSize then Incomplete
  else
    match decode_header (take kHeaderSize bs) with
    | inl e => Bad e
    | inr h =>
        let n := Z.to_nat (h_payload_length h) in
        let rest := drop kHeaderSize bs in
        if Nat.ltb (length rest) n then Incomplete
        else if crc32 (take 20 bs ++ take n rest) =? h_checksum h
        then Good (header_frame h (take n rest)) (drop n rest)
        else Bad checksum_mismatch
    end.

Inductive Parsed : list byte -> list Frame -> ProtocolError -> list byte -> Prop :=
| Parsed_rest bs : parse_one bs = Incomplete -> Parsed bs [] none bs
| Parsed_bad bs e : parse_one bs = Bad e -> Parsed bs [] e []
| Parsed_frame bs f rest fs e pend :
    parse_one bs = Good f rest -> Parsed rest fs e pend -> Parsed bs (f :: fs) e pend.

Lemma decode_header_bad hd : decode_header hd <> inl none.
Proof. intros Hd. unfold decode_header in Hd. by repeat case_match. Qed.

Lemma parse_one_bad bs : parse_one bs <> Bad none.
Proof.
  unfold parse_one. destruct (Nat.ltb _ _); [done|].
  destruct (decode_header _) as [e|h] eqn:Hd; [|by repeat case_match].
  intros [= ->]. by apply decode_header_bad in Hd.
Qed.

Lemma Parsed_det bs fs1 e1 r1 fs2 e2 r2 :
  Parsed bs fs1 e1 r1 -> Parsed bs fs2 e2 r2 -> fs1 = fs2 /\ e1 = e2 /\ r1 = r2.
Proof.
  intros H1. revert fs2 e2 r2.
  induction H1 as [|?|? ? ? ? ? ? ? ? IH]; intros fs2 e2 r2 H2; inversion H2; try by (split_and!; congruence).
  assert (f0 = f /\ rest0 = rest) as [-> ->] by (split; congruence).
  edestruct IH as (-> & -> & ->); [eassumption|done].
Qed.

(** A stream that starts with a whole header and the payload it announces. *)
Lemma parse_one_whole hd h data rest :
  length hd = kHeaderSize -> decode_header hd = inr h ->
  length data = Z.to_nat (h_payload_length h) ->
  parse_one (hd ++ data ++ rest) =
  if Crc32_value (Crc32_update Crc32_init (take 20 hd ++ data)) =? h_checksum h
  then Good (header_frame h data) rest else Bad checksum_mismatch.
Proof.
  intros Hl Hd Hn. unfold parse_one.
  rewrite (proj2 (Nat.ltb_ge _ _)) by (rewrite length_app; lia).
  rewrite take_app_length', drop_app_length', Hd by done.
  rewrite (proj2 (Nat.ltb_ge _ _)) by (rewrite length_app; lia).
  rewrite (take_app_le hd) by (rewrite Hl; unfold kHeaderSize; lia).
  by rewrite take_app_length', drop_app_length' by done.
Qed.

Lemma parse_one_short bs : (length bs < kHeaderSize)%nat -> parse_one bs = Incomplete.
Proof. intros H. unfold parse_one. by rewrite (proj2 (Nat.ltb_lt _ _)). Qed.

Lemma parse_one_partial hd h data :
  length hd = kHeaderSize -> decode_header hd = inr h ->
  (length data < Z.to_nat (h_payload_length h))%nat ->
  parse_one (hd ++ data) = Incomplete.
Proof.
  intros Hl Hd Hn. unfold parse_one.
  rewrite (proj2 (Nat.ltb_ge _ _)) by (rewrite length_app; lia).
  rewrite take_app_length', drop_app_length', Hd by done.
  by rewrite (proj2 (Nat.ltb_lt _ _)).
Qed.

Lemma parse_one_bad_header hd e rest :
  length hd = kHeaderSize -> decode_header hd = inl e -> parse_one (hd ++ rest) = Bad e.
Proof.
  intros Hl Hd. unfold parse_one.
  rewrite (proj2 (Nat.ltb_ge _ _)) by (rewrite length_app; lia).
  by rewrite take_app_length', Hd by done.
Qed.

(** ** The parser implements it *)

(** The bytes the parser holds of the frame it is receiving. *)
Definition pending (p : Parser) : list byte :=
  take (header_bytes_ p) (header_ p) ++ take (payload_bytes_ p) (payload_ p).

(** The header is decoded, and the first [payload_bytes_] bytes of the payload
    are received and in the checksum. *)
Record Receiving (p : Parser) : Prop := {
  rc_header : length (header_ p) = kHeaderSize;
  rc_header_bytes : header_bytes_ p = kHeaderSize;
  rc_current : decode_header (header_ p) = inr (current_header_ p);
  rc_payload : length (payload_ p) = Z.to_nat (h_payload_length (current_header_ p));
  rc_bytes : (payload_bytes_ p <= length (payload_ p))%nat;
  rc_checksum : checksum_ p =
    Crc32_update Crc32_init (take 20 (header_ p) ++ take (payload_bytes_ p) (payload_ p))
}.

Record Idle (p : Parser) : Prop := {
  id_header : length (header_ p) = kHeaderSize;
  id_header_bytes : (header_bytes_ p < kHeaderSize)%nat;
  id_payload : payload_ p = [];
  id_bytes : payload_bytes_ p = 0%nat
}.

Definition ParserOk (p : Parser) : Prop :=
  if awaiting_payload_ p
  then Receiving p /\ (payload_bytes_ p < length (payload_ p))%nat /\ failed_ p = false
  else Idle p /\ (failed_ p = true -> header_bytes_ p = 0%nat).

Lemma pending_incomplete p : ParserOk p -> parse_one (pending p) = Incomplete.
Proof.
  unfold ParserOk, pending. destruct (awaiting_payload_ p).
  - intros ([Hl Hh Hc Hp Hb _] & Hlt & _). rewrite Hh, take_ge by lia.
    apply (parse_one_partial _ (current_header_ p)); [done..|]. rewrite length_take. lia.
  - intros ([Hl Hh Hp Hb] & _). apply parse_one_short.
    rewrite length_app, !length_take, Hp, Hb. simpl. lia.
Qed.

(** What one half of an iteration promises: the stream still to parse gives
    what is left of the answer. *)
Definition advances (p : Parser) (frames : list Frame) (input : list byte) (r : ConsumeStep) : Prop :=
  match r with
  | Exit p' batch => exists fs,
      pb_frames batch = frames ++ fs /\
      Parsed (pending p ++ input) fs (pb_error batch) (pending p') /\
      ParserOk p' /\ failed_ p' = bool_decide (pb_error batch <> none)
  | Go p' frames' input' => exists fs,
      frames' = frames ++ fs /\ ParserOk p' /\ failed_ p' = false /\
      (length input' <= length input)%nat /\
      forall fs' e rest, Parsed (pending p' ++ input') fs' e rest ->
        Parsed (pending p ++ input) (fs ++ fs') e rest
  end.

Lemma Idle_reset p : length (header_ p) = kHeaderSize -> Idle (reset_frame_state p).
Proof. intros H. split; try done. cbn. unfold kHeaderSize. lia. Qed.

(** [fail] answers the error [e] where the stream has it. *)
Lemma fail_advances p p0 frames input bs e :
  length (header_ p) = kHeaderSize -> e <> none -> pending p0 ++ input = bs ->
  parse_one bs = Bad e ->
  advances p0 frames input (let (p', batch) := fail p e frames in Exit p' batch).
Proof.
  intros Hl He <- Hb. exists []. cbn. split_and!.
  - by rewrite app_nil_r.
  - by apply Parsed_bad.
  - by apply Idle_reset.
  - done.
  - by rewrite bool_decide_eq_true_2.
Qed.

Lemma finish_payload_advances p p0 frames input0 input :
  Receiving p -> failed_ p = false -> payload_bytes_ p = length (payload_ p) ->
  pending p0 ++ input0 = header_ p ++ payload_ p ++ input ->
  (length input <= length input0)%nat ->
  advances p0 frames input0 (finish_payload p frames input).
Proof.
  intros [Hl Hh Hc Hp Hb Hs] Hf Hall E Hlen. unfold finish_payload, complete_frame.
  pose proof (parse_one_whole _ _ (payload_ p) input Hl Hc Hp) as Hone.
  rewrite Hs, Hall, firstn_all.
  destruct (_ =? _); cbn [negb].
  - exists [header_frame (current_header_ p) (payload_ p)]. split_and!; try done.
    + by split; [apply Idle_reset|].
    + intros fs' e rest Hr. rewrite E. eapply Parsed_frame; [exact Hone|done].
  - eapply fail_advances; done.
Qed.

(** The header is complete and decoded. *)
Lemma receive_first_advances p0 frames input0 hd h pl ps cs input :
  length hd = kHeaderSize -> decode_header hd = inr h -> pl = [] ->
  pending p0 ++ input0 = hd ++ input -> (length input <= length input0)%nat ->
  cs = Crc32_update Crc32_init (take 20 hd) -> ps = kHeaderSize ->
  let p := {| header_ := hd; header_bytes_ := ps; current_header_ := h;
              payload_ := resize (Z.to_nat (h_payload_length h)) Byte.x00 pl;
              payload_bytes_ := 0; checksum_ := cs; awaiting_payload_ := true;
              failed_ := false |} in
  advances p0 frames input0
    (match payload_ p with
     | [] => finish_payload p frames input
     | _ :: _ => Go p frames input
     end).
Proof.
  intros Hl Hd -> E Hlen -> -> p.
  assert (Receiving p) as Hr.
  { split; cbn; try done; [by rewrite length_resize|lia|by rewrite app_nil_r]. }
  destruct (payload_ p) as [|b pl] eqn:Hpl.
  - apply finish_payload_advances; try done; [by rewrite Hpl|]. by rewrite Hpl.
  - exists []. cbn. rewrite app_nil_r. split_and!; try done.
    + change (0 < length (payload_ p))%nat. rewrite Hpl. cbn. lia.
    + intros fs' e rest. rewrite (take_ge hd) by (rewrite Hl; done).
      by rewrite app_nil_r, E.
Qed.

Lemma receive_header_advances p frames input :
  ParserOk p -> failed_ p = false -> advances p frames input (receive_header p frames input).
Proof.
  intros Hok Hf. unfold receive_header. pose proof Hok as Hok'. unfold ParserOk in Hok'.
  destruct (awaiting_payload_ p) eqn:Ha.
  { exists []. rewrite app_nil_r. by split_and!. }
  destruct Hok' as [[Hl Hh Hp Hb] _]. cbn [header_ header_bytes_ payload_ failed_].
  set (count := Nat.min _ _). set (hd := write_at _ _ _).
  assert (length (take count input) = count) as Hcount by (rewrite length_take; lia).
  assert (length hd = kHeaderSize) as Hhd by (unfold hd; rewrite length_write_at; lia).
  assert (take (header_bytes_ p + count) hd = take (header_bytes_ p) (header_ p) ++ take count input) as Htake.
  { unfold hd, write_at. rewrite (assoc_L (++)), take_app_length'; [done|].
    rewrite length_app, Hcount, length_take. lia. }
  assert (pending p ++ input = take (header_bytes_ p + count) hd ++ drop count input) as Hpend.
  { rewrite Htake. unfold pending. rewrite Hp, take_nil, app_nil_r, <- (assoc_L (++)).
    by rewrite take_drop. }
  destruct (Nat.eqb_spec (header_bytes_ p + count) kHeaderSize) as [Hfull|Hpart]; cbn [negb].
  - rewrite Hfull, (take_ge hd) in Hpend by lia.
    destruct (decode_header hd) as [e|h] eqn:Hd.
    + eapply fail_advances; [exact Hhd| |exact Hpend|by apply parse_one_bad_header].
      intros ->. by apply decode_header_bad in Hd.
    + rewrite Hf. apply receive_first_advances; try done. rewrite length_drop. lia.
  - assert (drop count input = []) as Hdrop.
    { apply drop_ge. lia. }
    rewrite Hdrop, app_nil_r in Hpend.
    exists []. cbn. rewrite app_nil_r. split_and!; try done.
    + rewrite Hpend. unfold pending. cbn. rewrite Hp, take_nil, app_nil_r.
      apply Parsed_rest, parse_one_short. rewrite length_take. lia.
    + split; cbn; try done. fold kHeaderSize count. lia.
    + congruence.
Qed.

Lemma receive_payload_advances p frames input :
  ParserOk p -> failed_ p = false -> advances p frames input (receive_payload p frames input).
Proof.
  intros Hok Hf. unfold receive_payload. pose proof Hok as Hok'. unfold ParserOk in Hok'.
  destruct (awaiting_payload_ p && (0 <? size_of input)) eqn:Ha; cbn [negb];
    [|exists []; rewrite app_nil_r; by split_and!].
  apply andb_prop in Ha as [Ha _]. rewrite Ha in *.
  destruct Hok' as ([Hl Hh Hc Hp Hb Hs] & Hlt & _).
  cbn [payload_ payload_bytes_ header_ checksum_ failed_].
  set (count := Nat.min _ _). set (pl := write_at _ _ _).
  assert (length (take count input) = count) as Hcount by (rewrite length_take; lia).
  assert (length pl = length (payload_ p)) as Hpl by (apply length_write_at; lia).
  assert (take (payload_bytes_ p + count) pl =
          take (payload_bytes_ p) (payload_ p) ++ take count input) as Htake.
  { unfold pl, write_at. rewrite (assoc_L (++)), take_app_length'; [done|].
    rewrite length_app, Hcount, length_take. lia. }
  assert (pending p ++ input =
          header_ p ++ take (payload_bytes_ p + count) pl ++ drop count input) as Hpend.
  { rewrite Htake. unfold pending. rewrite Hh, take_ge by lia.
    by rewrite <- !(assoc_L (++)), take_drop. }
  match goal with |- context [finish_payload ?q] => set (p1 := q) end.
  assert (Receiving p1) as Hr.
  { split; cbn; try done; [congruence|lia|]. rewrite Htake, (assoc_L (++)), Hs.
    by rewrite (Crc32_update_app _ (take count input)) by apply Crc32_init_range. }
  destruct (Nat.eqb_spec (payload_bytes_ p + count) (length pl)) as [Hfull|Hpart].
  - rewrite Hfull, firstn_all in Hpend.
    apply finish_payload_advances; try done. rewrite length_drop. lia.
  - exists []. cbn. rewrite app_nil_r. split_and!; try done.
    + cbn. lia.
    + rewrite length_drop. lia.
    + intros fs' e rest. rewrite Hh, (take_ge (header_ p)) by lia.
      by rewrite <- (assoc_L (++)), <- Hpend.
Qed.

(** Each iteration that goes on takes a byte. *)
Lemma receive_header_takes p frames input p' frames' input' :
  ParserOk p -> awaiting_payload_ p = false -> input <> [] ->
  receive_header p frames input = Go p' frames' input' -> (length input' < length input)%nat.
Proof.
  intros Hok Ha Hne. unfold receive_header. unfold ParserOk in Hok. rewrite Ha in *.
  destruct Hok as [[Hl Hh Hp Hb] _]. destruct input as [|b input]; [done|].
  cbn [header_ header_bytes_ payload_ failed_]. set (count := Nat.min _ _).
  assert (length (drop count (b :: input)) < length (b :: input))%nat as Hlt
    by (rewrite length_drop; unfold count; cbn [length]; lia).
  destruct (negb _); [done|]. destruct (decode_header _); [done|].
  unfold finish_payload. destruct (resize _ _ _); [|by intros [= <- <- <-]].
  destruct (complete_frame _ _) as [|[]]; [done|]. by intros [= <- <- <-].
Qed.

Lemma receive_payload_takes p frames input p' frames' input' :
  ParserOk p -> awaiting_payload_ p = true -> input <> [] ->
  receive_payload p frames input = Go p' frames' input' -> (length input' < length input)%nat.
Proof.
  intros Hok Ha Hne. unfold receive_payload, ParserOk in *. rewrite Ha in *.
  destruct Hok as (_ & Hlt & _). destruct input as [|b input]; [done|].
  cbn [payload_ payload_bytes_]. set (count := Nat.min _ _).
  assert (length (drop count (b :: input)) < length (b :: input))%nat as Hd
    by (rewrite length_drop; unfold count; cbn [length]; lia).
  rewrite (proj2 (Z.ltb_lt 0 _)) by (unfold size_of; cbn [length]; lia). cbn [negb andb].
  destruct (Nat.eqb _ _); [|by intros [= <- <- <-]].
  unfold finish_payload. destruct (complete_frame _ _) as [|[]]; [done|]. by intros [= <- <- <-].
Qed.

Lemma consume_loop_refines fuel p frames input :
  (length input <= fuel)%nat -> ParserOk p -> failed_ p = false ->
  exists p' fs e,
    consume_loop fuel p frames input = Some (p', {| pb_frames := frames ++ fs; pb_error := e |}) /\
    Parsed (pending p ++ input) fs e (pending p') /\
    ParserOk p' /\ failed_ p' = bool_decide (e <> none).
Proof.
  revert p frames input. induction fuel as [|fuel IH]; intros p frames input Hfuel Hok Hf;
    (destruct input as [|b input];
     [exists p, [], none; rewrite !app_nil_r; split_and!;
      [done|by apply Parsed_rest, pending_incomplete|done|by rewrite Hf]|]); [cbn in Hfuel; lia|].
  remember (b :: input) as bytes eqn:Hbytes. assert (bytes <> []) as Hne by congruence.
  replace (consume_loop (S fuel) p frames bytes) with
    (match receive_header p frames bytes with
     | Exit p' batch => Some (p', batch)
     | Go p1 frames1 input1 =>
         match receive_payload p1 frames1 input1 with
         | Exit p' batch => Some (p', batch)
         | Go p2 frames2 input2 => consume_loop fuel p2 frames2 input2
         end
     end) by (subst; done).
  pose proof (receive_header_advances p frames bytes Hok Hf) as A1.
  destruct (receive_header p frames bytes) as [p' [fs' e']|p1 frames1 input1] eqn:E1; cbn in A1.
  { destruct A1 as (fs & -> & Hparse & Hok' & Hf'). by exists p', fs, e'. }
  destruct A1 as (fs1 & -> & Hok1 & Hf1 & Hlen1 & Hparse1).
  pose proof (receive_payload_advances p1 (frames ++ fs1) input1 Hok1 Hf1) as A2.
  destruct (receive_payload p1 _ input1) as [p' [fs' e']|p2 frames2 input2] eqn:E2; cbn in A2.
  { destruct A2 as (fs & -> & Hparse & Hok' & Hf').
    exists p', (fs1 ++ fs), e'. rewrite (assoc_L (++)). split_and!; auto. }
  destruct A2 as (fs2 & -> & Hok2 & Hf2 & Hlen2 & Hparse2).
  assert (length input2 < length bytes)%nat as Hlt.
  { destruct (awaiting_payload_ p) eqn:Ha.
    - unfold receive_header in E1. rewrite Ha in E1. injection E1 as -> _ ->.
      exact (receive_payload_takes _ _ _ _ _ _ Hok Ha Hne E2).
    - pose proof (receive_header_takes _ _ _ _ _ _ Hok Ha Hne E1). lia. }
  destruct (IH p2 ((frames ++ fs1) ++ fs2) input2) as (p' & fs & e & -> & Hparse & Hok' & Hf');
    [lia|done..|].
  exists p', (fs1 ++ fs2 ++ fs), e. rewrite !(assoc_L (++)). split_and!; try done.
  rewrite <- (assoc_L (++)). auto.
Qed.

Lemma ParserOk_default : ParserOk Parser_default.
Proof. split; [|done]. split; try done. vm_compute. lia. Qed.

(** [consume] always returns, and what it returns is what the bytes received so
    far mean. *)
Lemma consume_refines p input :
  ParserOk p -> failed_ p = false ->
  exists p' fs e,
    consume p input = Some (p', {| pb_frames := fs; pb_error := e |}) /\
    Parsed (pending p ++ input) fs e (pending p') /\
    ParserOk p' /\ failed_ p' = bool_decide (e <> none).
Proof.
  intros Hok Hf. unfold consume. rewrite Hf.
  by apply (consume_loop_refines (length input) p [] input).
Qed.

(** ** Streams in chunks *)

Lemma parse_one_app a b :
  match parse_one a with
  | Incomplete => True
  | Bad e => parse_one (a ++ b) = Bad e
  | Good f rest => parse_one (a ++ b) = Good f (rest ++ b)
  end.
Proof.
  unfold parse_one at 1. destruct (Nat.ltb_spec (length a) kHeaderSize) as [|Hl]; [done|].
  assert (a ++ b = take kHeaderSize a ++ drop kHeaderSize a ++ b) as ->
    by by rewrite (assoc_L (++)), take_drop.
  assert (length (take kHeaderSize a) = kHeaderSize) as Hhd by (rewrite length_take; lia).
  destruct (decode_header _) as [e|h] eqn:Hd; [by apply parse_one_bad_header|].
  set (n := Z.to_nat _). set (tl := drop _ a).
  destruct (Nat.ltb_spec (length tl) n) as [|Hn]; [done|].
  assert (take 20 a = take 20 (take kHeaderSize a)) as Ht by (rewrite take_take; done).
  rewrite Ht. unfold crc32.
  rewrite <- (take_drop n tl), <- (assoc_L (++)).
  rewrite (parse_one_whole _ h); [|done..|rewrite length_take; lia].
  rewrite !take_app_length', !drop_app_length' by (rewrite length_take; lia).
  by destruct (_ =? _).
Qed.

Lemma Parsed_app a b fs pend fs' e pend' :
  Parsed a fs none pend -> Parsed (pend ++ b) fs' e pend' -> Parsed (a ++ b) (fs ++ fs') e pend'.
Proof.
  intros H. remember none as e0 eqn:He.
  induction H as [bs H|bs e1 H|bs f rest fs e1 pend H _ IH]; intros H2; [done| |].
  - subst e1. by apply parse_one_bad in H.
  - pose proof (parse_one_app bs b) as Ha. rewrite H in Ha.
    eapply Parsed_frame; [exact Ha|auto].
Qed.

Lemma Parsed_error_app a b fs e pend :
  e <> none -> Parsed a fs e pend -> Parsed (a ++ b) fs e [] /\ pend = [].
Proof.
  intros He H. induction H as [bs H|bs e H|bs f rest fs e pend H _ IH]; [done| |];
    pose proof (parse_one_app bs b) as Ha; rewrite H in Ha.
  - split; [by apply Parsed_bad|done].
  - destruct (IH He) as [IH' ->]. split; [|done]. eapply Parsed_frame; [exact Ha|done].
Qed.

(** A connection feeds the parser chunk after chunk and stops at the first
    error. *)
Fixpoint consume_all (p : Parser) (chunks : list (list byte)) : option (Parser * ParseBatch) :=
  match chunks with
  | [] => Some (p, {| pb_frames := []; pb_error := none |})
  | input :: chunks' =>
      match consume p input with
      | Some (p1, batch) =>
          if bool_decide (pb_error batch = none) then
            match consume_all p1 chunks' with
            | Some (p2, batch') =>
                Some (p2, {| pb_frames := pb_frames batch ++ pb_frames batch';
                             pb_error := pb_error batch' |})
            | None => None
            end
          else Some (p1, batch)
      | None => None
      end
  end.

Lemma consume_all_refines chunks p :
  ParserOk p -> failed_ p = false ->
  exists p' fs e,
    consume_all p chunks = Some (p', {| pb_frames := fs; pb_error := e |}) /\
    Parsed (pending p ++ concat chunks) fs e (pending p') /\
    ParserOk p' /\ failed_ p' = bool_decide (e <> none).
Proof.
  revert p. induction chunks as [|input chunks IH]; intros p Hok Hf; cbn [consume_all concat].
  { exists p, [], none. rewrite app_nil_r. split_and!; try done.
    by apply Parsed_rest, pending_incomplete. }
  destruct (consume_refines p input Hok Hf) as (p1 & fs & e & -> & Hp & Hok1 & Hf1).
  cbn [pb_error pb_frames]. rewrite (assoc_L (++)).
  destruct (bool_decide_reflect (e = none)) as [->|He].
  - destruct (IH p1) as (p2 & fs' & e' & -> & Hp' & Hok2 & Hf2); [done|done|].
    exists p2, (fs ++ fs'), e'. split_and!; try done. by apply (Parsed_app _ _ fs (pending p1)).
  - exists p1, fs, e. destruct (Parsed_error_app _ (concat chunks) _ _ _ He Hp) as [Hp' Hpend].
    rewrite Hpend. by split_and!.
Qed.

(** ** Frames and their bytes *)

Definition frame_head (f : Frame) : list byte :=
  write_u32 kMagic ++ [byte_of_Z kVersion] ++ [message_namespace f] ++ [message_type f] ++
  [flags f] ++ write_u64 (request_id f) ++ write_u32 (u32 (size_of (payload f))).

Definition frame_bytes (f : Frame) : list byte :=
  frame_head f ++ write_u32 (crc32 (frame_head f ++ payload f)) ++ payload f.

Lemma length_frame_head f : length (frame_head f) = 20%nat.
Proof. done. Qed.

Lemma serialize_frame_bytes f :
  validate f = none -> serialize f = {| sr_bytes := frame_bytes f; sr_error := none |}.
Proof.
  intros Hv. unfold serialize. rewrite Hv. unfold zero_bytes. cbn [kHeaderSize Nat.add replicate].
  unfold frame_bytes, frame_head.
  pose proof (length_write_u64 (request_id f)) as Hid.
  pose proof (length_write_u32 (u32 (size_of (payload f)))) as Hn.
  pose proof (length_write_u32 kMagic) as Hm.
  generalize dependent (write_u64 (request_id f)).
  generalize dependent (write_u32 (u32 (size_of (payload f)))).
  generalize dependent (write_u32 kMagic).
  intros m Hm n Hn id Hid.
  do 5 (destruct m as [|? m]; try done). do 5 (destruct n as [|? n]; try done).
  do 9 (destruct id as [|? id]; try done).
  unfold write_at, subspan, kHeaderSize. cbn [take drop app length Nat.add].
  rewrite (drop_ge (replicate _ _)), app_nil_r by (rewrite length_replicate; lia).
  unfold crc32. rewrite <- Crc32_update_app by apply Crc32_init_range. done.
Qed.

Lemma validate_size f : validate f = none -> is_u32 (size_of (payload f)) /\ size_of (payload f) <= kMaxPayloadSize.
Proof.
  unfold validate. intros H. repeat (case_match; try done).
  pose proof (size_of_nonneg (payload f)). unfold is_u32, kMaxPayloadSize, kMaxKeySize, kMaxValueSize in *. lia.
Qed.

Lemma decode_frame_header f c :
  validate f = none -> is_u64 (request_id f) -> is_u32 c ->
  decode_header (frame_head f ++ write_u32 c) =
  inr {| h_message_namespace := message_namespace f; h_message_type := message_type f;
         h_flags := flags f; h_request_id := request_id f;
         h_payload_length := size_of (payload f); h_checksum := c |}.
Proof.
  intros Hv Hid Hc. destruct (validate_size f Hv) as [Hsize Hmax].
  unfold decode_header, frame_head, subspan. rewrite (u32_small (size_of (payload f))) by done.
  pose proof (read_write_u64 (request_id f) [] Hid) as Rid.
  pose proof (read_write_u32 _ [] Hsize) as Rn. pose proof (read_write_u32 _ [] Hc) as Rc.
  pose proof (length_write_u64 (request_id f)) as Lid.
  pose proof (length_write_u32 (size_of (payload f))) as Ln. pose proof (length_write_u32 c) as Lc.
  rewrite app_nil_r in Rid, Rn, Rc.
  generalize dependent (write_u64 (request_id f)).
  generalize dependent (write_u32 (size_of (payload f))).
  generalize dependent (write_u32 c). intros c' Rc Lc n Rn Ln id Rid Lid.
  do 5 (destruct c' as [|? c']; try done). do 5 (destruct n as [|? n]; try done).
  do 9 (destruct id as [|? id]; try done).
  change (write_u32 kMagic) with [Byte.x46; Byte.x4b; Byte.x56; Byte.x31].
  change [byte_of_Z kVersion] with [Byte.x01].
  unfold byte_at. cbn [app take drop nth]. rewrite Rc, Rn, Rid.
  change (read_u32 [Byte.x46; Byte.x4b; Byte.x56; Byte.x31] =? kMagic) with true.
  change (Z_of_byte Byte.x01 =? kVersion) with true. cbn [negb].
  unfold validate in Hv. repeat (case_match; try done).
Qed.

Lemma parse_one_frame f rest :
  validate f = none -> is_u64 (request_id f) -> parse_one (frame_bytes f ++ rest) = Good f rest.
Proof.
  intros Hv Hid. unfold frame_bytes. rewrite (assoc_L (++)), <- (assoc_L (++)).
  assert (is_u32 (crc32 (frame_head f ++ payload f))) as Hc
    by (apply Crc32_value_range; eauto with forge).
  rewrite (parse_one_whole (frame_head f ++ write_u32 _) _ (payload f) rest eq_refl (decode_frame_header f _ Hv Hid Hc)).
  - rewrite take_app_length' by done. cbn [h_checksum].
    rewrite Z.eqb_refl. by destruct f.
  - cbn. unfold size_of. lia.
Qed.

(** What a header that passes the checks of [decode_header] looks like. *)
Lemma decode_header_inv hd h data :
  length hd = kHeaderSize -> decode_header hd = inr h ->
  size_of data = h_payload_length h ->
  validate (header_frame h data) = none /\ is_u64 (h_request_id h) /\
  hd = frame_head (header_frame h data) ++ write_u32 (h_checksum h).
Proof.
  intros Hl Hd Hn. do 25 (destruct hd as [|? hd]; try done). clear Hl.
  unfold decode_header, subspan, byte_at in Hd. cbn [take drop nth] in Hd.
  repeat (case_match; try done). injection Hd as <-. cbn [h_payload_length] in Hn.
  unfold header_frame, frame_head, validate. cbn [message_namespace message_type flags payload
    request_id h_message_namespace h_message_type h_flags h_request_id h_checksum].
  repeat match goal with H : negb _ = false |- _ => apply negb_false_iff in H end.
  rewrite Hn. split_and!.
  - repeat match goal with H : _ = true |- _ => rewrite H end. cbn [negb]. by rewrite H5.
  - by apply read_u64_range.
  - rewrite u32_small by by apply read_u32_range.
    rewrite (write_read_u64 [_; _; _; _; _; _; _; _]), !(write_read_u32 [_; _; _; _]) by done.
    apply Z.eqb_eq in H, H0. rewrite <- H, <- H0.
    by rewrite (write_read_u32 [_; _; _; _]), byte_of_Z_of_byte by done.
Qed.

(** The parser accepts only the bytes [serialize] writes. *)
Lemma parse_one_sound bs f rest :
  parse_one bs = Good f rest ->
  validate f = none /\ is_u64 (request_id f) /\ bs = frame_bytes f ++ rest.
Proof.
  unfold parse_one. destruct (Nat.ltb_spec (length bs) kHeaderSize) as [|Hl]; [done|].
  destruct (decode_header _) as [e|h] eqn:Hd; [done|].
  destruct (Nat.ltb_spec (length (drop kHeaderSize bs)) (Z.to_nat (h_payload_length h))) as [|Hn]; [done|].
  destruct (Z.eqb_spec (crc32 (take 20 bs ++ take (Z.to_nat (h_payload_length h)) (drop kHeaderSize bs)))
              (h_checksum h)) as [Hc|]; [|done].
  intros [= <- <-]. set (data := take _ (drop _ _)) in *.
  assert (0 <= h_payload_length h) as Hpos.
  { unfold decode_header in Hd. repeat (case_match; try done). injection Hd as <-.
    apply read_u32_range. unfold subspan. rewrite length_take, length_drop, length_take.
    unfold kHeaderSize in *. lia. }
  assert (size_of data = h_payload_length h) as Hsize
    by (unfold size_of, data; rewrite length_take; lia).
  destruct (decode_header_inv (take kHeaderSize bs) h data) as (Hv & Hid & Hhd);
    [rewrite length_take; lia|done..|].
  split_and!; [done..|]. unfold frame_bytes.
  assert (take 20 bs = frame_head (header_frame h data)) as Hhead.
  { replace (take 20 bs) with (take 20 (take kHeaderSize bs)) by by rewrite take_take.
    rewrite Hhd. by apply take_app_length'. }
  rewrite <- Hhead at 2. cbn [payload header_frame]. rewrite Hc.
  rewrite (assoc_L (++)), <- Hhd, <- (assoc_L (++)). unfold data. by rewrite !take_drop.
Qed.

Lemma Parsed_sound bs fs e pend :
  Parsed bs fs e pend ->
  Forall (fun f => validate f = none /\ is_u64 (request_id f)) fs /\
  exists rest, bs = concat (map frame_bytes fs) ++ rest /\ (e = none -> rest = pend).
Proof.
  induction 1 as [bs H|bs e H|bs f rest fs e pend H _ (IHv & rest' & -> & IHr)].
  - split; [done|]. by exists bs.
  - split; [done|]. exists bs. split; [done|]. intros ->. by apply parse_one_bad in H.
  - apply parse_one_sound in H as (Hv & Hid & ->). split; [by constructor|].
    exists rest'. cbn [map concat]. by rewrite <- (assoc_L (++)).
Qed.

Lemma pending_nil p : ParserOk p -> pending p = [] -> header_bytes_ p = 0%nat /\ awaiting_payload_ p = false.
Proof.
  unfold ParserOk, pending. intros Hok E. apply app_eq_nil in E as [E _].
  apply (f_equal length) in E. rewrite length_take in E. cbn in E.
  destruct (awaiting_payload_ p).
  - destruct Hok as ([Hl Hh _ _ _ _] & _). unfold kHeaderSize in *. lia.
  - destruct Hok as [[Hl Hh _ _] _]. split; [lia|done].
Qed.

Lemma buffered_pending p : ParserOk p -> buffered_bytes p = size_of (pending p).
Proof.
  unfold ParserOk, buffered_bytes, pending. intros Hok. rewrite size_of_app. unfold size_of.
  rewrite !length_take. destruct (awaiting_payload_ p).
  - destruct Hok as ([Hl Hh _ _ Hb _] & _). lia.
  - destruct Hok as [[Hl Hh Hp Hb] _]. rewrite Hp, Hb. cbn. lia.
Qed.

Lemma Parsed_frames fs :
  Forall (fun f => validate f = none /\ is_u64 (request_id f)) fs ->
  Parsed (concat (map frame_bytes fs)) fs none [].
Proof.
  induction 1 as [|f fs [Hv Hid] _ IH]; [by apply Parsed_rest|].
  eapply Parsed_frame; [by apply parse_one_frame|done].
Qed.

Lemma concat_serialize fs :
  Forall (fun f => validate f = none /\ is_u64 (request_id f)) fs ->
  map (fun f => sr_bytes (serialize f)) fs = map frame_bytes fs.
Proof.
  intros H. apply map_ext_in. intros f Hf. rewrite Forall_forall in H.
  rewrite serialize_frame_bytes; [done|]. apply H. by apply list_elem_of_In.
Qed.

(** Valid frames, serialized and cut into any chunks, arrive as they were. *)
Lemma consume_all_frames frames chunks :
  Forall (fun f => validate f = none /\ is_u64 (request_id f)) frames ->
  concat chunks = concat (map (fun f => sr_bytes (serialize f)) frames) ->
  exists p', consume_all Parser_default chunks = Some (p', {| pb_frames := frames; pb_error := none |}) /\
    ParserOk p' /\ pending p' = [] /\ failed_ p' = false.
Proof.
  intros Hv Hc. destruct (consume_all_refines chunks Parser_default ParserOk_default eq_refl)
    as (p' & fs & e & E & Hp & Hok & Hf).
  change (pending Parser_default) with (@nil byte) in Hp. cbn [app] in Hp.
  rewrite Hc, concat_serialize in Hp by done.
  destruct (Parsed_det _ _ _ _ _ _ _ (Parsed_frames frames Hv) Hp) as (-> & <- & Hpend). by exists p'.
Qed.

(** ** Theorems *)

(** C17. Any sequence of valid frames, serialized and sent over a connection that
    cuts the byte stream into chunks of any size, is received as exactly those
    frames: [consume] reports no error, nothing stays buffered and [finish]
    accepts the end of the stream. *)
Theorem parser_round_trip frames chunks :
  Forall (fun f => validate f = none /\ is_u64 (request_id f)) frames ->
  concat chunks = concat (map (fun f => sr_bytes (serialize f)) frames) ->
  exists p', consume_all Parser_default chunks =
               Some (p', {| pb_frames := frames; pb_error := none |}) /\
    buffered_bytes p' = 0 /\ finish p' = (p', none).
Proof.
  intros Hv Hc. destruct (consume_all_frames frames chunks Hv Hc) as (p' & E & Hok & Hpend & Hf).
  destruct (pending_nil p' Hok Hpend) as [Hh Ha].
  exists p'. split_and!; [done|by rewrite buffered_pending, Hpend|].
  unfold finish. by rewrite Hf, Hh, Ha.
Qed.

(** C27. Whatever bytes arrive, in whatever chunks, [consume] returns; the frames it
    delivers are valid, the bytes received are exactly their serialization
    followed by a rest, and without an error the rest is what the parser still
    buffers and holds no complete frame. *)
Theorem parser_accepts_only_serialized_frames chunks :
  exists p' frames e rest,
    consume_all Parser_default chunks = Some (p', {| pb_frames := frames; pb_error := e |}) /\
    Forall (fun f => sr_error (serialize f) = none) frames /\
    concat chunks = concat (map (fun f => sr_bytes (serialize f)) frames) ++ rest /\
    failed_ p' = bool_decide (e <> none) /\
    (e = none -> buffered_bytes p' = size_of rest /\
       forall f tail, sr_error (serialize f) = none -> is_u64 (request_id f) ->
         rest <> sr_bytes (serialize f) ++ tail).
Proof.
  destruct (consume_all_refines chunks Parser_default ParserOk_default eq_refl)
    as (p' & fs & e & E & Hp & Hok & Hf).
  change (pending Parser_default) with (@nil byte) in Hp. cbn [app] in Hp.
  destruct (Parsed_sound _ _ _ _ Hp) as (Hv & rest & Hrest & He).
  exists p', fs, e, rest. split_and!; try done.
  - eapply Forall_impl; [exact Hv|]. intros f [Hf' _]. by rewrite serialize_frame_bytes.
  - by rewrite concat_serialize.
  - intros ->. rewrite (He eq_refl). split; [by apply buffered_pending|].
    intros f tail Hs Hid Hr. assert (validate f = none) as Hv'.
    { unfold serialize in Hs. by destruct (validate f). }
    pose proof (pending_incomplete p' Hok) as Hinc. rewrite Hr, serialize_frame_bytes in Hinc by done.
    cbn [sr_bytes] in Hinc. by rewrite parse_one_frame in Hinc.
Qed.

(** How the bytes are cut into chunks changes neither the frames delivered nor
    the error reported. *)
Theorem parser_ignores_chunk_boundaries chunks1 chunks2 :
  concat chunks1 = concat chunks2 ->
  option_map snd (consume_all Parser_default chunks1) =
  option_map snd (consume_all Parser_default chunks2).
Proof.
  intros Hc.
  destruct (consume_all_refines chunks1 Parser_default ParserOk_default eq_refl)
    as (p1 & fs1 & e1 & -> & Hp1 & _). rewrite Hc in Hp1.
  destruct (consume_all_refines chunks2 Parser_default ParserOk_default eq_refl)
    as (p2 & fs2 & e2 & -> & Hp2 & _).
  by destruct (Parsed_det _ _ _ _ _ _ _ Hp1 Hp2) as (-> & -> & _).
Qed.

(** A frame whose payload was changed inside a window of at most four bytes is
    never delivered: the parser reports [checksum_mismatch] and refuses every
    later byte. *)
Theorem corrupted_payload_is_detected f pre a b post :
  validate f = none -> is_u64 (request_id f) -> payload f = pre ++ a ++ post ->
  length a = length b -> (length a <= 4)%nat -> a <> b ->
  exists p', consume Parser_default
      (take kHeaderSize (sr_bytes (serialize f)) ++ pre ++ b ++ post) =
      Some (p', {| pb_frames := []; pb_error := checksum_mismatch |}) /\
    forall more, consume p' more = Some (p', {| pb_frames := []; pb_error := parser_failed |}).
Proof.
  intros Hv Hid Hpl Hlen H4 Hne. rewrite serialize_frame_bytes by done. cbn [sr_bytes].
  destruct (consume_refines Parser_default (take kHeaderSize (frame_bytes f) ++ pre ++ b ++ post)
    ParserOk_default eq_refl) as (p' & fs & e & E & Hp & Hok & Hf).
  change (pending Parser_default) with (@nil byte) in Hp. cbn [app] in Hp.
  assert (is_u32 (crc32 (frame_head f ++ payload f))) as Hc
    by (apply Crc32_value_range; eauto with forge).
  assert (parse_one (take kHeaderSize (frame_bytes f) ++ pre ++ b ++ post) = Bad checksum_mismatch) as Hbad.
  { unfold frame_bytes. rewrite (assoc_L (++) (frame_head f)), take_app_length' by done.
    rewrite <- (app_nil_r (pre ++ b ++ post)).
    rewrite (parse_one_whole (frame_head f ++ write_u32 _) _ _ [] eq_refl (decode_frame_header f _ Hv Hid Hc)).
    - rewrite take_app_length' by done. cbn [h_checksum].
      destruct (Z.eqb_spec (Crc32_value (Crc32_update Crc32_init (frame_head f ++ pre ++ b ++ post)))
                  (crc32 (frame_head f ++ payload f))) as [Heq|]; [|done].
      exfalso. apply Hne. rewrite Hpl, !(assoc_L (++) (frame_head f)) in Heq.
      by apply (crc32_window (frame_head f ++ pre) a b post).
    - cbn. rewrite Hpl. unfold size_of. rewrite !length_app, Hlen. lia. }
  destruct (Parsed_det _ _ _ _ _ _ _ (Parsed_bad _ _ Hbad) Hp) as (<- & <- & _).
  exists p'. split; [done|]. intros more. unfold consume. by rewrite Hf.
Qed.

(** ** Concrete frames *)

Definition example_put : Frame :=
  {| message_namespace := Namespace_client; message_type := MessageType_put;
     flags := Byte.x00; request_id := 7; payload := [Byte.x61; Byte.x62; Byte.x63] |}.

Definition example_vote : Frame :=
  {| message_namespace := Namespace_raft; message_type := MessageType_raft_request_vote;
     flags := Byte.x00; request_id := 0; payload := [] |}.

Definition example_stream : list byte :=
  sr_bytes (serialize example_put) ++ sr_bytes (serialize example_vote).

Lemma parser_round_trip_witness :
  exists p', consume_all Parser_default [take 5 example_stream; drop 5 example_stream] =
               Some (p', {| pb_frames := [example_put; example_vote]; pb_error := none |}) /\
    buffered_bytes p' = 0 /\ finish p' = (p', none).
Proof.
  apply (parser_round_trip [example_put; example_vote]).
  - repeat constructor; vm_compute; congruence.
  - vm_compute. reflexivity.
Defined.

Lemma parser_ignores_chunk_boundaries_witness :
  option_map snd (consume_all Parser_default [take 30 example_stream; drop 30 example_stream]) =
  option_map snd (consume_all Parser_default [example_stream]).
Proof. apply parser_ignores_chunk_boundaries. vm_compute. reflexivity. Defined.

Lemma corrupted_payload_is_detected_witness :
  exists p', consume Parser_default
      (take kHeaderSize (sr_bytes (serialize example_put)) ++ [Byte.x61] ++ [Byte.x00] ++ [Byte.x63]) =
      Some (p', {| pb_frames := []; pb_error := checksum_mismatch |}) /\
    forall more, consume p' more = Some (p', {| pb_frames := []; pb_error := parser_failed |}).
Proof.
  apply (corrupted_payload_is_detected example_put [Byte.x61] [Byte.x62] [Byte.x00] [Byte.x63]);
    try (vm_compute; congruence); [split; vm_compute; congruence|cbn; lia].
Defined.
