(* ===== verification/Fs.v ===== *)
(** * Files, the kernel and crashes

    The storage code talks to the operating system through POSIX calls.  Their
    documented behaviour is modelled here: a directory of named files, a page
    cache in front of a disk, calls that may be interrupted, transfer fewer
    bytes than asked or fail, and crashes that lose what was not flushed
    ([docs/failure-model.md], section 2.3: an unflushed write can be absent,
    partial or visible; a successful [fdatasync] makes file data persistent; a
    successful [fsync] of the directory makes renames persistent; rename is
    atomic).

    A computation over [Fs] also records every disk state it went through, so
    that a statement can speak of a crash at any point of it. *)

From S2P Require Import Prelude.

(** ** The disk *)

(** A file: what the running system reads ([cached]), and what the last
    [fdatasync] put on the disk ([stable]). *)
Record Inode : Set := {
  cached : list byte;
  stable : list byte
}.

(** The directory maps names to files.  [unsynced] holds the directories since
    the last [fsync]: a crash may bring back any of them. *)
Record Disk : Set := {
  inodes : gmap nat Inode;
  names : gmap string nat;
  unsynced : list (gmap string nat)
}.

#[export] Instance Inode_eq_dec : EqDecision Inode.
Proof. solve_decision. Defined.
#[export] Instance Disk_eq_dec : EqDecision Disk.
Proof. solve_decision. Defined.

(** ** Crashes *)

(** The longest common prefix. *)
Fixpoint common (a b : list byte) : list byte :=
  match a, b with
  | x :: a', y :: b' => if Byte.eqb x y then x :: common a' b' else []
  | _, _ => []
  end.

(** What a crash can leave of a file: nothing that both the flushed and the
    current contents start with is lost, and what follows is cut off anywhere. *)
Definition survives (f : Inode) (content : list byte) : Prop :=
  common (stable f) (cached f) `prefix_of` content /\
  (content `prefix_of` cached f \/ content `prefix_of` stable f).

Definition crash (d d' : Disk) : Prop :=
  (names d' = names d \/ names d' ∈ unsynced d) /\ unsynced d' = [] /\
  (forall ino f', inodes d' !! ino = Some f' ->
     cached f' = stable f' /\ exists f, inodes d !! ino = Some f /\ survives f (stable f')) /\
  (forall ino f, inodes d !! ino = Some f -> is_Some (inodes d' !! ino)).

(** ** The kernel *)

(** What the kernel answers to a call: it does all of it, it transfers at most
    [n] bytes, a signal interrupts it, or it fails. *)
Inductive answer : Set :=
| Full
| Partial (n : nat)
| Interrupted
| Refused.

(** [script] holds the answers to the next calls; when it is used up, calls
    succeed.  [past] is the history of the disk, the latest state first. *)
Record Fs : Set := {
  disk : Disk;
  past : list Disk;
  script : list answer
}.

Definition set_script (l : list answer) (fs : Fs) : Fs :=
  {| disk := disk fs; past := past fs; script := l |}.

(** A change of the disk. *)
Definition effect (f : Disk -> Disk) : M Fs unit := fun fs =>
  ({| disk := f (disk fs); past := disk fs :: past fs; script := script fs |}, Ok tt).

(** The next answer. *)
Definition ask : M Fs answer := fun fs =>
  match script fs with
  | [] => (fs, Ok Full)
  | a :: rest => (set_script rest fs, Ok a)
  end.

(** A call that is made once and fails with [e]. *)
Definition attempt_once (e : exn) : M Fs unit :=
  let* a := ask in
  match a with
  | Full | Partial _ => ret tt
  | Interrupted | Refused => throw e
  end.

(** [while (call() != 0) { if (errno != EINTR) throw e; }] *)
Fixpoint attempt_loop (answers : list answer) : list answer * bool :=
  match answers with
  | [] => ([], true)
  | Full :: rest | Partial _ :: rest => (rest, true)
  | Interrupted :: rest => attempt_loop rest
  | Refused :: rest => (rest, false)
  end.

Definition attempt (e : exn) : M Fs unit := fun fs =>
  let (rest, done) := attempt_loop (script fs) in
  (set_script rest fs, if done then Ok tt else Throw e).

(** A function supplied by the caller, which may throw. *)
Definition callback : M Fs unit := attempt_once callback_error.

(** ** Contents *)

(** The largest file offset. *)
Definition off_t_max : Z := 9223372036854775807.

Definition update_inode (ino : nat) (f : Inode -> Inode) (d : Disk) : Disk :=
  {| inodes := alter f ino (inodes d); names := names d; unsynced := unsynced d |}.

Definition append_bytes (data : list byte) (f : Inode) : Inode :=
  {| cached := cached f ++ data; stable := stable f |}.

Definition content (ino : nat) (d : Disk) : list byte :=
  match inodes d !! ino with
  | Some f => cached f
  | None => []
  end.

(** The loop of [write_all]: the answers left, the bytes written, and whether
    all of them were. *)
Fixpoint write_loop (answers : list answer) (data : list byte) : list answer * list byte * bool :=
  match data with
  | [] => (answers, [], true)
  | _ :: _ =>
      match answers with
      | [] => ([], data, true)
      | Full :: rest => (rest, data, true)
      | Partial n :: rest =>
          if Nat.eqb n 0 then (rest, [], false)
          else
            let '(rest', written, done) := write_loop rest (drop n data) in
            (rest', take n data ++ written, done)
      | Interrupted :: rest => write_loop rest data
      | Refused :: rest => (rest, [], false)
      end
  end.

(** [write_all]: the files are opened for appending, or are new and written
    from the start, so the bytes go to the end. *)
Definition write_all (e : exn) (ino : nat) (data : list byte) : M Fs unit := fun fs =>
  let '(rest, written, done) := write_loop (script fs) data in
  (fst (effect (update_inode ino (append_bytes written)) (set_script rest fs)),
   if done then Ok tt else Throw e).

(** The loop of [read_at] and [read_all]: [want] bytes of the destination are
    still to fill, [have] bytes are left before the end of the file.  A [read]
    returns zero only at the end of the file. *)
Fixpoint read_loop (answers : list answer) (want have : nat) : list answer * bool :=
  match want with
  | O => (answers, true)
  | S _ =>
      match answers with
      | [] => ([], true)
      | Full :: rest =>
          let n := Nat.min want have in
          if Nat.eqb n 0 then (rest, true) else read_loop rest (want - n) (have - n)
      | Partial m :: rest =>
          let n := Nat.min (Nat.min want have) (Nat.max 1 m) in
          if Nat.eqb n 0 then (rest, true) else read_loop rest (want - n) (have - n)
      | Interrupted :: rest => read_loop rest want have
      | Refused :: rest => (rest, false)
      end
  end.

(** The bytes at [offset], at most [size] of them: fewer when the file ends. *)
Definition read_at (e : exn) (ino : nat) (size offset : nat) : M Fs (list byte) := fun fs =>
  let bytes := subspan offset size (content ino (disk fs)) in
  let (rest, done) := read_loop (script fs) size (length bytes) in
  (set_script rest fs, if done then Ok bytes else Throw e).

(** [fstat]: the size of the file. *)
Definition file_size (e : exn) (ino : nat) : M Fs nat :=
  attempt_once e ;; let* fs := get in ret (length (content ino (disk fs))).

Definition truncate_bytes (size : nat) (f : Inode) : Inode :=
  {| cached := take size (cached f); stable := stable f |}.

Definition truncate_to (e : exn) (ino : nat) (size : nat) : M Fs unit :=
  attempt e ;; effect (update_inode ino (truncate_bytes size)).

Definition flush_bytes (f : Inode) : Inode :=
  {| cached := cached f; stable := cached f |}.

(** [fdatasync] *)
Definition sync_file (e : exn) (ino : nat) : M Fs unit :=
  attempt e ;; effect (update_inode ino flush_bytes).

(** ** The directory *)

Definition set_names (f : gmap string nat -> gmap string nat) (d : Disk) : Disk :=
  {| inodes := inodes d; names := f (names d); unsynced := names d :: unsynced d |}.

Definition fresh_ino (d : Disk) : nat := fresh (dom (inodes d)).

Definition add_file (name : string) (d : Disk) : Disk :=
  set_names <[name := fresh_ino d]>
    {| inodes := <[fresh_ino d := {| cached := []; stable := [] |}]> (inodes d);
       names := names d; unsynced := unsynced d |}.

Definition exists_name (e : exn) (name : string) : M Fs bool :=
  attempt_once e ;; let* fs := get in ret (bool_decide (is_Some (names (disk fs) !! name))).

(** [open] of an existing file; [None] when there is none. *)
Definition open_file (e : exn) (name : string) : M Fs (option nat) :=
  attempt_once e ;; let* fs := get in ret (names (disk fs) !! name).

(** [open] with [O_CREAT]. *)
Definition open_or_create (e : exn) (name : string) : M Fs nat :=
  attempt_once e ;;
  let* fs := get in
  match names (disk fs) !! name with
  | Some ino => ret ino
  | None => effect (add_file name) ;; ret (fresh_ino (disk fs))
  end.

(** [open] with [O_CREAT | O_EXCL]; [None] when the name is taken. *)
Definition create_exclusive (e : exn) (name : string) : M Fs (option nat) :=
  attempt_once e ;;
  let* fs := get in
  match names (disk fs) !! name with
  | Some _ => ret None
  | None => effect (add_file name) ;; ret (Some (fresh_ino (disk fs)))
  end.

(** [open] with [O_CREAT | O_TRUNC]. *)
Definition open_truncated (e : exn) (name : string) : M Fs nat :=
  attempt_once e ;;
  let* fs := get in
  match names (disk fs) !! name with
  | Some ino => effect (update_inode ino (truncate_bytes 0)) ;; ret ino
  | None => effect (add_file name) ;; ret (fresh_ino (disk fs))
  end.

(** [std::filesystem::remove] *)
Definition remove_file (e : exn) (name : string) : M Fs unit :=
  attempt_once e ;; effect (set_names (delete name)).

Definition rename_names (source destination : string) (ns : gmap string nat) : gmap string nat :=
  match ns !! source with
  | Some ino => <[destination := ino]> (delete source ns)
  | None => ns
  end.

Definition rename_file (e : exn) (source destination : string) : M Fs unit :=
  attempt e ;;
  let* fs := get in
  match names (disk fs) !! source with
  | Some _ => effect (set_names (rename_names source destination))
  | None => throw e
  end.

(** [unlink] whose result is ignored. *)
Definition unlink_file (name : string) : M Fs unit :=
  let* a := ask in
  match a with
  | Full | Partial _ => effect (set_names (delete name))
  | Interrupted | Refused => ret tt
  end.

Definition flush_names (d : Disk) : Disk :=
  {| inodes := inodes d; names := names d; unsynced := [] |}.

(** [open] of the directory and [fsync]. *)
Definition sync_directory (e : exn) : M Fs unit :=
  attempt_once e ;; attempt e ;; effect flush_names.

(** [try { m } catch (...) { handler; throw; }], the handler not throwing. *)
Definition on_error {S A} (m : M S A) (handler : M S unit) : M S A := fun s =>
  match m s with
  | (s', Ok a) => (s', Ok a)
  | (s', Throw e) => (fst (handler s'), Throw e)
  end.

(** A computation on a part of an object. *)
Definition lift {S T A} (part : S -> T) (set_part : T -> S -> S) (m : M T A) : M S A := fun s =>
  let (t', r) := m (part s) in (set_part t' s, r).

Lemma update_inode_id ino f d :
  (forall i, inodes d !! ino = Some i -> f i = i) -> update_inode ino f d = d.
Proof.
  intros H. destruct d as [fl ns us]. unfold update_inode. cbn in *. f_equal.
  apply map_eq. intros j. destruct (decide (ino = j)) as [<-|Hne].
  - rewrite lookup_alter_eq. destruct (fl !! ino) as [i|] eqn:E; [|done]. cbn. by rewrite H.
  - by rewrite lookup_alter_ne.
Qed.

Lemma truncate_all ino d : update_inode ino (truncate_bytes (length (content ino d))) d = d.
Proof.
  apply update_inode_id. intros [c s] E. unfold content, truncate_bytes. rewrite E. cbn.
  by rewrite firstn_all.
Qed.

(** ** Crash triples

    [crash_safe C m fs Q]: every disk state [m] goes through from [fs], the last
    one included, satisfies [C], and its outcome and last disk satisfy [Q]. *)

Definition crash_safe {A} (C : Disk -> Prop) (m : M Fs A) (fs : Fs)
    (Q : result A -> Disk -> Prop) : Prop :=
  exists new, past (fst (m fs)) = new ++ past fs /\ Forall C new /\
    C (disk (fst (m fs))) /\ Q (snd (m fs)) (disk (fst (m fs))).

Section CrashTriples.
Context {A B : Type} (C : Disk -> Prop).

Lemma crash_safe_ret (a : A) fs (Q : result A -> Disk -> Prop) :
  C (disk fs) -> Q (Ok a) (disk fs) -> crash_safe C (ret a) fs Q.
Proof. intros HC HQ. by exists []. Qed.

Lemma crash_safe_throw e fs (Q : result A -> Disk -> Prop) :
  C (disk fs) -> Q (Throw e) (disk fs) -> crash_safe C (throw e) fs Q.
Proof. intros HC HQ. by exists []. Qed.

Lemma crash_safe_bind (m : M Fs A) (k : A -> M Fs B) fs
    (Q : result A -> Disk -> Prop) (R : result B -> Disk -> Prop) :
  crash_safe C m fs Q ->
  (forall e d, Q (Throw e) d -> R (Throw e) d) ->
  (forall a fs', Q (Ok a) (disk fs') -> crash_safe C (k a) fs' R) ->
  crash_safe C (bind m k) fs R.
Proof.
  intros (new & Hp & Hn & HC & HQ) He Hk. unfold crash_safe, bind.
  destruct (m fs) as [fs' [a|e]]; cbn [fst snd] in *.
  - destruct (Hk a fs' HQ) as (new' & Hp' & Hn' & HC' & HR').
    exists (new' ++ new). rewrite Hp', Hp, (assoc_L (++)). split_and!; try done.
    by apply Forall_app.
  - exists new. split_and!; auto.
Qed.

Lemma crash_safe_weaken (m : M Fs A) fs (Q R : result A -> Disk -> Prop) :
  crash_safe C m fs Q -> (forall r d, Q r d -> R r d) -> crash_safe C m fs R.
Proof. intros (new & Hp & Hn & HC & HQ) HR. exists new. split_and!; auto. Qed.
End CrashTriples.

(** A computation that leaves the disk alone. *)
Definition reads {A} (m : M Fs A) : Prop :=
  forall fs, disk (fst (m fs)) = disk fs /\ past (fst (m fs)) = past fs.

Lemma reads_safe {A} (m : M Fs A) (C : Disk -> Prop) fs (Q : result A -> Disk -> Prop) :
  reads m -> C (disk fs) -> Q (snd (m fs)) (disk fs) -> crash_safe C m fs Q.
Proof. intros Hm HC HQ. destruct (Hm fs) as [Hd Hp]. exists []. rewrite Hd, Hp. by split_and!. Qed.

Lemma reads_ret {A} (a : A) : reads (ret a).
Proof. done. Qed.

Lemma reads_throw {A} e : reads (throw e : M Fs A).
Proof. done. Qed.

Lemma reads_get : reads get.
Proof. done. Qed.

Lemma reads_bind {A B} (m : M Fs A) (k : A -> M Fs B) :
  reads m -> (forall a, reads (k a)) -> reads (bind m k).
Proof.
  intros Hm Hk fs. unfold bind. specialize (Hm fs). destruct (m fs) as [fs' [a|e]]; [|done].
  specialize (Hk a fs'). cbn [fst] in *. destruct Hm, Hk. split; congruence.
Qed.

Lemma reads_ask : reads ask.
Proof. intros fs. unfold ask. by destruct (script fs). Qed.

Lemma reads_attempt_once e : reads (attempt_once e).
Proof. apply reads_bind; [apply reads_ask|]. by intros []. Qed.

Lemma reads_attempt e : reads (attempt e).
Proof. intros fs. unfold attempt. by destruct (attempt_loop _). Qed.

Lemma reads_read_at e ino size offset : reads (read_at e ino size offset).
Proof. intros fs. unfold read_at. by destruct (read_loop _ _ _). Qed.

Lemma reads_file_size e ino : reads (file_size e ino).
Proof. apply reads_bind; [apply reads_attempt_once|]. done. Qed.

#[export] Hint Resolve reads_ret reads_throw reads_get reads_bind reads_ask reads_attempt_once
  reads_attempt reads_read_at reads_file_size : forge.

(** The rules, from the goal backwards. *)

Lemma cs_bind {A B} (C : Disk -> Prop) (m : M Fs A) (k : A -> M Fs B) fs (R : result B -> Disk -> Prop) :
  crash_safe C m fs (fun r d =>
    match r with
    | Ok a => forall fs', disk fs' = d -> crash_safe C (k a) fs' R
    | Throw e => R (Throw e) d
    end) ->
  crash_safe C (bind m k) fs R.
Proof. intros H. eapply crash_safe_bind; [exact H|done|]. cbn. auto. Qed.

Lemma cs_attempt C e fs Q :
  C (disk fs) -> Q (Ok tt) (disk fs) -> Q (Throw e) (disk fs) -> crash_safe C (attempt e) fs Q.
Proof.
  intros HC H1 H2. apply reads_safe; [apply reads_attempt|done|].
  unfold attempt. destruct (attempt_loop _) as [? []]; done.
Qed.

Lemma cs_attempt_once C e fs Q :
  C (disk fs) -> Q (Ok tt) (disk fs) -> Q (Throw e) (disk fs) -> crash_safe C (attempt_once e) fs Q.
Proof.
  intros HC H1 H2. apply reads_safe; [apply reads_attempt_once|done|].
  unfold attempt_once, bind, ask. by destruct (script fs) as [|[] ?].
Qed.

Lemma cs_get C fs Q : C (disk fs) -> Q (Ok fs) (disk fs) -> crash_safe C get fs Q.
Proof. intros HC HQ. by exists []. Qed.

Lemma cs_effect C f fs Q :
  C (disk fs) -> C (f (disk fs)) -> Q (Ok tt) (f (disk fs)) -> crash_safe C (effect f) fs Q.
Proof. intros H0 HC HQ. exists [disk fs]. split_and!; try done. by constructor. Qed.

Lemma write_loop_spec answers data rest written done :
  write_loop answers data = (rest, written, done) ->
  written `prefix_of` data /\ (if done then written = data else True).
Proof.
  revert data rest written done. induction answers as [|a answers IH]; intros data rest written done;
    cbn [write_loop]; destruct data as [|b data]; try by intros [= <- <- <-].
  destruct a as [|n| |].
  - by intros [= <- <- <-].
  - destruct (Nat.eqb n 0).
    + intros [= <- <- <-]. split; [apply prefix_nil|done].
    + destruct (write_loop answers (drop n (b :: data))) as [[r w] d] eqn:E.
      intros [= <- <- <-]. destruct (IH _ _ _ _ E) as [Hw Hd]. split.
      * rewrite <- (take_drop n (b :: data)) at 2. by apply prefix_app.
      * destruct d; [|done]. rewrite Hd. apply take_drop.
  - apply IH.
  - intros [= <- <- <-]. split; [apply prefix_nil|done].
Qed.

Lemma cs_write_all C e ino data fs Q :
  C (disk fs) ->
  (forall w, w `prefix_of` data ->
     C (update_inode ino (append_bytes w) (disk fs)) /\
     Q (Throw e) (update_inode ino (append_bytes w) (disk fs))) ->
  Q (Ok tt) (update_inode ino (append_bytes data) (disk fs)) ->
  crash_safe C (write_all e ino data) fs Q.
Proof.
  intros HC Hw HQ. unfold crash_safe, write_all.
  destruct (write_loop (script fs) data) as [[rest w] done] eqn:E.
  apply write_loop_spec in E as [Hp Hd]. exists [disk fs]. cbn.
  destruct (Hw w Hp) as [HCw Hthrow]. split_and!; try done; [by constructor|].
  destruct done; [by subst|done].
Qed.

Lemma cs_read_at C e ino size offset fs Q :
  C (disk fs) -> Q (Ok (subspan offset size (content ino (disk fs)))) (disk fs) ->
  Q (Throw e) (disk fs) -> crash_safe C (read_at e ino size offset) fs Q.
Proof.
  intros HC H1 H2. apply reads_safe; [apply reads_read_at|done|].
  unfold read_at. by destruct (read_loop _ _ _) as [? []].
Qed.

Lemma cs_file_size C e ino fs Q :
  C (disk fs) -> Q (Ok (length (content ino (disk fs)))) (disk fs) ->
  Q (Throw e) (disk fs) -> crash_safe C (file_size e ino) fs Q.
Proof.
  intros HC H1 H2. apply reads_safe; [apply reads_file_size|done|].
  unfold file_size, attempt_once, bind, ask. by destruct (script fs) as [|[] ?].
Qed.

Lemma cs_sync_file C e ino fs Q :
  C (disk fs) -> C (update_inode ino flush_bytes (disk fs)) ->
  Q (Ok tt) (update_inode ino flush_bytes (disk fs)) -> Q (Throw e) (disk fs) ->
  crash_safe C (sync_file e ino) fs Q.
Proof.
  intros HC HC' H1 H2. apply cs_bind, cs_attempt; [done| |done].
  intros fs' E. rewrite <- E in *. by apply cs_effect.
Qed.

Lemma cs_truncate_to C e ino size fs Q :
  C (disk fs) -> C (update_inode ino (truncate_bytes size) (disk fs)) ->
  Q (Ok tt) (update_inode ino (truncate_bytes size) (disk fs)) -> Q (Throw e) (disk fs) ->
  crash_safe C (truncate_to e ino size) fs Q.
Proof.
  intros HC HC' H1 H2. apply cs_bind, cs_attempt; [done| |done].
  intros fs' E. rewrite <- E in *. by apply cs_effect.
Qed.

(** ** What survives *)

Lemma common_app p a b : common (p ++ a) (p ++ b) = p ++ common a b.
Proof.
  induction p as [|x p IH]; [done|]. cbn. rewrite (Byte.byte_dec_lb (eq_refl x)). by rewrite IH.
Qed.

Lemma common_prefix p a b : p `prefix_of` a -> p `prefix_of` b -> p `prefix_of` common a b.
Proof. intros [a' ->] [b' ->]. rewrite common_app. by apply prefix_app_r. Qed.

Lemma common_nil_r a : common a [] = [].
Proof. by destruct a. Qed.

Lemma survives_prefix f p content :
  survives f content -> p `prefix_of` stable f -> p `prefix_of` cached f -> p `prefix_of` content.
Proof. intros [H _] Hs Hc. trans (common (stable f) (cached f)); [by apply common_prefix|done]. Qed.

Lemma survives_flushed f content : cached f = stable f -> survives f content -> content = stable f.
Proof.
  intros E [H1 H2]. rewrite E in *.
  assert (common (stable f) (stable f) = stable f) as Hc.
  { rewrite <- (app_nil_r (stable f)) at 1 2. by rewrite common_app, app_nil_r. }
  rewrite Hc in H1. apply (anti_symm prefix); tauto.
Qed.

(** ** Components that own the file system

    The same triples for a computation over an object with the file system
    inside it, [fs_of] being the way to it. *)

Section Owner.
Context {S : Type} (fs_of : S -> Fs) (C : Disk -> Prop).

Definition safe_on {A} (m : M S A) (s : S) (Q : result A -> S -> Prop) : Prop :=
  exists new, past (fs_of (fst (m s))) = new ++ past (fs_of s) /\ Forall C new /\
    C (disk (fs_of (fst (m s)))) /\ Q (snd (m s)) (fst (m s)).

Lemma so_bind {A B} (m : M S A) (k : A -> M S B) s (R : result B -> S -> Prop) :
  safe_on m s (fun r s' =>
    match r with
    | Ok a => safe_on (k a) s' R
    | Throw e => R (Throw e) s'
    end) ->
  safe_on (bind m k) s R.
Proof.
  intros (new & Hp & Hn & HC & HQ). unfold safe_on, bind.
  destruct (m s) as [s' [a|e]]; cbn [fst snd] in *; [|by exists new].
  destruct HQ as (new' & Hp' & Hn' & HC' & HR').
  exists (new' ++ new). rewrite Hp', Hp, (assoc_L (++)). split_and!; try done. by apply Forall_app.
Qed.

(** A computation that does not touch the file system. *)
Lemma so_pure {A} (m : M S A) s (Q : result A -> S -> Prop) :
  fs_of (fst (m s)) = fs_of s -> C (disk (fs_of s)) -> Q (snd (m s)) (fst (m s)) -> safe_on m s Q.
Proof. intros E HC HQ. exists []. rewrite E. by split_and!. Qed.

Lemma so_weaken {A} (m : M S A) s (Q R : result A -> S -> Prop) :
  safe_on m s Q -> (forall r s', Q r s' -> R r s') -> safe_on m s R.
Proof. intros (new & Hp & Hn & HC & HQ) HR. exists new. split_and!; auto. Qed.
End Owner.

Lemma so_mono {S A} (fs_of : S -> Fs) (C C' : Disk -> Prop) (m : M S A) s (Q : result A -> S -> Prop) :
  safe_on fs_of C m s Q -> (forall d, C d -> C' d) -> safe_on fs_of C' m s Q.
Proof.
  intros (new & Hp & Hn & HC & HQ) HCC. exists new. split_and!; auto.
  eapply Forall_impl; [exact Hn|auto].
Qed.
