(* ===== verification/FsTriples.v ===== *)
(** * Crash triples that know about faults

    [triple fs_of faulty C m s Q]: every disk state the computation [m] goes
    through from [s] satisfies [C], and its outcome satisfies [Q].  A call fails
    only in a run that is [faulty]; a run that is not has an empty script of
    kernel answers, so every call succeeds. *)

From S2P Require Import Prelude Fs.

Section Triples.
Context {S : Type} (fs_of : S -> Fs) (faulty : Prop) (C : Disk -> Prop).

Definition healthy (s : S) : Prop := faulty \/ script (fs_of s) = [].

Definition triple {A} (m : M S A) (s : S) (Q : result A -> S -> Prop) : Prop :=
  healthy s ->
  exists new, past (fs_of (fst (m s))) = new ++ past (fs_of s) /\ Forall C new /\
    C (disk (fs_of (fst (m s)))) /\ healthy (fst (m s)) /\ Q (snd (m s)) (fst (m s)).

Lemma t_ret {A} (a : A) s (Q : result A -> S -> Prop) :
  C (disk (fs_of s)) -> Q (Ok a) s -> triple (ret a) s Q.
Proof. intros HC HQ Hh. by exists []. Qed.

Lemma t_throw {A} e s (Q : result A -> S -> Prop) :
  C (disk (fs_of s)) -> Q (Throw e) s -> triple (throw e) s Q.
Proof. intros HC HQ Hh. by exists []. Qed.

Lemma t_get s (Q : result S -> S -> Prop) : C (disk (fs_of s)) -> Q (Ok s) s -> triple get s Q.
Proof. intros HC HQ Hh. by exists []. Qed.

Lemma t_modify f s (Q : result unit -> S -> Prop) :
  fs_of (f s) = fs_of s -> C (disk (fs_of s)) -> Q (Ok tt) (f s) -> triple (modify f) s Q.
Proof.
  intros E HC HQ Hh. exists []. unfold healthy in *. cbn. rewrite E. by split_and!.
Qed.

Lemma t_bind {A B} (m : M S A) (k : A -> M S B) s (R : result B -> S -> Prop) :
  triple m s (fun r s' => match r with Ok a => triple (k a) s' R | Throw e => R (Throw e) s' end) ->
  triple (bind m k) s R.
Proof.
  intros Hm Hh. destruct (Hm Hh) as (new & Hp & Hn & HC & Hh' & HQ). unfold bind.
  destruct (m s) as [s' [a|e]]; cbn [fst snd] in *; [|by exists new].
  destruct (HQ Hh') as (new' & Hp' & Hn' & HC' & Hh'' & HR').
  exists (new' ++ new). rewrite Hp', Hp, (assoc_L (++)). split_and!; try done. by apply Forall_app.
Qed.

Lemma t_weaken {A} (m : M S A) s (Q R : result A -> S -> Prop) :
  triple m s Q -> (forall r s', Q r s' -> R r s') -> triple m s R.
Proof.
  intros Hm HR Hh. destruct (Hm Hh) as (new & ? & ? & ? & ? & ?). exists new. split_and!; auto.
Qed.

Lemma t_on_error {A} (m : M S A) (handler : M S unit) s (Q : result A -> S -> Prop) :
  triple m s (fun r s' => match r with
                          | Ok a => Q (Ok a) s'
                          | Throw e => triple handler s' (fun _ s'' => Q (Throw e) s'')
                          end) ->
  triple (on_error m handler) s Q.
Proof.
  intros Hm Hh. destruct (Hm Hh) as (new & Hp & Hn & HC & Hh' & HQ). unfold on_error.
  destruct (m s) as [s' [a|e]]; cbn [fst snd] in *; [by exists new|].
  destruct (HQ Hh') as (new' & Hp' & Hn' & HC' & Hh'' & HR').
  exists (new' ++ new). cbn [fst snd]. rewrite Hp', Hp, (assoc_L (++)). split_and!; try done.
  by apply Forall_app.
Qed.

(** The last disk state is one of those a computation goes through. *)
Lemma t_last {A} (m : M S A) s (Q : result A -> S -> Prop) :
  triple m s (fun r s' => C (disk (fs_of s')) -> Q r s') -> triple m s Q.
Proof. intros Hm Hh. destruct (Hm Hh) as (new & ? & ? & HC & ? & HQ). exists new. split_and!; auto. Qed.

(** A computation that does not touch the file system. *)
Lemma t_pure {A} (m : M S A) s (Q : result A -> S -> Prop) :
  fs_of (fst (m s)) = fs_of s -> C (disk (fs_of s)) -> Q (snd (m s)) (fst (m s)) -> triple m s Q.
Proof. intros E HC HQ Hh. exists []. unfold healthy in *. rewrite E. by split_and!. Qed.
End Triples.

Lemma t_mono {S A} (fs_of : S -> Fs) (faulty : Prop) (C C' : Disk -> Prop) (m : M S A) s Q :
  triple fs_of faulty C m s Q -> (forall d, C d -> C' d) -> triple fs_of faulty C' m s Q.
Proof.
  intros Hm HC Hh. destruct (Hm Hh) as (new & ? & Hn & ? & ? & ?). exists new. split_and!; auto.
  eapply Forall_impl; [exact Hn|auto].
Qed.

(** A computation on a part of an object. *)
Lemma t_lift {S T A} (fs_of : T -> Fs) (part : S -> T) (set_part : T -> S -> S) (faulty : Prop)
    (C : Disk -> Prop) (m : M T A) s (Q : result A -> S -> Prop) :
  (forall t s, part (set_part t s) = t) ->
  triple fs_of faulty C m (part s) (fun r t' => Q r (set_part t' s)) ->
  triple (fun s => fs_of (part s)) faulty C (lift part set_part m) s Q.
Proof.
  intros Hset Hm Hh. destruct (Hm Hh) as (new & ? & ? & ? & ? & ?). exists new.
  unfold lift, healthy in *. destruct (m (part s)) as [t' r]. cbn in *. rewrite Hset. by split_and!.
Qed.

(** ** Calls *)

Section Calls.
Context (faulty : Prop) (C : Disk -> Prop).
Abbreviation triple := (triple id faulty C).

(** Computations that leave the disk alone and fail with [e] at most. *)
Definition calls {A} (m : M Fs A) (fs : Fs) (a : A) (e : exn) : Prop :=
  disk (fst (m fs)) = disk fs /\ past (fst (m fs)) = past fs /\
  (snd (m fs) = Ok a \/ snd (m fs) = Throw e /\ script fs <> []) /\
  (script fs = [] -> script (fst (m fs)) = []).

Lemma t_calls {A} (m : M Fs A) fs (a : A) e (Q : result A -> Fs -> Prop) :
  calls m fs a e -> C (disk fs) ->
  (forall fs', disk fs' = disk fs -> Q (Ok a) fs') ->
  (faulty -> forall fs', disk fs' = disk fs -> Q (Throw e) fs') -> triple m fs Q.
Proof.
  intros (Hd & Hp & Hr & Hs) HC H1 H2 Hh. exists []. cbn. rewrite Hd, Hp. split_and!; try done.
  - destruct Hh as [|Hh]; [by left|]. right. by apply Hs.
  - destruct Hr as [->|[-> Hne]]; [by apply H1|]. destruct Hh as [Hh|]; [|done]. by apply H2.
Qed.

Lemma calls_ret {A} (a : A) e fs : calls (ret a) fs a e.
Proof. unfold calls. cbn. naive_solver. Qed.

Lemma calls_bind {A B} (m : M Fs A) (k : A -> M Fs B) fs a b e :
  calls m fs a e -> (forall fs', disk fs' = disk fs -> calls (k a) fs' b e) -> calls (bind m k) fs b e.
Proof.
  intros (Hd & Hp & Hr & Hs) Hk. unfold calls, bind. destruct (m fs) as [fs' [a'|e']]; cbn [fst snd] in *.
  - destruct Hr as [[= ->]|[? _]]; [|done]. destruct (Hk fs' Hd) as (Hd' & Hp' & Hr' & Hs').
    split_and!; [congruence|congruence| |auto]. destruct Hr' as [->|[-> Hne]]; [by left|].
    right. split; [done|]. auto.
  - destruct Hr as [?|[[= ->] Hne]]; [done|]. split_and!; auto.
Qed.

Lemma calls_attempt_once e fs : calls (attempt_once e) fs tt e.
Proof.
  unfold calls, attempt_once, bind, ask. destruct (script fs) as [|[] rest] eqn:E; cbn; rewrite ?E;
    naive_solver.
Qed.

Lemma attempt_loop_nil : attempt_loop [] = ([], true).
Proof. done. Qed.

Lemma calls_attempt e fs : calls (attempt e) fs tt e.
Proof.
  unfold calls, attempt. destruct (attempt_loop (script fs)) as [rest done] eqn:E. cbn.
  split_and!; [done|done| |].
  - destruct done; [by left|]. right. split; [done|]. intros H. by rewrite H in E.
  - intros H. rewrite H in E. by injection E as <- _.
Qed.

Lemma calls_read_at e ino size offset fs :
  calls (read_at e ino size offset) fs (subspan offset size (content ino (disk fs))) e.
Proof.
  unfold calls, read_at. destruct (read_loop _ _ _) as [rest done] eqn:E. cbn. split_and!; [done|done| |].
  - destruct done; [by left|]. right. split; [done|]. intros H. rewrite H in E. by destruct size.
  - intros H. rewrite H in E. destruct size; by injection E as <- _.
Qed.

Lemma calls_bind_get {A} (f : Fs -> A) e fs :
  (forall fs', disk fs' = disk fs -> f fs' = f fs) ->
  calls (attempt_once e ;; let* fs := get in ret (f fs)) fs (f fs) e.
Proof.
  intros Hf. unfold calls, attempt_once, bind, ask, get. destruct (script fs) as [|[] rest] eqn:E; cbn;
    rewrite ?E, ?Hf by done; naive_solver.
Qed.

Lemma calls_file_size e ino fs : calls (file_size e ino) fs (length (content ino (disk fs))) e.
Proof. apply (calls_bind_get (fun fs => length (content ino (disk fs)))). by intros fs' ->. Qed.

Lemma calls_exists_name e name fs :
  calls (exists_name e name) fs (bool_decide (is_Some (names (disk fs) !! name))) e.
Proof. apply (calls_bind_get (fun fs => bool_decide (is_Some (names (disk fs) !! name)))). by intros fs' ->. Qed.

Lemma calls_open_file e name fs : calls (open_file e name) fs (names (disk fs) !! name) e.
Proof. apply (calls_bind_get (fun fs => names (disk fs) !! name)). by intros fs' ->. Qed.

Lemma t_effect f fs Q :
  C (disk fs) -> C (f (disk fs)) ->
  (forall fs', disk fs' = f (disk fs) -> Q (Ok tt) fs') -> triple (effect f) fs Q.
Proof.
  intros H0 HC HQ Hh. exists [disk fs]. split_and!; try done; [by constructor|]. by apply HQ.
Qed.

(** A call with an effect. *)
Lemma t_call_effect e f (m : M Fs unit) fs Q :
  calls m fs tt e -> C (disk fs) -> C (f (disk fs)) ->
  (forall fs', disk fs' = f (disk fs) -> Q (Ok tt) fs') ->
  (faulty -> forall fs', disk fs' = disk fs -> Q (Throw e) fs') ->
  triple (m ;; effect f) fs Q.
Proof.
  intros Hm H0 HC HQ He. apply t_bind. eapply t_calls; [exact Hm|done| |done].
  intros fs' E. rewrite <- E in *. by apply t_effect.
Qed.

Lemma t_sync_file e ino fs Q :
  C (disk fs) -> C (update_inode ino flush_bytes (disk fs)) ->
  (forall fs', disk fs' = update_inode ino flush_bytes (disk fs) -> Q (Ok tt) fs') ->
  (faulty -> forall fs', disk fs' = disk fs -> Q (Throw e) fs') -> triple (sync_file e ino) fs Q.
Proof. apply t_call_effect, calls_attempt. Qed.

Lemma t_truncate_to e ino size fs Q :
  C (disk fs) -> C (update_inode ino (truncate_bytes size) (disk fs)) ->
  (forall fs', disk fs' = update_inode ino (truncate_bytes size) (disk fs) -> Q (Ok tt) fs') ->
  (faulty -> forall fs', disk fs' = disk fs -> Q (Throw e) fs') -> triple (truncate_to e ino size) fs Q.
Proof. apply t_call_effect, calls_attempt. Qed.

Lemma t_remove_file e name fs Q :
  C (disk fs) -> C (set_names (delete name) (disk fs)) ->
  (forall fs', disk fs' = set_names (delete name) (disk fs) -> Q (Ok tt) fs') ->
  (faulty -> forall fs', disk fs' = disk fs -> Q (Throw e) fs') -> triple (remove_file e name) fs Q.
Proof. apply t_call_effect, calls_attempt_once. Qed.

Lemma t_sync_directory e fs Q :
  C (disk fs) -> C (flush_names (disk fs)) ->
  (forall fs', disk fs' = flush_names (disk fs) -> Q (Ok tt) fs') ->
  (faulty -> forall fs', disk fs' = disk fs -> Q (Throw e) fs') -> triple (sync_directory e) fs Q.
Proof.
  intros H0 HC HQ He. apply t_bind. eapply t_calls; [apply calls_attempt_once|done| |done].
  intros fs' E. rewrite <- E in *. apply (t_call_effect e); try done. apply calls_attempt.
Qed.

Lemma t_rename_file e source destination ino fs Q :
  names (disk fs) !! source = Some ino ->
  C (disk fs) -> C (set_names (rename_names source destination) (disk fs)) ->
  (forall fs', disk fs' = set_names (rename_names source destination) (disk fs) -> Q (Ok tt) fs') ->
  (faulty -> forall fs', disk fs' = disk fs -> Q (Throw e) fs') ->
  triple (rename_file e source destination) fs Q.
Proof.
  intros Hs H0 HC HQ He. apply t_bind. eapply t_calls; [apply calls_attempt|done| |done].
  intros fs' E. rewrite <- E in *. apply t_bind, t_get; [done|]. rewrite Hs. by apply t_effect.
Qed.

Lemma t_unlink_file name fs Q :
  C (disk fs) -> C (set_names (delete name) (disk fs)) ->
  (forall fs', disk fs' = set_names (delete name) (disk fs) -> Q (Ok tt) fs') ->
  (faulty -> forall fs', disk fs' = disk fs -> Q (Ok tt) fs') -> triple (unlink_file name) fs Q.
Proof.
  intros H0 HC HQ He Hh. unfold unlink_file, bind, ask.
  destruct (script fs) as [|a rest] eqn:E; [by apply t_effect|].
  destruct Hh as [Hf|Hh]; [|cbn in Hh; by rewrite Hh in E].
  destruct a; try (apply (t_effect _ (set_script rest fs) Q H0 HC HQ); by left).
  all: exists []; cbn; split_and!; try done; [by left|by apply He].
Qed.

Lemma t_write_all e ino data fs Q :
  C (disk fs) ->
  (forall w, w `prefix_of` data -> C (update_inode ino (append_bytes w) (disk fs))) ->
  (forall fs', disk fs' = update_inode ino (append_bytes data) (disk fs) -> Q (Ok tt) fs') ->
  (faulty -> forall w fs', w `prefix_of` data ->
     disk fs' = update_inode ino (append_bytes w) (disk fs) -> Q (Throw e) fs') ->
  triple (write_all e ino data) fs Q.
Proof.
  intros H0 HC HQ He Hh. unfold write_all. destruct (write_loop (script fs) data) as [[rest w] done] eqn:E.
  pose proof (write_loop_spec _ _ _ _ _ E) as [Hp Hd]. exists [disk fs]. cbn.
  assert (script fs = [] -> rest = [] /\ done = true) as Hs.
  { intros H. rewrite H in E. destruct data; by injection E as <- _ <-. }
  split_and!; try done; [by constructor|by apply HC| |].
  - destruct Hh as [|Hh]; [by left|]. right. by apply Hs.
  - destruct done; [apply HQ; cbn; by rewrite Hd|].
    destruct Hh as [Hh|Hh]; [by eapply He|]. destruct (Hs Hh); done.
Qed.

Lemma t_create_exclusive e name fs Q :
  C (disk fs) ->
  (names (disk fs) !! name = None -> C (add_file name (disk fs)) /\
     forall fs', disk fs' = add_file name (disk fs) -> Q (Ok (Some (fresh_ino (disk fs)))) fs') ->
  (is_Some (names (disk fs) !! name) -> forall fs', disk fs' = disk fs -> Q (Ok None) fs') ->
  (faulty -> forall fs', disk fs' = disk fs -> Q (Throw e) fs') ->
  triple (create_exclusive e name) fs Q.
Proof.
  intros H0 Hnew Hold He. apply t_bind. eapply t_calls; [apply calls_attempt_once|done| |done].
  intros fs' E. rewrite <- E in *. apply t_bind, t_get; [done|].
  destruct (names (disk fs') !! name) as [ino|] eqn:En.
  - apply t_ret; [done|]. by apply Hold.
  - destruct Hnew as [HC HQ]; [done|]. apply t_bind, t_effect; [done..|]. intros fs1 E1.
    apply t_ret; [by cbn; rewrite E1|]. by apply HQ.
Qed.

Lemma t_open_or_create e name fs Q :
  C (disk fs) ->
  (names (disk fs) !! name = None -> C (add_file name (disk fs)) /\
     forall fs', disk fs' = add_file name (disk fs) -> Q (Ok (fresh_ino (disk fs))) fs') ->
  (forall ino fs', names (disk fs) !! name = Some ino -> disk fs' = disk fs -> Q (Ok ino) fs') ->
  (faulty -> forall fs', disk fs' = disk fs -> Q (Throw e) fs') ->
  triple (open_or_create e name) fs Q.
Proof.
  intros H0 Hnew Hold He. apply t_bind. eapply t_calls; [apply calls_attempt_once|done| |done].
  intros fs' E. rewrite <- E in *. apply t_bind, t_get; [done|].
  destruct (names (disk fs') !! name) as [ino|] eqn:En.
  - apply t_ret; [done|]. by apply Hold.
  - destruct Hnew as [HC HQ]; [done|]. apply t_bind, t_effect; [done..|]. intros fs1 E1.
    apply t_ret; [by cbn; rewrite E1|]. by apply HQ.
Qed.

Lemma t_open_truncated e name fs Q :
  C (disk fs) ->
  (names (disk fs) !! name = None -> C (add_file name (disk fs)) /\
     forall fs', disk fs' = add_file name (disk fs) -> Q (Ok (fresh_ino (disk fs))) fs') ->
  (forall ino, names (disk fs) !! name = Some ino ->
     C (update_inode ino (truncate_bytes 0) (disk fs)) /\
     forall fs', disk fs' = update_inode ino (truncate_bytes 0) (disk fs) -> Q (Ok ino) fs') ->
  (faulty -> forall fs', disk fs' = disk fs -> Q (Throw e) fs') ->
  triple (open_truncated e name) fs Q.
Proof.
  intros H0 Hnew Hold He. apply t_bind. eapply t_calls; [apply calls_attempt_once|done| |done].
  intros fs' E. rewrite <- E in *. apply t_bind, t_get; [done|].
  destruct (names (disk fs') !! name) as [ino|] eqn:En; [destruct (Hold ino) as [HC HQ]|destruct Hnew as [HC HQ]];
    try done; (apply t_bind, t_effect; [done..|]; intros fs1 E1; apply t_ret; [by cbn; rewrite E1|by apply HQ]).
Qed.
End Calls.
