(* ===== verification/Directory.v ===== *)
(** * Directories and temporary files

    The durable stores replace a file by writing a temporary one, flushing it
    and renaming it over the old one.  The lemmas here say what such work leaves
    of a property of every directory that a crash may bring back. *)

From S2P Require Import Prelude Fs FsTriples.

(** The directories a crash may leave. *)
Definition dirs (d : Disk) : list (gmap string nat) := names d :: unsynced d.

Definition all_dirs (D : Disk -> gmap string nat -> Prop) (d : Disk) : Prop := Forall (D d) (dirs d).

(** No file has two names, and every name leads to a file. *)
Definition sane (d : Disk) (ns : gmap string nat) : Prop :=
  (forall n m i, ns !! n = Some i -> ns !! m = Some i -> n = m) /\
  (forall n i, ns !! n = Some i -> is_Some (inodes d !! i)).

(** The file [ino] is known as [tmp] in the current directory and has no other
    name in any directory. *)
Definition scratch (tmp : string) (ino : nat) (d : Disk) : Prop :=
  names d !! tmp = Some ino /\ is_Some (inodes d !! ino) /\
  Forall (fun ns => forall n, ns !! n = Some ino -> n = tmp) (dirs d).

(** A property of a directory that depends only on the files behind the names
    [core]. *)
Class Local (core : string -> Prop) (D : Disk -> gmap string nat -> Prop) : Prop := {
  local_sane : forall d ns, D d ns -> sane d ns;
  local_frame : forall d d' ns ns',
    D d ns -> sane d' ns' -> (forall n, core n -> ns' !! n = ns !! n) ->
    (forall n i, core n -> ns !! n = Some i -> inodes d' !! i = inodes d !! i) -> D d' ns'
}.

Lemma sane_frame d d' ns :
  sane d ns -> (forall i, is_Some (inodes d !! i) -> is_Some (inodes d' !! i)) -> sane d' ns.
Proof. intros [H1 H2] H. split; [done|]. eauto. Qed.

Lemma update_inode_some ino f d i :
  is_Some (inodes (update_inode ino f d) !! i) <-> is_Some (inodes d !! i).
Proof.
  cbn. destruct (decide (ino = i)) as [<-|]; [|by rewrite lookup_alter_ne].
  rewrite lookup_alter_eq. by rewrite fmap_is_Some.
Qed.

Lemma update_inode_ne ino f d i : i <> ino -> inodes (update_inode ino f d) !! i = inodes d !! i.
Proof. intros H. cbn. by apply lookup_alter_ne. Qed.

Lemma update_inode_eq ino f d x :
  inodes d !! ino = Some x -> inodes (update_inode ino f d) !! ino = Some (f x).
Proof. intros H. cbn. by rewrite lookup_alter_eq, H. Qed.

Section Local.
Context {core : string -> Prop} {D : Disk -> gmap string nat -> Prop} {HD : Local core D}.

Lemma fresh_ino_none d : inodes d !! fresh_ino d = None.
Proof. unfold fresh_ino. apply not_elem_of_dom, is_fresh. Qed.

Lemma fresh_unnamed d ns n : sane d ns -> ns !! n <> Some (fresh_ino d).
Proof.
  intros [_ H] E. apply H in E. rewrite fresh_ino_none in E. by destruct E.
Qed.

Lemma add_file_inodes name d i :
  i <> fresh_ino d -> inodes (add_file name d) !! i = inodes d !! i.
Proof. intros H. cbn. by rewrite lookup_insert_ne. Qed.

Lemma add_file_new name d :
  inodes (add_file name d) !! fresh_ino d = Some {| cached := []; stable := [] |}.
Proof. cbn. by rewrite lookup_insert_eq. Qed.

(** Creating a file that no property speaks of. *)
Lemma all_dirs_add_file name d :
  ~ core name -> names d !! name = None -> all_dirs D d ->
  all_dirs D (add_file name d) /\ scratch name (fresh_ino d) (add_file name d).
Proof.
  intros Hc Hn Hall. assert (Forall (sane d) (dirs d)) as Hsane
    by (eapply Forall_impl; [exact Hall|]; apply local_sane).
  assert (forall i, is_Some (inodes d !! i) -> is_Some (inodes (add_file name d) !! i)) as Hmono.
  { intros i Hi. rewrite add_file_inodes; [done|]. intros ->.
    rewrite fresh_ino_none in Hi. by destruct Hi. }
  assert (sane d (names d)) as Hs by (by apply Forall_cons in Hsane as [? _]).
  assert (forall ns, D d ns -> forall n i, core n -> ns !! n = Some i ->
    inodes (add_file name d) !! i = inodes d !! i) as Hsame.
  { intros ns Hns n i _ Hi. apply add_file_inodes. intros ->.
    exact (fresh_unnamed d ns n (local_sane _ _ Hns) Hi). }
  split.
  - constructor.
    + apply Forall_cons in Hall as [Hall _]. apply local_frame with d (names d); [done| | |by apply Hsame].
      * pose proof Hs as [H1 H2]. split.
        -- intros n m i. cbn. rewrite !lookup_insert_Some. intros [[<- <-]|[? Hn']] [[<- Em]|[? Hm']]; try done.
           ++ by destruct (fresh_unnamed d (names d) m Hs).
           ++ subst. by destruct (fresh_unnamed d (names d) n Hs).
           ++ by eapply H1.
        -- intros n i. cbn [add_file set_names names]. rewrite lookup_insert_Some.
           intros [[_ <-]|[_ Hi]]; [by rewrite add_file_new|]. by eapply Hmono, H2.
      * intros n Hcn. cbn. rewrite lookup_insert_ne; [done|]. by intros ->.
    + eapply Forall_impl; [exact Hall|]. intros ns Hns.
      apply local_frame with d ns; [done| |done|by apply Hsame].
      eapply sane_frame; [by apply local_sane|done].
  - split_and!.
    + cbn. by rewrite lookup_insert_eq.
    + by rewrite add_file_new.
    + constructor.
      * intros n. cbn. rewrite lookup_insert_Some. intros [[<- _]|[_ H]]; [done|].
        by destruct (fresh_unnamed d (names d) n Hs).
      * eapply Forall_impl; [exact Hsane|]. intros ns Hns n Hn'.
        by destruct (fresh_unnamed d ns n Hns).
Qed.

(** Work on a temporary file. *)
Lemma all_dirs_update tmp ino f d :
  ~ core tmp -> scratch tmp ino d -> all_dirs D d ->
  all_dirs D (update_inode ino f d) /\ scratch tmp ino (update_inode ino f d).
Proof.
  intros Hc (Hn & Hi & Hp) Hall. split.
  - unfold all_dirs, dirs in *. cbn [update_inode names unsynced].
    apply Forall_forall. intros ns Hin. rewrite Forall_forall in Hall, Hp.
    apply local_frame with d ns; [by apply Hall| |done|].
    + eapply sane_frame; [by apply local_sane, Hall|]. intros i. by rewrite update_inode_some.
    + intros n i Hcn Hni. apply update_inode_ne. intros ->. by rewrite (Hp ns Hin n Hni) in Hcn.
  - split_and!; [done| |done]. by rewrite update_inode_some.
Qed.

Lemma all_dirs_delete name d :
  ~ core name -> all_dirs D d -> all_dirs D (set_names (delete name) d).
Proof.
  intros Hc Hall. constructor.
  - apply Forall_cons in Hall as [Hall _]. apply local_frame with d (names d); [done| | |done].
    + apply local_sane in Hall as [H1 H2]. split; intros *; cbn; rewrite ?lookup_delete_Some; naive_solver.
    + intros n Hcn. cbn. rewrite lookup_delete_ne; [done|]. by intros ->.
  - eapply Forall_impl; [exact Hall|]. intros ns Hns. apply local_frame with d ns; [done| |done|done].
    exact (local_sane d ns Hns).
Qed.

Lemma all_dirs_flush d : all_dirs D d -> all_dirs D (flush_names d).
Proof.
  intros Hall. apply Forall_cons in Hall as [Hall _]. constructor; [|constructor].
  apply local_frame with d (names d); [done| |done|done]. exact (local_sane d (names d) Hall).
Qed.

Lemma all_dirs_rename tmp destination d :
  all_dirs D d -> D d (rename_names tmp destination (names d)) ->
  all_dirs D (set_names (rename_names tmp destination) d).
Proof.
  intros Hall Hnew. constructor.
  - apply local_frame with d (rename_names tmp destination (names d)); [done| |done|done].
    exact (local_sane (D := D) d _ Hnew).
  - eapply Forall_impl; [exact Hall|]. intros ns Hns. apply local_frame with d ns; [done| |done|done].
    exact (local_sane d ns Hns).
Qed.
End Local.

Lemma sane_rename tmp destination ino d :
  sane d (names d) -> names d !! tmp = Some ino -> sane d (rename_names tmp destination (names d)).
Proof.
  intros [H1 H2] Ht. unfold rename_names. rewrite Ht. split.
  - intros n m i. rewrite !lookup_insert_Some, !lookup_delete_Some. naive_solver.
  - intros n i. rewrite !lookup_insert_Some, !lookup_delete_Some. naive_solver.
Qed.

#[export] Instance sane_local : Local (fun _ => False) sane.
Proof. split; [done|]. by intros. Qed.
