(* ===== verification/WalRecord.v ===== *)
(** * Records of the write-ahead log

    [src/storage/wal_record.h] and [wal_record.cpp].  Strings are their bytes;
    [WalOperation] has a fixed underlying type and holds any byte. *)

From S2P Require Import Prelude Wire Checksum.

Module WalRecord.

Definition kWalMagic : Z := 1180123468.
Definition kWalVersion : Z := 1.
Definition kWalHeaderSize : nat := 36.
Definition kMaxKeySize : Z := 1024.
Definition kMaxValueSize : Z := 1048576.
Definition kMaxWalRecordSize : Z := Z.of_nat kWalHeaderSize + kMaxKeySize + kMaxValueSize.

Definition WalOperation : Set := byte.
Definition WalOperation_put : WalOperation := Byte.x01.
Definition WalOperation_delete_key : WalOperation := Byte.x02.

Record WalRecord : Set := {
  lsn : Z;
  operation : WalOperation;
  key : list byte;
  value : list byte
}.

#[export] Instance WalRecord_eq_dec : EqDecision WalRecord.
Proof. solve_decision. Defined.

Inductive DecodeStatus : Set :=
| complete
| incomplete
| corrupt.

Record DecodeResult : Set := {
  dr_status : DecodeStatus;
  dr_record : option WalRecord;
  dr_consumed : nat;
  dr_error : string
}.

Definition corrupt_result (error : string) : DecodeResult :=
  {| dr_status := corrupt; dr_record := None; dr_consumed := 0; dr_error := error |}.

Definition incomplete_result : DecodeResult :=
  {| dr_status := incomplete; dr_record := None; dr_consumed := 0; dr_error := EmptyString |}.

Definition record_checksum (bytes : list byte) : Z :=
  let checksum := Crc32_update Crc32_init (take 32 bytes) in
  let checksum := Crc32_update checksum (drop kWalHeaderSize bytes) in
  Crc32_value checksum.

Definition validation_error (record : WalRecord) : string :=
  if lsn record =? 0 then "LSN must be positive"
  else if (size_of (key record) =? 0) || (kMaxKeySize <? size_of (key record))
  then "key length is outside the supported range"
  else if kMaxValueSize <? size_of (value record) then "value exceeds the maximum size"
  else if negb (Byte.eqb (operation record) WalOperation_put) &&
          negb (Byte.eqb (operation record) WalOperation_delete_key)
  then "unknown WAL operation"
  else if Byte.eqb (operation record) WalOperation_delete_key &&
          negb (size_of (value record) =? 0)
  then "DELETE records cannot contain values"
  else EmptyString.

Definition encode_record (record : WalRecord) : result (list byte) :=
  if negb (String.eqb (validation_error record) EmptyString) then Throw invalid_argument
  else
    let record_size := (kWalHeaderSize + length (key record) + length (value record))%nat in
    if u32_max <? Z.of_nat record_size then Throw length_error
    else
      let bytes := zero_bytes record_size in
      let bytes := write_at 0 (write_u32 kWalMagic) bytes in
      let bytes := write_at 4 (write_u16 kWalVersion) bytes in
      let bytes := write_at 6 (write_u16 (u16 (Z.of_nat kWalHeaderSize))) bytes in
      let bytes := write_at 8 (write_u32 (u32 (Z.of_nat record_size))) bytes in
      let bytes := write_at 12 (write_u64 (lsn record)) bytes in
      let bytes := write_at 20 [operation record] bytes in
      let bytes := write_at 24 (write_u32 (u32 (size_of (key record)))) bytes in
      let bytes := write_at 28 (write_u32 (u32 (size_of (value record)))) bytes in
      let bytes := write_at kWalHeaderSize (key record) bytes in
      let bytes := write_at (kWalHeaderSize + length (key record)) (value record) bytes in
      Ok (write_at 32 (write_u32 (record_checksum bytes)) bytes).

Definition decode_record (bytes : list byte) : DecodeResult :=
  let record_size := read_u32 (subspan 8 4 bytes) in
  let key_size := read_u32 (subspan 24 4 bytes) in
  let value_size := read_u32 (subspan 28 4 bytes) in
  let op := byte_at bytes 20 in
  let lsn := read_u64 (subspan 12 8 bytes) in
  if size_of bytes <? Z.of_nat kWalHeaderSize then incomplete_result
  else if negb (read_u32 (subspan 0 4 bytes) =? kWalMagic)
  then corrupt_result "invalid WAL magic"
  else if negb (read_u16 (subspan 4 2 bytes) =? kWalVersion)
  then corrupt_result "unsupported WAL version"
  else if negb (read_u16 (subspan 6 2 bytes) =? Z.of_nat kWalHeaderSize)
  then corrupt_result "invalid WAL header length"
  else if negb (Byte.eqb (byte_at bytes 21) Byte.x00) ||
          negb (Byte.eqb (byte_at bytes 22) Byte.x00) ||
          negb (Byte.eqb (byte_at bytes 23) Byte.x00)
  then corrupt_result "reserved WAL fields are nonzero"
  else if (record_size <? Z.of_nat kWalHeaderSize) || (kMaxWalRecordSize <? record_size)
  then corrupt_result "invalid WAL record length"
  else if (key_size =? 0) || (kMaxKeySize <? key_size) || (kMaxValueSize <? value_size)
  then corrupt_result "invalid WAL payload lengths"
  else if negb (record_size =? Z.of_nat kWalHeaderSize + key_size + value_size)
  then corrupt_result "WAL record and payload lengths disagree"
  else if lsn =? 0 then corrupt_result "invalid zero LSN"
  else if negb (Byte.eqb op WalOperation_put) && negb (Byte.eqb op WalOperation_delete_key)
  then corrupt_result "unknown WAL operation"
  else if Byte.eqb op WalOperation_delete_key && negb (value_size =? 0)
  then corrupt_result "DELETE record contains a value"
  else if size_of bytes <? record_size then incomplete_result
  else
    let complete_bytes := take (Z.to_nat record_size) bytes in
    if negb (read_u32 (subspan 32 4 complete_bytes) =? record_checksum complete_bytes)
    then corrupt_result "WAL checksum mismatch"
    else
      let payload := drop kWalHeaderSize complete_bytes in
      {| dr_status := complete;
         dr_record := Some {| lsn := lsn; operation := op;
                              key := subspan 0 (Z.to_nat key_size) payload;
                              value := subspan (Z.to_nat key_size) (Z.to_nat value_size) payload |};
         dr_consumed := Z.to_nat record_size; dr_error := EmptyString |}.

(** ** The format *)

#[global] Arguments encode_record : simpl never.
#[global] Arguments decode_record : simpl never.

Definition valid_record (r : WalRecord) : Prop :=
  validation_error r = EmptyString /\ is_u64 (lsn r).

Definition record_size (r : WalRecord) : Z :=
  Z.of_nat kWalHeaderSize + size_of (key r) + size_of (value r).

Definition record_head (r : WalRecord) : list byte :=
  write_u32 kWalMagic ++ write_u16 kWalVersion ++ write_u16 (Z.of_nat kWalHeaderSize) ++
  write_u32 (record_size r) ++ write_u64 (lsn r) ++ [operation r] ++ zero_bytes 3 ++
  write_u32 (size_of (key r)) ++ write_u32 (size_of (value r)).

Definition record_bytes (r : WalRecord) : list byte :=
  record_head r ++ write_u32 (crc32 (record_head r ++ key r ++ value r)) ++ key r ++ value r.

#[global] Arguments record_head : simpl never.
#[global] Arguments record_bytes : simpl never.

(** The bounds a record that passes the validation keeps. *)
Lemma valid_record_bounds r :
  validation_error r = EmptyString ->
  lsn r <> 0 /\ 0 < size_of (key r) <= kMaxKeySize /\ 0 <= size_of (value r) <= kMaxValueSize /\
  (operation r = WalOperation_put \/ operation r = WalOperation_delete_key) /\
  (operation r = WalOperation_delete_key -> size_of (value r) = 0).
Proof.
  unfold validation_error. pose proof (size_of_nonneg (key r)). pose proof (size_of_nonneg (value r)).
  destruct (Z.eqb_spec (lsn r) 0); [done|].
  destruct (Z.eqb_spec (size_of (key r)) 0), (Z.ltb_spec kMaxKeySize (size_of (key r))); try done.
  destruct (Z.ltb_spec kMaxValueSize (size_of (value r))); [done|].
  destruct (Byte.eqb (operation r) WalOperation_put) eqn:Hp;
    destruct (Byte.eqb (operation r) WalOperation_delete_key) eqn:Hd; cbn [negb andb]; try done;
    destruct (Z.eqb_spec (size_of (value r)) 0) as [Hz|]; cbn [negb]; try done; intros _;
    try (apply Byte.byte_dec_bl in Hp); try (apply Byte.byte_dec_bl in Hd);
    split_and!; try lia; auto.
  all: intros E; rewrite E in Hd; done.
Qed.

Lemma record_fields_small r :
  validation_error r = EmptyString ->
  is_u32 (size_of (key r)) /\ is_u32 (size_of (value r)) /\ is_u32 (record_size r) /\
  record_size r <= kMaxWalRecordSize.
Proof.
  intros H. apply valid_record_bounds in H as (_ & Hk & Hv & _).
  unfold is_u32, record_size, kMaxWalRecordSize, kMaxKeySize, kMaxValueSize, kWalHeaderSize in *. lia.
Qed.

Lemma encode_record_bytes r :
  validation_error r = EmptyString -> encode_record r = Ok (record_bytes r).
Proof.
  intros Hv. destruct (record_fields_small r Hv) as (Hk & Hval & Hs & Hmax).
  unfold encode_record. rewrite Hv. cbn [String.eqb negb].
  assert (Z.of_nat (kWalHeaderSize + length (key r) + length (value r)) = record_size r) as ->
    by (unfold record_size, size_of; lia).
  rewrite (proj2 (Z.ltb_ge _ _)) by (unfold is_u32, u32_max in *; lia).
  rewrite !u32_small by done. rewrite (u16_small (Z.of_nat kWalHeaderSize)) by done.
  f_equal. unfold record_bytes, record_head.
  explode_u64 (lsn r). explode_u32 (record_size r). explode_u32 (size_of (key r)).
  explode_u32 (size_of (value r)). explode_u32 kWalMagic. explode_u16 kWalVersion.
  explode_u16 (Z.of_nat kWalHeaderSize).
  unfold zero_bytes, kWalHeaderSize. cbn [Nat.add replicate]. rewrite replicate_add.
  unfold write_at, record_checksum, kWalHeaderSize. cbn [take drop app length Nat.add].
  set (zs := replicate (length (value r)) _).
  rewrite (drop_app_length' (replicate _ _)) by by rewrite length_replicate.
  rewrite !take_0, !drop_0. cbn [app]. rewrite take_app_length, (drop_ge (key r ++ zs)), app_nil_r
    by (unfold zs; rewrite length_app, length_replicate; lia).
  rewrite length_write_u32. cbn [drop]. by do 32 f_equal.
Qed.

Lemma length_record_bytes r : Z.of_nat (length (record_bytes r)) = record_size r.
Proof.
  unfold record_bytes, record_size, size_of. rewrite !length_app, length_write_u32.
  change (length (record_head r)) with 32%nat. unfold kWalHeaderSize. lia.
Qed.

Lemma record_checksum_head r c payload :
  record_checksum (record_head r ++ write_u32 c ++ payload) = crc32 (record_head r ++ payload).
Proof.
  unfold record_checksum, crc32, kWalHeaderSize.
  rewrite take_app_length' by done. rewrite (assoc_L (++)), drop_app_length' by done.
  by rewrite <- Crc32_update_app by apply Crc32_init_range.
Qed.

(** Decoding a record header, with any checksum and whatever follows. *)
Lemma decode_record_head r c tail :
  valid_record r -> is_u32 c ->
  decode_record (record_head r ++ write_u32 c ++ tail) =
  if size_of tail <? size_of (key r) + size_of (value r) then incomplete_result
  else
    let payload := take (length (key r) + length (value r)) tail in
    if negb (c =? crc32 (record_head r ++ payload)) then corrupt_result "WAL checksum mismatch"
    else {| dr_status := complete;
            dr_record := Some {| lsn := lsn r; operation := operation r;
                                 key := take (length (key r)) payload;
                                 value := drop (length (key r)) payload |};
            dr_consumed := length (record_bytes r); dr_error := EmptyString |}.
Proof.
  intros [Hv Hl] Hc. destruct (valid_record_bounds r Hv) as (Hlsn & Hk & Hval & Hop & Hdel).
  destruct (record_fields_small r Hv) as (Uk & Uv & Us & Hmax).
  pose proof (length_record_bytes r) as Hlen.
  set (bytes := record_head r ++ write_u32 c ++ tail).
  assert (size_of bytes = 36 + size_of tail) as Hsize
    by (unfold bytes, size_of; rewrite !length_app, length_write_u32;
        change (length (record_head r)) with 32%nat; lia).
  pose proof (size_of_nonneg tail). pose proof (size_of_nonneg (value r)).
  assert (record_size r = 36 + size_of (key r) + size_of (value r)) as Hrs by done.
  unfold decode_record.
  replace (read_u32 (subspan 0 4 bytes)) with kWalMagic by reflexivity.
  replace (read_u16 (subspan 4 2 bytes)) with kWalVersion by reflexivity.
  replace (read_u16 (subspan 6 2 bytes)) with (Z.of_nat kWalHeaderSize) by reflexivity.
  change (subspan 8 4 bytes) with (write_u32 (record_size r) ++ []).
  change (subspan 12 8 bytes) with (write_u64 (lsn r) ++ []).
  change (subspan 24 4 bytes) with (write_u32 (size_of (key r)) ++ []).
  change (subspan 28 4 bytes) with (write_u32 (size_of (value r)) ++ []).
  change (byte_at bytes 20) with (operation r).
  change (byte_at bytes 21) with Byte.x00. change (byte_at bytes 22) with Byte.x00.
  change (byte_at bytes 23) with Byte.x00.
  rewrite !read_write_u32, read_write_u64 by done.
  rewrite !Z.eqb_refl, (proj2 (Z.ltb_ge (size_of bytes) _)) by (unfold kWalHeaderSize; lia).
  rewrite (proj2 (Z.ltb_ge (record_size r) _)), (proj2 (Z.ltb_ge _ (record_size r))),
    (proj2 (Z.eqb_neq (size_of (key r)) 0)), (proj2 (Z.ltb_ge _ (size_of (key r)))),
    (proj2 (Z.ltb_ge _ (size_of (value r)))), (proj2 (Z.eqb_neq (lsn r) 0))
    by (unfold kWalHeaderSize; lia).
  change (Byte.eqb Byte.x00 Byte.x00) with true. cbn [negb orb].
  replace (negb _ && negb _) with false by (destruct Hop as [-> | ->]; reflexivity).
  replace (Byte.eqb (operation r) WalOperation_delete_key && negb (size_of (value r) =? 0)) with false
    by (destruct Hop as [E|E]; rewrite E in *; [done|]; by rewrite (Hdel eq_refl)).
  rewrite Hsize.
  destruct (Z.ltb_spec (36 + size_of tail) (record_size r)), (Z.ltb_spec (size_of tail) (size_of (key r) + size_of (value r)));
    try lia; [done|].
  replace (Z.to_nat (record_size r)) with (36 + (length (key r) + length (value r)))%nat
    by (unfold size_of in *; lia).
  unfold bytes. rewrite (assoc_L (++)), take_app_add' by done.
  set (payload := take _ tail). rewrite <- (assoc_L (++)), record_checksum_head.
  change (subspan 32 4 _) with (write_u32 c ++ []). rewrite read_write_u32 by done. cbn zeta.
  destruct (c =? _); [|done]. cbn [negb].
  assert (length payload = (length (key r) + length (value r))%nat) as Hp
    by (unfold payload; rewrite length_take; unfold size_of in *; lia).
  f_equal; [|unfold size_of in *; lia]. rewrite (assoc_L (++)), drop_app_length' by done. unfold subspan, size_of.
  rewrite !Nat2Z.id, drop_0. do 2 f_equal. apply take_ge. rewrite length_drop. lia.
Qed.

(** A record decodes to itself, whatever follows it. *)
Lemma decode_record_bytes r rest :
  valid_record r ->
  decode_record (record_bytes r ++ rest) =
  {| dr_status := complete; dr_record := Some r; dr_consumed := length (record_bytes r);
     dr_error := EmptyString |}.
Proof.
  intros Hv. unfold record_bytes. rewrite <- !(assoc_L (++)).
  assert (is_u32 (crc32 (record_head r ++ key r ++ value r))) as Hc
    by (apply Crc32_value_range; eauto with forge).
  rewrite decode_record_head by done.
  rewrite (proj2 (Z.ltb_ge _ _)) by (rewrite !size_of_app; pose proof (size_of_nonneg rest); lia).
  rewrite (assoc_L (++) (key r)), (take_app_length' (key r ++ value r)) by by rewrite length_app.
  cbn zeta. rewrite Z.eqb_refl, take_app_length, drop_app_length. by destruct r.
Qed.

(** A record that is cut off is incomplete, never corrupt. *)
Lemma decode_record_torn r torn :
  valid_record r -> torn `prefix_of` record_bytes r -> torn <> record_bytes r ->
  dr_status (decode_record torn) = incomplete /\
  ((kWalHeaderSize <= length torn)%nat ->
     read_u32 (subspan 8 4 torn) = record_size r /\ (length torn < length (record_bytes r))%nat).
Proof.
  intros Hv Hp Hne. assert (length torn < length (record_bytes r))%nat as Hlt.
  { pose proof (prefix_length _ _ Hp). destruct (decide (length torn = length (record_bytes r))); [|lia].
    exfalso. apply Hne. by apply prefix_length_eq; [|lia]. }
  destruct (decide (length torn < kWalHeaderSize)%nat) as [Hs|Hs].
  { split; [|lia]. unfold decode_record. by rewrite (proj2 (Z.ltb_lt (size_of torn) _)) by (unfold size_of; lia). }
  destruct Hp as [rest E]. unfold record_bytes in E. rewrite (assoc_L (++)) in E.
  assert (is_u32 (crc32 (record_head r ++ key r ++ value r))) as Hc
    by (apply Crc32_value_range; eauto with forge).
  pose proof (length_record_bytes r) as Hlen. unfold record_size in Hlen.
  set (c := crc32 _) in *.
  assert (torn = (record_head r ++ write_u32 c) ++ drop 36 torn) as Ht.
  { rewrite <- (take_drop 36 torn) at 1. f_equal.
    apply (f_equal (take 36)) in E. rewrite take_app_length' in E by done.
    rewrite E, take_app_le; [done|unfold kWalHeaderSize in *; lia]. }
  rewrite <- (assoc_L (++)) in Ht. rewrite Ht. rewrite decode_record_head by done. split.
  - rewrite (proj2 (Z.ltb_lt _ _)); [done|]. unfold size_of in *. rewrite length_drop.
    unfold kWalHeaderSize in *. lia.
  - intros _. destruct (record_fields_small r (proj1 Hv)) as (_ & _ & Us & _).
    change (subspan 8 4 _) with (write_u32 (record_size r) ++ []).
    rewrite read_write_u32 by done. split; [done|]. by rewrite <- Ht.
Qed.

Lemma eqb_byte a b : Byte.eqb a b = true -> a = b.
Proof. apply Byte.byte_dec_bl. Qed.

(** A header that passes the checks is the header of some valid record. *)
Lemma decode_record_header bytes :
  (kWalHeaderSize <= length bytes)%nat -> dr_status (decode_record bytes) <> corrupt ->
  exists r c tail, valid_record r /\ is_u32 c /\ bytes = record_head r ++ write_u32 c ++ tail.
Proof.
  intros Hlen. unfold kWalHeaderSize in Hlen.
  assert (exists hd tail, bytes = hd ++ tail /\ length hd = 36%nat) as (hd & tail & -> & Hhd).
  { exists (take 36 bytes), (drop 36 bytes). rewrite take_drop, length_take. split; [done|lia]. }
  clear Hlen. do 37 (destruct hd as [|? hd]; try done). clear Hhd.
  unfold decode_record. rewrite (proj2 (Z.ltb_ge _ _)) by (unfold size_of, kWalHeaderSize; cbn [app length]; lia).
  unfold subspan, byte_at. cbn [take drop app nth].
  set (ks := read_u32 [b23; b24; b25; b26]). set (vs := read_u32 [b27; b28; b29; b30]).
  assert (0 <= ks /\ 0 <= vs) as [Hk0 Hv0] by (split; by apply read_u32_range).
  set (l := read_u64 _). assert (is_u64 l) as Hl by by apply read_u64_range.
  repeat (case_match; [by intros []|]); intros _.
  repeat match goal with H : _ || _ = false |- _ => apply orb_false_iff in H as [? ?] end.
  repeat match goal with H : negb _ = false |- _ => apply negb_false_iff in H end.
  repeat match goal with H : Byte.eqb _ Byte.x00 = true |- _ => apply eqb_byte in H end.
  repeat match goal with H : (_ =? _) = true |- _ => apply Z.eqb_eq in H end. subst.
  exists {| lsn := l; operation := b19; key := zero_bytes (Z.to_nat ks); value := zero_bytes (Z.to_nat vs) |},
    (read_u32 [b31; b32; b33; b34]), tail.
  assert (forall z, 0 <= z -> size_of (zero_bytes (Z.to_nat z)) = z) as Hz
    by (intros z Hz; unfold size_of, zero_bytes; rewrite length_replicate; lia).
  split_and!; [|by apply read_u32_range|].
  - split; [|done]. unfold validation_error. cbn [lsn key value operation]. rewrite !Hz by done.
    repeat match goal with H : _ = false |- _ => rewrite H end. done.
  - unfold record_head, record_size. cbn [lsn key value operation]. rewrite !Hz by done.
    repeat match goal with H : read_u32 ?x = ?z |- context [?z] => rewrite <- H end.
    repeat match goal with H : read_u16 ?x = ?z |- context [?z] => rewrite <- H end.
    unfold ks, vs, l. by rewrite !write_read_u32, !write_read_u16, write_read_u64 by done.
Qed.

(** Only the bytes of a valid record decode to one. *)
Lemma decode_record_sound bytes r :
  dr_record (decode_record bytes) = Some r ->
  valid_record r /\ record_bytes r `prefix_of` bytes /\
  dr_consumed (decode_record bytes) = length (record_bytes r).
Proof.
  intros Hd. destruct (decide (length bytes < kWalHeaderSize)%nat) as [Hs|Hlen].
  { unfold decode_record in Hd. rewrite (proj2 (Z.ltb_lt _ _)) in Hd by (unfold size_of; lia). done. }
  destruct (decode_record_header bytes) as (r0 & c & tail & Hv & Hc & ->); [lia| |].
  { intros E. unfold decode_record in E, Hd. repeat (case_match; try done). }
  rewrite decode_record_head in Hd |- * by done.
  destruct (Z.ltb_spec (size_of tail) (size_of (key r0) + size_of (value r0))) as [|Ht]; [done|].
  cbn zeta in *. set (payload := take _ tail) in *.
  destruct (Z.eqb_spec c (crc32 (record_head r0 ++ payload))) as [->|]; [|done]. cbn [negb] in *.
  injection Hd as <-. cbn [dr_consumed]. set (r := Build_WalRecord _ _ _ _).
  assert (length payload = (length (key r0) + length (value r0))%nat) as Hp
    by (unfold payload; rewrite length_take; unfold size_of in *; lia).
  assert (size_of (key r) = size_of (key r0)) as Hk
    by (unfold size_of, r; cbn [key]; rewrite length_take; lia).
  assert (size_of (value r) = size_of (value r0)) as Hw
    by (unfold size_of, r; cbn [value]; rewrite length_drop; lia).
  assert (record_head r = record_head r0) as Hh
    by (unfold record_head, record_size; by rewrite Hk, Hw).
  split_and!.
  - destruct Hv as [Hv Hl]. split; [|done]. unfold validation_error in *. by rewrite Hk, Hw.
  - unfold record_bytes. rewrite Hh. unfold r. cbn [key value]. rewrite !take_drop.
    do 2 apply prefix_app. exists (drop (length (key r0) + length (value r0)) tail).
    unfold payload. by rewrite take_drop.
  - apply Nat2Z.inj. rewrite !length_record_bytes. unfold record_size. by rewrite Hk, Hw.
Qed.
End WalRecord.
