(* ===== verification/Wal.v ===== *)
(** * The write-ahead log

    [src/storage/wal.cpp]: opening, appending, flushing and recovery.  The
    file system is the one of [Fs.v]; [descriptor_] holds the file behind the
    descriptor, [None] standing for -1. *)

From S2P Require Import Prelude Wire Checksum Fs WalRecord.
Import WalRecord.

Module Wal.

Record Wal : Set := {
  descriptor_ : option nat;
  path_ : string;
  last_lsn_ : Z;
  durable_lsn_ : Z;
  fs_ : Fs
}.

Definition io : exn := storage_error storage_io.
Definition corruption : exn := storage_error storage_corruption.

Definition set_fs (fs : Fs) (w : Wal) : Wal :=
  {| descriptor_ := descriptor_ w; path_ := path_ w; last_lsn_ := last_lsn_ w;
     durable_lsn_ := durable_lsn_ w; fs_ := fs |}.

Definition set_lsns (last durable : Z) (w : Wal) : Wal :=
  {| descriptor_ := descriptor_ w; path_ := path_ w; last_lsn_ := last;
     durable_lsn_ := durable; fs_ := fs_ w |}.

Definition set_descriptor (d : option nat) (w : Wal) : Wal :=
  {| descriptor_ := d; path_ := path_ w; last_lsn_ := last_lsn_ w;
     durable_lsn_ := durable_lsn_ w; fs_ := fs_ w |}.

(** A computation on the file system, inside one on the log. *)
Definition sys {A} (m : M Fs A) : M Wal A := fun w =>
  let (fs', r) := m (fs_ w) in (set_fs fs' w, r).

Definition truncate_tail (ino : nat) (size : nat) : M Fs unit :=
  if off_t_max <? Z.of_nat size then throw io else truncate_to io ino size.

Definition append (record : WalRecord) : M Wal unit :=
  let* w := get in
  match descriptor_ w with
  | None => throw (storage_error storage_closed)
  | Some ino =>
      if negb (lsn record =? u64 (last_lsn_ w + 1))
      then throw (storage_error storage_invalid_lsn)
      else
        match encode_record record with
        | Throw e => throw e
        | Ok encoded =>
            sys (write_all io ino encoded) ;;
            modify (fun w => set_lsns (lsn record) (durable_lsn_ w) w)
        end
  end.

Definition sync : M Wal unit :=
  let* w := get in
  match descriptor_ w with
  | None => throw (storage_error storage_closed)
  | Some ino =>
      sys (sync_file io ino) ;;
      modify (fun w => set_lsns (last_lsn_ w) (last_lsn_ w) w)
  end.

(** The loop of [recover]: the last sequence number and the records handed to
    the callback, in their order.  An iteration that goes on takes at least a
    header, so the file size is enough fuel ([recover_loop_safe]). *)
Fixpoint recover_loop (fuel : nat) (ino file_size offset : nat) (recovered_lsn : Z)
    (seen : list WalRecord) : M Fs (Z * list WalRecord) :=
  if negb (Nat.ltb offset file_size) then ret (recovered_lsn, seen)
  else
    match fuel with
    | O => throw logic_error
    | S fuel' =>
        let remaining := (file_size - offset)%nat in
        let stop := truncate_tail ino offset ;; ret (recovered_lsn, seen) in
        if Nat.ltb remaining kWalHeaderSize then stop
        else
          let* header := read_at io ino kWalHeaderSize offset in
          if negb (Nat.eqb (length header) kWalHeaderSize) then stop
          else
            match dr_status (decode_record header) with
            | corrupt => throw corruption
            | _ =>
                let size := read_u32 (subspan 8 4 header) in
                if (size <? Z.of_nat kWalHeaderSize) || (kMaxWalRecordSize <? size)
                then throw corruption
                else if Nat.ltb remaining (Z.to_nat size) then stop
                else
                  let* bytes := read_at io ino (Z.to_nat size) offset in
                  if negb (Nat.eqb (length bytes) (Z.to_nat size)) then stop
                  else
                    let decoded := decode_record bytes in
                    match dr_status decoded, dr_record decoded with
                    | complete, Some record =>
                        if negb (lsn record =? u64 (recovered_lsn + 1)) then throw corruption
                        else recover_loop fuel' ino file_size (offset + dr_consumed decoded)
                               (lsn record) (seen ++ [record])
                    | _, _ => throw corruption
                    end
            end
    end.

(** [recover]: returns the records it handed to the callback. *)
Definition recover : M Wal (list WalRecord) :=
  let* w := get in
  match descriptor_ w with
  | None => throw (storage_error storage_closed)
  | Some ino =>
      let* size := sys (file_size io ino) in
      let* found := sys (recover_loop size ino size 0 0 []) in
      sys (attempt_once io) ;;
      modify (set_lsns (fst found) (fst found)) ;;
      ret (snd found)
  end.

Definition close : M Wal unit := modify (set_descriptor None).

(** [open]: the log, or the exception after closing the file. *)
Definition open (path : string) (fs : Fs) : Wal * result unit :=
  match open_or_create io path fs with
  | (fs', Throw e) =>
      ({| descriptor_ := None; path_ := path; last_lsn_ := 0; durable_lsn_ := 0; fs_ := fs' |}, Throw e)
  | (fs', Ok ino) =>
      let w := {| descriptor_ := Some ino; path_ := path; last_lsn_ := 0; durable_lsn_ := 0;
                  fs_ := fs' |} in
      match recover w with
      | (w', Ok _) => (w', Ok tt)
      | (w', Throw e) => (fst (close w'), Throw e)
      end
  end.

Definition last_lsn (w : Wal) : Z := last_lsn_ w.
Definition durable_lsn (w : Wal) : Z := durable_lsn_ w.

(** ** Log images *)

(** Gap-free records after sequence number [n]. *)
Fixpoint chain (n : Z) (recs : list WalRecord) : Prop :=
  match recs with
  | [] => True
  | r :: recs' => valid_record r /\ lsn r = n + 1 /\ chain (n + 1) recs'
  end.

Definition log_bytes (recs : list WalRecord) : list byte := concat (map record_bytes recs).

(** The beginning of the record after sequence number [n], cut off. *)
Definition torn (n : Z) (t : list byte) : Prop :=
  t = [] \/ exists r, valid_record r /\ lsn r = n + 1 /\ t `prefix_of` record_bytes r /\ t <> record_bytes r.

(** The contents of a log of the records [recs], with an unfinished append. *)
Definition image (recs : list WalRecord) (c : list byte) : Prop :=
  chain 0 recs /\ exists t, torn (size_of recs) t /\ c = log_bytes recs ++ t.

Lemma chain_app n a b : chain n (a ++ b) <-> chain n a /\ chain (n + size_of a) b.
Proof.
  revert n. induction a as [|r a IH]; intros n; cbn [chain app].
  - unfold size_of. cbn. rewrite Z.add_0_r. tauto.
  - rewrite IH. replace (n + size_of (r :: a)) with (n + 1 + size_of a)
      by (unfold size_of; cbn [length]; lia). tauto.
Qed.

Lemma chain_lookup n recs i r : chain n recs -> recs !! i = Some r -> lsn r = n + 1 + Z.of_nat i.
Proof.
  revert n i. induction recs as [|r0 recs IH]; intros n [|i]; cbn; try done.
  - intros (_ & E & _) [= <-]. lia.
  - intros (_ & _ & Hch) H. rewrite (IH (n + 1) i Hch H). lia.
Qed.

Lemma log_bytes_app a b : log_bytes (a ++ b) = log_bytes a ++ log_bytes b.
Proof. unfold log_bytes. by rewrite map_app, concat_app. Qed.

Lemma log_bytes_cons r recs : log_bytes (r :: recs) = record_bytes r ++ log_bytes recs.
Proof. done. Qed.

Lemma record_bytes_positive r : (36 <= length (record_bytes r))%nat.
Proof.
  pose proof (length_record_bytes r). unfold record_size, kWalHeaderSize, size_of in *. lia.
Qed.

Section Recover.
Context (ino : nat) (d : Disk) (C : Disk -> Prop).
Let c := content ino d.
Hypothesis size_fits : Z.of_nat (length c) <= off_t_max.

(** A log image is recovered: its records, and the contents without the
    unfinished append. *)
Lemma stop_safe (A : Type) (v : A) offset fs (Q : result A -> Disk -> Prop) :
  disk fs = d -> (offset <= length c)%nat -> C d ->
  C (update_inode ino (truncate_bytes offset) d) ->
  Q (Throw io) d -> Q (Ok v) (update_inode ino (truncate_bytes offset) d) ->
  crash_safe C (truncate_tail ino offset ;; ret v) fs Q.
Proof.
  intros Hd Hle HC HC' H1 H2. apply cs_bind. unfold truncate_tail.
  rewrite (proj2 (Z.ltb_ge _ _)) by lia.
  apply cs_truncate_to; rewrite Hd; try done.
  intros fs' E. apply crash_safe_ret; by rewrite E.
Qed.

Lemma read_offset e size offset fs (Q : result (list byte) -> Disk -> Prop) :
  disk fs = d -> C d -> Q (Ok (take size (drop offset c))) d -> Q (Throw e) d ->
  crash_safe C (read_at e ino size offset) fs Q.
Proof. intros Hd HC H1 H2. apply cs_read_at; rewrite Hd; done. Qed.

(** The header of a record, whole or cut off after it, passes the checks. *)
Lemma header_of r x :
  valid_record r -> take kWalHeaderSize x `prefix_of` record_bytes r ->
  (kWalHeaderSize <= length x)%nat ->
  length (take kWalHeaderSize x) = kWalHeaderSize /\
  dr_status (decode_record (take kWalHeaderSize x)) = incomplete /\
  read_u32 (subspan 8 4 (take kWalHeaderSize x)) = record_size r /\
  Z.of_nat kWalHeaderSize <= record_size r <= kMaxWalRecordSize /\
  Z.to_nat (record_size r) = length (record_bytes r).
Proof.
  intros Hv Hp Hx. destruct (valid_record_bounds r (proj1 Hv)) as (_ & Hk & Hval & _).
  destruct (record_fields_small r (proj1 Hv)) as (_ & _ & _ & Hmax).
  pose proof (length_record_bytes r) as Hlen.
  assert (length (take kWalHeaderSize x) = kWalHeaderSize) as Hl by (rewrite length_take; lia).
  assert (take kWalHeaderSize x <> record_bytes r) as Hne.
  { intros E. rewrite E in Hl. unfold record_size, kWalHeaderSize in *. lia. }
  destruct (decode_record_torn r _ Hv Hp Hne) as [Hs Hr]. destruct Hr as [Hr _]; [lia|].
  unfold record_size in *. split_and!; try done; lia.
Qed.

Lemma recover_torn fuel offset n seen t fs (Q : result (Z * list WalRecord) -> Disk -> Prop) :
  let d' := update_inode ino (truncate_bytes offset) d in
  disk fs = d -> drop offset c = t -> (offset <= length c)%nat -> torn n t ->
  (length t <= fuel)%nat -> C d -> C d' -> Q (Throw io) d -> Q (Ok (n, seen)) d' ->
  crash_safe C (recover_loop fuel ino (length c) offset n seen) fs Q.
Proof.
  intros d' Hd Ht Ho Htorn Hf HC HC' He Hq.
  assert (length t = (length c - offset)%nat) as Hlen by (rewrite <- Ht; apply length_drop).
  destruct fuel as [|fuel]; cbn [recover_loop];
    destruct (Nat.ltb_spec offset (length c)) as [Hlt|Hge]; cbn [negb]; try lia.
  1,3: assert (d' = d) as E by (unfold d'; replace offset with (length c) by lia; apply truncate_all);
    rewrite E in *; apply crash_safe_ret; by rewrite Hd.
  destruct Htorn as [->|(r & Hv & _ & Hp & Hne)]; [cbn in Hlen; lia|].
  destruct (Nat.ltb_spec (length c - offset) kWalHeaderSize) as [|Hhd]; [by apply stop_safe|].
  apply cs_bind, read_offset; [done|done| |done]. intros fs1 Hd1. rewrite Ht.
  destruct (header_of r t Hv) as (Hl & Hs & Hr & Hrange & Hnat);
    [trans t; [apply prefix_take|done]|lia|].
  rewrite Hl, Nat.eqb_refl, Hs, Hr. cbn [negb].
  rewrite (proj2 (Z.ltb_ge (record_size r) _)), (proj2 (Z.ltb_ge _ (record_size r))) by lia.
  cbn [orb]. rewrite Hnat.
  pose proof (prefix_length _ _ Hp).
  assert (length t <> length (record_bytes r)) by (intros E; apply Hne; by apply prefix_length_eq; [|lia]).
  rewrite (proj2 (Nat.ltb_lt _ _)) by lia. by apply stop_safe.
Qed.

Lemma recover_loop_safe recs fuel offset n seen t fs (Q : result (Z * list WalRecord) -> Disk -> Prop) :
  let d' := update_inode ino (truncate_bytes (offset + length (log_bytes recs))) d in
  disk fs = d -> drop offset c = log_bytes recs ++ t -> (offset <= length c)%nat ->
  chain n recs -> torn (n + size_of recs) t -> 0 <= n ->
  (length (log_bytes recs ++ t) <= fuel)%nat ->
  C d -> C d' -> Q (Throw io) d -> Q (Ok (n + size_of recs, seen ++ recs)) d' ->
  crash_safe C (recover_loop fuel ino (length c) offset n seen) fs Q.
Proof.
  revert fuel offset n seen fs. induction recs as [|r recs IH];
    intros fuel offset n seen fs d' Hd Hc Ho Hchain Ht Hn Hf HC HC' He Hq.
  { unfold d', size_of in *. cbn [log_bytes concat map length app] in *.
    rewrite ?Nat.add_0_r, ?Z.add_0_r, ?app_nil_r in *. by apply recover_torn with t. }
  destruct Hchain as (Hv & Hlsn & Hchain). rewrite log_bytes_cons, <- (assoc_L (++)) in Hc.
  pose proof (record_bytes_positive r) as Hpos.
  assert (length (drop offset c) = (length c - offset)%nat) as Hlen by apply length_drop.
  rewrite Hc, length_app in Hlen. rewrite log_bytes_cons, !length_app in Hf.
  rewrite length_app in Hlen.
  destruct fuel as [|fuel]; [lia|]. cbn [recover_loop].
  rewrite (proj2 (Nat.ltb_lt offset _)), (proj2 (Nat.ltb_ge _ kWalHeaderSize)) by (unfold kWalHeaderSize; lia).
  cbn [negb]. apply cs_bind, read_offset; [done|done| |done]. intros fs1 Hd1. rewrite Hc.
  destruct (header_of r (record_bytes r ++ log_bytes recs ++ t) Hv) as (Hl & Hs & Hr & Hrange & Hnat).
  { rewrite take_app_le by (unfold kWalHeaderSize; lia). apply prefix_take. }
  { rewrite length_app. unfold kWalHeaderSize. lia. }
  rewrite Hl, Nat.eqb_refl, Hs, Hr. cbn [negb].
  rewrite (proj2 (Z.ltb_ge (record_size r) _)), (proj2 (Z.ltb_ge _ (record_size r))) by lia.
  cbn [orb]. rewrite Hnat, (proj2 (Nat.ltb_ge _ _)) by lia.
  apply cs_bind, read_offset; [done|done| |done]. intros fs2 Hd2. rewrite Hc, take_app_length, Nat.eqb_refl.
  pose proof (decode_record_bytes r [] Hv) as Hdec. rewrite app_nil_r in Hdec. rewrite Hdec.
  cbn [negb dr_status dr_record dr_consumed].
  rewrite (u64_small (n + 1)), Hlsn, Z.eqb_refl by (rewrite <- Hlsn; apply Hv). cbn [negb].
  assert (n + size_of (r :: recs) = n + 1 + size_of recs) as Hsz by (unfold size_of; cbn [length]; lia).
  rewrite Hsz in *. unfold d' in *. rewrite log_bytes_cons, length_app, Nat.add_assoc in *.
  apply IH; try done; try lia.
  - by rewrite <- drop_drop, Hc, drop_app_length.
  - by rewrite <- (assoc_L (++)).
Qed.
End Recover.

(** ** The state of a log *)

(** The name of the log is on the disk and leads to the file [ino]: no crash
    loses it. *)
Definition published (name : string) (ino : nat) (d : Disk) : Prop :=
  names d !! name = Some ino /\ Forall (fun ns => ns !! name = Some ino) (unsynced d).

(** The file [f] holds a log of [a], of which the records [b] are flushed. *)
Definition log_file (a b : list WalRecord) (f : Inode) : Prop :=
  b `prefix_of` a /\ image a (cached f) /\ image b (stable f).

(** The log [name] holds at least the records [lo], flushed, and at most [hi]. *)
Definition log_between (name : string) (lo hi : list WalRecord) (d : Disk) : Prop :=
  exists ino f a b, published name ino d /\ inodes d !! ino = Some f /\
    log_file a b f /\ lo `prefix_of` b /\ a `prefix_of` hi.

Lemma chain_prefix n a b : a `prefix_of` b -> chain n b -> chain n a.
Proof. intros [c ->] H. by apply chain_app in H as [H _]. Qed.

Lemma size_of_prefix {A} (a b : list A) : a `prefix_of` b -> size_of a <= size_of b.
Proof. intros H. apply prefix_length in H. unfold size_of. lia. Qed.

Lemma prefix_app_shorter {A} (c a b : list A) :
  c `prefix_of` a ++ b -> (length c <= length a)%nat -> c `prefix_of` a.
Proof.
  intros [k E] Hl. exists (drop (length c) a).
  apply (f_equal (take (length a))) in E. rewrite take_app_length in E.
  rewrite E, take_app_ge by done. f_equal. rewrite drop_app_ge by done.
  rewrite Nat.sub_diag, drop_0. done.
Qed.

Lemma prefix_app_longer {A} (c a b : list A) :
  c `prefix_of` a ++ b -> (length a <= length c)%nat -> exists c', c = a ++ c' /\ c' `prefix_of` b.
Proof.
  intros [k E] Hl. exists (drop (length a) c). split.
  - rewrite <- (take_drop (length a) c) at 1. f_equal.
    apply (f_equal (take (length a))) in E. rewrite take_app_length, take_app_le in E by done. done.
  - exists k. apply (f_equal (drop (length a))) in E. rewrite drop_app_length, drop_app_le in E by done. done.
Qed.

(** What is cut off a log leaves a log of fewer records. *)
Lemma image_cut n recs t c :
  chain n recs -> torn (n + size_of recs) t -> c `prefix_of` log_bytes recs ++ t ->
  exists recs1 t1, recs1 `prefix_of` recs /\ torn (n + size_of recs1) t1 /\ c = log_bytes recs1 ++ t1.
Proof.
  revert n c. induction recs as [|r recs IH]; intros n c Hchain Ht Hc.
  - exists [], c. split_and!; [done| |done]. cbn [log_bytes map concat app] in Hc.
    destruct Ht as [->|(r & Hv & Hl & Hp & Hne)]; [left; by apply prefix_nil_inv|].
    right. exists r. split_and!; try done; [by trans t|]. intros ->.
    apply Hne. apply (anti_symm prefix); done.
  - destruct Hchain as (Hv & Hl & Hchain). rewrite log_bytes_cons, <- (assoc_L (++)) in Hc.
    destruct (decide (length c < length (record_bytes r))%nat) as [Hs|Hs].
    + exists [], c. split_and!; [apply prefix_nil| |done]. right. exists r. split_and!; try done.
      * unfold size_of. cbn. lia.
      * apply (prefix_app_shorter c _ (log_bytes recs ++ t)); [done|lia].
      * intros ->. lia.
    + destruct (prefix_app_longer c (record_bytes r) (log_bytes recs ++ t) Hc) as (c' & -> & Hc'); [lia|].
      destruct (IH (n + 1) c' Hchain) as (recs1 & t1 & Hp1 & Ht1 & ->); [|done|].
      { replace (n + 1 + size_of recs) with (n + size_of (r :: recs)); [done|].
        unfold size_of. cbn [length]. lia. }
      exists (r :: recs1), t1. split_and!; [by apply prefix_cons| |by rewrite log_bytes_cons, (assoc_L (++))].
      replace (n + size_of (r :: recs1)) with (n + 1 + size_of recs1); [done|].
      unfold size_of. cbn [length]. lia.
Qed.

Lemma image_cut_above lo recs c c' :
  image recs c' -> lo `prefix_of` recs -> log_bytes lo `prefix_of` c -> c `prefix_of` c' ->
  exists recs1, lo `prefix_of` recs1 /\ recs1 `prefix_of` recs /\ image recs1 c.
Proof.
  intros (Hchain & t & Ht & ->) [more ->] [c1 ->] Hc.
  rewrite log_bytes_app, <- (assoc_L (++)) in Hc. apply prefix_app_inv in Hc.
  pose proof Hchain as Hall. apply chain_app in Hchain as [Hlo Hmore].
  destruct (image_cut (0 + size_of lo) more t c1) as (more1 & t1 & Hp & Ht1 & ->); [done| |done|].
  { rewrite size_of_app in Ht. by rewrite Z.add_0_l. }
  exists (lo ++ more1). split_and!; [by apply prefix_app_r|by apply prefix_app|].
  split; [eapply chain_prefix; [by apply prefix_app|done]|].
  exists t1. rewrite log_bytes_app, size_of_app, <- (assoc_L (++)). by rewrite Z.add_0_l in Ht1.
Qed.

Lemma log_bytes_prefix lo recs c : image recs c -> lo `prefix_of` recs -> log_bytes lo `prefix_of` c.
Proof.
  intros (_ & t & _ & ->) [more ->]. rewrite log_bytes_app, <- (assoc_L (++)). by apply prefix_app_r.
Qed.

(** A crash keeps the flushed records, and what else it keeps is a log. *)
Lemma crash_log name lo hi d d' :
  log_between name lo hi d -> crash d d' ->
  exists ino f recs, published name ino d' /\ inodes d' !! ino = Some f /\ cached f = stable f /\
    image recs (stable f) /\ lo `prefix_of` recs /\ recs `prefix_of` hi.
Proof.
  intros (ino & f & a & b & [Hn Hu] & Hf & (Hba & Ia & Ib) & Hlo & Hhi) (Hnames & Hus & Hin & Hex).
  assert (names d' !! name = Some ino) as Hn'.
  { destruct Hnames as [->|Hin']; [done|]. rewrite Forall_forall in Hu. by apply Hu. }
  destruct (Hex ino f Hf) as [f' Hf']. destruct (Hin ino f' Hf') as (Hcs & f0 & Hf0 & Hsurv).
  rewrite Hf in Hf0. injection Hf0 as <-.
  assert (log_bytes lo `prefix_of` stable f') as Hp.
  { eapply survives_prefix; [exact Hsurv|by eapply log_bytes_prefix|].
    eapply log_bytes_prefix; [exact Ia|]. by trans b. }
  assert (exists recs, lo `prefix_of` recs /\ recs `prefix_of` a /\ image recs (stable f')) as (recs & H1 & H2 & H3).
  { destruct Hsurv as [_ [Hc|Hc]].
    - eapply image_cut_above; [exact Ia|by trans b|done|done].
    - destruct (image_cut_above lo b (stable f') (stable f)) as (recs & ? & ? & ?); try done.
      exists recs. split_and!; try done. by trans b. }
  exists ino, f', recs. split_and!; try done; [|by trans a]. split; [done|]. by rewrite Hus.
Qed.

Lemma so_sys {A} C (m : M Fs A) w (Q : result A -> Wal -> Prop) :
  crash_safe C m (fs_ w) (fun r d => forall fs', disk fs' = d -> Q r (set_fs fs' w)) ->
  safe_on fs_ C (sys m) w Q.
Proof.
  intros (new & Hp & Hn & HC & HQ). unfold safe_on, sys. destruct (m (fs_ w)) as [fs' r].
  exists new. cbn. split_and!; try done. by apply HQ.
Qed.

Lemma content_inode ino f d : inodes d !! ino = Some f -> content ino d = cached f.
Proof. intros H. unfold content. by rewrite H. Qed.

(** [recover] on a log of [recs]. *)
Lemma recover_safe C w ino f recs :
  let d := disk (fs_ w) in
  let d' := update_inode ino (truncate_bytes (length (log_bytes recs))) d in
  descriptor_ w = Some ino -> inodes d !! ino = Some f -> image recs (cached f) ->
  size_of (cached f) <= off_t_max -> C d -> C d' ->
  safe_on fs_ C recover w (fun r w' =>
    path_ w' = path_ w /\ descriptor_ w' = Some ino /\
    match r with
    | Ok found => found = recs /\ last_lsn_ w' = size_of recs /\
                  durable_lsn_ w' = size_of recs /\ disk (fs_ w') = d'
    | Throw e => e = io /\ (disk (fs_ w') = d \/ disk (fs_ w') = d')
    end).
Proof.
  intros d d' Hdesc Hf (Hchain & t & Ht & Hc) Hfit HC HC'. unfold recover.
  apply so_bind, so_pure; [done..|]. cbn. rewrite Hdesc.
  pose proof (content_inode ino f d Hf) as Hcont.
  apply so_bind, so_sys, cs_file_size; [done| |by eauto 10]. intros fs1 Hd1.
  apply so_bind, so_sys. cbn [fs_ set_fs]. fold d.
  apply (recover_loop_safe ino d C) with (recs := recs) (t := t); rewrite ?Hcont; try done.
  - lia.
  - by rewrite Hc.
  - by eauto 10.
  - intros fs2 Hd2. cbn [app Z.add fst snd].
    apply so_bind, so_sys, cs_attempt_once; cbn [fs_ set_fs]; rewrite Hd2; [done| |by eauto 10].
    intros fs3 Hd3. apply so_bind, so_pure; cbn; rewrite ?Hd3; [done..|].
    apply so_pure; cbn; rewrite ?Hd3; done.
Qed.

(** An open log: its file holds exactly the records [recs], of which [durable]
    are flushed, and the next append continues them. *)
Definition ready (name : string) (recs durable : list WalRecord) (w : Wal) : Prop :=
  exists ino f, descriptor_ w = Some ino /\ published name ino (disk (fs_ w)) /\
    inodes (disk (fs_ w)) !! ino = Some f /\ chain 0 recs /\ cached f = log_bytes recs /\
    durable `prefix_of` recs /\ image durable (stable f) /\ last_lsn_ w = size_of recs.

Lemma image_exact recs : chain 0 recs -> image recs (log_bytes recs).
Proof. intros H. split; [done|]. exists []. split; [by left|by rewrite app_nil_r]. Qed.

Lemma ready_between name recs durable w :
  ready name recs durable w -> log_between name durable recs (disk (fs_ w)).
Proof.
  intros (ino & f & _ & Hp & Hf & Hch & Hc & Hd & Hs & _). exists ino, f, recs, durable.
  split_and!; try done. split; [done|]. rewrite Hc. split; [by apply image_exact|done].
Qed.

Lemma log_between_mono name lo hi hi' d :
  log_between name lo hi d -> hi `prefix_of` hi' -> log_between name lo hi' d.
Proof.
  intros (ino & f & a & b & Hp & Hf & Hl & Hlo & Hhi) H. exists ino, f, a, b. split_and!; try done.
  by trans hi.
Qed.

Lemma log_between_lo name lo lo' hi d :
  log_between name lo hi d -> lo' `prefix_of` lo -> log_between name lo' hi d.
Proof.
  intros (ino & f & a & b & Hp & Hf & Hl & Hlo & Hhi) H. exists ino, f, a, b. split_and!; try done.
  by trans lo.
Qed.

Lemma published_update name ino j g d : published name ino (update_inode j g d) <-> published name ino d.
Proof. done. Qed.

Lemma lookup_update ino g f d :
  inodes d !! ino = Some f -> inodes (update_inode ino g d) !! ino = Some (g f).
Proof. intros H. cbn. by rewrite lookup_alter_eq, H. Qed.

(** Appending a record, or part of it. *)
Lemma append_between name recs durable record w x :
  ready name recs durable w -> valid_record record -> lsn record = size_of recs + 1 ->
  x `prefix_of` record_bytes record ->
  forall ino, descriptor_ w = Some ino ->
  log_between name durable (recs ++ [record]) (update_inode ino (append_bytes x) (disk (fs_ w))).
Proof.
  intros (ino & f & Hdesc & Hp & Hf & Hch & Hc & Hd & Hs & _) Hv Hl Hx ino' Hi.
  rewrite Hdesc in Hi. injection Hi as <-.
  destruct (decide (x = record_bytes record)) as [->|Hne].
  - exists ino, (append_bytes (record_bytes record) f), (recs ++ [record]), durable.
    rewrite published_update. split_and!; try done; [by apply lookup_update|].
    split; [by trans recs; [done|apply prefix_app_r]|]. split; [|done]. cbn [cached append_bytes]. rewrite Hc.
    replace (log_bytes recs ++ record_bytes record) with (log_bytes (recs ++ [record]))
      by (rewrite log_bytes_app; unfold log_bytes at 2; cbn; by rewrite app_nil_r).
    apply image_exact, chain_app. by rewrite Z.add_0_l.
  - exists ino, (append_bytes x f), recs, durable.
    rewrite published_update. split_and!; try done; [by apply lookup_update| |by apply prefix_app_r].
    split; [done|]. split; [|done]. split; [done|]. exists x. cbn. rewrite Hc. split; [|done].
    right. exists record. by rewrite Hl.
Qed.

Lemma chain_size n recs : n <= u64_max -> chain n recs -> n + size_of recs <= u64_max.
Proof.
  revert n. induction recs as [|r recs IH]; intros n Hn; cbn [chain]; [unfold size_of; cbn; lia|].
  intros ([_ Hl] & E & Hch). unfold is_u64 in Hl.
  specialize (IH (n + 1) ltac:(unfold u64_max in *; lia) Hch).
  unfold size_of in *. cbn [length]. lia.
Qed.

Lemma append_ready name recs durable record w :
  ready name recs durable w -> lsn record = u64 (last_lsn_ w + 1) ->
  safe_on fs_ (log_between name durable (recs ++ [record])) (append record) w (fun r w' =>
    match r with
    | Ok _ => ready name (recs ++ [record]) durable w'
    | Throw _ => True
    end).
Proof.
  intros Hr Hl. pose proof Hr as (ino & f & Hdesc & Hp & Hf & Hch & Hc & Hd & Hs & Hlast).
  assert (log_between name durable (recs ++ [record]) (disk (fs_ w))) as H0
    by (eapply log_between_mono; [by apply ready_between|by apply prefix_app_r]).
  unfold append. apply so_bind, so_pure; [done|done|]. cbn. rewrite Hdesc, Hl, Z.eqb_refl. cbn [negb].
  destruct (encode_record record) as [encoded|e] eqn:Eenc; [|by apply so_pure].
  unfold encode_record in Eenc.
  destruct (String.eqb_spec (validation_error record) EmptyString) as [Hve|]; [|done].
  assert (encode_record record = Ok encoded) as Eenc'.
  { unfold encode_record. rewrite Hve. exact Eenc. }
  rewrite encode_record_bytes in Eenc' by done. injection Eenc' as <-. clear Eenc.
  assert (valid_record record) as Hv by (split; [done|rewrite Hl; apply u64_range]).
  assert (lsn record = size_of recs + 1) as Hl'.
  { rewrite Hl, Hlast. apply u64_small.
    destruct (valid_record_bounds record Hve) as [Hne _]. rewrite Hl, Hlast in Hne.
    pose proof (chain_size 0 recs ltac:(unfold u64_max; lia) Hch). pose proof (size_of_nonneg recs).
    destruct (decide (size_of recs = u64_max)) as [E|]; [by rewrite E in Hne|].
    unfold is_u64, u64_max in *. lia. }
  apply so_bind, so_sys, cs_write_all; [done| |].
  { intros x Hx. split; [by eapply append_between|done]. }
  intros fs1 Hd1. apply so_pure; cbn [fs_ fst snd set_fs set_lsns modify]; rewrite ?Hd1; [done| |].
  { by eapply append_between. }
  exists ino, (append_bytes (record_bytes record) f). cbn [fs_ set_lsns set_fs descriptor_ last_lsn_].
  rewrite Hd1. split_and!; try done.
  - by apply lookup_update.
  - apply chain_app. by rewrite Z.add_0_l.
  - cbn [cached append_bytes]. rewrite Hc, log_bytes_app. unfold log_bytes at 3. cbn [map concat].
    by rewrite app_nil_r.
  - by trans recs; [|apply prefix_app_r].
  - by rewrite <- Hl, Hl', size_of_app.
Qed.

Lemma sync_ready name recs durable w :
  ready name recs durable w ->
  safe_on fs_ (log_between name durable recs) sync w (fun r w' =>
    match r with
    | Ok _ => ready name recs recs w'
    | Throw _ => True
    end).
Proof.
  intros Hr. pose proof Hr as (ino & f & Hdesc & Hp & Hf & Hch & Hc & Hd & Hs & Hlast).
  pose proof (ready_between _ _ _ _ Hr) as H0.
  assert (log_between name durable recs (update_inode ino flush_bytes (disk (fs_ w)))) as H1.
  { exists ino, (flush_bytes f), recs, recs. rewrite published_update.
    split_and!; try done; [by apply lookup_update|].
    split; [done|]. cbn [cached stable flush_bytes]. rewrite Hc. by split; apply image_exact. }
  unfold sync. apply so_bind, so_pure; [done|done|]. cbn [snd fst get]. rewrite Hdesc.
  apply so_bind, so_sys, cs_sync_file; [done|done| |done].
  intros fs1 Hd1. apply so_pure; cbn [fs_ fst snd set_fs set_lsns modify]; rewrite ?Hd1; [done|done|].
  exists ino, (flush_bytes f). cbn [fs_ set_lsns set_fs descriptor_ last_lsn_].
  rewrite Hd1. split_and!; try done; [by apply lookup_update|].
  cbn [stable flush_bytes]. rewrite Hc. by apply image_exact.
Qed.

(** A log found on the disk: at most torn by the last crash. *)
Definition found (name : string) (recs durable : list WalRecord) (d : Disk) : Prop :=
  exists ino f, published name ino d /\ inodes d !! ino = Some f /\ log_file recs durable f /\
    size_of (cached f) <= off_t_max.

Lemma found_between name recs durable d : found name recs durable d -> log_between name durable recs d.
Proof.
  intros (ino & f & Hp & Hf & Hl & _). by exists ino, f, recs, durable.
Qed.

Lemma recover_found name recs durable w :
  found name recs durable (disk (fs_ w)) ->
  (forall ino, names (disk (fs_ w)) !! name = Some ino -> descriptor_ w = Some ino) ->
  safe_on fs_ (fun d => found name recs durable d) recover w (fun r w' =>
    match r with
    | Ok recs' => recs' = recs /\ ready name recs durable w'
    | Throw e => e = io
    end).
Proof.
  intros Hfound Hdesc.
  pose proof Hfound as (ino & f & Hp & Hf & (Hd & Ia & Is) & Hfit).
  assert (found name recs durable
            (update_inode ino (truncate_bytes (length (log_bytes recs))) (disk (fs_ w)))) as Hcut.
  { exists ino, (truncate_bytes (length (log_bytes recs)) f). rewrite published_update.
    split_and!; [done|by apply lookup_update| |].
    - split; [done|]. split; [|done]. destruct Ia as (Hch & t & _ & E). cbn [cached truncate_bytes].
      rewrite E, take_app_length. by apply image_exact.
    - cbn [cached truncate_bytes]. unfold size_of in *. rewrite length_take. lia. }
  specialize (Hdesc ino (proj1 Hp)).
  eapply so_weaken; [eapply recover_safe; [exact Hdesc|exact Hf|exact Ia|exact Hfit|done|exact Hcut]|].
  cbn beta. intros [recs'|e] w' (_ & Hdesc' & Hrest); [|tauto].
  destruct Hrest as (-> & Hl & _ & Hdisk). split; [done|].
  destruct Ia as (Hch & t & _ & E).
  exists ino, (truncate_bytes (length (log_bytes recs)) f). rewrite Hdisk.
  split_and!; try done; [by apply lookup_update|]. cbn [cached truncate_bytes].
  by rewrite E, take_app_length.
Qed.

(** Opening a log found on the disk. *)
Lemma open_found name recs durable fs :
  found name recs durable (disk fs) ->
  exists new, past (fs_ (fst (open name fs))) = new ++ past fs /\
    Forall (found name recs durable) new /\
    found name recs durable (disk (fs_ (fst (open name fs)))) /\
    match snd (open name fs) with
    | Ok _ => ready name recs durable (fst (open name fs))
    | Throw e => e = io
    end.
Proof.
  intros Hfound. unfold open.
  assert (open_or_create io name fs =
    (fst (open_or_create io name fs), snd (open_or_create io name fs))) as -> by by destruct (open_or_create io name fs).
  pose proof Hfound as (ino & f & Hp & Hf & _ & _).
  assert (disk (fst (open_or_create io name fs)) = disk fs /\ past (fst (open_or_create io name fs)) = past fs /\
    (snd (open_or_create io name fs) = Ok ino \/ snd (open_or_create io name fs) = Throw io)) as (Hdk & Hpa & Hr).
  { unfold open_or_create, attempt_once, ask, bind, Prelude.get, ret, throw. destruct Hp as [Hn _].
    destruct (script fs) as [|[] rest]; cbn; rewrite ?Hn; cbn; tauto. }
  destruct (open_or_create io name fs) as [fs1 r]. cbn [fst snd] in *.
  destruct Hr as [-> | ->]; cbn [fst snd fs_].
  2:{ exists []. rewrite Hpa, Hdk. by split_and!. }
  set (w := Build_Wal _ _ _ _ _).
  destruct (recover_found name recs durable w) as (new & Hpast & Hnew & Hlast & Hres).
  { unfold w. cbn [fs_]. by rewrite Hdk. }
  { unfold w. cbn [fs_ descriptor_]. rewrite Hdk. intros i Hi. destruct Hp as [Hn _]. congruence. }
  unfold w in Hpast. cbn [fs_] in Hpast. rewrite Hpa in Hpast. fold w in Hpast.
  exists new. destruct (recover w) as [w' [recs'|e]]; cbn [fst snd] in *; split_and!; try done; tauto.
Qed.
End Wal.
