(* ===== verification/KvStore.v ===== *)
(** * The standalone key/value store

    [src/storage/kv_store.cpp]: a write-ahead log, the map it describes, a
    bounded queue of mutations and one writer thread.

    Every critical section of the store is one step.  The writer's fields
    ([wal_], [values_], [visible_lsn_]) and the queue's fields are disjoint, so
    a batch is processed in one step too; its effects on the disk keep their
    order in the history of [Fs.v].  A mutation's promise is a number; what the
    writer stored in it is in [promises_]. *)

From S2P Require Import Prelude Wire Checksum Fs WalRecord Wal.
Import WalRecord.

Module KvStore.

Inductive DurabilityMode : Set :=
| async
| sync
| group_commit.

#[export] Instance DurabilityMode_eq_dec : EqDecision DurabilityMode.
Proof. solve_decision. Defined.

Record StorageOptions : Set := {
  wal_path : string;
  durability : DurabilityMode;
  max_batch_entries : Z;
  max_batch_bytes : Z;
  max_batch_wait : Z;
  max_pending_entries : Z;
  max_pending_bytes : Z
}.

Record MutationResult : Set := {
  mr_lsn : Z;
  mr_existed : bool
}.

Record PendingMutation : Set := {
  pm_operation : WalOperation;
  pm_key : list byte;
  pm_value : list byte;
  pm_bytes : Z;
  pm_completion : nat
}.

(** The writer thread: between two batches, or past its loop. *)
Inductive Writer : Set :=
| Running
| Finished.

Record Impl : Set := {
  options_ : StorageOptions;
  wal_ : Wal.Wal;
  values_ : gmap (list byte) (list byte);
  visible_lsn_ : Z;
  queue_ : list PendingMutation;
  pending_entries_ : Z;
  pending_bytes_ : Z;
  accepting_ : bool;
  stopping_ : bool;
  joined_ : bool;
  failure_ : option exn;
  writer_ : Writer;
  promises_ : gmap nat (result MutationResult);
  next_promise_ : nat
}.

Definition validate_key (key : list byte) : bool :=
  negb (size_of key =? 0) && (size_of key <=? kMaxKeySize).

Definition validate_options (options : StorageOptions) : result unit :=
  if String.eqb (wal_path options) EmptyString then Throw invalid_argument
  else if (max_batch_entries options =? 0) || (max_batch_bytes options =? 0) ||
          (max_batch_wait options <? 0) || (max_pending_entries options =? 0) ||
          (max_pending_bytes options <? kMaxWalRecordSize)
  then Throw invalid_argument
  else Ok tt.

(** [values_] after a record, as [apply_recovered] and [process_batch] do it. *)
Definition apply_record (values : gmap (list byte) (list byte)) (record : WalRecord) :
    gmap (list byte) (list byte) :=
  if Byte.eqb (operation record) WalOperation_put
  then <[key record := value record]> values
  else delete (key record) values.

Definition set_wal (w : Wal.Wal) (s : Impl) : Impl :=
  {| options_ := options_ s; wal_ := w; values_ := values_ s; visible_lsn_ := visible_lsn_ s;
     queue_ := queue_ s; pending_entries_ := pending_entries_ s;
     pending_bytes_ := pending_bytes_ s; accepting_ := accepting_ s; stopping_ := stopping_ s;
     joined_ := joined_ s; failure_ := failure_ s; writer_ := writer_ s;
     promises_ := promises_ s; next_promise_ := next_promise_ s |}.

Definition set_values (values : gmap (list byte) (list byte)) (lsn : Z)
    (promises : gmap nat (result MutationResult)) (s : Impl) : Impl :=
  {| options_ := options_ s; wal_ := wal_ s; values_ := values; visible_lsn_ := lsn;
     queue_ := queue_ s; pending_entries_ := pending_entries_ s;
     pending_bytes_ := pending_bytes_ s; accepting_ := accepting_ s; stopping_ := stopping_ s;
     joined_ := joined_ s; failure_ := failure_ s; writer_ := writer_ s;
     promises_ := promises; next_promise_ := next_promise_ s |}.

Definition set_queue (queue : list PendingMutation) (entries bytes : Z) (s : Impl) : Impl :=
  {| options_ := options_ s; wal_ := wal_ s; values_ := values_ s; visible_lsn_ := visible_lsn_ s;
     queue_ := queue; pending_entries_ := entries; pending_bytes_ := bytes;
     accepting_ := accepting_ s; stopping_ := stopping_ s; joined_ := joined_ s;
     failure_ := failure_ s; writer_ := writer_ s; promises_ := promises_ s;
     next_promise_ := next_promise_ s |}.

Definition set_flags (accepting stopping joined : bool) (failure : option exn) (writer : Writer)
    (s : Impl) : Impl :=
  {| options_ := options_ s; wal_ := wal_ s; values_ := values_ s; visible_lsn_ := visible_lsn_ s;
     queue_ := queue_ s; pending_entries_ := pending_entries_ s;
     pending_bytes_ := pending_bytes_ s; accepting_ := accepting; stopping_ := stopping;
     joined_ := joined; failure_ := failure; writer_ := writer; promises_ := promises_ s;
     next_promise_ := next_promise_ s |}.

Definition set_next_promise (n : nat) (s : Impl) : Impl :=
  {| options_ := options_ s; wal_ := wal_ s; values_ := values_ s; visible_lsn_ := visible_lsn_ s;
     queue_ := queue_ s; pending_entries_ := pending_entries_ s;
     pending_bytes_ := pending_bytes_ s; accepting_ := accepting_ s; stopping_ := stopping_ s;
     joined_ := joined_ s; failure_ := failure_ s; writer_ := writer_ s;
     promises_ := promises_ s; next_promise_ := n |}.

(** ** Opening *)

(** [KvStore::open]: [Wal::open], then the constructor, which recovers the log a
    second time to fill the map. *)
Definition open (options : StorageOptions) (fs : Fs) : Fs * result Impl :=
  match validate_options options with
  | Throw e => (fs, Throw e)
  | Ok _ =>
      match Wal.open (wal_path options) fs with
      | (w, Throw e) => (Wal.fs_ w, Throw e)
      | (w, Ok _) =>
          match Wal.recover w with
          | (w', Throw e) => (Wal.fs_ w', Throw e)
          | (w', Ok records) =>
              (Wal.fs_ w',
               Ok {| options_ := options; wal_ := w';
                     values_ := fold_left apply_record records ∅;
                     visible_lsn_ := Wal.last_lsn w'; queue_ := []; pending_entries_ := 0;
                     pending_bytes_ := 0; accepting_ := true; stopping_ := false;
                     joined_ := false; failure_ := None; writer_ := Running;
                     promises_ := ∅; next_promise_ := 0 |})
          end
      end
  end.

(** ** Callers *)

(** The critical section of [submit]; [None] while the caller waits for
    capacity.  The answer is the promise, or the exception. *)
Definition submit (operation : WalOperation) (key value : list byte) (s : Impl) :
    option (Impl * result nat) :=
  let bytes := Z.of_nat kWalHeaderSize + size_of key + size_of value in
  if negb (negb (accepting_ s) || bool_decide (failure_ s <> None) ||
           ((pending_entries_ s <? max_pending_entries (options_ s)) &&
            (pending_bytes_ s + bytes <=? max_pending_bytes (options_ s))))
  then None
  else
    match failure_ s with
    | Some e => Some (s, Throw e)
    | None =>
        if negb (accepting_ s) then Some (s, Throw runtime_error)
        else
          let m := {| pm_operation := operation; pm_key := key; pm_value := value;
                      pm_bytes := bytes; pm_completion := next_promise_ s |} in
          Some (set_next_promise (S (next_promise_ s))
                  (set_queue (queue_ s ++ [m]) (pending_entries_ s + 1)
                             (pending_bytes_ s + bytes) s),
                Ok (next_promise_ s))
    end.

Definition put (key value : list byte) (s : Impl) : option (Impl * result nat) :=
  if negb (validate_key key) then Some (s, Throw invalid_argument)
  else if kMaxValueSize <? size_of value then Some (s, Throw invalid_argument)
  else submit WalOperation_put key value s.

Definition erase (key : list byte) (s : Impl) : option (Impl * result nat) :=
  if negb (validate_key key) then Some (s, Throw invalid_argument)
  else submit WalOperation_delete_key key [] s.

(** [future.get()]: [None] while the writer has not completed the promise. *)
Definition completion (promise : nat) (s : Impl) : option (result MutationResult) :=
  promises_ s !! promise.

Definition get (key : list byte) (s : Impl) : result (option (list byte)) :=
  if negb (validate_key key) then Throw invalid_argument else Ok (values_ s !! key).

Definition size (s : Impl) : Z := Z.of_nat (base.size (values_ s)).

Definition last_lsn (s : Impl) : Z := visible_lsn_ s.

(** ** The writer thread *)

(** The inner loop of [take_batch]: the batch and what stays in the queue. *)
Fixpoint split_batch (limit max_bytes : Z) (batch : list PendingMutation) (batch_bytes : Z)
    (queue : list PendingMutation) : list PendingMutation * list PendingMutation :=
  match queue with
  | [] => (batch, [])
  | next :: queue' =>
      if negb (size_of batch <? limit) then (batch, queue)
      else if negb (size_of batch =? 0) && (max_bytes <? batch_bytes + pm_bytes next)
      then (batch, queue)
      else split_batch limit max_bytes (batch ++ [next]) (batch_bytes + pm_bytes next) queue'
  end.

Definition batch_bytes (batch : list PendingMutation) : Z :=
  fold_left (fun n m => n + pm_bytes m) batch 0.

#[global] Arguments batch_bytes : simpl never.

(** [take_batch]; [None] while it waits for work.  In group-commit mode it may
    wait longer for the batch to fill: that only delays the step. *)
Definition take_batch (s : Impl) : option (Impl * list PendingMutation) :=
  match queue_ s with
  | [] => if stopping_ s then Some (s, []) else None
  | _ :: _ =>
      let entry_limit := match durability (options_ s) with
                         | group_commit => max_batch_entries (options_ s)
                         | _ => 1
                         end in
      let (batch, rest) := split_batch entry_limit (max_batch_bytes (options_ s)) [] 0 (queue_ s) in
      Some (set_queue rest (pending_entries_ s - size_of batch)
                      (pending_bytes_ s - batch_bytes batch) s, batch)
  end.

(** A computation on the log inside one on the store. *)
Definition on_wal {A} (m : M Wal.Wal A) : M Impl A := fun s =>
  let (w', r) := m (wal_ s) in (set_wal w' s, r).

Definition hook : M Impl unit := on_wal (Wal.sys callback).

(** The loop that assigns sequence numbers and appends. *)
Fixpoint append_batch (next_lsn : Z) (batch : list PendingMutation) : M Impl (list WalRecord) :=
  match batch with
  | [] => ret []
  | mutation :: batch' =>
      let record := {| lsn := next_lsn; operation := pm_operation mutation;
                       key := pm_key mutation; value := pm_value mutation |} in
      hook ;;
      on_wal (Wal.append record) ;;
      hook ;;
      let* records := append_batch (u64 (next_lsn + 1)) batch' in
      ret (record :: records)
  end.

(** The loop that updates the map. *)
Fixpoint publish_records (values : gmap (list byte) (list byte)) (records : list WalRecord) :
    gmap (list byte) (list byte) * list MutationResult :=
  match records with
  | [] => (values, [])
  | record :: records' =>
      let existed := bool_decide (is_Some (values !! key record)) in
      let (values', results) := publish_records (apply_record values record) records' in
      (values', {| mr_lsn := lsn record; mr_existed := existed |} :: results)
  end.

Fixpoint complete_all (promises : gmap nat (result MutationResult)) (batch : list PendingMutation)
    (results : list MutationResult) : gmap nat (result MutationResult) :=
  match batch, results with
  | m :: batch', r :: results' =>
      complete_all (<[pm_completion m := Ok r]> promises) batch' results'
  | _, _ => promises
  end.

Definition process_batch (batch : list PendingMutation) : M Impl unit :=
  let* s := Prelude.get in
  let* records := append_batch (u64 (Wal.last_lsn (wal_ s) + 1)) batch in
  (if bool_decide (durability (options_ s) = async) then ret tt
   else hook ;; on_wal Wal.sync ;; hook ;; hook) ;;
  modify (fun s =>
    let (values, results) := publish_records (values_ s) records in
    set_values values (match last records with Some r => lsn r | None => 0 end)
               (complete_all (promises_ s) batch results) s).

(** [set_exception] on every promise of a list; one that is set already keeps
    its value. *)
Definition break_promises (e : exn) (ms : list PendingMutation)
    (promises : gmap nat (result MutationResult)) : gmap nat (result MutationResult) :=
  fold_left (fun ps m => match ps !! pm_completion m with
                         | Some _ => ps
                         | None => <[pm_completion m := Throw e]> ps
                         end) ms promises.

#[global] Arguments break_promises : simpl never.

Definition fail (e : exn) (active_batch : list PendingMutation) (s : Impl) : Impl :=
  let promises := break_promises e (queue_ s) (break_promises e active_batch (promises_ s)) in
  set_flags false true (joined_ s) (Some e) (writer_ s)
    (set_queue [] 0 0 (set_values (values_ s) (visible_lsn_ s) promises s)).

(** [wal_.close()] at the end of [writer_loop]. *)
Definition stop_writer (s : Impl) : Impl :=
  set_flags (accepting_ s) (stopping_ s) (joined_ s) (failure_ s) Finished
    (set_wal (fst (Wal.close (wal_ s))) s).

(** One round of [writer_loop]. *)
Definition writer_step (s : Impl) : option Impl :=
  match writer_ s with
  | Finished => None
  | Running =>
      match take_batch s with
      | None => None
      | Some (s1, []) => Some (if stopping_ s1 then stop_writer s1 else s1)
      | Some (s1, batch) =>
          match process_batch batch s1 with
          | (s2, Ok _) => Some s2
          | (s2, Throw e) => Some (stop_writer (fail e batch s2))
          end
      end
  end.

(** ** Closing *)

Definition close_begin (s : Impl) : Impl :=
  if joined_ s then s
  else set_flags false true (joined_ s) (failure_ s) (writer_ s) s.

(** The join returns when the writer has finished. *)
Definition close_end (s : Impl) : option Impl :=
  match writer_ s with
  | Running => None
  | Finished => Some (set_flags (accepting_ s) (stopping_ s) true (failure_ s) Finished s)
  end.

(** ** Interleavings *)

Inductive step : Impl -> Impl -> Prop :=
| step_put key value s s' r : put key value s = Some (s', r) -> step s s'
| step_erase key s s' r : erase key s = Some (s', r) -> step s s'
| step_writer s s' : writer_step s = Some s' -> step s s'
| step_close_begin s : step s (close_begin s)
| step_close_end s s' : close_end s = Some s' -> step s s'.

Inductive steps : Impl -> Impl -> Prop :=
| steps_refl s : steps s s
| steps_step s s1 s2 : steps s s1 -> step s1 s2 -> steps s s2.

(** ** Processing a batch *)

Definition fs_of (s : Impl) : Fs := Wal.fs_ (wal_ s).

Definition record_of (n : Z) (m : PendingMutation) : WalRecord :=
  {| lsn := n; operation := pm_operation m; key := pm_key m; value := pm_value m |}.

Fixpoint records_of (n : Z) (batch : list PendingMutation) : list WalRecord :=
  match batch with
  | [] => []
  | m :: batch' => record_of n m :: records_of (u64 (n + 1)) batch'
  end.

Lemma so_on_wal {A} C (m : M Wal.Wal A) s (Q : result A -> Impl -> Prop) :
  safe_on Wal.fs_ C m (wal_ s) (fun r w' => Q r (set_wal w' s)) ->
  safe_on fs_of C (on_wal m) s Q.
Proof.
  intros (new & Hp & Hn & HC & HQ). unfold safe_on, on_wal. destruct (m (wal_ s)) as [w' r].
  by exists new.
Qed.

Lemma so_hook C s (Q : result unit -> Impl -> Prop) :
  C (disk (fs_of s)) ->
  (forall fs', disk fs' = disk (fs_of s) -> Q (Ok tt) (set_wal (Wal.set_fs fs' (wal_ s)) s)) ->
  (forall fs', disk fs' = disk (fs_of s) ->
     Q (Throw callback_error) (set_wal (Wal.set_fs fs' (wal_ s)) s)) ->
  safe_on fs_of C hook s Q.
Proof.
  intros HC H1 H2. apply so_on_wal, Wal.so_sys, cs_attempt_once; [done| |]; intros fs' E; auto.
Qed.

Lemma ready_fs name recs durable w fs' :
  Wal.ready name recs durable w -> disk fs' = disk (Wal.fs_ w) ->
  Wal.ready name recs durable (Wal.set_fs fs' w).
Proof.
  intros (ino & f & H1 & H2 & H3 & H4 & H5 & H6 & H7 & H8) E. exists ino, f. cbn. rewrite E. by split_and!.
Qed.

(** The store outside the log stays as it is. *)
Definition same_but_wal (s s' : Impl) : Prop := s' = set_wal (wal_ s') s.

Lemma append_batch_safe name durable batch recs n s :
  Wal.ready name recs durable (wal_ s) -> n = u64 (Wal.last_lsn_ (wal_ s) + 1) ->
  safe_on fs_of (Wal.log_between name durable (recs ++ records_of n batch)) (append_batch n batch) s
    (fun r s' => same_but_wal s s' /\
       match r with
       | Ok records => records = records_of n batch /\
           Wal.ready name (recs ++ records_of n batch) durable (wal_ s')
       | Throw _ => True
       end).
Proof.
  revert recs n s. induction batch as [|m batch IH]; intros recs n s Hr Hn; cbn [append_batch records_of].
  { rewrite app_nil_r. apply so_pure; [done|by apply Wal.ready_between|]. split; [by destruct s|done]. }
  assert (Wal.log_between name durable (recs ++ record_of n m :: records_of (u64 (n + 1)) batch)
            (disk (fs_of s))) as H0
    by (eapply Wal.log_between_mono; [by apply Wal.ready_between|by apply prefix_app_r]).
  apply so_bind, so_hook; [done| |by intros fs1 E1; split; [destruct s|]].
  intros fs1 E1. apply so_bind, so_on_wal. cbn [wal_ set_wal].
  pose proof (ready_fs _ _ _ _ _ Hr E1) as Hr1.
  eapply so_weaken.
  { eapply so_mono; [by eapply (Wal.append_ready name recs durable (record_of n m))|].
    intros d Hd. eapply Wal.log_between_mono; [exact Hd|]. apply prefix_app. by apply prefix_cons, prefix_nil. }
  cbn beta. intros [[]|e] w2 Hr2; [|by split; [destruct s|]].
  assert (Wal.last_lsn_ w2 = n) as Hn2.
  { destruct Hr2 as (ino & f & _ & _ & _ & Hch & _ & _ & _ & ->).
    apply Wal.chain_app in Hch as (_ & _ & E & _). cbn [lsn record_of] in E.
    rewrite size_of_app. unfold size_of at 2. cbn [length]. lia. }
  apply so_bind, so_hook; [| |by intros fs3 E3; split; [destruct s|]].
  { eapply Wal.log_between_mono; [by apply Wal.ready_between|]. apply prefix_app. by apply prefix_cons, prefix_nil. }
  intros fs3 E3. apply so_bind. cbn [wal_ set_wal] in *.
  pose proof (ready_fs _ _ _ _ _ Hr2 E3) as Hr3.
  eapply so_weaken.
  { eapply so_mono; [apply (IH (recs ++ [record_of n m]) (u64 (n + 1))); [exact Hr3|cbn; by rewrite Hn2]|].
    intros d. by rewrite <- (assoc_L (++)). }
  cbn beta. rewrite <- (assoc_L (++)). cbn [app].
  intros [records|e] s4 [Hs4 Hr4]; [|split; [rewrite Hs4; by destruct s|done]].
  destruct Hr4 as [-> Hr4]. apply so_pure; [done|by apply Wal.ready_between|].
  split; [cbn [fst ret]; rewrite Hs4; by destruct s|done].
Qed.

(** The store after a batch whose records are [new]. *)
Definition published_batch (new : list WalRecord) (batch : list PendingMutation) (w : Wal.Wal)
    (s : Impl) : Impl :=
  let (values, results) := publish_records (values_ s) new in
  set_values values (match last new with Some r => lsn r | None => 0 end)
             (complete_all (promises_ s) batch results) (set_wal w s).

Definition flushed (s : Impl) (durable recs : list WalRecord) : list WalRecord :=
  if bool_decide (durability (options_ s) = async) then durable else recs.

Definition publish_batch (new : list WalRecord) (batch : list PendingMutation) : M Impl unit :=
  modify (fun s =>
    let (values, results) := publish_records (values_ s) new in
    set_values values (match last new with Some r => lsn r | None => 0 end)
               (complete_all (promises_ s) batch results) s).

Lemma publish_batch_safe C new batch s w (Q : result unit -> Impl -> Prop) :
  C (disk (Wal.fs_ w)) -> Q (Ok tt) (published_batch new batch w s) ->
  safe_on fs_of C (publish_batch new batch) (set_wal w s) Q.
Proof.
  intros HC HQ. unfold published_batch in HQ. cbn in HQ.
  apply so_pure; [cbn; by destruct (publish_records _ _)|done|exact HQ].
Qed.

Lemma process_batch_safe name recs durable batch s :
  let new := records_of (u64 (Wal.last_lsn_ (wal_ s) + 1)) batch in
  Wal.ready name recs durable (wal_ s) ->
  safe_on fs_of (Wal.log_between name durable (recs ++ new)) (process_batch batch) s (fun r s' =>
    match r with
    | Ok _ => exists w', Wal.ready name (recs ++ new) (flushed s durable (recs ++ new)) w' /\
                s' = published_batch new batch w' s
    | Throw _ => same_but_wal s s'
    end).
Proof.
  intros new Hr. unfold process_batch.
  apply so_bind, so_pure; [done| |].
  { eapply Wal.log_between_mono; [by apply Wal.ready_between|by apply prefix_app_r]. }
  cbn [snd fst Prelude.get]. apply so_bind.
  eapply so_weaken; [by apply append_batch_safe|]. cbn beta. fold new.
  intros [records|e] s1 [Hs1 Hr1]; [|done]. destruct Hr1 as [-> Hr1]. fold new.
  fold (publish_batch new batch). unfold same_but_wal in Hs1. generalize dependent (wal_ s1).
  intros w1 -> Hr1.
  pose proof (Wal.ready_between _ _ _ _ Hr1) as Hb1.
  apply so_bind. unfold flushed. case_bool_decide as Ha.
  { apply so_pure; [done|done|]. cbn [snd fst ret]. apply publish_batch_safe; [done|]. by exists w1. }
  apply so_bind, so_hook; [done| |by intros fs2 E2; destruct s].
  intros fs2 E2. pose proof (ready_fs _ _ _ _ _ Hr1 E2) as Hr2.
  apply so_bind, so_on_wal. cbn [wal_ set_wal].
  eapply so_weaken; [by apply Wal.sync_ready|]. cbn beta.
  intros [[]|e] w3 Hr3; [|by destruct s].
  assert (forall w, Wal.ready name (recs ++ new) (recs ++ new) w ->
    Wal.log_between name durable (recs ++ new) (disk (Wal.fs_ w))) as Hb.
  { intros w Hw. eapply Wal.log_between_lo; [by apply Wal.ready_between|].
    destruct Hr as (_ & _ & _ & _ & _ & _ & _ & Hd & _). trans recs; [done|by apply prefix_app_r]. }
  apply so_bind, so_hook; [by apply Hb| |by intros fs4 E4; destruct s].
  intros fs4 E4. pose proof (ready_fs _ _ _ _ _ Hr3 E4) as Hr4. cbn [wal_ set_wal] in *.
  apply so_hook; [by apply Hb| |by intros fs5 E5; destruct s].
  intros fs5 E5. pose proof (ready_fs _ _ _ _ _ Hr4 E5) as Hr5. cbn [wal_ set_wal] in *.
  replace (set_wal _ (set_wal _ _)) with (set_wal (Wal.set_fs fs5 (Wal.set_fs fs4 w3)) s) by by destruct s.
  apply publish_batch_safe; [by apply Hb|]. by eexists.
Qed.
End KvStore.
