(* ===== verification/KvInvariant.v ===== *)
(** * The standalone store keeps its promises

    The invariant of [KvStore.v] over every interleaving of callers, writer and
    [close], and what it gives: acknowledged mutations survive crashes, reads
    see exactly the log, the queue stays within its limits, and closing leaves
    no caller waiting. *)

From S2P Require Import Prelude Wire Checksum Fs WalRecord Wal KvStore.
Import WalRecord KvStore.

(** ** Lists of results *)

Lemma records_of_lookup n batch i r :
  records_of n batch !! i = Some r -> exists m, batch !! i = Some m /\ r = record_of (lsn r) m.
Proof.
  revert n i. induction batch as [|m batch IH]; intros n i; [done|]. destruct i as [|i]; cbn.
  - intros [= <-]. by exists m.
  - apply IH.
Qed.

Lemma length_records_of n batch : length (records_of n batch) = length batch.
Proof. revert n. induction batch as [|m batch IH]; intros n; [done|]. cbn. by rewrite IH. Qed.

Lemma publish_records_spec values recs :
  fst (publish_records values recs) = fold_left apply_record recs values /\
  length (snd (publish_records values recs)) = length recs /\
  forall i r, snd (publish_records values recs) !! i = Some r ->
    exists record, recs !! i = Some record /\ mr_lsn r = lsn record /\
      mr_existed r = bool_decide (is_Some (fold_left apply_record (take i recs) values !! key record)).
Proof.
  revert values. induction recs as [|record recs IH]; intros values; cbn [publish_records]; [done|].
  specialize (IH (apply_record values record)).
  destruct (publish_records (apply_record values record) recs) as [values' results].
  cbn [fst snd] in *. destruct IH as (-> & Hl & Hr). split_and!; [done|cbn; lia|].
  intros [|i] r; cbn; [intros [= <-]; by exists record|apply Hr].
Qed.

Lemma complete_all_spec ps batch results :
  NoDup (map pm_completion batch) -> length batch = length results ->
  (forall i m r, batch !! i = Some m -> results !! i = Some r ->
     complete_all ps batch results !! pm_completion m = Some (Ok r)) /\
  (forall p, p ∉ map pm_completion batch -> complete_all ps batch results !! p = ps !! p).
Proof.
  revert ps results. induction batch as [|m batch IH]; intros ps [|r results] Hnd Hl; try done.
  cbn [map] in Hnd. apply NoDup_cons in Hnd as [Hn Hnd]. injection Hl as Hl.
  destruct (IH (<[pm_completion m := Ok r]> ps) results Hnd Hl) as [H1 H2]. cbn [complete_all]. split.
  - intros [|i] m' r'; cbn.
    + intros [= <-] [= <-]. rewrite H2 by done. by rewrite lookup_insert_eq.
    + apply H1.
  - intros p Hp. cbn [map] in Hp. apply not_elem_of_cons in Hp as [Hne Hp].
    rewrite H2 by done. by rewrite lookup_insert_ne.
Qed.

Lemma break_promises_spec e ms ps :
  (forall p v, ps !! p = Some v -> break_promises e ms ps !! p = Some v) /\
  (forall m, m ∈ ms -> is_Some (break_promises e ms ps !! pm_completion m)) /\
  (forall p r, break_promises e ms ps !! p = Some (Ok r) -> ps !! p = Some (Ok r)).
Proof.
  revert ps. induction ms as [|m ms IH]; intros ps; unfold break_promises; cbn [fold_left].
  { split_and!; [done| |done]. intros m Hm. by apply elem_of_nil in Hm. }
  fold (break_promises e ms). set (ps1 := match ps !! pm_completion m with Some _ => ps | None => _ end).
  destruct (IH ps1) as (H1 & H2 & H3).
  assert (forall p v, ps !! p = Some v -> ps1 !! p = Some v) as Hkeep.
  { intros p v Hp. unfold ps1. destruct (ps !! pm_completion m) eqn:E; [done|].
    rewrite lookup_insert_ne; [done|]. intros <-. congruence. }
  split_and!.
  - auto.
  - intros m' Hm. apply elem_of_cons in Hm as [->|Hm]; [|auto].
    assert (is_Some (ps1 !! pm_completion m)) as [v Hv].
    { unfold ps1. destruct (ps !! pm_completion m) eqn:E; [by eexists|]. rewrite lookup_insert_eq. by eexists. }
    exists v. by apply H1.
  - intros p r Hp. apply H3 in Hp. unfold ps1 in Hp. destruct (ps !! pm_completion m) eqn:E; [done|].
    destruct (decide (pm_completion m = p)) as [<-|]; [by rewrite lookup_insert_eq in Hp|].
    by rewrite lookup_insert_ne in Hp.
Qed.

Lemma break_promises_other e ms ps p :
  p ∉ map pm_completion ms -> break_promises e ms ps !! p = ps !! p.
Proof.
  revert ps. induction ms as [|m ms IH]; intros ps Hp; [done|].
  cbn [map] in Hp. apply not_elem_of_cons in Hp as [Hne Hp].
  etrans; [apply (IH _ Hp)|]. cbn beta.
  destruct (ps !! pm_completion m); [done|]. by rewrite lookup_insert_ne.
Qed.

(** ** Batches *)

Lemma batch_bytes_app a b : batch_bytes (a ++ b) = batch_bytes a + batch_bytes b.
Proof.
  unfold batch_bytes. rewrite fold_left_app. generalize (fold_left (fun n m => n + pm_bytes m) a 0).
  induction b as [|m b IH]; intros z; cbn [fold_left]; [lia|]. rewrite IH, (IH (0 + pm_bytes m)). lia.
Qed.

Lemma batch_bytes_nonneg q : Forall (fun m => 0 <= pm_bytes m) q -> 0 <= batch_bytes q.
Proof.
  induction 1 as [|m q Hm _ IH]; [done|]. change (m :: q) with ([m] ++ q).
  rewrite batch_bytes_app. unfold batch_bytes at 1. cbn. lia.
Qed.

(** [take_batch] takes a nonempty beginning of the queue, at most as many
    mutations as a batch may have. *)
Lemma split_batch_spec limit max_bytes batch bytes q b rest :
  split_batch limit max_bytes batch bytes q = (b, rest) ->
  exists taken, b = batch ++ taken /\ q = taken ++ rest /\
    size_of b <= Z.max limit (size_of batch) /\
    (0 < limit -> batch = [] -> q <> [] -> taken <> []).
Proof.
  revert batch bytes. induction q as [|m q IH]; intros batch bytes; cbn [split_batch].
  { intros [= <- <-]. exists []. rewrite app_nil_r. split_and!; [done|done|lia|done]. }
  destruct (Z.ltb_spec (size_of batch) limit) as [Hlt|Hge]; cbn [negb].
  2:{ intros [= <- <-]. exists []. rewrite app_nil_r. split_and!; try done; [lia|].
      intros Hl -> _. unfold size_of in Hge. cbn in Hge. lia. }
  destruct (negb (size_of batch =? 0) && (max_bytes <? bytes + pm_bytes m)) eqn:E.
  - intros [= <- <-]. exists []. rewrite app_nil_r. split_and!; try done; [lia|]. intros _ -> _. done.
  - intros H. destruct (IH _ _ H) as (taken & -> & -> & Hs & _). exists (m :: taken).
    rewrite <- (assoc_L (++)) in *. cbn [app] in *. split_and!; try done.
    rewrite (size_of_app batch [m]) in Hs. unfold size_of at 3 in Hs. cbn [length] in Hs. lia.
Qed.

(** ** The invariant *)

(** The promise [p] was answered [r]: the mutation behind it is the record
    [mr_lsn r] of the log, at most the [limit]th, and [mr_existed] says whether
    its key was there before. *)
Definition answered (origin : gmap nat PendingMutation) (recs : list WalRecord) (limit : Z)
    (p : nat) (r : MutationResult) : Prop :=
  exists m, origin !! p = Some m /\ 1 <= mr_lsn r <= limit /\
    recs !! Z.to_nat (mr_lsn r - 1) = Some (record_of (mr_lsn r) m) /\
    mr_existed r = bool_decide (is_Some
      (fold_left apply_record (take (Z.to_nat (mr_lsn r - 1)) recs) ∅ !! pm_key m)).

Lemma answered_mono origin origin' recs recs' limit limit' p r :
  answered origin recs limit p r -> origin ⊆ origin' -> recs `prefix_of` recs' -> limit <= limit' ->
  answered origin' recs' limit' p r.
Proof.
  intros (m & Hm & Hl & Hr & He) Ho [more ->] Hlim. exists m.
  pose proof (lookup_lt_Some _ _ _ Hr) as Hlt.
  split_and!; [by eapply lookup_weaken|lia|lia|by apply lookup_app_l_Some|].
  by rewrite take_app_le by lia.
Qed.

(** [origin] is the mutation behind each promise handed out, [recs] the records
    whose effect is visible, [durable] those known to be flushed. *)
Record KvInv (name : string) (origin : gmap nat PendingMutation) (recs durable : list WalRecord)
    (s : Impl) : Prop := {
  ki_running : writer_ s = Running ->
    Wal.ready name recs durable (wal_ s) /\ failure_ s = None;
  ki_disk : durable `prefix_of` recs /\
    exists hi, recs `prefix_of` hi /\ Wal.log_between name durable hi (disk (fs_of s));
  ki_values : values_ s = fold_left apply_record recs ∅ /\ visible_lsn_ s = size_of recs;
  ki_pending : pending_entries_ s = size_of (queue_ s) /\ pending_bytes_ s = batch_bytes (queue_ s);
  ki_bounds : pending_entries_ s <= max_pending_entries (options_ s) /\
    pending_bytes_ s <= max_pending_bytes (options_ s) /\ 0 < max_pending_entries (options_ s) /\
    0 < max_batch_entries (options_ s) /\ 0 < max_pending_bytes (options_ s);
  ki_queue : Forall (fun m => origin !! pm_completion m = Some m /\
      promises_ s !! pm_completion m = None /\ 0 <= pm_bytes m) (queue_ s) /\
    NoDup (map pm_completion (queue_ s));
  ki_origin : forall p, is_Some (origin !! p) <-> (p < next_promise_ s)%nat;
  ki_served : forall p m, origin !! p = Some m -> pm_completion m = p /\
    (m ∈ queue_ s \/ is_Some (promises_ s !! p));
  ki_ok : forall p r, promises_ s !! p = Some (Ok r) ->
    answered origin recs (size_of (flushed s recs durable)) p r;
  ki_promised : forall p, is_Some (promises_ s !! p) -> (p < next_promise_ s)%nat;
  ki_stopping : stopping_ s = true -> accepting_ s = false;
  ki_failed : failure_ s <> None -> accepting_ s = false;
  ki_finished : writer_ s = Finished -> queue_ s = [] /\ stopping_ s = true;
  ki_joined : joined_ s = true -> writer_ s = Finished
}.

(** *** Opening *)

Lemma open_KvInv options fs fs' s recs durable :
  0 <= max_pending_entries options -> 0 <= max_batch_entries options ->
  Wal.found (wal_path options) recs durable (disk fs) ->
  open options fs = (fs', Ok s) ->
  KvInv (wal_path options) ∅ recs durable s /\ options_ s = options.
Proof.
  intros Hpos Hpos2 Hfound. unfold open, validate_options.
  destruct (String.eqb _ _); [done|].
  destruct (Z.eqb_spec (max_batch_entries options) 0); [done|].
  destruct (Z.eqb_spec (max_batch_bytes options) 0); [done|].
  destruct (Z.ltb_spec (max_batch_wait options) 0); [done|].
  destruct (Z.eqb_spec (max_pending_entries options) 0); [done|].
  destruct (Z.ltb_spec (max_pending_bytes options) kMaxWalRecordSize); [done|]. cbn [orb].
  destruct (Wal.open_found _ _ _ _ Hfound) as (new & _ & _ & Hf1 & Hr1).
  destruct (Wal.open (wal_path options) fs) as [w [[]|e]]; cbn [fst snd] in *; [|done].
  destruct (Wal.recover_found _ recs durable w Hf1) as (new2 & _ & _ & Hf2 & Hr2).
  { intros ino Hn. destruct Hr1 as (ino' & f & Hd & [Hn' _] & _). congruence. }
  destruct (Wal.recover w) as [w' [found|e]]; cbn [fst snd] in *; [|done].
  destruct Hr2 as [-> Hr2]. intros [= <- <-]. split; [|done].
  pose proof Hr2 as (_ & _ & _ & _ & _ & _ & _ & Hpre & _ & Hlast).
  split; cbn; try done.
  - split; [done|]. exists recs. split; [done|]. by apply Wal.ready_between.
  - unfold kMaxWalRecordSize, kMaxKeySize, kMaxValueSize, kWalHeaderSize in *. lia.
  - split; [done|constructor].
  - intros p. rewrite lookup_empty. split; [by intros []|lia].
  - intros p. rewrite lookup_empty. by intros [].
Qed.

Lemma open_fails_io options fs e recs durable :
  Wal.found (wal_path options) recs durable (disk fs) -> validate_options options = Ok tt ->
  snd (open options fs) = Throw e -> e = storage_error storage_io.
Proof.
  intros Hfound Hv. unfold open. rewrite Hv.
  destruct (Wal.open_found _ _ _ _ Hfound) as (new & _ & _ & Hf1 & Hr1).
  destruct (Wal.open (wal_path options) fs) as [w [[]|e1]]; cbn [fst snd] in *; [|by intros [= <-]].
  destruct (Wal.recover_found _ recs durable w Hf1) as (new2 & _ & _ & Hf2 & Hr2).
  { intros ino Hn. destruct Hr1 as (ino' & f & Hd & [Hn' _] & _). congruence. }
  destruct (Wal.recover w) as [w' [found|e2]]; cbn [fst snd] in *; [done|by intros [= <-]].
Qed.

Lemma open_validates options fs fs' s :
  open options fs = (fs', Ok s) -> validate_options options = Ok tt.
Proof. unfold open. destruct (validate_options options) as [[]|e]; [done|]. by intros [= _ ?]. Qed.

(** *** Submitting *)

Lemma submit_KvInv name origin recs durable op key value s s' r :
  KvInv name origin recs durable s -> submit op key value s = Some (s', r) ->
  (forall e, r = Throw e -> s' = s) /\
  (forall p, r = Ok p ->
     let m := {| pm_operation := op; pm_key := key; pm_value := value;
                 pm_bytes := Z.of_nat kWalHeaderSize + size_of key + size_of value;
                 pm_completion := p |} in
     origin !! p = None /\ KvInv name (<[p := m]> origin) recs durable s' /\
     options_ s' = options_ s /\ fs_of s' = fs_of s).
Proof.
  intros Hi. unfold submit. set (bytes := Z.of_nat kWalHeaderSize + size_of key + size_of value).
  destruct (negb (negb (accepting_ s) || _ || _)) eqn:Ew; [done|].
  destruct (failure_ s) as [e|] eqn:Hfail.
  { intros [= <- <-]. by split. }
  destruct (accepting_ s) eqn:Hacc; cbn [negb] in *; [|by intros [= <- <-]; split].
  intros [= <- <-]. split; [done|]. intros p [= <-]. set (m := Build_PendingMutation _ _ _ _ _).
  apply negb_false_iff in Ew. rewrite bool_decide_eq_false_2 in Ew by (intros []; done).
  cbn [orb] in Ew. apply andb_prop in Ew as [E1 E2]. apply Z.ltb_lt in E1. apply Z.leb_le in E2.
  assert (origin !! next_promise_ s = None) as Hfresh.
  { destruct (origin !! next_promise_ s) eqn:E; [|done].
    pose proof (proj1 (ki_origin _ _ _ _ _ Hi (next_promise_ s)) (ex_intro _ _ E)). lia. }
  assert (0 <= bytes) as Hb.
  { unfold bytes, kWalHeaderSize. pose proof (size_of_nonneg key). pose proof (size_of_nonneg value). lia. }
  split_and!; [done| |done|done].
  destruct Hi as [Hrun Hdisk Hval Hpend Hbound [Hq Hnd] Horig Hserved Hok Hprom Hstop Hfailed Hfin Hjoin].
  split; cbn; try done.
  - destruct Hpend as [-> ->]. rewrite size_of_app, batch_bytes_app. done.
  - lia.
  - rewrite map_app. split.
    + apply Forall_app. split.
      * eapply Forall_impl; [exact Hq|]. cbn beta. intros m' (H1 & H2 & H3). split_and!; try done.
        rewrite lookup_insert_ne; [done|]. intros E. rewrite <- E in H1. congruence.
      * constructor; [|done]. cbn. rewrite lookup_insert_eq. split_and!; try done.
        destruct (promises_ s !! next_promise_ s) eqn:E; [|done].
        pose proof (Hprom _ (ex_intro _ _ E)). lia.
    + apply NoDup_app. split_and!; [done| |by apply NoDup_singleton].
      intros x Hx Hx2. cbn in Hx2. apply list_elem_of_singleton in Hx2 as ->.
      apply list_elem_of_fmap in Hx as (m' & E & Hm'). rewrite Forall_forall in Hq.
      destruct (Hq m' Hm') as (H1 & _). rewrite <- E in H1. congruence.
  - intros p. destruct (decide (p = next_promise_ s)) as [->|Hne].
    + rewrite lookup_insert_eq. split; [lia|by eexists].
    + rewrite lookup_insert_ne by done. rewrite Horig. lia.
  - intros p m' Hp. destruct (decide (p = next_promise_ s)) as [->|Hne].
    + rewrite lookup_insert_eq in Hp. injection Hp as <-. split; [done|]. left. set_solver.
    + rewrite lookup_insert_ne in Hp by done. destruct (Hserved p m' Hp) as [H1 [H2|H2]]; (split; [done|]);
        [left; set_solver|by right].
  - intros p r Hp. eapply answered_mono; [by apply Hok| |done|done]. by apply insert_subseteq.
  - intros p Hp. apply Hprom in Hp. lia.
  - intros H. destruct (Hfin H) as [_ Hs]. apply Hstop in Hs. congruence.
Qed.

(** *** The writer *)

Lemma take_batch_spec s s1 batch :
  0 < max_batch_entries (options_ s) -> take_batch s = Some (s1, batch) ->
  (batch = [] /\ s1 = s /\ queue_ s = [] /\ stopping_ s = true) \/
  exists rest, queue_ s = batch ++ rest /\ batch <> [] /\
    s1 = set_queue rest (pending_entries_ s - size_of batch) (pending_bytes_ s - batch_bytes batch) s.
Proof.
  intros Hmax. unfold take_batch. destruct (queue_ s) as [|m q] eqn:Eq.
  { destruct (stopping_ s); [|done]. intros [= <- <-]. by left. }
  set (limit := match durability (options_ s) with group_commit => _ | _ => _ end).
  assert (0 < limit) as Hl by (unfold limit; destruct (durability (options_ s)); lia).
  destruct (split_batch limit _ [] 0 (m :: q)) as [b rest] eqn:E. intros [= <- <-].
  destruct (split_batch_spec _ _ _ _ _ _ _ E) as (taken & -> & Hq & _ & Hne).
  right. exists rest. cbn [app]. split_and!; [done|by apply Hne|done].
Qed.

(** What every step keeps and adds. *)
Definition grows (name : string) (recs durable : list WalRecord) (s s' : Impl)
    (recs' durable' : list WalRecord) : Prop :=
  recs `prefix_of` recs' /\ durable `prefix_of` durable' /\ options_ s' = options_ s /\
  exists new hi, past (fs_of s') = new ++ past (fs_of s) /\
    Forall (Wal.log_between name durable hi) (disk (fs_of s') :: new).

Lemma grows_still name origin recs durable s s' :
  KvInv name origin recs durable s -> options_ s' = options_ s -> fs_of s' = fs_of s ->
  grows name recs durable s s' recs durable.
Proof.
  intros Hi Ho E. split_and!; try done. destruct (ki_disk _ _ _ _ _ Hi) as [_ (hi & _ & Hd)].
  exists [], hi. rewrite E. split; [done|]. by constructor.
Qed.

Lemma stop_writer_KvInv name origin recs durable s :
  KvInv name origin recs durable s -> queue_ s = [] -> stopping_ s = true ->
  KvInv name origin recs durable (stop_writer s).
Proof.
  intros [Hrun Hdisk Hval Hpend Hbound Hq Horig Hserved Hok Hprom Hstop Hfailed Hfin Hjoin] E1 E2.
  split; cbn; done.
Qed.

Lemma last_new_lsn recs new n :
  Wal.chain n (recs ++ new) -> new <> [] ->
  match last new with Some r => lsn r | None => 0 end = n + size_of (recs ++ new).
Proof.
  intros Hch Hne. destruct new as [|r new _] using rev_ind; [done|]. rewrite last_snoc.
  rewrite (Wal.chain_lookup n _ (length recs + length new) r Hch).
  - rewrite size_of_app, size_of_app. unfold size_of. cbn [length]. lia.
  - rewrite lookup_app_r by lia. rewrite lookup_app_r by lia.
    by replace (length recs + length new - length recs - length new)%nat with 0%nat by lia.
Qed.

Lemma answered_new origin recs new i m r :
  Wal.chain 0 (recs ++ new) -> origin !! pm_completion m = Some m ->
  new !! i = Some (record_of (mr_lsn r) m) ->
  mr_existed r = bool_decide (is_Some
    (fold_left apply_record (take i new) (fold_left apply_record recs ∅) !! pm_key m)) ->
  answered origin (recs ++ new) (size_of (recs ++ new)) (pm_completion m) r.
Proof.
  intros Hch Ho Hn He.
  assert ((recs ++ new) !! (length recs + i)%nat = Some (record_of (mr_lsn r) m)) as Hl.
  { rewrite lookup_app_r by lia. by replace (length recs + i - length recs)%nat with i by lia. }
  pose proof (Wal.chain_lookup _ _ _ _ Hch Hl) as E. cbn [lsn record_of] in E.
  pose proof (lookup_lt_Some _ _ _ Hl) as Hlt.
  assert (Z.to_nat (mr_lsn r - 1) = (length recs + i)%nat) as Hi by lia.
  exists m. rewrite Hi. split_and!; try done; [lia|unfold size_of; lia|].
  by rewrite take_app_add, fold_left_app.
Qed.

(** A batch whose records are in the log and visible. *)
Lemma published_KvInv name origin recs durable s batch rest w' :
  let new := records_of (u64 (Wal.last_lsn_ (wal_ s) + 1)) batch in
  let s1 := set_queue rest (pending_entries_ s - size_of batch) (pending_bytes_ s - batch_bytes batch) s in
  KvInv name origin recs durable s -> writer_ s = Running -> queue_ s = batch ++ rest -> batch <> [] ->
  Wal.ready name (recs ++ new) (flushed s durable (recs ++ new)) w' ->
  KvInv name origin (recs ++ new) (flushed s durable (recs ++ new)) (published_batch new batch w' s1).
Proof.
  intros new s1 Hi Hw Eq Hne Hr. pose proof (publish_records_spec (values_ s) new) as (Hv & Hl & Hres).
  pose proof Hr as (_ & _ & _ & _ & _ & Hch & _ & Hpre & _ & _).
  unfold published_batch. cbn [values_ set_queue s1].
  destruct (publish_records (values_ s) new) as [values results]. cbn [fst snd] in *. subst values.
  destruct Hi as [Hrun Hdisk [Hval Hvis] Hpend Hbound [Hq Hnd] Horig Hserved Hok Hprom Hstop Hfailed Hfin Hjoin].
  assert (length batch = length results) as Hlen by (rewrite Hl; unfold new; by rewrite length_records_of).
  rewrite Eq, map_app in Hnd. apply NoDup_app in Hnd as (Hnb & Hdis & Hnr).
  destruct (complete_all_spec (promises_ s) batch results Hnb Hlen) as [Hdone Hother].
  rewrite Eq in Hq, Hpend. apply Forall_app in Hq as [Hqb Hqr].
  destruct (Wal.chain_app 0 recs new) as [Hchsplit _]. destruct (Hchsplit Hch) as [_ Hchn].
  assert (forall p, (p ∈ map pm_completion rest) -> complete_all (promises_ s) batch results !! p = promises_ s !! p) as Hrest.
  { intros p Hp. apply Hother. intros Hb. by apply (Hdis p). }
  assert (0 < size_of batch) as Hbpos by (unfold size_of; destruct batch; [done|cbn [length]; lia]).
  assert (flushed s (recs ++ new) (flushed s durable (recs ++ new)) = recs ++ new) as Hall
    by (unfold flushed; by case_bool_decide).
  split; cbn [queue_ promises_ values_ visible_lsn_ options_ wal_ writer_ failure_ pending_entries_
    pending_bytes_ next_promise_ accepting_ stopping_ joined_ set_values set_wal set_queue s1 fs_of].
  - intros _. split; [done|]. by apply Hrun.
  - split; [done|]. exists (recs ++ new). split; [done|]. by apply Wal.ready_between.
  - split; [by rewrite fold_left_app, Hval|]. apply (last_new_lsn recs new 0 Hch).
    intros E. apply (f_equal length) in E. unfold new in E. rewrite length_records_of in E.
    unfold size_of in Hbpos. cbn in E. lia.
  - destruct Hpend as [-> ->]. rewrite size_of_app, batch_bytes_app. lia.
  - assert (0 <= batch_bytes batch) by (apply batch_bytes_nonneg; eapply Forall_impl; [exact Hqb|naive_solver]).
    lia.
  - split; [|done]. rewrite Forall_forall in Hqr |- *. intros m Hm. destruct (Hqr m Hm) as (H1 & H2 & H3).
    split_and!; try done. rewrite Hrest; [done|]. apply list_elem_of_fmap. by exists m.
  - done.
  - intros p m Hp. destruct (Hserved p m Hp) as [Hpm Hm]. split; [done|].
    destruct (decide (p ∈ map pm_completion batch)) as [Hin|Hnin].
    + right. apply list_elem_of_fmap in Hin as (m' & -> & Hm'). apply list_elem_of_lookup in Hm' as [i Hi].
      destruct (lookup_lt_is_Some_2 results i) as [r Hr']; [rewrite <- Hlen; by eapply lookup_lt_Some|].
      rewrite (Hdone i m' r Hi Hr'). by eexists.
    + rewrite Hother by done. destruct Hm as [Hm|Hm]; [|by right]. left.
      rewrite Eq in Hm. apply elem_of_app in Hm as [Hm|Hm]; [|done]. exfalso. apply Hnin.
      apply list_elem_of_fmap. by exists m.
  - intros p r Hp.
    match goal with |- context [flushed ?x _ _] => change (flushed x) with (flushed s) end. rewrite Hall.
    destruct (decide (p ∈ map pm_completion batch)) as [Hin|Hnin].
    + apply list_elem_of_fmap in Hin as (m & -> & Hm). rewrite Forall_forall in Hqb.
      destruct (Hqb m Hm) as (Horg & _). apply list_elem_of_lookup in Hm as [i Hi].
      destruct (lookup_lt_is_Some_2 results i) as [r' Hr']; [rewrite <- Hlen; by eapply lookup_lt_Some|].
      rewrite (Hdone i m r' Hi Hr') in Hp. injection Hp as <-.
      destruct (Hres i r' Hr') as (record & Hrec & Hlsn & Hex).
      destruct (records_of_lookup _ _ _ _ Hrec) as (m' & Hm' & Erec). rewrite Hi in Hm'. injection Hm' as <-.
      assert (key record = pm_key m) as Hkey by by rewrite Erec.
      apply (answered_new origin recs new i m r'); try done; [by rewrite Hlsn, <- Erec|].
      by rewrite <- Hval, <- Hkey.
    + rewrite Hother in Hp by done. eapply answered_mono; [by apply Hok|done|by apply prefix_app_r|].
      apply Wal.size_of_prefix. unfold flushed. case_bool_decide; [by apply prefix_app_r|].
      trans recs; [apply Hdisk|by apply prefix_app_r].
  - intros p Hp. destruct (decide (p ∈ map pm_completion batch)) as [Hin|Hnin].
    + apply list_elem_of_fmap in Hin as (m' & -> & Hm'). apply Horig. rewrite Forall_forall in Hqb.
      destruct (Hqb m' Hm') as (H1 & _). by eexists.
    + rewrite Hother in Hp by done. by apply Hprom.
  - done.
  - done.
  - congruence.
  - done.
Qed.

(** A batch that failed: the callers of the batch and of the queue get the
    exception. *)
Lemma failed_KvInv name origin recs durable s batch rest w' e hi :
  let s1 := set_queue rest (pending_entries_ s - size_of batch) (pending_bytes_ s - batch_bytes batch) s in
  KvInv name origin recs durable s -> queue_ s = batch ++ rest ->
  recs `prefix_of` hi -> Wal.log_between name durable hi (disk (Wal.fs_ w')) ->
  KvInv name origin recs durable (stop_writer (fail e batch (set_wal w' s1))).
Proof.
  intros s1 [Hrun Hdisk Hval Hpend Hbound [Hq Hnd] Horig Hserved Hok Hprom Hstop Hfailed Hfin Hjoin] Eq Hhi Hd.
  destruct (break_promises_spec e batch (promises_ s)) as (B1 & B2 & B3).
  destruct (break_promises_spec e rest (break_promises e batch (promises_ s))) as (R1 & R2 & R3).
  split; cbn; try done.
  - split; [apply Hdisk|]. by exists hi.
  - lia.
  - split; [done|constructor].
  - intros p m Hp. destruct (Hserved p m Hp) as [Hpm Hm]. split; [done|]. right.
    destruct Hm as [Hm|[v Hv]]; [|exists v; by apply R1, B1].
    rewrite Eq in Hm. rewrite <- Hpm. apply elem_of_app in Hm as [Hm|Hm]; [|by apply R2].
    destruct (B2 m Hm) as [v Hv]. exists v. by apply R1.
  - intros p r Hp. apply R3, B3 in Hp. by apply Hok.
  - intros p Hp. destruct (promises_ s !! p) as [v|] eqn:E; [apply Hprom; by eexists|].
    destruct (decide (p ∈ map pm_completion (queue_ s))) as [Hin|Hnin].
    + apply list_elem_of_fmap in Hin as (m & -> & Hm). rewrite Forall_forall in Hq.
      destruct (Hq m Hm) as (H1 & _). apply Horig. by eexists.
    + exfalso. rewrite Eq, map_app, not_elem_of_app in Hnin. destruct Hnin as [N1 N2].
      rewrite !break_promises_other in Hp by done. rewrite E in Hp. by destruct Hp.
Qed.

Lemma writer_KvInv name origin recs durable s s' :
  KvInv name origin recs durable s -> writer_step s = Some s' ->
  exists recs' durable', KvInv name origin recs' durable' s' /\ grows name recs durable s s' recs' durable'.
Proof.
  intros Hi. unfold writer_step. destruct (writer_ s) eqn:Hw; [|done].
  destruct (take_batch s) as [[s1 batch]|] eqn:Et; [|done].
  destruct (ki_running _ _ _ _ _ Hi Hw) as [Hr _].
  destruct (take_batch_spec s s1 batch) as [(-> & -> & Eq & Es)|(rest & Eq & Hne & ->)]; [apply Hi|done| |].
  { rewrite Es. intros [= <-]. exists recs, durable.
    split; [by apply stop_writer_KvInv|]. by eapply grows_still. }
  destruct batch as [|m0 b0]; [done|]. set (batch := m0 :: b0) in *. set (s1 := set_queue rest _ _ s).
  pose proof (process_batch_safe name recs durable batch s1 Hr) as (new & Hp & Hn & HC & Hres).
  change (Wal.last_lsn_ (wal_ s1)) with (Wal.last_lsn_ (wal_ s)) in *.
  set (added := records_of _ batch) in *. change (fs_of s1) with (fs_of s) in Hp.
  destruct (process_batch batch s1) as [s2 [[]|e]] eqn:Epb; cbn [fst snd] in *.
  - destruct Hres as (w' & Hr' & ->).
    intros [= <-]. exists (recs ++ added), (flushed s durable (recs ++ added)).
    split; [by apply published_KvInv|].
    split_and!; [by apply prefix_app_r| |by unfold published_batch; destruct (publish_records _ _)|].
    { unfold flushed. case_bool_decide; [done|].
      trans recs; [apply (ki_disk _ _ _ _ _ Hi)|by apply prefix_app_r]. }
    exists new, (recs ++ added). split; [done|]. by constructor.
  - intros [= <-]. exists recs, durable.
    unfold same_but_wal in Hres. rewrite Hres. split.
    { eapply failed_KvInv; [done|done| |exact HC]. by apply prefix_app_r. }
    split_and!; try done. exists new, (recs ++ added). split; [done|]. by constructor.
Qed.

(** *** Every step *)

Lemma step_KvInv name origin recs durable s s' :
  KvInv name origin recs durable s -> step s s' ->
  exists origin' recs' durable', KvInv name origin' recs' durable' s' /\ origin ⊆ origin' /\
    grows name recs durable s s' recs' durable'.
Proof.
  assert (forall s' op k v r, KvInv name origin recs durable s -> submit op k v s = Some (s', r) ->
    exists origin' recs' durable', KvInv name origin' recs' durable' s' /\ origin ⊆ origin' /\
      grows name recs durable s s' recs' durable') as Hsub.
  { clear s'. intros s' op k v r Hi Hs. destruct (submit_KvInv _ _ _ _ _ _ _ _ _ _ Hi Hs) as [Ht Hok].
    destruct r as [p|e].
    - destruct (Hok p eq_refl) as (Hf & Hi' & Ho & Hfs). eexists _, recs, durable. split; [exact Hi'|].
      split; [by apply insert_subseteq|]. by eapply grows_still.
    - rewrite (Ht e eq_refl). exists origin, recs, durable. split_and!; [done|done|by eapply grows_still]. }
  intros Hi Hstep. destruct Hstep as [k v s s' r Hs|k s s' r Hs|s s' Hs|s|s s' Hs].
  - unfold put in Hs. repeat (case_match; try (by eapply Hsub)).
    all: injection Hs as <- <-; exists origin, recs, durable; split_and!; [done|done|by eapply grows_still].
  - unfold erase in Hs. repeat (case_match; try (by eapply Hsub)).
    injection Hs as <- <-. exists origin, recs, durable. split_and!; [done|done|by eapply grows_still].
  - destruct (writer_KvInv _ _ _ _ _ _ Hi Hs) as (recs' & durable' & Hi' & Hg).
    exists origin, recs', durable'. by split_and!.
  - exists origin, recs, durable. split_and!; [|done|].
    + unfold close_begin. destruct (joined_ s) eqn:Ej; [done|].
      destruct Hi as [H1 H2 H3 H4 H5 H6 H7 H8 H9 H10 H11 H12 H13 H14].
      split; cbn; try done. intros Hw. split; [by apply H13|done].
    + eapply grows_still; [done|..]; unfold close_begin; by destruct (joined_ s).
  - unfold close_end in Hs. destruct (writer_ s) eqn:Hw; [done|]. injection Hs as <-.
    exists origin, recs, durable. split_and!; [|done|by eapply grows_still].
    destruct Hi as [H1 H2 H3 H4 H5 H6 H7 H8 H9 H10 H11 H12 H13 H14]. split; cbn; try done. auto.
Qed.

Lemma steps_KvInv name origin recs durable s s' :
  KvInv name origin recs durable s -> steps s s' ->
  exists origin' recs' durable', KvInv name origin' recs' durable' s' /\ origin ⊆ origin' /\
    recs `prefix_of` recs' /\ durable `prefix_of` durable' /\ options_ s' = options_ s.
Proof.
  intros Hi. induction 1 as [s|s s1 s2 _ IH Hstep].
  - by exists origin, recs, durable.
  - destruct (IH Hi) as (o1 & r1 & d1 & Hi1 & Ho1 & Hr1 & Hd1 & Hopt).
    destruct (step_KvInv _ _ _ _ _ _ Hi1 Hstep) as (o2 & r2 & d2 & Hi2 & Ho2 & Hr2 & Hd2 & Hopt2 & _).
    exists o2, r2, d2. split_and!; [done|by etrans|by etrans|by etrans|congruence].
Qed.

Lemma steps_trans s s1 s2 : steps s s1 -> steps s1 s2 -> steps s s2.
Proof.
  intros H1 H2. revert H1. induction H2 as [|s1 s2 s3 _ IH Hstep]; intros H1; [done|].
  exact (steps_step _ _ _ (IH H1) Hstep).
Qed.

(** The writer never waits while there is work. *)
Lemma writer_progress name origin recs durable s :
  KvInv name origin recs durable s -> writer_ s = Running -> queue_ s <> [] ->
  exists s', writer_step s = Some s' /\ next_promise_ s' = next_promise_ s /\ joined_ s' = joined_ s /\
    (writer_ s' = Finished \/
     stopping_ s' = stopping_ s /\ (length (queue_ s') < length (queue_ s))%nat).
Proof.
  intros Hi Hw Hq. destruct (ki_running _ _ _ _ _ Hi Hw) as [Hr _].
  assert (exists s1 batch, take_batch s = Some (s1, batch)) as (s1 & batch & Et).
  { unfold take_batch. destruct (queue_ s); [done|]. destruct (split_batch _ _ _ _ _). by do 2 eexists. }
  destruct (take_batch_spec s s1 batch) as [(_ & _ & E & _)|(rest & Eq & Hne & ->)]; [apply Hi|done|done|].
  unfold writer_step. rewrite Hw, Et. destruct batch as [|m0 b0]; [done|]. set (batch := m0 :: b0) in *.
  set (s1 := set_queue rest _ _ s).
  pose proof (process_batch_safe name recs durable batch s1 Hr) as (new & _ & _ & _ & Hres).
  destruct (process_batch batch s1) as [s2 [[]|e]]; cbn [fst snd] in Hres.
  - destruct Hres as (w' & _ & ->). eexists. split; [done|]. unfold published_batch.
    destruct (publish_records _ _). cbn. split_and!; try done. right. split; [done|].
    rewrite Eq, length_app. unfold batch. cbn. lia.
  - unfold same_but_wal in Hres. rewrite Hres. eexists. split; [done|]. cbn. split_and!; try done. by left.
Qed.

(** Told to stop, it empties the queue and finishes. *)
Lemma writer_drains n name origin recs durable s :
  KvInv name origin recs durable s -> stopping_ s = true -> (length (queue_ s) <= n)%nat ->
  exists s', steps s s' /\ writer_ s' = Finished /\ next_promise_ s' = next_promise_ s.
Proof.
  revert origin recs durable s. induction n as [|n IH]; intros origin recs durable s Hi Hs Hn;
    (destruct (writer_ s) eqn:Hw; [|by exists s; split_and!; [constructor|..]]);
    (destruct (decide (queue_ s = [])) as [Eq|Hq];
      [exists (stop_writer s); split_and!; try done; eapply steps_step; [constructor|]; apply step_writer;
       unfold writer_step, take_batch; by rewrite Hw, Eq, Hs, Hs|]).
  { destruct (queue_ s); [done|cbn in Hn; lia]. }
  destruct (writer_progress _ _ _ _ _ Hi Hw Hq) as (s1 & E1 & Hnext & _ & Hcase).
  assert (steps s s1) as Hst by (eapply steps_step; [constructor|by apply step_writer]).
  destruct Hcase as [Hf|[Hs1 Hlt]]; [by exists s1|].
  destruct (writer_KvInv _ _ _ _ _ _ Hi E1) as (recs1 & d1 & Hi1 & _).
  destruct (IH _ _ _ s1 Hi1) as (s2 & Hst2 & Hf2 & Hn2); [congruence|lia|].
  exists s2. split_and!; [by eapply steps_trans|done|congruence].
Qed.
