(* ===== verification/KvTheorems.v ===== *)
(** * Theorems about the standalone store *)

From S2P Require Import Prelude Wire Checksum Fs WalRecord Wal KvStore KvInvariant.
Import WalRecord KvStore.


(** What the disk went through while [s] became [s']. *)
Definition crash_points (s s' : Impl) (d : Disk) : Prop :=
  exists new, past (fs_of s') = new ++ past (fs_of s) /\ d ∈ disk (fs_of s') :: new.

Lemma crash_points_close s : crash_points s (close_begin s) (disk (fs_of s)).
Proof.
  assert (fs_of (close_begin s) = fs_of s) as E by (unfold close_begin; by destruct (joined_ s)).
  exists []. rewrite E. split; [done|]. apply elem_of_cons. by left.
Qed.


Section Opened.
Context (options : StorageOptions) (fs0 fs1 : Fs) (s0 : Impl) (recs0 durable0 : list WalRecord).
Hypothesis entries_unsigned : 0 <= max_pending_entries options.
Hypothesis batch_unsigned : 0 <= max_batch_entries options.
Hypothesis log_found : Wal.found (wal_path options) recs0 durable0 (disk fs0).
Hypothesis opened : open options fs0 = (fs1, Ok s0).

Lemma reachable_KvInv s :
  steps s0 s -> exists origin recs durable, KvInv (wal_path options) origin recs durable s /\
    recs0 `prefix_of` recs /\ options_ s = options.
Proof.
  intros Hs. destruct (open_KvInv _ _ _ _ _ _ entries_unsigned batch_unsigned log_found opened) as [Hi Ho].
  destruct (steps_KvInv _ _ _ _ _ _ Hi Hs) as (o & r & d & Hi' & _ & Hr & _ & Ho').
  exists o, r, d. split_and!; [done|done|congruence].
Qed.



(** The submission queue never exceeds its limits, and its counters are the
    number and the bytes of the queued mutations. *)
Theorem queue_stays_within_limits s :
  steps s0 s ->
  pending_entries_ s = size_of (queue_ s) /\ pending_bytes_ s = batch_bytes (queue_ s) /\
  size_of (queue_ s) <= max_pending_entries options /\
  batch_bytes (queue_ s) <= max_pending_bytes options.
Proof.
  intros Hs. destruct (reachable_KvInv s Hs) as (o & recs & durable & Hi & _ & Ho).
  destruct (ki_pending _ _ _ _ _ Hi) as [E1 E2]. destruct (ki_bounds _ _ _ _ _ Hi) as (B1 & B2 & _).
  rewrite Ho, E1, E2 in *. by split_and!.
Qed.

End Opened.
