(* ===== verification/KvWitnesses.v ===== *)
(** * Concrete runs of the standalone store *)

From S2P Require Import Prelude Wire Checksum Fs WalRecord Wal KvStore KvInvariant KvTheorems.
Import WalRecord KvStore.

Definition example_options : StorageOptions :=
  {| wal_path := "store.wal"; durability := sync; max_batch_entries := 64;
     max_batch_bytes := 4194304; max_batch_wait := 1000; max_pending_entries := 4096;
     max_pending_bytes := 67108864 |}.

(** A disk with an empty log, and one with nothing at all. *)
Definition example_disk : Disk :=
  {| inodes := {[0%nat := {| cached := []; stable := [] |}]};
     names := {["store.wal" := 0%nat]}; unsynced := [] |}.

Definition empty_disk : Disk := {| inodes := ∅; names := ∅; unsynced := [] |}.

Definition boot (d : Disk) : Fs := {| disk := d; past := []; script := [] |}.

Definition opened_on (d : Disk) : Impl :=
  match snd (open example_options (boot d)) with
  | Ok s => s
  | Throw _ => {| options_ := example_options;
                  wal_ := fst (Wal.open EmptyString (boot d)); values_ := ∅; visible_lsn_ := 0;
                  queue_ := []; pending_entries_ := 0; pending_bytes_ := 0; accepting_ := false;
                  stopping_ := true; joined_ := false; failure_ := None; writer_ := Finished;
                  promises_ := ∅; next_promise_ := 0 |}
  end.

Definition a_key : list byte := [Byte.x6b].
Definition a_value : list byte := [Byte.x76; Byte.x31].

(** A caller puts a value, and the writer thread serves it. *)
Definition after_put (s : Impl) : Impl :=
  match put a_key a_value s with Some (s', _) => s' | None => s end.

Definition after_write (s : Impl) : Impl :=
  match writer_step s with Some s' => s' | None => s end.

Definition store0 : Impl := opened_on example_disk.
Definition store1 : Impl := after_put store0.
Definition store2 : Impl := after_write store1.

(** The disk as it is on the platters when nothing is pending. *)
Definition settled (d : Disk) : Disk := {| inodes := inodes d; names := names d; unsynced := [] |}.

Lemma example_found : Wal.found (wal_path example_options) [] [] (disk (boot example_disk)).
Proof.
  exists 0%nat, {| cached := []; stable := [] |}.
  assert (Wal.image [] []) as H by (split; [done|exists []; split; [by left|done]]).
  split_and!; [by split|done|by split_and!|vm_compute; congruence].
Qed.

Lemma example_opened : open example_options (boot example_disk) =
  (fst (open example_options (boot example_disk)), Ok store0).
Proof. vm_compute. reflexivity. Qed.

Lemma store1_steps : steps store0 store1.
Proof.
  eapply steps_step; [constructor|]. eapply (step_put a_key a_value _ _ (Ok 0%nat)).
  vm_compute. reflexivity.
Qed.


Definition store2_log : list byte :=
  record_bytes {| lsn := 1; operation := WalOperation_put; WalRecord.key := a_key;
                  WalRecord.value := a_value |}.

Lemma store2_inodes :
  inodes (disk (fs_of store2)) = {[0%nat := {| cached := store2_log; stable := store2_log |}]}.
Proof. vm_compute. reflexivity. Qed.

Lemma store2_crash : crash (disk (fs_of store2)) (settled (disk (fs_of store2))).
Proof.
  split_and!; [by left|done| |intros ino f H; by exists f].
  intros ino f H. cbn [settled inodes] in H. rewrite store2_inodes in H |- *.
  pose proof H as H'. apply lookup_singleton_Some in H' as [_ <-]. split; [done|].
  eexists. split; [exact H|]. split; [|by left]. cbn [cached stable].
  rewrite <- (app_nil_r store2_log) at 1 2. by rewrite common_app, app_nil_r.
Qed.




Lemma queue_stays_within_limits_witness :
  pending_entries_ store1 = size_of (queue_ store1) /\
  pending_bytes_ store1 = batch_bytes (queue_ store1) /\
  size_of (queue_ store1) <= max_pending_entries example_options /\
  batch_bytes (queue_ store1) <= max_pending_bytes example_options.
Proof.
  apply (queue_stays_within_limits example_options (boot example_disk)
    (fst (open example_options (boot example_disk))) store0 [] [] ltac:(vm_compute; congruence)
    ltac:(vm_compute; congruence) example_found example_opened store1 store1_steps).
Defined.


(** ** A log that is new

    [Wal::open] creates the file but never flushes the directory. *)

Definition fresh_store : Impl := opened_on empty_disk.
Definition fresh_store_written : Impl := after_write (after_put fresh_store).

(** C30. On a store that was just created, a mutation acknowledged in the [sync] mode
    can be lost: its record is flushed, but a crash may bring back the directory
    without the log, and the store then opens empty. *)
Theorem new_log_can_be_lost :
  exists d', steps fresh_store fresh_store_written /\
    completion 0 fresh_store_written = Some (Ok {| mr_lsn := 1; mr_existed := false |}) /\
    crash (disk (fs_of fresh_store_written)) d' /\
    match snd (open example_options (boot d')) with
    | Ok store => get a_key store = Ok None
    | Throw _ => False
    end.
Proof.
  exists {| inodes := inodes (disk (fs_of fresh_store_written)); names := ∅; unsynced := [] |}.
  split_and!.
  - eapply steps_trans; [eapply steps_step; [constructor|]|eapply steps_step; [constructor|]].
    + eapply (step_put a_key a_value _ (after_put fresh_store) (Ok 0%nat)). vm_compute. reflexivity.
    + apply step_writer. vm_compute. reflexivity.
  - vm_compute. reflexivity.
  - assert (inodes (disk (fs_of fresh_store_written)) = inodes (disk (fs_of store2))) as E
      by (vm_compute; reflexivity).
    destruct store2_crash as (_ & _ & H1 & H2). split_and!; [right|done| |].
    + apply elem_of_cons. by left.
    + intros ino f. rewrite E. apply H1.
    + intros ino f H. by exists f.
  - vm_compute. reflexivity.
Qed.
