(* ===== verification/RaftTypes.v ===== *)
(** * Raft data types

    [src/raft/types.h]: log entries, the six peer messages, the actions a
    transition returns, the leader's per-peer progress, the configuration and
    the persistent state.  Fields carry a short prefix naming their struct; node
    ids, terms, log indexes, logical times and RPC ids are 64-bit unsigned
    integers held in [Z]. *)

From S2P Require Import Prelude.

Abbreviation NodeId := Z (only parsing).
Abbreviation Term := Z (only parsing).
Abbreviation LogIndex := Z (only parsing).
Abbreviation LogicalTime := Z (only parsing).
Abbreviation RpcId := Z (only parsing).

Inductive Role : Set := follower | candidate | leader.

Inductive EntryKind : Set := command | no_op.

#[export] Instance Role_eq_dec : EqDecision Role.
Proof. solve_decision. Defined.
#[export] Instance EntryKind_eq_dec : EqDecision EntryKind.
Proof. solve_decision. Defined.

Record LogEntry := mkLogEntry {
  le_index : LogIndex;
  le_term : Term;
  le_kind : EntryKind;
  le_command : list byte;
}.

#[export] Instance LogEntry_eq_dec : EqDecision LogEntry.
Proof. solve_decision. Defined.

Record StateMachineSnapshot := mkStateMachineSnapshot {
  sm_last_included_index : LogIndex;
  sm_last_included_term : Term;
  sm_state_machine : list byte;
}.

#[export] Instance StateMachineSnapshot_eq_dec : EqDecision StateMachineSnapshot.
Proof. solve_decision. Defined.

(** ** Messages *)

Record RequestVote := mkRequestVote {
  rv_term : Term;
  rv_candidate_id : NodeId;
  rv_last_log_index : LogIndex;
  rv_last_log_term : Term;
}.

Record RequestVoteResponse := mkRequestVoteResponse {
  rvr_term : Term;
  rvr_vote_granted : bool;
}.

Record AppendEntries := mkAppendEntries {
  ae_term : Term;
  ae_leader_id : NodeId;
  ae_previous_log_index : LogIndex;
  ae_previous_log_term : Term;
  ae_entries : list LogEntry;
  ae_leader_commit : LogIndex;
  ae_rpc_id : RpcId;
}.

Record AppendEntriesResponse := mkAppendEntriesResponse {
  aer_term : Term;
  aer_success : bool;
  aer_match_index : LogIndex;
  aer_reject_hint : LogIndex;
  aer_rpc_id : RpcId;
}.

Record InstallSnapshot := mkInstallSnapshot {
  ins_term : Term;
  ins_leader_id : NodeId;
  ins_last_included_index : LogIndex;
  ins_last_included_term : Term;
  ins_total_size : Z;
  ins_offset : Z;
  ins_data : list byte;
  ins_done : bool;
  ins_rpc_id : RpcId;
}.

Record InstallSnapshotResponse := mkInstallSnapshotResponse {
  insr_term : Term;
  insr_success : bool;
  insr_last_included_index : LogIndex;
  insr_next_offset : Z;
  insr_rpc_id : RpcId;
}.

Inductive Message :=
| MRequestVote (m : RequestVote)
| MRequestVoteResponse (m : RequestVoteResponse)
| MAppendEntries (m : AppendEntries)
| MAppendEntriesResponse (m : AppendEntriesResponse)
| MInstallSnapshot (m : InstallSnapshot)
| MInstallSnapshotResponse (m : InstallSnapshotResponse).

#[export] Instance RequestVote_eq_dec : EqDecision RequestVote.
Proof. solve_decision. Defined.
#[export] Instance RequestVoteResponse_eq_dec : EqDecision RequestVoteResponse.
Proof. solve_decision. Defined.
#[export] Instance AppendEntries_eq_dec : EqDecision AppendEntries.
Proof. solve_decision. Defined.
#[export] Instance AppendEntriesResponse_eq_dec : EqDecision AppendEntriesResponse.
Proof. solve_decision. Defined.
#[export] Instance InstallSnapshot_eq_dec : EqDecision InstallSnapshot.
Proof. solve_decision. Defined.
#[export] Instance InstallSnapshotResponse_eq_dec : EqDecision InstallSnapshotResponse.
Proof. solve_decision. Defined.
#[export] Instance Message_eq_dec : EqDecision Message.
Proof. solve_decision. Defined.

(** ** Actions *)

Inductive Action :=
| SendMessage (to : NodeId) (message : Message)
| PersistHardState (term : Term) (voted_for : option NodeId)
| PersistLog (from_index : LogIndex) (entries : list LogEntry)
| PersistSnapshot (snapshot : StateMachineSnapshot)
| RoleChanged (from to : Role) (term : Term) (leader_id : option NodeId)
| CommitAdvanced (from_index to_index : LogIndex)
| ApplyEntry (entry : LogEntry)
| ApplySnapshot (snapshot : StateMachineSnapshot)
| ProposalRejected (leader_id : option NodeId).

Abbreviation Actions := (list Action).

#[export] Instance Action_eq_dec : EqDecision Action.
Proof. solve_decision. Defined.

(** ** Leader bookkeeping *)

Record RpcRange := mkRpcRange {
  rr_rpc_id : RpcId;
  rr_last_index : LogIndex;
}.

Record SnapshotRpcRange := mkSnapshotRpcRange {
  sr_rpc_id : RpcId;
  sr_snapshot_index : LogIndex;
  sr_offset : Z;
  sr_end : Z;
}.

Record PeerProgress := mkPeerProgress {
  pp_next_index : LogIndex;
  pp_match_index : LogIndex;
  pp_newest_rpc_id : RpcId;
  pp_newest_rpc_last_index : LogIndex;
  pp_recent_rpcs : list RpcRange;
  pp_snapshot_index : LogIndex;
  pp_snapshot_offset : Z;
  pp_recent_snapshot_rpcs : list SnapshotRpcRange;
}.

(** ** Configuration and persistent state *)

Record RaftConfig := mkRaftConfig {
  cfg_self_id : NodeId;
  cfg_cluster_id : Z;
  cfg_voters : list NodeId;
  cfg_election_timeout_min : LogicalTime;
  cfg_election_timeout_max : LogicalTime;
  cfg_heartbeat_interval : LogicalTime;
  cfg_random_seed : Z;
  cfg_max_append_entries : Z;
  cfg_max_append_bytes : Z;
}.

Record RaftPersistentState := mkRaftPersistentState {
  ps_current_term : Term;
  ps_voted_for : option NodeId;
  ps_snapshot : option StateMachineSnapshot;
  ps_log : list LogEntry;
}.

#[export] Instance RaftPersistentState_eq_dec : EqDecision RaftPersistentState.
Proof. solve_decision. Defined.

(** The default-constructed [RaftPersistentState{}]. *)
Definition empty_persistent_state : RaftPersistentState :=
  mkRaftPersistentState 0 None None [].

(** What [RaftNode::snapshot] and [RaftNode::status] report. *)
Record RaftSnapshot := mkRaftSnapshot {
  rs_self_id : NodeId;
  rs_role : Role;
  rs_current_term : Term;
  rs_voted_for : option NodeId;
  rs_leader_id : option NodeId;
  rs_durable_snapshot : option StateMachineSnapshot;
  rs_log : list LogEntry;
  rs_commit_index : LogIndex;
  rs_last_applied : LogIndex;
  rs_now : LogicalTime;
  rs_election_deadline : LogicalTime;
  rs_heartbeat_deadline : LogicalTime;
}.

Record RaftStatus := mkRaftStatus {
  rst_self_id : NodeId;
  rst_role : Role;
  rst_current_term : Term;
  rst_leader_id : option NodeId;
  rst_commit_index : LogIndex;
  rst_last_applied : LogIndex;
  rst_last_log_index : LogIndex;
  rst_retained_log_records : Z;
}.
