(* ===== verification/RaftFormat.v ===== *)
(** * The files of a Raft store

    The encodings of [src/raft/raft_storage.cpp] (hard state, identity marker,
    journal header, journal transactions) and of [src/raft/snapshot_store.cpp]
    (snapshot header), and [apply_log_update], the effect of a transaction on
    the persistent state. *)

From S2P Require Import Prelude Wire Checksum Protocol RaftTypes.

Module RaftFormat.

Definition kHardMagic : Z := 1179797587.
Definition kIdentityMagic : Z := 1179797828.
Definition kLogMagic : Z := 1179798599.
Definition kLogRecordMagic : Z := 1179798610.
Definition kFormatVersion : Z := 2.
Definition kLogFormatVersion : Z := 3.
Definition kHardStateSize : nat := 60.
Definition kIdentitySize : nat := 40.
Definition kLogHeaderSize : nat := 52.
Definition kLogRecordHeaderSize : nat := 32.
Definition kEntryHeaderSize : nat := 24.

Definition kMaxRaftCommandSize : Z := kMaxClientCommandSize.
Definition kMaxRaftLogEntriesPerRecord : Z := 4096.
Definition kMaxRaftLogRecordSize : Z := 64 * 1024 * 1024.

Definition kSnapshotMagic : Z := 1179800398.
Definition kSnapshotFormatVersion : Z := 1.
Definition kSnapshotHeaderSize : nat := 64.
Definition kMaxSnapshotPayloadSize : Z := 512 * 1024 * 1024.

Definition corruption : exn := raft_storage_error raft_corruption.

Definition checksum_without_tail (bytes : list byte) : Z := crc32 (take (length bytes - 4) bytes).

Definition log_record_checksum (bytes : list byte) : Z :=
  let checksum := Crc32_update Crc32_init (take 28 bytes) in
  let checksum := Crc32_update checksum (drop kLogRecordHeaderSize bytes) in
  Crc32_value checksum.

(** ** Hard state *)

(** [record.voted_for.has_value() ? 1U : 0U] *)
Definition vote_flag (voted_for : option NodeId) : Z :=
  match voted_for with Some _ => 1 | None => 0 end.

Record HardRecord : Set := {
  hr_generation : Z;
  hr_term : Term;
  hr_voted_for : option NodeId
}.

#[export] Instance HardRecord_eq_dec : EqDecision HardRecord.
Proof. solve_decision. Defined.

Definition encode_hard_state (cluster_id : Z) (node_id : NodeId) (record : HardRecord) : list byte :=
  let bytes := zero_bytes kHardStateSize in
  let bytes := write_at 0 (write_u32 kHardMagic) bytes in
  let bytes := write_at 4 (write_u16 kFormatVersion) bytes in
  let bytes := write_at 6 (write_u16 (vote_flag (hr_voted_for record))) bytes in
  let bytes := write_at 8 (write_u32 (u32 (Z.of_nat kHardStateSize))) bytes in
  let bytes := write_at 16 (write_u64 cluster_id) bytes in
  let bytes := write_at 24 (write_u64 node_id) bytes in
  let bytes := write_at 32 (write_u64 (hr_generation record)) bytes in
  let bytes := write_at 40 (write_u64 (hr_term record)) bytes in
  let bytes := write_at 48 (write_u64 (default 0 (hr_voted_for record))) bytes in
  write_at 56 (write_u32 (checksum_without_tail bytes)) bytes.

Definition decode_hard_state (bytes : list byte) (cluster_id : Z) (node_id : NodeId)
    : option HardRecord :=
  if negb (Nat.eqb (length bytes) kHardStateSize) ||
     negb (read_u32 (subspan 0 4 bytes) =? kHardMagic) ||
     negb (read_u16 (subspan 4 2 bytes) =? kFormatVersion) ||
     negb (read_u32 (subspan 8 4 bytes) =? Z.of_nat kHardStateSize) ||
     negb (read_u32 (subspan 12 4 bytes) =? 0) ||
     negb (read_u64 (subspan 16 8 bytes) =? cluster_id) ||
     negb (read_u64 (subspan 24 8 bytes) =? node_id) ||
     negb (read_u32 (subspan 56 4 bytes) =? checksum_without_tail bytes)
  then None
  else
    let flags := read_u16 (subspan 6 2 bytes) in
    let generation := read_u64 (subspan 32 8 bytes) in
    let term := read_u64 (subspan 40 8 bytes) in
    let vote := read_u64 (subspan 48 8 bytes) in
    if (1 <? flags) || (generation =? 0) || ((flags =? 0) && negb (vote =? 0)) ||
       ((flags =? 1) && (vote =? 0)) || ((term =? 0) && (flags =? 1))
    then None
    else Some {| hr_generation := generation; hr_term := term;
                 hr_voted_for := if flags =? 1 then Some vote else None |}.

(** ** Identity marker *)

Definition encode_identity (cluster_id : Z) (node_id : NodeId) (membership_fingerprint : Z)
    : list byte :=
  let bytes := zero_bytes kIdentitySize in
  let bytes := write_at 0 (write_u32 kIdentityMagic) bytes in
  let bytes := write_at 4 (write_u16 kFormatVersion) bytes in
  let bytes := write_at 6 (write_u16 (u16 (Z.of_nat kIdentitySize))) bytes in
  let bytes := write_at 8 (write_u64 cluster_id) bytes in
  let bytes := write_at 16 (write_u64 node_id) bytes in
  let bytes := write_at 24 (write_u64 membership_fingerprint) bytes in
  write_at 36 (write_u32 (checksum_without_tail bytes)) bytes.

Definition verify_identity (bytes : list byte) (cluster_id : Z) (node_id : NodeId)
    (membership_fingerprint : Z) : result unit :=
  if negb (Nat.eqb (length bytes) kIdentitySize) ||
     negb (read_u32 (subspan 0 4 bytes) =? kIdentityMagic) ||
     negb (read_u16 (subspan 4 2 bytes) =? kFormatVersion) ||
     negb (read_u16 (subspan 6 2 bytes) =? Z.of_nat kIdentitySize) ||
     negb (read_u64 (subspan 8 8 bytes) =? cluster_id) ||
     negb (read_u64 (subspan 16 8 bytes) =? node_id) ||
     negb (read_u64 (subspan 24 8 bytes) =? membership_fingerprint) ||
     negb (read_u32 (subspan 32 4 bytes) =? 0) ||
     negb (read_u32 (subspan 36 4 bytes) =? checksum_without_tail bytes)
  then Throw corruption
  else Ok tt.

(** ** Journal header *)

Definition encode_log_header (cluster_id : Z) (node_id : NodeId) (membership_fingerprint : Z)
    (required_snapshot : option StateMachineSnapshot) : list byte :=
  let bytes := zero_bytes kLogHeaderSize in
  let bytes := write_at 0 (write_u32 kLogMagic) bytes in
  let bytes := write_at 4 (write_u16 kLogFormatVersion) bytes in
  let bytes := write_at 6 (write_u16 (u16 (Z.of_nat kLogHeaderSize))) bytes in
  let bytes := write_at 8 (write_u64 cluster_id) bytes in
  let bytes := write_at 16 (write_u64 node_id) bytes in
  let bytes := write_at 24 (write_u64 membership_fingerprint) bytes in
  let bytes := write_at 32 (write_u64 (match required_snapshot with
                                       | Some s => sm_last_included_index s
                                       | None => 0
                                       end)) bytes in
  let bytes := write_at 40 (write_u64 (match required_snapshot with
                                       | Some s => sm_last_included_term s
                                       | None => 0
                                       end)) bytes in
  write_at 48 (write_u32 (checksum_without_tail bytes)) bytes.

Definition verify_log_header (bytes : list byte) (cluster_id : Z) (node_id : NodeId)
    (membership_fingerprint : Z) : result (option (LogIndex * Term)) :=
  let required_index := read_u64 (subspan 32 8 bytes) in
  let required_term := read_u64 (subspan 40 8 bytes) in
  if negb (Nat.eqb (length bytes) kLogHeaderSize) ||
     negb (read_u32 (subspan 0 4 bytes) =? kLogMagic) ||
     negb (read_u16 (subspan 4 2 bytes) =? kLogFormatVersion) ||
     negb (read_u16 (subspan 6 2 bytes) =? Z.of_nat kLogHeaderSize) ||
     negb (read_u64 (subspan 8 8 bytes) =? cluster_id) ||
     negb (read_u64 (subspan 16 8 bytes) =? node_id) ||
     negb (read_u64 (subspan 24 8 bytes) =? membership_fingerprint) ||
     negb (read_u32 (subspan 48 4 bytes) =? checksum_without_tail bytes) ||
     negb (Bool.eqb (required_index =? 0) (required_term =? 0))
  then Throw corruption
  else if required_index =? 0 then Ok None
  else Ok (Some (required_index, required_term)).

(** ** Journal transactions *)

(** An entry as it is stored: [EntryKind] has a fixed underlying type, so an
    entry read from the journal holds any byte as its kind. *)
Record StoredEntry : Set := {
  se_index : LogIndex;
  se_term : Term;
  se_kind : byte;
  se_command : list byte
}.

#[export] Instance StoredEntry_eq_dec : EqDecision StoredEntry.
Proof. solve_decision. Defined.

Definition kind_byte (k : EntryKind) : byte :=
  match k with
  | command => Byte.x00
  | no_op => Byte.x01
  end.

Definition entry_kind (b : byte) : option EntryKind :=
  match b with
  | Byte.x00 => Some command
  | Byte.x01 => Some no_op
  | _ => None
  end.

Definition stored (e : LogEntry) : StoredEntry :=
  {| se_index := le_index e; se_term := le_term e; se_kind := kind_byte (le_kind e);
     se_command := le_command e |}.

Definition entry_of (s : StoredEntry) : LogEntry :=
  {| le_index := se_index s; le_term := se_term s;
     le_kind := default command (entry_kind (se_kind s)); le_command := se_command s |}.

(** [PersistLog] over stored entries. *)
Record LogUpdate : Set := {
  lu_from_index : LogIndex;
  lu_entries : list StoredEntry
}.

Definition snapshot_base (s : option StateMachineSnapshot) : LogIndex :=
  match s with Some d => sm_last_included_index d | None => 0 end.
Definition snapshot_base_term (s : option StateMachineSnapshot) : Term :=
  match s with Some d => sm_last_included_term d | None => 0 end.

(** The loop over the entries: whether none is rejected. *)
Fixpoint entries_accepted (base_index : LogIndex) (base_term current_term : Term)
    (expected_index : LogIndex) (previous_term : Term) (encoded_size : Z)
    (entries : list StoredEntry) : bool :=
  match entries with
  | [] => true
  | entry :: rest =>
      let size := size_of (se_command entry) in
      if negb (se_index entry =? expected_index) || (se_term entry =? 0) ||
         (se_term entry <? previous_term) || (current_term <? se_term entry) ||
         negb (bool_decide (is_Some (entry_kind (se_kind entry)))) ||
         (kMaxRaftCommandSize <? size) ||
         (bool_decide (entry_kind (se_kind entry) = Some no_op) && negb (size =? 0))
      then false
      else if (kMaxRaftLogRecordSize - Z.of_nat kEntryHeaderSize <? encoded_size) ||
              (kMaxRaftLogRecordSize - encoded_size - Z.of_nat kEntryHeaderSize <? size)
      then false
      else if (se_index entry =? base_index) && negb (se_term entry =? base_term)
      then false
      else entries_accepted base_index base_term current_term (u64 (expected_index + 1))
             (se_term entry) (encoded_size + Z.of_nat kEntryHeaderSize + size) rest
  end.

Definition apply_log_update (state : RaftPersistentState) (update : LogUpdate)
    (error_code : RaftStorageErrorCode) : result RaftPersistentState :=
  let reject := Throw (raft_storage_error error_code) in
  let base_index := snapshot_base (ps_snapshot state) in
  let base_term := snapshot_base_term (ps_snapshot state) in
  let last_index := u64 (base_index + size_of (ps_log state)) in
  let from_index := lu_from_index update in
  let entries := lu_entries update in
  if (from_index =? 0) ||
     ((base_index <? from_index) && (u64 (last_index + 1) <? from_index)) ||
     (kMaxRaftLogEntriesPerRecord <? size_of entries)
  then reject
  else
    let previous_term :=
      if from_index =? u64 (base_index + 1) then base_term
      else if u64 (base_index + 1) <? from_index then
        match ps_log state !! Z.to_nat (from_index - base_index - 2) with
        | Some e => le_term e
        | None => 0
        end
      else 0 in
    if negb (entries_accepted base_index base_term (ps_current_term state) from_index previous_term
               (Z.of_nat kLogRecordHeaderSize) entries)
    then reject
    else
      match last entries with
      | None => Ok state
      | Some back =>
          if se_index back <=? base_index then Ok state
          else
            let retained_from := Z.max from_index (u64 (base_index + 1)) in
            if u64 (last_index + 1) <? retained_from then reject
            else
              let skip := Z.to_nat (retained_from - from_index) in
              Ok (mkRaftPersistentState (ps_current_term state) (ps_voted_for state)
                    (ps_snapshot state)
                    (take (Z.to_nat (retained_from - base_index - 1)) (ps_log state) ++
                     map entry_of (drop skip entries)))
      end.

(** The size [encode_log_update] computes. *)
Definition update_size (entries : list StoredEntry) : nat :=
  fold_left (fun size entry => size + (kEntryHeaderSize + length (se_command entry)))%nat entries
    kLogRecordHeaderSize.

(** The loop that stores the entries from [offset] on. *)
Fixpoint write_entries (entries : list StoredEntry) (offset : nat) (bytes : list byte) : list byte :=
  match entries with
  | [] => bytes
  | entry :: rest =>
      let bytes := write_at offset (write_u64 (se_index entry)) bytes in
      let bytes := write_at (offset + 8) (write_u64 (se_term entry)) bytes in
      let bytes := write_at (offset + 16) [se_kind entry] bytes in
      let bytes := write_at (offset + 20) (write_u32 (u32 (size_of (se_command entry)))) bytes in
      let bytes := write_at (offset + kEntryHeaderSize) (se_command entry) bytes in
      write_entries rest (offset + (kEntryHeaderSize + length (se_command entry))) bytes
  end.

Definition encode_log_update (update : LogUpdate) : list byte :=
  let size := update_size (lu_entries update) in
  let bytes := zero_bytes size in
  let bytes := write_at 0 (write_u32 kLogRecordMagic) bytes in
  let bytes := write_at 4 (write_u16 kFormatVersion) bytes in
  let bytes := write_at 6 (write_u16 (u16 (Z.of_nat kLogRecordHeaderSize))) bytes in
  let bytes := write_at 8 (write_u32 (u32 (Z.of_nat size))) bytes in
  let bytes := write_at 12 (write_u32 (u32 (size_of (lu_entries update)))) bytes in
  let bytes := write_at 16 (write_u64 (lu_from_index update)) bytes in
  let bytes := write_at 24 (write_u32 (crc32 (take 24 bytes))) bytes in
  let bytes := write_entries (lu_entries update) kLogRecordHeaderSize bytes in
  write_at 28 (write_u32 (log_record_checksum bytes)) bytes.

(** The loop of [decode_log_update] over [count] entries: the entries and the
    offset after them. *)
Fixpoint read_entries (count : nat) (bytes : list byte) (offset : nat)
    : result (list StoredEntry * nat) :=
  match count with
  | O => Ok ([], offset)
  | S count' =>
      if Nat.ltb (length bytes - offset) kEntryHeaderSize then Throw corruption
      else
        let payload_size := read_u32 (subspan (offset + 20) 4 bytes) in
        if (kMaxRaftCommandSize <? payload_size) ||
           (Z.of_nat (length bytes - offset - kEntryHeaderSize) <? payload_size) ||
           negb (Byte.eqb (byte_at bytes (offset + 17)) Byte.x00) ||
           negb (Byte.eqb (byte_at bytes (offset + 18)) Byte.x00) ||
           negb (Byte.eqb (byte_at bytes (offset + 19)) Byte.x00)
        then Throw corruption
        else
          let entry :=
            {| se_index := read_u64 (subspan offset 8 bytes);
               se_term := read_u64 (subspan (offset + 8) 8 bytes);
               se_kind := byte_at bytes (offset + 16);
               se_command := subspan (offset + kEntryHeaderSize) (Z.to_nat payload_size) bytes |} in
          match read_entries count' bytes (offset + (kEntryHeaderSize + Z.to_nat payload_size)) with
          | Throw e => Throw e
          | Ok (entries, offset') => Ok (entry :: entries, offset')
          end
  end.

Definition decode_log_update (bytes : list byte) : result LogUpdate :=
  if Nat.ltb (length bytes) kLogRecordHeaderSize ||
     negb (read_u32 (subspan 0 4 bytes) =? kLogRecordMagic) ||
     negb (read_u16 (subspan 4 2 bytes) =? kFormatVersion) ||
     negb (read_u16 (subspan 6 2 bytes) =? Z.of_nat kLogRecordHeaderSize) ||
     negb (read_u32 (subspan 8 4 bytes) =? size_of bytes) ||
     negb (read_u32 (subspan 24 4 bytes) =? crc32 (take 24 bytes)) ||
     negb (read_u32 (subspan 28 4 bytes) =? log_record_checksum bytes)
  then Throw corruption
  else
    let entry_count := read_u32 (subspan 12 4 bytes) in
    if kMaxRaftLogEntriesPerRecord <? entry_count then Throw corruption
    else
      match read_entries (Z.to_nat entry_count) bytes kLogRecordHeaderSize with
      | Throw e => Throw e
      | Ok (entries, offset) =>
          if negb (Nat.eqb offset (length bytes)) then Throw corruption
          else Ok {| lu_from_index := read_u64 (subspan 16 8 bytes); lu_entries := entries |}
      end.

Definition verify_log_record_header (bytes : list byte) : result unit :=
  if negb (Nat.eqb (length bytes) kLogRecordHeaderSize) ||
     negb (read_u32 (subspan 0 4 bytes) =? kLogRecordMagic) ||
     negb (read_u16 (subspan 4 2 bytes) =? kFormatVersion) ||
     negb (read_u16 (subspan 6 2 bytes) =? Z.of_nat kLogRecordHeaderSize) ||
     negb (read_u32 (subspan 24 4 bytes) =? crc32 (take 24 bytes))
  then Throw corruption
  else Ok tt.

(** ** Snapshot header *)

Definition header (cluster_id : Z) (node_id : NodeId) (membership_fingerprint : Z)
    (snapshot : StateMachineSnapshot) : list byte :=
  let result := zero_bytes kSnapshotHeaderSize in
  let result := write_at 0 (write_u32 kSnapshotMagic) result in
  let result := write_at 4 (write_u16 kSnapshotFormatVersion) result in
  let result := write_at 6 (write_u16 (u16 (Z.of_nat kSnapshotHeaderSize))) result in
  let result := write_at 8 (write_u64 cluster_id) result in
  let result := write_at 16 (write_u64 node_id) result in
  let result := write_at 24 (write_u64 membership_fingerprint) result in
  let result := write_at 32 (write_u64 (sm_last_included_index snapshot)) result in
  let result := write_at 40 (write_u64 (sm_last_included_term snapshot)) result in
  let result := write_at 48 (write_u64 (size_of (sm_state_machine snapshot))) result in
  let result := write_at 56 (write_u32 (crc32 (sm_state_machine snapshot))) result in
  write_at 60 (write_u32 (crc32 (take 60 result))) result.

(** ** Layouts *)

#[global] Arguments encode_hard_state : simpl never.
#[global] Arguments decode_hard_state : simpl never.
#[global] Arguments encode_identity : simpl never.
#[global] Arguments verify_identity : simpl never.
#[global] Arguments encode_log_header : simpl never.
#[global] Arguments verify_log_header : simpl never.
#[global] Arguments encode_log_update : simpl never.
#[global] Arguments decode_log_update : simpl never.
#[global] Arguments verify_log_record_header : simpl never.
#[global] Arguments header : simpl never.

Lemma crc32_range l : is_u32 (crc32 l).
Proof. apply Crc32_value_range; eauto with forge. Qed.

Lemma checksum_without_tail_app head c :
  checksum_without_tail (head ++ write_u32 c) = crc32 head.
Proof.
  unfold checksum_without_tail. rewrite length_app, length_write_u32.
  by rewrite take_app_length' by lia.
Qed.

(** The records a store writes: generations count from one, a vote names a
    node and belongs to a term. *)
Definition valid_hard (r : HardRecord) : Prop :=
  is_u64 (hr_generation r) /\ is_u64 (hr_term r) /\ hr_generation r <> 0 /\
  match hr_voted_for r with
  | Some v => is_u64 v /\ v <> 0 /\ hr_term r <> 0
  | None => True
  end.

Definition hard_head (cluster_id : Z) (node_id : NodeId) (r : HardRecord) : list byte :=
  write_u32 kHardMagic ++ write_u16 kFormatVersion ++ write_u16 (vote_flag (hr_voted_for r)) ++
  write_u32 (Z.of_nat kHardStateSize) ++ zero_bytes 4 ++ write_u64 cluster_id ++ write_u64 node_id ++
  write_u64 (hr_generation r) ++ write_u64 (hr_term r) ++ write_u64 (default 0 (hr_voted_for r)).

Definition identity_head (cluster_id : Z) (node_id : NodeId) (fingerprint : Z) : list byte :=
  write_u32 kIdentityMagic ++ write_u16 kFormatVersion ++ write_u16 (Z.of_nat kIdentitySize) ++
  write_u64 cluster_id ++ write_u64 node_id ++ write_u64 fingerprint ++ zero_bytes 4.

Definition log_head (cluster_id : Z) (node_id : NodeId) (fingerprint : Z)
    (required : option StateMachineSnapshot) : list byte :=
  write_u32 kLogMagic ++ write_u16 kLogFormatVersion ++ write_u16 (Z.of_nat kLogHeaderSize) ++
  write_u64 cluster_id ++ write_u64 node_id ++ write_u64 fingerprint ++
  write_u64 (snapshot_base required) ++ write_u64 (snapshot_base_term required).

Lemma encode_hard_state_head cid nid r :
  encode_hard_state cid nid r = hard_head cid nid r ++ write_u32 (crc32 (hard_head cid nid r)).
Proof.
  unfold encode_hard_state, hard_head. rewrite (u32_small (Z.of_nat kHardStateSize)) by done.
  reflexivity.
Qed.

Lemma encode_identity_head cid nid fp :
  encode_identity cid nid fp = identity_head cid nid fp ++ write_u32 (crc32 (identity_head cid nid fp)).
Proof. reflexivity. Qed.

Lemma encode_log_header_head cid nid fp req :
  encode_log_header cid nid fp req =
  log_head cid nid fp req ++ write_u32 (crc32 (log_head cid nid fp req)).
Proof. destruct req; reflexivity. Qed.

(** ** Round trips *)

Section Identified.
Context (cid : Z) (nid : NodeId) (fp : Z).
Hypothesis cid_u64 : is_u64 cid.
Hypothesis nid_u64 : is_u64 nid.
Hypothesis fp_u64 : is_u64 fp.

Lemma decode_encode_hard_state r :
  valid_hard r -> decode_hard_state (encode_hard_state cid nid r) cid nid = Some r.
Proof.
  intros (Hg & Ht & Hg0 & Hv). rewrite encode_hard_state_head.
  set (head := hard_head cid nid r). unfold decode_hard_state. rewrite checksum_without_tail_app.
  change (subspan 6 2 _) with (write_u16 (vote_flag (hr_voted_for r)) ++ []).
  change (subspan 16 8 _) with (write_u64 cid ++ []). change (subspan 24 8 _) with (write_u64 nid ++ []).
  change (subspan 32 8 _) with (write_u64 (hr_generation r) ++ []).
  change (subspan 40 8 _) with (write_u64 (hr_term r) ++ []).
  change (subspan 48 8 _) with (write_u64 (default 0 (hr_voted_for r)) ++ []).
  change (subspan 56 4 _) with (write_u32 (crc32 head) ++ []).
  change (length _) with kHardStateSize.
  change (read_u32 (subspan 0 4 _)) with kHardMagic.
  change (read_u16 (subspan 4 2 _)) with kFormatVersion.
  change (read_u32 (subspan 8 4 _)) with (Z.of_nat kHardStateSize).
  change (read_u32 (subspan 12 4 _)) with 0.
  rewrite !read_write_u64, read_write_u32, Nat.eqb_refl, !Z.eqb_refl
    by (try apply crc32_range; destruct (hr_voted_for r); cbn; tauto || (unfold is_u64; lia)).
  cbn [negb orb]. rewrite (proj2 (Z.eqb_neq (hr_generation r) 0)) by done.
  destruct r as [g t [v|]]; cbn [hr_generation hr_term hr_voted_for from_option id vote_flag] in *.
  - destruct Hv as (_ & Hv & Ht0). rewrite read_write_u16 by done.
    by rewrite (proj2 (Z.eqb_neq v 0)), (proj2 (Z.eqb_neq t 0)) by done.
  - rewrite read_write_u16 by done. cbn. by rewrite andb_false_r.
Qed.

Lemma verify_encode_identity : verify_identity (encode_identity cid nid fp) cid nid fp = Ok tt.
Proof.
  rewrite encode_identity_head. set (head := identity_head cid nid fp). unfold verify_identity.
  rewrite checksum_without_tail_app.
  change (subspan 8 8 _) with (write_u64 cid ++ []). change (subspan 16 8 _) with (write_u64 nid ++ []).
  change (subspan 24 8 _) with (write_u64 fp ++ []).
  change (subspan 36 4 _) with (write_u32 (crc32 head) ++ []).
  change (length _) with kIdentitySize.
  change (read_u32 (subspan 0 4 _)) with kIdentityMagic.
  change (read_u16 (subspan 4 2 _)) with kFormatVersion.
  change (read_u16 (subspan 6 2 _)) with (Z.of_nat kIdentitySize).
  change (read_u32 (subspan 32 4 _)) with 0.
  by rewrite !read_write_u64, read_write_u32, Nat.eqb_refl, !Z.eqb_refl
    by (try apply crc32_range; done).
Qed.

(** The snapshot a journal header names: its boundary. *)
Definition required_of (s : option StateMachineSnapshot) : option (LogIndex * Term) :=
  match s with
  | Some d => Some (sm_last_included_index d, sm_last_included_term d)
  | None => None
  end.

(** A snapshot boundary: an index and a term from one on, below the largest
    index. *)
Definition valid_boundary (s : StateMachineSnapshot) : Prop :=
  0 < sm_last_included_index s < u64_max /\ 0 < sm_last_included_term s <= u64_max.

Lemma verify_encode_log_header req :
  match req with Some s => valid_boundary s | None => True end ->
  verify_log_header (encode_log_header cid nid fp req) cid nid fp = Ok (required_of req).
Proof.
  intros Hreq. rewrite encode_log_header_head. set (head := log_head cid nid fp req).
  unfold verify_log_header. rewrite checksum_without_tail_app.
  change (subspan 8 8 _) with (write_u64 cid ++ []). change (subspan 16 8 _) with (write_u64 nid ++ []).
  change (subspan 24 8 _) with (write_u64 fp ++ []).
  change (subspan 32 8 _) with (write_u64 (snapshot_base req) ++ []).
  change (subspan 40 8 _) with (write_u64 (snapshot_base_term req) ++ []).
  change (subspan 48 4 _) with (write_u32 (crc32 head) ++ []).
  change (length _) with kLogHeaderSize.
  change (read_u32 (subspan 0 4 _)) with kLogMagic.
  change (read_u16 (subspan 4 2 _)) with kLogFormatVersion.
  change (read_u16 (subspan 6 2 _)) with (Z.of_nat kLogHeaderSize).
  assert (is_u64 (snapshot_base req) /\ is_u64 (snapshot_base_term req)) as [? ?].
  { destruct req as [s|]; cbn; [|by vm_compute].
    unfold valid_boundary, is_u64, u64_max in *. lia. }
  rewrite !read_write_u64, read_write_u32, Nat.eqb_refl, !Z.eqb_refl
    by (try apply crc32_range; done). cbn [negb orb].
  destruct req as [s|]; cbn in *; [|done]. destruct Hreq as [Hi Ht].
  by rewrite (proj2 (Z.eqb_neq (sm_last_included_index s) 0)),
    (proj2 (Z.eqb_neq (sm_last_included_term s) 0)) by lia.
Qed.
End Identified.

(** ** Transactions *)

Definition entry_bytes (e : StoredEntry) : list byte :=
  write_u64 (se_index e) ++ write_u64 (se_term e) ++ [se_kind e] ++ zero_bytes 3 ++
  write_u32 (size_of (se_command e)) ++ se_command e.

Definition body_bytes (entries : list StoredEntry) : list byte := concat (map entry_bytes entries).

Definition update_head (u : LogUpdate) : list byte :=
  write_u32 kLogRecordMagic ++ write_u16 kFormatVersion ++ write_u16 (Z.of_nat kLogRecordHeaderSize) ++
  write_u32 (32 + size_of (body_bytes (lu_entries u))) ++ write_u32 (size_of (lu_entries u)) ++
  write_u64 (lu_from_index u).

Definition update_bytes (u : LogUpdate) : list byte :=
  let body := body_bytes (lu_entries u) in
  let start := update_head u ++ write_u32 (crc32 (update_head u)) in
  start ++ write_u32 (crc32 (start ++ body)) ++ body.

#[global] Arguments entry_bytes : simpl never.
#[global] Arguments body_bytes : simpl never.
#[global] Arguments update_head : simpl never.
#[global] Arguments update_bytes : simpl never.

Definition valid_entry (e : StoredEntry) : Prop :=
  is_u64 (se_index e) /\ is_u64 (se_term e) /\ size_of (se_command e) <= kMaxRaftCommandSize.

Definition valid_update (u : LogUpdate) : Prop :=
  is_u64 (lu_from_index u) /\ Forall valid_entry (lu_entries u) /\
  size_of (lu_entries u) <= kMaxRaftLogEntriesPerRecord /\
  32 + size_of (body_bytes (lu_entries u)) <= kMaxRaftLogRecordSize.

Lemma length_entry_bytes e : length (entry_bytes e) = (kEntryHeaderSize + length (se_command e))%nat.
Proof. done. Qed.

Lemma body_bytes_cons e es : body_bytes (e :: es) = entry_bytes e ++ body_bytes es.
Proof. done. Qed.

Lemma body_bytes_app a b : body_bytes (a ++ b) = body_bytes a ++ body_bytes b.
Proof. unfold body_bytes. by rewrite map_app, concat_app. Qed.

Lemma update_size_body entries : update_size entries = (32 + length (body_bytes entries))%nat.
Proof.
  unfold update_size, kLogRecordHeaderSize. generalize 32%nat as n.
  induction entries as [|e es IH]; intros n; cbn [fold_left]; [by rewrite Nat.add_0_r|].
  rewrite IH, body_bytes_cons, length_app, length_entry_bytes. lia.
Qed.

Lemma valid_entry_u32 e : valid_entry e -> is_u32 (size_of (se_command e)).
Proof.
  intros (_ & _ & H). pose proof (size_of_nonneg (se_command e)).
  unfold kMaxRaftCommandSize, kMaxClientCommandSize, kMaxKeySize, kMaxValueSize, is_u32 in *. lia.
Qed.

(** One entry stored into a zeroed region. *)
Lemma write_entry e pre n :
  valid_entry e ->
  write_at (length pre + kEntryHeaderSize) (se_command e)
    (write_at (length pre + 20) (write_u32 (u32 (size_of (se_command e))))
       (write_at (length pre + 16) [se_kind e]
          (write_at (length pre + 8) (write_u64 (se_term e))
             (write_at (length pre) (write_u64 (se_index e))
                (pre ++ zero_bytes (length (entry_bytes e)) ++ n))))) =
  pre ++ entry_bytes e ++ n.
Proof.
  intros Hv. rewrite (u32_small _ (valid_entry_u32 e Hv)), length_entry_bytes.
  rewrite <- (Nat.add_0_r (length pre)) at 5.
  repeat (rewrite write_at_app_r by lia).
  replace (length pre + 0 - length pre)%nat with 0%nat by lia.
  replace (length pre + 8 - length pre)%nat with 8%nat by lia.
  replace (length pre + 16 - length pre)%nat with 16%nat by lia.
  replace (length pre + 20 - length pre)%nat with 20%nat by lia.
  replace (length pre + kEntryHeaderSize - length pre)%nat with 24%nat by (unfold kEntryHeaderSize; lia).
  f_equal. unfold entry_bytes, zero_bytes, kEntryHeaderSize. cbn [Nat.add replicate].
  explode_u64 (se_index e). explode_u64 (se_term e). explode_u32 (size_of (se_command e)).
  unfold write_at. cbn [take drop app length Nat.add]. rewrite take_0.
  by rewrite drop_0, (drop_app_length' (replicate _ _)) by by rewrite length_replicate.
Qed.

Lemma write_entries_body entries pre :
  Forall valid_entry entries ->
  write_entries entries (length pre) (pre ++ zero_bytes (length (body_bytes entries))) =
  pre ++ body_bytes entries.
Proof.
  revert pre. induction entries as [|e es IH]; intros pre Hv; cbn [write_entries]; [done|].
  apply Forall_cons in Hv as [He Hes].
  assert (zero_bytes (length (body_bytes (e :: es))) =
          zero_bytes (length (entry_bytes e)) ++ zero_bytes (length (body_bytes es))) as ->
    by (rewrite body_bytes_cons, length_app; apply replicate_add).
  rewrite write_entry, (assoc_L (++)), <- length_entry_bytes, <- length_app by done.
  by rewrite IH, body_bytes_cons, (assoc_L (++)).
Qed.

Lemma log_record_checksum_app start c body :
  length start = 28%nat ->
  log_record_checksum (start ++ write_u32 c ++ body) = crc32 (start ++ body).
Proof.
  intros Hs. unfold log_record_checksum, crc32, kLogRecordHeaderSize.
  rewrite take_app_length' by done.
  rewrite (assoc_L (++)), drop_app_length' by (rewrite length_app, length_write_u32; lia).
  by rewrite <- Crc32_update_app by apply Crc32_init_range.
Qed.

Lemma encode_log_update_bytes u : valid_update u -> encode_log_update u = update_bytes u.
Proof.
  intros (Hf & He & Hn & Hb). unfold encode_log_update. rewrite update_size_body.
  pose proof (size_of_nonneg (lu_entries u)). pose proof (size_of_nonneg (body_bytes (lu_entries u))).
  rewrite (u32_small (size_of _)), (u32_small (Z.of_nat _)), (u16_small (Z.of_nat _))
    by (unfold is_u32, is_u16, size_of, kMaxRaftLogEntriesPerRecord, kMaxRaftLogRecordSize in *; done || lia).
  replace (Z.of_nat (32 + length (body_bytes (lu_entries u))))
    with (32 + size_of (body_bytes (lu_entries u))) by (unfold size_of; lia).
  unfold zero_bytes. rewrite replicate_add. fold (zero_bytes (length (body_bytes (lu_entries u)))).
  set (zs := zero_bytes _).
  assert (write_entries (lu_entries u) kLogRecordHeaderSize
    ((update_head u ++ write_u32 (crc32 (update_head u)) ++ zero_bytes 4) ++ zs) =
    (update_head u ++ write_u32 (crc32 (update_head u)) ++ zero_bytes 4) ++ body_bytes (lu_entries u)) as Hw
    by by apply (write_entries_body (lu_entries u) (update_head u ++ write_u32 (crc32 (update_head u)) ++ zero_bytes 4)).
  change (write_at 28 (write_u32 (log_record_checksum (write_entries (lu_entries u) kLogRecordHeaderSize
    ((update_head u ++ write_u32 (crc32 (update_head u)) ++ zero_bytes 4) ++ zs))))
    (write_entries (lu_entries u) kLogRecordHeaderSize
    ((update_head u ++ write_u32 (crc32 (update_head u)) ++ zero_bytes 4) ++ zs)) = update_bytes u).
  rewrite Hw, (assoc_L (++)), <- (assoc_L (++) _ (zero_bytes 4)).
  set (start := update_head u ++ write_u32 (crc32 (update_head u))).
  rewrite (log_record_checksum_app start 0) by done.
  rewrite write_at_app_r by done. done.
Qed.

Lemma subspan_app_r pre k n rest : subspan (length pre + k) n (pre ++ rest) = subspan k n rest.
Proof. unfold subspan. by rewrite <- drop_drop, drop_app_length. Qed.

Lemma byte_at_app_r pre k rest : byte_at (pre ++ rest) (length pre + k) = byte_at rest k.
Proof. unfold byte_at. rewrite app_nth2_plus. done. Qed.

Lemma read_entries_body entries pre :
  Forall valid_entry entries ->
  read_entries (length entries) (pre ++ body_bytes entries) (length pre) =
  Ok (entries, length (pre ++ body_bytes entries)).
Proof.
  revert pre. induction entries as [|e es IH]; intros pre Hv; cbn [read_entries length].
  { by rewrite app_nil_r. }
  apply Forall_cons in Hv as [He Hes]. pose proof (valid_entry_u32 e He) as Hu.
  destruct He as (Hi & Ht & Hs).
  assert (length (body_bytes (e :: es)) = (24 + length (se_command e) + length (body_bytes es))%nat) as Hl
    by (rewrite body_bytes_cons, length_app, length_entry_bytes; done).
  rewrite (proj2 (Nat.ltb_ge _ _)) by (rewrite length_app; unfold kEntryHeaderSize; lia).
  assert (subspan (length pre) 8 (pre ++ body_bytes (e :: es)) = write_u64 (se_index e) ++ []) as ->
    by (unfold subspan; by rewrite drop_app_length).
  rewrite !subspan_app_r, !byte_at_app_r. set (b := body_bytes (e :: es)) in *.
  change (subspan 20 4 b) with (write_u32 (size_of (se_command e)) ++ []).
  change (byte_at b 16) with (se_kind e). change (byte_at b 17) with Byte.x00.
  change (byte_at b 18) with Byte.x00. change (byte_at b 19) with Byte.x00.
  change (subspan 8 8 b) with (write_u64 (se_term e) ++ []).
  assert (subspan kEntryHeaderSize (length (se_command e)) b = se_command e) as Hc.
  { unfold subspan. change (drop kEntryHeaderSize b) with (se_command e ++ body_bytes es).
    apply take_app_length. }
  rewrite read_write_u32, !read_write_u64 by done.
  rewrite (proj2 (Z.ltb_ge _ (size_of _))), (proj2 (Z.ltb_ge _ (size_of (se_command e))))
    by (try done; rewrite length_app; unfold size_of, kEntryHeaderSize; lia).
  change (Byte.eqb Byte.x00 Byte.x00) with true. cbn [negb orb].
  unfold size_of. rewrite Nat2Z.id, Hc.
  specialize (IH (pre ++ entry_bytes e) Hes).
  rewrite <- (assoc_L (++)), <- body_bytes_cons, (length_app pre (entry_bytes e)), length_entry_bytes in IH.
  fold b in IH. rewrite IH. by destruct e.
Qed.

Lemma update_start u : length (update_head u ++ write_u32 (crc32 (update_head u))) = 28%nat.
Proof. done. Qed.

Lemma length_update_bytes u : length (update_bytes u) = (32 + length (body_bytes (lu_entries u)))%nat.
Proof. unfold update_bytes. cbn zeta. rewrite !length_app, length_write_u32. done. Qed.

(** A transaction decodes to itself. *)
Lemma decode_log_update_bytes u : valid_update u -> decode_log_update (update_bytes u) = Ok u.
Proof.
  intros (Hf & He & Hn & Hb). unfold decode_log_update.
  pose proof (size_of_nonneg (lu_entries u)). pose proof (size_of_nonneg (body_bytes (lu_entries u))).
  assert (is_u32 (size_of (lu_entries u)) /\ is_u32 (32 + size_of (body_bytes (lu_entries u)))) as [? ?]
    by (unfold is_u32, kMaxRaftLogEntriesPerRecord, kMaxRaftLogRecordSize in *; lia).
  assert (log_record_checksum (update_bytes u) =
    crc32 ((update_head u ++ write_u32 (crc32 (update_head u))) ++ body_bytes (lu_entries u))) as ->
    by (unfold update_bytes; cbn zeta; by rewrite log_record_checksum_app).
  assert (read_entries (length (lu_entries u)) (update_bytes u) kLogRecordHeaderSize =
    Ok (lu_entries u, length (update_bytes u))) as Hr.
  { unfold update_bytes. cbn zeta. rewrite (assoc_L (++) _ (write_u32 _)).
    set (pre := _ ++ write_u32 (crc32 (_ ++ body_bytes _))). change kLogRecordHeaderSize with (length pre).
    by apply read_entries_body. }
  rewrite (proj2 (Nat.ltb_ge _ _)) by (rewrite length_update_bytes; unfold kLogRecordHeaderSize; lia).
  assert (size_of (update_bytes u) = 32 + size_of (body_bytes (lu_entries u))) as ->
    by (unfold size_of; rewrite length_update_bytes; lia).
  change (read_u32 (subspan 0 4 _)) with kLogRecordMagic.
  change (read_u16 (subspan 4 2 _)) with kFormatVersion.
  change (read_u16 (subspan 6 2 _)) with (Z.of_nat kLogRecordHeaderSize).
  change (subspan 8 4 _) with (write_u32 (32 + size_of (body_bytes (lu_entries u))) ++ []).
  change (subspan 12 4 _) with (write_u32 (size_of (lu_entries u)) ++ []).
  change (subspan 16 8 _) with (write_u64 (lu_from_index u) ++ []).
  change (subspan 24 4 _) with (write_u32 (crc32 (update_head u)) ++ []).
  change (take 24 _) with (update_head u).
  set (start := update_head u ++ write_u32 (crc32 (update_head u))) in *.
  change (subspan 28 4 _) with (write_u32 (crc32 (start ++ body_bytes (lu_entries u))) ++ []).
  rewrite !read_write_u32, read_write_u64, !Z.eqb_refl by (done || apply crc32_range).
  cbn [negb orb]. rewrite (proj2 (Z.ltb_ge _ _)) by done.
  unfold size_of at 1. rewrite Nat2Z.id, Hr, Nat.eqb_refl. by destruct u.
Qed.

(** The header of a transaction, whatever follows: it passes the checks and
    gives the length. *)
Lemma verify_update_header u t :
  valid_update u -> t `prefix_of` update_bytes u -> (kLogRecordHeaderSize <= length t)%nat ->
  let h := take kLogRecordHeaderSize t in
  length h = kLogRecordHeaderSize /\ verify_log_record_header h = Ok tt /\
  read_u32 (subspan 8 4 h) = size_of (update_bytes u) /\
  Z.of_nat kLogRecordHeaderSize <= size_of (update_bytes u) <= kMaxRaftLogRecordSize.
Proof.
  intros (Hf & He & Hn & Hb) [rest Ht] Hlen h.
  pose proof (size_of_nonneg (body_bytes (lu_entries u))).
  assert (size_of (update_bytes u) = 32 + size_of (body_bytes (lu_entries u))) as Hs
    by (unfold size_of; rewrite length_update_bytes; lia).
  assert (length h = kLogRecordHeaderSize) as Hh by (unfold h; rewrite length_take; lia).
  assert (h = take 32 (update_bytes u)) as Eh.
  { unfold h. rewrite Ht, take_app_le by done. done. }
  split; [done|]. rewrite Eh, Hs. split_and!; [|
    change (subspan 8 4 _) with (write_u32 (32 + size_of (body_bytes (lu_entries u))) ++ []);
    apply read_write_u32; unfold is_u32, kMaxRaftLogRecordSize in *; lia
    |unfold kLogRecordHeaderSize; lia|lia].
  unfold verify_log_record_header. rewrite <- Eh, Hh, Nat.eqb_refl, Eh.
  change (read_u32 (subspan 0 4 _)) with kLogRecordMagic.
  change (read_u16 (subspan 4 2 _)) with kFormatVersion.
  change (read_u16 (subspan 6 2 _)) with (Z.of_nat kLogRecordHeaderSize).
  change (subspan 24 4 _) with (write_u32 (crc32 (update_head u)) ++ []).
  change (take 24 _) with (update_head u).
  by rewrite read_write_u32, !Z.eqb_refl by apply crc32_range.
Qed.
End RaftFormat.
