(* ===== verification/RaftStorage.v ===== *)
(** * Durable Raft state

    [src/raft/snapshot_store.cpp] (Module [SnapshotStore]) and
    [src/raft/raft_storage.cpp] (Module [RaftStorage]) over the file system of
    [Fs.v].  The files live in one directory, which exists; a descriptor is the
    file behind it, [None] standing for -1; closing a descriptor has no effect
    on the disk.  The mutex of [SnapshotStore] and the data-directory lock are
    calls that succeed or fail. *)

From Stdlib Require Import Ascii.
From stdpp Require Import pretty.
From S2P Require Import Prelude Wire Checksum RaftTypes RaftFormat Fs.
Import RaftFormat.

Definition raft_io_error : exn := raft_storage_error raft_io.
Definition raft_invalid : exn := raft_storage_error raft_invalid_update.

Module SnapshotStore.

Inductive SnapshotWritePoint : Set :=
| after_write
| after_file_sync
| after_rename
| after_directory_sync.

Definition published_path : string := "raft.snapshot".
Definition temporary_path : string := "raft.snapshot.tmp".

(** [read_all]: the file is read in order, [offset] bytes of it so far. *)
Definition read_all (ino size offset : nat) : M Fs (list byte) :=
  let* bytes := read_at raft_io_error ino size offset in
  if negb (Nat.eqb (length bytes) size) then throw corruption else ret bytes.

Definition load (cluster_id : Z) (node_id : NodeId) (membership_fingerprint : Z)
    : M Fs (option StateMachineSnapshot) :=
  let* descriptor := open_file raft_io_error published_path in
  match descriptor with
  | None => ret None
  | Some ino =>
      let* st_size := file_size raft_io_error ino in
      if Nat.ltb st_size kSnapshotHeaderSize then throw corruption
      else
        let* fixed := read_all ino kSnapshotHeaderSize 0 in
        if negb (read_u32 (subspan 0 4 fixed) =? kSnapshotMagic) ||
           negb (read_u16 (subspan 4 2 fixed) =? kSnapshotFormatVersion) ||
           negb (read_u16 (subspan 6 2 fixed) =? Z.of_nat kSnapshotHeaderSize) ||
           negb (read_u64 (subspan 8 8 fixed) =? cluster_id) ||
           negb (read_u64 (subspan 16 8 fixed) =? node_id) ||
           negb (read_u64 (subspan 24 8 fixed) =? membership_fingerprint) ||
           negb (read_u32 (subspan 60 4 fixed) =? crc32 (take 60 fixed))
        then throw corruption
        else
          let index := read_u64 (subspan 32 8 fixed) in
          let term := read_u64 (subspan 40 8 fixed) in
          let payload_size := read_u64 (subspan 48 8 fixed) in
          if (index =? 0) || (index =? u64_max) || (term =? 0) ||
             (kMaxSnapshotPayloadSize <? payload_size) ||
             negb (Z.of_nat st_size =? Z.of_nat kSnapshotHeaderSize + payload_size)
          then throw corruption
          else
            let* payload := read_all ino (Z.to_nat payload_size) kSnapshotHeaderSize in
            if negb (read_u32 (subspan 56 4 fixed) =? crc32 payload) then throw corruption
            else ret (Some (mkStateMachineSnapshot index term payload))
  end.

(** [renamed] is set by the rename, so the cleanup covers what precedes it. *)
Definition publish (cluster_id : Z) (node_id : NodeId) (membership_fingerprint : Z)
    (snapshot : StateMachineSnapshot) (hook : SnapshotWritePoint -> M Fs unit) : M Fs unit :=
  let* ino := open_truncated raft_io_error temporary_path in
  on_error
    (write_all raft_io_error ino (header cluster_id node_id membership_fingerprint snapshot) ;;
     write_all raft_io_error ino (sm_state_machine snapshot) ;;
     hook after_write ;;
     sync_file raft_io_error ino ;;
     hook after_file_sync ;;
     rename_file raft_io_error temporary_path published_path)
    (unlink_file temporary_path) ;;
  hook after_rename ;;
  sync_directory raft_io_error ;;
  hook after_directory_sync.

Definition write_atomic (cluster_id : Z) (node_id : NodeId) (membership_fingerprint : Z)
    (snapshot : StateMachineSnapshot) (hook : SnapshotWritePoint -> M Fs unit) : M Fs unit :=
  if (sm_last_included_index snapshot =? 0) || (sm_last_included_index snapshot =? u64_max) ||
     (sm_last_included_term snapshot =? 0) ||
     (kMaxSnapshotPayloadSize <? size_of (sm_state_machine snapshot))
  then throw raft_invalid
  else
    let* current := load cluster_id node_id membership_fingerprint in
    match current with
    | Some c =>
        if sm_last_included_index snapshot <? sm_last_included_index c then ret tt
        else if sm_last_included_index c =? sm_last_included_index snapshot then
          if bool_decide (c = snapshot) then ret tt else throw raft_invalid
        else publish cluster_id node_id membership_fingerprint snapshot hook
    | None => publish cluster_id node_id membership_fingerprint snapshot hook
    end.
End SnapshotStore.

Module RaftStorage.
Import SnapshotStore.

Inductive PendingKind : Set :=
| pending_none
| pending_hard_state
| pending_log.

(** [pid] is the process id; [sync_hook] tells whether a hook is installed. *)
Record Impl := {
  cluster_id : Z;
  node_id : NodeId;
  membership_fingerprint : Z;
  log_descriptor : option nat;
  lock_descriptor : option nat;
  pending_descriptor : option nat;
  pending_temporary_path : string;
  pending_final_path : string;
  pending_kind : PendingKind;
  hard_generation : Z;
  state : RaftPersistentState;
  pending_state : RaftPersistentState;
  sync_hook : bool;
  pid : N
}.

(** A storage object and the file system it works on. *)
Record Storage := {
  impl_ : Impl;
  fs_ : Fs
}.

Definition set_fs (fs : Fs) (s : Storage) : Storage := {| impl_ := impl_ s; fs_ := fs |}.
Definition sys {A} (m : M Fs A) : M Storage A := lift fs_ set_fs m.
Definition update_impl (f : Impl -> Impl) : M Storage unit :=
  modify (fun s => {| impl_ := f (impl_ s); fs_ := fs_ s |}).

(** ** Files *)

Definition write_all (ino : nat) (bytes : list byte) : M Fs unit :=
  Fs.write_all raft_io_error ino bytes.

Definition read_at (ino size offset : nat) : M Fs (list byte) :=
  if off_t_max <? Z.of_nat offset then throw raft_io_error
  else Fs.read_at raft_io_error ino size offset.

Definition sync_file (ino : nat) : M Fs unit := Fs.sync_file raft_io_error ino.

Definition truncate_file (ino size : nat) : M Fs unit :=
  if off_t_max <? Z.of_nat size then throw corruption
  else truncate_to raft_io_error ino size.

Definition sync_directory : M Fs unit := Fs.sync_directory raft_io_error.

Definition rename_file (source destination : string) : M Fs unit :=
  Fs.rename_file raft_io_error source destination.

Definition path_exists (path : string) : M Fs bool := exists_name raft_io_error path.

Definition run_hook (hook : bool) : M Fs unit := if hook then callback else ret tt.

Definition unlink_file (path : string) : M Fs unit :=
  if String.eqb path EmptyString then ret tt else Fs.unlink_file path.

Definition temporary_name (purpose : string) (pid : N) (attempt : N) : string :=
  String.append "." (String.append purpose (String.append ".tmp."
    (String.append (pretty pid) (String.append "." (pretty attempt))))).

Fixpoint temporary_loop (tries : nat) (attempt : N) (purpose : string) (pid : N)
    : M Fs (nat * string) :=
  match tries with
  | O => throw raft_io_error
  | S tries' =>
      let path := temporary_name purpose pid attempt in
      let* descriptor := create_exclusive raft_io_error path in
      match descriptor with
      | Some ino => ret (ino, path)
      | None => temporary_loop tries' (attempt + 1)%N purpose pid
      end
  end.

Definition open_temporary_file (purpose : string) (pid : N) : M Fs (nat * string) :=
  temporary_loop 1000 0 purpose pid.

(** [temporary] is cleared by the rename, so the cleanup covers what precedes
    it. *)
Definition atomically_create_file (destination : string) (pid : N) (contents : list byte)
    (hook : bool) : M Fs unit :=
  let* created := open_temporary_file destination pid in
  let (ino, temporary) := created : nat * string in
  on_error
    (write_all ino contents ;;
     run_hook hook ;;
     sync_file ino ;;
     run_hook hook ;;
     rename_file temporary destination)
    (unlink_file temporary) ;;
  run_hook hook ;;
  sync_directory ;;
  run_hook hook.

Definition read_and_verify_identity (path : string) (cluster_id : Z) (node_id : NodeId)
    (membership_fingerprint : Z) : M Fs unit :=
  let* descriptor := open_file raft_io_error path in
  match descriptor with
  | None => throw raft_io_error
  | Some ino =>
      let* bytes := read_at ino kIdentitySize 0 in
      let* st_size := file_size raft_io_error ino in
      if Nat.eqb st_size 32 then throw corruption
      else if negb (Nat.eqb (length bytes) kIdentitySize) || negb (Nat.eqb st_size kIdentitySize)
      then throw corruption
      else
        match verify_identity bytes cluster_id node_id membership_fingerprint with
        | Ok _ => ret tt
        | Throw e => throw e
        end
  end.

(** [digits] *)
Fixpoint digits (value : string) : bool :=
  match value with
  | EmptyString => true
  | String c rest =>
      (48 <=? Z.of_N (Ascii.N_of_ascii c)) && (Z.of_N (Ascii.N_of_ascii c) <=? 57) && digits rest
  end.

(** The text before the first dot and the one after it, when there is one. *)
Fixpoint split_dot (value : string) : option (string * string) :=
  match value with
  | EmptyString => None
  | String c rest =>
      if Ascii.eqb c "."%char then Some (EmptyString, rest)
      else match split_dot rest with
           | Some (before, after) => Some (String c before, after)
           | None => None
           end
  end.

(** [name.starts_with(prefix)] and [name.substr(prefix.size())]. *)
Fixpoint strip_prefix (prefix name : string) : option string :=
  match prefix with
  | EmptyString => Some name
  | String c prefix' =>
      match name with
      | EmptyString => None
      | String c' name' => if Ascii.eqb c c' then strip_prefix prefix' name' else None
      end
  end.

Definition temporary_prefixes : list string :=
  [".hard-state.A.tmp."; ".hard-state.B.tmp."; ".raft-log.wal.tmp."; ".IDENTITY.tmp."].

Definition recognized_suffix (suffix : string) : bool :=
  match split_dot suffix with
  | None => false
  | Some (before, after) =>
      if String.eqb before EmptyString || String.eqb after EmptyString then false
      else digits before && digits after
  end.

Fixpoint recognized_with (prefixes : list string) (name : string) : bool :=
  match prefixes with
  | [] => false
  | prefix :: rest =>
      match strip_prefix prefix name with
      | None => recognized_with rest name
      | Some suffix => recognized_suffix suffix
      end
  end.

Definition is_recognized_temporary_name (name : string) : bool :=
  recognized_with temporary_prefixes name.

(** The walk over the directory entries; every entry is a regular file. *)
Fixpoint remove_names (entries : list string) (removed : bool) : M Fs bool :=
  match entries with
  | [] => ret removed
  | name :: rest =>
      attempt_once raft_io_error ;;
      if negb (is_recognized_temporary_name name) then remove_names rest removed
      else remove_file raft_io_error name ;; remove_names rest true
  end.

Definition remove_stale_temporary_files : M Fs unit :=
  let* fs := get in
  let* removed := remove_names (elements (dom (names (disk fs)))) false in
  if removed : bool then sync_directory else ret tt.

(** [read_hard_slot]: the record, and [exists]. *)
Definition read_hard_slot (path : string) (cluster_id : Z) (node_id : NodeId)
    : M Fs (option HardRecord * bool) :=
  let* present := path_exists path in
  if negb present then ret (None, false)
  else
    let* descriptor := open_file raft_io_error path in
    match descriptor with
    | None => throw raft_io_error
    | Some ino =>
        let* bytes := read_at ino kHardStateSize 0 in
        let* st_size := file_size raft_io_error ino in
        if negb (Nat.eqb (length bytes) kHardStateSize) || negb (Nat.eqb st_size kHardStateSize)
        then ret (None, true)
        else ret (decode_hard_state bytes cluster_id node_id, true)
    end.

(** ** Recovery of the journal *)

(** The loop of [recover_log].  An iteration that goes on takes at least a
    record header, so the file size is enough fuel. *)
Fixpoint recover_loop (fuel : nat) (ino file_size offset : nat) (replay_state : RaftPersistentState)
    : M Fs RaftPersistentState :=
  if negb (Nat.ltb offset file_size) then ret replay_state
  else
    match fuel with
    | O => throw logic_error
    | S fuel' =>
        let stop := truncate_file ino offset ;; sync_file ino ;; ret replay_state in
        if Nat.ltb (file_size - offset) kLogRecordHeaderSize then stop
        else
          let* record_header := read_at ino kLogRecordHeaderSize offset in
          if negb (Nat.eqb (length record_header) kLogRecordHeaderSize) then stop
          else
            match verify_log_record_header record_header with
            | Throw e => throw e
            | Ok _ =>
                let record_size := read_u32 (subspan 8 4 record_header) in
                if (record_size <? Z.of_nat kLogRecordHeaderSize) || (kMaxRaftLogRecordSize <? record_size)
                then throw corruption
                else if Nat.ltb (file_size - offset) (Z.to_nat record_size) then stop
                else
                  let* bytes := read_at ino (Z.to_nat record_size) offset in
                  if negb (Nat.eqb (length bytes) (Z.to_nat record_size)) then throw corruption
                  else
                    match decode_log_update bytes with
                    | Throw e => throw e
                    | Ok update =>
                        match apply_log_update replay_state update raft_corruption with
                        | Throw e => throw e
                        | Ok replay_state' =>
                            recover_loop fuel' ino file_size (offset + Z.to_nat record_size) replay_state'
                        end
                    end
            end
    end.

(** The state the replay starts from: the boundary the journal header names. *)
Definition replay_start (loaded : RaftPersistentState) (required : option (LogIndex * Term))
    : result RaftPersistentState :=
  match required with
  | None => Ok (mkRaftPersistentState (ps_current_term loaded) (ps_voted_for loaded) None [])
  | Some (index, term) =>
      match ps_snapshot loaded with
      | None => Throw corruption
      | Some s =>
          if (sm_last_included_index s <? index) ||
             ((sm_last_included_index s =? index) && negb (sm_last_included_term s =? term))
          then Throw corruption
          else Ok (mkRaftPersistentState (ps_current_term loaded) (ps_voted_for loaded)
                     (Some (mkStateMachineSnapshot index term [])) [])
      end
  end.

(** The end of [recover_log]: the loaded snapshot replaces what it covers. *)
Definition adopt_snapshot (loaded_snapshot : option StateMachineSnapshot)
    (required : option (LogIndex * Term)) (replay_state : RaftPersistentState)
    : result RaftPersistentState :=
  match loaded_snapshot with
  | None => Ok replay_state
  | Some s =>
      let replay_base := match required with Some (index, _) => index | None => 0 end in
      let covered_entries := u64 (sm_last_included_index s - replay_base) in
      let boundary_matches :=
        if covered_entries =? 0 then
          match required with
          | Some (_, term) => term =? sm_last_included_term s
          | None => false
          end
        else
          (covered_entries <=? size_of (ps_log replay_state)) &&
          match ps_log replay_state !! Z.to_nat (covered_entries - 1) with
          | Some e => le_term e =? sm_last_included_term s
          | None => false
          end in
      if negb boundary_matches then Throw corruption
      else Ok (mkRaftPersistentState (ps_current_term replay_state) (ps_voted_for replay_state)
                 (Some s) (drop (Z.to_nat covered_entries) (ps_log replay_state)))
  end.

(** [recover_log]: the state to install, from the one loaded so far. *)
Definition recover_log (cluster_id : Z) (node_id : NodeId) (membership_fingerprint : Z) (ino : nat)
    (loaded : RaftPersistentState) : M Fs RaftPersistentState :=
  let* size := file_size raft_io_error ino in
  if Nat.ltb size kLogHeaderSize then throw corruption
  else
    let* bytes := read_at ino kLogHeaderSize 0 in
    if negb (Nat.eqb (length bytes) kLogHeaderSize) then throw corruption
    else
      match verify_log_header bytes cluster_id node_id membership_fingerprint with
      | Throw e => throw e
      | Ok required =>
          match replay_start loaded required with
          | Throw e => throw e
          | Ok start =>
              let* replay_state := recover_loop size ino size kLogHeaderSize start in
              match adopt_snapshot (ps_snapshot loaded) required replay_state with
              | Throw e => throw e
              | Ok recovered => attempt_once raft_io_error ;; ret recovered
              end
          end
      end.

(** ** Opening *)

Definition identity_path : string := "IDENTITY".
Definition hard_a_path : string := "hard-state.A".
Definition hard_b_path : string := "hard-state.B".
Definition log_path : string := "raft-log.wal".
Definition lock_path : string := "LOCK".

Definition baseline (generation : Z) : HardRecord :=
  {| hr_generation := generation; hr_term := 0; hr_voted_for := None |}.

Definition is_baseline (generation : Z) (r : HardRecord) : bool :=
  (hr_generation r =? generation) && (hr_term r =? 0) && bool_decide (hr_voted_for r = None).

(** The checks on the two generations, and the one selected. *)
Definition select_hard_state (a b : option HardRecord) (a_exists b_exists : bool) : result HardRecord :=
  if (a_exists && bool_decide (a = None)) || (b_exists && bool_decide (b = None))
  then Throw corruption
  else
    match a, b with
    | Some ra, Some rb =>
        let distance := if hr_generation rb <? hr_generation ra then hr_generation ra - hr_generation rb
                        else hr_generation rb - hr_generation ra in
        if negb (hr_generation ra mod 2 =? 1) || negb (hr_generation rb mod 2 =? 0) || negb (distance =? 1)
        then Throw corruption
        else Ok (if hr_generation rb <=? hr_generation ra then ra else rb)
    | _, _ => Throw corruption
    end.

(** The hard state of the directory, created when there is none. *)
Definition open_hard_state (cluster_id : Z) (node_id : NodeId) (pid : N)
    (identity_existed hard_a_existed hard_b_existed : bool) : M Fs HardRecord :=
  when (negb hard_a_existed && negb hard_b_existed)
    (atomically_create_file hard_a_path pid (encode_hard_state cluster_id node_id (baseline 1)) false) ;;
  let* slot_a := read_hard_slot hard_a_path cluster_id node_id in
  let* slot_b := read_hard_slot hard_b_path cluster_id node_id in
  let* slot_b :=
    if negb identity_existed &&
       match fst slot_a with Some ra => is_baseline 1 ra | None => false end && negb (snd slot_b)
    then
      atomically_create_file hard_b_path pid (encode_hard_state cluster_id node_id (baseline 2)) false ;;
      read_hard_slot hard_b_path cluster_id node_id
    else ret slot_b in
  match select_hard_state (fst slot_a) (fst slot_b) (snd slot_a) (snd slot_b) with
  | Throw e => throw e
  | Ok selected => ret selected
  end.

(** [open], once the lock file is open. *)
Definition open_locked (cluster_id : Z) (node_id : NodeId) (sync_hook : bool) (membership_fingerprint : Z)
    (pid : N) (lock : nat) : M Fs Impl :=
  attempt raft_io_error ;;
  let* identity_existed := path_exists identity_path in
  let* hard_a_existed := path_exists hard_a_path in
  let* hard_b_existed := path_exists hard_b_path in
  let* log_existed := path_exists log_path in
  (if identity_existed : bool then
     read_and_verify_identity identity_path cluster_id node_id membership_fingerprint ;;
     if negb hard_a_existed || negb hard_b_existed || negb log_existed then throw corruption
     else ret tt
   else if negb hard_a_existed && negb hard_b_existed && log_existed then throw corruption
   else ret tt) ;;
  let* selected := open_hard_state cluster_id node_id pid identity_existed hard_a_existed hard_b_existed in
  let* snapshot := load cluster_id node_id membership_fingerprint in
  if hr_term selected <? snapshot_base_term snapshot then throw corruption
  else
    (if negb log_existed then
       if identity_existed || negb (is_baseline 2 selected) then throw corruption
       else atomically_create_file log_path pid
              (encode_log_header cluster_id node_id membership_fingerprint None) false
     else ret tt) ;;
    let* descriptor := open_file raft_io_error log_path in
    match descriptor with
    | None => throw raft_io_error
    | Some ino =>
        attempt_once raft_io_error ;;
        let* recovered := recover_log cluster_id node_id membership_fingerprint ino
          (mkRaftPersistentState (hr_term selected) (hr_voted_for selected) snapshot []) in
        if negb identity_existed && (negb (is_baseline 2 selected) || negb (size_of (ps_log recovered) =? 0))
        then throw corruption
        else
          sync_file ino ;;
          sync_directory ;;
          when (negb identity_existed)
            (atomically_create_file identity_path pid
               (encode_identity cluster_id node_id membership_fingerprint) false) ;;
          remove_stale_temporary_files ;;
          ret {| cluster_id := cluster_id; node_id := node_id;
                 membership_fingerprint := membership_fingerprint; log_descriptor := Some ino;
                 lock_descriptor := Some lock; pending_descriptor := None;
                 pending_temporary_path := EmptyString; pending_final_path := EmptyString;
                 pending_kind := pending_none; hard_generation := hr_generation selected;
                 state := recovered; pending_state := empty_persistent_state;
                 sync_hook := sync_hook; pid := pid |}
    end.

(** [open]: the data directory exists; its inspection is two calls. *)
Definition open (cluster_id : Z) (node_id : NodeId) (sync_hook : bool) (membership_fingerprint : Z)
    (pid : N) : M Fs Impl :=
  if (cluster_id =? 0) || (node_id =? 0) then throw raft_invalid
  else
    attempt_once raft_io_error ;;
    attempt_once raft_io_error ;;
    let* lock := open_or_create raft_io_error lock_path in
    open_locked cluster_id node_id sync_hook membership_fingerprint pid lock.

(** ** Updates *)

Definition set_pending (descriptor : option nat) (temporary final : string) (i : Impl) : Impl :=
  {| cluster_id := cluster_id i; node_id := node_id i;
     membership_fingerprint := membership_fingerprint i; log_descriptor := log_descriptor i;
     lock_descriptor := lock_descriptor i; pending_descriptor := descriptor;
     pending_temporary_path := temporary; pending_final_path := final;
     pending_kind := pending_kind i; hard_generation := hard_generation i; state := state i;
     pending_state := pending_state i; sync_hook := sync_hook i; pid := pid i |}.

Definition set_pending_state (kind : PendingKind) (next : RaftPersistentState) (i : Impl) : Impl :=
  {| cluster_id := cluster_id i; node_id := node_id i;
     membership_fingerprint := membership_fingerprint i; log_descriptor := log_descriptor i;
     lock_descriptor := lock_descriptor i; pending_descriptor := pending_descriptor i;
     pending_temporary_path := pending_temporary_path i; pending_final_path := pending_final_path i;
     pending_kind := kind; hard_generation := hard_generation i; state := state i;
     pending_state := next; sync_hook := sync_hook i; pid := pid i |}.

Definition set_state (generation : Z) (current : RaftPersistentState) (i : Impl) : Impl :=
  {| cluster_id := cluster_id i; node_id := node_id i;
     membership_fingerprint := membership_fingerprint i; log_descriptor := log_descriptor i;
     lock_descriptor := lock_descriptor i; pending_descriptor := pending_descriptor i;
     pending_temporary_path := pending_temporary_path i; pending_final_path := pending_final_path i;
     pending_kind := pending_kind i; hard_generation := generation; state := current;
     pending_state := pending_state i; sync_hook := sync_hook i; pid := pid i |}.

Definition set_descriptors (log lock : option nat) (i : Impl) : Impl :=
  {| cluster_id := cluster_id i; node_id := node_id i;
     membership_fingerprint := membership_fingerprint i; log_descriptor := log;
     lock_descriptor := lock; pending_descriptor := pending_descriptor i;
     pending_temporary_path := pending_temporary_path i; pending_final_path := pending_final_path i;
     pending_kind := pending_kind i; hard_generation := hard_generation i; state := state i;
     pending_state := pending_state i; sync_hook := sync_hook i; pid := pid i |}.

Definition has_pending_update (i : Impl) : bool :=
  match pending_kind i with pending_none => false | _ => true end.

(** The checks every update starts with: the journal's file. *)
Definition open_journal : M Storage nat :=
  let* s := get in
  match log_descriptor (impl_ s) with
  | None => throw (raft_storage_error raft_closed)
  | Some ino => ret ino
  end.

Definition no_pending_update : M Storage unit :=
  let* s := get in
  if has_pending_update (impl_ s) then throw raft_invalid else ret tt.

Definition prepare_hard_state (term : Term) (voted_for : option NodeId) : M Storage unit :=
  open_journal ;;
  no_pending_update ;;
  let* s := get in
  let i := impl_ s in
  if (term <? ps_current_term (state i)) ||
     ((term =? 0) && bool_decide (is_Some voted_for)) ||
     bool_decide (voted_for = Some 0) ||
     ((term =? ps_current_term (state i)) && bool_decide (is_Some (ps_voted_for (state i))) &&
      negb (bool_decide (voted_for = ps_voted_for (state i))))
  then throw raft_invalid
  else if existsb (fun entry => term <? le_term entry) (ps_log (state i)) then throw raft_invalid
  else if hard_generation i =? u64_max then throw raft_invalid
  else
    let generation := u64 (hard_generation i + 1) in
    let filename := if generation mod 2 =? 1 then hard_a_path else hard_b_path in
    update_impl (set_pending (pending_descriptor i) (pending_temporary_path i) filename) ;;
    let* temporary := sys (open_temporary_file filename (pid i)) in
    let (ino, path) := temporary : nat * string in
    update_impl (set_pending (Some ino) path filename) ;;
    on_error
      (sys (write_all ino
              (encode_hard_state (cluster_id i) (node_id i)
                 {| hr_generation := generation; hr_term := term; hr_voted_for := voted_for |})))
      (update_impl (set_pending None path filename) ;;
       sys (unlink_file path) ;;
       update_impl (set_pending None EmptyString EmptyString)) ;;
    update_impl (set_pending_state pending_hard_state
      (mkRaftPersistentState term voted_for (ps_snapshot (state i)) (ps_log (state i)))).

Definition prepare_log (update : LogUpdate) : M Storage unit :=
  let* ino := open_journal in
  no_pending_update ;;
  let* s := get in
  match apply_log_update (state (impl_ s)) update raft_invalid_update with
  | Throw e => throw e
  | Ok next =>
      sys (write_all ino (encode_log_update update)) ;;
      update_impl (set_pending_state pending_log next)
  end.

Definition sync : M Storage unit :=
  let* ino := open_journal in
  let* s := get in
  let i := impl_ s in
  (match pending_kind i with
   | pending_none => throw raft_invalid
   | pending_hard_state =>
       sys (match pending_descriptor i with
            | Some pending => sync_file pending
            | None => throw raft_io_error
            end) ;;
       sys (run_hook (sync_hook i)) ;;
       update_impl (set_pending None (pending_temporary_path i) (pending_final_path i)) ;;
       sys (rename_file (pending_temporary_path i) (pending_final_path i)) ;;
       sys (run_hook (sync_hook i)) ;;
       update_impl (set_pending None EmptyString EmptyString) ;;
       sys sync_directory ;;
       update_impl (fun i => set_state (u64 (hard_generation i + 1)) (state i) i)
   | pending_log =>
       sys (sync_file ino) ;;
       sys (run_hook (sync_hook i))
   end) ;;
  update_impl (fun i => set_state (hard_generation i) (pending_state i) i) ;;
  update_impl (set_pending_state pending_none empty_persistent_state).

(** ** Snapshots *)

(** The inner loop of [install_snapshot]: the size of the next batch. *)
Fixpoint batch_length (suffix : list LogEntry) (batch_size : nat) (encoded_size : Z) : nat :=
  match suffix with
  | [] => batch_size
  | entry :: rest =>
      if negb (Z.of_nat batch_size <? kMaxRaftLogEntriesPerRecord) then batch_size
      else
        let entry_size := Z.of_nat kEntryHeaderSize + size_of (le_command entry) in
        if negb (Nat.eqb batch_size 0) && (kMaxRaftLogRecordSize - encoded_size <? entry_size)
        then batch_size
        else batch_length rest (S batch_size) (encoded_size + entry_size)
  end.

(** The outer loop: the transactions that hold the suffix, numbered from
    [from] on.  A batch takes at least one entry, so the length of the suffix
    is enough fuel. *)
Fixpoint batches (fuel : nat) (from : LogIndex) (suffix : list LogEntry) : list LogUpdate :=
  match fuel, suffix with
  | O, _ | _, [] => []
  | S fuel', _ =>
      let batch_size := batch_length suffix 0 (Z.of_nat kLogRecordHeaderSize) in
      {| lu_from_index := u64 from; lu_entries := map stored (take batch_size suffix) |} ::
      batches fuel' (from + Z.of_nat batch_size) (drop batch_size suffix)
  end.

Definition snapshot_suffix (old_base : LogIndex) (log : list LogEntry) (snapshot : StateMachineSnapshot)
    : list LogEntry :=
  if sm_last_included_index snapshot <=? u64 (old_base + size_of log) then
    let boundary := Z.to_nat (sm_last_included_index snapshot - old_base - 1) in
    match log !! boundary with
    | Some e => if le_term e =? sm_last_included_term snapshot then drop (boundary + 1) log else []
    | None => []
    end
  else [].

Definition snapshot_hook (hook : bool) (point : SnapshotWritePoint) : M Fs unit :=
  match point with
  | after_file_sync | after_rename => run_hook hook
  | _ => ret tt
  end.

Definition snapshot_journal (i : Impl) (snapshot : StateMachineSnapshot) (suffix : list LogEntry)
    : list byte :=
  encode_log_header (cluster_id i) (node_id i) (membership_fingerprint i) (Some snapshot) ++
  concat (map encode_log_update
            (batches (length suffix) (sm_last_included_index snapshot + 1) suffix)).

Definition install_snapshot (snapshot : StateMachineSnapshot) (snapshot_already_durable : bool)
    : M Storage unit :=
  open_journal ;;
  no_pending_update ;;
  let* s := get in
  let i := impl_ s in
  let old_base := snapshot_base (ps_snapshot (state i)) in
  if (sm_last_included_index snapshot =? u64_max) || (sm_last_included_index snapshot <=? old_base) ||
     (sm_last_included_term snapshot =? 0) ||
     (ps_current_term (state i) <? sm_last_included_term snapshot) ||
     (kMaxSnapshotPayloadSize <? size_of (sm_state_machine snapshot))
  then throw raft_invalid
  else
    let suffix := snapshot_suffix old_base (ps_log (state i)) snapshot in
    (if negb snapshot_already_durable then
       sys (write_atomic (cluster_id i) (node_id i) (membership_fingerprint i) snapshot
              (snapshot_hook (sync_hook i)))
     else
       let* durable := sys (load (cluster_id i) (node_id i) (membership_fingerprint i)) in
       if bool_decide (durable = Some snapshot) then ret tt else throw raft_invalid) ;;
    sys (atomically_create_file log_path (pid i) (snapshot_journal i snapshot suffix) (sync_hook i)) ;;
    update_impl (fun i => set_descriptors None (lock_descriptor i) i) ;;
    let* descriptor := sys (open_file raft_io_error log_path) in
    match descriptor with
    | None => throw raft_io_error
    | Some ino =>
        update_impl (fun i => set_descriptors (Some ino) (lock_descriptor i) i) ;;
        update_impl (fun i => set_state (hard_generation i)
          (mkRaftPersistentState (ps_current_term (state i)) (ps_voted_for (state i)) (Some snapshot) suffix) i)
    end.

Definition close : M Storage unit :=
  let* s := get in
  sys (unlink_file (pending_temporary_path (impl_ s))) ;;
  update_impl (set_pending None EmptyString EmptyString) ;;
  update_impl (set_descriptors None None) ;;
  update_impl (fun i => set_pending_state pending_none (pending_state i) i).
End RaftStorage.
