(* ===== verification/RaftTotality.v ===== *)
(** * Opening any directory

    [RaftStorage::open] on a directory with arbitrary contents - damaged files,
    foreign ones, leftovers - comes to an end, and says what is wrong. *)

From S2P Require Import Prelude Wire Checksum Protocol RaftTypes RaftFormat Fs RaftStorage.
Import RaftFormat SnapshotStore RaftStorage.

(** A computation that comes to an end: it returns, or reports an error of the
    file system or corruption.  A loop out of fuel would be a [logic_error]. *)
Definition returns {A} (m : M Fs A) : Prop :=
  forall fs e, snd (m fs) = Throw e -> e = raft_io_error \/ e = corruption.

Lemma returns_bind {A B} (m : M Fs A) (k : A -> M Fs B) :
  returns m -> (forall a, returns (k a)) -> returns (bind m k).
Proof.
  intros Hm Hk fs e. unfold bind. specialize (Hm fs). destruct (m fs) as [fs' [a|e']]; [apply Hk|].
  cbn in *. intros [= <-]. by apply Hm.
Qed.

Lemma returns_ret {A} (a : A) : returns (ret a).
Proof. done. Qed.

Lemma returns_io {A} : returns (throw raft_io_error : M Fs A).
Proof. intros fs e [= <-]. by left. Qed.

Lemma returns_corruption {A} : returns (throw corruption : M Fs A).
Proof. intros fs e [= <-]. by right. Qed.

Lemma returns_get : returns (get : M Fs Fs).
Proof. done. Qed.

Lemma returns_effect f : returns (effect f).
Proof. done. Qed.

Lemma returns_attempt_once : returns (attempt_once raft_io_error).
Proof.
  intros fs e. unfold attempt_once, bind, ask. destruct (script fs) as [|[] rest]; cbn; intros H; try done;
    injection H as <-; by left.
Qed.

Lemma returns_attempt : returns (attempt raft_io_error).
Proof. intros fs e. unfold attempt. destruct (attempt_loop _) as [rest []]; cbn; [done|]. intros [= <-]. by left. Qed.

Lemma returns_read_at ino size offset : returns (RaftStorage.read_at ino size offset).
Proof.
  unfold RaftStorage.read_at. destruct (_ <? _); [apply returns_io|]. intros fs e.
  unfold Fs.read_at. destruct (read_loop _ _ _) as [rest []]; cbn; [done|]. intros [= <-]. by left.
Qed.

Create HintDb returns.
#[local] Hint Resolve returns_ret returns_io returns_corruption returns_get returns_effect returns_attempt_once
  returns_attempt returns_read_at : returns.

(** One step of such a computation. *)
Ltac returns_step :=
  match goal with
  | |- returns (bind _ _) => apply returns_bind; [|intros]
  | |- returns (match ?x with _ => _ end) => destruct x eqn:?
  | |- _ => solve [auto with returns]
  end.

Lemma returns_file_size ino : returns (file_size raft_io_error ino).
Proof. unfold file_size. repeat returns_step. Qed.

Lemma returns_open_file name : returns (open_file raft_io_error name).
Proof. unfold open_file. repeat returns_step. Qed.

Lemma returns_path_exists name : returns (path_exists name).
Proof. unfold path_exists, exists_name. repeat returns_step. Qed.

Lemma returns_sync_file ino : returns (sync_file ino).
Proof. unfold sync_file, Fs.sync_file. repeat returns_step. Qed.

Lemma returns_sync_directory : returns sync_directory.
Proof. unfold sync_directory, Fs.sync_directory. repeat returns_step. Qed.

Lemma returns_truncate_file ino size : returns (truncate_file ino size).
Proof. unfold truncate_file, truncate_to. repeat returns_step. Qed.

#[local] Hint Resolve returns_file_size returns_open_file returns_path_exists returns_sync_file
  returns_sync_directory returns_truncate_file : returns.

Lemma returns_write_all ino data : returns (write_all ino data).
Proof.
  intros fs e. unfold write_all, Fs.write_all. destruct (write_loop _ _) as [[rest w] []]; cbn; [done|].
  intros [= <-]. by left.
Qed.

Lemma returns_rename source destination : returns (rename_file source destination).
Proof. unfold rename_file, Fs.rename_file. repeat returns_step. Qed.

Lemma returns_on_error {A} (m : M Fs A) h : returns m -> returns (on_error m h).
Proof. intros Hm fs e. unfold on_error. specialize (Hm fs). destruct (m fs) as [fs' [a|e']]; cbn in *; [done|]. auto. Qed.

Lemma returns_temporary_loop tries attempt purpose pid : returns (temporary_loop tries attempt purpose pid).
Proof.
  revert attempt. induction tries as [|tries IH]; intros attempt; cbn [temporary_loop]; [apply returns_io|].
  apply returns_bind; [unfold create_exclusive; repeat returns_step|]. intros [ino|]; [apply returns_ret|apply IH].
Qed.

#[local] Hint Resolve returns_write_all returns_rename returns_on_error returns_temporary_loop : returns.

Lemma returns_create destination pid contents : returns (atomically_create_file destination pid contents false).
Proof.
  unfold atomically_create_file, open_temporary_file, run_hook. apply returns_bind; [auto with returns|].
  intros [ino temporary]. repeat returns_step. apply returns_on_error. repeat returns_step.
Qed.

(** ** Decoders *)

Lemma read_entries_error count bytes offset e : read_entries count bytes offset = Throw e -> e = corruption.
Proof.
  revert offset. induction count as [|count IH]; intros offset; cbn [read_entries]; [done|].
  destruct (Nat.ltb _ _); [by intros [= <-]|]. destruct (_ || _); [by intros [= <-]|].
  destruct (read_entries count _ _) as [[es o]|e'] eqn:E; [done|]. intros [= <-]. by eapply IH.
Qed.

Lemma decode_log_update_error bytes e : decode_log_update bytes = Throw e -> e = corruption.
Proof.
  unfold decode_log_update. destruct (_ || _); [by intros [= <-]|]. destruct (_ <? _); [by intros [= <-]|].
  destruct (read_entries _ _ _) as [[es o]|e'] eqn:E; [|intros [= <-]; by eapply read_entries_error].
  destruct (negb _); [by intros [= <-]|done].
Qed.

Lemma apply_log_update_error p u code e :
  apply_log_update p u code = Throw e -> e = raft_storage_error code.
Proof. unfold apply_log_update. intros H. repeat (case_match; try done; try congruence). Qed.

Lemma verify_log_record_header_error bytes e : verify_log_record_header bytes = Throw e -> e = corruption.
Proof. unfold verify_log_record_header. intros H. repeat (case_match; try done; try congruence). Qed.

Lemma verify_log_header_error bytes cid nid fp e : verify_log_header bytes cid nid fp = Throw e -> e = corruption.
Proof. unfold verify_log_header. intros H. repeat (case_match; try done; try congruence). Qed.

Lemma verify_identity_error bytes cid nid fp e : verify_identity bytes cid nid fp = Throw e -> e = corruption.
Proof. unfold verify_identity. intros H. repeat (case_match; try done; try congruence). Qed.

Lemma replay_start_error loaded required e : replay_start loaded required = Throw e -> e = corruption.
Proof. unfold replay_start. intros H. repeat (case_match; try done; try congruence). Qed.

Lemma adopt_snapshot_error loaded required q e : adopt_snapshot loaded required q = Throw e -> e = corruption.
Proof. unfold adopt_snapshot. intros H. repeat (case_match; try done; try congruence). Qed.

Lemma select_hard_state_error a b ea eb e : select_hard_state a b ea eb = Throw e -> e = corruption.
Proof. unfold select_hard_state. intros H. repeat (case_match; try done; try congruence). Qed.

Lemma returns_result {A B} (r : result A) (k : A -> M Fs B) :
  (forall e, r = Throw e -> e = corruption) -> (forall a, returns (k a)) ->
  returns (match r with Ok a => k a | Throw e => throw e end).
Proof.
  intros He Hk. destruct r as [a|e]; [apply Hk|]. rewrite (He e eq_refl). apply returns_corruption.
Qed.

(** ** Recovery *)

Lemma returns_read_all ino size offset : returns (read_all ino size offset).
Proof.
  unfold read_all. apply returns_bind.
  - intros fs e. unfold Fs.read_at. destruct (read_loop _ _ _) as [rest []]; cbn; [done|]. intros [= <-]. by left.
  - intros bytes. repeat returns_step.
Qed.

#[local] Hint Resolve returns_create returns_read_all : returns.

(** Every turn of the loop takes at least a record header off the rest of the
    file. *)
Lemma returns_recover_loop fuel ino size offset q :
  (size - offset <= fuel)%nat -> returns (recover_loop fuel ino size offset q).
Proof.
  revert offset q. induction fuel as [|fuel IH]; intros offset q Hfuel; cbn [recover_loop];
    destruct (Nat.ltb_spec offset size) as [Hlt|]; cbn [negb]; try apply returns_ret; [lia|].
  assert (forall s, returns (truncate_file ino offset ;; sync_file ino ;; ret s : M Fs RaftPersistentState)) as Hstop
    by (intros s; repeat returns_step).
  destruct (Nat.ltb _ _); [apply Hstop|]. apply returns_bind; [auto with returns|]. intros record_header.
  destruct (negb _); [apply Hstop|].
  apply returns_result; [apply verify_log_record_header_error|]. intros _.
  set (record_size := read_u32 _).
  destruct ((record_size <? Z.of_nat kLogRecordHeaderSize) || _) eqn:Esize; [apply returns_corruption|].
  apply orb_false_iff in Esize as [Hmin%Z.ltb_ge _]. destruct (Nat.ltb _ _); [apply Hstop|].
  apply returns_bind; [auto with returns|]. intros bytes. destruct (negb _); [apply returns_corruption|].
  apply returns_result; [apply decode_log_update_error|]. intros update.
  apply returns_result; [apply apply_log_update_error|]. intros q'. apply IH.
  unfold kLogRecordHeaderSize in Hmin. lia.
Qed.

Lemma returns_recover_log cid nid fp ino loaded : returns (recover_log cid nid fp ino loaded).
Proof.
  unfold recover_log. apply returns_bind; [auto with returns|]. intros size.
  destruct (Nat.ltb _ _); [apply returns_corruption|].
  apply returns_bind; [auto with returns|]. intros bytes. destruct (negb _); [apply returns_corruption|].
  apply returns_result; [apply verify_log_header_error|]. intros required.
  apply returns_result; [apply replay_start_error|]. intros start.
  apply returns_bind; [apply returns_recover_loop; lia|]. intros q.
  apply returns_result; [apply adopt_snapshot_error|]. intros recovered. repeat returns_step.
Qed.

Lemma returns_load cid nid fp : returns (load cid nid fp).
Proof. unfold load. repeat returns_step. Qed.

Lemma returns_read_hard_slot path cid nid : returns (read_hard_slot path cid nid).
Proof. unfold read_hard_slot. repeat returns_step. Qed.

#[local] Hint Resolve returns_recover_log returns_load returns_read_hard_slot : returns.

Lemma returns_identity cid nid fp : returns (read_and_verify_identity identity_path cid nid fp).
Proof.
  unfold read_and_verify_identity. apply returns_bind; [auto with returns|]. intros [ino|]; [|apply returns_io].
  apply returns_bind; [auto with returns|]. intros bytes. apply returns_bind; [auto with returns|]. intros size.
  destruct (Nat.eqb _ _); [apply returns_corruption|]. destruct (_ || _); [apply returns_corruption|].
  apply returns_result; [apply verify_identity_error|]. intros []. apply returns_ret.
Qed.

Lemma returns_hard_state cid nid pid x y z : returns (open_hard_state cid nid pid x y z).
Proof.
  unfold open_hard_state, when. apply returns_bind; [destruct (_ && _); auto with returns|]. intros _.
  apply returns_bind; [auto with returns|]. intros slot_a. apply returns_bind; [auto with returns|]. intros slot_b.
  apply returns_bind; [repeat returns_step|]. intros slot_b'.
  apply returns_result; [apply select_hard_state_error|]. intros h. apply returns_ret.
Qed.

Lemma returns_remove_names entries removed : returns (remove_names entries removed).
Proof.
  revert removed. induction entries as [|name rest IH]; intros removed; cbn [remove_names]; [apply returns_ret|].
  apply returns_bind; [auto with returns|]. intros _. destruct (negb _); [apply IH|].
  apply returns_bind; [unfold remove_file; repeat returns_step|]. intros _. apply IH.
Qed.

Lemma returns_remove_stale : returns remove_stale_temporary_files.
Proof.
  unfold remove_stale_temporary_files. apply returns_bind; [auto with returns|]. intros fs.
  apply returns_bind; [apply returns_remove_names|]. intros [|]; auto with returns.
Qed.

#[local] Hint Resolve returns_identity returns_hard_state returns_remove_stale : returns.

(** A computation whose values satisfy [Q]. *)
Definition yields {A} (Q : A -> Prop) (m : M Fs A) : Prop :=
  returns m /\ forall fs a, snd (m fs) = Ok a -> Q a.

Lemma yields_bind {A B} (Q : B -> Prop) (m : M Fs A) (k : A -> M Fs B) :
  returns m -> (forall a, yields Q (k a)) -> yields Q (bind m k).
Proof.
  intros Hm Hk. split; [apply returns_bind; [done|apply Hk]|]. intros fs b. unfold bind.
  destruct (m fs) as [fs' [a|e]]; [apply Hk|done].
Qed.

Lemma yields_throw {A} (Q : A -> Prop) e : returns (throw e : M Fs A) -> yields Q (throw e).
Proof. intros H. by split. Qed.

Lemma yields_ret {A} (Q : A -> Prop) a : Q a -> yields Q (ret a).
Proof. intros H. split; [apply returns_ret|]. by intros fs b [= <-]. Qed.

Ltac yields_step :=
  match goal with
  | |- yields _ (bind _ _) => apply yields_bind; [repeat returns_step|intros]
  | |- yields _ (match ?x with _ => _ end) => destruct x eqn:?
  | |- yields _ (throw _) => apply yields_throw; auto with returns
  | |- yields _ (ret _) => apply yields_ret
  end.

(** C31. Whatever a directory contains, [RaftStorage::open] comes to an end on it: it
    opens the store under the given identity, or reports an error of the file
    system or corruption.  The recovery loop never runs out of its fuel, the size
    of the journal. *)
Theorem opening_always_returns cid nid hook fp pid fs :
  cid <> 0 -> nid <> 0 ->
  match snd (open cid nid hook fp pid fs) with
  | Ok i => cluster_id i = cid /\ node_id i = nid /\ membership_fingerprint i = fp /\
      has_pending_update i = false
  | Throw e => e = raft_io_error \/ e = corruption
  end.
Proof.
  intros Hc Hn. set (Q := fun i => cluster_id i = cid /\ node_id i = nid /\ membership_fingerprint i = fp /\
    has_pending_update i = false).
  assert (yields Q (open cid nid hook fp pid)) as [Hr Hq].
  { unfold open. rewrite (proj2 (Z.eqb_neq _ _) Hc), (proj2 (Z.eqb_neq _ _) Hn). cbn [orb].
    unfold open_or_create, open_locked, when. repeat yields_step. by split_and!. }
  specialize (Hr fs). specialize (Hq fs). destruct (open cid nid hook fp pid fs) as [fs' [i|e]];
    [by apply Hq|by apply Hr].
Qed.

(** A journal that is not one. *)
Lemma opening_always_returns_witness :
  match snd (open 1 1 false 9 7 {| disk := {| inodes := {[ 0%nat := {| cached := [Byte.x00]; stable := [Byte.x00] |} ]};
      names := {[ log_path := 0%nat ]}; unsynced := [] |}; past := []; script := [] |}) with
  | Ok i => cluster_id i = 1 /\ node_id i = 1 /\ membership_fingerprint i = 9 /\ has_pending_update i = false
  | Throw e => e = raft_io_error \/ e = corruption
  end.
Proof. apply (opening_always_returns 1 1 false 9 7); done. Defined.
