(* ===== verification/RaftFiles.v ===== *)
(** * Replacing the files of a Raft store

    What [atomically_create_file] and the publication of a snapshot do to every
    directory a crash may bring back. *)

From Stdlib Require Import Ascii.
From stdpp Require Import pretty.
From S2P Require Import Prelude Wire Checksum RaftTypes RaftFormat Fs FsTriples Directory RaftStorage.
Import RaftFormat SnapshotStore RaftStorage.

(** The names the stored state consists of. *)
Definition core (n : string) : Prop :=
  n ∈ [identity_path; hard_a_path; hard_b_path; log_path; published_path].

Lemma core_identity : core identity_path. Proof. set_solver. Qed.
Lemma core_hard_a : core hard_a_path. Proof. set_solver. Qed.
Lemma core_hard_b : core hard_b_path. Proof. set_solver. Qed.
Lemma core_log : core log_path. Proof. set_solver. Qed.
Lemma core_published : core published_path. Proof. set_solver. Qed.
#[export] Hint Resolve core_identity core_hard_a core_hard_b core_log core_published : core.

Lemma temporary_not_core purpose pid attempt : ~ core (temporary_name purpose pid attempt).
Proof.
  unfold core, temporary_name. rewrite !elem_of_cons, elem_of_nil. cbn.
  by intros [|[|[|[|[|]]]]].
Qed.

Lemma snapshot_temporary_not_core : ~ core temporary_path.
Proof. unfold core. rewrite !elem_of_cons, elem_of_nil. by intros [|[|[|[|[|]]]]]. Qed.

Lemma lock_not_core : ~ core lock_path.
Proof. unfold core. rewrite !elem_of_cons, elem_of_nil. by intros [|[|[|[|[|]]]]]. Qed.

(** [d'], with the directory [ns'], is [d] with the file [destination] replaced
    by a flushed one holding [contents]. *)
Definition replaced (destination : string) (contents : list byte) (d d' : Disk) (ns' : gmap string nat)
    : Prop :=
  exists ino, (forall n, core n -> names d !! n <> Some ino) /\
    inodes d' !! ino = Some {| cached := contents; stable := contents |} /\
    (forall i, i <> ino -> inodes d' !! i = inodes d !! i) /\
    (forall n, core n -> ns' !! n = <[destination := ino]> (names d) !! n) /\ sane d' ns'.

(** What an exception can be: of the file system, or of a hook. *)
Definition storage_failure (e : exn) : Prop := e = raft_io_error \/ e = callback_error.

Section Replace.
Context (faulty : Prop) (D : Disk -> gmap string nat -> Prop) {HD : Local core D}.
Abbreviation triple := (triple id faulty (all_dirs D)).

Lemma t_run_hook hook fs Q :
  all_dirs D (disk fs) ->
  (forall fs', disk fs' = disk fs -> Q (Ok tt) fs') ->
  (faulty -> forall fs', disk fs' = disk fs -> Q (Throw callback_error) fs') ->
  triple (run_hook hook) fs Q.
Proof.
  intros HC H1 H2. unfold run_hook. destruct hook; [|by apply t_ret; [|apply H1]].
  eapply t_calls; [apply calls_attempt_once|done..].
Qed.

Lemma t_temporary_loop tries attempt purpose pid fs Q :
  all_dirs D (disk fs) ->
  (forall tmp fs', ~ core tmp -> tmp <> EmptyString -> names (disk fs) !! tmp = None ->
     disk fs' = add_file tmp (disk fs) -> Q (Ok (fresh_ino (disk fs), tmp)) fs') ->
  (forall fs', disk fs' = disk fs -> Q (Throw raft_io_error) fs') ->
  triple (temporary_loop tries attempt purpose pid) fs Q.
Proof.
  revert attempt fs. induction tries as [|tries IH]; intros attempt fs HC H1 H2; cbn [temporary_loop].
  { by apply t_throw; [|apply H2]. }
  pose proof (temporary_not_core purpose pid attempt) as Hnc.
  apply t_bind, t_create_exclusive; [done| | |by intros _].
  - intros Hn. destruct (all_dirs_add_file _ _ Hnc Hn HC) as [HC' _]. split; [done|].
    intros fs' E. apply t_ret; [by cbn; rewrite E|]. by apply H1.
  - intros _ fs' E. apply IH; [by rewrite E| |].
    + intros tmp fs1. rewrite E. by apply H1.
    + intros fs1. rewrite E. by apply H2.
Qed.

(** The work on a temporary file, up to its renaming. *)
Lemma t_fill tmp ino destination contents d0 fs Q :
  ~ core tmp -> core destination -> all_dirs D (disk fs) -> scratch tmp ino (disk fs) ->
  inodes (disk fs) !! ino = Some {| cached := contents; stable := contents |} ->
  (forall i, i <> ino -> inodes (disk fs) !! i = inodes d0 !! i) ->
  (forall n, core n -> names (disk fs) !! n = names d0 !! n) ->
  (forall d' ns', replaced destination contents d0 d' ns' -> D d' ns') ->
  (forall fs', unsynced (disk fs') = dirs (disk fs) -> all_dirs D (disk fs') ->
     replaced destination contents d0 (disk fs') (names (disk fs')) -> Q (Ok tt) fs') ->
  (faulty -> forall fs', disk fs' = disk fs -> Q (Throw raft_io_error) fs') ->
  triple (rename_file tmp destination) fs Q.
Proof.
  intros Ht Hd HC (Hn & Hi & Hp) Hfile Hsame Hnames HD' HQ He.
  assert (sane (disk fs) (names (disk fs))) as Hs
    by (apply Forall_cons in HC as [HC _]; by apply local_sane in HC).
  assert (replaced destination contents d0 (disk fs) (rename_names tmp destination (names (disk fs)))) as Hr.
  { exists ino. split_and!; try done; [| |by eapply sane_rename].
    - intros n Hcn E. rewrite <- Hnames in E by done. apply Forall_cons in Hp as [Hp _].
      by rewrite (Hp n E) in Hcn.
    - intros n Hcn. unfold rename_names. rewrite Hn. destruct (decide (n = destination)) as [->|Hne].
      + by rewrite !lookup_insert_eq.
      + rewrite !lookup_insert_ne, lookup_delete_ne, Hnames by (try done; by intros ->). done. }
  assert (all_dirs D (set_names (rename_names tmp destination) (disk fs))) as HC'
    by (apply all_dirs_rename; auto).
  eapply t_rename_file; [exact Hn|done|done| |done].
  intros fs' E. apply HQ; rewrite E; done.
Qed.

(** The file [ino] is being written under the name [tmp], on top of [d0]. *)
Definition writing (d0 : Disk) (tmp : string) (ino : nat) (c : list byte) (d : Disk) : Prop :=
  all_dirs D d /\ scratch tmp ino d /\ (exists st, inodes d !! ino = Some {| cached := c; stable := st |}) /\
  (forall i, i <> ino -> inodes d !! i = inodes d0 !! i) /\
  (forall n, core n -> names d !! n = names d0 !! n).

Lemma writing_append d0 tmp ino c w d :
  ~ core tmp -> writing d0 tmp ino c d ->
  writing d0 tmp ino (c ++ w) (update_inode ino (append_bytes w) d).
Proof.
  intros Hc (HC & Hs & [st Hi] & Hsame & Hn). destruct (all_dirs_update tmp ino (append_bytes w) d Hc Hs HC).
  split_and!; try done.
  - exists st. erewrite update_inode_eq by done. done.
  - intros i Hne. rewrite update_inode_ne by done. by apply Hsame.
Qed.

Lemma t_writing_all d0 tmp ino c data fs Q :
  ~ core tmp -> writing d0 tmp ino c (disk fs) ->
  (forall fs', writing d0 tmp ino (c ++ data) (disk fs') -> Q (Ok tt) fs') ->
  (faulty -> forall w fs', writing d0 tmp ino w (disk fs') -> Q (Throw raft_io_error) fs') ->
  triple (Fs.write_all raft_io_error ino data) fs Q.
Proof.
  intros Hc Hw HQ He. apply t_write_all.
  - apply Hw.
  - intros w _. by eapply (writing_append _ _ _ _ w).
  - intros fs' E. apply HQ. rewrite E. by apply writing_append.
  - intros Hf w fs' _ E. eapply (He Hf (c ++ w)). rewrite E. by apply writing_append.
Qed.

(** Flushing and renaming the file. *)
Lemma t_finish_file d0 tmp ino destination contents hook hook' fs Q :
  ~ core tmp -> core destination -> writing d0 tmp ino contents (disk fs) ->
  (forall d' ns', replaced destination contents d0 d' ns' -> D d' ns') ->
  (forall fs', all_dirs D (disk fs') ->
     replaced destination contents d0 (disk fs') (names (disk fs')) -> Q (Ok tt) fs') ->
  (faulty -> forall e w fs', storage_failure e -> writing d0 tmp ino w (disk fs') -> Q (Throw e) fs') ->
  triple (run_hook hook ;; Fs.sync_file raft_io_error ino ;; run_hook hook' ;;
          Fs.rename_file raft_io_error tmp destination) fs Q.
Proof.
  intros Hc Hd Hw HD' HQ He. pose proof Hw as (HC & Hs & [st Hi] & Hsame & Hn).
  assert (storage_failure raft_io_error) by by left. assert (storage_failure callback_error) by by right.
  apply t_bind, t_run_hook; [done| |intros Hf fs' E; eapply He; [done..|by rewrite E]].
  intros fs1 E1. rewrite <- E1 in *. destruct (all_dirs_update tmp ino flush_bytes _ Hc Hs HC) as [HC2 Hs2].
  assert (writing d0 tmp ino contents (update_inode ino flush_bytes (disk fs1))) as Hw2.
  { split_and!; try done; [|intros i Hne; rewrite update_inode_ne by done; by apply Hsame].
    exists contents. erewrite update_inode_eq by done. done. }
  apply t_bind, t_sync_file; [done|done| |intros Hf fs' E; eapply He; [done..|by rewrite E]].
  intros fs2 E2. rewrite <- E2 in *.
  apply t_bind, t_run_hook; [done| |intros Hf fs' E; eapply He; [done..|by rewrite E]].
  intros fs3 E3. rewrite <- E3 in *. destruct Hw2 as (_ & _ & _ & Hsame2 & Hn2).
  assert (inodes (disk fs3) !! ino = Some {| cached := contents; stable := contents |}) as Hfile
    by (rewrite E2; by erewrite update_inode_eq by done).
  apply t_fill with ino contents d0; try done; [by intros; apply HQ|].
  intros Hf fs' E. eapply He; [done..|]. rewrite E. split_and!; try done. by exists contents.
Qed.

Lemma t_unlink_temporary tmp fs Q :
  ~ core tmp -> all_dirs D (disk fs) ->
  (forall fs', all_dirs D (disk fs') -> Q (Ok tt) fs') ->
  triple (Fs.unlink_file tmp) fs Q.
Proof.
  intros Hc HC HQ. pose proof (all_dirs_delete tmp _ Hc HC).
  apply t_unlink_file; try done; intros; apply HQ; congruence.
Qed.

Lemma t_finish_directory hook hook' fs Q :
  all_dirs D (disk fs) ->
  (forall fs', disk fs' = flush_names (disk fs) -> Q (Ok tt) fs') ->
  (faulty -> forall e fs', storage_failure e -> all_dirs D (disk fs') -> Q (Throw e) fs') ->
  triple (run_hook hook ;; Fs.sync_directory raft_io_error ;; run_hook hook') fs Q.
Proof.
  intros HC HQ He. assert (storage_failure raft_io_error) by by left.
  assert (storage_failure callback_error) by by right. pose proof (all_dirs_flush _ HC).
  apply t_bind, t_run_hook; [done| |intros Hf fs' E; apply He; [done..|by rewrite E]].
  intros fs1 E1. rewrite <- E1 in *.
  apply t_bind, t_sync_directory; [done|done| |intros Hf fs' E; apply He; [done..|by rewrite E]].
  intros fs2 E2. apply t_run_hook; [by rewrite E2| |intros Hf fs' E; apply He; [done..|by rewrite E, E2]].
  intros fs3 E3. apply HQ. congruence.
Qed.

Lemma replaced_flush destination contents d0 d :
  replaced destination contents d0 d (names d) ->
  replaced destination contents d0 (flush_names d) (names (flush_names d)).
Proof. done. Qed.

Lemma t_atomically_create_file destination pid contents hook fs Q :
  core destination -> all_dirs D (disk fs) ->
  (forall d' ns', replaced destination contents (disk fs) d' ns' -> D d' ns') ->
  (forall fs', unsynced (disk fs') = [] -> all_dirs D (disk fs') ->
     replaced destination contents (disk fs) (disk fs') (names (disk fs')) -> Q (Ok tt) fs') ->
  (forall e fs', storage_failure e -> all_dirs D (disk fs') -> Q (Throw e) fs') ->
  triple (atomically_create_file destination pid contents hook) fs Q.
Proof.
  intros Hd HC HD' HQ He. assert (storage_failure raft_io_error) by by left.
  assert (Forall (sane (disk fs)) (dirs (disk fs))) as Hsane
    by (eapply Forall_impl; [exact HC|]; apply local_sane).
  apply t_bind, t_temporary_loop; [done| |intros fs' E; apply He; [done|by rewrite E]].
  intros tmp fs1 Hc Hne Hn E1. destruct (all_dirs_add_file tmp _ Hc Hn HC) as [HC1 Hs1].
  assert (writing (disk fs) tmp (fresh_ino (disk fs)) [] (disk fs1)) as Hw.
  { rewrite E1. split_and!; try done.
    - exists []. apply add_file_new.
    - intros i. apply add_file_inodes.
    - intros n Hcn. cbn. rewrite lookup_insert_ne; [done|]. by intros ->. }
  apply t_bind, t_on_error, t_bind, t_writing_all with (disk fs) tmp []; [done|done| |].
  2:{ intros Hf w fs' Hw'. unfold unlink_file. rewrite (proj2 (String.eqb_neq tmp "")) by done.
    apply t_unlink_temporary; [done|apply Hw'|]. intros fs2 HC2. by apply He. }
  intros fs2 Hw2. apply t_finish_file with (disk fs) contents; [done|done|done|done| |].
  2:{ intros Hf e w fs' Hse Hw'. unfold unlink_file. rewrite (proj2 (String.eqb_neq tmp "")) by done.
    apply t_unlink_temporary; [done|apply Hw'|]. intros fs3 HC3. by apply He. }
  intros fs3 HC3 Hr. apply t_finish_directory; [done| |by intros; apply He].
  intros fs4 E4. apply HQ; rewrite E4; [done|by apply all_dirs_flush|by apply replaced_flush].
Qed.

(** Opening the temporary snapshot: a file left behind is emptied. *)
Lemma t_open_snapshot_temporary fs Q :
  unsynced (disk fs) = [] -> all_dirs D (disk fs) ->
  (forall ino fs', (forall n, core n -> names (disk fs) !! n <> Some ino) ->
     writing (disk fs) temporary_path ino [] (disk fs') -> Q (Ok ino) fs') ->
  (faulty -> forall fs', disk fs' = disk fs -> Q (Throw raft_io_error) fs') ->
  triple (open_truncated raft_io_error temporary_path) fs Q.
Proof.
  intros Hu HC HQ He. pose proof snapshot_temporary_not_core as Hc.
  assert (sane (disk fs) (names (disk fs))) as Hs
    by (apply Forall_cons in HC as [HC _]; by apply local_sane in HC).
  apply t_open_truncated; [done| | |done].
  - intros Hn. destruct (all_dirs_add_file _ _ Hc Hn HC) as [HC1 Hs1]. split; [done|].
    intros fs' E. apply HQ; [intros n _; by apply fresh_unnamed|]. rewrite E. split_and!; try done.
    + exists []. apply add_file_new.
    + intros i. apply add_file_inodes.
    + intros n Hcn. cbn. rewrite lookup_insert_ne; [done|]. by intros <-.
  - intros ino Hn. destruct Hs as [Hinj Hclosed].
    assert (scratch temporary_path ino (disk fs)) as Hsc.
    { split_and!; [done|by eapply Hclosed|]. unfold dirs. rewrite Hu. constructor; [|constructor].
      intros n Hn'. by eapply Hinj. }
    destruct (all_dirs_update _ ino (truncate_bytes 0) _ Hc Hsc HC) as [HC1 Hs1]. split; [done|].
    intros fs' E. apply HQ.
    + intros n Hcn Hn'. by rewrite (Hinj _ _ _ Hn' Hn) in Hcn.
    + rewrite E. destruct Hsc as (_ & [f Hf] & _). split_and!; try done.
      * exists (stable f). by erewrite update_inode_eq by done.
      * intros i Hne. by apply update_inode_ne.
Qed.

Definition snapshot_bytes (cid : Z) (nid : NodeId) (fp : Z) (s : StateMachineSnapshot) : list byte :=
  header cid nid fp s ++ sm_state_machine s.

Lemma t_publish cid nid fp s hook fs Q :
  unsynced (disk fs) = [] -> all_dirs D (disk fs) ->
  (forall d' ns', replaced published_path (snapshot_bytes cid nid fp s) (disk fs) d' ns' -> D d' ns') ->
  (forall fs', unsynced (disk fs') = [] -> all_dirs D (disk fs') ->
     replaced published_path (snapshot_bytes cid nid fp s) (disk fs) (disk fs') (names (disk fs')) ->
     Q (Ok tt) fs') ->
  (faulty -> forall e fs', storage_failure e -> all_dirs D (disk fs') -> Q (Throw e) fs') ->
  triple (publish cid nid fp s (snapshot_hook hook)) fs Q.
Proof.
  intros Hu HC HD' HQ He. assert (storage_failure raft_io_error) by by left.
  pose proof snapshot_temporary_not_core as Hc. assert (core published_path) as Hd by set_solver.
  apply t_bind, t_open_snapshot_temporary; [done|done| |intros Hf fs' E; apply He; [done..|by rewrite E]].
  intros ino fs1 _ Hw.
  assert (faulty -> forall e w fs', storage_failure e -> writing (disk fs) temporary_path ino w (disk fs') ->
    triple (Fs.unlink_file temporary_path) fs' (fun _ s' => Q (Throw e) s')) as Hcleanup.
  { intros Hf e w fs' Hse Hw'. apply t_unlink_temporary; [done|apply Hw'|]. intros fs2 HC2. by apply He. }
  apply t_bind, t_on_error, t_bind, t_writing_all with (disk fs) temporary_path []; [done|done| |by eauto].
  intros fs2 Hw2. apply t_bind, t_writing_all with (disk fs) temporary_path (header cid nid fp s);
    [done|done| |by eauto].
  intros fs3 Hw3. apply (t_finish_file (disk fs) temporary_path ino published_path (snapshot_bytes cid nid fp s)
    false hook); [done..| |by eauto].
  intros fs4 HC4 Hr. apply (t_finish_directory hook false); [done| |by intros; apply He].
  intros fs5 E5. apply HQ; rewrite E5; [done|by apply all_dirs_flush|by apply replaced_flush].
Qed.
End Replace.
