(* ===== verification/RaftNode.v ===== *)
(** * The Raft node

    [src/raft/raft_node.cpp]: [RaftNode::Impl], its constructor, its message
    handlers, elections, replication, commitment, snapshot transfer and log
    compaction, and the public operations of [RaftNode], each of which runs
    [verify_invariants] before it returns its actions.

    Every member function is a computation over the node ([M Impl]); a throw
    keeps the changes made before it.  The log is the C++ vector with its
    sentinel in front.  [std::unordered_map] and [std::unordered_set] are
    [gmap] and [gset]: the code never depends on their iteration order. *)

From S2P Require Import Prelude RaftTypes.

(** ** Randomness

    The Mersenne twister and the uniform distribution are taken from the C++
    library; the code relies on a draw staying within the bounds it asks for. *)
Class UniformRandom := {
  engine : Type;
  seed_engine : Z -> engine;
  uniform_draw : engine -> Z -> Z -> Z * engine;
  uniform_draw_range : forall g a b, a <= b ->
    a <= (uniform_draw g a b).1 <= b;
}.

Section RaftNode.
Context {RNG : UniformRandom}.

Definition kMaximumTrackedRpcsPerPeer : Z := 64.
Definition kSnapshotChunkSize : Z := 1048576.

(** ** Validation *)

(** The loop that inserts every voter into [unique]. *)
Fixpoint voters_unique (unique : gset NodeId) (voters : list NodeId) : bool :=
  match voters with
  | [] => true
  | voter :: rest =>
      if (voter =? 0) || bool_decide (voter ∈ unique) then false
      else voters_unique ({[voter]} ∪ unique) rest
  end.

Definition validate_raft_config (config : RaftConfig) : result unit :=
  let n := size_of (cfg_voters config) in
  if (n =? 0) || (7 <? n) || (n mod 2 =? 0) then Throw invalid_argument
  else if negb (voters_unique ∅ (cfg_voters config)) then Throw invalid_argument
  else if negb (bool_decide (cfg_self_id config ∈ cfg_voters config)) then Throw invalid_argument
  else if (cfg_election_timeout_min config =? 0)
       || (cfg_election_timeout_max config <? cfg_election_timeout_min config)
  then Throw invalid_argument
  else if (cfg_heartbeat_interval config =? 0)
       || (cfg_election_timeout_min config <=? cfg_heartbeat_interval config)
  then Throw invalid_argument
  else if (cfg_max_append_entries config =? 0) || (cfg_max_append_bytes config <? 24)
  then Throw invalid_argument
  else Ok tt.

Definition saturating_add (left right : LogicalTime) : LogicalTime :=
  if u64_max - left <? right then u64_max else left + right.

(** The loop over [persistent.log]. *)
Fixpoint persistent_log_valid (current_term expected_index previous_term : Z)
    (entries : list LogEntry) : bool :=
  match entries with
  | [] => true
  | entry :: rest =>
      if negb (le_index entry =? expected_index) || (le_term entry =? 0)
         || (le_term entry <? previous_term) || (current_term <? le_term entry)
      then false
      else persistent_log_valid current_term (u64 (expected_index + 1)) (le_term entry) rest
  end.

Definition snapshot_index_of (s : option StateMachineSnapshot) : LogIndex :=
  match s with Some d => sm_last_included_index d | None => 0 end.
Definition snapshot_term_of (s : option StateMachineSnapshot) : Term :=
  match s with Some d => sm_last_included_term d | None => 0 end.

Definition validate_persistent_state (config : RaftConfig) (persistent : RaftPersistentState)
    : result unit :=
  let base_index := snapshot_index_of (ps_snapshot persistent) in
  let previous_term := snapshot_term_of (ps_snapshot persistent) in
  if (ps_current_term persistent =? 0) && bool_decide (is_Some (ps_voted_for persistent))
  then Throw invalid_argument
  else if match ps_voted_for persistent with
          | Some v => negb (bool_decide (v ∈ cfg_voters config))
          | None => false
          end
  then Throw invalid_argument
  else if bool_decide (is_Some (ps_snapshot persistent)) &&
          ((base_index =? 0) || (previous_term =? 0) || (base_index =? u64_max)
           || (ps_current_term persistent <? previous_term))
  then Throw invalid_argument
  else if persistent_log_valid (ps_current_term persistent) (u64 (base_index + 1))
            previous_term (ps_log persistent)
  then Ok tt
  else Throw invalid_argument.

(** ** State *)

Record IncomingSnapshot := mkIncomingSnapshot {
  in_leader_id : NodeId;
  in_last_included_index : LogIndex;
  in_last_included_term : Term;
  in_total_size : Z;
  in_bytes : list byte;
}.

#[projections(primitive)]
Record Impl := mkImpl {
  n_config : RaftConfig;
  n_role : Role;
  n_current_term : Term;
  n_voted_for : option NodeId;
  n_leader_id : option NodeId;
  n_durable_snapshot : option StateMachineSnapshot;
  n_log : list LogEntry;
  n_commit_index : LogIndex;
  n_last_applied : LogIndex;
  n_now : LogicalTime;
  n_election_deadline : LogicalTime;
  n_heartbeat_deadline : LogicalTime;
  n_random : engine;
  n_votes_received : gset NodeId;
  n_peer_progress : gmap NodeId PeerProgress;
  n_incoming_snapshot : option IncomingSnapshot;
  n_next_rpc_id : RpcId;
  n_actions : Actions;
}.

(** Assignments to the members. *)
Definition set_role (v : Role) (s : Impl) : Impl :=
  mkImpl (n_config s) v (n_current_term s) (n_voted_for s) (n_leader_id s) (n_durable_snapshot s)
    (n_log s) (n_commit_index s) (n_last_applied s) (n_now s) (n_election_deadline s)
    (n_heartbeat_deadline s) (n_random s) (n_votes_received s) (n_peer_progress s)
    (n_incoming_snapshot s) (n_next_rpc_id s) (n_actions s).
Definition set_current_term (v : Term) (s : Impl) : Impl :=
  mkImpl (n_config s) (n_role s) v (n_voted_for s) (n_leader_id s) (n_durable_snapshot s) (n_log s)
    (n_commit_index s) (n_last_applied s) (n_now s) (n_election_deadline s)
    (n_heartbeat_deadline s) (n_random s) (n_votes_received s) (n_peer_progress s)
    (n_incoming_snapshot s) (n_next_rpc_id s) (n_actions s).
Definition set_voted_for (v : (option NodeId)) (s : Impl) : Impl :=
  mkImpl (n_config s) (n_role s) (n_current_term s) v (n_leader_id s) (n_durable_snapshot s) (n_log
    s) (n_commit_index s) (n_last_applied s) (n_now s) (n_election_deadline s)
    (n_heartbeat_deadline s) (n_random s) (n_votes_received s) (n_peer_progress s)
    (n_incoming_snapshot s) (n_next_rpc_id s) (n_actions s).
Definition set_leader_id (v : (option NodeId)) (s : Impl) : Impl :=
  mkImpl (n_config s) (n_role s) (n_current_term s) (n_voted_for s) v (n_durable_snapshot s) (n_log
    s) (n_commit_index s) (n_last_applied s) (n_now s) (n_election_deadline s)
    (n_heartbeat_deadline s) (n_random s) (n_votes_received s) (n_peer_progress s)
    (n_incoming_snapshot s) (n_next_rpc_id s) (n_actions s).
Definition set_durable_snapshot (v : (option StateMachineSnapshot)) (s : Impl) : Impl :=
  mkImpl (n_config s) (n_role s) (n_current_term s) (n_voted_for s) (n_leader_id s) v (n_log s)
    (n_commit_index s) (n_last_applied s) (n_now s) (n_election_deadline s)
    (n_heartbeat_deadline s) (n_random s) (n_votes_received s) (n_peer_progress s)
    (n_incoming_snapshot s) (n_next_rpc_id s) (n_actions s).
Definition set_log (v : (list LogEntry)) (s : Impl) : Impl :=
  mkImpl (n_config s) (n_role s) (n_current_term s) (n_voted_for s) (n_leader_id s)
    (n_durable_snapshot s) v (n_commit_index s) (n_last_applied s) (n_now s)
    (n_election_deadline s) (n_heartbeat_deadline s) (n_random s) (n_votes_received s)
    (n_peer_progress s) (n_incoming_snapshot s) (n_next_rpc_id s) (n_actions s).
Definition set_commit_index (v : LogIndex) (s : Impl) : Impl :=
  mkImpl (n_config s) (n_role s) (n_current_term s) (n_voted_for s) (n_leader_id s)
    (n_durable_snapshot s) (n_log s) v (n_last_applied s) (n_now s) (n_election_deadline s)
    (n_heartbeat_deadline s) (n_random s) (n_votes_received s) (n_peer_progress s)
    (n_incoming_snapshot s) (n_next_rpc_id s) (n_actions s).
Definition set_last_applied (v : LogIndex) (s : Impl) : Impl :=
  mkImpl (n_config s) (n_role s) (n_current_term s) (n_voted_for s) (n_leader_id s)
    (n_durable_snapshot s) (n_log s) (n_commit_index s) v (n_now s) (n_election_deadline s)
    (n_heartbeat_deadline s) (n_random s) (n_votes_received s) (n_peer_progress s)
    (n_incoming_snapshot s) (n_next_rpc_id s) (n_actions s).
Definition set_now (v : LogicalTime) (s : Impl) : Impl :=
  mkImpl (n_config s) (n_role s) (n_current_term s) (n_voted_for s) (n_leader_id s)
    (n_durable_snapshot s) (n_log s) (n_commit_index s) (n_last_applied s) v
    (n_election_deadline s) (n_heartbeat_deadline s) (n_random s) (n_votes_received s)
    (n_peer_progress s) (n_incoming_snapshot s) (n_next_rpc_id s) (n_actions s).
Definition set_election_deadline (v : LogicalTime) (s : Impl) : Impl :=
  mkImpl (n_config s) (n_role s) (n_current_term s) (n_voted_for s) (n_leader_id s)
    (n_durable_snapshot s) (n_log s) (n_commit_index s) (n_last_applied s) (n_now s) v
    (n_heartbeat_deadline s) (n_random s) (n_votes_received s) (n_peer_progress s)
    (n_incoming_snapshot s) (n_next_rpc_id s) (n_actions s).
Definition set_heartbeat_deadline (v : LogicalTime) (s : Impl) : Impl :=
  mkImpl (n_config s) (n_role s) (n_current_term s) (n_voted_for s) (n_leader_id s)
    (n_durable_snapshot s) (n_log s) (n_commit_index s) (n_last_applied s) (n_now s)
    (n_election_deadline s) v (n_random s) (n_votes_received s) (n_peer_progress s)
    (n_incoming_snapshot s) (n_next_rpc_id s) (n_actions s).
Definition set_random (v : engine) (s : Impl) : Impl :=
  mkImpl (n_config s) (n_role s) (n_current_term s) (n_voted_for s) (n_leader_id s)
    (n_durable_snapshot s) (n_log s) (n_commit_index s) (n_last_applied s) (n_now s)
    (n_election_deadline s) (n_heartbeat_deadline s) v (n_votes_received s) (n_peer_progress s)
    (n_incoming_snapshot s) (n_next_rpc_id s) (n_actions s).
Definition set_votes_received (v : (gset NodeId)) (s : Impl) : Impl :=
  mkImpl (n_config s) (n_role s) (n_current_term s) (n_voted_for s) (n_leader_id s)
    (n_durable_snapshot s) (n_log s) (n_commit_index s) (n_last_applied s) (n_now s)
    (n_election_deadline s) (n_heartbeat_deadline s) (n_random s) v (n_peer_progress s)
    (n_incoming_snapshot s) (n_next_rpc_id s) (n_actions s).
Definition set_peer_progress (v : (gmap NodeId PeerProgress)) (s : Impl) : Impl :=
  mkImpl (n_config s) (n_role s) (n_current_term s) (n_voted_for s) (n_leader_id s)
    (n_durable_snapshot s) (n_log s) (n_commit_index s) (n_last_applied s) (n_now s)
    (n_election_deadline s) (n_heartbeat_deadline s) (n_random s) (n_votes_received s) v
    (n_incoming_snapshot s) (n_next_rpc_id s) (n_actions s).
Definition set_incoming_snapshot (v : (option IncomingSnapshot)) (s : Impl) : Impl :=
  mkImpl (n_config s) (n_role s) (n_current_term s) (n_voted_for s) (n_leader_id s)
    (n_durable_snapshot s) (n_log s) (n_commit_index s) (n_last_applied s) (n_now s)
    (n_election_deadline s) (n_heartbeat_deadline s) (n_random s) (n_votes_received s)
    (n_peer_progress s) v (n_next_rpc_id s) (n_actions s).
Definition set_next_rpc_id (v : RpcId) (s : Impl) : Impl :=
  mkImpl (n_config s) (n_role s) (n_current_term s) (n_voted_for s) (n_leader_id s)
    (n_durable_snapshot s) (n_log s) (n_commit_index s) (n_last_applied s) (n_now s)
    (n_election_deadline s) (n_heartbeat_deadline s) (n_random s) (n_votes_received s)
    (n_peer_progress s) (n_incoming_snapshot s) v (n_actions s).
Definition set_actions (v : Actions) (s : Impl) : Impl :=
  mkImpl (n_config s) (n_role s) (n_current_term s) (n_voted_for s) (n_leader_id s)
    (n_durable_snapshot s) (n_log s) (n_commit_index s) (n_last_applied s) (n_now s)
    (n_election_deadline s) (n_heartbeat_deadline s) (n_random s) (n_votes_received s)
    (n_peer_progress s) (n_incoming_snapshot s) (n_next_rpc_id s) v.

(** The default [LogEntry{}], what reading an empty vector is given here: the
    log always holds its sentinel. *)
Definition default_entry : LogEntry := mkLogEntry 0 0 command [].

Definition quorum (s : Impl) : Z := size_of (cfg_voters (n_config s)) / 2 + 1.
Definition is_voter (s : Impl) (node_id : NodeId) : bool :=
  bool_decide (node_id ∈ cfg_voters (n_config s)).
Definition self_id (s : Impl) : NodeId := cfg_self_id (n_config s).

Definition log_front (s : Impl) : LogEntry := default default_entry (head (n_log s)).
Definition log_back (s : Impl) : LogEntry := default default_entry (last (n_log s)).
Definition last_log_index (s : Impl) : LogIndex := le_index (log_back s).
Definition last_log_term (s : Impl) : Term := le_term (log_back s).
Definition base_index (s : Impl) : LogIndex := le_index (log_front s).

Definition entry_at (index : LogIndex) : M Impl LogEntry :=
  let* s := get in
  if (index <? base_index s) || (last_log_index s <? index) then throw out_of_range
  else match n_log s !! Z.to_nat (index - base_index s) with
       | Some e => ret e
       | None => throw out_of_range
       end.

Definition push_action (a : Action) : M Impl unit :=
  modify (fun s => set_actions (n_actions s ++ [a]) s).

(** ** [verify_invariants]

    The checks in the code's order; a check that fails throws
    [std::logic_error]. *)

(** The loop over positions [1 <= position < log.size()]. *)
Fixpoint log_gap_free (front_index current_term position : Z) (previous : LogEntry)
    (rest : list LogEntry) : bool :=
  match rest with
  | [] => true
  | current :: rest' =>
      if negb (le_index current =? u64 (front_index + position))
         || (le_term current <? le_term previous) || (current_term <? le_term current)
      then false
      else log_gap_free front_index current_term (position + 1) current rest'
  end.

Definition progress_within_bounds (s : Impl) (peer : NodeId) (progress : PeerProgress) : bool :=
  let last := last_log_index s in
  let snapshot_size :=
    match n_durable_snapshot s with Some d => size_of (sm_state_machine d) | None => 0 end in
  if bool_decide (peer = self_id s) || negb (is_voter s peer)
     || (last <? pp_match_index progress)
     || (pp_next_index progress <? u64 (pp_match_index progress + 1))
     || (u64 (last + 1) <? pp_next_index progress)
     || (last <? pp_newest_rpc_last_index progress)
     || (kMaximumTrackedRpcsPerPeer <? size_of (pp_recent_rpcs progress))
  then false
  else if negb (pp_snapshot_index progress =? 0) &&
          (negb (bool_decide (is_Some (n_durable_snapshot s)))
           || negb (pp_snapshot_index progress =? snapshot_index_of (n_durable_snapshot s))
           || (snapshot_size <? pp_snapshot_offset progress))
  then false
  else if kMaximumTrackedRpcsPerPeer <? size_of (pp_recent_snapshot_rpcs progress) then false
  else if existsb (fun rpc =>
            (sr_rpc_id rpc =? 0) || (pp_newest_rpc_id progress <? sr_rpc_id rpc)
            || negb (sr_snapshot_index rpc =? pp_snapshot_index progress)
            || (sr_end rpc <? sr_offset rpc)
            || negb (bool_decide (is_Some (n_durable_snapshot s)))
            || (snapshot_size <? sr_end rpc)) (pp_recent_snapshot_rpcs progress)
  then false
  else negb (existsb (fun rpc =>
            (rr_rpc_id rpc =? 0) || (pp_newest_rpc_id progress <? rr_rpc_id rpc)
            || (last <? rr_last_index rpc)) (pp_recent_rpcs progress)).

Definition invariants_hold (s : Impl) : bool :=
  match n_log s with
  | [] => false
  | front :: rest =>
      if negb (bool_decide (le_kind front = no_op)) || negb (bool_decide (le_command front = []))
         || negb (Bool.eqb (le_index front =? 0) (le_term front =? 0))
      then false
      else if match n_durable_snapshot s with
              | Some d => negb (sm_last_included_index d =? le_index front)
                          || negb (sm_last_included_term d =? le_term front)
              | None => false
              end
      then false
      else if negb (log_gap_free (le_index front) (n_current_term s) 1 front rest) then false
      else if (n_commit_index s <? base_index s) || (last_log_index s <? n_commit_index s)
           || (n_last_applied s <? base_index s) || (n_commit_index s <? n_last_applied s)
      then false
      else if match n_voted_for s with Some v => negb (is_voter s v) | None => false end
      then false
      else if match n_leader_id s with Some l => negb (is_voter s l) | None => false end
      then false
      else if bool_decide (n_role s = candidate) &&
              negb (bool_decide (n_voted_for s = Some (self_id s)))
      then false
      else if negb (bool_decide (n_role s = leader))
      then bool_decide (n_peer_progress s = ∅)
      else if negb (bool_decide (n_leader_id s = Some (self_id s)))
           || negb (Z.of_nat (size (n_peer_progress s)) + 1 =? size_of (cfg_voters (n_config s)))
      then false
      else forallb (fun '(peer, progress) => progress_within_bounds s peer progress)
             (map_to_list (n_peer_progress s))
  end.

Definition verify_invariants : M Impl unit :=
  let* s := get in if invariants_hold s then ret tt else throw logic_error.

(** ** Role changes *)

Definition reset_election_deadline : M Impl unit :=
  modify (fun s =>
    let '(timeout, g) := uniform_draw (n_random s)
                           (cfg_election_timeout_min (n_config s))
                           (cfg_election_timeout_max (n_config s)) in
    set_election_deadline (saturating_add (n_now s) timeout) (set_random g s)).

Definition become_follower (term : Term) (leader : option NodeId) : M Impl unit :=
  let* s := get in
  let previous_role := n_role s in
  let term_increased := n_current_term s <? term in
  when term_increased (modify (fun s => set_voted_for None (set_current_term term s))) ;;
  modify (fun s => set_peer_progress ∅ (set_votes_received ∅
                     (set_leader_id leader (set_role follower s)))) ;;
  reset_election_deadline ;;
  let* s := get in
  when (negb (bool_decide (previous_role = follower)))
    (push_action (RoleChanged previous_role follower (n_current_term s) (n_leader_id s))) ;;
  when term_increased (push_action (PersistHardState (n_current_term s) (n_voted_for s))).

(** ** Replication *)

(** [peer_progress.at(peer)] and stores through the reference it returns. *)
Definition progress_at (peer : NodeId) : M Impl PeerProgress :=
  let* s := get in
  match n_peer_progress s !! peer with
  | Some p => ret p
  | None => throw out_of_range
  end.

Definition put_progress (peer : NodeId) (p : PeerProgress) : M Impl unit :=
  modify (fun s => set_peer_progress (<[peer := p]> (n_peer_progress s)) s).

(** [next_rpc_id++] *)
Definition take_rpc_id : M Impl RpcId :=
  let* s := get in
  modify (fun s => set_next_rpc_id (u64 (n_next_rpc_id s + 1)) s) ;;
  ret (n_next_rpc_id s).

(** [push_back] on a history that keeps its newest 64 elements. *)
Definition push_bounded {A} (x : A) (history : list A) : list A :=
  let pushed := history ++ [x] in
  if kMaximumTrackedRpcsPerPeer <? size_of pushed then drop 1 pushed else pushed.

(** The progress of a peer once its transfer is aligned with [snapshot]. *)
Definition align_snapshot (p : PeerProgress) (snapshot : StateMachineSnapshot) : PeerProgress :=
  let p :=
    if pp_snapshot_index p =? sm_last_included_index snapshot then p
    else mkPeerProgress (pp_next_index p) (pp_match_index p) (pp_newest_rpc_id p)
           (pp_newest_rpc_last_index p) (pp_recent_rpcs p)
           (sm_last_included_index snapshot) 0 [] in
  mkPeerProgress (pp_next_index p) (pp_match_index p) (pp_newest_rpc_id p)
    (pp_newest_rpc_last_index p) (pp_recent_rpcs p) (pp_snapshot_index p)
    (Z.min (pp_snapshot_offset p) (size_of (sm_state_machine snapshot)))
    (pp_recent_snapshot_rpcs p).

(** The branch of [send_append_entries] that ships a snapshot chunk. *)
Definition send_snapshot_chunk (peer : NodeId) (p : PeerProgress)
    (snapshot : StateMachineSnapshot) : M Impl unit :=
  let p := align_snapshot p snapshot in
  let offset := pp_snapshot_offset p in
  let remaining := size_of (sm_state_machine snapshot) - offset in
  let chunk_size := Z.min remaining kSnapshotChunkSize in
  let* rpc_id := take_rpc_id in
  put_progress peer
    (mkPeerProgress (pp_next_index p) (pp_match_index p) rpc_id
       (pp_newest_rpc_last_index p) (pp_recent_rpcs p) (pp_snapshot_index p) offset
       (push_bounded
          (mkSnapshotRpcRange rpc_id (sm_last_included_index snapshot) offset (offset + chunk_size))
          (pp_recent_snapshot_rpcs p))) ;;
  let* s := get in
  push_action (SendMessage peer (MInstallSnapshot
    {| ins_term := n_current_term s;
       ins_leader_id := self_id s;
       ins_last_included_index := sm_last_included_index snapshot;
       ins_last_included_term := sm_last_included_term snapshot;
       ins_total_size := size_of (sm_state_machine snapshot);
       ins_offset := offset;
       ins_data := take (Z.to_nat chunk_size)
                     (drop (Z.to_nat offset) (sm_state_machine snapshot));
       ins_done := (chunk_size =? remaining);
       ins_rpc_id := rpc_id |})).

(** The loop that gathers the entries of one AppendEntries batch. *)
Fixpoint collect_entries (max_entries max_bytes : Z) (entries : list LogEntry)
    (encoded_bytes : Z) (rest : list LogEntry) : list LogEntry :=
  match rest with
  | [] => entries
  | e :: rest' =>
      if size_of entries <? max_entries then
        let entry_bytes := 24 + size_of (le_command e) in
        if negb (bool_decide (entries = [])) &&
           ((max_bytes <=? encoded_bytes) || (max_bytes - encoded_bytes <? entry_bytes))
        then entries
        else collect_entries max_entries max_bytes (entries ++ [e])
               (encoded_bytes + entry_bytes) rest'
      else entries
  end.

(** The branch of [send_append_entries] that ships log entries. *)
Definition send_log_entries (peer : NodeId) (p : PeerProgress) : M Impl unit :=
  let* s := get in
  let next_index := Z.max (pp_next_index p) (u64 (base_index s + 1)) in
  let previous_index := u64 (next_index - 1) in
  let* previous := entry_at previous_index in
  let entries := collect_entries (cfg_max_append_entries (n_config s))
                   (cfg_max_append_bytes (n_config s)) [] 0
                   (drop (Z.to_nat (u64 (next_index - base_index s))) (n_log s)) in
  let* rpc_id := take_rpc_id in
  let newest_last :=
    match last entries with Some e => le_index e | None => previous_index end in
  put_progress peer
    (mkPeerProgress next_index (pp_match_index p) rpc_id newest_last
       (push_bounded (mkRpcRange rpc_id newest_last) (pp_recent_rpcs p))
       (pp_snapshot_index p) (pp_snapshot_offset p) (pp_recent_snapshot_rpcs p)) ;;
  push_action (SendMessage peer (MAppendEntries
    {| ae_term := n_current_term s;
       ae_leader_id := self_id s;
       ae_previous_log_index := previous_index;
       ae_previous_log_term := le_term previous;
       ae_entries := entries;
       ae_leader_commit := n_commit_index s;
       ae_rpc_id := rpc_id |})).

Definition set_next_index (next_index : LogIndex) (p : PeerProgress) : PeerProgress :=
  mkPeerProgress next_index (pp_match_index p) (pp_newest_rpc_id p)
    (pp_newest_rpc_last_index p) (pp_recent_rpcs p) (pp_snapshot_index p)
    (pp_snapshot_offset p) (pp_recent_snapshot_rpcs p).

Definition send_append_entries (peer : NodeId) : M Impl unit :=
  let* p := progress_at peer in
  let* s := get in
  let maximum_next := u64 (last_log_index s + 1) in
  let p := set_next_index (Z.min (pp_next_index p) maximum_next) p in
  put_progress peer p ;;
  match n_durable_snapshot s with
  | Some snapshot =>
      if pp_next_index p <=? base_index s then send_snapshot_chunk peer p snapshot
      else send_log_entries peer p
  | None => send_log_entries peer p
  end.

Definition broadcast_append_entries : M Impl unit :=
  let* s := get in
  for_each (cfg_voters (n_config s)) (fun voter =>
    when (negb (voter =? self_id s)) (send_append_entries voter)).

Definition append_local_entry (kind : EntryKind) (cmd : list byte) : M Impl unit :=
  let* s := get in
  let entry := mkLogEntry (u64 (last_log_index s + 1)) (n_current_term s) kind cmd in
  modify (fun s => set_log (n_log s ++ [entry]) s) ;;
  push_action (PersistLog (le_index entry) [entry]).

(** ** Commitment *)

(** [while (last_applied < commit_index)]: [n] is the number of rounds left. *)
Fixpoint apply_committed (n : nat) : M Impl unit :=
  match n with
  | O => ret tt
  | S n' =>
      modify (fun s => set_last_applied (u64 (n_last_applied s + 1)) s) ;;
      let* s := get in
      let* e := entry_at (n_last_applied s) in
      push_action (ApplyEntry e) ;;
      apply_committed n'
  end.

Definition commit_to (index : LogIndex) : M Impl unit :=
  let* s := get in
  modify (set_commit_index index) ;;
  push_action (CommitAdvanced (n_commit_index s) index) ;;
  apply_committed (Z.to_nat (index - n_last_applied s)).

Definition advance_follower_commit (leader_commit : LogIndex) : M Impl unit :=
  let* s := get in
  let new_commit := Z.min leader_commit (last_log_index s) in
  if new_commit <=? n_commit_index s then ret tt else commit_to new_commit.

(** The number of members known to hold [index]: the node itself and every peer
    whose match index has reached it. *)
Definition replicated (s : Impl) (index : LogIndex) : Z :=
  1 + size_of (filter (fun '(_, p) => index <= pp_match_index p)
                      (map_to_list (n_peer_progress s))).

(** [for (candidate = last_log_index(); candidate > commit_index; --candidate)]:
    the round with [n] candidates left looks at index [commit_index + n]. *)
Fixpoint leader_commit_scan (n : nat) : M Impl bool :=
  match n with
  | O => ret false
  | S n' =>
      let* s := get in
      let candidate_index := n_commit_index s + Z.of_nat n in
      let* e := entry_at candidate_index in
      if negb (le_term e =? n_current_term s) then leader_commit_scan n'
      else if replicated s candidate_index <? quorum s then leader_commit_scan n'
      else commit_to candidate_index ;; ret true
  end.

Definition advance_leader_commit : M Impl bool :=
  let* s := get in
  leader_commit_scan (Z.to_nat (last_log_index s - n_commit_index s)).

(** ** Elections *)

Definition fresh_progress (next_index : LogIndex) : PeerProgress :=
  mkPeerProgress next_index 0 0 0 [] 0 0 [].

Definition become_leader : M Impl unit :=
  let* s := get in
  let previous_role := n_role s in
  let next_index := u64 (last_log_index s + 1) in
  modify (fun s =>
    set_heartbeat_deadline (saturating_add (n_now s) (cfg_heartbeat_interval (n_config s)))
      (set_peer_progress
         (list_to_map (map (fun voter => (voter, fresh_progress next_index))
            (filter (fun voter => voter <> self_id s) (cfg_voters (n_config s)))))
         (set_votes_received ∅ (set_leader_id (Some (self_id s)) (set_role leader s))))) ;;
  push_action (RoleChanged previous_role leader (n_current_term s) (Some (self_id s))) ;;
  append_local_entry no_op [] ;;
  advance_leader_commit ;;
  broadcast_append_entries.

Definition start_election : M Impl unit :=
  let* s := get in
  if n_current_term s =? u64_max then throw overflow_error
  else
    let previous_role := n_role s in
    modify (fun s =>
      set_votes_received {[self_id s]} (set_voted_for (Some (self_id s))
        (set_leader_id None (set_role candidate
          (set_current_term (u64 (n_current_term s + 1)) s))))) ;;
    reset_election_deadline ;;
    let* s := get in
    when (negb (bool_decide (previous_role = candidate)))
      (push_action (RoleChanged previous_role candidate (n_current_term s) None)) ;;
    push_action (PersistHardState (n_current_term s) (n_voted_for s)) ;;
    let request := MRequestVote (mkRequestVote (n_current_term s) (self_id s)
                                   (last_log_index s) (last_log_term s)) in
    for_each (cfg_voters (n_config s)) (fun voter =>
      when (negb (voter =? self_id s)) (push_action (SendMessage voter request))) ;;
    when (quorum s <=? Z.of_nat (size (n_votes_received s))) become_leader.

(** ** Votes *)

(** The grant decision of [handle(RequestVote)]. *)
Definition grants_vote (s : Impl) (from : NodeId) (request : RequestVote) : bool :=
  let up_to_date :=
    (last_log_term s <? rv_last_log_term request)
    || ((rv_last_log_term request =? last_log_term s)
        && (last_log_index s <=? rv_last_log_index request)) in
  let can_vote := bool_decide (n_voted_for s = None)
                  || bool_decide (n_voted_for s = Some from) in
  negb (rv_term request =? 0) && (rv_term request =? n_current_term s)
  && (rv_candidate_id request =? from) && can_vote && up_to_date.

Definition handle_request_vote (from : NodeId) (request : RequestVote) : M Impl unit :=
  let* s := get in
  let grant := grants_vote s from request in
  when (grant && negb (bool_decide (n_voted_for s = Some from)))
    (modify (set_voted_for (Some from)) ;;
     push_action (PersistHardState (n_current_term s) (Some from))) ;;
  when grant reset_election_deadline ;;
  push_action (SendMessage from
    (MRequestVoteResponse (mkRequestVoteResponse (n_current_term s) grant))).

Definition handle_request_vote_response (from : NodeId) (response : RequestVoteResponse)
    : M Impl unit :=
  let* s := get in
  if negb (bool_decide (n_role s = candidate))
     || negb (rvr_term response =? n_current_term s) || negb (rvr_vote_granted response)
  then ret tt
  else
    modify (fun s => set_votes_received ({[from]} ∪ n_votes_received s) s) ;;
    let* s := get in
    when (quorum s <=? Z.of_nat (size (n_votes_received s))) become_leader.

(** ** AppendEntries *)

Definition send_append_response (to : NodeId) (request : AppendEntries) (success : bool)
    (match_index reject_hint : LogIndex) : M Impl unit :=
  let* s := get in
  push_action (SendMessage to (MAppendEntriesResponse
    (mkAppendEntriesResponse (n_current_term s) success match_index reject_hint
       (ae_rpc_id request)))).

(** Following a leader of the current term, in [handle(AppendEntries)] and
    [handle(InstallSnapshot)]. *)
Definition follow_leader (from : NodeId) : M Impl unit :=
  let* s := get in
  if negb (bool_decide (n_role s = follower)) then become_follower (n_current_term s) (Some from)
  else modify (set_leader_id (Some from)) ;; reset_election_deadline.

(** The loop that walks back over the conflicting term: [fuel] bounds its rounds. *)
Fixpoint first_conflict (fuel : nat) (local_previous_term : Term) (index : LogIndex)
    : M Impl LogIndex :=
  match fuel with
  | O => ret index
  | S fuel' =>
      let* s := get in
      if u64 (base_index s + 1) <? index then
        let* e := entry_at (u64 (index - 1)) in
        if le_term e =? local_previous_term
        then first_conflict fuel' local_previous_term (u64 (index - 1))
        else ret index
      else ret index
  end.

(** The validation loop over the incoming entries: the expected index of the
    first malformed one, if any. *)
Fixpoint malformed_entry (request_term expected_index expected_minimum_term : Z)
    (entries : list LogEntry) : option LogIndex :=
  match entries with
  | [] => None
  | incoming :: rest =>
      if negb (le_index incoming =? expected_index) || (request_term <? le_term incoming)
         || (le_term incoming <? expected_minimum_term) || (le_index incoming =? 0)
      then Some expected_index
      else malformed_entry request_term (u64 (expected_index + 1)) (le_term incoming) rest
  end.

(** How the loop over the incoming entries ends: a rejection with its hint, or the
    suffix of the request that replaces the log from its first index on ([[]]
    when every entry is already present). *)
Inductive scan_outcome :=
| ScanReject (hint : LogIndex)
| ScanReplace (suffix : list LogEntry).

Fixpoint scan_entries (entries : list LogEntry) : M Impl scan_outcome :=
  match entries with
  | [] => ret (ScanReplace [])
  | incoming :: rest =>
      let* s := get in
      if last_log_index s <? le_index incoming then ret (ScanReplace entries)
      else
        let* existing := entry_at (le_index incoming) in
        if negb (le_term existing =? le_term incoming) then
          if le_index incoming <=? n_commit_index s
          then ret (ScanReject (u64 (n_commit_index s + 1)))
          else ret (ScanReplace entries)
        else if negb (bool_decide (existing = incoming))
        then ret (ScanReject (le_index incoming))
        else scan_entries rest
  end.

(** [log.resize(from_index - base_index())] and the insertion of [suffix]. *)
Definition replace_suffix (suffix : list LogEntry) : M Impl unit :=
  match suffix with
  | [] => ret tt
  | first :: _ =>
      modify (fun s =>
        set_log (resize (Z.to_nat (u64 (le_index first - base_index s))) default_entry (n_log s)
                 ++ suffix) s) ;;
      push_action (PersistLog (le_index first) suffix)
  end.

Definition handle_append_entries (from : NodeId) (request : AppendEntries) : M Impl unit :=
  let* s := get in
  if (ae_term request =? 0) || (ae_term request <? n_current_term s)
     || negb (ae_leader_id request =? from)
  then send_append_response from request false 0 (u64 (last_log_index s + 1))
  else
    follow_leader from ;;
    let* s := get in
    let previous_log_index := ae_previous_log_index request in
    if previous_log_index <? base_index s
    then send_append_response from request false 0 (u64 (base_index s + 1))
    else if last_log_index s <? previous_log_index
    then send_append_response from request false 0 (u64 (last_log_index s + 1))
    else
      let* previous := entry_at previous_log_index in
      if negb (le_term previous =? ae_previous_log_term request) then
        let* hint := first_conflict (length (n_log s)) (le_term previous) previous_log_index in
        send_append_response from request false 0 hint
      else
        match malformed_entry (ae_term request) (u64 (previous_log_index + 1))
                (ae_previous_log_term request) (ae_entries request) with
        | Some expected_index => send_append_response from request false 0 expected_index
        | None =>
            let* outcome := scan_entries (ae_entries request) in
            match outcome with
            | ScanReject hint => send_append_response from request false 0 hint
            | ScanReplace suffix =>
                replace_suffix suffix ;;
                let matched_index := u64 (previous_log_index + size_of (ae_entries request)) in
                advance_follower_commit (Z.min (ae_leader_commit request) matched_index) ;;
                send_append_response from request true matched_index 0
            end
        end.

(** [recent.erase(rpc)] of the element [find_if] found. *)
Fixpoint erase_first {A} (f : A -> bool) (l : list A) : list A :=
  match l with
  | [] => []
  | x :: l' => if f x then l' else x :: erase_first f l'
  end.

Definition set_recent_rpcs (recent : list RpcRange) (p : PeerProgress) : PeerProgress :=
  mkPeerProgress (pp_next_index p) (pp_match_index p) (pp_newest_rpc_id p)
    (pp_newest_rpc_last_index p) recent (pp_snapshot_index p) (pp_snapshot_offset p)
    (pp_recent_snapshot_rpcs p).

Definition set_match_index (match_index : LogIndex) (p : PeerProgress) : PeerProgress :=
  mkPeerProgress (pp_next_index p) match_index (pp_newest_rpc_id p)
    (pp_newest_rpc_last_index p) (pp_recent_rpcs p) (pp_snapshot_index p)
    (pp_snapshot_offset p) (pp_recent_snapshot_rpcs p).

Definition handle_append_entries_response (from : NodeId) (response : AppendEntriesResponse)
    : M Impl unit :=
  let* s := get in
  if negb (bool_decide (n_role s = leader)) || negb (aer_term response =? n_current_term s)
  then ret tt
  else
    match n_peer_progress s !! from with
    | None => ret tt
    | Some p =>
        let same_rpc := fun sent => rr_rpc_id sent =? aer_rpc_id response in
        match List.find same_rpc (pp_recent_rpcs p) with
        | None => ret tt
        | Some rpc =>
            let without := set_recent_rpcs (erase_first same_rpc (pp_recent_rpcs p)) p in
            if aer_success response then
              let reported := Z.min (aer_match_index response) (rr_last_index rpc) in
              let match_index := Z.max (pp_match_index p) reported in
              let next_index := u64 (match_index + 1) in
              put_progress from (set_next_index next_index (set_match_index match_index without)) ;;
              let* advanced := advance_leader_commit in
              let* s := get in
              if advanced then broadcast_append_entries
              else when (next_index <=? last_log_index s) (send_append_entries from)
            else if negb (aer_rpc_id response =? pp_newest_rpc_id p) then ret tt
            else
              let minimum_next := u64 (pp_match_index p + 1) in
              let one_back := if 1 <? pp_next_index p then pp_next_index p - 1 else 1 in
              let requested_next :=
                if (aer_reject_hint response =? 0) || (pp_next_index p <=? aer_reject_hint response)
                then one_back else aer_reject_hint response in
              put_progress from (set_next_index (Z.max minimum_next requested_next) without) ;;
              send_append_entries from
        end
    end.

(** ** InstallSnapshot *)

Definition send_snapshot_response (to : NodeId) (request : InstallSnapshot) (success : bool)
    (next_offset : Z) : M Impl unit :=
  let* s := get in
  push_action (SendMessage to (MInstallSnapshotResponse
    (mkInstallSnapshotResponse (n_current_term s) success (ins_last_included_index request)
       next_offset (ins_rpc_id request)))).

Definition malformed_snapshot_request (s : Impl) (from : NodeId) (request : InstallSnapshot)
    : bool :=
  (ins_term request =? 0) || (ins_term request <? n_current_term s)
  || negb (ins_leader_id request =? from) || (ins_rpc_id request =? 0)
  || (ins_last_included_index request =? 0)
  || (ins_last_included_index request =? u64_max)
  || (ins_last_included_term request =? 0)
  || (ins_term request <? ins_last_included_term request)
  || (512 * 1024 * 1024 <? ins_total_size request)
  || (ins_total_size request <? ins_offset request)
  || (ins_total_size request - ins_offset request <? size_of (ins_data request))
  || negb (Bool.eqb (ins_done request)
             (ins_offset request + size_of (ins_data request) =? ins_total_size request)).

Definition sentinel (index : LogIndex) (term : Term) : LogEntry := mkLogEntry index term no_op [].

(** The end of [handle(InstallSnapshot)]: the assembled image replaces the
    covered prefix of the log, or the whole log when its boundary is absent. *)
Definition install_complete_snapshot (installed : StateMachineSnapshot) : M Impl unit :=
  modify (set_incoming_snapshot None) ;;
  let* s := get in
  let index := sm_last_included_index installed in
  let* suffix :=
    if (index <=? last_log_index s) && (base_index s <=? index) then
      let* e := entry_at index in
      ret (if le_term e =? sm_last_included_term installed
           then drop (Z.to_nat (index - base_index s + 1)) (n_log s) else [])
    else ret [] in
  modify (set_log (sentinel index (sm_last_included_term installed) :: suffix)) ;;
  modify (set_durable_snapshot (Some installed)) ;;
  modify (fun s => set_commit_index (Z.max (n_commit_index s) index) s) ;;
  modify (fun s => set_commit_index (Z.min (n_commit_index s) (last_log_index s)) s) ;;
  modify (set_last_applied index) ;;
  push_action (PersistSnapshot installed) ;;
  push_action (ApplySnapshot installed).

Definition handle_install_snapshot (from : NodeId) (request : InstallSnapshot) : M Impl unit :=
  let* s := get in
  if malformed_snapshot_request s from request
  then send_snapshot_response from request false 0
  else
    follow_leader from ;;
    let* s := get in
    if ins_last_included_index request <=? n_last_applied s
    then send_snapshot_response from request true (ins_total_size request)
    else
      when (ins_offset request =? 0)
        (modify (set_incoming_snapshot (Some
           (mkIncomingSnapshot from (ins_last_included_index request)
              (ins_last_included_term request) (ins_total_size request) [])))) ;;
      let* s := get in
      match n_incoming_snapshot s with
      | None => send_snapshot_response from request false 0
      | Some incoming =>
          if negb (in_leader_id incoming =? from)
             || negb (in_last_included_index incoming =? ins_last_included_index request)
             || negb (in_last_included_term incoming =? ins_last_included_term request)
             || negb (in_total_size incoming =? ins_total_size request)
             || negb (size_of (in_bytes incoming) =? ins_offset request)
          then send_snapshot_response from request false (size_of (in_bytes incoming))
          else
            let bytes := in_bytes incoming ++ ins_data request in
            modify (set_incoming_snapshot (Some
              (mkIncomingSnapshot (in_leader_id incoming) (in_last_included_index incoming)
                 (in_last_included_term incoming) (in_total_size incoming) bytes))) ;;
            if negb (ins_done request)
            then send_snapshot_response from request true (size_of bytes)
            else
              install_complete_snapshot
                (mkStateMachineSnapshot (ins_last_included_index request)
                   (ins_last_included_term request) bytes) ;;
              send_snapshot_response from request true (ins_total_size request)
      end.

Definition handle_install_snapshot_response (from : NodeId) (response : InstallSnapshotResponse)
    : M Impl unit :=
  let* s := get in
  if negb (bool_decide (n_role s = leader)) || negb (insr_term response =? n_current_term s)
  then ret tt
  else
    match n_peer_progress s !! from, n_durable_snapshot s with
    | Some p, Some durable =>
        let same_rpc := fun sent => (sr_rpc_id sent =? insr_rpc_id response)
                                    && (sr_snapshot_index sent =? insr_last_included_index response) in
        if negb (insr_last_included_index response =? sm_last_included_index durable)
           || negb (pp_snapshot_index p =? sm_last_included_index durable)
        then ret tt
        else match List.find same_rpc (pp_recent_snapshot_rpcs p) with
        | None => ret tt
        | Some sent =>
            let with_offset := fun offset =>
              mkPeerProgress (pp_next_index p) (pp_match_index p) (pp_newest_rpc_id p)
                (pp_newest_rpc_last_index p) (pp_recent_rpcs p) (pp_snapshot_index p) offset
                (erase_first same_rpc (pp_recent_snapshot_rpcs p)) in
            if negb (insr_success response) then
              if negb (insr_rpc_id response =? pp_newest_rpc_id p)
                 || (sr_end sent <? insr_next_offset response)
              then ret tt
              else put_progress from (with_offset (insr_next_offset response)) ;;
                   send_append_entries from
            else if negb (insr_next_offset response =? sr_end sent) then ret tt
            else if sr_end sent <=? pp_snapshot_offset p then ret tt
            else if negb (sr_offset sent =? pp_snapshot_offset p) then ret tt
            else if sr_end sent <? size_of (sm_state_machine durable)
            then put_progress from (with_offset (sr_end sent)) ;; send_append_entries from
            else
              let match_index := Z.max (pp_match_index p) (sm_last_included_index durable) in
              put_progress from
                (mkPeerProgress (u64 (match_index + 1)) match_index (pp_newest_rpc_id p)
                   (pp_newest_rpc_last_index p) [] 0 0 []) ;;
              send_append_entries from
        end
    | _, _ => ret tt
    end.

(** ** Dispatch and public operations *)

Definition message_term (message : Message) : Term :=
  match message with
  | MRequestVote m => rv_term m
  | MRequestVoteResponse m => rvr_term m
  | MAppendEntries m => ae_term m
  | MAppendEntriesResponse m => aer_term m
  | MInstallSnapshot m => ins_term m
  | MInstallSnapshotResponse m => insr_term m
  end.

Definition incoming_leader (from : NodeId) (message : Message) : option NodeId :=
  match message with
  | MAppendEntries m => if ae_leader_id m =? from then Some from else None
  | MInstallSnapshot m => if ins_leader_id m =? from then Some from else None
  | _ => None
  end.

Definition handle (from : NodeId) (message : Message) : M Impl unit :=
  match message with
  | MRequestVote m => handle_request_vote from m
  | MRequestVoteResponse m => handle_request_vote_response from m
  | MAppendEntries m => handle_append_entries from m
  | MAppendEntriesResponse m => handle_append_entries_response from m
  | MInstallSnapshot m => handle_install_snapshot from m
  | MInstallSnapshotResponse m => handle_install_snapshot_response from m
  end.

Definition Impl_step (from : NodeId) (message : Message) : M Impl unit :=
  let* s := get in
  if bool_decide (from = self_id s) || negb (is_voter s from) then ret tt
  else
    when (n_current_term s <? message_term message)
      (become_follower (message_term message) (incoming_leader from message)) ;;
    handle from message.

(** [std::move(impl_->actions)] after [verify_invariants]. *)
Definition finish : M Impl Actions :=
  verify_invariants ;;
  let* s := get in
  modify (set_actions []) ;;
  ret (n_actions s).

Definition RaftNode_advance_time (t : LogicalTime) : M Impl Actions :=
  let* s := get in
  if t <? n_now s then throw invalid_argument
  else
    modify (fun s => set_actions [] (set_now t s)) ;;
    (if negb (bool_decide (n_role s = leader)) && (n_election_deadline s <=? t)
     then start_election
     else when (bool_decide (n_role s = leader) && (n_heartbeat_deadline s <=? t))
       (broadcast_append_entries ;;
        modify (fun s => set_heartbeat_deadline
          (saturating_add t (cfg_heartbeat_interval (n_config s))) s))) ;;
    finish.

Definition RaftNode_step (from : NodeId) (message : Message) : M Impl Actions :=
  modify (set_actions []) ;; Impl_step from message ;; finish.

(** The common body of [propose] and [read_barrier]. *)
Definition submit_entry (kind : EntryKind) (cmd : list byte) : M Impl Actions :=
  modify (set_actions []) ;;
  let* s := get in
  (if negb (bool_decide (n_role s = leader)) then push_action (ProposalRejected (n_leader_id s))
   else append_local_entry kind cmd ;; advance_leader_commit ;; broadcast_append_entries) ;;
  finish.

Definition RaftNode_propose (cmd : list byte) : M Impl Actions := submit_entry command cmd.
Definition RaftNode_read_barrier : M Impl Actions := submit_entry no_op [].

(** The reset of every peer's snapshot transfer in [compact]. *)
Definition restart_transfer (index : LogIndex) (p : PeerProgress) : PeerProgress :=
  mkPeerProgress (pp_next_index p) (pp_match_index p) (pp_newest_rpc_id p)
    (pp_newest_rpc_last_index p) (pp_recent_rpcs p) index 0 [].

Definition RaftNode_compact (snapshot : StateMachineSnapshot) : M Impl Actions :=
  modify (set_actions []) ;;
  let* s := get in
  let index := sm_last_included_index snapshot in
  if (index =? u64_max) || (index <=? base_index s) || (n_last_applied s <? index)
  then throw invalid_argument
  else
    let* e := entry_at index in
    if negb (le_term e =? sm_last_included_term snapshot) then throw invalid_argument
    else
      let suffix := drop (Z.to_nat (index - base_index s + 1)) (n_log s) in
      modify (fun s =>
        set_peer_progress (restart_transfer index <$> n_peer_progress s)
          (set_durable_snapshot (Some snapshot)
            (set_log (sentinel index (sm_last_included_term snapshot) :: suffix) s))) ;;
      push_action (PersistSnapshot snapshot) ;;
      finish.

(** The constructor. *)
Definition RaftNode_create (config : RaftConfig) (persistent : RaftPersistentState)
    (initial_time : LogicalTime) : result Impl :=
  match validate_raft_config config with
  | Throw e => Throw e
  | Ok _ =>
      match validate_persistent_state config persistent with
      | Throw e => Throw e
      | Ok _ =>
          let base_index := snapshot_index_of (ps_snapshot persistent) in
          let base_term := snapshot_term_of (ps_snapshot persistent) in
          let s :=
            {| n_config := config; n_role := follower;
               n_current_term := ps_current_term persistent;
               n_voted_for := ps_voted_for persistent; n_leader_id := None;
               n_durable_snapshot := ps_snapshot persistent;
               n_log := sentinel base_index base_term :: ps_log persistent;
               n_commit_index := base_index; n_last_applied := base_index;
               n_now := initial_time; n_election_deadline := 0; n_heartbeat_deadline := 0;
               n_random := seed_engine (Z.lxor (cfg_random_seed config)
                             (u64 (cfg_self_id config * 11400714819323198485)));
               n_votes_received := ∅; n_peer_progress := ∅; n_incoming_snapshot := None;
               n_next_rpc_id := 1; n_actions := [] |} in
          match (reset_election_deadline ;; verify_invariants) s with
          | (s', Ok _) => Ok s'
          | (_, Throw e) => Throw e
          end
      end
  end.

(** ** Observers *)

Definition RaftNode_snapshot (s : Impl) : RaftSnapshot :=
  {| rs_self_id := self_id s; rs_role := n_role s; rs_current_term := n_current_term s;
     rs_voted_for := n_voted_for s; rs_leader_id := n_leader_id s;
     rs_durable_snapshot := n_durable_snapshot s; rs_log := drop 1 (n_log s);
     rs_commit_index := n_commit_index s; rs_last_applied := n_last_applied s; rs_now := n_now s;
     rs_election_deadline := n_election_deadline s;
     rs_heartbeat_deadline := n_heartbeat_deadline s |}.

Definition RaftNode_status (s : Impl) : RaftStatus :=
  {| rst_self_id := self_id s; rst_role := n_role s; rst_current_term := n_current_term s;
     rst_leader_id := n_leader_id s; rst_commit_index := n_commit_index s;
     rst_last_applied := n_last_applied s; rst_last_log_index := last_log_index s;
     rst_retained_log_records := u64 (size_of (n_log s) - 1) |}.

Definition RaftNode_progress (peer : NodeId) (s : Impl) : option PeerProgress :=
  n_peer_progress s !! peer.

Definition RaftNode_match_index (peer : NodeId) (s : Impl) : option LogIndex :=
  pp_match_index <$> n_peer_progress s !! peer.
End RaftNode.
