(* ===== verification/RaftInvariant.v ===== *)
(** * The Raft node keeps its invariants

    The representation invariant [Inv] of a Raft node, the facts about its log
    that follow, and the proof that every operation preserves it: from a node in
    [Inv] every public operation returns normally ([verify_invariants] never
    throws) and leaves a node in [Inv]. *)

From S2P Require Import Prelude RaftTypes RaftNode.

(** ** Logs *)

(** The index of the sentinel and of the last entry of a log. *)
Definition base_of (l : list LogEntry) : LogIndex := le_index (default default_entry (head l)).
Definition last_of (l : list LogEntry) : LogIndex := le_index (default default_entry (last l)).

(** A log: a no-op sentinel, then entries with consecutive indexes and
    nondecreasing terms bounded by [T]. *)
Record LogInv (T : Term) (l : list LogEntry) : Prop := {
  li_sentinel : exists i t rest, l = sentinel i t :: rest /\ 0 <= i < u64_max /\ 0 <= t /\
    (i = 0 <-> t = 0);
  li_index : forall k e, l !! k = Some e -> le_index e = base_of l + Z.of_nat k;
  li_sorted : forall j k e e', (j <= k)%nat -> l !! j = Some e -> l !! k = Some e' ->
    le_term e <= le_term e';
  li_bound : forall k e, l !! k = Some e -> le_term e <= T;
  li_positive : forall k e, (0 < k)%nat -> l !! k = Some e -> 1 <= le_term e;
  li_max : last_of l <= u64_max;
}.

Lemma LogInv_nonempty T l : LogInv T l -> (0 < length l)%nat.
Proof. intros H. destruct (li_sentinel _ _ H) as (i & t & rest & -> & _). simpl. lia. Qed.

Lemma LogInv_base T l : LogInv T l -> 0 <= base_of l < u64_max.
Proof. intros H. destruct (li_sentinel _ _ H) as (i & t & rest & -> & ? & _). done. Qed.

Lemma LogInv_last T l : LogInv T l -> last_of l = base_of l + Z.of_nat (length l) - 1.
Proof.
  intros H. pose proof (LogInv_nonempty _ _ H).
  destruct (lookup_lt_is_Some_2 l (pred (length l)) ltac:(lia)) as [e He].
  unfold last_of. rewrite last_lookup, He. simpl.
  rewrite (li_index _ _ H _ _ He). lia.
Qed.

Lemma LogInv_lookup T l i :
  LogInv T l -> base_of l <= i <= last_of l ->
  exists e, l !! Z.to_nat (i - base_of l) = Some e /\ le_index e = i.
Proof.
  intros H Hi. rewrite (LogInv_last _ _ H) in Hi.
  destruct (lookup_lt_is_Some_2 l (Z.to_nat (i - base_of l)) ltac:(lia)) as [e He].
  exists e. split; [done|]. rewrite (li_index _ _ H _ _ He). lia.
Qed.

Lemma LogInv_mono T T' l : T <= T' -> LogInv T l -> LogInv T' l.
Proof.
  intros HT [H1 H2 H3 H4 H5 H6]. constructor; try done.
  intros k e He. specialize (H4 k e He). lia.
Qed.

Lemma LogInv_last_term T l e :
  LogInv T l -> last l = Some e -> forall k e', l !! k = Some e' -> le_term e' <= le_term e.
Proof.
  intros H Hl k e' Hk. rewrite last_lookup in Hl.
  apply (li_sorted _ _ H k (pred (length l)) e' e); [|done..].
  apply lookup_lt_Some in Hk. lia.
Qed.

Lemma LogInv_terms_nonneg T l k e : LogInv T l -> l !! k = Some e -> 0 <= le_term e.
Proof.
  intros H Hk. destruct (li_sentinel _ _ H) as (i & t & rest & -> & ? & ? & _).
  pose proof (li_sorted _ _ H 0%nat k (sentinel i t) e ltac:(lia) eq_refl Hk). simpl in *. lia.
Qed.

(** Keeping a prefix and appending consecutive entries of nondecreasing terms. *)
Definition chained (T : Term) (next : LogIndex) (minimum : Term) (suffix : list LogEntry) : Prop :=
  (forall k e, suffix !! k = Some e -> le_index e = next + Z.of_nat k) /\
  (forall k e, suffix !! k = Some e -> minimum <= le_term e <= T /\ 1 <= le_term e) /\
  (forall j k e e', (j <= k)%nat -> suffix !! j = Some e -> suffix !! k = Some e' ->
     le_term e <= le_term e') /\
  next + Z.of_nat (length suffix) - 1 <= u64_max.

Lemma base_of_app l k : l <> [] -> base_of (l ++ k) = base_of l.
Proof. by destruct l. Qed.

Lemma base_of_take n l : (0 < n)%nat -> base_of (take n l) = base_of l.
Proof. destruct n; [lia|]. by destruct l. Qed.

Lemma LogInv_prefix T l n : LogInv T l -> (0 < n)%nat -> LogInv T (take n l).
Proof.
  intros H Hn. pose proof (LogInv_nonempty _ _ H) as Hne.
  constructor.
  - destruct (li_sentinel _ _ H) as (i & t & rest & -> & ?).
    destruct n as [|n]; [lia|]. exists i, t, (take n rest). done.
  - intros k e Hk. rewrite base_of_take by done.
    apply lookup_take_Some in Hk as [Hk _]. by apply (li_index _ _ H).
  - intros j k e e' Hjk Hj Hk.
    apply lookup_take_Some in Hk as [Hk _]. apply lookup_take_Some in Hj as [Hj _].
    by apply (li_sorted _ _ H j k).
  - intros k e Hk. apply lookup_take_Some in Hk as [Hk _]. by apply (li_bound _ _ H k).
  - intros k e Hk0 Hk. apply lookup_take_Some in Hk as [Hk _]. by apply (li_positive _ _ H k).
  - pose proof (li_max _ _ H) as Hmax. rewrite (LogInv_last _ _ H) in Hmax.
    unfold last_of. rewrite last_lookup. rewrite length_take.
    destruct (take n l !! pred (n `min` length l)) as [e|] eqn:E; [|simpl; by vm_compute].
    apply lookup_take_Some in E as [E _]. simpl. rewrite (li_index _ _ H _ _ E). lia.
Qed.

Lemma LogInv_extend T l suffix :
  LogInv T l ->
  chained T (last_of l + 1) (le_term (default default_entry (last l))) suffix ->
  LogInv T (l ++ suffix).
Proof.
  intros H (Hidx & Hterm & Hsort & Hmax).
  pose proof (LogInv_nonempty _ _ H) as Hne.
  pose proof (LogInv_last _ _ H) as Hlast.
  assert (l <> []) as Hnil by (intros ->; simpl in Hne; lia).
  destruct (lookup_lt_is_Some_2 l (pred (length l)) ltac:(lia)) as [el Hel].
  rewrite last_lookup, Hel in Hterm. simpl in Hterm.
  assert (forall k e, (l ++ suffix) !! k = Some e -> le_index e = base_of l + Z.of_nat k) as Hix.
  { intros k e Hk. apply lookup_app_Some in Hk as [Hk|[Hle Hk]].
    - by apply (li_index _ _ H).
    - rewrite (Hidx _ _ Hk), Hlast. lia. }
  constructor.
  - destruct (li_sentinel _ _ H) as (i & t & rest & -> & ?).
    exists i, t, (rest ++ suffix). done.
  - intros k e Hk. rewrite base_of_app by done. by apply Hix.
  - intros j k e e' Hjk Hj Hk.
    apply lookup_app_Some in Hk as [Hk|[Hle Hk]].
    + apply lookup_app_Some in Hj as [Hj|[Hle Hj]].
      * by apply (li_sorted _ _ H j k).
      * apply lookup_lt_Some in Hk. lia.
    + apply lookup_app_Some in Hj as [Hj|[Hle' Hj]].
      * etransitivity; [|apply (proj1 (Hterm _ _ Hk))].
        apply (li_sorted _ _ H j (pred (length l)) e el); [|done..].
        apply lookup_lt_Some in Hj. lia.
      * apply (Hsort (j - length l)%nat (k - length l)%nat); [lia|done..].
  - intros k e Hk. apply lookup_app_Some in Hk as [Hk|[Hle Hk]].
    + by apply (li_bound _ _ H k).
    + by apply (Hterm _ _ Hk).
  - intros k e Hk0 Hk. apply lookup_app_Some in Hk as [Hk|[Hle Hk]].
    + by apply (li_positive _ _ H k).
    + by apply (Hterm _ _ Hk).
  - destruct (decide (suffix = [])) as [->|Hs].
    { rewrite app_nil_r. apply (li_max _ _ H). }
    assert (0 < length suffix)%nat by (destruct suffix; [done|simpl; lia]).
    destruct (lookup_lt_is_Some_2 (l ++ suffix) (pred (length (l ++ suffix)))
      ltac:(rewrite length_app; lia)) as [e He].
    unfold last_of. rewrite last_lookup, He. simpl. rewrite (Hix _ _ He), length_app. lia.
Qed.

Lemma LogInv_snoc T l e :
  LogInv T l -> le_index e = last_of l + 1 -> le_term e = T -> 1 <= T -> le_index e <= u64_max ->
  LogInv T (l ++ [e]).
Proof.
  intros H Hi Ht HT Hmax. apply LogInv_extend; [done|]. pose proof (LogInv_nonempty _ _ H).
  destruct (lookup_lt_is_Some_2 l (pred (length l)) ltac:(lia)) as [z Hz].
  pose proof (li_bound _ _ H _ _ Hz). rewrite last_lookup, Hz. split_and!.
  - intros k x Hk. apply list_lookup_singleton_Some in Hk as [-> <-]. lia.
  - intros k x Hk. apply list_lookup_singleton_Some in Hk as [-> <-]. cbn [default]. simpl. lia.
  - intros j k x y Hjk Hj Hk. apply list_lookup_singleton_Some in Hj as [-> <-].
    apply list_lookup_singleton_Some in Hk as [-> <-]. done.
  - cbn [length]. lia.
Qed.

(** ** The invariant *)

Record ConfigOk (c : RaftConfig) : Prop := {
  co_nodup : NoDup (cfg_voters c);
  co_self : cfg_self_id c ∈ cfg_voters c;
  co_size : 1 <= size_of (cfg_voters c) <= 7;
  co_entries : 1 <= cfg_max_append_entries c;
  co_timeout : 0 <= cfg_election_timeout_min c <= cfg_election_timeout_max c;
}.

(** What a leader knows about a peer stays within its log, its snapshot and the
    RPC ids it has handed out. *)
Record ProgressOk (last : LogIndex) (rpc : RpcId) (snapshot : option StateMachineSnapshot)
    (p : PeerProgress) : Prop := {
  po_match : 0 <= pp_match_index p <= last;
  po_next : pp_match_index p + 1 <= pp_next_index p <= last + 1;
  po_newest_last : pp_newest_rpc_last_index p <= last;
  po_newest : 0 <= pp_newest_rpc_id p < rpc;
  po_recent_len : size_of (pp_recent_rpcs p) <= kMaximumTrackedRpcsPerPeer;
  po_recent : Forall (fun r => 0 < rr_rpc_id r <= pp_newest_rpc_id p /\ rr_last_index r <= last)
                (pp_recent_rpcs p);
  po_offset : 0 <= pp_snapshot_offset p;
  po_snapshot : pp_snapshot_index p = 0 \/
    exists d, snapshot = Some d /\ pp_snapshot_index p = sm_last_included_index d /\
      pp_snapshot_offset p <= size_of (sm_state_machine d);
  po_srecent_len : size_of (pp_recent_snapshot_rpcs p) <= kMaximumTrackedRpcsPerPeer;
  po_srecent : Forall (fun r => 0 < sr_rpc_id r <= pp_newest_rpc_id p /\
      sr_snapshot_index r = pp_snapshot_index p /\ sr_offset r <= sr_end r /\
      exists d, snapshot = Some d /\ sr_end r <= size_of (sm_state_machine d))
    (pp_recent_snapshot_rpcs p);
}.

(** ** Tactics *)

(** Boolean guards of the code, from the facts in the context. *)
Ltac guard_false :=
  repeat match goal with
  | |- orb _ _ = false => apply orb_false_intro
  | |- (_ <? _) = false => apply Z.ltb_ge; lia
  | |- (_ <=? _) = false => apply Z.leb_gt; lia
  | |- (_ =? _) = false => apply Z.eqb_neq; lia
  | |- negb _ = false => apply negb_false_iff
  | |- (_ =? _) = true => apply Z.eqb_eq; lia
  | |- is_voter _ _ = true => unfold is_voter
  | |- bool_decide _ = true => apply bool_decide_eq_true_2; by eauto
  | |- bool_decide _ = false => apply bool_decide_eq_false_2; by eauto
  end.

(** Computing the members of a node after assignments. *)
Ltac node_simpl :=
  cbn [n_config n_role n_current_term n_voted_for n_leader_id n_durable_snapshot n_log
    n_commit_index n_last_applied n_now n_election_deadline n_heartbeat_deadline n_random
    n_votes_received n_peer_progress n_incoming_snapshot n_next_rpc_id n_actions set_role
    set_current_term set_voted_for set_leader_id set_durable_snapshot set_log
    set_commit_index set_last_applied set_now set_election_deadline set_heartbeat_deadline
    set_random set_votes_received set_peer_progress set_incoming_snapshot set_next_rpc_id
    set_actions].
Ltac node_simpl_in H :=
  cbn [n_config n_role n_current_term n_voted_for n_leader_id n_durable_snapshot n_log
    n_commit_index n_last_applied n_now n_election_deadline n_heartbeat_deadline n_random
    n_votes_received n_peer_progress n_incoming_snapshot n_next_rpc_id n_actions set_role
    set_current_term set_voted_for set_leader_id set_durable_snapshot set_log
    set_commit_index set_last_applied set_now set_election_deadline set_heartbeat_deadline
    set_random set_votes_received set_peer_progress set_incoming_snapshot set_next_rpc_id
    set_actions] in H.
Ltac node_simpl_all :=
  cbn [n_config n_role n_current_term n_voted_for n_leader_id n_durable_snapshot n_log
    n_commit_index n_last_applied n_now n_election_deadline n_heartbeat_deadline n_random
    n_votes_received n_peer_progress n_incoming_snapshot n_next_rpc_id n_actions set_role
    set_current_term set_voted_for set_leader_id set_durable_snapshot set_log
    set_commit_index set_last_applied set_now set_election_deadline set_heartbeat_deadline
    set_random set_votes_received set_peer_progress set_incoming_snapshot set_next_rpc_id
    set_actions] in *.

(** Running the primitive computations. *)
Ltac run := cbv beta iota zeta delta [bind get modify ret throw when push_action].

Ltac progress_simpl :=
  cbn [pp_next_index pp_match_index pp_newest_rpc_id pp_newest_rpc_last_index pp_recent_rpcs
    pp_snapshot_index pp_snapshot_offset pp_recent_snapshot_rpcs rr_rpc_id rr_last_index
    sr_rpc_id sr_snapshot_index sr_offset sr_end].

Section Invariant.
Context {RNG : UniformRandom}.

Definition RoleOk (s : Impl) : Prop :=
  match n_role s with
  | follower => n_peer_progress s = ∅
  | candidate => n_peer_progress s = ∅ /\ n_voted_for s = Some (self_id s) /\ 1 <= n_current_term s
  | leader =>
      n_leader_id s = Some (self_id s) /\ n_voted_for s = Some (self_id s) /\
      1 <= n_current_term s /\ last_log_index s < u64_max /\
      (forall peer, is_Some (n_peer_progress s !! peer) <->
         peer ∈ cfg_voters (n_config s) /\ peer <> self_id s) /\
      map_Forall (fun _ => ProgressOk (last_log_index s) (n_next_rpc_id s) (n_durable_snapshot s))
        (n_peer_progress s)
  end.

Record Inv (s : Impl) : Prop := {
  inv_config : ConfigOk (n_config s);
  inv_term : 0 <= n_current_term s <= u64_max;
  inv_log : LogInv (n_current_term s) (n_log s);
  inv_snapshot : match n_durable_snapshot s with
    | Some d => sm_last_included_index d = base_index s /\
                sm_last_included_term d = le_term (log_front s) /\ base_index s <> 0
    | None => base_index s = 0
    end;
  inv_commit : base_index s <= n_commit_index s <= last_log_index s;
  inv_applied : n_last_applied s = n_commit_index s;
  inv_voted : forall v, n_voted_for s = Some v ->
    v ∈ cfg_voters (n_config s) /\ 1 <= n_current_term s;
  inv_leader : forall v, n_leader_id s = Some v -> v ∈ cfg_voters (n_config s);
  inv_votes : forall v, v ∈ n_votes_received s -> v ∈ cfg_voters (n_config s);
  inv_rpc : 1 <= n_next_rpc_id s <= u64_max;
  inv_role : RoleOk s;
}.

Lemma last_log_index_of s : last_log_index s = last_of (n_log s).
Proof. done. Qed.
Lemma base_index_of s : base_index s = base_of (n_log s).
Proof. done. Qed.

Lemma entry_at_ok T s i :
  LogInv T (n_log s) -> base_index s <= i <= last_log_index s ->
  exists e, entry_at i s = (s, Ok e) /\
    n_log s !! Z.to_nat (i - base_index s) = Some e /\ le_index e = i.
Proof.
  intros H Hi. destruct (LogInv_lookup T (n_log s) i H Hi) as (e & He & Hidx).
  exists e. split; [|done]. unfold entry_at, bind, get.
  rewrite (proj2 (Z.ltb_ge i (base_index s))), (proj2 (Z.ltb_ge (last_log_index s) i)) by lia.
  simpl. rewrite base_index_of, He. done.
Qed.

(** *** [verify_invariants] accepts a node in [Inv] *)

Lemma log_gap_free_true T l k prev rest :
  LogInv T l -> T <= u64_max -> drop k l = prev :: rest ->
  log_gap_free (base_of l) T (Z.of_nat k + 1) prev rest = true.
Proof.
  intros H HT. revert k prev. induction rest as [|cur rest IH]; intros k prev Hd; [done|].
  assert (l !! k = Some prev) as Hk.
  { rewrite <- (Nat.add_0_r k), <- lookup_drop, Hd. done. }
  assert (l !! S k = Some cur) as Hk'.
  { rewrite <- (Nat.add_1_r k), <- lookup_drop, Hd. done. }
  simpl. pose proof (li_max _ _ H) as Hmax. pose proof (LogInv_base _ _ H) as Hb.
  rewrite (LogInv_last _ _ H) in Hmax. pose proof (lookup_lt_Some _ _ _ Hk') as Hlt.
  rewrite (li_index _ _ H _ _ Hk').
  rewrite u64_small by (unfold is_u64, u64_max in *; lia).
  pose proof (li_sorted _ _ H k (S k) prev cur ltac:(lia) Hk Hk').
  pose proof (li_bound _ _ H _ _ Hk').
  replace (base_of l + Z.of_nat (S k) =? base_of l + (Z.of_nat k + 1)) with true
    by (symmetry; apply Z.eqb_eq; lia).
  rewrite (proj2 (Z.ltb_ge (le_term cur) (le_term prev))) by lia.
  rewrite (proj2 (Z.ltb_ge T (le_term cur))) by lia. simpl.
  replace (Z.of_nat k + 1 + 1) with (Z.of_nat (S k) + 1) by lia.
  apply IH. rewrite <- (Nat.add_1_r k), <- drop_drop, Hd. done.
Qed.

Lemma if_false_true (b c : bool) : b = false -> c = true -> (if b then false else c) = true.
Proof. by intros -> ->. Qed.

Lemma progress_within_bounds_true s peer p :
  last_log_index s < u64_max -> peer ∈ cfg_voters (n_config s) -> peer <> self_id s ->
  ProgressOk (last_log_index s) (n_next_rpc_id s) (n_durable_snapshot s) p ->
  progress_within_bounds s peer p = true.
Proof.
  intros Hlast Hin Hne [Hmatch Hnext Hnl Hn Hrl Hr Ho Hs Hsl Hsr].
  unfold progress_within_bounds. cbv zeta.
  rewrite !u64_small by (unfold is_u64, u64_max in *; lia).
  apply if_false_true; [guard_false|].
  apply if_false_true.
  { apply andb_false_iff. destruct Hs as [Hs|(d & Hd & Hs & Hsz)]; [left; guard_false|right].
    rewrite Hd. simpl. guard_false. }
  apply if_false_true; [guard_false|].
  apply if_false_true.
  { apply not_true_iff_false. rewrite existsb_exists. intros (r & Hrin & Hbad).
    rewrite Forall_forall in Hsr. destruct (Hsr r) as (Hid & Hsi & Hoe & d & Hd & He).
    { by apply list_elem_of_In. }
    rewrite Hd in Hbad. apply not_false_iff_true in Hbad. apply Hbad. guard_false. }
  apply negb_true_iff, not_true_iff_false. rewrite existsb_exists. intros (r & Hrin & Hbad).
  rewrite Forall_forall in Hr. destruct (Hr r) as (Hid & Hli).
  { by apply list_elem_of_In. }
  apply not_false_iff_true in Hbad. apply Hbad. guard_false.
Qed.

Lemma progress_size s :
  ConfigOk (n_config s) ->
  (forall peer, is_Some (n_peer_progress s !! peer) <->
     peer ∈ cfg_voters (n_config s) /\ peer <> self_id s) ->
  Z.of_nat (size (n_peer_progress s)) + 1 = size_of (cfg_voters (n_config s)).
Proof.
  intros Hc Hdom.
  assert (dom (n_peer_progress s) =
    (list_to_set (cfg_voters (n_config s)) : gset NodeId) ∖ {[self_id s]}) as Hd.
  { apply set_eq. intros x. rewrite elem_of_dom, Hdom. set_solver. }
  rewrite <- size_dom, Hd, size_difference by (destruct Hc; set_solver).
  rewrite size_list_to_set, size_singleton by apply Hc.
  pose proof (co_size _ Hc). unfold size_of in *. lia.
Qed.

Lemma invariants_hold_true s : Inv s -> invariants_hold s = true.
Proof.
  intros H. destruct H as [Hc Ht Hl Hs Hci Ha Hv Hld Hvs Hrpc Hrole].
  pose proof (log_gap_free_true (n_current_term s) (n_log s) 0) as Hgap.
  destruct (li_sentinel _ _ Hl) as (i & t & rest & E & Hi & Htt & Hit).
  assert (base_index s = i) as Hb by (unfold base_index, log_front; by rewrite E).
  unfold invariants_hold. rewrite E. simpl.
  specialize (Hgap (sentinel i t) rest Hl ltac:(lia) ltac:(by rewrite E)).
  rewrite E in Hgap. simpl in Hgap.
  apply if_false_true.
  { guard_false. apply eqb_true_iff. destruct (Z.eqb_spec i 0), (Z.eqb_spec t 0); tauto. }
  apply if_false_true.
  { destruct (n_durable_snapshot s) as [d|]; [|done].
    destruct Hs as (? & Hst & _). unfold log_front in Hst. rewrite E in Hst. simpl in Hst.
    guard_false. }
  apply if_false_true; [apply negb_false_iff; exact Hgap|].
  apply if_false_true; [guard_false|].
  apply if_false_true.
  { destruct (n_voted_for s) as [v|] eqn:Ev; [|done]. destruct (Hv v eq_refl) as [Hv1 _]. guard_false. }
  apply if_false_true.
  { destruct (n_leader_id s) as [v|] eqn:Ev; [|done]. guard_false. }
  unfold RoleOk in Hrole. destruct (n_role s); simpl.
  - by apply bool_decide_eq_true_2.
  - destruct Hrole as (Hp & Hvf & _). apply if_false_true; [guard_false|].
    by apply bool_decide_eq_true_2.
  - destruct Hrole as (Hlid & Hvf & Ht1 & Hll & Hdom & Hall).
    pose proof (progress_size s Hc Hdom).
    apply if_false_true; [guard_false|].
    apply forallb_forall. intros [peer p] Hin.
    apply list_elem_of_In, elem_of_map_to_list in Hin.
    destruct (proj1 (Hdom peer) (ex_intro _ p Hin)) as [Hv1 Hv2].
    apply progress_within_bounds_true; [done..|]. by apply (Hall peer).
Qed.

(** *** Role changes *)

Lemma reset_election_deadline_eq s :
  exists d g, reset_election_deadline s = (set_election_deadline d (set_random g s), Ok tt).
Proof.
  unfold reset_election_deadline, modify.
  destruct (uniform_draw _ _ _) as [t g]. eauto.
Qed.

(** The state [become_follower] leaves, up to its timer. *)
Lemma become_follower_eq term l s :
  exists d g, become_follower term l s =
    (let higher := n_current_term s <? term in
     let term' := if higher then term else n_current_term s in
     let vote' := if higher then None else n_voted_for s in
     set_actions (n_actions s
         ++ (if decide (n_role s = follower) then [] else [RoleChanged (n_role s) follower term' l])
         ++ (if higher then [PersistHardState term' vote'] else []))
       (set_election_deadline d (set_random g (set_peer_progress ∅ (set_votes_received ∅
         (set_leader_id l (set_role follower
           (set_voted_for vote' (set_current_term term' s)))))))), Ok tt).
Proof.
  unfold become_follower. run.
  destruct (n_current_term s <? term) eqn:Eh; run;
  match goal with |- context [reset_election_deadline ?x] =>
    destruct (reset_election_deadline_eq x) as (d & g & ->) end;
  exists d, g; case_bool_decide; case_decide; try congruence; cbn [negb]; run; node_simpl;
  cbn [app]; rewrite ?app_nil_r, <- ?app_assoc; reflexivity.
Qed.

Lemma become_follower_Inv term l s :
  Inv s -> term <= u64_max ->
  (forall v, l = Some v -> v ∈ cfg_voters (n_config s)) ->
  exists s', become_follower term l s = (s', Ok tt) /\ Inv s' /\
    n_role s' = follower /\ n_log s' = n_log s /\ n_config s' = n_config s /\
    n_current_term s' = Z.max (n_current_term s) term /\ n_next_rpc_id s' = n_next_rpc_id s.
Proof.
  intros H Hterm Hl. destruct (become_follower_eq term l s) as (d & g & ->).
  eexists. split; [reflexivity|].
  destruct H as [Hc Ht Hlog Hs Hci Ha Hv Hld Hvs Hrpc Hrole]. cbv zeta.
  destruct (Z.ltb_spec (n_current_term s) term) as [Hlt|Hge].
  - split_and!; [constructor|..]; node_simpl; try done; try lia; try set_solver.
    eapply LogInv_mono; [|exact Hlog]. lia.
  - split_and!; [constructor|..]; node_simpl; try done; try lia; try set_solver.
Qed.

(** *** Sending *)

(** The messages a leader sends describe its own log and snapshot. *)
Inductive LeaderMessage (s : Impl) : Message -> Prop :=
| LeaderAppend prev e k rpc :
    base_index s <= prev <= last_log_index s ->
    n_log s !! Z.to_nat (prev - base_index s) = Some e ->
    LeaderMessage s (MAppendEntries
      {| ae_term := n_current_term s; ae_leader_id := self_id s;
         ae_previous_log_index := prev; ae_previous_log_term := le_term e;
         ae_entries := take k (drop (Z.to_nat (prev - base_index s + 1)) (n_log s));
         ae_leader_commit := n_commit_index s; ae_rpc_id := rpc |})
| LeaderSnapshot d offset n rpc :
    n_durable_snapshot s = Some d ->
    0 <= offset <= size_of (sm_state_machine d) ->
    0 <= n <= size_of (sm_state_machine d) - offset ->
    LeaderMessage s (MInstallSnapshot
      {| ins_term := n_current_term s; ins_leader_id := self_id s;
         ins_last_included_index := sm_last_included_index d;
         ins_last_included_term := sm_last_included_term d;
         ins_total_size := size_of (sm_state_machine d); ins_offset := offset;
         ins_data := take (Z.to_nat n) (drop (Z.to_nat offset) (sm_state_machine d));
         ins_done := (n =? size_of (sm_state_machine d) - offset); ins_rpc_id := rpc |}).

Lemma collect_entries_prefix me mb acc n rest :
  exists k, collect_entries me mb acc n rest = acc ++ take k rest.
Proof.
  revert acc n. induction rest as [|e rest IH]; intros acc n; simpl.
  - exists 0%nat. by rewrite app_nil_r.
  - destruct (size_of acc <? me); [|exists 0%nat; by rewrite app_nil_r].
    destruct (_ && _); [exists 0%nat; by rewrite app_nil_r|].
    destruct (IH (acc ++ [e]) (n + (24 + size_of (le_command e)))) as [k ->].
    exists (S k). simpl. by rewrite <- app_assoc.
Qed.

Lemma push_bounded_len {A} (x : A) l :
  size_of l <= kMaximumTrackedRpcsPerPeer -> size_of (push_bounded x l) <= kMaximumTrackedRpcsPerPeer.
Proof.
  unfold push_bounded, kMaximumTrackedRpcsPerPeer. intros H.
  destruct (Z.ltb_spec 64 (size_of (l ++ [x]))) as [Hlt|]; [|done].
  unfold size_of in *. rewrite length_drop, length_app in *. simpl in *. lia.
Qed.

Lemma push_bounded_Forall {A} (P : A -> Prop) x l :
  P x -> Forall P l -> Forall P (push_bounded x l).
Proof.
  intros Hx Hl. unfold push_bounded.
  assert (Forall P (l ++ [x])) by (apply Forall_app; auto).
  destruct (_ <? _); [by apply Forall_drop|done].
Qed.

(** The effect of one successful send: the peer's progress, the next RPC id and
    one more action. *)
Definition sent (peer : NodeId) (p : PeerProgress) (m : Message) (s : Impl) : Impl :=
  set_actions (n_actions s ++ [SendMessage peer m])
    (set_next_rpc_id (n_next_rpc_id s + 1)
      (set_peer_progress (<[peer := p]> (n_peer_progress s)) s)).

Lemma take_rpc_id_eq s :
  1 <= n_next_rpc_id s < u64_max ->
  take_rpc_id s = (set_next_rpc_id (n_next_rpc_id s + 1) s, Ok (n_next_rpc_id s)).
Proof.
  intros H. unfold take_rpc_id. run. rewrite u64_small by (unfold is_u64, u64_max in *; lia). done.
Qed.

Lemma align_snapshot_ok last rpc d p :
  ProgressOk last rpc (Some d) p -> sm_last_included_index d <> 0 ->
  ProgressOk last rpc (Some d) (align_snapshot p d) /\
  pp_snapshot_index (align_snapshot p d) = sm_last_included_index d /\
  0 <= pp_snapshot_offset (align_snapshot p d) <= size_of (sm_state_machine d).
Proof.
  intros [H1 H2 H3 H4 H5 H6 H7 H8 H9 H10] Hd. unfold align_snapshot.
  pose proof (size_of_nonneg (sm_state_machine d)).
  destruct (Z.eqb_spec (pp_snapshot_index p) (sm_last_included_index d)) as [E|E]; simpl.
  - split_and!; [constructor|..]; simpl; try done; try lia.
    right. exists d. split_and!; [done..|lia].
  - split_and!; [constructor|..]; simpl; try done; try lia.
    right. exists d. split_and!; [done..|lia].
Qed.

Lemma ProgressOk_next last rpc d p next :
  ProgressOk last rpc d p -> pp_match_index p + 1 <= next <= last + 1 ->
  ProgressOk last rpc d (set_next_index next p).
Proof. intros [] Hn. by constructor. Qed.

Lemma send_snapshot_chunk_eq peer p d s :
  ProgressOk (last_log_index s) (n_next_rpc_id s) (Some d) p ->
  sm_last_included_index d <> 0 -> n_durable_snapshot s = Some d ->
  1 <= n_next_rpc_id s < u64_max ->
  exists p' m, send_snapshot_chunk peer p d s = (sent peer p' m s, Ok tt) /\
    ProgressOk (last_log_index s) (n_next_rpc_id s + 1) (Some d) p' /\ LeaderMessage s m /\
    pp_match_index p' = pp_match_index p.
Proof.
  intros Hp Hd Hds Hrpc.
  destruct (align_snapshot_ok _ _ _ _ Hp Hd) as (Ha & Hidx & Hoff).
  unfold send_snapshot_chunk. unfold bind at 1. rewrite take_rpc_id_eq by done.
  unfold put_progress. run. node_simpl.
  eexists _, _. split; [reflexivity|]. split_and!.
  - destruct Ha as [H1 H2 H3 H4 H5 H6 H7 H8 H9 H10].
    constructor; progress_simpl; try done; try lia.
    + eapply Forall_impl; [exact H6|]. cbv beta. lia.
    + by apply push_bounded_len.
    + apply push_bounded_Forall.
      * progress_simpl. unfold kSnapshotChunkSize. split_and!; [lia|lia|lia|lia|].
        exists d. split; [done|lia].
      * eapply Forall_impl; [exact H10|]. cbv beta. intros r (Hr & Hr2 & Hr3 & Hr4).
        split_and!; [lia|lia|done..].
  - refine (LeaderSnapshot s d _ _ _ Hds _ _); unfold kSnapshotChunkSize; lia.
  - cbn. unfold align_snapshot. by destruct (_ =? _).
Qed.

Lemma send_log_entries_eq T peer p d s :
  LogInv T (n_log s) -> last_log_index s < u64_max ->
  ProgressOk (last_log_index s) (n_next_rpc_id s) d p ->
  1 <= n_next_rpc_id s < u64_max ->
  exists p' m, send_log_entries peer p s = (sent peer p' m s, Ok tt) /\
    ProgressOk (last_log_index s) (n_next_rpc_id s + 1) d p' /\ LeaderMessage s m /\
    pp_match_index p' = pp_match_index p.
Proof.
  intros Hl Hmax Hp Hrpc. unfold send_log_entries.
  pose proof (LogInv_base _ _ Hl) as Hb. rewrite <- base_index_of in Hb.
  pose proof (LogInv_last _ _ Hl) as Hlast. rewrite <- base_index_of, <- last_log_index_of in Hlast.
  pose proof (LogInv_nonempty _ _ Hl) as Hne.
  unfold bind at 1, get.
  rewrite (u64_small (base_index s + 1)) by (unfold is_u64, u64_max in *; lia).
  set (next := Z.max (pp_next_index p) (base_index s + 1)).
  assert (base_index s + 1 <= next <= last_log_index s + 1 /\ pp_match_index p + 1 <= next) as Hnext.
  { pose proof (po_next _ _ _ _ Hp). subst next. lia. }
  cbv zeta. rewrite (u64_small (next - 1)), (u64_small (next - base_index s))
    by (unfold is_u64, u64_max in *; lia).
  replace (next - base_index s) with (next - 1 - base_index s + 1) by lia.
  destruct (entry_at_ok _ s (next - 1) Hl ltac:(lia)) as (e & Ee & He & _).
  unfold bind at 1. rewrite Ee. unfold bind at 1. rewrite take_rpc_id_eq by done.
  destruct (collect_entries_prefix (cfg_max_append_entries (n_config s))
    (cfg_max_append_bytes (n_config s)) [] 0
    (drop (Z.to_nat (next - 1 - base_index s + 1)) (n_log s))) as [k ->]. rewrite app_nil_l.
  unfold put_progress. run. node_simpl.
  set (entries := take k _).
  assert (match last entries with Some e0 => le_index e0 | None => next - 1 end
          <= last_log_index s) as Hnl.
  { destruct (last entries) as [e0|] eqn:E0; [|lia].
    rewrite last_lookup in E0. apply lookup_take_Some in E0 as [E0 _].
    rewrite lookup_drop in E0. rewrite (li_index _ _ Hl _ _ E0), <- base_index_of.
    apply lookup_lt_Some in E0. lia. }
  eexists _, _. split; [reflexivity|]. split_and!.
  - destruct Hp as [H1 H2 H3 H4 H5 H6 H7 H8 H9 H10].
    constructor; progress_simpl; try done; try lia.
    + by apply push_bounded_len.
    + apply push_bounded_Forall; [progress_simpl; lia|].
      eapply Forall_impl; [exact H6|]. cbv beta. lia.
    + eapply Forall_impl; [exact H10|]. cbv beta. intros r (Hr & Hr2 & Hr3 & Hr4).
      split_and!; [lia|lia|done..].
  - refine (LeaderAppend s (next - 1) e k _ _ He). lia.
  - done.
Qed.

Lemma send_append_entries_eq peer s :
  Inv s -> n_role s = leader -> is_Some (n_peer_progress s !! peer) ->
  n_next_rpc_id s < u64_max ->
  exists p m, send_append_entries peer s = (sent peer p m s, Ok tt) /\
    ProgressOk (last_log_index s) (n_next_rpc_id s + 1) (n_durable_snapshot s) p /\
    LeaderMessage s m /\
    (forall q, n_peer_progress s !! peer = Some q -> pp_match_index p = pp_match_index q).
Proof.
  intros H Hr [p Hp] Hrpc. pose proof (inv_role _ H) as Hrole. unfold RoleOk in Hrole.
  rewrite Hr in Hrole. destruct Hrole as (_ & _ & _ & Hmax & _ & Hall).
  pose proof (inv_log _ H) as Hl. pose proof (inv_rpc _ H) as Hrpc1.
  pose proof (LogInv_last _ _ Hl) as Hlast. pose proof (LogInv_base _ _ Hl) as Hb.
  pose proof (LogInv_nonempty _ _ Hl) as Hne.
  rewrite <- base_index_of in *. rewrite <- last_log_index_of in *.
  pose proof (Hall _ _ Hp) as Hpo. unfold send_append_entries, progress_at. run.
  rewrite Hp. run.
  rewrite (u64_small (last_log_index s + 1)) by (unfold is_u64, u64_max in *; lia).
  rewrite Z.min_l by (pose proof (po_next _ _ _ _ Hpo); lia).
  unfold put_progress. run.
  set (p1 := set_next_index (pp_next_index p) p).
  assert (ProgressOk (last_log_index s) (n_next_rpc_id s) (n_durable_snapshot s) p1) as Hp1.
  { apply ProgressOk_next; [done|]. apply (po_next _ _ _ _ Hpo). }
  set (s1 := set_peer_progress _ s).
  assert (forall p2 m, sent peer p2 m s1 = sent peer p2 m s) as Hsent.
  { intros p2 m. unfold sent, s1. node_simpl. by rewrite insert_insert_eq. }
  pose proof (inv_snapshot _ H) as Hsnap.
  assert (forall d, n_durable_snapshot s = d ->
    exists p' m, send_log_entries peer p1 s1 = (sent peer p' m s1, Ok tt) /\
      ProgressOk (last_log_index s) (n_next_rpc_id s + 1) d p' /\ LeaderMessage s1 m /\
      pp_match_index p' = pp_match_index p) as Hlog.
  { intros d <-.
    exact (send_log_entries_eq _ peer p1 _ s1 Hl Hmax Hp1 (conj (proj1 Hrpc1) Hrpc)). }
  assert (forall m, LeaderMessage s1 m -> LeaderMessage s m) as Hmsg.
  { intros m [prev e k rpc ? ?|d offset n rpc ? ? ?];
    [by refine (LeaderAppend s prev e k rpc _ _)|by refine (LeaderSnapshot s d offset n rpc _ _ _)]. }
  destruct (n_durable_snapshot s) as [d|] eqn:Ed.
  - destruct (_ <=? _).
    + destruct (send_snapshot_chunk_eq peer p1 d s1 Hp1 ltac:(lia) Ed (conj (proj1 Hrpc1) Hrpc))
        as (p' & m & E & ? & ? & Hmi).
      exists p', m. rewrite E, Hsent. split_and!; auto. intros q Hx. by simplify_eq.
    + destruct (Hlog _ eq_refl) as (p' & m & E & ? & ? & Hmi). exists p', m. rewrite E, Hsent.
      split_and!; auto. intros q Hx. by simplify_eq.
  - destruct (Hlog _ eq_refl) as (p' & m & E & ? & ? & Hmi). exists p', m. rewrite E, Hsent.
    split_and!; auto. intros q Hx. by simplify_eq.
Qed.

Lemma ProgressOk_mono last last' rpc rpc' d p :
  last <= last' -> rpc <= rpc' -> ProgressOk last rpc d p ->
  pp_next_index p <= last' + 1 -> ProgressOk last' rpc' d p.
Proof.
  intros Hl Hr [H1 H2 H3 H4 H5 H6 H7 H8 H9 H10] Hn.
  constructor; try done; try lia. eapply Forall_impl; [exact H6|]. cbv beta. lia.
Qed.

Lemma sent_Inv peer p m s :
  Inv s -> n_role s = leader -> is_Some (n_peer_progress s !! peer) -> n_next_rpc_id s < u64_max ->
  ProgressOk (last_log_index s) (n_next_rpc_id s + 1) (n_durable_snapshot s) p ->
  Inv (sent peer p m s).
Proof.
  intros H Hr Hp Hrpc Hpo. destruct H as [Hc Ht Hl Hs Hci Ha Hv Hld Hvs Hrp Hrole].
  constructor; unfold sent; node_simpl; try done; [lia|].
  unfold RoleOk in *. node_simpl. rewrite Hr in *.
  destruct Hrole as (H1 & H2 & H3 & H4 & Hdom & Hall). split_and!; try done.
  - intros q. rewrite <- Hdom. destruct (decide (q = peer)) as [->|Hne].
    + rewrite lookup_insert_eq. split; eauto.
    + by rewrite lookup_insert_ne.
  - intros q x Hx. destruct (decide (q = peer)) as [->|Hne].
    + rewrite lookup_insert_eq in Hx. by simplify_eq.
    + rewrite lookup_insert_ne in Hx by done. pose proof (Hall _ _ Hx) as Hq.
      eapply ProgressOk_mono; [reflexivity| |exact Hq|apply (po_next _ _ _ _ Hq)]. lia.
Qed.

(** The effect of any number of sends by a leader. *)
Record Sends (s s' : Impl) : Prop := {
  sends_eq : exists new pr r,
    s' = set_actions (n_actions s ++ new) (set_next_rpc_id r (set_peer_progress pr s)) /\
    Forall (fun a => exists to m, a = SendMessage to m /\ LeaderMessage s m) new;
  sends_rpc : n_next_rpc_id s <= n_next_rpc_id s';
  sends_match : forall peer p', n_peer_progress s' !! peer = Some p' ->
    exists p, n_peer_progress s !! peer = Some p /\ pp_match_index p' = pp_match_index p;
}.

Lemma Sends_refl s : Sends s s.
Proof.
  constructor; [|lia|eauto]. exists [], (n_peer_progress s), (n_next_rpc_id s).
  rewrite app_nil_r. split; [by destruct s|constructor].
Qed.

Lemma LeaderMessage_same s s' m :
  n_config s' = n_config s -> n_current_term s' = n_current_term s -> n_log s' = n_log s ->
  n_durable_snapshot s' = n_durable_snapshot s -> n_commit_index s' = n_commit_index s ->
  LeaderMessage s m -> LeaderMessage s' m.
Proof.
  intros Hc Ht Hl Hd Hci HL.
  destruct HL as [prev e k rpc H1 H2|d offset n rpc H1 H2 H3].
  - pose proof (LeaderAppend s' prev e k rpc) as HA. unfold self_id in *.
    rewrite !base_index_of, !last_log_index_of in *. rewrite Hc, Ht, Hl, Hci in HA. by apply HA.
  - pose proof (LeaderSnapshot s' d offset n rpc) as HA. unfold self_id in *.
    rewrite Hc, Ht, Hd in HA. by apply HA.
Qed.

Lemma Sends_trans s1 s2 s3 : Sends s1 s2 -> Sends s2 s3 -> Sends s1 s3.
Proof.
  intros [(n1 & p1 & r1 & -> & F1) R1 M1] [(n2 & p2 & r2 & -> & F2) R2 M2].
  constructor.
  - exists (n1 ++ n2), p2, r2. node_simpl. rewrite app_assoc. split; [done|].
    apply Forall_app. split; [done|]. eapply Forall_impl; [exact F2|].
    intros a (to & m & -> & Hm). exists to, m. split; [done|].
    eapply LeaderMessage_same; [..|exact Hm]; done.
  - etransitivity; done.
  - intros peer p' Hp'. destruct (M2 _ _ Hp') as (p & Hp & ->). by apply M1.
Qed.

Lemma send_append_entries_Inv peer s :
  Inv s -> n_role s = leader -> is_Some (n_peer_progress s !! peer) ->
  n_next_rpc_id s < u64_max ->
  exists s', send_append_entries peer s = (s', Ok tt) /\ Inv s' /\ Sends s s' /\
    n_next_rpc_id s' = n_next_rpc_id s + 1.
Proof.
  intros H Hr Hp Hrpc.
  destruct (send_append_entries_eq peer s H Hr Hp Hrpc) as (p & m & E & Hpo & Hm & Hq).
  exists (sent peer p m s). split_and!; [done|by apply sent_Inv| |done].
  constructor; [|unfold sent; node_simpl; lia|].
  - exists [SendMessage peer m], (<[peer:=p]> (n_peer_progress s)), (n_next_rpc_id s + 1).
    split; [done|]. repeat constructor. eauto.
  - unfold sent. node_simpl. intros q p' Hp'. destruct (decide (q = peer)) as [->|Hne].
    + rewrite lookup_insert_eq in Hp'. simplify_eq. destruct Hp as [p0 Hp0]. eauto.
    + rewrite lookup_insert_ne in Hp' by done. eauto.
Qed.

(** Sends change neither membership, roles nor the log. *)
Lemma Sends_frame s s' :
  Sends s s' -> n_config s' = n_config s /\ n_role s' = n_role s /\
    n_current_term s' = n_current_term s /\ n_log s' = n_log s /\
    n_commit_index s' = n_commit_index s /\ n_votes_received s' = n_votes_received s.
Proof. by intros [(? & ? & ? & -> & _) _ _]. Qed.

Lemma for_each_sends s0 (l : list NodeId) s :
  Inv s -> n_role s = leader -> n_config s = n_config s0 ->
  (forall v, v ∈ l -> v ∈ cfg_voters (n_config s0)) ->
  n_next_rpc_id s + size_of l <= u64_max ->
  exists s', for_each l (fun voter =>
      when (negb (voter =? self_id s0)) (send_append_entries voter)) s = (s', Ok tt) /\
    Inv s' /\ Sends s s' /\ n_next_rpc_id s' <= n_next_rpc_id s + size_of l.
Proof.
  revert s. induction l as [|v l IH]; intros s H Hr Hcfg Hin Hrpc; cbn [for_each].
  { exists s. split_and!; [done|done|apply Sends_refl|unfold size_of; lia]. }
  unfold size_of in *. cbn [length] in *.
  assert (exists s1, when (negb (v =? self_id s0)) (send_append_entries v) s = (s1, Ok tt) /\
    Inv s1 /\ Sends s s1 /\ n_next_rpc_id s1 <= n_next_rpc_id s + 1) as (s1 & E1 & H1 & S1 & R1).
  { destruct (Z.eqb_spec v (self_id s0)) as [->|Hne]; cbn [negb when].
    - exists s. split_and!; [done|done|apply Sends_refl|lia].
    - destruct (send_append_entries_Inv v s H Hr) as (s1 & E & ? & ? & ?);
        [|lia|exists s1; split_and!; [done..|lia]].
      pose proof (inv_role _ H) as Hrole. unfold RoleOk in Hrole. rewrite Hr in Hrole.
      apply Hrole. rewrite Hcfg. split; [apply Hin; by left|]. unfold self_id in *. by rewrite Hcfg. }
  destruct (Sends_frame _ _ S1) as (Hc1 & Hr1 & _).
  destruct (IH s1) as (s2 & E2 & H2 & S2 & R2); [done|congruence|congruence| |lia|].
  { intros w Hw. apply Hin. by right. }
  exists s2. split_and!; [|done|by eapply Sends_trans|lia].
  unfold bind. rewrite E1. exact E2.
Qed.

Lemma broadcast_Inv s :
  Inv s -> n_role s = leader -> n_next_rpc_id s + 7 <= u64_max ->
  exists s', broadcast_append_entries s = (s', Ok tt) /\ Inv s' /\ Sends s s'.
Proof.
  intros H Hr Hrpc. pose proof (co_size _ (inv_config _ H)) as Hsz.
  destruct (for_each_sends s (cfg_voters (n_config s)) s) as (s' & E & ? & ? & _);
    [done|done|done|done|lia|].
  exists s'. unfold broadcast_append_entries, bind, get. rewrite E. auto.
Qed.
End Invariant.
