(* ===== verification/RaftStep.v ===== *)
(** * What one operation of a Raft node may change

    [Step s new s'] collects what every operation guarantees about the state it
    leaves and the actions it emits: terms, votes and commitment only grow,
    committed entries stay, a leader only appends, the emitted [Persist*] actions
    replayed in order give exactly the node's persistent state, and the emitted
    [Apply*] actions hand the log to the state machine in index order without
    gaps.  [Step] composes, and every internal operation of the node is shown to
    return normally, to preserve [Inv] and to be a [Step]. *)

From S2P Require Import Prelude RaftTypes RaftNode RaftInvariant.

(** ** Log positions *)

Definition log_at (l : list LogEntry) (i : LogIndex) : option LogEntry :=
  if i <? base_of l then None else l !! Z.to_nat (i - base_of l).
Definition term_at (l : list LogEntry) (i : LogIndex) : option Term := le_term <$> log_at l i.

(** [l'] still has what [l] holds up to index [n], except for what its sentinel
    covers. *)
Definition agree_upto (n : LogIndex) (l l' : list LogEntry) : Prop :=
  forall i, base_of l' <= i <= n ->
    term_at l' i = term_at l i /\ (base_of l' < i -> log_at l' i = log_at l i).

Lemma agree_upto_refl n l : agree_upto n l l.
Proof. by intros i Hi. Qed.

Lemma agree_upto_trans n n' l1 l2 l3 :
  n <= n' -> base_of l2 <= base_of l3 ->
  agree_upto n l1 l2 -> agree_upto n' l2 l3 -> agree_upto n l1 l3.
Proof.
  intros Hn Hb H1 H2 i Hi. destruct (H1 i ltac:(lia)) as [T1 E1].
  destruct (H2 i ltac:(lia)) as [T2 E2]. split; [congruence|].
  intros Hlt. rewrite E2, E1 by lia. done.
Qed.

Lemma log_at_lookup l k e :
  (forall j x, l !! j = Some x -> le_index x = base_of l + Z.of_nat j) ->
  l !! k = Some e -> log_at l (le_index e) = Some e.
Proof.
  intros Hidx Hk. unfold log_at. rewrite (Hidx _ _ Hk).
  rewrite (proj2 (Z.ltb_ge _ _)) by lia.
  by replace (Z.to_nat (base_of l + Z.of_nat k - base_of l)) with k by lia.
Qed.

Lemma log_at_app l k i :
  l <> [] -> i < base_of l + size_of l -> log_at (l ++ k) i = log_at l i.
Proof.
  intros Hl Hi. unfold log_at. rewrite base_of_app by done.
  destruct (Z.ltb_spec i (base_of l)); [done|].
  apply lookup_app_l. unfold size_of in *. lia.
Qed.

Lemma log_at_take l n i :
  (0 < n)%nat -> i < base_of l + Z.of_nat n -> log_at (take n l) i = log_at l i.
Proof.
  intros Hn Hi. unfold log_at. rewrite base_of_take by done.
  destruct (Z.ltb_spec i (base_of l)); [done|].
  apply lookup_take_lt. lia.
Qed.

(** Appending keeps everything. *)
Lemma agree_upto_app n l k :
  l <> [] -> n < base_of l + size_of l -> agree_upto n l (l ++ k).
Proof.
  intros Hl Hn i Hi. unfold term_at. rewrite log_at_app by (done || lia). done.
Qed.

(** Cutting the log back and appending keeps what is below the cut. *)
Lemma agree_upto_cut n c l k :
  l <> [] -> (0 < c <= length l)%nat -> n < base_of l + Z.of_nat c ->
  agree_upto n l (take c l ++ k).
Proof.
  intros Hl Hc Hn i Hi. unfold term_at.
  assert (take c l <> []) as Hne by (destruct l, c; done || lia).
  rewrite log_at_app by (done || unfold size_of; rewrite ?base_of_take, length_take by lia; lia).
  rewrite log_at_take by lia. done.
Qed.

(** Replacing a covered prefix by a sentinel of the same term keeps the rest. *)
Lemma agree_upto_compact n l idx e :
  base_of l <= idx -> l !! Z.to_nat (idx - base_of l) = Some e ->
  agree_upto n l (sentinel idx (le_term e) :: drop (Z.to_nat (idx - base_of l + 1)) l).
Proof.
  intros Hidx He i Hi. cbn in Hi. unfold term_at, log_at.
  cbn [base_of sentinel head default le_index from_option id].
  rewrite !(proj2 (Z.ltb_ge _ _)) by lia.
  destruct (decide (i = idx)) as [->|Hne].
  - rewrite Z.sub_diag, He. split; [done|lia].
  - rewrite lookup_cons_ne_0, lookup_drop by lia.
    by replace (Z.to_nat (idx - base_of l + 1) + pred (Z.to_nat (i - idx)))%nat
      with (Z.to_nat (i - base_of l)) by lia.
Qed.

(** ** Durable state and the state machine, as the actions describe them *)

Definition ps_base (p : RaftPersistentState) : LogIndex := snapshot_index_of (ps_snapshot p).

(** What carrying out one action makes durable. *)
Definition persist (a : Action) (p : RaftPersistentState) : RaftPersistentState :=
  match a with
  | PersistHardState term voted_for =>
      mkRaftPersistentState term voted_for (ps_snapshot p) (ps_log p)
  | PersistLog from entries =>
      mkRaftPersistentState (ps_current_term p) (ps_voted_for p) (ps_snapshot p)
        (take (Z.to_nat (from - ps_base p - 1)) (ps_log p) ++ entries)
  | PersistSnapshot d =>
      let covered := Z.to_nat (sm_last_included_index d - ps_base p) in
      mkRaftPersistentState (ps_current_term p) (ps_voted_for p) (Some d)
        (match ps_log p !! pred covered with
         | Some e => if le_term e =? sm_last_included_term d then drop covered (ps_log p) else []
         | None => []
         end)
  | _ => p
  end.

Definition replay (actions : Actions) (p : RaftPersistentState) : RaftPersistentState :=
  foldl (fun p a => persist a p) p actions.

Lemma replay_app l k p : replay (l ++ k) p = replay k (replay l p).
Proof. apply foldl_app. Qed.

(** The index the state machine reaches, [None] when it would be given an entry
    out of turn or a snapshot of its past. *)
Fixpoint observe (applied : LogIndex) (actions : Actions) : option LogIndex :=
  match actions with
  | [] => Some applied
  | ApplyEntry e :: rest =>
      if le_index e =? applied + 1 then observe (le_index e) rest else None
  | ApplySnapshot d :: rest =>
      if applied <? sm_last_included_index d then observe (sm_last_included_index d) rest else None
  | _ :: rest => observe applied rest
  end.

(** The role that the [RoleChanged] actions announce last. *)
Definition announce (role : Role) (a : Action) : Role :=
  match a with RoleChanged _ to _ _ => to | _ => role end.
Definition announced (role : Role) (actions : Actions) : Role := foldl announce role actions.

Lemma announced_app r l k : announced r (l ++ k) = announced (announced r l) k.
Proof. apply foldl_app. Qed.

Lemma announced_none r l : Forall (fun a => announce r a = r) l -> announced r l = r.
Proof. unfold announced. induction 1 as [|a l Ha _ IH]; cbn; [done|]. by rewrite Ha. Qed.

Lemma observe_app a l k : observe a (l ++ k) = observe a l ≫= fun b => observe b k.
Proof.
  revert a. induction l as [|x l IH]; intros a; [done|].
  destruct x; cbn; try apply IH; by case_match.
Qed.

(** ** Hard state along a sequence of actions *)

(** [p'] has a later term, or the same term and no other vote. *)
Definition hard_le (p p' : RaftPersistentState) : Prop :=
  ps_current_term p <= ps_current_term p' /\
  (ps_current_term p' = ps_current_term p ->
   forall v, ps_voted_for p = Some v -> ps_voted_for p' = Some v).

Lemma hard_le_refl p : hard_le p p.
Proof. by split. Qed.

Lemma hard_le_trans p1 p2 p3 : hard_le p1 p2 -> hard_le p2 p3 -> hard_le p1 p3.
Proof.
  intros [T1 V1] [T2 V2]. split; [lia|]. intros Ht v Hv. apply V2; [lia|]. apply V1; [lia|done].
Qed.

(** Every hard state written is [t], [v]. *)
Definition writes_hard (t : Term) (v : option NodeId) (a : Action) : Prop :=
  match a with PersistHardState t' v' => t' = t /\ v' = v | _ => True end.
Definition no_hard (a : Action) : Prop :=
  match a with PersistHardState _ _ => False | _ => True end.

Lemma hard_once p new t v k :
  Forall (writes_hard t v) new -> ps_current_term p <= t ->
  (t = ps_current_term p -> forall x, ps_voted_for p = Some x -> v = Some x) ->
  hard_le p (replay (take k new) p).
Proof.
  intros Hw Ht Hv. apply (Forall_take _ k) in Hw. revert Hw. generalize (take k new) as l. clear k new. intros l Hw.
  assert (forall q, hard_le p q -> hard_le p (replay l q)) as Hgen; [|apply Hgen, hard_le_refl].
  induction Hw as [|a l Ha _ IH]; intros q Hq; [done|].
  cbn [replay foldl]. apply IH. destruct a; try done.
  cbn in Ha. destruct Ha as [-> ->]. split; [done|]. exact Hv.
Qed.

Lemma hard_none p new k : Forall no_hard new -> hard_le p (replay (take k new) p).
Proof.
  intros Hn. apply (hard_once p new (ps_current_term p) (ps_voted_for p)); [|lia|done].
  eapply Forall_impl; [exact Hn|]. by intros [].
Qed.

(** ** Actions a store can carry out *)

(** The actions of a node fit the durable state they are for: terms and indexes
    are 64-bit, votes name voters, and log entries lie above the snapshot. *)
Definition storable (config : RaftConfig) (a : Action) (p : RaftPersistentState) : Prop :=
  match a with
  | PersistHardState t v => is_u64 t /\ forall x, v = Some x -> x ∈ cfg_voters config
  | PersistLog from entries =>
      ps_base p < from /\ from + size_of entries <= u64_max + 1 /\ entries <> []
  | PersistSnapshot d => is_u64 (sm_last_included_index d) /\ is_u64 (sm_last_included_term d)
  | _ => True
  end.

Fixpoint all_storable (config : RaftConfig) (actions : Actions) (p : RaftPersistentState) : Prop :=
  match actions with
  | [] => True
  | a :: rest => storable config a p /\ all_storable config rest (persist a p)
  end.

Lemma all_storable_app c l k p :
  all_storable c (l ++ k) p <-> all_storable c l p /\ all_storable c k (replay l p).
Proof.
  revert p. induction l as [|a l IH]; intros p; cbn [app all_storable replay foldl]; [tauto|].
  rewrite IH. unfold replay. tauto.
Qed.

Ltac step_fields :=
  constructor; node_simpl; try done; try lia; try congruence; try apply agree_upto_refl;
  try (intros _ _ _; split; [reflexivity|apply agree_upto_refl]);
  try (intros; apply hard_none; by repeat constructor).

Section Step.
Context {RNG : UniformRandom}.

(** The state a restart would read back. *)
Definition persistent_of (s : Impl) : RaftPersistentState :=
  mkRaftPersistentState (n_current_term s) (n_voted_for s) (n_durable_snapshot s) (tail (n_log s)).

Record Step (s : Impl) (new : Actions) (s' : Impl) : Prop := {
  st_actions : n_actions s' = n_actions s ++ new;
  st_config : n_config s' = n_config s;
  st_term : n_current_term s <= n_current_term s';
  st_vote : n_current_term s' = n_current_term s ->
    forall v, n_voted_for s = Some v -> n_voted_for s' = Some v;
  st_follower : n_current_term s' = n_current_term s -> n_role s = follower -> n_role s' = follower;
  st_leader : n_current_term s' = n_current_term s -> n_role s = leader -> n_role s' <> candidate;
  st_base : base_index s <= base_index s';
  st_commit : n_commit_index s <= n_commit_index s';
  st_committed : agree_upto (n_commit_index s) (n_log s) (n_log s');
  st_append_only : n_role s = leader -> n_role s' = leader ->
    n_current_term s' = n_current_term s ->
    last_log_index s <= last_log_index s' /\ agree_upto (last_log_index s) (n_log s) (n_log s');
  st_rpc : n_next_rpc_id s <= n_next_rpc_id s';
  st_persist : replay new (persistent_of s) = persistent_of s';
  st_observe : observe (n_last_applied s) new = Some (n_last_applied s');
  st_applied : forall e, ApplyEntry e ∈ new -> le_index e <= n_commit_index s' /\
    (base_index s' < le_index e -> log_at (n_log s') (le_index e) = Some e);
  st_hard : forall k, hard_le (persistent_of s) (replay (take k new) (persistent_of s));
  st_storable : all_storable (n_config s) new (persistent_of s);
  st_role : announced (n_role s) new = n_role s';
  st_reign : n_role s = leader -> Forall (fun a => announce leader a = leader) new ->
    n_current_term s' = n_current_term s;
}.

Lemma Step_trans s1 n1 s2 n2 s3 :
  Step s1 n1 s2 -> Step s2 n2 s3 -> Step s1 (n1 ++ n2) s3.
Proof.
  intros A B. pose proof (st_term _ _ _ A). pose proof (st_term _ _ _ B).
  pose proof (st_base _ _ _ A) as Ba. pose proof (st_base _ _ _ B) as Bb.
  pose proof (st_commit _ _ _ A) as Ca. pose proof (st_commit _ _ _ B) as Cb.
  rewrite !base_index_of in Ba, Bb.
  constructor.
  - by rewrite (st_actions _ _ _ B), (st_actions _ _ _ A), app_assoc.
  - by rewrite (st_config _ _ _ B), (st_config _ _ _ A).
  - lia.
  - intros Ht v Hv. apply (st_vote _ _ _ B); [lia|]. apply (st_vote _ _ _ A); [lia|done].
  - intros Ht Hr. apply (st_follower _ _ _ B); [lia|]. apply (st_follower _ _ _ A); [lia|done].
  - intros Ht Hr. destruct (n_role s2) eqn:E2.
    + rewrite (st_follower _ _ _ B); [done|lia|done].
    + by apply (st_leader _ _ _ A) in Hr; [|lia].
    + apply (st_leader _ _ _ B); [lia|done].
  - rewrite !base_index_of. lia.
  - lia.
  - eapply agree_upto_trans; [exact Ca|exact Bb|apply A|apply B].
  - intros Hr Hr3 Ht. destruct (n_role s2) eqn:E2.
    + by rewrite (st_follower _ _ _ B) in Hr3 by (done || lia).
    + by apply (st_leader _ _ _ A) in Hr; [|lia].
    + destruct (st_append_only _ _ _ A Hr E2 ltac:(lia)) as [L1 G1].
      destruct (st_append_only _ _ _ B E2 Hr3 ltac:(lia)) as [L2 G2].
      split; [lia|]. by eapply agree_upto_trans.
  - etransitivity; [apply A|apply B].
  - by rewrite replay_app, (st_persist _ _ _ A), (st_persist _ _ _ B).
  - rewrite observe_app, (st_observe _ _ _ A). apply B.
  - intros e He. apply elem_of_app in He as [He|He]; [|by apply (st_applied _ _ _ B)].
    destruct (st_applied _ _ _ A e He) as [Hc Hin]. split; [lia|]. intros Hlt.
    rewrite base_index_of in *. rewrite <- Hin by lia.
    apply (st_committed _ _ _ B); lia.
  - intros k. rewrite take_app, replay_app. destruct (Nat.le_gt_cases k (length n1)) as [Hk|Hk].
    + rewrite (proj2 (Nat.sub_0_le _ _)) by done. apply (st_hard _ _ _ A).
    + rewrite (take_ge n1 k) by lia. rewrite (st_persist _ _ _ A). eapply hard_le_trans; [|apply (st_hard _ _ _ B)].
      rewrite <- (st_persist _ _ _ A), <- (take_ge n1 (length n1)) by done. apply (st_hard _ _ _ A).
  - apply all_storable_app. split; [apply A|]. rewrite (st_persist _ _ _ A), <- (st_config _ _ _ A). apply B.
  - by rewrite announced_app, (st_role _ _ _ A), (st_role _ _ _ B).
  - intros Hr Hf. apply Forall_app in Hf as [F1 F2]. rewrite (st_reign _ _ _ B), (st_reign _ _ _ A); try done.
    by rewrite <- (st_role _ _ _ A), Hr, announced_none.
Qed.

(** Actions that neither persist nor apply anything. *)
Definition inert (a : Action) : bool :=
  match a with
  | SendMessage _ _ | RoleChanged _ _ _ _ | CommitAdvanced _ _ | ProposalRejected _ => true
  | _ => false
  end.

Lemma replay_inert new p : Forall (fun a => inert a) new -> replay new p = p.
Proof.
  intros H. revert p. induction H as [|a l Ha _ IH]; intros p; [done|].
  destruct a; done || apply IH.
Qed.

Lemma storable_inert c new p : Forall (fun a => inert a) new -> all_storable c new p.
Proof.
  intros H. revert p. induction H as [|a l Ha _ IH]; intros p; [done|]. split; [by destruct a|apply IH].
Qed.

Lemma observe_inert new a : Forall (fun a => inert a) new -> observe a new = Some a.
Proof. induction 1 as [|x l Hx _ IH]; [done|]. by destruct x. Qed.

(** A step that leaves term, vote, log and snapshot alone. *)
Lemma Step_inert s new s' :
  Inv s -> n_actions s' = n_actions s ++ new -> Forall (fun a => inert a) new ->
  n_config s' = n_config s -> n_current_term s' = n_current_term s ->
  n_voted_for s' = n_voted_for s ->
  (n_role s = follower -> n_role s' = follower) -> (n_role s = leader -> n_role s' <> candidate) ->
  n_log s' = n_log s -> n_durable_snapshot s' = n_durable_snapshot s ->
  n_commit_index s' = n_commit_index s -> n_last_applied s' = n_last_applied s ->
  n_next_rpc_id s <= n_next_rpc_id s' -> announced (n_role s) new = n_role s' -> Step s new s'.
Proof.
  intros HI Ha Hn Hc Ht Hv Hr1 Hr2 Hl Hd Hci Hla Hrpc Hrole.
  assert (base_index s' = base_index s) by (rewrite !base_index_of; by rewrite Hl).
  assert (last_log_index s' = last_log_index s) by (rewrite !last_log_index_of; by rewrite Hl).
  constructor; rewrite ?Hl; try done; try lia; try (by intros _).
  - intros _ v. by rewrite Hv.
  - intros _ _ _. split; [lia|apply agree_upto_refl].
  - rewrite replay_inert by done. unfold persistent_of. by rewrite Ht, Hv, Hl, Hd.
  - rewrite observe_inert by done. by rewrite Hla.
  - intros e He. rewrite Forall_forall in Hn. by apply Hn in He.
  - intros k. apply hard_none. eapply Forall_impl; [exact Hn|]. by intros [].
  - by apply storable_inert.
Qed.

Lemma Step_refl s : Inv s -> Step s [] s.
Proof. intros H. apply Step_inert; try done; try lia; [by rewrite app_nil_r|congruence]. Qed.

Lemma Sends_Step s s' : Inv s -> Sends s s' -> exists new, Step s new s' /\
  Forall (fun a => exists to m, a = SendMessage to m /\ LeaderMessage s m) new.
Proof.
  intros H [(new & pr & r & -> & F) R M]. exists new. split; [|done].
  apply Step_inert; node_simpl; try done; [|congruence|apply announced_none];
    (eapply Forall_impl; [exact F|]); intros a (to & m & -> & _); done.
Qed.

(** ** Running operations *)

(** [m], run from [s], returns [a] and leaves [s'] in [Inv], having emitted [new]. *)
Definition runs {A} (m : M Impl A) (s : Impl) (a : A) (new : Actions) (s' : Impl) : Prop :=
  m s = (s', Ok a) /\ Inv s' /\ Step s new s'.

Lemma runs_bind {A B} (m : M Impl A) (k : A -> M Impl B) s a n1 s1 b n2 s2 :
  runs m s a n1 s1 -> runs (k a) s1 b n2 s2 -> runs (bind m k) s b (n1 ++ n2) s2.
Proof.
  intros (E1 & _ & S1) (E2 & I2 & S2). split_and!; [|done|by eapply Step_trans].
  unfold bind. by rewrite E1.
Qed.

Lemma runs_ret {A} (a : A) s : Inv s -> runs (ret a) s a [] s.
Proof. intros H. split_and!; [done..|by apply Step_refl]. Qed.

(** The messages among the actions. *)
Definition Msgs (P : NodeId -> Message -> Prop) (new : Actions) : Prop :=
  Forall (fun a => match a with SendMessage to m => P to m | _ => True end) new.
Definition Silent (new : Actions) : Prop := Msgs (fun _ _ => False) new.

Lemma Msgs_app P n1 n2 : Msgs P n1 -> Msgs P n2 -> Msgs P (n1 ++ n2).
Proof. intros H1 H2. by apply Forall_app. Qed.

Lemma Msgs_impl (P Q : NodeId -> Message -> Prop) new :
  (forall to m, P to m -> Q to m) -> Msgs P new -> Msgs Q new.
Proof. intros HPQ H. eapply Forall_impl; [exact H|]. intros []; eauto. Qed.

Lemma Silent_Msgs P new : Silent new -> Msgs P new.
Proof. by apply Msgs_impl. Qed.

(** What a message claims about the node that sent it. *)
Definition Speaks (s : Impl) (to : NodeId) (m : Message) : Prop :=
  match m with
  | MRequestVote r =>
      rv_term r = n_current_term s /\ rv_candidate_id r = self_id s /\
      n_role s = candidate /\ n_voted_for s = Some (self_id s) /\
      rv_last_log_index r = last_log_index s /\ rv_last_log_term r = last_log_term s
  | MRequestVoteResponse r =>
      rvr_term r = n_current_term s /\ (rvr_vote_granted r = true -> n_voted_for s = Some to)
  | MAppendEntries _ | MInstallSnapshot _ => n_role s = leader /\ LeaderMessage s m
  | MAppendEntriesResponse r =>
      aer_term r = n_current_term s /\
      (aer_success r = true -> aer_match_index r <= last_log_index s)
  | MInstallSnapshotResponse r => insr_term r = n_current_term s
  end.

Lemma Speaks_same s s' to m :
  n_config s' = n_config s -> n_role s' = n_role s -> n_current_term s' = n_current_term s ->
  n_voted_for s' = n_voted_for s -> n_log s' = n_log s ->
  n_durable_snapshot s' = n_durable_snapshot s -> n_commit_index s' = n_commit_index s ->
  Speaks s to m -> Speaks s' to m.
Proof.
  intros Hc Hr Ht Hv Hl Hd Hci. unfold Speaks, self_id, last_log_index, last_log_term, log_back.
  rewrite Hc, Hr, Ht, Hv, Hl. destruct m; try done; intros [? HL]; (split; [done|]);
    by eapply LeaderMessage_same; [..|exact HL].
Qed.

(** *** Becoming a follower *)

Lemma become_follower_runs term l s :
  Inv s -> term <= u64_max -> (forall v, l = Some v -> v ∈ cfg_voters (n_config s)) ->
  exists new s', runs (become_follower term l) s tt new s' /\ Silent new /\
    n_role s' = follower /\ n_leader_id s' = l /\
    n_current_term s' = Z.max (n_current_term s) term /\
    n_log s' = n_log s /\ n_config s' = n_config s /\ n_commit_index s' = n_commit_index s /\
    n_last_applied s' = n_last_applied s /\ n_next_rpc_id s' = n_next_rpc_id s /\
    n_durable_snapshot s' = n_durable_snapshot s /\
    n_incoming_snapshot s' = n_incoming_snapshot s /\
    n_voted_for s' = (if n_current_term s <? term then None else n_voted_for s).
Proof.
  intros H Ht Hl. destruct (become_follower_Inv term l s H Ht Hl) as (s0 & E0 & I0 & _).
  destruct (become_follower_eq term l s) as (d & g & E).
  rewrite E0 in E. injection E as E. cbv zeta in E.
  match type of E with _ = set_actions (_ ++ ?new) ?x => exists new, s0 end.
  split; [split_and!; [done|done|]|].
  2:{ subst s0. destruct (Z.ltb_spec (n_current_term s) term);
      (split; [|node_simpl; split_and!; try done; lia]); case_decide; repeat constructor. }
  subst s0. destruct (Z.ltb_spec (n_current_term s) term) as [Hlt|Hge].
  - pose proof (inv_term _ H). case_decide; step_fields; try (intros e He; exfalso; set_solver);
      try (intros Hlead Hfa; exfalso; congruence);
      try (intros Hlead Hfa; apply Forall_cons in Hfa as [Hfa _]; done);
      try (intros k; apply (hard_once _ _ term None); cbn; try lia; by repeat constructor);
      cbn; unfold is_u64, u64_max in *; split_and!; try done; lia.
  - case_decide; step_fields; intros e He; exfalso; set_solver.
Qed.

(** *** Commitment *)

Lemma apply_committed_eq T n s :
  LogInv T (n_log s) -> base_index s <= n_last_applied s ->
  n_last_applied s + Z.of_nat n <= last_log_index s ->
  apply_committed n s =
    (set_actions (n_actions s ++
        map ApplyEntry (take n (drop (Z.to_nat (n_last_applied s - base_index s + 1)) (n_log s))))
      (set_last_applied (n_last_applied s + Z.of_nat n) s), Ok tt).
Proof.
  intros Hl. pose proof (LogInv_base _ _ Hl) as Hb. pose proof (li_max _ _ Hl) as Hmax.
  rewrite <- base_index_of in Hb. rewrite <- last_log_index_of in Hmax.
  revert s Hl Hb Hmax. induction n as [|n IH]; intros s Hl Hb Hmax Ha Hn; cbn [apply_committed].
  { rewrite take_0, Z.add_0_r. cbn [map]. rewrite app_nil_r. by destruct s. }
  run. node_simpl. rewrite u64_small by (unfold is_u64, u64_max in *; lia).
  set (s1 := set_last_applied (n_last_applied s + 1) s).
  destruct (entry_at_ok T s1 (n_last_applied s + 1) Hl) as (e & Ee & He & _).
  { change (last_log_index s1) with (last_log_index s).
    change (base_index s1) with (base_index s). lia. }
  rewrite Ee. change (base_index s1) with (base_index s) in He. change (n_log s1) with (n_log s) in He.
  rewrite IH; [|done|done|done|change (base_index s <= n_last_applied s + 1); lia|
    change (n_last_applied s + 1 + Z.of_nat n <= last_log_index s); lia].
  unfold s1. node_simpl. f_equal.
  replace (Z.to_nat (n_last_applied s - base_index s + 1))
    with (Z.to_nat (n_last_applied s + 1 - base_index s)) by lia.
  rewrite (drop_S _ _ _ He). cbn [take map]. rewrite <- app_assoc. cbn [app].
  change (base_index (set_actions ?a (set_last_applied ?x s))) with (base_index s).
  replace (Z.to_nat (n_last_applied s + 1 - base_index s + 1))
    with (S (Z.to_nat (n_last_applied s + 1 - base_index s))) by lia.
  replace (n_last_applied s + 1 + Z.of_nat n) with (n_last_applied s + Z.of_nat (S n)) by lia.
  done.
Qed.

Lemma observe_entries a l :
  (forall k e, l !! k = Some e -> le_index e = a + 1 + Z.of_nat k) ->
  observe a (map ApplyEntry l) = Some (a + size_of l).
Proof.
  unfold size_of. revert a. induction l as [|e l IH]; intros a Hl; cbn [map observe].
  { f_equal. cbn [length]. lia. }
  pose proof (Hl 0%nat e eq_refl) as He. rewrite (proj2 (Z.eqb_eq _ _)) by lia.
  rewrite IH.
  - f_equal. cbn [length]. lia.
  - intros k e' Hk. rewrite (Hl (S k) e' Hk). lia.
Qed.

Lemma replay_entries l p : replay (map ApplyEntry l) p = p.
Proof. revert p. by induction l as [|e l IH]. Qed.

Lemma storable_entries c l p : all_storable c (map ApplyEntry l) p.
Proof. revert p. by induction l as [|e l IH]. Qed.

(** Committing up to [c] hands exactly the entries up to [c] to the state machine. *)
Lemma commit_to_runs c s :
  Inv s -> n_commit_index s < c <= last_log_index s ->
  exists new, Silent new /\
    runs (commit_to c) s tt new
      (set_actions (n_actions s ++ new) (set_last_applied c (set_commit_index c s))).
Proof.
  intros H Hc. pose proof (inv_log _ H) as Hl. pose proof (inv_commit _ H) as Hci.
  pose proof (inv_applied _ H) as Hla. pose proof (LogInv_last _ _ Hl) as Hlen.
  rewrite <- base_index_of, <- last_log_index_of in Hlen.
  set (n := Z.to_nat (c - n_last_applied s)).
  set (es := take n (drop (Z.to_nat (n_last_applied s - base_index s + 1)) (n_log s))).
  exists (CommitAdvanced (n_commit_index s) c :: map ApplyEntry es).
  assert (forall k e, es !! k = Some e ->
    n_log s !! (Z.to_nat (n_last_applied s - base_index s + 1) + k)%nat = Some e /\
    le_index e = n_last_applied s + 1 + Z.of_nat k /\ (k < n)%nat) as Hes.
  { intros k e Hk. subst es. apply lookup_take_Some in Hk as [Hk Hlt]. rewrite lookup_drop in Hk.
    split_and!; [done| |done]. rewrite (li_index _ _ Hl _ _ Hk), <- base_index_of. lia. }
  split_and!; [|split_and!|..].
  - constructor; [done|]. apply Forall_forall. intros a Ha.
    apply list_elem_of_fmap in Ha as (e & -> & _). done.
  - unfold commit_to. run. node_simpl.
    rewrite (apply_committed_eq (n_current_term s)); node_simpl; [|done|change (base_index s <= n_last_applied s); lia
      |change (n_last_applied s + Z.of_nat n <= last_log_index s); lia].
    change (base_index (set_actions ?a (set_commit_index ?x s))) with (base_index s).
    fold n. fold es. rewrite <- app_assoc.
    replace (n_last_applied s + Z.of_nat n) with c by lia. done.
  - destruct H. constructor; node_simpl; try done.
    change (base_index s <= c <= last_log_index s). lia.
  - step_fields.
    + cbn [replay foldl persist]. apply replay_entries.
    + cbn [observe]. rewrite observe_entries by (intros k e Hk; by apply Hes).
      unfold size_of, es. rewrite length_take, length_drop. f_equal. lia.
    + intros e He. apply elem_of_cons in He as [He|He]; [done|].
      apply list_elem_of_fmap in He as (e' & [= <-] & He).
      apply list_elem_of_lookup in He as [k Hk]. destruct (Hes k e Hk) as (Hk1 & Hk2 & Hk3).
      split; [lia|]. intros _. eapply log_at_lookup; [|exact Hk1]. apply (li_index _ _ Hl).
    + intros k. apply hard_none. constructor; [done|]. apply Forall_map, Forall_true. done.
    + split; [done|]. apply storable_entries.
    + apply announced_none. constructor; [done|]. apply Forall_map, Forall_true. done.
Qed.

Lemma advance_follower_commit_runs c s :
  Inv s -> exists new, Silent new /\
    let c' := Z.max (n_commit_index s) (Z.min c (last_log_index s)) in
    runs (advance_follower_commit c) s tt new
      (set_actions (n_actions s ++ new) (set_last_applied c' (set_commit_index c' s))).
Proof.
  intros H. unfold advance_follower_commit. pose proof (inv_applied _ H) as Ha.
  destruct (Z.leb_spec (Z.min c (last_log_index s)) (n_commit_index s)) as [Hle|Hgt].
  - exists []. split; [constructor|]. cbv zeta. rewrite Z.max_l by done.
    rewrite app_nil_r. pose proof (runs_ret tt s H) as (E & _ & S0).
    assert (set_actions (n_actions s) (set_last_applied (n_commit_index s)
      (set_commit_index (n_commit_index s) s)) = s) as ->.
    { rewrite <- Ha at 1. by destruct s. }
    split_and!; [|done..]. unfold bind, get. by rewrite (proj2 (Z.leb_le _ _)).
  - destruct (commit_to_runs (Z.min c (last_log_index s)) s H) as (new & Hn & E & I & S1); [lia|].
    exists new. split; [done|]. cbv zeta. rewrite Z.max_r by lia. split_and!; [|done..].
    unfold bind, get. by rewrite (proj2 (Z.leb_gt _ _)).
Qed.

(** The leader's commit scan stops at the highest index of its own term that a
    quorum holds. *)
Lemma leader_commit_scan_runs n s :
  Inv s -> n_commit_index s + Z.of_nat n <= last_log_index s ->
  exists b c new, Silent new /\
    runs (leader_commit_scan n) s b new
      (set_actions (n_actions s ++ new) (set_last_applied c (set_commit_index c s))) /\
    n_commit_index s <= c <= n_commit_index s + Z.of_nat n /\
    (b = true -> term_at (n_log s) c = Some (n_current_term s) /\ quorum s <= replicated s c) /\
    (b = false -> c = n_commit_index s) /\
    (forall i, c < i <= n_commit_index s + Z.of_nat n ->
       term_at (n_log s) i = Some (n_current_term s) -> replicated s i < quorum s).
Proof.
  intros H. induction n as [|n IH]; intros Hn.
  - exists false, (n_commit_index s), []. pose proof (inv_applied _ H) as Ha.
    split; [constructor|]. rewrite app_nil_r.
    assert (set_actions (n_actions s) (set_last_applied (n_commit_index s)
      (set_commit_index (n_commit_index s) s)) = s) as ->.
    { rewrite <- Ha at 1. by destruct s. }
    split_and!; try done; try lia. by apply runs_ret.
  - pose proof (inv_commit _ H). pose proof (inv_log _ H) as Hl.
    set (i := n_commit_index s + Z.of_nat (S n)) in *.
    destruct (entry_at_ok _ s i Hl ltac:(lia)) as (e & Ee & He & Hidx).
    assert (term_at (n_log s) i = Some (le_term e)) as Hterm.
    { unfold term_at. rewrite <- Hidx. erewrite log_at_lookup; [done|apply (li_index _ _ Hl)|done]. }
    assert (leader_commit_scan (S n) s =
      if negb (le_term e =? n_current_term s) then leader_commit_scan n s
      else if replicated s i <? quorum s then leader_commit_scan n s
      else (commit_to i ;; ret true) s) as Hrun.
    { cbn [leader_commit_scan]. unfold bind, get. fold i. rewrite Ee. by repeat case_match. }
    destruct (negb (le_term e =? n_current_term s) || (replicated s i <? quorum s)) eqn:Eskip.
    + destruct (IH ltac:(lia)) as (b & c & new & Hs & (E & I & S1) & Hc & Ht & Hf & Hall).
      exists b, c, new. split_and!; try done; try lia.
      * split_and!; [|done..]. rewrite Hrun, <- E. by destruct (negb _), (_ <? _).
      * intros j Hj Htj. destruct (decide (j = i)) as [->|Hne]; [|apply Hall; [lia|done]].
        rewrite Hterm in Htj. injection Htj as Htj. rewrite Htj, Z.eqb_refl in Eskip.
        cbn in Eskip. lia.
    + apply orb_false_iff in Eskip as [Eterm Erep]. rewrite Eterm, Erep in Hrun.
      destruct (commit_to_runs i s H ltac:(lia)) as (new & Hs & E & I & S1).
      exists true, i, new. split_and!; try done; try lia.
      * split_and!; [|done..]. rewrite Hrun. unfold bind. by rewrite E.
      * intros _. apply negb_false_iff, Z.eqb_eq in Eterm. rewrite Hterm, Eterm. split; [done|lia].
Qed.

Lemma advance_leader_commit_runs s :
  Inv s -> exists b c new, Silent new /\
    runs advance_leader_commit s b new
      (set_actions (n_actions s ++ new) (set_last_applied c (set_commit_index c s))) /\
    n_commit_index s <= c <= last_log_index s /\
    (b = true -> term_at (n_log s) c = Some (n_current_term s) /\ quorum s <= replicated s c) /\
    (b = false -> c = n_commit_index s) /\
    (forall i, c < i <= last_log_index s ->
       term_at (n_log s) i = Some (n_current_term s) -> replicated s i < quorum s).
Proof.
  intros H. pose proof (inv_commit _ H) as Hc.
  destruct (leader_commit_scan_runs (Z.to_nat (last_log_index s - n_commit_index s)) s H ltac:(lia))
    as (b & c & new & Hs & Hr & Hb & Ht & Hf & Hall).
  exists b, c, new. split_and!; try done; try lia. intros i Hi. apply Hall. lia.
Qed.

Lemma ps_base_of s : Inv s -> ps_base (persistent_of s) = base_index s.
Proof.
  intros H. pose proof (inv_snapshot _ H) as Hs. unfold ps_base, persistent_of; cbn.
  destruct (n_durable_snapshot s) as [d|]; [apply Hs|by rewrite Hs].
Qed.

(** *** Leading *)

Lemma Sends_runs (m : M Impl unit) s s' :
  Inv s -> n_role s = leader -> m s = (s', Ok tt) -> Inv s' -> Sends s s' ->
  exists new, runs m s tt new s' /\ Msgs (Speaks s') new.
Proof.
  intros H Hr E H' HS. destruct (Sends_Step _ _ H HS) as (new & HStep & Hm).
  exists new. split; [done|]. eapply Forall_impl; [exact Hm|].
  intros a (to & msg & -> & HL). destruct HS as [(new' & pr & r & -> & _) _ _].
  assert (LeaderMessage (set_actions (n_actions s ++ new') (set_next_rpc_id r (set_peer_progress pr s)))
    msg) by by eapply LeaderMessage_same; [..|exact HL].
  by destruct HL.
Qed.

Lemma broadcast_runs s :
  Inv s -> n_role s = leader -> n_next_rpc_id s + 7 <= u64_max ->
  exists new s', runs broadcast_append_entries s tt new s' /\ Sends s s' /\ Msgs (Speaks s') new.
Proof.
  intros H Hr Hrpc. destruct (broadcast_Inv s H Hr Hrpc) as (s' & E & I & HS).
  destruct (Sends_runs _ s s' H Hr E I HS) as (new & ? & ?). eauto.
Qed.

Lemma send_append_entries_runs peer s :
  Inv s -> n_role s = leader -> is_Some (n_peer_progress s !! peer) -> n_next_rpc_id s < u64_max ->
  exists new s', runs (send_append_entries peer) s tt new s' /\ Sends s s' /\ Msgs (Speaks s') new.
Proof.
  intros H Hr Hp Hrpc. destruct (send_append_entries_Inv peer s H Hr Hp Hrpc) as (s' & E & I & HS & _).
  destruct (Sends_runs _ s s' H Hr E I HS) as (new & ? & ?). eauto.
Qed.

Lemma last_of_snoc l e : last_of (l ++ [e]) = le_index e.
Proof. unfold last_of. by rewrite last_snoc. Qed.

Lemma append_local_entry_runs kind cmd s :
  Inv s -> n_role s = leader -> last_log_index s + 1 < u64_max ->
  let e := mkLogEntry (last_log_index s + 1) (n_current_term s) kind cmd in
  runs (append_local_entry kind cmd) s tt [PersistLog (le_index e) [e]]
    (set_actions (n_actions s ++ [PersistLog (le_index e) [e]]) (set_log (n_log s ++ [e]) s)).
Proof.
  intros H Hr Hroom e. pose proof (inv_log _ H) as Hl. pose proof (LogInv_last _ _ Hl) as Hlast.
  pose proof (LogInv_base _ _ Hl) as Hb. pose proof (LogInv_nonempty _ _ Hl) as Hne.
  rewrite <- base_index_of in *. rewrite <- last_log_index_of in *.
  assert (n_log s <> []) as Hnil by (intros E; rewrite E in Hne; simpl in Hne; lia).
  assert (LogInv (n_current_term s) (n_log s ++ [e])) as Hl'.
  { apply LogInv_snoc; try done; [|unfold e; cbn [le_index]; lia].
    pose proof (inv_role _ H) as Hrole. unfold RoleOk in Hrole. rewrite Hr in Hrole. tauto. }
  assert (base_of (n_log s ++ [e]) = base_of (n_log s)) as Hbase by by apply base_of_app.
  split_and!.
  - unfold append_local_entry. run. rewrite u64_small by (unfold is_u64, u64_max in *; lia). done.
  - destruct H as [Hc Ht _ Hs Hci Ha Hv Hld Hvs Hrpc Hrole]. constructor; node_simpl; try done.
    + unfold base_index, log_front in *. node_simpl. destruct (n_log s); done.
    + change (base_of (n_log s ++ [e]) <= n_commit_index s <= last_of (n_log s ++ [e])).
      rewrite last_of_snoc, Hbase. change (base_of (n_log s)) with (base_index s).
      unfold e; cbn [le_index]. lia.
    + unfold RoleOk in *. node_simpl.
      change (last_log_index (set_actions _ _)) with (last_of (n_log s ++ [e])).
      rewrite last_of_snoc. unfold e; cbn [le_index]. rewrite Hr in *.
      destruct Hrole as (H1 & H2 & H3 & H4 & Hdom & Hall). split_and!; try done.
      intros q x Hx. pose proof (Hall q x Hx) as Hq. eapply ProgressOk_mono; [|reflexivity|exact Hq|].
      * lia.
      * pose proof (po_next _ _ _ _ Hq). lia.
  - assert (agree_upto (last_log_index s) (n_log s) (n_log s ++ [e])) as Hag.
    { apply agree_upto_app; [done|]. rewrite <- base_index_of. unfold size_of. lia. }
    pose proof (inv_commit _ H). step_fields.
    + rewrite !base_index_of. node_simpl. by rewrite Hbase.
    + intros i Hi. apply Hag. lia.
    + intros _ _ _. split; [|done]. rewrite (last_log_index_of (set_actions _ _)). node_simpl.
      rewrite last_of_snoc. unfold e; cbn [le_index]. lia.
    + cbn. unfold persistent_of. node_simpl. f_equal.
      pose proof (ps_base_of s H) as Hpb. unfold persistent_of in Hpb. rewrite Hpb.
      destruct (n_log s) as [|x l] eqn:El; [done|]. cbn [tail app length] in *.
      rewrite take_ge by lia. done.
    + intros x Hx. exfalso. set_solver.
    + split; [|done]. split_and!; [|unfold e, size_of; cbn [le_index length]; lia|done]. rewrite (ps_base_of s H). unfold e; cbn [le_index]. lia.
Qed.

(** *** Elections *)

Lemma fresh_progress_lookup (s : Impl) next peer :
  NoDup (cfg_voters (n_config s)) ->
  (list_to_map (map (fun voter => (voter, fresh_progress next))
     (filter (fun voter => voter <> self_id s) (cfg_voters (n_config s)))) : gmap NodeId PeerProgress)
    !! peer =
  if decide (peer ∈ cfg_voters (n_config s) /\ peer <> self_id s)
  then Some (fresh_progress next) else None.
Proof.
  intros Hnd. set (l := filter _ _).
  assert ((map (fun voter => (voter, fresh_progress next)) l).*1 = l) as Hfst.
  { rewrite <- list_fmap_compose. apply list_fmap_id. }
  destruct (decide _) as [[Hin Hne]|Hno].
  - apply elem_of_list_to_map_1; [rewrite Hfst; by apply NoDup_filter|].
    apply list_elem_of_fmap. exists peer. split; [done|]. by apply list_elem_of_filter.
  - apply not_elem_of_list_to_map_1. rewrite Hfst. unfold l. rewrite list_elem_of_filter. tauto.
Qed.

(** The state in which a new leader appends its no-op. *)
Lemma lead_Inv s h a :
  Inv s -> n_role s = candidate -> last_log_index s < u64_max ->
  let s1 := set_actions (n_actions s ++ [RoleChanged candidate leader a (Some (self_id s))])
    (set_heartbeat_deadline h
      (set_peer_progress
         (list_to_map (map (fun voter => (voter, fresh_progress (last_log_index s + 1)))
            (filter (fun voter => voter <> self_id s) (cfg_voters (n_config s)))))
         (set_votes_received ∅ (set_leader_id (Some (self_id s)) (set_role leader s))))) in
  Inv s1 /\ Step s [RoleChanged candidate leader a (Some (self_id s))] s1.
Proof.
  intros H Hr Hroom s1. pose proof (inv_log _ H) as Hl. pose proof (LogInv_base _ _ Hl).
  pose proof (inv_commit _ H) as Hci. rewrite <- base_index_of in *.
  split; [|subst s1; apply Step_inert; node_simpl; try done; try congruence; by repeat constructor].
  destruct H as [Hc Ht _ Hs _ Ha Hv Hld Hvs Hrpc Hrole].
  unfold RoleOk in Hrole. rewrite Hr in Hrole. destruct Hrole as (_ & Hvote & Hterm).
  constructor; subst s1; node_simpl; try done.
  - intros v [= <-]. apply Hc.
  - unfold RoleOk; node_simpl. split_and!; try done.
    + intros peer. change (self_id (set_actions _ _)) with (self_id s).
      rewrite fresh_progress_lookup by apply Hc.
      by destruct (decide _); split.
    + intros q x Hx. rewrite fresh_progress_lookup in Hx by apply Hc.
      destruct (decide _); [|done]. injection Hx as <-.
      change (last_log_index (set_actions _ _)) with (last_log_index s).
      constructor; unfold fresh_progress; progress_simpl; try done; try lia; try constructor.
Qed.

Lemma become_leader_runs s :
  Inv s -> n_role s = candidate -> last_log_index s + 1 < u64_max ->
  n_next_rpc_id s + 7 <= u64_max ->
  exists new s', runs become_leader s tt new s' /\ Msgs (Speaks s') new /\
    n_role s' = leader /\ n_current_term s' = n_current_term s.
Proof.
  intros H Hr Hroom Hrpc. pose proof (LogInv_base _ _ (inv_log _ H)) as Hb.
  pose proof (inv_commit _ H) as Hci. rewrite <- base_index_of in Hb.
  set (h := saturating_add (n_now s) (cfg_heartbeat_interval (n_config s))).
  destruct (lead_Inv s h (n_current_term s) H Hr ltac:(lia)) as [I1 S1]. cbv zeta in I1, S1.
  match type of I1 with Inv ?x => set (s1 := x) in * end.
  pose proof (append_local_entry_runs no_op [] s1 I1 eq_refl Hroom) as R2. cbv zeta in R2.
  match type of R2 with runs _ _ _ _ ?x => set (s2 := x) in * end.
  destruct (advance_leader_commit_runs s2 (proj1 (proj2 R2))) as (b & c & n3 & Hs3 & R3 & _).
  match type of R3 with runs _ _ _ _ ?x => set (s3 := x) in * end.
  destruct (broadcast_runs s3 (proj1 (proj2 R3)) eq_refl Hrpc) as (n4 & s4 & R4 & HS & HM).
  destruct (Sends_frame _ _ HS) as (_ & Hr4 & Ht4 & _).
  destruct R2 as (E2 & _ & S2), R3 as (E3 & _ & S3), R4 as (E4 & I4 & S4).
  eexists _, s4. split; [split_and!|split_and!].
  - unfold become_leader. run.
    rewrite u64_small by (unfold is_u64, u64_max in *; lia). rewrite Hr.
    match goal with |- context [append_local_entry no_op [] ?x] => change x with s1 end.
    by rewrite E2, E3.
  - done.
  - eapply Step_trans; [exact S1|]. eapply Step_trans; [exact S2|].
    eapply Step_trans; [exact S3|exact S4].
  - apply Msgs_app; [by repeat constructor|]. apply Msgs_app; [by repeat constructor|].
    apply Msgs_app; [by apply Silent_Msgs|done].
  - by rewrite Hr4.
  - by rewrite Ht4.
Qed.

Lemma push_action_eq a (s : Impl) : push_action a s = (set_actions (n_actions s ++ [a]) s, Ok tt).
Proof. done. Qed.

Lemma for_each_request self (msg : Message) (l : list NodeId) (s : Impl) :
  for_each l (fun voter => when (negb (voter =? self)) (push_action (SendMessage voter msg))) s =
    (set_actions (n_actions s ++
       map (fun v => SendMessage v msg) (filter (fun v => v <> self) l)) s, Ok tt).
Proof.
  revert s. induction l as [|v l IH]; intros s; cbn [for_each].
  { cbn. rewrite app_nil_r. by destruct s. }
  unfold bind. rewrite filter_cons. destruct (Z.eqb_spec v self) as [->|Hne]; cbn [negb when].
  - rewrite decide_False by tauto. apply IH.
  - rewrite decide_True by done. unfold push_action, modify. rewrite IH. node_simpl.
    cbn [map]. by rewrite <- app_assoc.
Qed.

(** A candidacy before the votes are counted. *)
Lemma campaign_Inv s d g msg :
  Inv s -> n_role s <> leader -> n_current_term s < u64_max ->
  let t := n_current_term s + 1 in
  let new := (if decide (n_role s = candidate) then [] else [RoleChanged (n_role s) candidate t None])
     ++ [PersistHardState t (Some (self_id s))]
     ++ map (fun v => SendMessage v msg)
          (filter (fun v => v <> self_id s) (cfg_voters (n_config s))) in
  let s1 := set_actions (n_actions s ++ new) (set_election_deadline d (set_random g
     (set_votes_received {[self_id s]} (set_voted_for (Some (self_id s))
       (set_leader_id None (set_role candidate (set_current_term t s))))))) in
  Inv s1 /\ Step s new s1.
Proof.
  intros H Hr Ht t new s1.
  assert (Forall (fun a => inert a) (map (fun v => SendMessage v msg)
    (filter (fun v => v <> self_id s) (cfg_voters (n_config s))))) as Hin.
  { apply Forall_forall. intros a Ha. apply list_elem_of_fmap in Ha as (v & -> & _). done. }
  assert (n_peer_progress s = ∅) as Hp.
  { pose proof (inv_role _ H) as Hrole. unfold RoleOk in Hrole. destruct (n_role s); tauto. }
  split.
  - destruct H as [Hc Htm Hl Hs Hci Ha Hv Hld Hvs Hrpc Hrole].
    constructor; subst s1 t; node_simpl; try done; try lia.
    + eapply LogInv_mono; [|exact Hl]. lia.
    + intros v [= <-]. split; [apply Hc|lia].
    + intros v Hv1. apply elem_of_singleton in Hv1 as ->. apply Hc.
    + unfold RoleOk; node_simpl. split_and!; try done. lia.
  - subst s1 t new. step_fields; try (intros; lia).
    + rewrite !replay_app, (replay_inert (map _ _)) by done.
      by case_decide.
    + rewrite !observe_app. assert (forall a, observe a (if decide (n_role s = candidate) then []
        else [RoleChanged (n_role s) candidate (n_current_term s + 1) None]) = Some a) as Hx
        by by case_decide.
      rewrite Hx. cbn [mbind option_bind app observe]. apply observe_inert, Hin.
    + intros e He. exfalso. rewrite Forall_forall in Hin.
      rewrite !elem_of_app in He. destruct He as [He|[He|He]]; [case_decide; set_solver|set_solver|].
      by apply Hin in He.
    + intros k. apply (hard_once _ _ (n_current_term s + 1) (Some (self_id s))); [|cbn; lia|cbn; lia].
      apply Forall_app. split; [case_decide; repeat constructor|]. constructor; [done|].
      eapply Forall_impl; [exact Hin|]. by intros [].
    + apply all_storable_app. split; [by case_decide|]. split; [|by apply storable_inert].
      pose proof (inv_term _ H). split; [unfold is_u64, u64_max in *; lia|]. intros x [= <-].
      apply (inv_config _ H).
    + rewrite announced_app. assert (announced (n_role s) (if decide (n_role s = candidate) then []
        else [RoleChanged (n_role s) candidate (n_current_term s + 1) None]) = candidate) as ->
        by by case_decide.
      apply announced_none. constructor; [done|]. apply Forall_map, Forall_true. done.
Qed.

Lemma start_election_runs s :
  Inv s -> n_role s <> leader -> n_current_term s < u64_max ->
  last_log_index s + 1 < u64_max -> n_next_rpc_id s + 7 <= u64_max ->
  exists new s', runs start_election s tt new s' /\ Msgs (Speaks s') new /\
    n_current_term s' = n_current_term s + 1 /\ n_role s' <> follower /\
    (n_role s' = leader -> cfg_voters (n_config s) = [self_id s]) /\
    (n_role s' = candidate -> n_votes_received s' = {[self_id s]}).
Proof.
  intros H Hr Ht Hroom Hrpc. pose proof (inv_term _ H) as Hterm.
  set (msg := MRequestVote (mkRequestVote (n_current_term s + 1) (self_id s)
    (last_log_index s) (last_log_term s))).
  destruct (reset_election_deadline_eq (set_votes_received {[self_id s]}
    (set_voted_for (Some (self_id s)) (set_leader_id None (set_role candidate
      (set_current_term (n_current_term s + 1) s)))))) as (d & g & Ed).
  destruct (campaign_Inv s d g msg H Hr Ht) as [I1 S1]. cbv zeta in I1, S1.
  match type of S1 with Step _ ?x ?y => set (n1 := x) in *; set (s1 := y) in * end.
  assert (start_election s = when (quorum s <=? 1) become_leader s1) as E1.
  { unfold start_election. unfold bind at 1, get. rewrite (proj2 (Z.eqb_neq _ _)) by lia.
    unfold bind at 1, modify. rewrite u64_small by (unfold is_u64, u64_max in *; lia).
    unfold bind at 1. rewrite Ed. unfold s1, n1.
    case_bool_decide; case_decide; try congruence; cbn [negb when];
      unfold bind, get, ret; repeat (rewrite push_action_eq; cbv beta iota);
      rewrite for_each_request; node_simpl; rewrite size_singleton, <- ?app_assoc; cbn [app];
      rewrite ?app_nil_l; done. }
  destruct (Z.leb_spec (quorum s) 1) as [Hq|Hq]; cbn [when] in E1.
  - assert (cfg_voters (n_config s) = [self_id s]) as Hv.
    { destruct (inv_config _ H) as [_ Hself Hsz _ _]. unfold quorum, size_of in *.
      destruct (cfg_voters (n_config s)) as [|v [|w l]]; [set_solver| |].
      - apply list_elem_of_singleton in Hself. unfold self_id. by rewrite Hself.
      - exfalso. cbn [length] in Hq. pose proof (Z.div_le_mono 2 (Z.of_nat (S (S (length l)))) 2).
        rewrite Z.div_same in * by done. lia. }
    destruct (become_leader_runs s1 I1 eq_refl Hroom Hrpc) as (n2 & s2 & (E2 & I2 & S2) & HM & Hr2 & Ht2).
    exists (n1 ++ n2), s2. rewrite E2 in E1. split_and!; try congruence.
    + split_and!; [done|done|by eapply Step_trans].
    + apply Msgs_app; [|done]. unfold n1. rewrite Hv, filter_cons.
      rewrite (decide_False (P:=self_id s <> self_id s)) by tauto. case_decide; repeat constructor.
    + by rewrite Ht2.
  - exists n1, s1. split_and!; try done.
    + unfold n1. apply Msgs_app; [case_decide; by repeat constructor|].
      apply Msgs_app; [by repeat constructor|]. apply Forall_forall. intros a Ha.
      apply list_elem_of_fmap in Ha as (v & -> & _). done.
Qed.
End Step.
