(* ===== verification/RaftJournal.v ===== *)
(** * The journal of a Raft store, as a list of transactions

    What accepted transactions do to the persistent state: an accepted
    [PersistLog] has the effect [persist] gives it, and a journal written over
    one snapshot boundary replays over an older one. *)

From S2P Require Import Prelude Wire Protocol RaftTypes RaftNode RaftInvariant RaftStep RaftFormat.
From S2P Require Import RaftStorage.
Import RaftFormat RaftStorage.

Module RaftJournal.

Definition update_of (from : LogIndex) (es : list LogEntry) : LogUpdate :=
  {| lu_from_index := from; lu_entries := map stored es |}.

(** The transactions of a journal, applied in their order. *)
Fixpoint replay_updates (q : RaftPersistentState) (us : list LogUpdate)
    : result RaftPersistentState :=
  match us with
  | [] => Ok q
  | u :: us' =>
      match apply_log_update q u raft_corruption with
      | Throw e => Throw e
      | Ok q' => replay_updates q' us'
      end
  end.

Definition base_of (p : RaftPersistentState) : LogIndex := snapshot_base (ps_snapshot p).
Definition last_of (p : RaftPersistentState) : LogIndex := base_of p + size_of (ps_log p).

Definition set_hard (t : Term) (v : option NodeId) (p : RaftPersistentState) : RaftPersistentState :=
  mkRaftPersistentState t v (ps_snapshot p) (ps_log p).

(** ** Entries *)

Lemma entry_kind_byte k : entry_kind (kind_byte k) = Some k.
Proof. by destruct k. Qed.

Lemma entry_of_stored e : entry_of (stored e) = e.
Proof. destruct e as [i t k c]. unfold entry_of, stored. cbn. by rewrite entry_kind_byte. Qed.

Lemma map_entry_of_stored es : map entry_of (map stored es) = es.
Proof. rewrite map_map. rewrite (map_ext _ id entry_of_stored). apply map_id. Qed.

(** Entries numbered from [exp] on, with terms from [prev] on that never go
    down or past [ct], of a known kind and a bounded size. *)
Fixpoint sound_entries (ct : Term) (exp : LogIndex) (prev : Term) (es : list StoredEntry) : Prop :=
  match es with
  | [] => True
  | e :: rest =>
      se_index e = exp /\ se_term e <> 0 /\ prev <= se_term e <= ct /\
      is_Some (entry_kind (se_kind e)) /\ size_of (se_command e) <= kMaxRaftCommandSize /\
      (entry_kind (se_kind e) = Some no_op -> se_command e = []) /\
      sound_entries ct (exp + 1) (se_term e) rest
  end.

Lemma size_body_cons e es :
  size_of (body_bytes (e :: es)) = Z.of_nat kEntryHeaderSize + size_of (se_command e) + size_of (body_bytes es).
Proof. rewrite body_bytes_cons, size_of_app. unfold size_of. rewrite length_entry_bytes. lia. Qed.

Lemma size_of_zero {A} (l : list A) : size_of l = 0 <-> l = [].
Proof. unfold size_of. destruct l; cbn [length]; split; intros; done || lia. Qed.

(** The first condition of the loop. *)
Lemma entry_rejected_iff ct exp prev e :
  negb (se_index e =? exp) || (se_term e =? 0) || (se_term e <? prev) || (ct <? se_term e) ||
  negb (bool_decide (is_Some (entry_kind (se_kind e)))) ||
  (kMaxRaftCommandSize <? size_of (se_command e)) ||
  (bool_decide (entry_kind (se_kind e) = Some no_op) && negb (size_of (se_command e) =? 0)) = false <->
  se_index e = exp /\ se_term e <> 0 /\ prev <= se_term e <= ct /\
  is_Some (entry_kind (se_kind e)) /\ size_of (se_command e) <= kMaxRaftCommandSize /\
  (entry_kind (se_kind e) = Some no_op -> se_command e = []).
Proof.
  rewrite !orb_false_iff, andb_false_iff, !negb_false_iff, !Z.eqb_eq, Z.eqb_neq, !Z.ltb_ge,
    bool_decide_eq_true, bool_decide_eq_false, size_of_zero.
  destruct (decide (entry_kind (se_kind e) = Some no_op)); intuition lia.
Qed.

(** What the loop of [apply_log_update] accepts. *)
Lemma entries_accepted_iff bi bt ct exp prev enc es :
  exp + size_of es <= u64_max + 1 -> 0 <= exp -> enc <= kMaxRaftLogRecordSize ->
  entries_accepted bi bt ct exp prev enc es = true <->
  sound_entries ct exp prev es /\ enc + size_of (body_bytes es) <= kMaxRaftLogRecordSize /\
  Forall (fun e => se_index e = bi -> se_term e = bt) es.
Proof.
  revert exp prev enc. induction es as [|e es IH]; intros exp prev enc Hw He Henc;
    cbn [entries_accepted sound_entries].
  { change (size_of (body_bytes [])) with 0. split; [intros _; split_and!; [done|lia|done]|done]. }
  rewrite size_body_cons, Forall_cons. pose proof (size_of_nonneg (body_bytes es)).
  assert (size_of (e :: es) = size_of es + 1) as Hsz by (unfold size_of; cbn [length]; lia).
  pose proof (size_of_nonneg es). pose proof (size_of_nonneg (se_command e)).
  pose proof (entry_rejected_iff ct exp prev e) as Hfirst. cbn zeta. destruct (_ || _) in Hfirst |- *.
  { split; [done|]. intros ((? & ? & ? & ? & ? & ? & _) & _). exfalso.
    apply diff_true_false, Hfirst. split_and!; try done; lia. }
  destruct Hfirst as [Hfirst _]. specialize (Hfirst eq_refl). destruct Hfirst as (<- & Hf).
  destruct (Z.ltb_spec (kMaxRaftLogRecordSize - Z.of_nat kEntryHeaderSize) enc); [cbn [orb]; split; [done|lia]|].
  destruct (Z.ltb_spec (kMaxRaftLogRecordSize - enc - Z.of_nat kEntryHeaderSize) (size_of (se_command e)));
    [cbn [orb]; split; [done|lia]|]. cbn [orb].
  assert ((se_index e =? bi) && negb (se_term e =? bt) = false <-> (se_index e = bi -> se_term e = bt)) as Hb.
  { rewrite andb_false_iff, negb_false_iff, Z.eqb_eq, Z.eqb_neq.
    destruct (decide (se_index e = bi)); tauto. }
  destruct (_ && _) in Hb |- *; [intuition congruence|].
  destruct Hb as [Hb _]. specialize (Hb eq_refl).
  destruct (decide (es = [])) as [->|Hne]; [|].
  { change (size_of (body_bytes [])) with 0. cbn [sound_entries entries_accepted].
    rewrite Forall_nil. intuition (done || lia). }
  assert (size_of es <> 0) by by rewrite size_of_zero.
  rewrite (u64_small (_ + 1)) by (unfold is_u64, u64_max in *; lia). rewrite IH by lia. intuition lia.
Qed.

Definition last_term (prev : Term) (es : list StoredEntry) : Term :=
  match last es with Some e => se_term e | None => prev end.

Lemma sound_entries_app ct exp prev a b :
  sound_entries ct exp prev (a ++ b) <->
  sound_entries ct exp prev a /\ sound_entries ct (exp + size_of a) (last_term prev a) b.
Proof.
  revert exp prev. induction a as [|e a IH]; intros exp prev; cbn [app sound_entries].
  { unfold size_of. cbn. rewrite Z.add_0_r. tauto. }
  rewrite IH. replace (exp + size_of (e :: a)) with (exp + 1 + size_of a)
    by (unfold size_of; cbn [length]; lia).
  replace (last_term prev (e :: a)) with (last_term (se_term e) a); [tauto|].
  unfold last_term. rewrite last_cons. by destruct (last a).
Qed.

Lemma sound_entries_mono ct ct' exp prev es :
  ct <= ct' -> sound_entries ct exp prev es -> sound_entries ct' exp prev es.
Proof. intros Hle. revert exp prev. induction es as [|e es IH]; cbn; [done|].
  intros exp prev (? & ? & ? & ? & ? & ? & Hs). split_and!; auto; lia.
Qed.

Lemma sound_entries_lower ct ct' exp prev es :
  Forall (fun e => se_term e <= ct') es -> sound_entries ct exp prev es -> sound_entries ct' exp prev es.
Proof.
  intros Hle. revert exp prev. induction Hle as [|e es He Hle IH]; cbn; [done|].
  intros exp prev (? & ? & ? & ? & ? & ? & Hs). split_and!; auto; lia.
Qed.

Lemma sound_entries_lookup ct exp prev es i e :
  sound_entries ct exp prev es -> es !! i = Some e ->
  se_index e = exp + Z.of_nat i /\ prev <= se_term e <= ct /\ se_term e <> 0 /\
  size_of (se_command e) <= kMaxRaftCommandSize.
Proof.
  revert exp prev i. induction es as [|x es IH]; intros exp prev [|i]; cbn; try done.
  - intros (? & ? & ? & ? & ? & ? & _) [= <-]. split_and!; try done; lia.
  - intros (Hx & ? & ? & ? & ? & ? & Hs) Hi. destruct (IH _ _ _ Hs Hi) as (? & ? & ?).
    split_and!; try done; lia.
Qed.

Lemma sound_entries_take ct exp prev es n :
  sound_entries ct exp prev es -> sound_entries ct exp prev (take n es).
Proof. rewrite <- (take_drop n es) at 1. intros H. by apply sound_entries_app in H as [H _]. Qed.

Lemma sound_entries_valid ct exp prev es :
  is_u64 ct -> 0 <= exp -> 0 <= prev -> exp + size_of es <= u64_max + 1 ->
  sound_entries ct exp prev es -> Forall valid_entry es.
Proof.
  intros Hct He Hp Hw Hs. apply Forall_lookup. intros i e Hi.
  destruct (sound_entries_lookup _ _ _ _ _ _ Hs Hi) as (Hx & Ht & _ & Hc).
  apply lookup_lt_Some in Hi. unfold valid_entry, is_u64, size_of, u64_max in *. split_and!; lia.
Qed.

(** ** States *)

Record wf_state (p : RaftPersistentState) : Prop := {
  wf_term : is_u64 (ps_current_term p);
  wf_snapshot : match ps_snapshot p with
                | Some s => valid_boundary s /\ sm_last_included_term s <= ps_current_term p
                | None => True
                end;
  wf_last : last_of p <= u64_max;
  wf_log : sound_entries (ps_current_term p) (base_of p + 1) (snapshot_base_term (ps_snapshot p))
             (map stored (ps_log p))
}.

Lemma wf_base p : wf_state p ->
  0 <= base_of p < u64_max /\ 0 <= snapshot_base_term (ps_snapshot p) <= ps_current_term p.
Proof.
  intros [Ht Hs Hl _]. unfold last_of, base_of, is_u64, u64_max in *. pose proof (size_of_nonneg (ps_log p)).
  destruct (ps_snapshot p) as [s|]; cbn in *; [|lia]. unfold valid_boundary, u64_max in Hs. lia.
Qed.

(** The term of the entry before [from], and the effect of a transaction. *)
Definition term_before (p : RaftPersistentState) (from : LogIndex) : Term :=
  match Z.to_nat (from - base_of p - 1) with
  | O => snapshot_base_term (ps_snapshot p)
  | S n => match ps_log p !! n with Some e => le_term e | None => 0 end
  end.

Definition extend (p : RaftPersistentState) (u : LogUpdate) : RaftPersistentState :=
  mkRaftPersistentState (ps_current_term p) (ps_voted_for p) (ps_snapshot p)
    (take (Z.to_nat (lu_from_index u - base_of p - 1)) (ps_log p) ++ map entry_of (lu_entries u)).

(** Transactions that start above the snapshot boundary and stay within the
    indexes. *)
Definition above (b : LogIndex) (u : LogUpdate) : Prop :=
  b < lu_from_index u /\ lu_from_index u + size_of (lu_entries u) <= u64_max + 1 /\ lu_entries u <> [].

Lemma apply_log_update_iff p u code p' :
  wf_state p -> above (base_of p) u ->
  apply_log_update p u code = Ok p' <->
  lu_from_index u <= last_of p + 1 <= u64_max /\ size_of (lu_entries u) <= kMaxRaftLogEntriesPerRecord /\
  sound_entries (ps_current_term p) (lu_from_index u) (term_before p (lu_from_index u)) (lu_entries u) /\
  32 + size_of (body_bytes (lu_entries u)) <= kMaxRaftLogRecordSize /\ p' = extend p u.
Proof.
  intros Hwf (Hb & Hw & Hne). pose proof (wf_base p Hwf) as [Hbase _]. pose proof (wf_last p Hwf) as Hlast.
  pose proof (size_of_nonneg (lu_entries u)). unfold last_of in *. pose proof (size_of_nonneg (ps_log p)).
  unfold apply_log_update, base_of in *. set (b := snapshot_base (ps_snapshot p)) in *.
  set (from := lu_from_index u) in *.
  rewrite (u64_small (b + 1)), (u64_small (b + size_of (ps_log p))) by (unfold is_u64, u64_max in *; lia).
  rewrite (proj2 (Z.eqb_neq from 0)), (proj2 (Z.ltb_lt b from)) by lia. cbn [orb andb].
  destruct (decide (b + size_of (ps_log p) = u64_max)) as [Emax|Nmax].
  { rewrite Emax. change (u64 (u64_max + 1)) with 0. rewrite (proj2 (Z.ltb_lt 0 from)) by lia. cbn [orb].
    split; [done|lia]. }
  rewrite (u64_small (_ + 1)) by (unfold is_u64, u64_max in *; lia).
  assert ((if from =? b + 1 then snapshot_base_term (ps_snapshot p)
           else if b + 1 <? from then
             match ps_log p !! Z.to_nat (from - b - 2) with Some e => le_term e | None => 0 end
           else 0) = term_before p from) as ->.
  { unfold term_before, base_of. fold b. destruct (Z.eqb_spec from (b + 1)) as [->|].
    - by replace (Z.to_nat (b + 1 - b - 1)) with 0%nat by lia.
    - rewrite (proj2 (Z.ltb_lt _ _)) by lia.
      by replace (Z.to_nat (from - b - 1)) with (S (Z.to_nat (from - b - 2))) by lia. }
  destruct (Z.ltb_spec (b + size_of (ps_log p) + 1) from) as [|Hfrom]; cbn [orb]; [split; [done|lia]|].
  destruct (Z.ltb_spec kMaxRaftLogEntriesPerRecord (size_of (lu_entries u))); [split; [done|lia]|].
  pose proof (entries_accepted_iff b (snapshot_base_term (ps_snapshot p)) (ps_current_term p) from
    (term_before p from) (Z.of_nat kLogRecordHeaderSize) (lu_entries u)) as Hacc.
  destruct (entries_accepted _ _ _ _ _ _ _); cbn [negb].
  2:{ split; [done|]. intros (_ & _ & Hs & Hsz & _). exfalso. apply diff_false_true, Hacc; try done; try lia.
    split_and!; [done|done|]. apply Forall_lookup. intros i e Hi Hx.
    destruct (sound_entries_lookup _ _ _ _ _ _ Hs Hi) as [? _]. lia. }
  destruct Hacc as [Hacc _]; [lia|lia|done|]. destruct (Hacc eq_refl) as (Hs & Hsz & _).
  destruct (last (lu_entries u)) as [back|] eqn:El; [|by apply last_None in El].
  rewrite last_lookup in El. destruct (sound_entries_lookup _ _ _ _ _ _ Hs El) as [Hx _].
  rewrite (proj2 (Z.leb_gt _ _)) by lia. rewrite Z.max_l by lia.
  rewrite (proj2 (Z.ltb_ge _ _)) by lia. rewrite Z.sub_diag. cbn [Z.to_nat drop].
  change (Z.of_nat kLogRecordHeaderSize) with 32 in Hsz. split.
  - intros [= <-]. split_and!; try done; lia.
  - by intros (_ & _ & _ & _ & ->).
Qed.

Lemma kind_byte_entry b k : entry_kind b = Some k -> kind_byte k = b.
Proof. destruct b; cbn; intros H; (done || by injection H as <-). Qed.

Lemma stored_entry_of ct exp prev es : sound_entries ct exp prev es -> map stored (map entry_of es) = es.
Proof.
  revert exp prev. induction es as [|e es IH]; intros exp prev; cbn; [done|].
  intros (_ & _ & _ & [k Hk] & _ & _ & Hs). rewrite (IH _ _ Hs). f_equal.
  destruct e as [i t b c]. unfold stored, entry_of. cbn in *. rewrite Hk. cbn.
  by rewrite (kind_byte_entry b k Hk).
Qed.

Lemma last_term_take p n :
  (n <= length (ps_log p))%nat ->
  last_term (snapshot_base_term (ps_snapshot p)) (map stored (take n (ps_log p))) =
  term_before p (base_of p + 1 + Z.of_nat n).
Proof.
  intros Hn. unfold term_before, last_term.
  replace (Z.to_nat (base_of p + 1 + Z.of_nat n - base_of p - 1)) with n by lia.
  destruct n as [|n]; [done|].
  destruct (lookup_lt_is_Some_2 (ps_log p) n) as [e He]; [lia|].
  rewrite He, (take_S_r _ _ _ He), map_app, last_app. done.
Qed.

(** An accepted transaction: what it leaves, and that it can be encoded. *)
Lemma apply_wf p u code p' :
  wf_state p -> above (base_of p) u -> apply_log_update p u code = Ok p' ->
  wf_state p' /\ valid_update u.
Proof.
  intros Hwf Ha Hu. pose proof Ha as (Hb & Hw & Hne). apply apply_log_update_iff in Hu; [|done..].
  destruct Hu as (Hfrom & Hn & Hs & Hsz & ->). destruct (wf_base p Hwf) as [Hbase Hbt].
  pose proof (wf_last p Hwf) as Hlast. unfold last_of in *. pose proof (size_of_nonneg (lu_entries u)).
  set (n := Z.to_nat (lu_from_index u - base_of p - 1)).
  assert (n <= length (ps_log p))%nat as Hnl by (unfold n, size_of in *; lia).
  assert (base_of p + 1 + Z.of_nat n = lu_from_index u) as En by lia.
  pose proof (last_term_take p n Hnl) as Hprev. rewrite En in Hprev.
  assert (sound_entries (ps_current_term p) (base_of p + 1) (snapshot_base_term (ps_snapshot p))
    (map stored (take n (ps_log p)) ++ lu_entries u)) as Hsound.
  { apply sound_entries_app. split.
    - rewrite <- firstn_map. apply sound_entries_take, Hwf.
    - rewrite Hprev. unfold size_of at 1. rewrite length_map, length_take, Nat.min_l by done.
      by rewrite En. }
  split.
  - split; cbn [extend ps_current_term ps_snapshot ps_log]; [apply Hwf..| |].
    + unfold last_of, base_of, size_of in *. cbn. rewrite length_app, length_map, length_take.
      fold (base_of p) in *. fold n. lia.
    + change (base_of (extend p u)) with (base_of p). fold n.
      by rewrite map_app, (stored_entry_of _ _ _ _ Hs).
  - split_and!; try done; [unfold is_u64, u64_max in *; lia|].
    eapply sound_entries_valid; [apply Hwf| | | |exact Hs]; try lia.
    rewrite <- Hprev. unfold last_term. destruct (last _) as [e|] eqn:El; [|lia].
    rewrite last_lookup in El. apply sound_entries_app in Hsound as [Hsound _].
    destruct (sound_entries_lookup _ _ _ _ _ _ Hsound El) as (_ & ? & _). lia.
Qed.

(** An accepted [PersistLog] has the effect of [persist]. *)
Lemma apply_is_persist p from es code p' :
  wf_state p -> above (base_of p) (update_of from es) ->
  apply_log_update p (update_of from es) code = Ok p' -> p' = persist (PersistLog from es) p.
Proof.
  intros Hwf Ha Hu. apply apply_log_update_iff in Hu; [|done..]. destruct Hu as (_ & _ & _ & _ & ->).
  unfold extend, update_of. cbn. by rewrite map_entry_of_stored.
Qed.

(** ** Hard state *)

Lemma wf_set_hard p t v :
  wf_state p -> is_u64 t -> ps_current_term p <= t -> wf_state (set_hard t v p).
Proof.
  intros [H1 H2 H3 H4] Ht Hle. split; cbn; try done.
  - destruct (ps_snapshot p); [|done]. split; [tauto|]. lia.
  - by eapply sound_entries_mono.
Qed.

Lemma apply_set_hard p u code code' p' t v :
  wf_state p -> above (base_of p) u -> is_u64 t -> ps_current_term p <= t ->
  apply_log_update p u code = Ok p' ->
  apply_log_update (set_hard t v p) u code' = Ok (set_hard t v p').
Proof.
  intros Hwf Ha Ht Hle Hu. apply apply_log_update_iff in Hu; [|done..].
  destruct Hu as (H1 & H2 & H3 & H4 & ->). apply apply_log_update_iff; [by apply wf_set_hard|done|].
  split; [exact H1|]. split_and!; try done. by eapply sound_entries_mono.
Qed.

(** ** Replays *)

Lemma replay_updates_app q a b :
  replay_updates q (a ++ b) =
  match replay_updates q a with Ok q' => replay_updates q' b | Throw e => Throw e end.
Proof.
  revert q. induction a as [|u a IH]; intros q; cbn [replay_updates app]; [done|].
  by destruct (apply_log_update q u raft_corruption).
Qed.

Lemma replay_wf q us q' :
  wf_state q -> Forall (above (base_of q)) us -> replay_updates q us = Ok q' ->
  wf_state q' /\ ps_snapshot q' = ps_snapshot q /\ ps_current_term q' = ps_current_term q /\
  ps_voted_for q' = ps_voted_for q /\ Forall valid_update us.
Proof.
  revert q. induction us as [|u us IH]; intros q Hwf Hus; cbn [replay_updates].
  { intros [= <-]. split_and!; done. }
  apply Forall_cons in Hus as [Hu Hus]. destruct (apply_log_update q u _) as [q1|] eqn:E; [|done].
  intros Hr. destruct (apply_wf _ _ _ _ Hwf Hu E) as [Hwf1 Hv].
  apply apply_log_update_iff in E; [|done..]. destruct E as (_ & _ & _ & _ & ->).
  destruct (IH _ Hwf1 Hus Hr) as (? & ? & ? & ? & ?). split_and!; try done. by constructor.
Qed.

Lemma replay_set_hard q us q' t v :
  wf_state q -> Forall (above (base_of q)) us -> is_u64 t -> ps_current_term q <= t ->
  replay_updates q us = Ok q' -> replay_updates (set_hard t v q) us = Ok (set_hard t v q').
Proof.
  intros Hwf Hus Ht. revert q Hwf Hus. induction us as [|u us IH]; intros q Hwf Hus Hle; cbn [replay_updates].
  { by intros [= <-]. }
  apply Forall_cons in Hus as [Hu Hus]. destruct (apply_log_update q u _) as [q1|] eqn:E; [|done].
  intros Hr. erewrite (apply_set_hard q u _ raft_corruption q1) by done.
  destruct (apply_wf _ _ _ _ Hwf Hu E) as [Hwf1 Hv].
  apply apply_log_update_iff in E; [|done..]. destruct E as (_ & _ & _ & _ & ->).
  by apply IH.
Qed.

(** [q], replayed over an older boundary, holds the state [p] and the entries
    its snapshot covers. *)
Record covers (q p : RaftPersistentState) : Prop := {
  cov_term : ps_current_term q = ps_current_term p;
  cov_vote : ps_voted_for q = ps_voted_for p;
  cov_base : base_of q <= base_of p <= last_of q;
  cov_log : ps_log p = drop (Z.to_nat (base_of p - base_of q)) (ps_log q);
  cov_boundary : term_before q (base_of p + 1) = snapshot_base_term (ps_snapshot p)
}.

Lemma covers_last q p : covers q p -> last_of q = last_of p.
Proof.
  intros [_ _ Hb Hl _]. unfold last_of, size_of in *. rewrite Hl, length_drop. lia.
Qed.

Lemma covers_set_hard q p t v : covers q p -> covers (set_hard t v q) (set_hard t v p).
Proof. intros [? ? ? ? ?]. by split. Qed.

Lemma covers_term_before q p from :
  covers q p -> base_of p < from -> term_before q from = term_before p from.
Proof.
  intros [_ _ Hb Hl Hbd] Hf. destruct (decide (from = base_of p + 1)) as [->|Hne].
  { rewrite Hbd. unfold term_before. by replace (Z.to_nat (base_of p + 1 - base_of p - 1)) with 0%nat by lia. }
  unfold term_before.
  replace (Z.to_nat (from - base_of p - 1)) with (S (Z.to_nat (from - base_of p - 2))) by lia.
  replace (Z.to_nat (from - base_of q - 1)) with (S (Z.to_nat (from - base_of q - 2))) by lia.
  rewrite Hl, lookup_drop.
  by replace (Z.to_nat (base_of p - base_of q) + Z.to_nat (from - base_of p - 2))%nat
    with (Z.to_nat (from - base_of q - 2)) by lia.
Qed.

(** A transaction written above the snapshot boundary replays over the older
    one. *)
Lemma apply_rebase q p u code code' p' :
  covers q p -> wf_state q -> wf_state p -> above (base_of p) u ->
  apply_log_update p u code = Ok p' ->
  exists q', apply_log_update q u code' = Ok q' /\ covers q' p'.
Proof.
  intros Hc Hq Hp Ha Hu. pose proof Ha as (Hb & Hw & Hne). apply apply_log_update_iff in Hu; [|done..].
  destruct Hu as (Hfrom & Hn & Hs & Hsz & ->). exists (extend q u).
  assert (above (base_of q) u) as Haq by (destruct (cov_base _ _ Hc); split_and!; try done; lia).
  split.
  { apply apply_log_update_iff; [done..|].
    rewrite (covers_last q p), (covers_term_before q p), (cov_term q p) by done. tauto. }
  pose proof (covers_last q p Hc) as Hlast. destruct Hc as [Ht Hv Hbase Hlog Hbd].
  set (k := Z.to_nat (base_of p - base_of q)) in *. set (m := Z.to_nat (lu_from_index u - base_of q - 1)).
  assert (k <= m)%nat as Hkm by lia.
  assert (m <= length (ps_log q))%nat as Hm by (unfold last_of, size_of in *; lia).
  split; cbn [extend ps_current_term ps_voted_for ps_log]; try done.
  - change (base_of (extend p u)) with (base_of p). split; [apply Hbase|].
    unfold last_of, size_of in *. cbn. fold m. rewrite length_app, length_take.
    change (base_of (extend q u)) with (base_of q). lia.
  - change (base_of (extend p u)) with (base_of p). change (base_of (extend q u)) with (base_of q).
    fold k m. rewrite drop_app_le by (rewrite length_take; lia).
    rewrite Hlog, skipn_firstn_comm. do 2 f_equal. lia.
  - trans (term_before q (base_of p + 1)); [|exact Hbd]. unfold term_before. change (base_of (extend p u)) with (base_of p).
    change (base_of (extend q u)) with (base_of q).
    replace (Z.to_nat (base_of p + 1 - base_of q - 1)) with k by lia.
    destruct k as [|k']; [done|]. cbn [extend ps_log]. fold m.
    by rewrite lookup_app_l, lookup_take_lt by (rewrite ?length_take; lia).
Qed.

(** ** Snapshots *)

(** What [install_snapshot] accepts. *)
Definition installable (s : StateMachineSnapshot) (p : RaftPersistentState) : Prop :=
  base_of p < sm_last_included_index s < u64_max /\
  0 < sm_last_included_term s <= ps_current_term p /\
  size_of (sm_state_machine s) <= kMaxSnapshotPayloadSize.

(** The log holds the entry the snapshot ends with. *)
Definition compacts (s : StateMachineSnapshot) (p : RaftPersistentState) : Prop :=
  exists e, ps_log p !! Z.to_nat (sm_last_included_index s - base_of p - 1) = Some e /\
    le_term e = sm_last_included_term s.

Lemma suffix_is_persist s p :
  wf_state p -> installable s p ->
  mkRaftPersistentState (ps_current_term p) (ps_voted_for p) (Some s)
    (snapshot_suffix (base_of p) (ps_log p) s) = persist (PersistSnapshot s) p.
Proof.
  intros Hwf (Hi & _). destruct (wf_base p Hwf) as [Hb _]. pose proof (wf_last p Hwf) as Hl. unfold last_of in Hl.
  pose proof (size_of_nonneg (ps_log p)). cbn [persist]. change (ps_base p) with (base_of p).
  f_equal. unfold snapshot_suffix. rewrite u64_small by (unfold is_u64, u64_max in *; lia).
  replace (Nat.pred (Z.to_nat (sm_last_included_index s - base_of p)))
    with (Z.to_nat (sm_last_included_index s - base_of p - 1)) by lia.
  replace (Z.to_nat (sm_last_included_index s - base_of p - 1) + 1)%nat
    with (Z.to_nat (sm_last_included_index s - base_of p)) by lia.
  destruct (Z.leb_spec (sm_last_included_index s) (base_of p + size_of (ps_log p))); [done|].
  rewrite lookup_ge_None_2; [done|]. unfold size_of in *. lia.
Qed.

Lemma persist_snapshot_compacts s p :
  wf_state p -> installable s p -> compacts s p ->
  ps_log (persist (PersistSnapshot s) p) = drop (Z.to_nat (sm_last_included_index s - base_of p)) (ps_log p).
Proof.
  intros Hwf (Hi & _) (e & He & Ht). cbn [persist ps_log]. change (ps_base p) with (base_of p).
  replace (Nat.pred (Z.to_nat (sm_last_included_index s - base_of p)))
    with (Z.to_nat (sm_last_included_index s - base_of p - 1)) by lia.
  by rewrite He, (proj2 (Z.eqb_eq _ _) Ht).
Qed.

Lemma persist_snapshot_replaces s p :
  installable s p -> ~ compacts s p -> ps_log (persist (PersistSnapshot s) p) = [].
Proof.
  intros (Hi & _) Hn. cbn [persist ps_log]. change (ps_base p) with (base_of p).
  replace (Nat.pred (Z.to_nat (sm_last_included_index s - base_of p)))
    with (Z.to_nat (sm_last_included_index s - base_of p - 1)) by lia.
  destruct (ps_log p !! _) as [e|] eqn:He; [|done].
  destruct (Z.eqb_spec (le_term e) (sm_last_included_term s)); [|done]. exfalso. apply Hn. by exists e.
Qed.

#[export] Instance compacts_dec s p : Decision (compacts s p).
Proof.
  unfold compacts. destruct (ps_log p !! _) as [e|]; [|right; by intros (? & ? & _)].
  destruct (decide (le_term e = sm_last_included_term s)); [left; by exists e|right].
  by intros (? & [= <-] & ?).
Defined.

Lemma persist_snapshot_wf s p : wf_state p -> installable s p -> wf_state (persist (PersistSnapshot s) p).
Proof.
  intros Hwf Hin. pose proof Hin as (Hi & Ht & Hsz). destruct (wf_base p Hwf) as [Hb _].
  pose proof (wf_last p Hwf) as Hl. pose proof (wf_term p Hwf) as Hct.
  destruct (decide (compacts s p)) as [Hc|Hc].
  - pose proof (persist_snapshot_compacts s p Hwf Hin Hc) as El. destruct Hc as (e & He & Het).
    pose proof (lookup_lt_Some _ _ _ He) as Hlt.
    split; [done| | |].
    + cbn. split; [|lia]. unfold valid_boundary, is_u64, u64_max in *. lia.
    + unfold last_of, size_of in *. rewrite El, length_drop. unfold base_of at 1. cbn. lia.
    + rewrite El. cbn [persist ps_current_term ps_snapshot snapshot_base_term].
      change (base_of (persist (PersistSnapshot s) p)) with (sm_last_included_index s).
      pose proof (wf_log p Hwf) as Hs.
      rewrite <- (take_drop (Z.to_nat (sm_last_included_index s - base_of p)) (ps_log p)), map_app in Hs.
      apply sound_entries_app in Hs as [_ Hs]. rewrite last_term_take in Hs by lia.
      unfold size_of in Hs at 1. rewrite length_map, length_take, Nat.min_l in Hs by lia.
      replace (base_of p + 1 + Z.of_nat (Z.to_nat (sm_last_included_index s - base_of p)))
        with (sm_last_included_index s + 1) in Hs by lia.
      replace (term_before p (sm_last_included_index s + 1)) with (sm_last_included_term s) in Hs; [done|].
      unfold term_before. replace (Z.to_nat (sm_last_included_index s + 1 - base_of p - 1))
        with (S (Z.to_nat (sm_last_included_index s - base_of p - 1))) by lia. by rewrite He.
  - pose proof (persist_snapshot_replaces s p Hin Hc) as El. split; [done| | |].
    + cbn. split; [|lia]. unfold valid_boundary, is_u64, u64_max in *. lia.
    + unfold last_of, size_of. rewrite El. unfold base_of. cbn. lia.
    + by rewrite El.
Qed.

(** A compacting snapshot over the journal as it is. *)
Lemma covers_snapshot q p s :
  covers q p -> wf_state p -> installable s p -> compacts s p -> covers q (persist (PersistSnapshot s) p).
Proof.
  intros Hc Hwf Hin Hcm. pose proof (covers_last _ _ Hc) as Hlast.
  pose proof (persist_snapshot_compacts s p Hwf Hin Hcm) as El.
  pose proof (covers_term_before q p (sm_last_included_index s + 1) Hc) as Htb.
  destruct Hcm as (e & He & Het). pose proof (lookup_lt_Some _ _ _ He) as Hlt. destruct Hin as (Hi & _).
  destruct Hc as [Ht Hv Hb Hl _]. split; try done.
  - change (base_of (persist (PersistSnapshot s) p)) with (sm_last_included_index s).
    rewrite Hlast. unfold last_of, size_of. lia.
  - rewrite El, Hl, drop_drop. f_equal. change (base_of (persist (PersistSnapshot s) p)) with (sm_last_included_index s). lia.
  - change (base_of (persist (PersistSnapshot s) p)) with (sm_last_included_index s). rewrite Htb by lia.
    unfold term_before. replace (Z.to_nat (sm_last_included_index s + 1 - base_of p - 1))
      with (S (Z.to_nat (sm_last_included_index s - base_of p - 1))) by lia. by rewrite He.
Qed.

(** ** The journal of a snapshot *)

Lemma batch_length_spec rest n enc :
  Z.of_nat n <= kMaxRaftLogEntriesPerRecord -> enc <= kMaxRaftLogRecordSize ->
  (n = 0%nat -> forall e, head rest = Some e ->
     enc + Z.of_nat kEntryHeaderSize + size_of (le_command e) <= kMaxRaftLogRecordSize) ->
  exists j, batch_length rest n enc = (n + j)%nat /\ (j <= length rest)%nat /\
    Z.of_nat (n + j) <= kMaxRaftLogEntriesPerRecord /\
    enc + size_of (body_bytes (map stored (take j rest))) <= kMaxRaftLogRecordSize /\
    (n = 0%nat -> rest <> [] -> (1 <= j)%nat).
Proof.
  revert n enc. induction rest as [|e rest IH]; intros n enc Hn Henc Hfirst; cbn [batch_length].
  { exists 0%nat. change (size_of (body_bytes _)) with 0. split_and!; try done; try lia. }
  assert (forall b, b = n -> (n <> 0)%nat -> exists j, b = (n + j)%nat /\ (j <= length (e :: rest))%nat /\
    Z.of_nat (n + j) <= kMaxRaftLogEntriesPerRecord /\
    enc + size_of (body_bytes (map stored (take j (e :: rest)))) <= kMaxRaftLogRecordSize /\
    (n = 0%nat -> e :: rest <> [] -> (1 <= j)%nat)) as Hstop.
  { intros b -> Hn0. exists 0%nat. change (size_of (body_bytes _)) with 0. cbn [length]. split_and!; try lia; done. }
  destruct (Z.ltb_spec (Z.of_nat n) kMaxRaftLogEntriesPerRecord) as [Hlt|]; cbn [negb].
  2:{ apply Hstop; [done|]. unfold kMaxRaftLogEntriesPerRecord in *. lia. }
  set (size := Z.of_nat kEntryHeaderSize + size_of (le_command e)).
  assert (enc + size <= kMaxRaftLogRecordSize -> exists j,
    batch_length rest (S n) (enc + size) = (n + j)%nat /\ (j <= length (e :: rest))%nat /\
    Z.of_nat (n + j) <= kMaxRaftLogEntriesPerRecord /\
    enc + size_of (body_bytes (map stored (take j (e :: rest)))) <= kMaxRaftLogRecordSize /\
    (n = 0%nat -> e :: rest <> [] -> (1 <= j)%nat)) as Hgo.
  { intros Hsz. destruct (IH (S n) (enc + size)) as (j & E & Hj & Hc & Hs & _); [lia|done|done|].
    exists (S j). rewrite E. cbn [take map length]. rewrite size_body_cons. cbn [stored se_command].
    unfold size in *. split_and!; lia. }
  destruct (Nat.eqb_spec n 0) as [Hn0|Hne]; cbn [negb andb].
  - apply Hgo. specialize (Hfirst Hn0 e eq_refl). unfold size. lia.
  - destruct (Z.ltb_spec (kMaxRaftLogRecordSize - enc) size); [by apply Hstop|]. apply Hgo. lia.
Qed.

Lemma batches_replay fuel suffix from q :
  (length suffix <= fuel)%nat -> wf_state q -> last_of q + 1 = from -> from + size_of suffix <= u64_max + 1 ->
  sound_entries (ps_current_term q) from (term_before q from) (map stored suffix) ->
  Forall (above (base_of q)) (batches fuel from suffix) /\
  replay_updates q (batches fuel from suffix) =
    Ok (mkRaftPersistentState (ps_current_term q) (ps_voted_for q) (ps_snapshot q) (ps_log q ++ suffix)).
Proof.
  revert suffix from q. induction fuel as [|fuel IH]; intros suffix from q Hf Hwf Hfrom Hmax Hs.
  { destruct suffix; [|cbn in Hf; lia]. cbn. rewrite app_nil_r. by destruct q. }
  destruct suffix as [|e rest]; [cbn; rewrite app_nil_r; by destruct q|].
  cbn [batches]. set (suffix := e :: rest) in *. pose proof (wf_base q Hwf) as [Hb _].
  destruct (batch_length_spec suffix 0 (Z.of_nat kLogRecordHeaderSize)) as (k & E & Hk & Hc & Hsz & H1).
  { done. }
  { done. }
  { intros _ x [= <-]. destruct Hs as (_ & _ & _ & _ & Hcmd & _). cbn in Hcmd.
    unfold kMaxRaftCommandSize, kMaxClientCommandSize, kMaxKeySize, kMaxValueSize, kMaxRaftLogRecordSize,
      kLogRecordHeaderSize, kEntryHeaderSize in *. lia. }
  specialize (H1 eq_refl ltac:(done)). rewrite E. cbn [Nat.add] in *.
  assert (0 <= size_of (ps_log q)) by apply size_of_nonneg. unfold last_of in Hfrom.
  assert (is_u64 from) as Hu by (unfold is_u64, u64_max, size_of in *; lia). rewrite (u64_small from Hu).
  set (u := {| lu_from_index := from; lu_entries := map stored (take k suffix) |}).
  assert (size_of (lu_entries u) = Z.of_nat k) as Hlen
    by (unfold size_of; cbn; rewrite length_map, length_take; lia).
  assert (above (base_of q) u) as Ha.
  { split_and!; [cbn; lia|rewrite Hlen; cbn [u lu_from_index]; unfold size_of in *; lia|].
    intros E0. rewrite E0 in Hlen. unfold size_of in Hlen. cbn in Hlen. lia. }
  pose proof Hs as Hs'. rewrite <- (take_drop k suffix), map_app in Hs'. apply sound_entries_app in Hs' as [Hs1 Hs2].
  assert (apply_log_update q u raft_corruption = Ok (extend q u)) as Hu'.
  { apply apply_log_update_iff; [done|done|]. rewrite Hlen. split; [|by split_and!].
    cbn. unfold last_of. unfold is_u64, u64_max in *. lia. }
  destruct (apply_wf _ _ _ _ Hwf Ha Hu') as [Hwf' _].
  assert (extend q u = mkRaftPersistentState (ps_current_term q) (ps_voted_for q) (ps_snapshot q)
    (ps_log q ++ take k suffix)) as Ee.
  { unfold extend. cbn. rewrite map_entry_of_stored, take_ge by (unfold size_of in *; lia). done. }
  destruct (IH (drop k suffix) (from + Z.of_nat k) (extend q u)) as [Hab Hrep].
  - rewrite length_drop. lia.
  - done.
  - rewrite Ee. unfold last_of, base_of in *. cbn. rewrite size_of_app. unfold size_of at 2.
    rewrite length_take, Nat.min_l by done. lia.
  - unfold size_of in *. rewrite length_drop. lia.
  - change (ps_current_term (extend q u)) with (ps_current_term q).
    unfold size_of in Hs2 at 1. rewrite length_map, length_take, Nat.min_l in Hs2 by done.
    replace (term_before (extend q u) (from + Z.of_nat k)) with (last_term (term_before q from) (map stored (take k suffix)));
      [done|].
    unfold term_before at 2. change (base_of (extend q u)) with (base_of q).
    replace (Z.to_nat (from + Z.of_nat k - base_of q - 1)) with (S (length (ps_log q) + (k - 1)))
      by (unfold size_of in *; lia).
    rewrite Ee. cbn [ps_log]. rewrite lookup_app_r by lia. replace (length (ps_log q) + (k - 1) - length (ps_log q))%nat with (k - 1)%nat by lia.
    destruct (lookup_lt_is_Some_2 suffix (k - 1)) as [x Hx]; [lia|].
    rewrite lookup_take_lt, Hx by lia. unfold last_term.
    replace k with (S (k - 1)) at 1 by lia. by rewrite (take_S_r _ _ _ Hx), map_app, last_app.
  - split; [by constructor|]. cbn [replay_updates]. rewrite Hu', Hrep, Ee. cbn.
    by rewrite <- (assoc_L (++)), take_drop.
Qed.
End RaftJournal.
