(* ===== verification/RaftRecovery.v ===== *)
(** * Recovery of a Raft store

    What a directory must hold for [RaftStorage::open] to give back a state, and
    that it does. *)

From S2P Require Import Prelude Wire Checksum Protocol RaftTypes RaftNode RaftInvariant RaftStep RaftFormat.
From S2P Require Import RaftJournal Fs FsTriples Directory RaftStorage RaftFiles.
Import RaftFormat RaftJournal SnapshotStore RaftStorage.

Lemma content_flushed ino d c :
  inodes d !! ino = Some {| cached := c; stable := c |} -> content ino d = c.
Proof. intros H. unfold content. by rewrite H. Qed.

Lemma truncate_flushed ino d c :
  inodes d !! ino = Some {| cached := c; stable := c |} -> update_inode ino (truncate_bytes (length c)) d = d.
Proof. intros H. rewrite <- (content_flushed ino d c H). apply truncate_all. Qed.

Lemma flush_nothing ino d c :
  inodes d !! ino = Some {| cached := c; stable := c |} -> update_inode ino flush_bytes d = d.
Proof. intros H. apply update_inode_id. intros x. by rewrite H; intros [= <-]. Qed.

Lemma truncate_nothing ino d c :
  inodes d !! ino = Some {| cached := c; stable := c |} ->
  update_inode ino flush_bytes (update_inode ino (truncate_bytes (length c)) d) = d.
Proof. intros H. rewrite (truncate_flushed _ _ _ H). by eapply flush_nothing. Qed.

(** ** Reading the journal *)

(** The beginning of a transaction, cut off. *)
Definition torn_update (t : list byte) : Prop :=
  t = [] \/ exists u, valid_update u /\ t `prefix_of` update_bytes u /\ t <> update_bytes u.

Definition updates_bytes (us : list LogUpdate) : list byte := concat (map update_bytes us).

#[global] Arguments updates_bytes : simpl never.

Lemma updates_bytes_cons u us : updates_bytes (u :: us) = update_bytes u ++ updates_bytes us.
Proof. done. Qed.

Lemma updates_bytes_app a b : updates_bytes (a ++ b) = updates_bytes a ++ updates_bytes b.
Proof. unfold updates_bytes. by rewrite map_app, concat_app. Qed.

Lemma torn_prefix t t' : torn_update t -> t' `prefix_of` t -> torn_update t'.
Proof.
  intros [->|(u & Hv & Hp & Hne)] Ht'; [left; by apply prefix_nil_inv|].
  right. exists u. split_and!; [done|by trans t|]. intros ->. apply Hne. by apply (anti_symm prefix).
Qed.

Section RecoverLoop.
Context (faulty : Prop) (C : Disk -> Prop) (ino : nat) (d : Disk) (c : list byte).
Hypothesis file : inodes d !! ino = Some {| cached := c; stable := c |}.
Hypothesis size_fits : Z.of_nat (length c) <= off_t_max.
Abbreviation triple := (triple id faulty C).

Let cut (n : nat) : Disk := update_inode ino (truncate_bytes n) d.
Let cut_flushed (n : nat) : Disk := update_inode ino flush_bytes (cut n).

Lemma t_read_at size offset fs Q :
  disk fs = d -> (offset <= length c)%nat -> C d ->
  (forall fs', disk fs' = d -> Q (Ok (take size (drop offset c))) fs') ->
  (faulty -> forall fs', disk fs' = d -> Q (Throw raft_io_error) fs') ->
  triple (read_at ino size offset) fs Q.
Proof.
  intros Hd Ho HC H1 H2. unfold read_at. rewrite (proj2 (Z.ltb_ge _ _)) by lia.
  eapply t_calls; [apply calls_read_at|by rewrite Hd| |].
  - intros fs' E. rewrite Hd, (content_flushed ino d c) by done. apply H1. congruence.
  - intros Hf fs' E. apply H2; [done|congruence].
Qed.

Lemma t_stop (q : RaftPersistentState) offset fs Q :
  disk fs = d -> (offset <= length c)%nat -> C d -> C (cut offset) -> C (cut_flushed offset) ->
  (forall fs', disk fs' = cut_flushed offset -> Q (Ok q) fs') ->
  (faulty -> forall fs', disk fs' = d \/ disk fs' = cut offset -> Q (Throw raft_io_error) fs') ->
  triple (truncate_file ino offset ;; sync_file ino ;; ret q) fs Q.
Proof.
  intros Hd Ho HC HC1 HC2 H1 H2. unfold truncate_file. rewrite (proj2 (Z.ltb_ge _ _)) by lia.
  apply t_bind, t_truncate_to; rewrite Hd; [done|done| |intros Hf fs' E; apply H2; [done|by left]].
  intros fs1 E1. apply t_bind, t_sync_file; rewrite E1; [done|done| |intros Hf fs' E; apply H2; [done|by right]].
  intros fs2 E2. apply t_ret; [by cbn; rewrite E2|]. by apply H1.
Qed.

Lemma t_recover_torn fuel offset q t fs Q :
  disk fs = d -> drop offset c = t -> (offset <= length c)%nat -> torn_update t -> (length t <= fuel)%nat ->
  C d -> C (cut offset) -> C (cut_flushed offset) ->
  (forall fs', disk fs' = cut_flushed offset -> Q (Ok q) fs') ->
  (faulty -> forall fs', disk fs' = d \/ disk fs' = cut offset -> Q (Throw raft_io_error) fs') ->
  triple (recover_loop fuel ino (length c) offset q) fs Q.
Proof.
  intros Hd Ht Ho Htorn Hf HC HC1 HC2 H1 H2.
  assert (length t = (length c - offset)%nat) as Hlen by (rewrite <- Ht; apply length_drop).
  destruct fuel as [|fuel]; cbn [recover_loop];
    destruct (Nat.ltb_spec offset (length c)) as [Hlt|Hge]; cbn [negb]; try lia.
  1,3: apply t_ret; [by cbn; rewrite Hd|]; apply H1; rewrite Hd; unfold cut_flushed, cut;
    replace offset with (length c) by lia; symmetry; by apply truncate_nothing.
  destruct Htorn as [->|(u & Hv & Hp & Hne)]; [cbn in Hlen; lia|].
  destruct (Nat.ltb_spec (length c - offset) kLogRecordHeaderSize) as [|Hhd]; [by apply t_stop|].
  apply t_bind, t_read_at; [done|done|done| |intros Hf' fs' E; apply H2; [done|by left]].
  intros fs1 E1. rewrite Ht. destruct (verify_update_header u t Hv Hp) as (Hl & Hver & Hr & Hrange); [lia|].
  rewrite Hl, Nat.eqb_refl, Hver, Hr. cbn [negb].
  rewrite (proj2 (Z.ltb_ge (size_of _) _)), (proj2 (Z.ltb_ge _ (size_of _))) by lia. cbn [orb].
  unfold size_of. rewrite Nat2Z.id. pose proof (prefix_length _ _ Hp).
  assert (length t <> length (update_bytes u)) by (intros E; apply Hne; by apply prefix_length_eq; [|lia]).
  rewrite (proj2 (Nat.ltb_lt _ _)) by lia. by apply t_stop.
Qed.

Lemma t_recover_loop us fuel offset q0 q t fs Q :
  let stop := (length c - length t)%nat in
  disk fs = d -> drop offset c = updates_bytes us ++ t -> (offset <= length c)%nat ->
  Forall valid_update us -> torn_update t -> replay_updates q0 us = Ok q ->
  (length (updates_bytes us ++ t) <= fuel)%nat ->
  C d -> C (cut stop) -> C (cut_flushed stop) ->
  (forall fs', disk fs' = cut_flushed stop -> Q (Ok q) fs') ->
  (faulty -> forall fs', disk fs' = d \/ disk fs' = cut stop -> Q (Throw raft_io_error) fs') ->
  triple (recover_loop fuel ino (length c) offset q0) fs Q.
Proof.
  revert fuel offset q0 fs. induction us as [|u us IH];
    intros fuel offset q0 fs stop Hd Hc Ho Hus Ht Hq Hf HC HC1 HC2 H1 H2.
  { injection Hq as <-. change (updates_bytes []) with (@nil byte) in *. cbn [app] in *.
    assert (stop = offset) as -> by (unfold stop; rewrite <- Hc, length_drop; lia).
    by apply t_recover_torn with t. }
  apply Forall_cons in Hus as [Hv Hus]. rewrite updates_bytes_cons, <- (assoc_L (++)) in Hc, Hf.
  assert (length (drop offset c) = (length c - offset)%nat) as Hlen by apply length_drop.
  rewrite Hc, length_app in Hlen. rewrite length_app in Hf.
  pose proof (length_update_bytes u) as Hul. cbn [replay_updates] in Hq.
  destruct fuel as [|fuel]; [lia|]. cbn [recover_loop].
  rewrite (proj2 (Nat.ltb_lt offset _)), (proj2 (Nat.ltb_ge _ kLogRecordHeaderSize))
    by (unfold kLogRecordHeaderSize; lia). cbn [negb].
  apply t_bind, t_read_at; [done|done|done| |intros Hf' fs' E; apply H2; [done|by left]].
  intros fs1 E1. rewrite Hc, take_app_le by (unfold kLogRecordHeaderSize; lia).
  destruct (verify_update_header u (update_bytes u) Hv) as (Hl & Hver & Hr & Hrange);
    [done|unfold kLogRecordHeaderSize; lia|].
  rewrite Hl, Nat.eqb_refl, Hver, Hr. cbn [negb].
  rewrite (proj2 (Z.ltb_ge (size_of _) _)), (proj2 (Z.ltb_ge _ (size_of _))) by lia. cbn [orb].
  unfold size_of. rewrite Nat2Z.id, (proj2 (Nat.ltb_ge _ _)) by lia.
  apply t_bind, t_read_at; [done|done|done| |intros Hf' fs' E; apply H2; [done|by left]].
  intros fs2 E2. rewrite Hc, take_app_length, Nat.eqb_refl, decode_log_update_bytes by done. cbn [negb].
  destruct (apply_log_update q0 u raft_corruption) as [q1|]; [|discriminate Hq].
  apply IH; [exact E2| |lia|exact Hus|exact Ht|exact Hq|lia|exact HC|exact HC1|exact HC2|exact H1|exact H2].
  by rewrite <- drop_drop, Hc, drop_app_length.
Qed.
End RecoverLoop.

(** ** What a directory holds *)

Definition flushed_file (d : Disk) (ns : gmap string nat) (name : string) (c : list byte) : Prop :=
  exists ino, ns !! name = Some ino /\ inodes d !! ino = Some {| cached := c; stable := c |}.

Lemma replaced_flushed name destination contents c d0 d' ns' :
  core name -> name <> destination -> replaced destination contents d0 d' ns' ->
  flushed_file d0 (names d0) name c -> flushed_file d' ns' name c.
Proof.
  intros Hc Hne (ino & Hno & Hnew & Hsame & Hns & _) (i & H1 & H2). exists i.
  rewrite Hns, lookup_insert_ne by done. split; [done|]. rewrite Hsame; [done|]. intros ->. by eapply Hno.
Qed.

Lemma replaced_new destination contents d0 d' ns' :
  core destination -> replaced destination contents d0 d' ns' -> flushed_file d' ns' destination contents.
Proof.
  intros Hc (ino & _ & Hnew & _ & Hns & _). exists ino. by rewrite Hns, lookup_insert_eq by done.
Qed.

Definition start (req : option StateMachineSnapshot) (p : RaftPersistentState) : RaftPersistentState :=
  mkRaftPersistentState (ps_current_term p) (ps_voted_for p) req [].

(** The transactions [us], over the boundary [req], are a journal of [p]. *)
Definition journal_of (req : option StateMachineSnapshot) (us : list LogUpdate) (p : RaftPersistentState)
    : Prop :=
  wf_state p /\ wf_state (start req p) /\
  match req with Some s => sm_state_machine s = [] | None => True end /\
  Forall (above (snapshot_base req)) us /\
  exists q, replay_updates (start req p) us = Ok q /\ covers q p.

(** The end of [recover_log] undoes the older boundary. *)
Lemma adopt_covers req us p q :
  journal_of req us p -> replay_updates (start req p) us = Ok q ->
  replay_start (mkRaftPersistentState (ps_current_term p) (ps_voted_for p) (ps_snapshot p) [])
    (required_of req) = Ok (start req p) /\
  adopt_snapshot (ps_snapshot p) (required_of req) q = Ok p.
Proof.
  intros (Hp & Hstart & Hreq & Hus & q' & Hq & Hc) Hq'. rewrite Hq in Hq'. injection Hq' as ->.
  destruct (replay_wf _ _ _ Hstart Hus Hq) as (Hwf & Hsnap & _). cbn in Hsnap.
  destruct (wf_base p Hp) as [Hb _]. destruct Hc as [Ht Hv Hbase Hlog Hbd].
  assert (base_of q = snapshot_base req) as Eb by (unfold base_of; by rewrite Hsnap).
  assert (match req with Some s => valid_boundary s | None => True end) as Hvb
    by (pose proof (wf_snapshot _ Hstart) as H; cbn in H; destruct req; tauto).
  assert (ps_snapshot p = None -> req = None) as Hnone.
  { intros E. destruct req as [s|]; [|done]. unfold base_of in Hbase at 2. rewrite E in Hbase. cbn in Hbase.
    rewrite Eb in Hbase. cbn in Hbase. destruct Hvb. lia. }
  unfold term_before in Hbd. rewrite Hsnap, Eb in *.
  replace (base_of p + 1 - snapshot_base req - 1) with (base_of p - snapshot_base req) in Hbd by lia.
  destruct p as [t v sp lp]. destruct q as [tq vq sq lq]. unfold start, base_of in *. cbn in *. subst t v sq.
  destruct sp as [s|]; cbn in *.
  2:{ rewrite (Hnone eq_refl) in *. cbn in *. split; [done|]. by rewrite Hlog. }
  rewrite (u64_small _) by (destruct req; cbn in *; unfold is_u64, u64_max in *; destruct Hvb; lia).
  split.
  - destruct req as [r|]; cbn in *; [|done]. rewrite (proj2 (Z.ltb_ge _ _)) by lia. cbn [orb].
    destruct (Z.eqb_spec (sm_last_included_index s) (sm_last_included_index r)) as [E|]; cbn [andb];
      [rewrite E, Z.sub_diag in Hbd; change (Z.to_nat 0) with 0%nat in Hbd; rewrite Hbd, Z.eqb_refl; cbn [negb]|]; destruct r; cbn in *; by subst.
  - destruct req as [r|]; cbn in *.
    + destruct (Z.eqb_spec (sm_last_included_index s - sm_last_included_index r) 0) as [E|E].
      * rewrite E in Hbd, Hlog |- *. change (Z.to_nat 0) with 0%nat in *. rewrite Hbd, Z.eqb_refl. cbn. by rewrite Hlog.
      * unfold last_of, base_of in Hbase. cbn in Hbase. rewrite (proj2 (Z.leb_le _ _)) by lia.
        replace (Z.to_nat (sm_last_included_index s - sm_last_included_index r))
          with (S (Z.to_nat (sm_last_included_index s - sm_last_included_index r - 1))) in Hbd by lia.
        destruct (lookup_lt_is_Some_2 lq (Z.to_nat (sm_last_included_index s - sm_last_included_index r - 1)))
          as [e He]; [unfold size_of in *; lia|]. rewrite He in *. rewrite Hbd, Z.eqb_refl. cbn. by rewrite Hlog.
    + pose proof (wf_snapshot _ Hp) as [[Hi _] _]. cbn in Hi. rewrite Z.sub_0_r in *.
      rewrite (proj2 (Z.eqb_neq _ _)) by lia.
      unfold last_of, base_of in Hbase. cbn in Hbase. rewrite (proj2 (Z.leb_le _ _)) by lia.
      replace (Z.to_nat (sm_last_included_index s)) with (S (Z.to_nat (sm_last_included_index s - 1))) in Hbd by lia.
      destruct (lookup_lt_is_Some_2 lq (Z.to_nat (sm_last_included_index s - 1))) as [e He];
        [unfold size_of in *; lia|]. rewrite He in *. rewrite Hbd, Z.eqb_refl. cbn. by rewrite Hlog.
Qed.

Section Store.
Context (cid : Z) (nid : NodeId) (fp : Z).
Hypothesis cid_u64 : is_u64 cid.
Hypothesis nid_u64 : is_u64 nid.
Hypothesis fp_u64 : is_u64 fp.

Definition hard_on (d : Disk) (ns : gmap string nat) (h : HardRecord) : Prop :=
  exists ra rb, valid_hard ra /\ valid_hard rb /\
    flushed_file d ns hard_a_path (encode_hard_state cid nid ra) /\
    flushed_file d ns hard_b_path (encode_hard_state cid nid rb) /\
    select_hard_state (Some ra) (Some rb) true true = Ok h.

Definition snapshot_on (d : Disk) (ns : gmap string nat) (snap : option StateMachineSnapshot) : Prop :=
  match snap with
  | Some s => flushed_file d ns published_path (snapshot_bytes cid nid fp s) /\
              size_of (sm_state_machine s) <= kMaxSnapshotPayloadSize
  | None => ns !! published_path = None
  end.

Definition journal_bytes (req : option StateMachineSnapshot) (us : list LogUpdate) : list byte :=
  encode_log_header cid nid fp req ++ updates_bytes us.

(** The contents of a journal of [p], with an unfinished append. *)
Definition journal_image (p : RaftPersistentState) (c : list byte) : Prop :=
  exists req us t, journal_of req us p /\ torn_update t /\ c = journal_bytes req us ++ t.

(** The rest of the directory agrees with the state [p]. *)
Definition belongs (h : HardRecord) (snap : option StateMachineSnapshot) (p : RaftPersistentState) : Prop :=
  ps_current_term p = hr_term h /\ ps_voted_for p = hr_voted_for h /\ ps_snapshot p = snap.

(** The files of the directory [ns]: the hard state [h], the snapshot [snap],
    and the journal [ino] of which a crash leaves contents in [K]. *)
Definition store (h : HardRecord) (snap : option StateMachineSnapshot) (ino : nat)
    (K : list byte -> Prop) (d : Disk) (ns : gmap string nat) : Prop :=
  sane d ns /\ flushed_file d ns identity_path (encode_identity cid nid fp) /\
  hard_on d ns h /\ snapshot_on d ns snap /\ ns !! log_path = Some ino /\
  exists f, inodes d !! ino = Some f /\ forall c, survives f c -> K c.

Definition holds (P : RaftPersistentState -> Prop) (h : HardRecord) (snap : option StateMachineSnapshot)
    (c : list byte) : Prop :=
  exists p, P p /\ journal_image p c /\ belongs h snap p.

(** Whatever a crash leaves of the files of [ns], they hold a state in [P]. *)
Definition initialized (P : RaftPersistentState -> Prop) (d : Disk) (ns : gmap string nat) : Prop :=
  exists h snap ino, store h snap ino (holds P h snap) d ns.

Lemma flushed_file_frame d d' ns ns' name c :
  core name -> (forall n, core n -> ns' !! n = ns !! n) ->
  (forall n i, core n -> ns !! n = Some i -> inodes d' !! i = inodes d !! i) ->
  flushed_file d ns name c -> flushed_file d' ns' name c.
Proof.
  intros Hc Hn Hi (ino & H1 & H2). exists ino. rewrite Hn by done. split; [done|].
  by rewrite (Hi name) by done.
Qed.

#[export] Instance store_local h snap ino K : Local core (store h snap ino K).
Proof.
  split; [by intros d ns [H _]|].
  intros d d' ns ns' (_ & Hid & (ra & rb & Ha & Hb & Fa & Fb & Hsel) & Hsnap & Hlog & f & Hf & Hc) Hs Hn Hi.
  split_and!; [done|eapply flushed_file_frame; eauto with core| | | |].
  - exists ra, rb. split_and!; try done; (eapply flushed_file_frame; [eauto with core..|done]).
  - destruct snap as [s|]; cbn in *.
    + split; [|tauto]. eapply flushed_file_frame; [eauto with core..|tauto].
    + by rewrite Hn by eauto with core.
  - by rewrite Hn by eauto with core.
  - exists f. split; [|done]. by rewrite (Hi log_path) by eauto with core.
Qed.

#[export] Instance initialized_local P : Local core (initialized P).
Proof.
  split; [by intros d ns (h & snap & ino & H & _)|].
  intros d d' ns ns' (h & snap & ino & H) Hs Hn Hi. exists h, snap, ino.
  exact (local_frame d d' ns ns' H Hs Hn Hi).
Qed.

(** ** After a crash *)

Definition at_rest (d : Disk) : Prop :=
  unsynced d = [] /\ forall i f, inodes d !! i = Some f -> cached f = stable f.

Lemma crash_at_rest d d' : crash d d' -> at_rest d'.
Proof. intros (_ & Hu & Hi & _). split; [done|]. intros i f Hf. by apply Hi in Hf as [? _]. Qed.

Lemma survives_refl f : survives f (cached f).
Proof.
  split; [|by left]. generalize (cached f). induction (stable f) as [|x s IH]; intros [|y l]; cbn;
    try apply prefix_nil. destruct (Byte.eqb x y) eqn:E; [|apply prefix_nil].
  apply Byte.byte_dec_bl in E as ->. by apply prefix_cons.
Qed.

Lemma crash_flushed d d' ino c :
  crash d d' -> inodes d !! ino = Some {| cached := c; stable := c |} ->
  inodes d' !! ino = Some {| cached := c; stable := c |}.
Proof.
  intros (_ & _ & Hi & Hd) H. destruct (Hd _ _ H) as [[ca st] Hf]. destruct (Hi _ _ Hf) as [E (f & Hf' & Hs)].
  cbn in *. subst ca. rewrite H in Hf'. injection Hf' as <-. apply survives_flushed in Hs; [|done]. cbn in Hs.
  by subst st.
Qed.

Lemma crash_names d d' : crash d d' -> names d' ∈ dirs d.
Proof. intros ([->|] & _); unfold dirs; rewrite elem_of_cons; auto. Qed.

Lemma sane_crash d d' ns : crash d d' -> sane d ns -> sane d' ns.
Proof. intros (_ & _ & _ & Hd) Hs. eapply sane_frame; [exact Hs|]. intros i [x Hx]. by eapply Hd. Qed.

Lemma flushed_file_crash d d' ns name c : crash d d' -> flushed_file d ns name c -> flushed_file d' ns name c.
Proof. intros Hcr (i & H1 & H2). exists i. split; [done|by apply (crash_flushed d)]. Qed.

Lemma initialized_crash P d d' ns : crash d d' -> initialized P d ns -> initialized P d' ns.
Proof.
  intros Hcr (h & snap & ino & Hs & Hid & (ra & rb & Ha & Hb & Fa & Fb & Hsel) & Hsnap & Hlog & f & Hf & Hc).
  pose proof (fun name c => flushed_file_crash d d' ns name c Hcr) as Hkeep.
  exists h, snap, ino. split_and!; [by eapply sane_crash|by apply Hkeep|exists ra, rb; split_and!; auto| |done|].
  - destruct snap; cbn in *; [|done]. split; [apply Hkeep, Hsnap|tauto].
  - destruct Hcr as (_ & _ & Hi & Hd). destruct (Hd _ _ Hf) as [f' Hf']. exists f'. split; [done|].
    destruct (Hi _ _ Hf') as [E (f0 & Hf0 & Hsv)]. rewrite Hf in Hf0. injection Hf0 as <-.
    intros c Hc'. apply survives_flushed in Hc'; [|done]. subst c. by apply Hc.
Qed.

(** ** The journal file *)

(** A change of the journal alone. *)
Lemma all_dirs_journal h snap ino K K' g f d :
  all_dirs (store h snap ino K) d -> inodes d !! ino = Some f ->
  (forall c, survives (g f) c -> K' c) -> all_dirs (store h snap ino K') (update_inode ino g d).
Proof.
  intros Hall Hf HK. eapply Forall_impl; [exact Hall|].
  intros ns (Hs & Hid & (ra & rb & Ha & Hb & Fa & Fb & Hsel) & Hsnap & Hlog & _).
  assert (forall name c, name <> log_path -> flushed_file d ns name c ->
    flushed_file (update_inode ino g d) ns name c) as Hkeep.
  { intros name c Hne (i & H1 & H2). exists i. split; [done|]. rewrite update_inode_ne; [done|].
    intros ->. destruct Hs as [Hinj _]. by apply Hne, (Hinj _ _ ino). }
  split_and!; [|by apply Hkeep|exists ra, rb; split_and!; try done; by apply Hkeep| |done|].
  - eapply sane_frame; [exact Hs|]. intros i. by rewrite update_inode_some.
  - destruct snap; cbn in *; [|done]. split; [by apply Hkeep; [|apply Hsnap]|tauto].
  - exists (g f). split; [by apply update_inode_eq|done].
Qed.

(** What a crash can leave of a journal that is flushed up to [jb]. *)
Lemma survives_journal jb c st x :
  jb `prefix_of` st -> survives {| cached := jb ++ c; stable := st |} x ->
  (exists t, x = jb ++ t /\ t `prefix_of` c) \/ (jb `prefix_of` x /\ x `prefix_of` st).
Proof.
  intros Hst Hs. assert (jb `prefix_of` x) as Hjb by (eapply survives_prefix; [exact Hs|done|by apply prefix_app_r]).
  destruct Hs as [_ [Hx|Hx]]; cbn in Hx; [left|by right].
  destruct Hjb as [t ->]. exists t. split; [done|]. by apply prefix_app_inv in Hx.
Qed.

(** ** Reading the files *)

Lemma calls_raft_read_at ino size offset fs c :
  inodes (disk fs) !! ino = Some {| cached := c; stable := c |} -> Z.of_nat offset <= off_t_max ->
  calls (read_at ino size offset) fs (take size (drop offset c)) raft_io_error.
Proof.
  intros Hf Ho. unfold read_at. rewrite (proj2 (Z.ltb_ge _ _)) by done.
  pose proof (calls_read_at raft_io_error ino size offset fs) as H.
  by rewrite (content_flushed _ _ _ Hf) in H.
Qed.

Lemma calls_size ino fs c :
  inodes (disk fs) !! ino = Some {| cached := c; stable := c |} ->
  calls (file_size raft_io_error ino) fs (length c) raft_io_error.
Proof.
  intros Hf. pose proof (calls_file_size raft_io_error ino fs) as H.
  by rewrite (content_flushed _ _ _ Hf) in H.
Qed.

Lemma calls_open_name name ino fs :
  names (disk fs) !! name = Some ino -> calls (open_file raft_io_error name) fs (Some ino) raft_io_error.
Proof. intros Hn. rewrite <- Hn. apply calls_open_file. Qed.

Lemma calls_path_exists name ino fs :
  names (disk fs) !! name = Some ino -> calls (path_exists name) fs true raft_io_error.
Proof.
  intros Hn. pose proof (calls_exists_name raft_io_error name fs) as H. rewrite Hn in H.
  by rewrite bool_decide_true in H.
Qed.

Lemma calls_identity fs :
  flushed_file (disk fs) (names (disk fs)) identity_path (encode_identity cid nid fp) ->
  calls (read_and_verify_identity identity_path cid nid fp) fs tt raft_io_error.
Proof.
  intros (ino & Hn & Hf). eapply calls_bind; [by apply calls_open_name|]. intros fs1 E1.
  eapply calls_bind; [apply calls_raft_read_at; [by rewrite E1|done]|]. intros fs2 E2.
  eapply calls_bind; [apply calls_size; by rewrite E2, E1|]. intros fs3 E3.
  change (length (encode_identity cid nid fp)) with kIdentitySize.
  rewrite drop_0, take_ge by done. change (length (encode_identity cid nid fp)) with kIdentitySize.
  cbn [Nat.eqb negb orb kIdentitySize]. rewrite verify_encode_identity by done. apply calls_ret.
Qed.

Lemma calls_hard_slot path r fs :
  valid_hard r -> flushed_file (disk fs) (names (disk fs)) path (encode_hard_state cid nid r) ->
  calls (read_hard_slot path cid nid) fs (Some r, true) raft_io_error.
Proof.
  intros Hv (ino & Hn & Hf). eapply calls_bind; [by eapply calls_path_exists|]. intros fs0 E0. cbn [negb].
  eapply calls_bind; [apply calls_open_name; by rewrite E0|]. intros fs1 E1.
  eapply calls_bind; [apply calls_raft_read_at; [by rewrite E1, E0|done]|]. intros fs2 E2.
  eapply calls_bind; [apply calls_size; by rewrite E2, E1, E0|]. intros fs3 E3.
  change (length (encode_hard_state cid nid r)) with kHardStateSize.
  rewrite drop_0, take_ge by done. change (length (encode_hard_state cid nid r)) with kHardStateSize.
  cbn [Nat.eqb negb orb kHardStateSize]. rewrite decode_encode_hard_state by done. apply calls_ret.
Qed.

Lemma calls_read_all ino size offset fs c :
  inodes (disk fs) !! ino = Some {| cached := c; stable := c |} -> (offset + size <= length c)%nat ->
  calls (read_all ino size offset) fs (take size (drop offset c)) raft_io_error.
Proof.
  intros Hf Hl. eapply calls_bind.
  - pose proof (calls_read_at raft_io_error ino size offset fs) as H.
    rewrite (content_flushed _ _ _ Hf) in H. exact H.
  - intros fs' E. unfold subspan. rewrite length_take, length_drop, Nat.min_l, Nat.eqb_refl by lia.
    apply calls_ret.
Qed.

Definition snapshot_head (s : StateMachineSnapshot) : list byte :=
  write_u32 kSnapshotMagic ++ write_u16 kSnapshotFormatVersion ++ write_u16 (Z.of_nat kSnapshotHeaderSize) ++
  write_u64 cid ++ write_u64 nid ++ write_u64 fp ++ write_u64 (sm_last_included_index s) ++
  write_u64 (sm_last_included_term s) ++ write_u64 (size_of (sm_state_machine s)) ++
  write_u32 (crc32 (sm_state_machine s)).

Lemma header_head s : header cid nid fp s = snapshot_head s ++ write_u32 (crc32 (snapshot_head s)).
Proof. reflexivity. Qed.

Lemma calls_load snap fs :
  snapshot_on (disk fs) (names (disk fs)) snap ->
  match snap with Some s => valid_boundary s | None => True end ->
  calls (load cid nid fp) fs snap raft_io_error.
Proof.
  destruct snap as [s|]; cbn [snapshot_on].
  2:{ intros Hn _. eapply calls_bind; [apply calls_open_file|]. rewrite Hn. intros. apply calls_ret. }
  intros [(ino & Hn & Hf) Hsz] [Hi Ht]. eapply calls_bind; [by apply calls_open_name|]. intros fs1 E1.
  assert (length (snapshot_bytes cid nid fp s) = (64 + length (sm_state_machine s))%nat) as Hl
    by (unfold snapshot_bytes; rewrite length_app; done).
  eapply calls_bind; [apply calls_size; by rewrite E1|]. intros fs2 E2.
  rewrite Hl, (proj2 (Nat.ltb_ge _ _)) by (unfold kSnapshotHeaderSize; lia).
  eapply calls_bind; [apply calls_read_all; [by rewrite E2, E1|rewrite Hl; unfold kSnapshotHeaderSize; lia]|].
  intros fs3 E3. unfold snapshot_bytes at 1. rewrite drop_0, take_app_length' by done.
  rewrite header_head. set (head := snapshot_head s). pose proof (size_of_nonneg (sm_state_machine s)).
  assert (is_u64 (size_of (sm_state_machine s))) as Hu64
    by (unfold is_u64, kMaxSnapshotPayloadSize in *; lia).
  change (read_u32 (subspan 0 4 _)) with kSnapshotMagic.
  change (read_u16 (subspan 4 2 _)) with kSnapshotFormatVersion.
  change (read_u16 (subspan 6 2 _)) with (Z.of_nat kSnapshotHeaderSize).
  change (subspan 8 8 _) with (write_u64 cid ++ []). change (subspan 16 8 _) with (write_u64 nid ++ []).
  change (subspan 24 8 _) with (write_u64 fp ++ []).
  change (subspan 32 8 _) with (write_u64 (sm_last_included_index s) ++ []).
  change (subspan 40 8 _) with (write_u64 (sm_last_included_term s) ++ []).
  change (subspan 48 8 _) with (write_u64 (size_of (sm_state_machine s)) ++ []).
  change (subspan 56 4 _) with (write_u32 (crc32 (sm_state_machine s)) ++ []).
  change (subspan 60 4 _) with (write_u32 (crc32 head) ++ []).
  change (take 60 _) with head.
  rewrite !read_write_u64, !read_write_u32, !Z.eqb_refl
    by (try apply crc32_range; unfold is_u64, u64_max in *; lia). cbn [negb orb].
  rewrite (proj2 (Z.eqb_neq (sm_last_included_index s) 0)),
    (proj2 (Z.eqb_neq (sm_last_included_index s) u64_max)), (proj2 (Z.eqb_neq (sm_last_included_term s) 0)),
    (proj2 (Z.ltb_ge _ (size_of _))) by lia.
  rewrite (proj2 (Z.eqb_eq _ _)) by (unfold kSnapshotHeaderSize, size_of; lia). cbn [negb orb].
  unfold size_of. rewrite Nat2Z.id.
  eapply calls_bind; [apply calls_read_all; [by rewrite E3, E2, E1|rewrite Hl; unfold kSnapshotHeaderSize; lia]|].
  intros fs4 E4. unfold snapshot_bytes. rewrite drop_app_length', take_ge by done. rewrite Z.eqb_refl. cbn [negb].
  destruct s. apply calls_ret.
Qed.

Lemma encode_log_header_length req : length (encode_log_header cid nid fp req) = kLogHeaderSize.
Proof. done. Qed.

(** ** Recovering the journal *)

Lemma t_recover_log faulty C ino d c req us t p fs Q :
  let n := length (journal_bytes req us) in
  let d1 := update_inode ino (truncate_bytes n) d in
  let d2 := update_inode ino flush_bytes d1 in
  disk fs = d -> inodes d !! ino = Some {| cached := c; stable := c |} -> Z.of_nat (length c) <= off_t_max ->
  journal_of req us p -> torn_update t -> c = journal_bytes req us ++ t -> C d -> C d1 -> C d2 ->
  (forall fs', disk fs' = d2 -> Q (Ok p) fs') ->
  (faulty -> forall fs', disk fs' = d \/ disk fs' = d1 \/ disk fs' = d2 -> Q (Throw raft_io_error) fs') ->
  triple id faulty C
    (recover_log cid nid fp ino
       (mkRaftPersistentState (ps_current_term p) (ps_voted_for p) (ps_snapshot p) [])) fs Q.
Proof.
  intros n d1 d2 Hd Hf Hsz Hj Ht Hc HC HC1 HC2 HQ He.
  pose proof Hj as (Hp & Hstart & Hreq & Hus & q & Hq & Hcov).
  destruct (replay_wf _ _ _ Hstart Hus Hq) as (_ & _ & _ & _ & Hv).
  destruct (adopt_covers _ _ _ _ Hj Hq) as [Hrs Had].
  assert (length c = (52 + length (updates_bytes us ++ t))%nat) as Hlc.
  { rewrite Hc. unfold journal_bytes. rewrite <- (assoc_L (++)), length_app, encode_log_header_length.
    unfold kLogHeaderSize. done. }
  apply t_bind. eapply t_calls; [apply calls_size; by rewrite Hd|by rewrite Hd| |].
  2:{ intros Hfl fs' E. apply He; [done|]. left. congruence. }
  intros fs1 E1. rewrite Hd in E1. rewrite (proj2 (Nat.ltb_ge _ _)) by (unfold kLogHeaderSize; lia).
  apply t_bind, t_read_at with d c; [done|done|done|lia|done| |intros Hfl fs' E; apply He; auto].
  intros fs2 E2. rewrite drop_0, length_take, Nat.min_l, Nat.eqb_refl by (unfold kLogHeaderSize; lia). cbn [negb].
  assert (take kLogHeaderSize c = encode_log_header cid nid fp req) as ->.
  { rewrite Hc. unfold journal_bytes. rewrite <- (assoc_L (++)). by apply take_app_length'. }
  rewrite verify_encode_log_header; [|done..|].
  2:{ pose proof (wf_snapshot _ Hstart) as Hs. cbn in Hs. destruct req; tauto. }
  rewrite Hrs. assert (length c - length t = n)%nat as Hn
    by (rewrite Hc, length_app; unfold n; lia).
  apply t_bind. apply t_recover_loop with d us q t; rewrite ?Hn; try done; try lia.
  - rewrite Hc. unfold journal_bytes. rewrite <- (assoc_L (++)). by apply drop_app_length'.
  - unfold kLogHeaderSize. lia.
  - intros fs3 E3. cbn [ps_snapshot]. rewrite Had. apply t_bind. eapply t_calls; [apply calls_attempt_once|by rewrite E3| |].
    + intros fs4 E4. apply t_ret; [by cbn; rewrite E4, E3|]. apply HQ. by rewrite E4, E3.
    + intros Hfl fs4 E4. apply He; [done|]. right. right. by rewrite E4, E3.
  - intros Hfl fs3 [E3|E3]; apply He; auto.
Qed.

(** ** Stale temporary files *)

Lemma recognized_not_core n : is_recognized_temporary_name n = true -> ~ core n.
Proof.
  unfold core. rewrite !elem_of_cons, elem_of_nil.
  by intros H [->|[->|[->|[->|[->|[]]]]]].
Qed.

Lemma t_remove_names faulty D `{!Local core D} entries removed fs Q :
  all_dirs D (disk fs) ->
  (forall b fs', all_dirs D (disk fs') -> (b = false -> disk fs' = disk fs) -> Q (Ok b) fs') ->
  (faulty -> forall fs', Q (Throw raft_io_error) fs') ->
  triple id faulty (all_dirs D) (remove_names entries removed) fs Q.
Proof.
  intros HC HQ He. assert (forall removed fs', all_dirs D (disk fs') -> (removed = false -> disk fs' = disk fs) ->
    triple id faulty (all_dirs D) (remove_names entries removed) fs' Q) as H; [|by apply H].
  clear removed. induction entries as [|n entries IH]; intros removed fs1 HC1 Heq; cbn [remove_names].
  { apply t_ret; [done|]. auto. }
  apply t_bind. eapply t_calls; [apply calls_attempt_once|done| |by intros; apply He].
  intros fs2 E2. rewrite <- E2 in *. destruct (is_recognized_temporary_name n) eqn:En; cbn [negb]; [|by apply IH].
  pose proof (all_dirs_delete n _ (recognized_not_core n En) HC1).
  apply t_bind, t_remove_file; [done|done| |by intros; apply He].
  intros fs3 E3. apply IH; [by rewrite E3|done].
Qed.

Lemma t_remove_stale faulty D `{!Local core D} fs Q :
  all_dirs D (disk fs) -> unsynced (disk fs) = [] ->
  (forall fs', all_dirs D (disk fs') -> unsynced (disk fs') = [] -> Q (Ok tt) fs') ->
  (faulty -> forall fs', Q (Throw raft_io_error) fs') ->
  triple id faulty (all_dirs D) remove_stale_temporary_files fs Q.
Proof.
  intros HC Hu HQ He. apply t_bind, t_get; [done|]. apply t_bind, t_remove_names; [done|done| |done].
  intros b fs' HC' Heq. destruct b.
  - apply t_sync_directory; [done|by apply all_dirs_flush| |by intros; apply He].
    intros fs1 E1. apply HQ; rewrite E1; [by apply all_dirs_flush|done].
  - apply t_ret; [done|]. apply HQ; [done|]. by rewrite Heq.
Qed.

(** ** Opening *)

(** The store is at rest and holds exactly [p]; its journal is the file [ino]. *)
Definition solid (h : HardRecord) (p : RaftPersistentState) (ino : nat) (d : Disk) : Prop :=
  unsynced d = [] /\ belongs h (ps_snapshot p) p /\
  exists req us, journal_of req us p /\
    store h (ps_snapshot p) ino (eq (journal_bytes req us)) d (names d).

Record ready (h : HardRecord) (p : RaftPersistentState) (ino : nat) (i : Impl) : Prop := {
  ready_cluster : cluster_id i = cid;
  ready_node : node_id i = nid;
  ready_members : membership_fingerprint i = fp;
  ready_log : log_descriptor i = Some ino;
  ready_pending : pending_kind i = pending_none;
  ready_generation : hard_generation i = hr_generation h;
  ready_state : state i = p
}.

Definition fits (d : Disk) : Prop :=
  forall i f, inodes d !! i = Some f -> Z.of_nat (length (cached f)) <= off_t_max.

Lemma store_weaken h snap ino (K K' : list byte -> Prop) d ns :
  (forall c, K c -> K' c) -> store h snap ino K d ns -> store h snap ino K' d ns.
Proof.
  intros HK (H1 & H2 & H3 & H4 & H5 & f & H6 & H7). split_and!; try done. exists f. eauto.
Qed.

Lemma all_dirs_weaken (D D' : Disk -> gmap string nat -> Prop) d :
  (forall ns, D d ns -> D' d ns) -> all_dirs D d -> all_dirs D' d.
Proof. intros H Hall. eapply Forall_impl; [exact Hall|exact H]. Qed.

Lemma t_hard_state faulty C h ra rb pid fs Q :
  C (disk fs) -> valid_hard ra -> valid_hard rb ->
  flushed_file (disk fs) (names (disk fs)) hard_a_path (encode_hard_state cid nid ra) ->
  flushed_file (disk fs) (names (disk fs)) hard_b_path (encode_hard_state cid nid rb) ->
  select_hard_state (Some ra) (Some rb) true true = Ok h ->
  (forall fs', disk fs' = disk fs -> Q (Ok h) fs') ->
  (faulty -> forall fs', disk fs' = disk fs -> Q (Throw raft_io_error) fs') ->
  triple id faulty C (open_hard_state cid nid pid true true true) fs Q.
Proof.
  intros HC Ha Hb Fa Fb Hsel HQ He. unfold open_hard_state. cbn [negb andb when].
  apply t_bind, t_ret; [done|].
  apply t_bind. eapply t_calls; [by apply (calls_hard_slot hard_a_path ra)|done| |done]. intros fs1 E1.
  apply t_bind. eapply t_calls; [apply (calls_hard_slot hard_b_path rb); by rewrite ?E1|by rewrite E1| |].
  2:{ intros Hf fs2 E2. apply He; [done|congruence]. }
  intros fs2 E2. cbn [fst snd]. apply t_bind, t_ret; [by cbn; rewrite E2, E1|]. cbn [fst snd]. rewrite Hsel.
  apply t_ret; [by cbn; rewrite E2, E1|]. apply HQ. congruence.
Qed.

(** Everything after the journal is recovered. *)
Lemma t_open_finish faulty h snap ino K lock hook pid p fs Q :
  all_dirs (store h snap ino K) (disk fs) ->
  (forall i fs', all_dirs (store h snap ino K) (disk fs') -> unsynced (disk fs') = [] ->
     ready h p ino i -> Q (Ok i) fs') ->
  (faulty -> forall fs', Q (Throw raft_io_error) fs') ->
  (exists f c, inodes (disk fs) !! ino = Some f /\ f = {| cached := c; stable := c |}) ->
  triple id faulty (all_dirs (store h snap ino K))
    (sync_file ino ;; sync_directory ;; when false (ret tt) ;; remove_stale_temporary_files ;;
     ret {| cluster_id := cid; node_id := nid; membership_fingerprint := fp; log_descriptor := Some ino;
            lock_descriptor := Some lock; pending_descriptor := None;
            pending_temporary_path := EmptyString; pending_final_path := EmptyString;
            pending_kind := pending_none; hard_generation := hr_generation h;
            state := p; pending_state := empty_persistent_state;
            sync_hook := hook; pid := pid |}) fs Q.
Proof.
  intros HC HQ He (f & c & Hf & ->).
  pose proof (flush_nothing _ _ _ Hf) as Hid.
  apply t_bind, t_sync_file; rewrite ?Hid; [done|done| |by intros; apply He]. intros fs1 E1. rewrite <- E1 in *.
  pose proof (all_dirs_flush _ HC) as HC2.
  apply t_bind, t_sync_directory; [done|done| |by intros; apply He]. intros fs2 E2. rewrite <- E2 in HC2.
  apply t_bind, t_ret; [done|]. apply t_bind, t_remove_stale; [apply _|done|by rewrite E2| |done].
  intros fs3 HC3 Hu3. apply t_ret; [done|]. by apply HQ.
Qed.

Lemma initialized_weaken (P P' : RaftPersistentState -> Prop) d ns :
  (forall p, P p -> P' p) -> initialized P d ns -> initialized P' d ns.
Proof.
  intros HP (h & snap & ino & H). exists h, snap, ino. eapply store_weaken; [|exact H].
  intros c (p & Hp & Hrest). exists p. auto.
Qed.

(** The checks and the recovery, once the directory is locked. *)
Definition partly (req : option StateMachineSnapshot) (us : list LogUpdate) (c : list byte) : Prop :=
  exists t, torn_update t /\ c = journal_bytes req us ++ t.

Lemma cut_journal h p ino req us t d :
  let n := length (journal_bytes req us) in
  all_dirs (store h (ps_snapshot p) ino (partly req us)) d -> torn_update t ->
  inodes d !! ino = Some {| cached := journal_bytes req us ++ t; stable := journal_bytes req us ++ t |} ->
  all_dirs (store h (ps_snapshot p) ino (partly req us)) (update_inode ino (truncate_bytes n) d) /\
  all_dirs (store h (ps_snapshot p) ino (eq (journal_bytes req us)))
    (update_inode ino flush_bytes (update_inode ino (truncate_bytes n) d)).
Proof.
  intros n HC Ht Hf. set (jb := journal_bytes req us) in *.
  assert (truncate_bytes n {| cached := jb ++ t; stable := jb ++ t |} = {| cached := jb ++ []; stable := jb ++ t |}) as E
    by (unfold truncate_bytes, n; cbn; by rewrite app_nil_r, take_app_length).
  assert (all_dirs (store h (ps_snapshot p) ino (partly req us)) (update_inode ino (truncate_bytes n) d)) as HC1.
  { eapply all_dirs_journal; [exact HC|exact Hf|]. rewrite E. intros c Hs.
    apply survives_journal in Hs as [(t' & -> & Ht')|[[t' ->] Hp]]; [|..|by apply prefix_app_r].
    - exists t'. split; [|done]. left. by apply prefix_nil_inv.
    - exists t'. split; [|done]. apply prefix_app_inv in Hp. by apply torn_prefix with t. }
  split; [done|]. eapply all_dirs_journal; [exact HC1|by apply update_inode_eq|].
  intros c Hs. rewrite E in Hs. apply survives_flushed in Hs; [|done]. cbn in Hs. by rewrite app_nil_r in Hs.
Qed.

Lemma t_open_locked faulty h p ino req us t lock hook pid fs Q :
  let C := all_dirs (store h (ps_snapshot p) ino (partly req us)) in
  C (disk fs) -> journal_of req us p -> torn_update t -> belongs h (ps_snapshot p) p ->
  inodes (disk fs) !! ino = Some {| cached := journal_bytes req us ++ t; stable := journal_bytes req us ++ t |} ->
  Z.of_nat (length (journal_bytes req us ++ t)) <= off_t_max ->
  (forall i fs', solid h p ino (disk fs') -> ready h p ino i -> Q (Ok i) fs') ->
  (faulty -> forall fs', Q (Throw raft_io_error) fs') ->
  triple id faulty C (open_locked cid nid hook fp pid lock) fs Q.
Proof.
  intros C HC Hj Ht Hbel Hfile Hsz HQ He. pose proof HC as Hst. apply Forall_cons in Hst as [Hst _].
  destruct Hst as (Hs & Hid & (ra & rb & Ha & Hb & Fa & Fb & Hsel) & Hsnap & Hlog & _).
  pose proof Fa as (ia & Na & _). pose proof Fb as (ib & Nb & _). pose proof Hid as (ii & Ni & _).
  pose proof Hj as (Hp & _). pose proof (wf_snapshot p Hp) as Hws. destruct Hbel as (Bt & Bv & Bs).
  destruct (cut_journal h p ino req us t (disk fs) HC Ht Hfile) as [HC1 HC2].
  assert (forall e, faulty -> forall fs', e = raft_io_error -> Q (Throw e) fs') as He' by (intros ? ? ? ->; auto).
  unfold open_locked.
  apply t_bind. eapply t_calls; [apply calls_attempt|done| |by auto]. intros fs1 E1.
  apply t_bind. eapply t_calls; [eapply calls_path_exists; by rewrite E1|by rewrite E1| |by auto]. intros fs2 E2.
  apply t_bind. eapply t_calls; [eapply calls_path_exists; by rewrite E2, E1|by rewrite E2, E1| |by auto]. intros fs3 E3.
  apply t_bind. eapply t_calls; [eapply calls_path_exists; by rewrite E3, E2, E1|by rewrite E3, E2, E1| |by auto].
  intros fs4 E4.
  apply t_bind. eapply t_calls; [eapply calls_path_exists; by rewrite E4, E3, E2, E1|by rewrite E4, E3, E2, E1| |by auto].
  intros fs5 E5. assert (disk fs5 = disk fs) as E by congruence. clear fs1 fs2 fs3 fs4 E1 E2 E3 E4 E5.
  cbn [negb orb andb].
  apply t_bind, t_bind. eapply t_calls; [apply calls_identity; by rewrite E|by rewrite E| |by auto]. intros fs6 E6.
  apply t_ret; [by cbn; rewrite E6, E|].
  apply t_bind, t_hard_state with h ra rb; rewrite ?E6, ?E; try done; [|by auto]. intros fs7 E7.
  apply t_bind. eapply t_calls; [apply (calls_load (ps_snapshot p)); [by rewrite E7|destruct (ps_snapshot p); tauto]
    |by rewrite E7| |by auto]. intros fs8 E8.
  rewrite (proj2 (Z.ltb_ge _ _)) by (rewrite <- Bt; by apply wf_base in Hp as [_ [_ ?]]).
  apply t_bind, t_ret; [by cbn; rewrite E8, E7|].
  apply t_bind. eapply t_calls; [apply calls_open_name; by rewrite E8, E7|by rewrite E8, E7| |by auto]. intros fs9 E9.
  apply t_bind. eapply t_calls; [apply calls_attempt_once|by rewrite E9, E8, E7| |by auto]. intros fs10 E10.
  rewrite <- Bt, <- Bv.
  apply t_bind, t_recover_log with (disk fs) (journal_bytes req us ++ t) req us t; try done;
    [congruence|by eapply all_dirs_weaken; [|exact HC2]; intros ns; apply store_weaken; intros c <-; exists []; rewrite app_nil_r; split; [left|]| |by auto].
  intros fs11 E11. eapply t_mono.
  - apply (t_open_finish faulty h (ps_snapshot p) ino (eq (journal_bytes req us))); [by rewrite E11| |by auto|].
    + intros i fs12 HC12 Hu12 Hr. apply HQ; [|done]. split_and!; try done. exists req, us. split; [done|].
      by apply Forall_cons in HC12 as [? _].
    + rewrite E11. exists {| cached := journal_bytes req us; stable := journal_bytes req us |}, (journal_bytes req us).
      split; [|done]. erewrite update_inode_eq; [|by apply update_inode_eq].
      unfold flush_bytes, truncate_bytes. cbn. by rewrite take_app_length.
  - intros d'. apply all_dirs_weaken. intros ns. apply store_weaken. intros c <-. exists [].
    rewrite app_nil_r. split; [by left|done].
Qed.

Lemma t_open faulty P hook pid d fs Q :
  cid <> 0 -> nid <> 0 -> disk fs = d -> at_rest d -> initialized P d (names d) -> fits d ->
  (forall p h ino i fs', P p -> solid h p ino (disk fs') -> ready h p ino i -> Q (Ok i) fs') ->
  (faulty -> forall fs', Q (Throw raft_io_error) fs') ->
  triple id faulty (all_dirs (initialized P)) (open cid nid hook fp pid) fs Q.
Proof.
  intros Hc0 Hn0 Hd [Hu Hrest] (h & snap & ino & Hst) Hfits HQ He.
  pose proof Hst as (Hs & Hid & Hhard & Hsnap & Hlog & f & Hf & HK).
  destruct (HK (cached f) (survives_refl f)) as (p & HP & (req & us & t & Hj & Ht & Hc) & Hbel).
  pose proof Hbel as (_ & _ & <-).
  assert (cached f = stable f) as Ef by by eapply Hrest.
  assert (inodes d !! ino = Some {| cached := journal_bytes req us ++ t; stable := journal_bytes req us ++ t |}) as Hfile
    by (rewrite Hf; destruct f; cbn in *; by subst).
  set (D := store h (ps_snapshot p) ino (partly req us)).
  assert (all_dirs D d) as HC.
  { unfold all_dirs, dirs. rewrite Hu. constructor; [|constructor]. split_and!; try done. exists f. split; [done|].
    intros c Hsv. apply survives_flushed in Hsv; [|done]. subst c. rewrite <- Ef, Hc. by exists t. }
  apply t_mono with (all_dirs D).
  2:{ intros d'. apply all_dirs_weaken. intros ns Hns. exists h, (ps_snapshot p), ino.
    eapply store_weaken; [|exact Hns]. intros c (t' & Ht' & ->). exists p. split_and!; [done| |done].
    by exists req, us, t'. }
  unfold open. rewrite (proj2 (Z.eqb_neq cid 0)), (proj2 (Z.eqb_neq nid 0)) by done. cbn [orb]. rewrite <- Hd in *.
  apply t_bind. eapply t_calls; [apply calls_attempt_once|done| |by auto]. intros fs1 E1.
  apply t_bind. eapply t_calls; [apply calls_attempt_once|by rewrite E1| |by auto]. intros fs2 E2.
  rewrite E1 in E2. clear fs1 E1. apply Hfits in Hf. rewrite Hc in Hf.
  apply t_bind, t_open_or_create; rewrite ?E2; [done| | |by auto].
  - intros Hn. destruct (all_dirs_add_file lock_path (disk fs) lock_not_core Hn HC) as [HC' _]. split; [done|].
    intros fs3 E3. apply t_open_locked with t; rewrite ?E3; try done; [|by eauto].
    rewrite add_file_inodes; [done|]. intros ->. by rewrite fresh_ino_none in Hfile.
  - intros lock fs3 _ E3. apply t_open_locked with t; rewrite ?E3; try done. by eauto.
Qed.
End Store.
