(* ===== verification/RaftCreation.v ===== *)
(** * Creating a Raft store

    [RaftStorage::open] on an empty directory, or on one whose creation was
    interrupted: the files appear one after the other, the identity last, and
    every stage of it is taken up again. *)

From S2P Require Import Prelude Wire Checksum Protocol RaftTypes RaftNode RaftInvariant RaftStep RaftFormat.
From S2P Require Import RaftJournal Fs FsTriples Directory RaftStorage RaftFiles RaftRecovery.
Import RaftFormat RaftJournal SnapshotStore RaftStorage.

Section Creation.
Context (cid : Z) (nid : NodeId) (fp : Z).
Hypothesis cid_u64 : is_u64 cid.
Hypothesis nid_u64 : is_u64 nid.
Hypothesis fp_u64 : is_u64 fp.

Definition file_if (b : bool) (d : Disk) (ns : gmap string nat) (name : string) (c : list byte) : Prop :=
  if b then flushed_file d ns name c else ns !! name = None.

(** The first [k] of the files are there: the two generations of the hard state
    and the journal. *)
Definition created (k : nat) (d : Disk) (ns : gmap string nat) : Prop :=
  sane d ns /\ ns !! identity_path = None /\ ns !! published_path = None /\
  file_if (Nat.leb 1 k) d ns hard_a_path (encode_hard_state cid nid (baseline 1)) /\
  file_if (Nat.leb 2 k) d ns hard_b_path (encode_hard_state cid nid (baseline 2)) /\
  file_if (Nat.leb 3 k) d ns log_path (encode_log_header cid nid fp None).

Lemma file_if_frame b d d' ns ns' name c :
  core name -> (forall n, core n -> ns' !! n = ns !! n) ->
  (forall n i, core n -> ns !! n = Some i -> inodes d' !! i = inodes d !! i) ->
  file_if b d ns name c -> file_if b d' ns' name c.
Proof.
  intros Hc Hn Hi. destruct b; cbn; [by apply flushed_file_frame|]. by rewrite Hn.
Qed.

#[export] Instance created_local k : Local core (created k).
Proof.
  split; [by intros ? ? []|]. intros d d' ns ns' (Hs & H1 & H2 & H3 & H4 & H5) Hs' Hn Hi.
  split_and!; [done|..]; try (rewrite Hn by auto with core; done); eapply file_if_frame; eauto with core.
Qed.

(** A store that is being created, or that is and is empty. *)
Definition newborn (d : Disk) (ns : gmap string nat) : Prop :=
  (exists k, created k d ns) \/ initialized cid nid fp (eq empty_persistent_state) d ns.

#[export] Instance newborn_local : Local core newborn.
Proof.
  split.
  - intros d ns [[k H]|H]; [by apply (local_sane (D := created k))|].
    by apply (local_sane (D := initialized cid nid fp (eq empty_persistent_state))).
  - intros d d' ns ns' [[k H]|H] ? ? ?; [left; exists k; by eapply local_frame|right; by eapply local_frame].
Qed.

Lemma created_crash k d d' ns : crash d d' -> created k d ns -> created k d' ns.
Proof.
  intros Hcr (H1 & H2 & H3 & H4 & H5 & H6).
  assert (forall b name c, file_if b d ns name c -> file_if b d' ns name c) as Hkeep
    by (intros []; cbn; eauto using flushed_file_crash).
  split_and!; eauto using sane_crash.
Qed.

Lemma created_min k d ns : created k d ns -> exists k', (k' <= 3)%nat /\ created k' d ns.
Proof. intros H. destruct k as [|[|[|k]]]; [exists 0%nat|exists 1%nat|exists 2%nat|exists 3%nat]; (split; [lia|exact H]). Qed.

(** ** The files appear *)

Lemma replaced_file b name destination contents c d0 d' ns' :
  core name -> name <> destination -> replaced destination contents d0 d' ns' ->
  file_if b d0 (names d0) name c -> file_if b d' ns' name c.
Proof.
  intros Hc Hne Hr. destruct b; cbn; [by apply replaced_flushed with destination contents|].
  destruct Hr as (ino & _ & _ & _ & Hns & _). by rewrite Hns, lookup_insert_ne by done.
Qed.

Lemma replaced_absent name destination contents d0 d' ns' :
  core name -> name <> destination -> replaced destination contents d0 d' ns' ->
  names d0 !! name = None -> ns' !! name = None.
Proof. intros. by eapply (replaced_file false) with (c := []). Qed.

(** The file that comes after the first [k]. *)
Definition next_file (k : nat) : string * list byte :=
  match k with
  | 0%nat => (hard_a_path, encode_hard_state cid nid (baseline 1))
  | 1%nat => (hard_b_path, encode_hard_state cid nid (baseline 2))
  | _ => (log_path, encode_log_header cid nid fp None)
  end.

Lemma created_next k d0 d' ns' :
  (k < 3)%nat -> created k d0 (names d0) -> replaced (fst (next_file k)) (snd (next_file k)) d0 d' ns' ->
  created (S k) d' ns'.
Proof.
  intros Hk (_ & H1 & H2 & H3 & H4 & H5) Hr. split; [by destruct Hr as (? & _ & _ & _ & _ & ?)|].
  assert (core (fst (next_file k))) by (destruct k as [|[|k]]; cbn; auto with core).
  destruct k as [|[|[|k]]]; [..|lia]; cbn [next_file fst snd] in Hr;
    (split; [by eapply replaced_absent; [| |exact Hr|exact H1]; [auto with core|]|]);
    (split; [by eapply replaced_absent; [| |exact Hr|exact H2]; [auto with core|]|]);
    split_and!; try (eapply replaced_new; [auto with core|exact Hr]);
    (eapply replaced_file; [| |exact Hr|]; [auto with core|done|]); done.
Qed.
(** ** Creating what is missing *)

Definition young (k : nat) (d : Disk) : Prop := all_dirs (created k) d.

Lemma young_newborn k d : young k d -> all_dirs newborn d.
Proof. apply all_dirs_weaken. intros ns H. left. by exists k. Qed.

Lemma young_now k d : young k d -> created k d (names d).
Proof. by intros [? _]%Forall_cons. Qed.

Lemma all_dirs_synced (D : Disk -> gmap string nat -> Prop) d : unsynced d = [] -> D d (names d) -> all_dirs D d.
Proof. intros Hu H. unfold all_dirs, dirs. rewrite Hu. constructor; [exact H|constructor]. Qed.

Lemma calls_exists_if name c fs (b : bool) :
  file_if b (disk fs) (names (disk fs)) name c ->
  calls (path_exists name) fs b raft_io_error.
Proof.
  pose proof (calls_exists_name raft_io_error name fs) as H. destruct b; cbn.
  - intros (i & Hn & _). by eapply calls_path_exists.
  - intros Hn. unfold path_exists. rewrite Hn in H. by rewrite bool_decide_false in H by (by intros []).
Qed.

Lemma calls_slot_if path r fs (b : bool) :
  valid_hard r -> file_if b (disk fs) (names (disk fs)) path (encode_hard_state cid nid r) ->
  calls (read_hard_slot path cid nid) fs (if b then (Some r, true) else (None, false)) raft_io_error.
Proof.
  intros Hr. destruct b; cbn [file_if]; [by apply calls_hard_slot|]. intros Hn.
  eapply calls_bind; [apply calls_exists_name|]. intros fs' E. rewrite Hn, bool_decide_false by (by intros []).
  apply calls_ret.
Qed.

Section Triples.
Context (faulty : Prop).
Abbreviation triple := (triple id faulty (all_dirs newborn)).

Lemma t_create_next k pid fs Q :
  (k < 3)%nat -> young k (disk fs) ->
  (forall fs', young (S k) (disk fs') -> Q (Ok tt) fs') ->
  (forall e fs', storage_failure e -> Q (Throw e) fs') ->
  triple (atomically_create_file (fst (next_file k)) pid (snd (next_file k)) false) fs Q.
Proof.
  intros Hk Hy HQ He. pose proof (young_newborn _ _ Hy) as HC. apply young_now in Hy as Hc.
  apply t_atomically_create_file; [apply _|destruct k as [|[|k]]; cbn; auto with core|done| | |by auto].
  - intros d' ns' Hr. left. exists (S k). by eapply created_next.
  - intros fs' Hu' _ Hr. apply HQ, all_dirs_synced; [done|]. by eapply created_next.
Qed.

Lemma valid_baseline g : 0 < g < u64_max -> valid_hard (baseline g).
Proof. intros Hg. unfold valid_hard, is_u64, u64_max in *. cbn. lia. Qed.

Lemma t_create_hard_state k pid fs Q :
  (k <= 3)%nat -> young k (disk fs) ->
  (forall fs', young (Nat.max 2 k) (disk fs') -> Q (Ok (baseline 2)) fs') ->
  (forall e fs', storage_failure e -> Q (Throw e) fs') ->
  triple (open_hard_state cid nid pid false (Nat.leb 1 k) (Nat.leb 2 k)) fs Q.
Proof.
  intros Hk Hy HQ He. unfold open_hard_state.
  assert (forall fs', Q (Throw raft_io_error) fs') as Hio by (intros; apply He; by left).
  apply t_bind. apply t_weaken with (fun r fs' => match r with
    | Ok _ => young (Nat.max 1 k) (disk fs') | Throw e => storage_failure e end).
  { destruct k as [|k]; cbn [Nat.leb negb andb when].
    - apply (t_create_next 0); auto.
    - apply t_ret; [by apply young_newborn in Hy|]. by replace (Nat.max 1 (S k)) with (S k) by lia. }
  intros [[]|e] fs1; [intros Hy1|by auto]. pose proof (young_newborn _ _ Hy1) as HC1.
  pose proof (young_now _ _ Hy1) as (_ & _ & _ & Fa & Fb & _).
  apply t_bind. eapply t_calls; [apply (calls_slot_if hard_a_path (baseline 1)); [by apply valid_baseline|exact Fa]|done| |by auto]. intros fs2 E2.
  rewrite <- E2 in *. replace (Nat.leb 1 (Nat.max 1 k)) with true by (symmetry; apply Nat.leb_le; lia).
  apply t_bind. eapply t_calls; [apply (calls_slot_if hard_b_path (baseline 2)); [by apply valid_baseline|exact Fb]|done| |by auto]. intros fs3 E3.
  rewrite <- E3 in *. cbn [fst snd].
  apply t_bind. apply t_weaken with (fun r fs' => match r with
    | Ok b => b = (Some (baseline 2), true) /\ young (Nat.max 2 k) (disk fs') | Throw e => storage_failure e end).
  - destruct (Nat.leb_spec 2 (Nat.max 1 k)) as [H2|H2]; cbn [negb andb snd is_baseline baseline].
    + rewrite andb_false_r. apply t_ret; [done|]. split; [done|]. by replace (Nat.max 2 k) with (Nat.max 1 k) by lia.
    + replace (Nat.max 1 k) with 1%nat in Hy1 by lia. change (is_baseline 1 (baseline 1)) with true. cbn [andb].
      apply t_bind, (t_create_next 1); [lia|done| |done]. intros fs4 Hy4. replace (Nat.max 2 k) with 2%nat by lia.
      pose proof (young_now _ _ Hy4) as (_ & _ & _ & _ & Fb4 & _).
      eapply t_calls; [apply (calls_slot_if _ (baseline 2)); [by apply valid_baseline|exact Fb4]
        |by apply young_newborn in Hy4| |by left]. intros fs5 E5. split; [done|]. by rewrite E5.
  - intros [b|e] fs6; [|by auto]. intros [-> Hy6]. cbn [fst snd].
    change (select_hard_state _ _ _ _) with (Ok (baseline 2) : result HardRecord).
    apply t_ret; [by apply young_newborn in Hy6|]. by apply HQ.
Qed.

(** The files are there, but for the identity. *)
Lemma created_store d ns :
  created 3 d ns -> exists ino, ns !! log_path = Some ino /\
    inodes d !! ino = Some {| cached := encode_log_header cid nid fp None; stable := encode_log_header cid nid fp None |} /\
    forall d' ns', names d = ns -> replaced identity_path (encode_identity cid nid fp) d d' ns' ->
      store cid nid fp (baseline 2) None ino (eq (journal_bytes cid nid fp None [])) d' ns'.
Proof.
  intros (Hs & H1 & H2 & Fa & Fb & Fl). cbn [file_if Nat.leb] in *. pose proof Fl as (ino & Hn & Hf).
  exists ino. split_and!; [done|done|]. intros d' ns' <- Hr. pose proof Hr as (_ & _ & _ & _ & _ & Hs').
  assert (flushed_file d' ns' log_path (encode_log_header cid nid fp None)) as (i & Hn' & Hf')
    by (by eapply replaced_flushed; [auto with core| |exact Hr|exact Fl]).
  assert (i = ino) as ->.
  { destruct Hr as (j & _ & _ & _ & Hns & _). rewrite Hns, lookup_insert_ne in Hn' by (done || auto with core).
    congruence. }
  split_and!; [done|by eapply replaced_new; [auto with core|exact Hr]| | |done|].
  - exists (baseline 1), (baseline 2). split_and!; [by apply valid_baseline..| | |done];
      by eapply replaced_flushed; [auto with core| |exact Hr|].
  - by eapply replaced_absent; [auto with core| |exact Hr|].
  - eexists. split; [exact Hf'|]. intros c Hc. apply survives_flushed in Hc; [|done]. subst c.
    unfold journal_bytes. by rewrite app_nil_r.
Qed.

Lemma empty_journal : journal_of None [] empty_persistent_state.
Proof.
  assert (wf_state empty_persistent_state) by (split; by vm_compute).
  split_and!; [done|done|done|constructor|]. exists empty_persistent_state. split; [done|].
  split; try done; by vm_compute.
Qed.

Lemma t_finish_creation lock hook pid ino fs Q :
  young 3 (disk fs) -> names (disk fs) !! log_path = Some ino ->
  (forall i fs', solid cid nid fp (baseline 2) empty_persistent_state ino (disk fs') ->
     ready cid nid fp (baseline 2) empty_persistent_state ino i -> Q (Ok i) fs') ->
  (forall e fs', storage_failure e -> Q (Throw e) fs') ->
  triple
    (sync_file ino ;; sync_directory ;;
     when true (atomically_create_file identity_path pid (encode_identity cid nid fp) false) ;;
     remove_stale_temporary_files ;;
     ret {| cluster_id := cid; node_id := nid; membership_fingerprint := fp; log_descriptor := Some ino;
            lock_descriptor := Some lock; pending_descriptor := None;
            pending_temporary_path := EmptyString; pending_final_path := EmptyString;
            pending_kind := pending_none; hard_generation := hr_generation (baseline 2);
            state := empty_persistent_state; pending_state := empty_persistent_state;
            sync_hook := hook; pid := pid |}) fs Q.
Proof.
  intros Hy Hn HQ He. pose proof (young_newborn _ _ Hy) as HC. pose proof (young_now _ _ Hy) as Hc.
  assert (forall fs', Q (Throw raft_io_error) fs') as Hio by (intros; apply He; by left).
  destruct (created_store _ _ Hc) as (ino' & Hn' & Hf & Hnew). rewrite Hn in Hn'. injection Hn' as <-.
  pose proof (flush_nothing _ _ _ Hf) as Hid.
  apply t_bind, t_sync_file; rewrite ?Hid; [done|done| |by auto]. intros fs1 E1. rewrite <- E1 in *.
  apply t_bind, t_sync_directory; [done|by apply all_dirs_flush| |by auto]. intros fs2 E2.
  set (D := store cid nid fp (baseline 2) None ino (eq (journal_bytes cid nid fp None []))) in *.
  assert (forall d ns, D d ns -> initialized cid nid fp (eq empty_persistent_state) d ns) as HD.
  { intros d ns Hst. exists (baseline 2), None, ino. eapply store_weaken; [|exact Hst]. intros c <-.
    exists empty_persistent_state. split_and!; [done| |done]. exists None, [], []. split_and!; [apply empty_journal|by left|].
    by rewrite app_nil_r. }
  change (inodes (disk fs1)) with (inodes (flush_names (disk fs1))) in Hf.
  apply t_bind, t_atomically_create_file; [apply _|auto with core|rewrite E2; by apply all_dirs_flush| | |by auto].
  { intros d' ns' Hr. right. rewrite E2 in Hr. by apply HD, Hnew. }
  intros fs3 Hu3 _ Hr3. rewrite E2 in Hr3. specialize (Hnew _ _ eq_refl Hr3).
  assert (all_dirs D (disk fs3)) as HC3 by (by apply all_dirs_synced).
  apply t_mono with (all_dirs D); [|intros d'; apply all_dirs_weaken; intros ns Hst; right; by apply HD].
  apply t_bind, t_remove_stale; [apply _|done|done| |by auto]. intros fs4 HC4 Hu4.
  apply t_ret; [done|]. apply HQ; [|done]. split_and!; [done|done|]. exists None, [].
  split; [apply empty_journal|]. by apply Forall_cons in HC4 as [? _].
Qed.

Lemma t_recover_new ino fs Q :
  young 3 (disk fs) -> names (disk fs) !! log_path = Some ino ->
  (forall fs', disk fs' = disk fs -> Q (Ok empty_persistent_state) fs') ->
  (forall fs', Q (Throw raft_io_error) fs') ->
  triple (recover_log cid nid fp ino (mkRaftPersistentState 0 None None [])) fs Q.
Proof.
  intros Hy Hn HQ He. pose proof (young_newborn _ _ Hy) as HC.
  destruct (created_store _ _ (young_now _ _ Hy)) as (ino' & Hn' & Hf & _). rewrite Hn in Hn'. injection Hn' as <-.
  pose proof (encode_log_header_length cid nid fp None) as Hlen.
  pose proof (truncate_flushed _ _ _ Hf) as Et. pose proof (flush_nothing _ _ _ Hf) as Ef.
  eapply (t_recover_log cid nid fp) with (d := disk fs) (req := None) (us := []) (t := []) (p := empty_persistent_state);
    [done|done|done|done|exact Hf|by rewrite Hlen|apply empty_journal|by left|
     unfold journal_bytes; by rewrite !app_nil_r| | | | |by auto].
  all: unfold journal_bytes; change (updates_bytes []) with (@nil byte); rewrite ?app_nil_r, ?Et, ?Ef; done.
Qed.

Lemma t_create_locked k lock hook pid fs Q :
  (k <= 3)%nat -> young k (disk fs) ->
  (forall ino i fs', solid cid nid fp (baseline 2) empty_persistent_state ino (disk fs') ->
     ready cid nid fp (baseline 2) empty_persistent_state ino i -> Q (Ok i) fs') ->
  (forall e fs', storage_failure e -> Q (Throw e) fs') ->
  triple (open_locked cid nid hook fp pid lock) fs Q.
Proof.
  intros Hk Hy HQ He. pose proof (young_newborn _ _ Hy) as HC.
  assert (forall fs', Q (Throw raft_io_error) fs') as Hio by (intros; apply He; by left).
  pose proof (young_now _ _ Hy) as (_ & Hid & _ & Fa & Fb & Fl). unfold open_locked.
  apply t_bind. eapply t_calls; [apply calls_attempt|done| |by auto]. intros fs1 E1. rewrite <- E1 in *.
  apply t_bind. eapply t_calls; [by apply (calls_exists_if identity_path [] fs1 false)|done| |by auto].
  intros fs2 E2. rewrite <- E2 in *.
  apply t_bind. eapply t_calls; [by eapply calls_exists_if|done| |by auto]. intros fs3 E3. rewrite <- E3 in *.
  apply t_bind. eapply t_calls; [by eapply calls_exists_if|done| |by auto]. intros fs4 E4. rewrite <- E4 in *.
  apply t_bind. eapply t_calls; [by eapply calls_exists_if|done| |by auto]. intros fs5 E5. rewrite <- E5 in *.
  clear fs1 fs2 fs3 fs4 E1 E2 E3 E4 E5. cbn [negb orb andb].
  assert ((negb (Nat.leb 1 k) && negb (Nat.leb 2 k) && Nat.leb 3 k) = false) as -> by (by destruct k as [|[|[|k]]]).
  apply t_bind, t_ret; [done|]. apply t_bind, t_create_hard_state; [done|done| |by auto]. clear Hy HC Hid Fa Fb Fl.
  intros fs6 Hy. pose proof (young_newborn _ _ Hy) as HC. pose proof (young_now _ _ Hy) as (_ & _ & Hsn & _).
  apply t_bind. eapply t_calls; [by apply (calls_load cid nid fp) with (snap := None)|done| |by auto].
  intros fs7 E7. rewrite <- E7 in *. cbn [hr_term baseline snapshot_base_term Z.ltb Z.compare].
  apply t_bind. apply t_weaken with (fun r fs' => match r with
    | Ok _ => young 3 (disk fs') | Throw e => storage_failure e end).
  { destruct (Nat.leb_spec 3 k) as [H3|H3]; cbn [negb].
    - apply t_ret; [done|]. by replace (Nat.max 2 k) with 3%nat in Hy by lia.
    - replace (Nat.max 2 k) with 2%nat in Hy by lia. change (is_baseline 2 (baseline 2)) with true. cbn [negb orb].
      by apply (t_create_next 2); [lia| | |]. }
  clear Hsn HC Hy. intros [[]|e] fs8; [|by auto]. intros Hy.
  pose proof (young_newborn _ _ Hy) as HC. destruct (created_store _ _ (young_now _ _ Hy)) as (ino & Hn & _).
  apply t_bind. eapply t_calls; [by apply calls_open_name|done| |by auto]. intros fs9 E9. rewrite <- E9 in *.
  apply t_bind. eapply t_calls; [apply calls_attempt_once|done| |by auto]. intros fs10 E10. rewrite <- E10 in *.
  apply t_bind, t_recover_new; [done|done| |by auto]. intros fs11 E11. rewrite <- E11 in *.
  change (is_baseline 2 (baseline 2)) with true. cbn [negb andb orb empty_persistent_state ps_log].
  apply t_finish_creation; [done|done| |by auto]. intros i fs'. apply HQ.
Qed.

Lemma t_create k hook pid fs Q :
  cid <> 0 -> nid <> 0 -> (k <= 3)%nat -> young k (disk fs) ->
  (forall ino i fs', solid cid nid fp (baseline 2) empty_persistent_state ino (disk fs') ->
     ready cid nid fp (baseline 2) empty_persistent_state ino i -> Q (Ok i) fs') ->
  (forall e fs', storage_failure e -> Q (Throw e) fs') ->
  triple (open cid nid hook fp pid) fs Q.
Proof.
  intros Hc0 Hn0 Hk Hy HQ He. pose proof (young_newborn _ _ Hy) as HC.
  assert (forall fs', Q (Throw raft_io_error) fs') as Hio by (intros; apply He; by left).
  unfold open. rewrite (proj2 (Z.eqb_neq cid 0)), (proj2 (Z.eqb_neq nid 0)) by done. cbn [orb].
  apply t_bind. eapply t_calls; [apply calls_attempt_once|done| |by auto]. intros fs1 E1. rewrite <- E1 in *.
  apply t_bind. eapply t_calls; [apply calls_attempt_once|done| |by auto]. intros fs2 E2. rewrite <- E2 in *.
  apply t_bind, t_open_or_create; [done| | |by auto].
  - intros Hn. destruct (all_dirs_add_file lock_path _ lock_not_core Hn Hy) as [Hy' _].
    split; [by apply young_newborn in Hy'|]. intros fs3 E3. eapply t_create_locked; [done|by rewrite E3|done|done].
  - intros lock fs3 _ E3. eapply t_create_locked; [done|by rewrite E3|done|done].
Qed.
End Triples.
End Creation.
