(* ===== verification/RaftDurability.v ===== *)
(** * Durable updates of a Raft store

    Every update of [RaftStorage] is atomic: a crash at any point of it leaves
    the state before or after, and once it has returned only the one after. *)

From S2P Require Import Prelude Wire Checksum Protocol RaftTypes RaftNode RaftInvariant RaftStep RaftFormat.
From S2P Require Import RaftJournal Fs FsTriples Directory RaftStorage RaftFiles RaftRecovery.
Import RaftFormat RaftJournal SnapshotStore RaftStorage.

Section Durability.
Context (cid : Z) (nid : NodeId) (fp : Z).
Hypothesis cid_u64 : is_u64 cid.
Hypothesis nid_u64 : is_u64 nid.
Hypothesis fp_u64 : is_u64 fp.

Abbreviation store := (store cid nid fp).
Abbreviation holds := (holds cid nid fp).
Abbreviation initialized := (initialized cid nid fp).
Abbreviation journal_bytes := (journal_bytes cid nid fp).
Abbreviation journal_image := (journal_image cid nid fp).
Abbreviation solid := (solid cid nid fp).
Abbreviation ready := (ready cid nid fp).

(** Either of two states. *)
Definition either (p p' x : RaftPersistentState) : Prop := x = p \/ x = p'.

Section Triples.
Context (faulty : Prop) (C : Disk -> Prop).
Abbreviation triple := (triple fs_ faulty C).

Lemma t_sys {A} (m : M Fs A) s (Q : result A -> Storage -> Prop) :
  FsTriples.triple id faulty C m (fs_ s) (fun r fs' => Q r (set_fs fs' s)) -> triple (sys m) s Q.
Proof. by apply (t_lift id). Qed.

Lemma t_update_impl f s (Q : result unit -> Storage -> Prop) :
  C (disk (fs_ s)) -> Q (Ok tt) {| impl_ := f (impl_ s); fs_ := fs_ s |} -> triple (update_impl f) s Q.
Proof. intros HC HQ. by apply t_modify. Qed.

Lemma t_open_journal ino s (Q : result nat -> Storage -> Prop) :
  log_descriptor (impl_ s) = Some ino -> C (disk (fs_ s)) -> Q (Ok ino) s -> triple open_journal s Q.
Proof. intros Hl HC HQ. apply t_bind, t_get; [done|]. rewrite Hl. by apply t_ret. Qed.

Lemma t_no_pending s (Q : result unit -> Storage -> Prop) :
  pending_kind (impl_ s) = pending_none -> C (disk (fs_ s)) -> Q (Ok tt) s -> triple no_pending_update s Q.
Proof.
  intros Hp HC HQ. apply t_bind, t_get; [done|]. unfold has_pending_update. rewrite Hp. by apply t_ret.
Qed.
End Triples.

(** ** Journal appends *)

Lemma journal_of_base req us p : journal_of req us p -> snapshot_base req <= base_of p.
Proof.
  intros (_ & Hstart & _ & Hus & q & Hq & Hc). destruct (replay_wf _ _ _ Hstart Hus Hq) as (_ & Hs & _).
  destruct (cov_base _ _ Hc) as [H _]. unfold base_of in H at 1. rewrite Hs in H. exact H.
Qed.

Lemma journal_append req us p u code p' :
  journal_of req us p -> above (base_of p) u -> apply_log_update p u code = Ok p' ->
  journal_of req (us ++ [u]) p' /\ valid_update u.
Proof.
  intros Hj Ha Hu. pose proof (journal_of_base _ _ _ Hj) as Hb.
  destruct Hj as (Hp & Hstart & Hreq & Hus & q & Hq & Hc).
  destruct (apply_wf _ _ _ _ Hp Ha Hu) as [Hp' Hv]. destruct (replay_wf _ _ _ Hstart Hus Hq) as (Hwq & _).
  destruct (apply_rebase q p u code raft_corruption p' Hc Hwq Hp Ha Hu) as (q' & Hq' & Hc').
  apply apply_log_update_iff in Hu as (_ & _ & _ & _ & E); [|done..].
  split; [|done]. split_and!; try done; [by subst p'|..].
  - apply Forall_app. split; [done|]. constructor; [|done]. destruct Ha as (? & ? & ?). split_and!; try done; lia.
  - exists q'. split; [|done]. assert (start req p' = start req p) as -> by (by subst p').
    rewrite replay_updates_app, Hq. cbn [replay_updates]. by rewrite Hq'.
Qed.

Lemma journal_bytes_snoc req us u : journal_bytes req (us ++ [u]) = journal_bytes req us ++ update_bytes u.
Proof.
  unfold RaftRecovery.journal_bytes. rewrite updates_bytes_app, (assoc_L (++)).
  unfold updates_bytes at 2. cbn. by rewrite app_nil_r.
Qed.

(** A crash during the append leaves a journal of the old or the new state. *)
Lemma append_survives h p p' req us u w c :
  journal_of req us p -> journal_of req (us ++ [u]) p' -> valid_update u ->
  belongs h (ps_snapshot p) p -> belongs h (ps_snapshot p) p' -> w `prefix_of` update_bytes u ->
  survives {| cached := journal_bytes req us ++ w; stable := journal_bytes req us |} c ->
  holds (either p p') h (ps_snapshot p) c.
Proof.
  intros Hj Hj' Hv Hb Hb' Hw Hs. apply survives_journal in Hs; [|done].
  assert (exists t, c = journal_bytes req us ++ t /\ t `prefix_of` update_bytes u) as (t & -> & Ht).
  { destruct Hs as [(t & -> & Ht)|[Hp1 Hp2]]; [exists t; split; [done|by trans w]|].
    exists []. split; [|apply prefix_nil]. rewrite app_nil_r. by apply (anti_symm prefix). }
  destruct (decide (t = update_bytes u)) as [->|Hne].
  - exists p'. split_and!; [by right| |done]. exists req, (us ++ [u]), []. split_and!; [done|by left|].
    by rewrite journal_bytes_snoc, app_nil_r.
  - exists p. split_and!; [by left| |done]. exists req, us, t. split_and!; [done| |done].
    right. by exists u.
Qed.

Definition with_pending (h : HardRecord) (p : RaftPersistentState) (ino : nat) (kind : PendingKind)
    (next : RaftPersistentState) (i : Impl) : Prop :=
  cluster_id i = cid /\ node_id i = nid /\ membership_fingerprint i = fp /\ log_descriptor i = Some ino /\
  pending_kind i = kind /\ hard_generation i = hr_generation h /\ state i = p /\ pending_state i = next.

(** The state between [prepare] and [sync] of a transaction. *)
Definition log_prepared (h : HardRecord) (p p' : RaftPersistentState) (ino : nat) (s : Storage) : Prop :=
  with_pending h p ino pending_log p' (impl_ s) /\
  unsynced (disk (fs_ s)) = [] /\ ps_snapshot p' = ps_snapshot p /\
  exists req us u, journal_of req us p /\ journal_of req (us ++ [u]) p' /\ valid_update u /\
    belongs h (ps_snapshot p) p /\ belongs h (ps_snapshot p) p' /\
    inodes (disk (fs_ s)) !! ino =
      Some {| cached := journal_bytes req (us ++ [u]); stable := journal_bytes req us |} /\
    all_dirs (store h (ps_snapshot p) ino (holds (either p p') h (ps_snapshot p))) (disk (fs_ s)).

Lemma store_initialized P h snap ino (K : list byte -> Prop) d :
  (forall c, K c -> holds P h snap c) -> all_dirs (store h snap ino K) d -> all_dirs (initialized P) d.
Proof.
  intros HK. apply all_dirs_weaken. intros ns Hns. exists h, snap, ino. by eapply store_weaken.
Qed.

Lemma holds_weaken (P P' : RaftPersistentState -> Prop) h snap c :
  (forall x, P x -> P' x) -> holds P h snap c -> holds P' h snap c.
Proof. intros HP (x & Hx & Hrest). exists x. auto. Qed.

(** The journal file of a store at rest. *)
Lemma solid_file h p ino req us d :
  store h (ps_snapshot p) ino (eq (journal_bytes req us)) d (names d) ->
  inodes d !! ino = Some {| cached := journal_bytes req us; stable := journal_bytes req us |}.
Proof.
  intros (_ & _ & _ & _ & _ & [c st] & Hf & HK). rewrite Hf.
  pose proof (HK _ (survives_refl {| cached := c; stable := st |})) as E1. cbn in E1.
  assert (survives {| cached := c; stable := st |} st) as Hs.
  { split; [|by right]. cbn. clear. revert c. induction st as [|x st IH]; intros [|y c]; cbn; try apply prefix_nil.
    destruct (Byte.eqb x y); [|apply prefix_nil]. by apply prefix_cons. }
  pose proof (HK _ Hs) as E2. by rewrite E1, E2 at 1.
Qed.

Lemma solid_all h p ino d :
  solid h p ino d -> exists req us, journal_of req us p /\ belongs h (ps_snapshot p) p /\
    all_dirs (store h (ps_snapshot p) ino (eq (journal_bytes req us))) d /\
    inodes d !! ino = Some {| cached := journal_bytes req us; stable := journal_bytes req us |}.
Proof.
  intros (Hu & Hb & req & us & Hj & Hst). exists req, us. split_and!; try done.
  - unfold all_dirs, dirs. rewrite Hu. by constructor.
  - by eapply solid_file.
Qed.

Lemma solid_initialized P h p ino d : P p -> solid h p ino d -> all_dirs (initialized P) d.
Proof.
  intros HP Hs. destruct (solid_all _ _ _ _ Hs) as (req & us & Hj & Hb & Hall & _).
  eapply store_initialized; [|exact Hall]. intros c <-. exists p. split_and!; [done| |done].
  exists req, us, []. rewrite app_nil_r. split_and!; [done|by left|done].
Qed.

Lemma t_prepare_log faulty P h p ino u s Q :
  ready h p ino (impl_ s) -> solid h p ino (disk (fs_ s)) -> above (base_of p) u ->
  P p -> (forall p', apply_log_update p u raft_invalid_update = Ok p' -> P p') ->
  (forall p' s', apply_log_update p u raft_invalid_update = Ok p' -> log_prepared h p p' ino s' -> Q (Ok tt) s') ->
  (forall e, apply_log_update p u raft_invalid_update = Throw e -> Q (Throw e) s) ->
  (faulty -> forall s', Q (Throw raft_io_error) s') ->
  triple fs_ faulty (all_dirs (initialized P)) (prepare_log u) s Q.
Proof.
  intros Hr Hs Ha HP HP' HQ Hrej He. pose proof (solid_initialized P _ _ _ _ HP Hs) as HC.
  apply t_bind, (t_open_journal _ _ ino); [apply Hr|done|].
  apply t_bind, t_no_pending; [apply Hr|done|]. apply t_bind, t_get; [done|].
  rewrite (ready_state _ _ _ _ _ _ _ Hr).
  destruct (apply_log_update p u raft_invalid_update) as [p'|e] eqn:Eu; [|by apply t_throw; [|apply Hrej]].
  destruct (solid_all _ _ _ _ Hs) as (req & us & Hj & Hb & Hall & Hf).
  destruct (journal_append _ _ _ _ _ _ Hj Ha Eu) as [Hj' Hv].
  pose proof Eu as Eu'. apply apply_log_update_iff in Eu' as (_ & _ & _ & _ & Ep); [|apply Hj|done].
  assert (belongs h (ps_snapshot p) p') as Hb' by (subst p'; destruct Hb as (? & ? & ?); by split_and!).
  rewrite encode_log_update_bytes by done.
  set (D := store h (ps_snapshot p) ino (holds (either p p') h (ps_snapshot p))).
  assert (forall w, w `prefix_of` update_bytes u -> all_dirs D (update_inode ino (append_bytes w) (disk (fs_ s)))) as HD.
  { intros w Hw. eapply all_dirs_journal; [exact Hall|exact Hf|]. intros c. by eapply append_survives. }
  assert (forall d, all_dirs D d -> all_dirs (initialized P) d) as HDP.
  { intros d. apply store_initialized. intros c. apply holds_weaken. intros x [->| ->]; [done|by apply HP']. }
  apply t_bind, t_sys, t_write_all; [done|intros w Hw; by apply HDP, HD| |].
  - intros fs' E. apply t_update_impl; [cbn; rewrite E; by apply HDP, HD|].
    apply (HQ p'); [done|]. split_and!; [destruct Hr; by split_and!|cbn; rewrite E; apply Hs|by subst p'|].
    exists req, us, u. split_and!; try done.
    + cbn. rewrite E. erewrite update_inode_eq by done. by rewrite journal_bytes_snoc.
    + cbn. rewrite E. by apply HD.
  - intros Hf' w fs' _ _. by apply He.
Qed.

Lemma t_sync_log faulty P h p p' ino s Q :
  log_prepared h p p' ino s -> P p -> P p' ->
  (forall s', ready h p' ino (impl_ s') -> solid h p' ino (disk (fs_ s')) -> Q (Ok tt) s') ->
  (faulty -> forall e s', storage_failure e -> Q (Throw e) s') ->
  triple fs_ faulty (all_dirs (initialized P)) sync s Q.
Proof.
  intros ((Hi1 & Hi2 & Hi3 & Hi4 & Hi5 & Hi6 & Hi7 & Hi8) & Hu & Hsnap & req & us & u & Hj & Hj' & Hv & Hb & Hb' & Hf & Hall)
    HP HP' HQ He. assert (storage_failure raft_io_error) by by left. assert (storage_failure callback_error) by by right.
  assert (all_dirs (initialized P) (disk (fs_ s))) as HC.
  { eapply store_initialized; [|exact Hall]. intros c. apply holds_weaken. by intros x [->| ->]. }
  set (d' := update_inode ino flush_bytes (disk (fs_ s))).
  assert (all_dirs (store h (ps_snapshot p) ino (eq (journal_bytes req (us ++ [u])))) d') as Hall'.
  { eapply all_dirs_journal; [exact Hall|exact Hf|]. intros c Hc. by apply survives_flushed in Hc. }
  assert (all_dirs (initialized P) d') as HC'.
  { eapply store_initialized; [|exact Hall']. intros c <-. exists p'. split_and!; [done| |done].
    exists req, (us ++ [u]), []. rewrite app_nil_r. split_and!; [done|by left|done]. }
  apply t_bind, (t_open_journal _ _ ino); [done|done|]. apply t_bind, t_get; [done|]. cbn beta zeta. rewrite Hi5.
  apply t_bind, t_bind, t_sys, t_sync_file; [done|done| |by auto]. intros fs1 E1.
  apply t_sys, t_run_hook; [cbn; by rewrite E1| |by auto]. intros fs2 E2. cbn in E2.
  apply t_bind, t_update_impl; [cbn; by rewrite E2, E1|].
  apply t_update_impl; [cbn; by rewrite E2, E1|].
  apply HQ; cbn; [by split|]. rewrite E2, E1. split_and!; [done|by rewrite Hsnap|].
  exists req, (us ++ [u]). split; [done|]. rewrite Hsnap. apply Forall_cons in Hall' as [? _]. done.
Qed.

(** ** Hard state *)

Definition slot (generation : Z) : string := if generation mod 2 =? 1 then hard_a_path else hard_b_path.

(** Replacing the older generation by a newer one. *)
Lemma select_next ra rb h h' :
  select_hard_state (Some ra) (Some rb) true true = Ok h -> hr_generation h' = hr_generation h + 1 ->
  if hr_generation h' mod 2 =? 1 then select_hard_state (Some h') (Some rb) true true = Ok h'
  else select_hard_state (Some ra) (Some h') true true = Ok h'.
Proof.
  intros Hsel Hg. unfold select_hard_state in *. rewrite !bool_decide_false in * by done. cbn [andb orb] in *.
  destruct (Z.eqb_spec (hr_generation ra mod 2) 1) as [Ha|]; [|done].
  destruct (Z.eqb_spec (hr_generation rb mod 2) 0) as [Hb|]; [|done]. cbn [negb orb] in Hsel.
  pose proof (Z.div_mod (hr_generation ra) 2 ltac:(lia)). pose proof (Z.div_mod (hr_generation rb) 2 ltac:(lia)).
  pose proof (Z.div_mod (hr_generation h') 2 ltac:(lia)). pose proof (Z.mod_pos_bound (hr_generation h') 2 ltac:(lia)).
  destruct (Z.ltb_spec (hr_generation rb) (hr_generation ra)), (Z.leb_spec (hr_generation rb) (hr_generation ra)); try lia;
    match goal with H : context [negb ?b] |- _ => destruct b eqn:Ed; [|done] end; cbn [negb] in Hsel;
    injection Hsel as ->; apply Z.eqb_eq in Ed.
  - destruct (Z.eqb_spec (hr_generation h' mod 2) 1); [exfalso; lia|].
    destruct (Z.eqb_spec (hr_generation h' mod 2) 0); [|exfalso; lia]. cbn [negb orb].
    destruct (Z.ltb_spec (hr_generation h') (hr_generation h)), (Z.leb_spec (hr_generation h') (hr_generation h)); try lia.
    replace (hr_generation h' - hr_generation h) with 1 by lia. done.
  - destruct (Z.eqb_spec (hr_generation h' mod 2) 1); [|exfalso; lia]. cbn [negb orb].
    destruct (Z.ltb_spec (hr_generation h) (hr_generation h')), (Z.leb_spec (hr_generation h) (hr_generation h')); try lia.
    replace (hr_generation h' - hr_generation h) with 1 by lia. done.
Qed.

Lemma core_slot g : core (slot g).
Proof. unfold slot. destruct (_ =? _); set_solver. Qed.

(** [h'] is the next generation after [h], and [p'] the state with it. *)
Definition next_hard (h h' : HardRecord) (p p' : RaftPersistentState) : Prop :=
  hr_generation h' = hr_generation h + 1 /\ valid_hard h' /\ ps_current_term p <= hr_term h' /\
  p' = set_hard (hr_term h') (hr_voted_for h') p.

Lemma journal_set_hard req us p t v :
  journal_of req us p -> is_u64 t -> ps_current_term p <= t -> journal_of req us (set_hard t v p).
Proof.
  intros (Hp & Hstart & Hreq & Hus & q & Hq & Hc) Ht Hle. split_and!; try done.
  - by apply wf_set_hard.
  - by apply (wf_set_hard (start req p)).
  - exists (set_hard t v q). split; [|by apply covers_set_hard].
    by apply (replay_set_hard (start req p)).
Qed.

Lemma replaced_hard h h' snap ino K d0 d' ns' :
  store h snap ino K d0 (names d0) -> hr_generation h' = hr_generation h + 1 -> valid_hard h' ->
  replaced (slot (hr_generation h')) (encode_hard_state cid nid h') d0 d' ns' ->
  store h' snap ino K d' ns'.
Proof.
  intros (Hs & Hid & (ra & rb & Ha & Hb & Fa & Fb & Hsel) & Hsnap & Hlog & f & Hf & HK) Hg Hv Hr.
  pose proof (select_next _ _ _ _ Hsel Hg) as Hnext. pose proof Hr as (i0 & Hno & Hnew & Hsame & Hns & Hs').
  assert (slot (hr_generation h') <> identity_path /\ slot (hr_generation h') <> log_path /\
    slot (hr_generation h') <> published_path) as (N1 & N2 & N3) by (unfold slot; destruct (_ =? _); done).
  split_and!; [done|eapply replaced_flushed; [apply core_identity|done..]| | | |].
  - unfold slot in Hr. destruct (hr_generation h' mod 2 =? 1).
    + exists h', rb. split_and!; try done; [by apply replaced_new in Hr; [|apply core_hard_a]|].
      eapply replaced_flushed; [apply core_hard_b| |exact Hr|done]. done.
    + exists ra, h'. split_and!; try done; [|by apply replaced_new in Hr; [|apply core_hard_b]].
      eapply replaced_flushed; [apply core_hard_a| |exact Hr|done]. done.
  - destruct snap as [s|]; cbn in *.
    + split; [|tauto]. eapply replaced_flushed; [apply core_published|done|exact Hr|tauto].
    + rewrite Hns, lookup_insert_ne by (done || apply core_published). done.
  - rewrite Hns, lookup_insert_ne by (done || apply core_log). done.
  - exists f. split; [|done]. rewrite Hsame; [done|]. intros ->. by apply (Hno log_path); [apply core_log|].
Qed.

Lemma solid_next h h' p p' ino d0 d' ns' :
  solid h p ino d0 -> next_hard h h' p p' ->
  replaced (slot (hr_generation h')) (encode_hard_state cid nid h') d0 d' ns' ->
  exists req us, journal_of req us p' /\ belongs h' (ps_snapshot p') p' /\
    store h' (ps_snapshot p') ino (eq (journal_bytes req us)) d' ns'.
Proof.
  intros (_ & Hb & req & us & Hj & Hst) (Hg & Hv & Hle & ->) Hr. exists req, us. split_and!.
  - apply journal_set_hard; [done|apply Hv|done].
  - by destruct Hb as (? & ? & ?).
  - by eapply replaced_hard.
Qed.

(** The state between [prepare] and [sync] of a hard-state update. *)
Definition hard_prepared (h h' : HardRecord) (p p' : RaftPersistentState) (ino : nat) (s : Storage) : Prop :=
  next_hard h h' p p' /\ with_pending h p ino pending_hard_state p' (impl_ s) /\
  exists tmp tino d0, pending_descriptor (impl_ s) = Some tino /\ pending_temporary_path (impl_ s) = tmp /\
    pending_final_path (impl_ s) = slot (hr_generation h') /\ ~ core tmp /\ solid h p ino d0 /\
    writing (initialized (either p p')) d0 tmp tino (encode_hard_state cid nid h') (disk (fs_ s)).

Lemma solid_valid_hard h p ino d : solid h p ino d -> valid_hard h.
Proof.
  intros (_ & _ & _ & _ & _ & _ & _ & (ra & rb & Ha & Hb & _ & _ & Hsel) & _).
  unfold select_hard_state in Hsel. repeat case_match; try done; by injection Hsel as <-.
Qed.

Lemma next_hard_replaced P h h' p p' ino d0 d' ns' :
  solid h p ino d0 -> next_hard h h' p p' -> P p' ->
  replaced (slot (hr_generation h')) (encode_hard_state cid nid h') d0 d' ns' -> initialized P d' ns'.
Proof.
  intros Hs Hn HP Hr. destruct (solid_next _ _ _ _ _ _ _ _ Hs Hn Hr) as (req & us & Hj & Hb & Hst).
  exists h', (ps_snapshot p'), ino. eapply store_weaken; [|exact Hst]. intros c <-. exists p'.
  split_and!; [done| |done]. exists req, us, []. rewrite app_nil_r. split_and!; [done|by left|done].
Qed.

Lemma t_prepare_hard_state faulty h p ino term vote s Q :
  let h' := {| hr_generation := hr_generation h + 1; hr_term := term; hr_voted_for := vote |} in
  let p' := set_hard term vote p in
  ready h p ino (impl_ s) -> solid h p ino (disk (fs_ s)) -> is_u64 term ->
  match vote with Some v => is_u64 v | None => True end ->
  (forall s', hard_prepared h h' p p' ino s' -> Q (Ok tt) s') ->
  Q (Throw raft_invalid) s -> (forall e s', storage_failure e -> Q (Throw e) s') ->
  triple fs_ faulty (all_dirs (initialized (either p p'))) (prepare_hard_state term vote) s Q.
Proof.
  intros h' p' Hr Hs Ht Hvote HQ Hrej He. assert (storage_failure raft_io_error) as Hio by by left.
  pose proof (solid_initialized (either p p') _ _ _ _ (or_introl eq_refl) Hs) as HC.
  apply t_bind, (t_open_journal _ _ ino); [apply Hr|done|].
  apply t_bind, t_no_pending; [apply Hr|done|]. apply t_bind, t_get; [done|].
  destruct (solid_valid_hard _ _ _ _ Hs) as (Hg & _ & Hg0 & _).
  cbn beta zeta. rewrite (ready_state _ _ _ _ _ _ _ Hr), (ready_generation _ _ _ _ _ _ _ Hr).
  destruct (_ || _) eqn:E1; [by apply t_throw|].
  destruct (existsb _ _); [by apply t_throw|].
  destruct (Z.eqb_spec (hr_generation h) u64_max) as [|Hmax]; [by apply t_throw|].
  rewrite !orb_false_iff in E1. destruct E1 as [[[E1 E2] E3] _]. apply Z.ltb_ge in E1.
  assert (next_hard h h' p p') as Hnext.
  { split_and!; try done. unfold valid_hard, h'. cbn. unfold is_u64, u64_max in Hg, Hmax |- *.
    split_and!; [lia|lia|apply Ht|apply Ht|lia|]. destruct vote as [v|]; [|done]. split; [exact Hvote|split].
    - intros ->. by rewrite bool_decide_true in E3.
    - intros ->. by rewrite bool_decide_true in E2 by done. }
  rewrite (u64_small (hr_generation h + 1)) by (unfold is_u64, u64_max in *; lia).
  rewrite (ready_cluster _ _ _ _ _ _ _ Hr), (ready_node _ _ _ _ _ _ _ Hr).
  change (if (hr_generation h + 1) mod 2 =? 1 then hard_a_path else hard_b_path) with (slot (hr_generation h')).
  apply t_bind, t_update_impl; [done|]. apply t_bind, t_sys, t_temporary_loop; [apply _|done| |by auto].
  intros tmp fs1 Hc Hne Hn E4. cbn in Hn, E4. destruct (all_dirs_add_file tmp _ Hc Hn HC) as [HC1 Hs1].
  assert (writing (initialized (either p p')) (disk (fs_ s)) tmp (fresh_ino (disk (fs_ s))) [] (disk fs1)) as Hw.
  { rewrite E4. split_and!; try done.
    - exists []. apply add_file_new.
    - intros i. apply add_file_inodes.
    - intros n Hcn. cbn. rewrite lookup_insert_ne; [done|]. by intros ->. }
  apply t_bind, t_update_impl; [by cbn; rewrite E4|]. cbn [fs_ impl_ set_fs].
  apply t_bind, t_on_error, t_sys. cbn [fs_ set_fs].
  eapply t_writing_all; [apply _|exact Hc|exact Hw| |].
  - intros fs2 Hw2. apply t_update_impl; [apply Hw2|]. apply HQ. split_and!; [done|destruct Hr; by split_and!|].
    exists tmp, (fresh_ino (disk (fs_ s))), (disk (fs_ s)). split_and!; try done; apply Hw2.
  - intros Hf w fs2 Hw2. apply t_bind, t_update_impl; [apply Hw2|]. apply t_bind, t_sys.
    unfold unlink_file. rewrite (proj2 (String.eqb_neq tmp "")) by done.
    apply t_unlink_temporary; [apply _|done|apply Hw2|]. intros fs3 HC3. apply t_update_impl; [done|]. by apply He.
Qed.

Lemma t_sync_hard_state faulty h h' p p' ino s Q :
  hard_prepared h h' p p' ino s ->
  (forall s', ready h' p' ino (impl_ s') -> solid h' p' ino (disk (fs_ s')) -> Q (Ok tt) s') ->
  (faulty -> forall e s', storage_failure e -> Q (Throw e) s') ->
  triple fs_ faulty (all_dirs (initialized (either p p'))) sync s Q.
Proof.
  intros (Hnext & (Hi1 & Hi2 & Hi3 & Hi4 & Hi5 & Hi6 & Hi7 & Hi8) & tmp & tino & d0 & Hp1 & Hp2 & Hp3 & Hc & Hs &
    HC & Hsc & [st Hf] & Hsame & Hn) HQ He.
  assert (storage_failure raft_io_error) by by left. assert (storage_failure callback_error) by by right.
  pose proof Hnext as (Hgen & Hvalid & _).
  apply t_bind, (t_open_journal _ _ ino); [done|done|]. apply t_bind, t_get; [done|]. cbn beta zeta.
  rewrite Hi5, Hp1, Hp2, Hp3. destruct (all_dirs_update tmp tino flush_bytes _ Hc Hsc HC) as [HC2 Hsc2].
  set (d1 := update_inode tino flush_bytes (disk (fs_ s))) in *. set (contents := encode_hard_state cid nid h') in *.
  assert (inodes d1 !! tino = Some {| cached := contents; stable := contents |}) as Hf1
    by (unfold d1; by erewrite update_inode_eq by done).
  assert (forall i, i <> tino -> inodes d1 !! i = inodes d0 !! i) as Hsame1
    by (intros i Hi; unfold d1; rewrite update_inode_ne by done; by apply Hsame).
  apply t_bind, t_bind, t_sys, t_sync_file; [done|done| |by auto]. fold d1. intros fs1 E1.
  apply t_bind, t_sys, t_run_hook; [by cbn; rewrite E1| |by auto]. cbn [fs_ set_fs]. intros fs2 E2.
  rewrite E1 in E2. apply t_bind, t_update_impl; [by cbn; rewrite E2|]. apply t_bind, t_sys. cbn [fs_ set_fs impl_].
  apply t_fill with tino contents d0; rewrite ?E2; try done; [apply _|apply core_slot|..|by auto].
  { intros d' ns' Hr. eapply (next_hard_replaced _ h h' p p'); try done. by right. }
  intros fs3 Hu3 HC3 Hr3.
  apply t_bind, t_sys, t_run_hook; [done| |by auto]. cbn [fs_ set_fs impl_]. intros fs4 E4.
  apply t_bind, t_update_impl; [by cbn; rewrite E4|]. apply t_bind, t_sys. cbn [fs_ set_fs impl_].
  apply t_sync_directory; [by rewrite E4|rewrite E4; by apply all_dirs_flush| |by auto]. intros fs5 E5.
  pose proof (all_dirs_flush _ HC3) as HC5. rewrite <- E4, <- E5 in HC5.
  apply t_update_impl; [done|]. apply t_bind, t_update_impl; [done|]. apply t_update_impl; [done|].
  apply HQ; cbn.
  - split; cbn; try done. rewrite Hi6, u64_small by (rewrite <- Hgen; apply Hvalid). done.
  - rewrite E5, E4. destruct (solid_next _ _ _ _ _ _ _ _ Hs Hnext Hr3) as (req & us & Hj & Hb & Hst).
    split_and!; [done|done|]. exists req, us. done.
Qed.

(** ** Snapshots *)

Definition stub (s : StateMachineSnapshot) : StateMachineSnapshot :=
  mkStateMachineSnapshot (sm_last_included_index s) (sm_last_included_term s) [].

(** The transactions of the journal written for a snapshot. *)
Definition installed_updates (s : StateMachineSnapshot) (p : RaftPersistentState) : list LogUpdate :=
  let suffix := ps_log (persist (PersistSnapshot s) p) in
  batches (length suffix) (sm_last_included_index s + 1) suffix.

Lemma journal_installed p s :
  wf_state p -> installable s p ->
  journal_of (Some (stub s)) (installed_updates s p) (persist (PersistSnapshot s) p).
Proof.
  intros Hwf Hin. pose proof (persist_snapshot_wf s p Hwf Hin) as Hp'. set (p' := persist (PersistSnapshot s) p) in *.
  assert (wf_state (start (Some (stub s)) p')) as Hst.
  { split; [apply Hp'|apply (wf_snapshot p' Hp')| |done].
    pose proof Hin as (? & _). unfold last_of, base_of, size_of. cbn. lia. }
  pose proof (wf_last p' Hp') as Hlast. pose proof (wf_log p' Hp') as Hlog. unfold last_of in Hlast.
  destruct (batches_replay (length (ps_log p')) (ps_log p') (sm_last_included_index s + 1)
    (start (Some (stub s)) p')) as [Hab Hrep]; [done|done| | | |].
  - unfold last_of, base_of, size_of. cbn. lia.
  - change (base_of p') with (sm_last_included_index s) in Hlast. lia.
  - unfold term_before, base_of. cbn [start ps_snapshot snapshot_base stub sm_last_included_index].
    replace (Z.to_nat _) with 0%nat by lia. exact Hlog.
  - split_and!; try done. eexists. split; [exact Hrep|].
    assert (ps_snapshot p' = Some s) as Es by done. clearbody p'. pose proof (size_of_nonneg (ps_log p')).
    split; try done; unfold term_before, last_of, base_of; rewrite Es; cbn.
    + lia.
    + by rewrite Z.sub_diag.
    + by replace (Z.to_nat _) with 0%nat by lia.
Qed.

Lemma concat_encode us : Forall valid_update us -> concat (map encode_log_update us) = updates_bytes us.
Proof.
  unfold updates_bytes. induction 1 as [|u us Hu Hus IH]; [done|]. cbn. by rewrite encode_log_update_bytes, IH.
Qed.

Lemma snapshot_journal_bytes i p s :
  cluster_id i = cid -> node_id i = nid -> membership_fingerprint i = fp -> wf_state p -> installable s p ->
  snapshot_journal i s (ps_log (persist (PersistSnapshot s) p)) =
  journal_bytes (Some (stub s)) (installed_updates s p).
Proof.
  intros H1 H2 H3 Hwf Hin. pose proof (journal_installed p s Hwf Hin) as (_ & Hst & _ & Hab & q & Hq & _).
  destruct (replay_wf _ _ _ Hst Hab Hq) as (_ & _ & _ & _ & Hv).
  unfold snapshot_journal, RaftRecovery.journal_bytes. rewrite H1, H2, H3. f_equal. by apply concat_encode.
Qed.

Lemma replaced_snapshot h snap ino K s d0 d' ns' :
  store h snap ino K d0 (names d0) -> size_of (sm_state_machine s) <= kMaxSnapshotPayloadSize ->
  replaced published_path (snapshot_bytes cid nid fp s) d0 d' ns' -> store h (Some s) ino K d' ns'.
Proof.
  intros (Hs & Hid & (ra & rb & Ha & Hb & Fa & Fb & Hsel) & Hsnap & Hlog & f & Hf & HK) Hsz Hr.
  pose proof Hr as (i0 & Hno & Hnew & Hsame & Hns & Hs').
  split_and!; [done|eapply replaced_flushed; [apply core_identity| |exact Hr|exact Hid]; done| | | |].
  - exists ra, rb. split_and!; try done; (eapply replaced_flushed; [eauto with core| |exact Hr|done]); done.
  - split; [|done]. apply replaced_new in Hr; [done|apply core_published].
  - rewrite Hns, lookup_insert_ne by (done || apply core_log). done.
  - exists f. split; [|done]. rewrite Hsame; [done|]. intros ->. by apply (Hno log_path); [apply core_log|].
Qed.

Lemma replaced_log h snap ino K c d0 d' ns' :
  store h snap ino K d0 (names d0) -> replaced log_path c d0 d' ns' ->
  exists ino', store h snap ino' (eq c) d' ns'.
Proof.
  intros (Hs & Hid & (ra & rb & Ha & Hb & Fa & Fb & Hsel) & Hsnap & _) Hr.
  pose proof Hr as (i0 & Hno & Hnew & Hsame & Hns & Hs'). exists i0.
  split_and!; [done|eapply replaced_flushed; [apply core_identity| |exact Hr|exact Hid]; done| | | |].
  - exists ra, rb. split_and!; try done; (eapply replaced_flushed; [eauto with core| |exact Hr|done]); done.
  - destruct snap as [s|]; cbn in *.
    + split; [|tauto]. eapply replaced_flushed; [apply core_published| |exact Hr|tauto]; done.
    + rewrite Hns, lookup_insert_ne by (done || apply core_published). done.
  - by rewrite Hns, lookup_insert_eq by apply core_log.
  - eexists. split; [exact Hnew|]. intros x Hx. by apply survives_flushed in Hx.
Qed.

Lemma t_write_atomic faulty D `{!Local core D} h p ino snap hook fs Q :
  solid h p ino (disk fs) -> all_dirs D (disk fs) -> installable snap p ->
  (forall d' ns', replaced published_path (snapshot_bytes cid nid fp snap) (disk fs) d' ns' -> D d' ns') ->
  (forall fs', unsynced (disk fs') = [] -> all_dirs D (disk fs') ->
     replaced published_path (snapshot_bytes cid nid fp snap) (disk fs) (disk fs') (names (disk fs')) ->
     Q (Ok tt) fs') ->
  (faulty -> forall e fs', storage_failure e -> Q (Throw e) fs') ->
  FsTriples.triple id faulty (all_dirs D) (write_atomic cid nid fp snap (snapshot_hook hook)) fs Q.
Proof.
  intros Hs HC (Hi & Ht & Hsz) HD' HQ He. assert (storage_failure raft_io_error) by by left.
  pose proof Hs as (Hu & Hb & req & us & (Hwf & _) & Hst). destruct (wf_base p Hwf) as [Hb0 _].
  unfold write_atomic. rewrite (proj2 (Z.eqb_neq _ 0)), (proj2 (Z.eqb_neq _ u64_max)),
    (proj2 (Z.eqb_neq (sm_last_included_term snap) 0)), (proj2 (Z.ltb_ge _ (size_of _))) by lia. cbn [orb].
  apply t_bind. eapply t_calls; [apply (calls_load cid nid fp); try done|done| |by auto].
  { destruct Hst as (_ & _ & _ & Hsnap & _). exact Hsnap. }
  { pose proof (wf_snapshot p Hwf) as H'. destruct (ps_snapshot p); tauto. }
  intros fs1 E1. rewrite <- E1 in *.
  assert (FsTriples.triple id faulty (all_dirs D) (publish cid nid fp snap (snapshot_hook hook)) fs1 Q) as Hpub
    by (apply t_publish; auto).
  destruct (ps_snapshot p) as [c|] eqn:Es; [|done].
  unfold base_of in Hi. rewrite Es in Hi. cbn in Hi.
  by rewrite (proj2 (Z.ltb_ge _ _)), (proj2 (Z.eqb_neq _ _)) by lia.
Qed.

Lemma t_install_snapshot faulty D `{!Local core D} h p ino snap s Q :
  let p' := persist (PersistSnapshot snap) p in
  ready h p ino (impl_ s) -> solid h p ino (disk (fs_ s)) -> 0 <= sm_last_included_term snap ->
  sm_last_included_index snap <= u64_max -> all_dirs D (disk (fs_ s)) ->
  (installable snap p -> forall d' ns',
     replaced published_path (snapshot_bytes cid nid fp snap) (disk (fs_ s)) d' ns' -> D d' ns') ->
  (installable snap p -> forall K d1 d' ns', store h (Some snap) ino K d1 (names d1) ->
     replaced log_path (journal_bytes (Some (stub snap)) (installed_updates snap p)) d1 d' ns' -> D d' ns') ->
  (forall ino' s', installable snap p -> ready h p' ino' (impl_ s') -> solid h p' ino' (disk (fs_ s')) ->
     Q (Ok tt) s') ->
  Q (Throw raft_invalid) s -> (forall e s', storage_failure e -> Q (Throw e) s') ->
  triple fs_ faulty (all_dirs D) (install_snapshot snap false) s Q.
Proof.
  intros p' Hr Hs Ht0 Hi0 HC HD1 HD2 HQ Hrej He. assert (storage_failure raft_io_error) as Hio by by left.
  apply t_bind, (t_open_journal _ _ ino); [apply Hr|done|].
  apply t_bind, t_no_pending; [apply Hr|done|]. apply t_bind, t_get; [done|]. cbn beta zeta.
  rewrite (ready_state _ _ _ _ _ _ _ Hr). destruct (_ || _) eqn:E1; [by apply t_throw|].
  rewrite !orb_false_iff, !Z.eqb_neq, Z.leb_gt, !Z.ltb_ge in E1. destruct E1 as ((((E1 & E2) & E3) & E4) & E5).
  assert (installable snap p) as Hin by (unfold installable, base_of; lia).
  pose proof Hs as (Hu & Hb & req & us & (Hwf & _) & Hst). specialize (HD1 Hin). specialize (HD2 Hin).
  fold (base_of p). cbn [negb].
  assert (snapshot_suffix (base_of p) (ps_log p) snap = ps_log p') as Esuf
    by (unfold p'; by rewrite <- (suffix_is_persist snap p)).
  rewrite Esuf, (ready_cluster _ _ _ _ _ _ _ Hr), (ready_node _ _ _ _ _ _ _ Hr), (ready_members _ _ _ _ _ _ _ Hr).
  unfold p'. rewrite (snapshot_journal_bytes (impl_ s) p snap) by (done || apply Hr).
  apply t_bind, t_sys, t_write_atomic with h p ino; try done; [|by auto]. intros fs1 Hu1 HC1 Hr1.
  pose proof (replaced_snapshot _ _ _ _ _ _ _ _ Hst E5 Hr1) as Hst1.
  apply t_bind, t_sys, t_atomically_create_file; cbn [fs_ set_fs]; [apply _|apply core_log|done| | |by auto].
  { intros d' ns' Hr'. by eapply HD2. }
  intros fs2 Hu2 HC2 Hr2. destruct (replaced_log _ _ _ _ _ _ _ _ Hst1 Hr2) as [ino' Hst2].
  apply t_bind, t_update_impl; [done|]. apply t_bind, t_sys. cbn [fs_ set_fs impl_].
  eapply t_calls; [apply calls_open_name; apply Hst2|done| |by auto]. intros fs3 E3'.
  apply t_bind, t_update_impl; [by cbn; rewrite E3'|]. apply t_update_impl; [by cbn; rewrite E3'|].
  apply (HQ ino'); [done| |].
  - destruct Hr as [R1 R2 R3 R4 R5 R6 R7]. split; cbn; try done. rewrite R7. by destruct p.
  - cbn. rewrite E3'. split_and!; [done| |].
    + destruct Hb as (? & ? & ?). by split_and!.
    + exists (Some (stub snap)), (installed_updates snap p). split; [by apply journal_installed|exact Hst2].
Qed.
End Durability.
