(* ===== verification/RaftLifecycle.v ===== *)
(** * The life of a Raft store

    A store from its creation in an empty directory on, through updates,
    interrupted updates, failures, crashes and recoveries: what the next opening
    gives back. *)

From S2P Require Import Prelude Wire Checksum Protocol RaftTypes RaftNode RaftInvariant RaftStep RaftFormat.
From S2P Require Import RaftJournal Fs FsTriples Directory RaftStorage RaftTotality RaftFiles RaftRecovery.
From S2P Require Import RaftCreation RaftDurability.
Import RaftFormat RaftJournal SnapshotStore RaftStorage.

(** One durable update, as the driver of the node performs it. *)
Definition carry_out (a : Action) : M Storage unit :=
  match a with
  | PersistHardState term voted_for => prepare_hard_state term voted_for ;; sync
  | PersistLog from_index entries => prepare_log (update_of from_index entries) ;; sync
  | PersistSnapshot snapshot => install_snapshot snapshot false
  | _ => ret tt
  end.

(** The arguments are 64-bit, and log entries lie above the snapshot. *)
Definition update_typed (a : Action) (p : RaftPersistentState) : Prop :=
  match a with
  | PersistHardState t v => is_u64 t /\ match v with Some x => is_u64 x | None => True end
  | PersistLog from es => base_of p < from /\ from + size_of es <= u64_max + 1 /\ es <> []
  | PersistSnapshot s => is_u64 (sm_last_included_index s) /\ is_u64 (sm_last_included_term s)
  | _ => True
  end.

(** A snapshot, if the update is one, ends with an entry of the log. *)
Definition keeps_boundary (a : Action) (p : RaftPersistentState) : Prop :=
  match a with PersistSnapshot s => compacts s p | _ => True end.

#[export] Instance keeps_boundary_dec a p : Decision (keeps_boundary a p).
Proof. destruct a; cbn; apply _. Defined.

Lemma update_typed_above from es p : update_typed (PersistLog from es) p -> above (base_of p) (update_of from es).
Proof.
  intros (H1 & H2 & H3). unfold above, size_of in *. cbn. rewrite length_map. split_and!; try done. by destruct es.
Qed.

#[export] Instance sane_core : Local core sane.
Proof. split; [done|]. by intros d d' ns ns' _ H _ _. Qed.

Section Life.
Context (cid : Z) (nid : NodeId) (fp : Z).
Hypothesis cid_u64 : is_u64 cid.
Hypothesis nid_u64 : is_u64 nid.
Hypothesis fp_u64 : is_u64 fp.

Abbreviation initialized := (initialized cid nid fp).
Abbreviation solid := (solid cid nid fp).
Abbreviation ready := (ready cid nid fp).

(** A store that is open, with the durable state [p]. *)
Definition opened (p : RaftPersistentState) (s : Storage) : Prop :=
  exists h ino, ready h p ino (impl_ s) /\ solid h p ino (disk (fs_ s)).

Lemma opened_wf p s : opened p s -> wf_state p.
Proof. intros (h & ino & _ & (_ & _ & req & us & (Hw & _) & _)). done. Qed.

Lemma opened_initialized P p s : opened p s -> P p -> all_dirs (initialized P) (disk (fs_ s)).
Proof. intros (h & ino & _ & Hs) HP. by eapply solid_initialized. Qed.

Lemma t_carry_hard faulty t v p s Q :
  let p' := persist (PersistHardState t v) p in
  opened p s -> update_typed (PersistHardState t v) p ->
  (forall s', opened p' s' -> Q (Ok tt) s') -> Q (Throw raft_invalid) s ->
  (forall e s', storage_failure e -> Q (Throw e) s') ->
  triple fs_ faulty (all_dirs (initialized (either p p'))) (prepare_hard_state t v ;; sync) s Q.
Proof.
  intros p' (h & ino & Hr & Hs) [Ht Hv] HQ Hinv He.
  apply t_bind. eapply t_prepare_hard_state; [done..|exact Hr|exact Hs|exact Ht|exact Hv| |exact Hinv|exact He].
  intros s1 Hp1. eapply t_sync_hard_state; [done..|exact Hp1| |by auto].
  intros s2 Hr2 Hs2. apply HQ. by eexists _, _.
Qed.

Lemma t_carry_log faulty from es p s Q :
  let p' := persist (PersistLog from es) p in
  opened p s -> update_typed (PersistLog from es) p ->
  (forall s', opened p' s' -> Q (Ok tt) s') -> Q (Throw raft_invalid) s ->
  (faulty -> forall e s', storage_failure e -> Q (Throw e) s') ->
  triple fs_ faulty (all_dirs (initialized (either p p'))) (prepare_log (update_of from es) ;; sync) s Q.
Proof.
  intros p' Ho Hty HQ Hinv He. pose proof (opened_wf _ _ Ho) as Hwf. destruct Ho as (h & ino & Hr & Hs).
  pose proof (update_typed_above _ _ _ Hty) as Ha.
  assert (forall x, apply_log_update p (update_of from es) raft_invalid_update = Ok x -> x = p') as Hx
    by (intros x Hx; by eapply apply_is_persist).
  apply t_bind. eapply t_prepare_log; [done..|exact Hr|exact Hs|done|by left| | | |].
  - intros x Hu. right. by apply Hx.
  - intros x s1 Hu Hp1. rewrite (Hx x Hu) in Hp1. eapply t_sync_log; [done..|exact Hp1|by left|by right| |by auto].
    intros s2 Hr2 Hs2. apply HQ. by eexists _, _.
  - intros e Hu. by rewrite (apply_log_update_error _ _ _ _ Hu).
  - intros Hf s1. apply He; [done|by left].
Qed.

Lemma carry_log_exactly from es p s :
  opened p s -> update_typed (PersistLog from es) p -> script (fs_ s) = [] ->
  snd (carry_out (PersistLog from es) s) =
  match apply_log_update p (update_of from es) raft_invalid_update with Ok _ => Ok tt | Throw e => Throw e end.
Proof.
  intros (h & ino & Hr & Hs) Hty Hscript. pose proof (update_typed_above _ _ _ Hty) as Ha.
  set (R := match apply_log_update p _ _ with Ok _ => Ok tt | Throw e => Throw e end).
  assert (triple fs_ False (all_dirs (initialized (fun _ => True))) (carry_out (PersistLog from es)) s
    (fun r _ => r = R)) as HT.
  { apply t_bind. eapply t_prepare_log; [done..|exact Hr|exact Hs|done|done|done| | |done].
    - intros x s1 Hu Hp1. unfold R. rewrite Hu. by eapply t_sync_log; [done..|exact Hp1|done|done| |].
    - intros e Hu. unfold R. by rewrite Hu. }
  destruct HT as (new & _ & _ & _ & _ & HT); [by right|]. done.
Qed.

(** A snapshot the log reaches: each of its two replacements leaves the old or
    the new state. *)
Lemma t_carry_snapshot faulty snap p s Q :
  let p' := persist (PersistSnapshot snap) p in
  opened p s -> update_typed (PersistSnapshot snap) p -> compacts snap p ->
  (forall s', opened p' s' -> Q (Ok tt) s') -> Q (Throw raft_invalid) s ->
  (forall e s', storage_failure e -> Q (Throw e) s') ->
  triple fs_ faulty (all_dirs (initialized (either p p'))) (install_snapshot snap false) s Q.
Proof.
  intros p' Ho [Hi Ht] Hc HQ Hinv He. pose proof (opened_wf _ _ Ho) as Hwf.
  pose proof (opened_initialized (either p p') _ _ Ho ltac:(by left)) as HC. destruct Ho as (h & ino & Hr & Hs).
  eapply (t_install_snapshot cid nid fp cid_u64 nid_u64 fp_u64 faulty (initialized (either p p')) h p); [exact Hr|exact Hs|apply Ht|unfold is_u64, u64_max in *; lia
    |done| | | |exact Hinv|exact He].
  - intros Hin d' ns' Hrep. destruct Hs as (_ & Hbel & req & us & Hj & Hst).
    exists h, (Some snap), ino. eapply store_weaken; [|eapply replaced_snapshot; [done..|exact Hst| |exact Hrep]].
    2:{ apply Hin. }
    intros c <-. exists p'. split; [by right|]. split; [|by destruct Hbel as (? & ? & _)].
    exists req, us, []. rewrite app_nil_r. split; [|by split; [left|]].
    destruct Hj as (_ & Hst' & Hreq & Hab & q & Hq & Hcov). split_and!; [by apply persist_snapshot_wf|done..|].
    exists q. split; [done|]. by apply covers_snapshot.
  - intros Hin K d1 d' ns' Hst Hrep. destruct (replaced_log cid nid fp _ _ _ _ _ _ _ _ Hst Hrep) as [ino' Hst'].
    exists h, (Some snap), ino'. eapply store_weaken; [|exact Hst']. intros c <-. exists p'. split; [by right|].
    split; [|by destruct Hs as (_ & (? & ? & _) & _)].
    exists (Some (stub snap)), (installed_updates snap p), []. rewrite app_nil_r.
    split; [by apply journal_installed|by split; [left|]].
  - intros ino' s' _ Hr' Hs'. apply HQ. by exists h, ino'.
Qed.

(** Every update. *)
Lemma t_carry_out faulty a p s Q :
  opened p s -> update_typed a p -> keeps_boundary a p ->
  (forall s', opened (persist a p) s' -> Q (Ok tt) s') -> Q (Throw raft_invalid) s ->
  (forall e s', storage_failure e -> Q (Throw e) s') ->
  triple fs_ faulty (all_dirs (initialized (either p (persist a p)))) (carry_out a) s Q.
Proof.
  intros Ho Hty Hb HQ Hinv He. destruct a; cbn [carry_out];
    try (apply t_ret; [apply opened_initialized with p; [done|by left]|by apply HQ]).
  - by apply t_carry_hard.
  - apply t_carry_log; auto.
  - by apply t_carry_snapshot.
Qed.

(** A snapshot installed to the end, wherever it ends. *)
Lemma t_install_any faulty snap p s Q :
  opened p s -> update_typed (PersistSnapshot snap) p ->
  (forall s', opened (persist (PersistSnapshot snap) p) s' -> Q (Ok tt) s') -> Q (Throw raft_invalid) s ->
  (forall e s', storage_failure e -> Q (Throw e) s') ->
  triple fs_ faulty (all_dirs sane) (install_snapshot snap false) s Q.
Proof.
  intros (h & ino & Hr & Hs) [Hi Ht] HQ Hinv He.
  assert (all_dirs sane (disk (fs_ s))) as HC.
  { destruct (solid_all _ _ _ _ _ _ _ Hs) as (req & us & _ & _ & Hall & _). eapply all_dirs_weaken; [|exact Hall].
    by intros ns [? _]. }
  eapply (t_install_snapshot cid nid fp cid_u64 nid_u64 fp_u64 faulty sane h p);
    [exact Hr|exact Hs|apply Ht|unfold is_u64, u64_max in *; lia|done| | | |exact Hinv|exact He].
  - intros _ d' ns' (? & _ & _ & _ & _ & ?). done.
  - intros _ K d1 d' ns' _ (? & _ & _ & _ & _ & ?). done.
  - intros ino' s' _ Hr' Hs'. apply HQ. by exists h, ino'.
Qed.

(** ** Runs *)

(** The disk states a computation goes through. *)
Definition visits {S A} (fs_of : S -> Fs) (m : M S A) (s : S) (d : Disk) : Prop :=
  d = disk (fs_of (fst (m s))) \/
  exists new, past (fs_of (fst (m s))) = new ++ past (fs_of s) /\ d ∈ new.

Lemma triple_visits {S A} (fs_of : S -> Fs) (C : Disk -> Prop) (m : M S A) s d Q :
  triple fs_of True C m s Q -> visits fs_of m s d -> C d.
Proof.
  intros H. destruct H as (new & E & HF & Hd & _); [by left|].
  intros [->|(new' & E' & Hin)]; [done|]. rewrite E in E'. apply app_inv_tail in E' as <-.
  rewrite Forall_forall in HF. by apply HF.
Qed.

Lemma triple_outcome {S A} (fs_of : S -> Fs) (C : Disk -> Prop) (m : M S A) s Q :
  triple fs_of True C m s Q -> Q (snd (m s)) (fst (m s)).
Proof. intros H. by destruct H as (new & _ & _ & _ & _ & ?); [left|]. Qed.

Lemma t_carry_any a p s :
  opened p s -> update_typed a p ->
  exists C, triple fs_ True C (carry_out a) s (fun r s' => match r with
    | Ok _ => opened (persist a p) s' | Throw e => (e = raft_invalid /\ s' = s) \/ storage_failure e end).
Proof.
  intros Ho Hty. destruct (decide (keeps_boundary a p)) as [Hb|Hb].
  - eexists. apply t_carry_out; [done..|by left|by right].
  - destruct a; try done. eexists. apply t_install_any with p; [done..|by left|by right].
Qed.

Lemma carry_out_outcome a p s :
  opened p s -> update_typed a p ->
  match carry_out a s with
  | (s', Ok _) => opened (persist a p) s'
  | (s', Throw e) => (e = raft_invalid /\ s' = s) \/ storage_failure e
  end.
Proof.
  intros Ho Hty. destruct (t_carry_any a p s Ho Hty) as [C HT].
  apply triple_outcome in HT. by destruct (carry_out a s) as [s' [[]|e]].
Qed.

Lemma carry_out_visits a p s n d :
  opened p s -> update_typed a p ->
  (length (past (fs_ s)) + n < length (past (fs_ (fst (carry_out a s)))))%nat ->
  visits fs_ (carry_out a) s (nth n (past (fs_ (fst (carry_out a s)))) d).
Proof.
  intros Ho Hty. destruct (t_carry_any a p s Ho Hty) as [C HT]. destruct HT as (new & E & _); [by left|].
  rewrite E, length_app. intros Hn. right. exists new. split; [done|]. rewrite app_nth1 by lia.
  apply list_elem_of_In, nth_In. lia.
Qed.

Hypothesis cid_nonzero : cid <> 0.
Hypothesis nid_nonzero : nid <> 0.

(** A machine that is off, a disk that some computation is working on, or an
    open store. *)
Inductive Phase :=
| Off (d : Disk)
| Busy (d : Disk)
| Live (s : Storage).

Definition disk_of (ph : Phase) : Disk :=
  match ph with Off d | Busy d => d | Live s => disk (fs_ s) end.

(** [Life P ph]: a store can be in the phase [ph], and the updates acknowledged
    and attempted so far leave the durable states in [P]. *)
Inductive Life : (RaftPersistentState -> Prop) -> Phase -> Prop :=
| life_new d :
    at_rest d -> fits d -> sane d (names d) -> (forall n, core n -> names d !! n = None) ->
    Life (eq empty_persistent_state) (Off d)
| life_opening P fs hook pid d :
    Life P (Off (disk fs)) -> visits id (open cid nid hook fp pid) fs d -> Life P (Busy d)
| life_opened P fs hook pid i fs' :
    Life P (Off (disk fs)) -> open cid nid hook fp pid fs = (fs', Ok i) ->
    Life (fun p => P p /\ p = state i) (Live {| impl_ := i; fs_ := fs' |})
| life_updating P s a d :
    Life P (Live s) -> update_typed a (state (impl_ s)) -> keeps_boundary a (state (impl_ s)) ->
    visits fs_ (carry_out a) s d ->
    Life (fun p' => exists p, P p /\ (p' = p \/ p' = persist a p)) (Busy d)
| life_updated P s a s' :
    Life P (Live s) -> update_typed a (state (impl_ s)) -> carry_out a s = (s', Ok tt) ->
    Life (fun p' => exists p, P p /\ p' = persist a p) (Live s')
| life_refused P s a s' :
    Life P (Live s) -> update_typed a (state (impl_ s)) -> carry_out a s = (s', Throw raft_invalid) ->
    Life P (Live s')
| life_crash P ph d :
    Life P ph -> crash (disk_of ph) d -> fits d -> Life P (Off d).

(** What the directories hold in each phase. *)
Definition kept (P : RaftPersistentState -> Prop) (d : Disk) (ns : gmap string nat) : Prop :=
  initialized P d ns \/ (P empty_persistent_state /\ exists k, created cid nid fp k d ns).

Definition explained (P : RaftPersistentState -> Prop) (ph : Phase) : Prop :=
  match ph with
  | Off d => at_rest d /\ fits d /\ kept P d (names d)
  | Busy d => all_dirs (kept P) d
  | Live s => exists p, P p /\ opened p s
  end.

Lemma kept_weaken (P P' : RaftPersistentState -> Prop) d ns : (forall p, P p -> P' p) -> kept P d ns -> kept P' d ns.
Proof. intros HP [H|[H ?]]; [left; by eapply initialized_weaken|right; auto]. Qed.

Lemma kept_crash P d d' : all_dirs (kept P) d -> crash d d' -> kept P d' (names d').
Proof.
  intros Hall Hcr. pose proof (crash_names _ _ Hcr) as Hin. unfold all_dirs in Hall. rewrite Forall_forall in Hall.
  destruct (Hall _ Hin) as [H|[H [k Hk]]]; [left; by eapply initialized_crash|].
  right. split; [done|]. exists k. by eapply created_crash.
Qed.

(** Opening a store that was left in any way. *)
Lemma t_open_kept faulty P hook pid fs :
  explained P (Off (disk fs)) ->
  triple id faulty (all_dirs (kept P)) (open cid nid hook fp pid) fs (fun r fs' =>
    match r with
    | Ok i => exists p, P p /\ opened p {| impl_ := i; fs_ := fs' |}
    | Throw e => storage_failure e /\ (faulty \/ names (disk fs) !! identity_path = None)
    end).
Proof.
  intros (Hrest & Hfits & [Hin|[HP [k Hk]]]).
  - apply t_mono with (all_dirs (initialized P)); [|intros d; apply all_dirs_weaken; by left].
    eapply t_open; try done.
    + intros p h ino i fs' Hp Hs Hr. exists p. split; [done|]. by exists h, ino.
    + intros Hf fs'. split; by left.
  - destruct (created_min _ _ _ _ _ _ Hk) as (k' & Hle & Hk').
    apply t_mono with (all_dirs (newborn cid nid fp)).
    + eapply t_create; try done.
      * apply all_dirs_synced; [apply Hrest|exact Hk'].
      * intros ino i fs' Hs Hr. exists empty_persistent_state. split; [done|]. by eexists _, _.
      * intros e fs' He. split; [done|]. right. apply Hk.
    + intros d. apply all_dirs_weaken. intros ns [[j Hj]|Hj]; [right; eauto|].
      left. eapply initialized_weaken; [|exact Hj]. by intros p <-.
Qed.

Lemma kept_phase P ph : explained P ph -> all_dirs (kept P) (disk_of ph).
Proof.
  destruct ph as [d|d|s]; cbn.
  - intros ([Hu _] & _ & Hk). by apply all_dirs_synced.
  - done.
  - intros (p & Hp & Ho). eapply all_dirs_weaken; [|by eapply (opened_initialized P)]. by left.
Qed.

Lemma opened_state p s : opened p s -> state (impl_ s) = p.
Proof. intros (h & ino & Hr & _). apply Hr. Qed.

Lemma Life_explained P ph : Life P ph -> explained P ph.
Proof.
  induction 1 as [d Hr Hf Hs Hno|P fs hook pid d _ IH Hv|P fs hook pid i fs' _ IH E|P s a d _ IH Hty Hb Hv
    |P s a s' _ IH Hty E|P s a s' _ IH Hty E|P ph d _ IH Hcr Hf]; cbn.
  - split_and!; [done..|]. right. split; [done|]. exists 0%nat. split_and!; auto with core; apply Hno; auto with core.
  - exact (triple_visits id _ _ fs d _ (t_open_kept True P hook pid fs IH) Hv).
  - pose proof (triple_outcome id _ _ fs _ (t_open_kept True P hook pid fs IH)) as Ho.
    rewrite E in Ho. cbn in Ho. destruct Ho as (p & Hp & Ho). exists p. split; [|done]. split; [done|].
    by apply opened_state in Ho.
  - destruct IH as (p & Hp & Ho). rewrite (opened_state _ _ Ho) in *.
    eapply all_dirs_weaken with (D := initialized (either p (persist a p))).
    + intros ns Hns. left. eapply initialized_weaken; [|exact Hns]. intros x [->| ->]; eauto.
    + eapply (triple_visits fs_ _ _ s d (fun _ _ => True)); [|exact Hv]. by apply t_carry_out.
  - destruct IH as (p & Hp & Ho). rewrite (opened_state _ _ Ho) in *. exists (persist a p). split; [eauto|].
    pose proof (carry_out_outcome a p s Ho Hty) as HT. by rewrite E in HT.
  - destruct IH as (p & Hp & Ho). rewrite (opened_state _ _ Ho) in *. exists p. split; [done|].
    pose proof (carry_out_outcome a p s Ho Hty) as HT. rewrite E in HT.
    destruct HT as [[_ ->]|[|]]; done.
  - split_and!; [by eapply crash_at_rest|done|]. eapply kept_crash; [|exact Hcr]. by apply kept_phase.
Qed.
End Life.
