(* ===== verification/RaftStoreTheorems.v ===== *)
(** * What the Raft store promises

    Durability, atomicity and the exact conditions of updates, for every life of
    a store: created, updated, interrupted, crashed and recovered in any way. *)

From S2P Require Import Prelude Wire Checksum Protocol RaftTypes RaftNode RaftInvariant RaftStep RaftFormat.
From S2P Require Import RaftJournal Fs FsTriples Directory RaftStorage RaftFiles RaftRecovery RaftCreation.
From S2P Require Import RaftDurability RaftLifecycle.
Import RaftFormat RaftJournal SnapshotStore RaftStorage.

Section Theorems.
Context (cid : Z) (nid : NodeId) (fp : Z).
Hypothesis cid_u64 : is_u64 cid.
Hypothesis nid_u64 : is_u64 nid.
Hypothesis fp_u64 : is_u64 fp.
Hypothesis cid_nonzero : cid <> 0.
Hypothesis nid_nonzero : nid <> 0.


(** An update of an open store that returns has taken effect exactly as the
    action says; one that is refused has changed nothing; no other exception
    than one of the file system or a hook leaves it. *)
Theorem updates_take_effect_or_nothing P s a :
  Life cid nid fp P (Live s) -> update_typed a (state (impl_ s)) ->
  P (state (impl_ s)) /\
  match carry_out a s with
  | (s', Ok _) => state (impl_ s') = persist a (state (impl_ s)) /\ has_pending_update (impl_ s') = false
  | (s', Throw e) => (e = raft_invalid /\ s' = s) \/ storage_failure e
  end.
Proof.
  intros HL Hty. apply Life_explained in HL as (p & Hp & Ho); [|done..].
  rewrite (opened_state _ _ _ _ _ Ho) in *. split; [done|].
  pose proof (carry_out_outcome cid nid fp cid_u64 nid_u64 fp_u64 a p s Ho Hty) as HT.
  destruct (carry_out a s) as [s' [[]|e]]; [|done]. destruct HT as (h & ino & [_ _ _ _ Hk _ Hst] & _).
  split; [done|]. unfold has_pending_update. by rewrite Hk.
Qed.

(** With a kernel that does what it is asked to, a transaction is accepted
    exactly when it continues or overwrites the log without a gap, carries
    consecutive entries of non-decreasing terms not beyond the current one, and
    fits a record. *)
Theorem log_transactions_accepted_exactly P s from es :
  let p := state (impl_ s) in
  Life cid nid fp P (Live s) -> script (fs_ s) = [] -> update_typed (PersistLog from es) p ->
  snd (carry_out (PersistLog from es) s) = Ok tt <->
  from <= last_of p + 1 <= u64_max /\ size_of es <= kMaxRaftLogEntriesPerRecord /\
  sound_entries (ps_current_term p) from (term_before p from) (map stored es) /\
  32 + size_of (body_bytes (map stored es)) <= kMaxRaftLogRecordSize.
Proof.
  intros p HL Hscript Hty. apply Life_explained in HL as (p' & Hp & Ho); [|done..].
  assert (p' = p) as -> by (symmetry; exact (opened_state _ _ _ _ _ Ho)).
  pose proof (opened_wf _ _ _ _ _ Ho) as Hwf. pose proof (update_typed_above _ _ _ Hty) as Ha.
  pose proof (apply_log_update_iff p (update_of from es) raft_invalid_update (extend p (update_of from es)) Hwf Ha) as Hiff.
  cbn [update_of lu_from_index lu_entries] in Hiff. unfold size_of in Hiff at 1. rewrite length_map in Hiff.
  fold (size_of es) in Hiff.
  pose proof (carry_log_exactly cid nid fp from es p s Ho Hty Hscript) as Hc.
  rewrite Hc. split.
  - destruct (apply_log_update p _ _) as [x|e] eqn:E; [intros _|done].
    apply apply_log_update_iff in E as (H1 & H2 & H3 & H4 & _); [|done..]. cbn in H2. unfold size_of in H2 at 1.
    by rewrite length_map in H2.
  - intros (H1 & H2 & H3 & H4). by rewrite (proj2 Hiff).
Qed.
End Theorems.
