(* ===== verification/RaftStoreWitnesses.v ===== *)
(** * Concrete lives of a Raft store

    A store created in an empty directory, updated, interrupted and recovered;
    and an installation of a snapshot whose interruption it does not survive. *)

From S2P Require Import Prelude Wire Checksum Protocol RaftTypes RaftNode RaftInvariant RaftStep RaftFormat.
From S2P Require Import RaftJournal Fs FsTriples Directory RaftStorage RaftFiles RaftRecovery RaftCreation.
From S2P Require Import RaftDurability RaftLifecycle RaftStoreTheorems.
Import RaftFormat RaftJournal SnapshotStore RaftStorage.

Definition quiet (d : Disk) : Fs := {| disk := d; past := []; script := [] |}.

Definition empty_disk : Disk := {| inodes := ∅; names := ∅; unsynced := [] |}.


Lemma survives_stable f : survives f (stable f).
Proof.
  split; [|by right]. destruct f as [c st]. cbn. revert c.
  induction st as [|x st IH]; intros [|y c]; cbn; try apply prefix_nil.
  destruct (Byte.eqb x y); [by apply prefix_cons|apply prefix_nil].
Qed.




Definition blank_impl : Impl :=
  Build_Impl 0 0 0 None None None EmptyString EmptyString pending_none 0
    empty_persistent_state empty_persistent_state false 0.

Definition run_open (pid : N) (d : Disk) : Storage :=
  let (fs, r) := open 1 1 false 9 pid (quiet d) in
  {| impl_ := match r with Ok i => i | Throw _ => blank_impl end; fs_ := fs |}.

Definition after (a : Action) (s : Storage) : Storage := fst (carry_out a s).

Definition opens (pid : N) (d : Disk) : bool :=
  match snd (open 1 1 false 9 pid (quiet d)) with Ok _ => true | Throw _ => false end.

Definition acknowledged (a : Action) (s : Storage) : bool :=
  match snd (carry_out a s) with Ok _ => true | Throw _ => false end.

Abbreviation Life := (Life 1 1 9).

Lemma run_open_Life P pid d :
  Life P (Off d) -> opens pid d = true -> Life (fun p => P p /\ p = state (impl_ (run_open pid d))) (Live (run_open pid d)).
Proof.
  intros HL Ho. unfold opens, run_open in *. destruct (open 1 1 false 9 pid (quiet d)) as [fs [i|e]] eqn:E; [|done].
  by apply life_opened with (quiet d) false pid.
Qed.

Lemma after_Life P s a :
  Life P (Live s) -> update_typed a (state (impl_ s)) -> acknowledged a s = true ->
  Life (fun p' => exists p, P p /\ p' = persist a p) (Live (after a s)).
Proof.
  intros HL Hty Ha. unfold acknowledged, after in *. apply life_updated with s; [done|done|].
  by destruct (carry_out a s) as [s' [[]|e]].
Qed.

Lemma empty_disk_Life : Life (eq empty_persistent_state) (Off empty_disk).
Proof. apply life_new; try done; split; by intros ? ? ? ?. Qed.

Definition first_entry : LogEntry := mkLogEntry 1 1 no_op [].
Definition second_entry : LogEntry := mkLogEntry 2 1 command [Byte.x41].

Definition store0 : Storage := run_open 7 empty_disk.
Definition store1 : Storage := after (PersistHardState 1 (Some 1)) store0.
Definition store2 : Storage := after (PersistLog 1 [first_entry]) store1.

(** The states the updates of [store2] account for. *)
Definition states2 (p2 : RaftPersistentState) : Prop :=
  exists p1, (exists p0, (empty_persistent_state = p0 /\ p0 = state (impl_ store0)) /\
    p1 = persist (PersistHardState 1 (Some 1)) p0) /\ p2 = persist (PersistLog 1 [first_entry]) p1.

Lemma store2_Life : Life states2 (Live store2).
Proof.
  apply (after_Life (fun p1 => exists p0, (empty_persistent_state = p0 /\ p0 = state (impl_ store0)) /\
    p1 = persist (PersistHardState 1 (Some 1)) p0)).
  - apply (after_Life (fun p => empty_persistent_state = p /\ p = state (impl_ store0))).
    + apply run_open_Life; [apply empty_disk_Life|by vm_compute].
    + by vm_compute.
    + by vm_compute.
  - vm_compute. done.
  - by vm_compute.
Qed.


Lemma store_visits P s a n :
  Life P (Live s) -> update_typed a (state (impl_ s)) ->
  Nat.ltb (length (past (fs_ s)) + n) (length (past (fs_ (after a s)))) = true ->
  visits fs_ (carry_out a) s (nth n (past (fs_ (after a s))) empty_disk).
Proof.
  intros HL Hty Hn. apply Nat.ltb_lt in Hn. apply Life_explained in HL as (p & _ & Ho); [|done..].
  rewrite (opened_state _ _ _ _ _ Ho) in Hty. by apply (carry_out_visits 1 1 9) with p.
Qed.

(** A second entry, written but not flushed when the power fails. *)
Definition append_second : Action := PersistLog 2 [second_entry].




Lemma updates_take_effect_or_nothing_witness :
  states2 (state (impl_ store2)) /\
  match carry_out append_second store2 with
  | (s', Ok _) => state (impl_ s') = persist append_second (state (impl_ store2)) /\ has_pending_update (impl_ s') = false
  | (s', Throw e) => (e = raft_invalid /\ s' = store2) \/ storage_failure e
  end.
Proof.
  apply (updates_take_effect_or_nothing 1 1 9 ltac:(done) ltac:(done) ltac:(done) ltac:(done) ltac:(done)
    states2 store2 append_second store2_Life). by vm_compute.
Defined.

Lemma log_transactions_accepted_exactly_witness :
  snd (carry_out append_second store2) = Ok tt <->
  2 <= last_of (state (impl_ store2)) + 1 <= u64_max /\ size_of [second_entry] <= kMaxRaftLogEntriesPerRecord /\
  sound_entries (ps_current_term (state (impl_ store2))) 2 (term_before (state (impl_ store2)) 2)
    (map stored [second_entry]) /\
  32 + size_of (body_bytes (map stored [second_entry])) <= kMaxRaftLogRecordSize.
Proof.
  apply (log_transactions_accepted_exactly 1 1 9 ltac:(done) ltac:(done) ltac:(done) ltac:(done) ltac:(done)
    states2 store2 2 [second_entry] store2_Life); by vm_compute.
Defined.

(** ** An installation that does not survive its interruption *)

Definition at_rest_b (d : Disk) : bool :=
  bool_decide (unsynced d = []) &&
  forallb (fun kf => bool_decide (cached (snd kf) = stable (snd kf))) (map_to_list (inodes d)).

(** A disk with nothing to flush comes back as it is. *)
Lemma at_rest_crash d : at_rest_b d = true -> crash d d.
Proof.
  intros [Hu%bool_decide_eq_true Hi]%andb_true_iff. split_and!; [by left|done| |by eauto].
  intros ino f Hf. rewrite forallb_forall in Hi. pose proof Hf as Hin.
  apply elem_of_map_to_list, list_elem_of_In, Hi, bool_decide_eq_true in Hin. split; [done|].
  exists f. split; [done|apply survives_stable].
Qed.

(** A snapshot a follower receives from its leader, beyond its own log. *)
Definition leader_snapshot : StateMachineSnapshot := mkStateMachineSnapshot 5 1 [Byte.x42].

(** The disk after [SnapshotStore::write_atomic], before the journal is
    replaced. *)
Definition halfway_disk : Disk :=
  nth 4 (past (fs_ (after (PersistSnapshot leader_snapshot) store2))) empty_disk.

(** C32. A store with a log is given the snapshot of its leader, which ends beyond
    that log.  When the power fails after the snapshot is published and before
    the journal is replaced, the store cannot be opened any more: every attempt
    reports corruption and leaves the disk as it is. *)
Theorem interrupted_install_cannot_be_opened :
  Life states2 (Live store2) /\ acknowledged (PersistSnapshot leader_snapshot) store2 = true /\
  visits fs_ (carry_out (PersistSnapshot leader_snapshot)) store2 halfway_disk /\
  crash halfway_disk halfway_disk /\
  forall hook pid, snd (open 1 1 hook 9 pid (quiet halfway_disk)) = Throw corruption /\
    disk (fst (open 1 1 hook 9 pid (quiet halfway_disk))) = halfway_disk.
Proof.
  split; [apply store2_Life|]. split; [by vm_compute|]. split.
  - apply (store_visits states2); [apply store2_Life|by vm_compute|by vm_compute].
  - split; [apply at_rest_crash; by vm_compute|]. intros hook pid. split; by vm_compute.
Qed.
