(* ===== verification/RaftHandlers.v ===== *)
(** * The message handlers of a Raft node

    Every handler of [src/raft/raft_node.cpp], run from a node in [Inv], returns
    normally, keeps [Inv], is a [Step] and sends only messages that are true of
    the state it leaves. *)

From S2P Require Import Prelude RaftTypes RaftNode RaftInvariant RaftStep.

(** The fields of a message are 64-bit values, and no entry has term 0 (the wire
    decoder refuses such entries). *)
Definition message_typed (m : Message) : Prop :=
  match m with
  | MRequestVote r => is_u64 (rv_term r)
  | MRequestVoteResponse r => is_u64 (rvr_term r)
  | MAppendEntries r => is_u64 (ae_term r) /\ is_u64 (ae_previous_log_index r) /\
      Forall (fun e => 1 <= le_term e) (ae_entries r)
  | MAppendEntriesResponse r => is_u64 (aer_term r) /\ is_u64 (aer_match_index r) /\
      is_u64 (aer_reject_hint r)
  | MInstallSnapshot r => is_u64 (ins_term r) /\ is_u64 (ins_last_included_index r) /\
      is_u64 (ins_last_included_term r)
  | MInstallSnapshotResponse r => is_u64 (insr_term r) /\ is_u64 (insr_next_offset r)
  end.

Section Handlers.
Context {RNG : UniformRandom}.

(** A handler runs normally and speaks the truth. *)
Definition handled (m : M Impl unit) (s : Impl) (s' : Impl) : Prop :=
  exists new, runs m s tt new s' /\ Msgs (Speaks s') new.

Lemma Speaks_actions s acts to m : Speaks s to m -> Speaks (set_actions acts s) to m.
Proof. by apply Speaks_same. Qed.

Lemma handled_push s a :
  Inv s -> inert a = true -> announce (n_role s) a = n_role s ->
  (forall to m, a = SendMessage to m -> Speaks s to m) ->
  handled (push_action a) s (set_actions (n_actions s ++ [a]) s).
Proof.
  intros H Ha Hr Hm. exists [a]. split.
  - split_and!; [done|by destruct H|]. apply Step_inert; node_simpl; try done; [|congruence].
    constructor; [by rewrite Ha|constructor].
  - constructor; [|constructor]. destruct a; try done.
    exact (Speaks_actions _ _ _ _ (Hm _ _ eq_refl)).
Qed.

Lemma handled_ret s : Inv s -> handled (ret tt) s s.
Proof. intros H. exists []. split; [by apply runs_ret|constructor]. Qed.

(** Nothing is said while the first part runs. *)
Lemma handled_bind m k s n1 s1 s2 :
  runs m s tt n1 s1 -> Silent n1 -> handled (k tt) s1 s2 -> handled (bind m k) s s2.
Proof.
  intros R1 Hs (n2 & R2 & HM). exists (n1 ++ n2). split; [by eapply runs_bind|].
  apply Msgs_app; [by apply Silent_Msgs|done].
Qed.

(** Reading the state. *)
Lemma handled_get (f : Impl -> M Impl unit) s s' : handled (f s) s s' -> handled (bind get f) s s'.
Proof. intros (new & (E & I & S1) & HM). exists new. split; [|done]. by split_and!. Qed.

(** A computation known to run like another from this state. *)
Lemma handled_same (m m' : M Impl unit) s s' : m s = m' s -> handled m' s s' -> handled m s s'.
Proof.
  intros Hm (new & (E & I & S1) & HM). exists new. split; [|done]. split_and!; [|done..].
  by rewrite Hm.
Qed.

Lemma reset_election_deadline_runs s :
  Inv s -> exists d g, runs reset_election_deadline s tt []
    (set_election_deadline d (set_random g s)).
Proof.
  intros H. destruct (reset_election_deadline_eq s) as (d & g & E). exists d, g.
  split_and!; [done|by destruct H|]. apply Step_inert; node_simpl; try done; [by rewrite app_nil_r|congruence].
Qed.

(** ** Votes *)

(** Granting is possible for a follower that has not voted for another node. *)
Lemma grants_vote_facts s from r :
  Inv s -> from <> self_id s -> grants_vote s from r = true ->
  (n_voted_for s = None \/ n_voted_for s = Some from) /\ 1 <= n_current_term s /\ n_role s = follower.
Proof.
  intros H Hne Eg. pose proof (inv_term _ H). pose proof (inv_role _ H) as Hr. unfold RoleOk in Hr.
  unfold grants_vote in Eg.
  rewrite !andb_true_iff, orb_true_iff, !bool_decide_eq_true, negb_true_iff, Z.eqb_neq, !Z.eqb_eq in Eg.
  split_and!; [tauto|lia|]. destruct Eg as ((_ & Hcan) & _).
  destruct (n_role s); [done|..]; destruct Hcan as [E|E]; rewrite E in Hr; naive_solver.
Qed.

(** Recording a granted vote. *)
Lemma record_vote_runs from s :
  Inv s -> from ∈ cfg_voters (n_config s) ->
  n_voted_for s = None \/ n_voted_for s = Some from -> 1 <= n_current_term s -> n_role s = follower ->
  exists pre s1, runs (when (negb (bool_decide (n_voted_for s = Some from)))
      (modify (set_voted_for (Some from)) ;;
       push_action (PersistHardState (n_current_term s) (Some from)))) s tt pre s1 /\ Silent pre /\
    n_voted_for s1 = Some from /\ n_current_term s1 = n_current_term s /\ n_log s1 = n_log s /\
    n_role s1 = n_role s /\ n_votes_received s1 = n_votes_received s.
Proof.
  intros H Hin Hcan Hpos Hrole. case_bool_decide as Ev; cbn [negb when].
  { exists [], s. split_and!; try done; [by apply runs_ret|constructor]. }
  exists [PersistHardState (n_current_term s) (Some from)],
    (set_actions (n_actions s ++ [PersistHardState (n_current_term s) (Some from)])
      (set_voted_for (Some from) s)).
  split_and!; try done; [split_and!; [done|..]|by repeat constructor].
  - pose proof (inv_role _ H) as Hr. destruct H. constructor; node_simpl; try done.
    + by intros w [= <-].
    + unfold RoleOk in *; node_simpl. by rewrite Hrole in *.
  - step_fields; [destruct Hcan; congruence|intros e He; exfalso; set_solver| |].
    + intros k. apply (hard_once _ _ (n_current_term s) (Some from)); cbn; [by repeat constructor|lia|].
      intros _ x Hx. destruct Hcan; congruence.
    + split; [|done]. pose proof (inv_term _ H). split; [unfold is_u64, u64_max in *; lia|]. by intros x [= <-].
Qed.

(** The node after a vote request: its vote, its timer and its one answer. *)
Lemma handle_request_vote_runs from r s :
  Inv s -> from ∈ cfg_voters (n_config s) -> from <> self_id s ->
  exists pre s', runs (handle_request_vote from r) s tt
      (pre ++ [SendMessage from (MRequestVoteResponse
        (mkRequestVoteResponse (n_current_term s) (grants_vote s from r)))]) s' /\ Silent pre /\
    n_voted_for s' = (if grants_vote s from r then Some from else n_voted_for s) /\
    n_current_term s' = n_current_term s /\ n_log s' = n_log s /\ n_role s' = n_role s /\
    n_votes_received s' = n_votes_received s.
Proof.
  intros H Hin Hne. set (a := SendMessage from _).
  assert (exists pre s1, runs (when (grants_vote s from r && negb (bool_decide (n_voted_for s = Some from)))
      (modify (set_voted_for (Some from)) ;; push_action (PersistHardState (n_current_term s) (Some from))) ;;
      when (grants_vote s from r) reset_election_deadline) s tt pre s1 /\ Silent pre /\
    n_voted_for s1 = (if grants_vote s from r then Some from else n_voted_for s) /\
    n_current_term s1 = n_current_term s /\ n_log s1 = n_log s /\ n_role s1 = n_role s /\
    n_votes_received s1 = n_votes_received s) as (pre & s1 & (E1 & I1 & S1) & Hs & Hv & Ht & Hl & Hr & Hvr).
  { destruct (grants_vote s from r) eqn:Eg; cbn [andb when].
    - destruct (grants_vote_facts s from r H Hne Eg) as (Hcan & Hpos & Hrole).
      destruct (record_vote_runs from s H Hin Hcan Hpos Hrole) as
        (pre & s1 & R1 & Hs & Hv & Ht & Hl & Hr & Hvr).
      destruct (reset_election_deadline_runs s1 (proj1 (proj2 R1))) as (d & g & R2).
      exists (pre ++ []), (set_election_deadline d (set_random g s1)).
      split_and!; try done; [by eapply runs_bind|by apply Msgs_app; [|constructor]].
    - exists [], s. split_and!; try done; [by apply runs_ret|constructor]. }
  exists pre, (set_actions (n_actions s1 ++ [a]) s1). split_and!; try done.
  assert (runs (push_action a) s1 tt [a] (set_actions (n_actions s1 ++ [a]) s1)) as R2.
  { split_and!; [done|by destruct I1|]. apply Step_inert; node_simpl; try done; [by repeat constructor|congruence]. }
  split_and!; [|apply R2|eapply Step_trans; [exact S1|apply R2]].
  revert E1. unfold handle_request_vote. unfold bind at 1 3, get. fold a.
  unfold bind. destruct (when _ _ s) as [x [[]|]]; [|done]. intros ->. done.
Qed.

Lemma handle_request_vote_handled from r s :
  Inv s -> from ∈ cfg_voters (n_config s) -> from <> self_id s ->
  exists s', handled (handle_request_vote from r) s s' /\ n_current_term s' = n_current_term s.
Proof.
  intros H Hin Hne.
  destruct (handle_request_vote_runs from r s H Hin Hne) as (pre & s' & R & Hs & Hv & Ht & _).
  exists s'. split; [|done]. eexists. split; [exact R|]. apply Msgs_app; [by apply Silent_Msgs|].
  constructor; [|constructor]. split; [done|]. cbn. intros Eg. by rewrite Eg in Hv.
Qed.

(** A vote either only counts or makes a quorum and the node a leader. *)
Lemma handle_request_vote_response_handled from r s :
  Inv s -> from ∈ cfg_voters (n_config s) ->
  last_log_index s + 1 < u64_max -> n_next_rpc_id s + 7 <= u64_max ->
  exists s', handled (handle_request_vote_response from r) s s' /\
    n_current_term s' = n_current_term s /\
    (n_role s' = leader -> n_role s <> leader ->
       n_role s = candidate /\ rvr_term r = n_current_term s /\ rvr_vote_granted r = true /\
       quorum s <= Z.of_nat (size ({[from]} ∪ n_votes_received s))) /\
    (n_role s' = candidate -> n_votes_received s' = n_votes_received s \/
       rvr_term r = n_current_term s /\ rvr_vote_granted r = true /\
       n_votes_received s' = {[from]} ∪ n_votes_received s).
Proof.
  intros H Hin Hroom Hrpc.
  destruct (negb (bool_decide (n_role s = candidate)) || negb (rvr_term r =? n_current_term s)
    || negb (rvr_vote_granted r)) eqn:Eg.
  { exists s. split_and!; try done; [|naive_solver..].
    apply handled_get. rewrite Eg. by apply handled_ret. }
  assert (n_role s = candidate /\ rvr_term r = n_current_term s /\ rvr_vote_granted r = true)
    as (Hr & Ht & Hg).
  { rewrite !orb_false_iff, !negb_false_iff, bool_decide_eq_true, Z.eqb_eq in Eg. tauto. }
  set (s1 := set_votes_received ({[from]} ∪ n_votes_received s) s).
  assert (runs (modify (fun s => set_votes_received ({[from]} ∪ n_votes_received s) s)) s tt [] s1)
    as R1.
  { split_and!; [done| |apply Step_inert; try done; [by rewrite app_nil_r|congruence]].
    destruct H. constructor; try done. intros v. unfold s1; node_simpl. set_solver. }
  assert (handle_request_vote_response from r s =
    when (quorum s <=? Z.of_nat (size ({[from]} ∪ n_votes_received s))) become_leader s1) as E.
  { unfold handle_request_vote_response. unfold bind at 1, get. by rewrite Eg. }
  destruct (Z.leb_spec (quorum s) (Z.of_nat (size ({[from]} ∪ n_votes_received s)))) as [Hq|Hq].
  - destruct (become_leader_runs s1 (proj1 (proj2 R1)) Hr Hroom Hrpc)
      as (new & s2 & (E2 & I2 & S2) & HM & Hr2 & Ht2).
    exists s2. split_and!; try done; [|congruence].
    exists new. split; [|done]. split_and!; [by rewrite E|done|].
    by eapply (Step_trans _ []); [apply R1|].
  - exists s1. split_and!; try done; [|by right].
    exists []. split; [|constructor]. split_and!; [by rewrite E|apply R1..].
Qed.

(** No candidacy and no leadership begins: the node ends up a follower, or keeps
    its role and the votes it has. *)
Definition settles (s s' : Impl) : Prop :=
  n_role s' = follower \/ n_role s' = n_role s /\ n_votes_received s' = n_votes_received s.

Lemma settles_refl s : settles s s.
Proof. by right. Qed.

Lemma settles_trans s1 s2 s3 : settles s1 s2 -> settles s2 s3 -> settles s1 s3.
Proof. unfold settles. intros [H1|[H1 H2]] [H3|[H3 H4]]; rewrite ?H3, ?H4; auto. Qed.

(** ** AppendEntries *)

Lemma follow_leader_runs from s :
  Inv s -> from ∈ cfg_voters (n_config s) ->
  exists new s', runs (follow_leader from) s tt new s' /\ Silent new /\
    n_role s' = follower /\ n_leader_id s' = Some from /\
    n_current_term s' = n_current_term s /\ n_config s' = n_config s /\ n_log s' = n_log s /\
    n_commit_index s' = n_commit_index s /\ n_last_applied s' = n_last_applied s /\
    n_durable_snapshot s' = n_durable_snapshot s /\
    n_incoming_snapshot s' = n_incoming_snapshot s.
Proof.
  intros H Hin. unfold follow_leader.
  destruct (decide (n_role s = follower)) as [Hr|Hr].
  - destruct (reset_election_deadline_eq (set_leader_id (Some from) s)) as (d & g & E).
    exists [], (set_election_deadline d (set_random g (set_leader_id (Some from) s))).
    split_and!; try done; [|constructor]. split_and!.
    + unfold bind at 1, get. rewrite bool_decide_eq_true_2 by done. cbn [negb].
      unfold bind, modify. by rewrite E.
    + pose proof (inv_role _ H) as Hrole. destruct H. constructor; node_simpl; try done.
      * by intros v [= <-].
      * unfold RoleOk in *; node_simpl. by rewrite Hr in *.
    + apply Step_inert; node_simpl; try done; [by rewrite app_nil_r|congruence].
  - destruct (become_follower_runs (n_current_term s) (Some from) s H) as
      (new & s' & (E & I & S1) & Hs & H1 & H2 & H3 & H4 & H5 & H6 & H7 & _ & H8 & H9 & _).
    { apply (inv_term _ H). }
    { by intros v [= <-]. }
    exists new, s'. split_and!; try done; [|lia]. split_and!; [|done..].
    unfold bind, get. rewrite bool_decide_eq_false_2 by done. done.
Qed.

Lemma first_conflict_ok T fuel t i s :
  LogInv T (n_log s) -> base_index s <= i <= last_log_index s ->
  exists j, first_conflict fuel t i s = (s, Ok j).
Proof.
  intros Hl. pose proof (LogInv_base _ _ Hl) as Hb. pose proof (li_max _ _ Hl) as Hmax.
  rewrite <- base_index_of in Hb. rewrite <- last_log_index_of in Hmax.
  revert i. induction fuel as [|fuel IH]; intros i Hi; cbn [first_conflict]; [by eexists|].
  unfold bind at 1, get. destruct (Z.ltb_spec (u64 (base_index s + 1)) i) as [Hlt|]; [|by eexists].
  rewrite u64_small in Hlt by (unfold is_u64, u64_max in *; lia).
  rewrite u64_small by (unfold is_u64, u64_max in *; lia).
  destruct (entry_at_ok T s (i - 1) Hl ltac:(lia)) as (e & Ee & _).
  unfold bind. rewrite Ee. destruct (_ =? _); [apply IH; lia|by eexists].
Qed.

(** *** Incoming entries *)

Lemma chained_cons T next mint e rest :
  le_index e = next -> mint <= le_term e <= T /\ 1 <= le_term e -> chained T (next + 1) (le_term e) rest ->
  chained T next mint (e :: rest).
Proof.
  intros Hi Ht (H1 & H2 & H3 & H4). split_and!.
  - intros [|k] x Hk; [injection Hk as <-; lia|]. rewrite (H1 k x Hk). lia.
  - intros [|k] x Hk; [by injection Hk as <-|]. specialize (H2 k x Hk). lia.
  - intros [|j] [|k] x y Hjk Hj Hk; [by simplify_eq/=| |lia|apply (H3 j k); [lia|done..]].
    injection Hj as <-. specialize (H2 k y Hk). lia.
  - cbn [length]. lia.
Qed.

Lemma malformed_entry_None rt next mint entries :
  1 <= next <= u64_max + 1 -> Forall (fun e => 1 <= le_term e) entries ->
  malformed_entry rt (u64 next) mint entries = None -> chained rt next mint entries.
Proof.
  revert next mint. induction entries as [|e rest IH]; intros next mint Hn Hpos Hm; cbn in Hm.
  { split_and!; try done. cbn [length]. lia. }
  destruct (_ || _) eqn:Eg; [done|]. apply Forall_cons in Hpos as [Hp Hpos].
  rewrite !orb_false_iff, negb_false_iff, Z.eqb_eq, !Z.ltb_ge, Z.eqb_neq in Eg.
  destruct Eg as (((Hi & Hrt) & Hmin) & Hz).
  assert (next <= u64_max) as Hle.
  { destruct (Z.eq_dec next (u64_max + 1)) as [->|]; [|lia].
    change (u64 (u64_max + 1)) with 0 in Hi. lia. }
  rewrite (u64_small next) in * by (unfold is_u64, u64_max in *; lia).
  apply chained_cons; [done|lia|]. by apply IH; [lia|..].
Qed.

Lemma chained_suffix T next mint pre suf :
  chained T next mint (pre ++ suf) ->
  chained T (next + size_of pre) (match last pre with Some e => le_term e | None => mint end) suf.
Proof.
  unfold size_of. intros (H1 & H2 & H3 & H4).
  assert (forall k x, suf !! k = Some x -> (pre ++ suf) !! (length pre + k)%nat = Some x) as Hk.
  { intros k x Hx. rewrite lookup_app_r by lia. by replace (length pre + k - length pre)%nat with k by lia. }
  split_and!.
  - intros k x Hx. rewrite (H1 _ _ (Hk _ _ Hx)). lia.
  - intros k x Hx. destruct (H2 _ _ (Hk _ _ Hx)) as [Hx1 Hx2]. split; [split|]; [|lia..].
    destruct (last pre) as [y|] eqn:Ey; [|lia].
    rewrite last_lookup in Ey. pose proof (lookup_lt_Some _ _ _ Ey).
    apply (H3 (pred (length pre)) (length pre + k)%nat); [lia|by apply lookup_app_l_Some|by apply Hk].
  - intros j k x y Hjk Hj Hx. by apply (H3 (length pre + j)%nat (length pre + k)%nat);
      [lia|apply Hk..].
  - rewrite length_app in H4. lia.
Qed.

Lemma scan_entries_ok T s entries next :
  LogInv T (n_log s) -> n_commit_index s <= last_log_index s ->
  base_index s < next <= last_log_index s + 1 ->
  (forall k e, entries !! k = Some e -> le_index e = next + Z.of_nat k) ->
  exists o, scan_entries entries s = (s, Ok o) /\
    match o with
    | ScanReject _ => True
    | ScanReplace suffix => exists pre, entries = pre ++ suffix /\
        (forall k e, pre !! k = Some e -> log_at (n_log s) (next + Z.of_nat k) = Some e) /\
        (suffix <> [] -> n_commit_index s < next + size_of pre <= last_log_index s + 1)
    end.
Proof.
  intros Hl Hc. unfold size_of. revert next. induction entries as [|e rest IH]; intros next Hn Hidx.
  { exists (ScanReplace []). split; [done|]. by exists []. }
  cbn [scan_entries]. unfold bind at 1, get. rewrite (Hidx 0%nat e eq_refl), Z.add_0_r.
  destruct (Z.ltb_spec (last_log_index s) next) as [Hlt|Hge].
  { exists (ScanReplace (e :: rest)). split; [done|]. exists []. split_and!; [done..|cbn; lia]. }
  destruct (entry_at_ok T s next Hl ltac:(lia)) as (x & Ex & Hx & Hxi).
  unfold bind. rewrite Ex. destruct (Z.eqb_spec (le_term x) (le_term e)) as [Et|Et]; cbn [negb].
  2:{ destruct (Z.leb_spec next (n_commit_index s)); [by eexists|].
      exists (ScanReplace (e :: rest)). split; [done|]. exists []. split_and!; [done..|cbn; lia]. }
  case_bool_decide as Ee; cbn [negb]; [subst x|by eexists].
  destruct (decide (rest = [])) as [->|Hrest].
  { exists (ScanReplace []). split; [done|]. exists [e]. split_and!; [done| |done].
    intros k y Hk. apply list_lookup_singleton_Some in Hk as [-> <-]. rewrite Z.add_0_r, <- Hxi.
    by apply (log_at_lookup _ _ _ (li_index _ _ Hl) Hx). }
  destruct (IH (next + 1)) as (o & Eo & Ho); [lia| |].
  { intros k y Hk. rewrite (Hidx (S k) y Hk). lia. }
  exists o. split; [done|]. destruct o as [|suffix]; [done|].
  destruct Ho as (pre & -> & Hpre & Hs). exists (e :: pre). split_and!; [done| |].
  - intros [|k] y Hk.
    + injection Hk as <-. rewrite Z.add_0_r, <- Hxi. by apply (log_at_lookup _ _ _ (li_index _ _ Hl) Hx).
    + rewrite <- (Hpre k y Hk). f_equal. lia.
  - intros Hne. specialize (Hs Hne). cbn [length]. lia.
Qed.

(** The log after the entries [es] have been taken over at [next]. *)
Record Spliced (s s' : Impl) (next : LogIndex) (es : list LogEntry) : Prop := {
  sp_base : base_index s' = base_index s;
  sp_below : forall i, i < next -> log_at (n_log s') i = log_at (n_log s) i;
  sp_entries : forall k e, es !! k = Some e -> log_at (n_log s') (next + Z.of_nat k) = Some e;
  sp_last : next + size_of es - 1 <= last_log_index s';
}.

Lemma log_at_last T l i e : LogInv T l -> log_at l i = Some e -> i <= last_of l.
Proof.
  intros H Hi. rewrite (LogInv_last _ _ H). unfold log_at in Hi.
  destruct (Z.ltb_spec i (base_of l)); [done|]. apply lookup_lt_Some in Hi. lia.
Qed.

(** Cutting at [i] and appending [suffix]. *)
Lemma splice_log T l pre suffix next mint i :
  LogInv T l -> base_of l < next -> i = next + size_of pre -> i <= last_of l + 1 ->
  chained T next mint (pre ++ suffix) -> term_at l (next - 1) = Some mint ->
  (forall k e, pre !! k = Some e -> log_at l (next + Z.of_nat k) = Some e) ->
  LogInv T (take (Z.to_nat (i - base_of l)) l ++ suffix).
Proof.
  intros H Hn Hi Hlast Hch Hmint Hpre. unfold size_of in Hi.
  pose proof (LogInv_last _ _ H) as Hlen.
  set (c := Z.to_nat (i - base_of l)). assert (0 < c <= length l)%nat as Hc by lia.
  apply LogInv_extend; [apply LogInv_prefix; [done|lia]|].
  assert (last_of (take c l) = i - 1) as Hlo.
  { rewrite (LogInv_last T) by (apply LogInv_prefix; [done|lia]).
    rewrite base_of_take, length_take by lia. lia. }
  assert (le_term (default default_entry (last (take c l))) =
    match last pre with Some e => le_term e | None => mint end) as Hlt.
  { assert (log_at l (i - 1) = last (take c l)) as Hla.
    { rewrite last_lookup, length_take, Nat.min_l by lia.
      rewrite lookup_take_lt by lia. unfold log_at. rewrite (proj2 (Z.ltb_ge _ _)) by lia.
      f_equal. lia. }
    rewrite <- Hla. destruct (last pre) as [e|] eqn:Ep.
    - rewrite last_lookup in Ep. pose proof (lookup_lt_Some _ _ _ Ep).
      specialize (Hpre _ _ Ep). replace (i - 1) with (next + Z.of_nat (pred (length pre))) by lia.
      by rewrite Hpre.
    - apply last_None in Ep as ->. cbn in Hi. replace (i - 1) with (next - 1) by lia.
      unfold term_at in Hmint. destruct (log_at l (next - 1)); naive_solver. }
  rewrite Hlo, Hlt. replace (i - 1 + 1) with (next + size_of pre) by (unfold size_of; lia).
  by apply chained_suffix.
Qed.

Lemma splice_at T l pre suffix next i k e :
  LogInv T l -> base_of l < next -> i = next + size_of pre -> i <= last_of l + 1 ->
  (forall k e, pre !! k = Some e -> log_at l (next + Z.of_nat k) = Some e) ->
  (pre ++ suffix) !! k = Some e ->
  log_at (take (Z.to_nat (i - base_of l)) l ++ suffix) (next + Z.of_nat k) = Some e.
Proof.
  intros H Hn Hi Hlast Hpre Hk. unfold size_of in Hi. pose proof (LogInv_last _ _ H) as Hlen.
  set (c := Z.to_nat (i - base_of l)). assert (0 < c <= length l)%nat as Hc by lia.
  assert (take c l <> []) as Hne by (destruct l, c; done || (cbn in *; lia)).
  apply lookup_app_Some in Hk as [Hk|[Hge Hk]].
  - pose proof (lookup_lt_Some _ _ _ Hk).
    rewrite log_at_app, log_at_take; [by apply Hpre|lia..| |done|unfold size_of]; rewrite ?base_of_take, ?length_take by lia; lia.
  - unfold log_at. rewrite base_of_app, base_of_take by (done || lia).
    rewrite (proj2 (Z.ltb_ge _ _)) by lia. rewrite lookup_app_r by (rewrite length_take; lia).
    rewrite length_take, <- Hk. f_equal. lia.
Qed.

Lemma Spliced_cut s acts pre suffix next i :
  Inv s -> base_index s < next -> i = next + size_of pre -> i <= last_log_index s + 1 ->
  (forall k e, pre !! k = Some e -> log_at (n_log s) (next + Z.of_nat k) = Some e) ->
  LogInv (n_current_term s) (take (Z.to_nat (i - base_index s)) (n_log s) ++ suffix) ->
  Spliced s (set_actions acts (set_log (take (Z.to_nat (i - base_index s)) (n_log s) ++ suffix) s))
    next (pre ++ suffix).
Proof.
  intros H Hn Hi Hlast Hpre Hl'. pose proof (inv_log _ H) as Hl.
  pose proof (LogInv_last _ _ Hl) as Hlen. pose proof (LogInv_nonempty _ _ Hl) as Hne0.
  change (base_index s) with (base_of (n_log s)) in *.
  change (last_log_index s) with (last_of (n_log s)) in *. unfold size_of in Hi.
  set (c := Z.to_nat (i - base_of (n_log s))) in *.
  assert (0 < c <= length (n_log s))%nat as Hc by lia.
  assert (take c (n_log s) <> []) as Hne.
  { intros E. apply (f_equal length) in E. rewrite length_take in E. cbn in E. lia. }
  assert (base_of (take c (n_log s) ++ suffix) = base_of (n_log s)) as Hb.
  { by rewrite base_of_app, base_of_take by (done || lia). }
  constructor.
  - exact Hb.
  - intros j Hj. node_simpl.
    rewrite log_at_app, log_at_take; [done|lia|lia|done|].
    unfold size_of. rewrite base_of_take, length_take by lia. lia.
  - intros k e Hk. node_simpl. eapply splice_at; [exact Hl|done| |done|done|done]. done.
  - rewrite (last_log_index_of (set_actions _ _)). node_simpl.
    rewrite (LogInv_last _ _ Hl'), Hb, length_app, length_take. unfold size_of. rewrite length_app. lia.
Qed.

Lemma tail_splice (l suffix : list LogEntry) c :
  (0 < c)%nat -> l <> [] -> tail (take c l ++ suffix) = take (pred c) (tail l) ++ suffix.
Proof. destruct c, l; done || lia. Qed.

Lemma head_splice (l suffix : list LogEntry) c :
  (0 < c)%nat -> l <> [] -> head (take c l ++ suffix) = head l.
Proof. destruct c, l; done || lia. Qed.

Lemma replace_suffix_runs pre suffix next mint s :
  Inv s -> n_role s = follower -> base_index s < next ->
  chained (n_current_term s) next mint (pre ++ suffix) ->
  term_at (n_log s) (next - 1) = Some mint ->
  (forall k e, pre !! k = Some e -> log_at (n_log s) (next + Z.of_nat k) = Some e) ->
  (suffix <> [] -> n_commit_index s < next + size_of pre <= last_log_index s + 1) ->
  exists new s', runs (replace_suffix suffix) s tt new s' /\ Silent new /\
    Spliced s s' next (pre ++ suffix) /\ n_current_term s' = n_current_term s /\
    n_role s' = follower /\ n_commit_index s' = n_commit_index s.
Proof.
  intros H Hr Hn Hch Hmint Hpre Hs. pose proof (inv_log _ H) as Hl.
  pose proof (LogInv_last _ _ Hl) as Hlen. pose proof (LogInv_nonempty _ _ Hl) as Hne0.
  pose proof (LogInv_base _ _ Hl) as Hb0. pose proof (li_max _ _ Hl) as Hmax.
  rewrite <- base_index_of, <- last_log_index_of in *.
  destruct suffix as [|first rest] eqn:Esuf.
  { exists [], s. rewrite app_nil_r. split_and!; try done; [by apply runs_ret|constructor|].
    constructor; [done..|]. unfold size_of. destruct (decide (pre = [])) as [->|Hp].
    - cbn. unfold term_at in Hmint. destruct (log_at (n_log s) (next - 1)) as [x|] eqn:Ex; [|done].
      pose proof (log_at_last _ _ _ _ Hl Ex) as Hx. rewrite <- last_log_index_of in Hx. lia.
    - destruct (last pre) as [x|] eqn:Ex; [|by apply last_None in Ex].
      rewrite last_lookup in Ex. pose proof (lookup_lt_Some _ _ _ Ex).
      pose proof (log_at_last _ _ _ _ Hl (Hpre _ _ Ex)) as Hx. rewrite <- last_log_index_of in Hx. lia. }
  rewrite <- Esuf in *. specialize (Hs ltac:(by rewrite Esuf)).
  set (i := next + size_of pre) in *.
  assert (le_index first = i) as Hfirst.
  { destruct Hch as (Hidx & _). rewrite (Hidx (length pre) first); [done|].
    rewrite lookup_app_r, Nat.sub_diag, Esuf by lia. done. }
  assert (i <= u64_max) as Himax.
  { destruct Hch as (_ & _ & _ & Hx). rewrite length_app, Esuf in Hx. cbn [length] in Hx.
    unfold size_of in *. lia. }
  pose proof (splice_log _ _ pre suffix next mint i Hl Hn eq_refl (proj2 Hs) Hch Hmint Hpre) as Hl'.
  rewrite <- base_index_of in Hl'.
  set (l' := take (Z.to_nat (i - base_index s)) (n_log s) ++ suffix) in *.
  assert (0 <= size_of pre) by apply size_of_nonneg.
  assert (n_log s <> []) as Hnil by (intros E; rewrite E in Hne0; cbn in Hne0; lia).
  exists [PersistLog i suffix], (set_actions (n_actions s ++ [PersistLog i suffix]) (set_log l' s)).
  pose proof (Spliced_cut s (n_actions s ++ [PersistLog i suffix]) pre suffix next i H Hn eq_refl
    ltac:(lia) Hpre Hl') as Hsp. fold l' in Hsp. pose proof (sp_base _ _ _ _ Hsp) as Hb.
  assert (n_commit_index s <= last_of l') as Hcl.
  { pose proof (sp_last _ _ _ _ Hsp) as Hx. rewrite last_log_index_of in Hx. node_simpl_in Hx.
    unfold size_of in *. rewrite length_app, Esuf in Hx. cbn [length] in Hx. lia. }
  split_and!; try done; [split_and!|by repeat constructor].
  - rewrite Esuf. cbn [replace_suffix]. run. rewrite Hfirst, <- Esuf.
    rewrite u64_small by (unfold is_u64, u64_max in *; lia). rewrite resize_le by lia. done.
  - destruct H as [Hc Ht _ Hsn Hci Ha Hv Hld Hvs Hrpc Hrole]. constructor; node_simpl; try done.
    + rewrite Hb. unfold log_front in *. node_simpl. unfold l'. by rewrite head_splice by (done || lia).
    + rewrite Hb. split; [apply Hci|exact Hcl].
    + unfold RoleOk in *; node_simpl. by rewrite Hr in *.
  - pose proof (inv_commit _ H) as Hci. step_fields.
    + unfold l'. apply agree_upto_cut; [done|lia|rewrite <- base_index_of; lia].
    + cbn [replay foldl persist]. rewrite (ps_base_of s H). unfold persistent_of; cbn. node_simpl.
      f_equal. unfold l'. rewrite tail_splice by (done || lia). do 2 f_equal. lia.
    + intros e He. exfalso. set_solver.
    + split; [|done]. cbn [storable]. rewrite (ps_base_of s H), Esuf. split_and!; [lia| |done].
      destruct Hch as (_ & _ & _ & Hx). rewrite length_app, Esuf in Hx. unfold size_of in *. lia.
Qed.

(** *** The handler *)

(** The log holds what the request carries, at the request's position. *)
Definition Accepted (s : Impl) (r : AppendEntries) : Prop :=
  term_at (n_log s) (ae_previous_log_index r) = Some (ae_previous_log_term r) /\
  (forall k e, ae_entries r !! k = Some e ->
     log_at (n_log s) (ae_previous_log_index r + 1 + Z.of_nat k) = Some e) /\
  ae_previous_log_index r + size_of (ae_entries r) <= last_log_index s.

(** [m] answers the request with exactly one response, which claims success only
    when the log holds the request's entries. *)
Definition answers (m : M Impl unit) (s : Impl) (from : NodeId) (r : AppendEntries) : Prop :=
  exists new resp s',
    runs m s tt (new ++ [SendMessage from (MAppendEntriesResponse resp)]) s' /\ Silent new /\
    aer_term resp = n_current_term s' /\ aer_rpc_id resp = ae_rpc_id r /\
    n_current_term s' = n_current_term s /\ settles s s' /\
    if aer_success resp
    then Accepted s' r /\ n_role s' = follower /\
         aer_match_index resp = ae_previous_log_index r + size_of (ae_entries r) /\
         n_commit_index s' =
           Z.max (n_commit_index s) (Z.min (ae_leader_commit r) (aer_match_index resp))
    else n_commit_index s' = n_commit_index s /\ n_log s' = n_log s.

Lemma answers_get (f : Impl -> M Impl unit) s from r :
  answers (f s) s from r -> answers (bind get f) s from r.
Proof. intros H. exact H. Qed.

Lemma answers_same (m m' : M Impl unit) s from r :
  m s = m' s -> answers m' s from r -> answers m s from r.
Proof. intros Hm. unfold answers, runs. by rewrite Hm. Qed.

Lemma answers_bind {A} (m : M Impl A) (k : A -> M Impl unit) a s n1 s1 from r :
  runs m s a n1 s1 -> Silent n1 -> n_current_term s1 = n_current_term s ->
  n_commit_index s1 = n_commit_index s -> n_log s1 = n_log s -> settles s s1 ->
  answers (k a) s1 from r -> answers (bind m k) s from r.
Proof.
  intros R1 Hs Ht Hc Hl Hset (new & resp & s' & R2 & Hn & H1 & H2 & H3 & Hset' & H4).
  exists (n1 ++ new), resp, s'. rewrite <- app_assoc. split_and!; try done.
  - by eapply runs_bind.
  - by apply Msgs_app.
  - congruence.
  - by eapply settles_trans.
  - rewrite <- Hc, <- Hl. done.
Qed.

(** Computations that only read the state. *)
Lemma answers_read {A} (m : M Impl A) (k : A -> M Impl unit) a s from r :
  Inv s -> m s = (s, Ok a) -> answers (k a) s from r -> answers (bind m k) s from r.
Proof.
  intros H E. apply (answers_bind m k a s [] s); [|by constructor|done..|apply settles_refl].
  split_and!; [done..|by apply Step_refl].
Qed.

Lemma refuse s from r match_index hint :
  Inv s -> answers (send_append_response from r false match_index hint) s from r.
Proof.
  intros H. set (resp := mkAppendEntriesResponse (n_current_term s) false match_index hint (ae_rpc_id r)).
  destruct (handled_push s (SendMessage from (MAppendEntriesResponse resp)) H eq_refl eq_refl)
    as (_ & (_ & I & _) & _).
  { by intros to m [= <- <-]. }
  exists [], resp, (set_actions (n_actions s ++ [SendMessage from (MAppendEntriesResponse resp)]) s).
  split_and!; try done; [|constructor|by right]. split_and!; [done|done|].
  apply Step_inert; node_simpl; try done; [by repeat constructor|congruence].
Qed.

(** Taking the entries over, committing and answering. *)
Lemma accept_entries s from r pre suffix :
  Inv s -> n_role s = follower -> base_index s <= ae_previous_log_index r ->
  ae_entries r = pre ++ suffix ->
  chained (n_current_term s) (ae_previous_log_index r + 1) (ae_previous_log_term r) (pre ++ suffix) ->
  term_at (n_log s) (ae_previous_log_index r) = Some (ae_previous_log_term r) ->
  (forall k e, pre !! k = Some e ->
     log_at (n_log s) (ae_previous_log_index r + 1 + Z.of_nat k) = Some e) ->
  (suffix <> [] ->
     n_commit_index s < ae_previous_log_index r + 1 + size_of pre <= last_log_index s + 1) ->
  answers
    (replace_suffix suffix ;;
     let matched_index := u64 (ae_previous_log_index r + size_of (ae_entries r)) in
     advance_follower_commit (Z.min (ae_leader_commit r) matched_index) ;;
     send_append_response from r true matched_index 0) s from r.
Proof.
  intros H Hr Hb He Hch Hterm Hpre Hs. set (prev := ae_previous_log_index r) in *.
  destruct (replace_suffix_runs pre suffix (prev + 1) (ae_previous_log_term r) s) as
    (n1 & s1 & R1 & Hn1 & Hsp & Ht1 & Hr1 & Hc1); try done; [lia|by rewrite Z.add_simpl_r|].
  rewrite <- He in *. set (matched := prev + size_of (ae_entries r)).
  pose proof (LogInv_base _ _ (inv_log _ H)) as Hb0. rewrite <- base_index_of in Hb0.
  pose proof (size_of_nonneg (ae_entries r)).
  assert (u64 matched = matched) as Hm.
  { apply u64_small. destruct Hch as (_ & _ & _ & Hmax). unfold is_u64, u64_max, size_of in *. lia. }
  pose proof (sp_last _ _ _ _ Hsp) as Hlast.
  destruct (advance_follower_commit_runs (Z.min (ae_leader_commit r) matched) s1 (proj1 (proj2 R1)))
    as (n2 & Hn2 & R2). cbv zeta in R2.
  match type of R2 with runs _ _ _ _ ?x => set (s2 := x) in * end.
  set (resp := mkAppendEntriesResponse (n_current_term s) true matched 0 (ae_rpc_id r)).
  set (s3 := set_actions (n_actions s2 ++ [SendMessage from (MAppendEntriesResponse resp)]) s2).
  exists (n1 ++ n2), resp, s3. split_and!; try done.
  - rewrite <- app_assoc. eapply runs_bind; [exact R1|]. cbv zeta. rewrite Hm.
    eapply runs_bind; [exact R2|]. split_and!.
    + unfold send_append_response. unfold bind, get. change (n_current_term s2) with (n_current_term s1).
      by rewrite Ht1.
    + by destruct R2 as (_ & [] & _).
    + apply Step_inert; try done; [apply (proj1 (proj2 R2))|by repeat constructor|].
      change (n_role s2) with (n_role s1). congruence.
  - by apply Msgs_app.
  - by left.
  - cbn [resp aer_success aer_match_index]. split; [split_and!|split_and!].
    + change (term_at (n_log s1) prev = Some (ae_previous_log_term r)). unfold term_at in *.
      rewrite (sp_below _ _ _ _ Hsp) by lia. done.
    + intros k e Hk. apply (sp_entries _ _ _ _ Hsp k e Hk).
    + change (prev + size_of (ae_entries r) <= last_log_index s1). lia.
    + done.
    + done.
    + change (n_commit_index s3) with (Z.max (n_commit_index s1)
        (Z.min (Z.min (ae_leader_commit r) matched) (last_log_index s1))). lia.
Qed.

Lemma handle_append_entries_answers from r s :
  Inv s -> from ∈ cfg_voters (n_config s) -> message_typed (MAppendEntries r) ->
  ae_term r <= n_current_term s ->
  answers (handle_append_entries from r) s from r.
Proof.
  intros H Hin (_ & Hu & Hpos) Ht. unfold handle_append_entries. apply answers_get.
  destruct (_ || _) eqn:Eg; [by apply refuse|].
  rewrite !orb_false_iff, Z.ltb_ge in Eg. assert (ae_term r = n_current_term s) as Hterm by lia.
  destruct (follow_leader_runs from s H Hin) as
    (n1 & s1 & R1 & Hs1 & Hr1 & _ & Ht1 & _ & Hl1 & Hc1 & _).
  eapply answers_bind; [exact R1|done..|by left|]. apply answers_get. destruct R1 as (_ & I1 & _).
  set (prev := ae_previous_log_index r) in *. cbv zeta.
  destruct (Z.ltb_spec prev (base_index s1)) as [|Hb]; [by apply refuse|].
  destruct (Z.ltb_spec (last_log_index s1) prev) as [|Hlast]; [by apply refuse|].
  pose proof (inv_log _ I1) as Hl. destruct (entry_at_ok _ s1 prev Hl ltac:(lia)) as (e & Ee & He & Hei).
  apply (answers_read _ _ e _ _ _ I1 Ee).
  assert (term_at (n_log s1) prev = Some (le_term e)) as Hpt.
  { unfold term_at. rewrite <- Hei. erewrite log_at_lookup; [done|apply (li_index _ _ Hl)|exact He]. }
  destruct (Z.eqb_spec (le_term e) (ae_previous_log_term r)) as [Et|Et]; cbn [negb].
  2:{ destruct (first_conflict_ok _ (length (n_log s1)) (le_term e) prev s1 Hl ltac:(lia)) as (j & Ej).
      apply (answers_read _ _ j _ _ _ I1 Ej). by apply refuse. }
  destruct (malformed_entry _ _ _ _) as [i|] eqn:Em; [by apply refuse|].
  pose proof (LogInv_base _ _ Hl) as Hb0. rewrite <- base_index_of in Hb0.
  apply malformed_entry_None in Em; [|unfold is_u64, u64_max in *; lia|done].
  pose proof (inv_commit _ I1) as Hci.
  destruct (scan_entries_ok _ s1 (ae_entries r) (prev + 1) Hl ltac:(lia) ltac:(lia) (proj1 Em))
    as (o & Eo & Ho). apply (answers_read _ _ o _ _ _ I1 Eo).
  destruct o as [hint|suffix]; [by apply refuse|]. destruct Ho as (pre & Hpre & Hat & Hsuf).
  apply (accept_entries s1 from r pre suffix); try done.
  - rewrite <- Hpre, Ht1, <- Hterm. done.
  - fold prev. by rewrite Hpt, Et.
Qed.

(** ** Responses to a leader *)

Lemma handled_bind' {A} (m : M Impl A) (k : A -> M Impl unit) a s n1 s1 s2 :
  runs m s a n1 s1 -> Silent n1 -> handled (k a) s1 s2 -> handled (bind m k) s s2.
Proof.
  intros R1 Hs (n2 & R2 & HM). exists (n1 ++ n2). split; [by eapply runs_bind|].
  apply Msgs_app; [by apply Silent_Msgs|done].
Qed.

Lemma put_progress_runs peer p s :
  Inv s -> n_role s = leader -> is_Some (n_peer_progress s !! peer) ->
  ProgressOk (last_log_index s) (n_next_rpc_id s) (n_durable_snapshot s) p ->
  runs (put_progress peer p) s tt [] (set_peer_progress (<[peer := p]> (n_peer_progress s)) s).
Proof.
  intros H Hr Hp Hpo. split_and!; [done| |].
  - destruct H as [Hc Ht Hl Hs Hci Ha Hv Hld Hvs Hrp Hrole]. constructor; node_simpl; try done.
    unfold RoleOk in *. node_simpl. rewrite Hr in *.
    destruct Hrole as (H1 & H2 & H3 & H4 & Hdom & Hall). split_and!; try done.
    + intros q. rewrite <- Hdom. destruct (decide (q = peer)) as [->|Hne].
      * rewrite lookup_insert_eq. split; eauto.
      * by rewrite lookup_insert_ne.
    + intros q x Hx. apply lookup_insert_Some in Hx as [[<- <-]|[_ Hx]]; [done|]. by apply Hall in Hx.
  - apply Step_inert; node_simpl; try done; [by rewrite app_nil_r|congruence].
Qed.

Lemma erase_first_Forall {A} (P : A -> Prop) f l : Forall P l -> Forall P (erase_first f l).
Proof. induction 1; cbn; [constructor|]. destruct (f x); [done|by constructor]. Qed.

Lemma erase_first_len {A} (f : A -> bool) l : size_of (erase_first f l) <= size_of l.
Proof.
  unfold size_of. induction l as [|x l IH]; cbn [erase_first]; [done|].
  destruct (f x); cbn [length]; lia.
Qed.

Lemma ProgressOk_settle last rpc d p recent m next :
  ProgressOk last rpc d p -> size_of recent <= size_of (pp_recent_rpcs p) ->
  Forall (fun r => 0 < rr_rpc_id r <= pp_newest_rpc_id p /\ rr_last_index r <= last) recent ->
  0 <= m <= last -> m + 1 <= next <= last + 1 ->
  ProgressOk last rpc d (set_next_index next (set_match_index m (set_recent_rpcs recent p))).
Proof. intros [] ? ? ? ?. constructor; cbn; try done; lia. Qed.

(** A leader that keeps its role, term and log. *)
Definition leads_on (s s' : Impl) : Prop :=
  n_current_term s' = n_current_term s /\ n_role s' = n_role s /\ n_log s' = n_log s /\
  n_votes_received s' = n_votes_received s.

Lemma send_handled peer s :
  Inv s -> n_role s = leader -> is_Some (n_peer_progress s !! peer) -> n_next_rpc_id s < u64_max ->
  exists s', handled (send_append_entries peer) s s' /\ leads_on s s'.
Proof.
  intros H Hr Hp Hrpc. destruct (send_append_entries_runs peer s H Hr Hp Hrpc) as (new & s' & R & HS & HM).
  destruct (Sends_frame _ _ HS) as (_ & ? & ? & ? & _ & ?). exists s'. split; [by exists new|done].
Qed.

(** New progress of a peer, then one more message to it. *)
Lemma retry_handled peer p s :
  Inv s -> n_role s = leader -> is_Some (n_peer_progress s !! peer) -> n_next_rpc_id s < u64_max ->
  ProgressOk (last_log_index s) (n_next_rpc_id s) (n_durable_snapshot s) p ->
  exists s', handled (put_progress peer p ;; send_append_entries peer) s s' /\ leads_on s s'.
Proof.
  intros H Hr Hp Hrpc Hpo. pose proof (put_progress_runs peer p s H Hr Hp Hpo) as R1.
  match type of R1 with runs _ _ _ _ ?x => set (s1 := x) in * end.
  destruct (send_handled peer s1 (proj1 (proj2 R1)) Hr) as (s' & Hh & Hlo); [|done|].
  { unfold s1. node_simpl. rewrite lookup_insert_eq. eauto. }
  exists s'. split; [|exact Hlo]. eapply handled_bind; [exact R1|constructor|exact Hh].
Qed.

(** Counting replicas, then replicating further. *)
Lemma replicate_handled peer next s :
  Inv s -> n_role s = leader -> is_Some (n_peer_progress s !! peer) ->
  n_next_rpc_id s + 7 <= u64_max ->
  exists s', handled
    (let* advanced := advance_leader_commit in
     let* s := get in
     if advanced then broadcast_append_entries
     else when (next <=? last_log_index s) (send_append_entries peer)) s s' /\ leads_on s s'.
Proof.
  intros H Hr Hp Hrpc.
  destruct (advance_leader_commit_runs s H) as (b & c & n1 & Hs1 & R1 & _).
  match type of R1 with runs _ _ _ _ ?x => set (s1 := x) in * end.
  pose proof (proj1 (proj2 R1)) as I1. pose proof (inv_rpc _ H) as Hrpc1.
  assert (exists s', handled (if b then broadcast_append_entries
     else when (next <=? last_log_index s1) (send_append_entries peer)) s1 s' /\ leads_on s1 s')
    as (s' & Hh & Hlo).
  { destruct b.
    - destruct (broadcast_runs s1 I1 Hr Hrpc) as (new & s' & R & HS & HM).
      destruct (Sends_frame _ _ HS) as (_ & ? & ? & ? & _ & ?). exists s'. split; [by exists new|done].
    - destruct (_ <=? _); cbn [when].
      + apply send_handled; try done. change (n_next_rpc_id s1) with (n_next_rpc_id s). lia.
      + exists s1. split; [by apply handled_ret|done]. }
  exists s'. split; [|exact Hlo]. eapply handled_bind'; [exact R1|done|]. by apply handled_get.
Qed.

(** A confirmed request: [m] is the index known to match. *)
Lemma confirmed_handled from s p recent m :
  Inv s -> n_role s = leader -> n_peer_progress s !! from = Some p ->
  n_next_rpc_id s + 7 <= u64_max -> size_of recent <= size_of (pp_recent_rpcs p) ->
  Forall (fun r => 0 < rr_rpc_id r <= pp_newest_rpc_id p /\ rr_last_index r <= last_log_index s) recent ->
  0 <= m <= last_log_index s ->
  exists s', handled
    (put_progress from (set_next_index (u64 (m + 1)) (set_match_index m (set_recent_rpcs recent p))) ;;
     let* advanced := advance_leader_commit in
     let* s := get in
     if advanced then broadcast_append_entries
     else when (u64 (m + 1) <=? last_log_index s) (send_append_entries from)) s s' /\
    leads_on s s'.
Proof.
  intros H Hr Hp Hrpc Hlen Hall Hm. pose proof (inv_role _ H) as Hrole. unfold RoleOk in Hrole.
  rewrite Hr in Hrole. destruct Hrole as (_ & _ & _ & Hlast & _ & Hprog).
  rewrite u64_small by (unfold is_u64, u64_max in *; lia).
  pose proof (ProgressOk_settle _ _ _ _ recent m (m + 1) (Hprog _ _ Hp) Hlen Hall ltac:(lia) ltac:(lia))
    as Hp'.
  pose proof (put_progress_runs from _ s H Hr (mk_is_Some _ _ Hp) Hp') as R1.
  match type of R1 with runs _ _ _ _ ?x => set (s1 := x) in * end.
  destruct (replicate_handled from (m + 1) s1 (proj1 (proj2 R1)) Hr) as (s' & Hh & Hlo); [|done|].
  { unfold s1. node_simpl. rewrite lookup_insert_eq. eauto. }
  exists s'. split; [|exact Hlo]. eapply handled_bind; [exact R1|constructor|exact Hh].
Qed.

(** What a recorded request is known to satisfy. *)
Lemma find_recent last rpc d p f r :
  ProgressOk last rpc d p -> List.find f (pp_recent_rpcs p) = Some r ->
  rr_last_index r <= last /\ f r = true /\
  size_of (erase_first f (pp_recent_rpcs p)) <= size_of (pp_recent_rpcs p) /\
  Forall (fun r => 0 < rr_rpc_id r <= pp_newest_rpc_id p /\ rr_last_index r <= last)
    (erase_first f (pp_recent_rpcs p)).
Proof.
  intros [_ _ _ _ _ Hr _ _ _ _] Hf. apply find_some in Hf as [Hin Hb].
  split_and!; [|done|apply erase_first_len|by apply erase_first_Forall].
  rewrite Forall_forall in Hr. apply Hr. by apply list_elem_of_In.
Qed.

Lemma exists_get (f : Impl -> M Impl unit) s (P : Impl -> Prop) :
  (exists s', handled (f s) s s' /\ P s') -> exists s', handled (bind get f) s s' /\ P s'.
Proof. intros (s' & Hh & HP). exists s'. split; [by apply handled_get|done]. Qed.

Lemma idle s : Inv s -> exists s', handled (ret tt) s s' /\ leads_on s s'.
Proof. intros H. exists s. split; [by apply handled_ret|done]. Qed.

Lemma handle_append_entries_response_handled from r s :
  Inv s -> message_typed (MAppendEntriesResponse r) -> n_next_rpc_id s + 7 <= u64_max ->
  exists s', handled (handle_append_entries_response from r) s s' /\ leads_on s s'.
Proof.
  intros H (_ & Hmi & Hrh) Hrpc. apply exists_get. cbv zeta.
  destruct (negb (bool_decide (n_role s = leader)) || _) eqn:Eg; [by apply idle|].
  apply orb_false_iff in Eg as [Er _]. apply negb_false_iff, bool_decide_eq_true in Er.
  destruct (n_peer_progress s !! from) as [p|] eqn:Ep; [|by apply idle].
  destruct (List.find _ (pp_recent_rpcs p)) as [rpc|] eqn:Ef; [|by apply idle].
  pose proof (inv_role _ H) as Hrole. unfold RoleOk in Hrole. rewrite Er in Hrole.
  destruct Hrole as (_ & _ & _ & Hlast & _ & Hall). pose proof (Hall _ _ Ep) as Hpo.
  destruct (find_recent _ _ _ _ _ _ Hpo Ef) as (Hrl & _ & Hel & Hef).
  pose proof (po_match _ _ _ _ Hpo) as Hm. pose proof (po_next _ _ _ _ Hpo) as Hn.
  destruct (aer_success r).
  { apply confirmed_handled; try done. unfold is_u64 in *. lia. }
  destruct (negb (aer_rpc_id r =? pp_newest_rpc_id p)); [by apply idle|].
  apply retry_handled; try done; [lia|].
  rewrite u64_small by (unfold is_u64, u64_max in *; lia).
  apply (ProgressOk_settle _ _ _ _ _ _ _ Hpo Hel Hef Hm). unfold is_u64 in *.
  destruct (Z.ltb_spec 1 (pp_next_index p)), (_ || _) eqn:Eh; try lia;
    apply orb_false_iff in Eh as [_ Eh%Z.leb_gt]; lia.
Qed.

(** ** Snapshots *)

(** A log whose prefix up to [idx] is replaced by a sentinel. *)
Lemma LogInv_compact T l idx e :
  LogInv T l -> base_of l <= idx < u64_max -> l !! Z.to_nat (idx - base_of l) = Some e ->
  (idx = 0 <-> le_term e = 0) ->
  LogInv T (sentinel idx (le_term e) :: drop (Z.to_nat (idx - base_of l + 1)) l).
Proof.
  intros H Hidx He Hz. set (l' := _ :: _). pose proof (LogInv_base _ _ H) as Hb.
  assert (forall k x, l' !! k = Some x -> exists y, l !! (Z.to_nat (idx - base_of l) + k)%nat = Some y /\
    le_term y = le_term x /\ le_index y = le_index x) as Hmap.
  { intros [|k] x Hk.
    - injection Hk as <-. exists e. rewrite Nat.add_0_r. split_and!; [done..|].
      rewrite (li_index _ _ H _ _ He). cbn. lia.
    - change (drop (Z.to_nat (idx - base_of l + 1)) l !! k = Some x) in Hk.
      rewrite lookup_drop in Hk. exists x. split_and!; [|done..].
      rewrite <- Hk. f_equal. lia. }
  assert (forall k x, l' !! k = Some x -> le_index x = idx + Z.of_nat k) as Hix.
  { intros k x Hk. destruct (Hmap k x Hk) as (y & Hy & _ & <-). rewrite (li_index _ _ H _ _ Hy). lia. }
  constructor.
  - exists idx, (le_term e), (drop (Z.to_nat (idx - base_of l + 1)) l).
    split_and!; [done|lia|lia|by apply (LogInv_terms_nonneg T l _ _ H He)|done].
  - exact Hix.
  - intros j k x y Hjk Hj Hk. destruct (Hmap j x Hj) as (x' & Hx' & <- & _).
    destruct (Hmap k y Hk) as (y' & Hy' & <- & _). eapply (li_sorted _ _ H); [|exact Hx'|exact Hy']. lia.
  - intros k x Hk. destruct (Hmap k x Hk) as (x' & Hx' & <- & _). by apply (li_bound _ _ H _ _ Hx').
  - intros k x Hk0 Hk. destruct (Hmap k x Hk) as (x' & Hx' & <- & _).
    eapply (li_positive _ _ H); [|exact Hx']. lia.
  - destruct (lookup_lt_is_Some_2 l' (pred (length l')) ltac:(cbn; lia)) as [x Hx].
    unfold last_of. rewrite last_lookup, Hx. cbn. destruct (Hmap _ _ Hx) as (y & Hy & _ & <-).
    pose proof (li_max _ _ H) as Hmax. rewrite (LogInv_last _ _ H) in Hmax.
    rewrite (li_index _ _ H _ _ Hy). apply lookup_lt_Some in Hy. lia.
Qed.

Lemma LogInv_sentinel T idx t :
  0 < idx < u64_max -> 1 <= t <= T -> LogInv T [sentinel idx t].
Proof.
  intros Hi Ht. constructor.
  - exists idx, t, []. split_and!; done || lia.
  - intros k e Hk. apply list_lookup_singleton_Some in Hk as [-> <-]. cbn. lia.
  - intros j k e e' _ Hj Hk. apply list_lookup_singleton_Some in Hj as [-> <-].
    by apply list_lookup_singleton_Some in Hk as [-> <-].
  - intros k e Hk. apply list_lookup_singleton_Some in Hk as [-> <-]. cbn. lia.
  - intros k e Hk0 Hk. apply list_lookup_singleton_Some in Hk as [-> <-]. lia.
  - cbn. lia.
Qed.

(** The part of the log an installed snapshot leaves. *)
Definition uncovered (s : Impl) (d : StateMachineSnapshot) : list LogEntry :=
  match n_log s !! Z.to_nat (sm_last_included_index d - base_index s) with
  | Some e => if le_term e =? sm_last_included_term d
              then drop (Z.to_nat (sm_last_included_index d - base_index s + 1)) (n_log s) else []
  | None => []
  end.

Definition installed_log (s : Impl) (d : StateMachineSnapshot) : list LogEntry :=
  sentinel (sm_last_included_index d) (sm_last_included_term d) :: uncovered s d.

Lemma installed_log_Inv s d :
  Inv s -> base_index s < sm_last_included_index d < u64_max ->
  1 <= sm_last_included_term d <= n_current_term s ->
  LogInv (n_current_term s) (installed_log s d).
Proof.
  intros H Hi Ht. pose proof (inv_log _ H) as Hl. pose proof (LogInv_base _ _ Hl) as Hb.
  unfold installed_log, uncovered. rewrite base_index_of in *.
  destruct (n_log s !! _) as [e|] eqn:Ee; [|apply LogInv_sentinel; lia].
  destruct (Z.eqb_spec (le_term e) (sm_last_included_term d)) as [Et|]; [|apply LogInv_sentinel; lia].
  rewrite <- Et in *. apply LogInv_compact; try done; lia.
Qed.

Lemma installed_log_persist s d :
  Inv s -> base_index s < sm_last_included_index d ->
  persist (PersistSnapshot d) (persistent_of s) =
    mkRaftPersistentState (n_current_term s) (n_voted_for s) (Some d) (uncovered s d).
Proof.
  intros H Hi. pose proof (LogInv_nonempty _ _ (inv_log _ H)) as Hne.
  unfold persist. cbv zeta. rewrite (ps_base_of s H). unfold persistent_of, uncovered. cbn.
  destruct (n_log s) as [|x l] in Hne |- *; [cbn in Hne; lia|]. cbn [tail].
  replace (Z.to_nat (sm_last_included_index d - base_index s + 1))
    with (S (Z.to_nat (sm_last_included_index d - base_index s))) by lia.
  by destruct (Z.to_nat (sm_last_included_index d - base_index s)) eqn:Ec; [lia|].
Qed.

(** The node after a snapshot has been installed. *)
Definition installed (d : StateMachineSnapshot) (s : Impl) : Impl :=
  let idx := sm_last_included_index d in
  set_actions (n_actions s ++ [PersistSnapshot d; ApplySnapshot d])
    (set_last_applied idx (set_commit_index idx (set_durable_snapshot (Some d)
      (set_log (installed_log s d) (set_incoming_snapshot None s))))).

Lemma install_complete_snapshot_eq d s :
  Inv s -> n_last_applied s < sm_last_included_index d < u64_max ->
  1 <= sm_last_included_term d <= n_current_term s ->
  install_complete_snapshot d s = (installed d s, Ok tt).
Proof.
  intros H Hi Ht. pose proof (inv_log _ H) as Hl. pose proof (inv_commit _ H) as Hci.
  pose proof (inv_applied _ H) as Ha. set (idx := sm_last_included_index d) in *.
  pose proof (installed_log_Inv s d H ltac:(lia) Ht) as Hl'.
  assert (idx <= last_of (installed_log s d)) as Hlast.
  { rewrite (LogInv_last _ _ Hl'). cbn [base_of installed_log length]. cbn. fold idx. lia. }
  unfold install_complete_snapshot. fold idx. unfold bind at 1, modify. unfold bind at 1, get.
  set (s1 := set_incoming_snapshot None s).
  assert ((if (idx <=? last_log_index s1) && (base_index s1 <=? idx) then
      let* e := entry_at idx in
      ret (if le_term e =? sm_last_included_term d
           then drop (Z.to_nat (idx - base_index s1 + 1)) (n_log s1) else [])
    else ret []) s1 = (s1, Ok (uncovered s d))) as Es.
  { change (base_index s1) with (base_index s). change (last_log_index s1) with (last_log_index s).
    unfold uncovered. fold idx. rewrite (proj2 (Z.leb_le (base_index s) idx)), andb_true_r by lia.
    destruct (Z.leb_spec idx (last_log_index s)) as [Hle|Hgt].
    - destruct (entry_at_ok _ s1 idx Hl) as (e & Ee & He & _); [split; [|exact Hle]|].
      { change (base_index s1) with (base_index s). lia. }
      unfold bind. rewrite Ee. change (n_log s1) with (n_log s) in *.
      change (base_index s1) with (base_index s) in He. by rewrite He.
    - rewrite lookup_ge_None_2; [done|]. pose proof (LogInv_last _ _ Hl) as Hlen.
      rewrite <- base_index_of, <- last_log_index_of in Hlen. lia. }
  unfold bind at 1. rewrite Es. clear Es. run. node_simpl. unfold installed. fold idx.
  match goal with |- context [last_log_index ?x] =>
    change (last_log_index x) with (last_of (installed_log s d)) end.
  change (n_commit_index s1) with (n_commit_index s).
  rewrite Z.max_r, Z.min_l by (done || lia). rewrite <- app_assoc. done.
Qed.

Lemma install_complete_snapshot_runs d s :
  Inv s -> n_role s = follower -> n_last_applied s < sm_last_included_index d < u64_max ->
  1 <= sm_last_included_term d <= n_current_term s ->
  runs (install_complete_snapshot d) s tt [PersistSnapshot d; ApplySnapshot d] (installed d s).
Proof.
  intros H Hr Hi Ht. pose proof (inv_commit _ H) as Hci. pose proof (inv_applied _ H) as Ha.
  pose proof (installed_log_Inv s d H ltac:(lia) Ht) as Hl'.
  split_and!; [by apply install_complete_snapshot_eq| |].
  - pose proof (LogInv_last _ _ Hl') as Hlast. pose proof (LogInv_base _ _ Hl') as Hb.
    cbn [installed_log base_of length] in Hlast, Hb. pose proof (inv_role _ H) as Hrole.
    pose proof (LogInv_base _ _ (inv_log _ H)) as Hb0. rewrite <- base_index_of in Hb0.
    destruct H. constructor; unfold installed; node_simpl; try done.
    + split_and!; [done..|]. change (sm_last_included_index d <> 0). lia.
    + split; [done|]. change (sm_last_included_index d <= last_of (installed_log s d)).
      rewrite Hlast. cbn. lia.
    + unfold RoleOk in *; node_simpl. by rewrite Hr in *.
  - unfold installed. step_fields.
    + change (base_index s <= sm_last_included_index d). lia.
    + intros i Hx. change (sm_last_included_index d <= i <= n_commit_index s) in Hx. lia.
    + cbn [replay foldl]. rewrite installed_log_persist by (done || lia). done.
    + cbn [observe]. by rewrite (proj2 (Z.ltb_lt _ _)) by lia.
    + intros e He. exfalso. set_solver.
    + pose proof (inv_term _ H). pose proof (LogInv_base _ _ (inv_log _ H)) as Hb0. rewrite <- base_index_of in Hb0.
      cbn. unfold is_u64, u64_max in *. split_and!; try done; lia.
Qed.

Lemma snapshot_reply from r ok next s :
  Inv s -> exists s', handled (send_snapshot_response from r ok next) s s' /\
    n_current_term s' = n_current_term s /\ settles s s'.
Proof.
  intros H. eexists. split.
  - apply handled_get. apply handled_push; [done|done|done|]. by intros to m [= <- <-].
  - split; [done|by right].
Qed.

Lemma exists_bind {A} (m : M Impl A) (k : A -> M Impl unit) a s n1 s1 :
  runs m s a n1 s1 -> Silent n1 -> n_current_term s1 = n_current_term s -> settles s s1 ->
  (exists s', handled (k a) s1 s' /\ n_current_term s' = n_current_term s1 /\ settles s1 s') ->
  exists s', handled (bind m k) s s' /\ n_current_term s' = n_current_term s /\ settles s s'.
Proof.
  intros R Hs Ht Hset (s' & Hh & Ht' & Hset'). exists s'.
  split_and!; [by eapply handled_bind'|congruence|by eapply settles_trans].
Qed.

(** Bookkeeping of an incoming transfer. *)
Lemma incoming_runs x s :
  Inv s -> runs (modify (set_incoming_snapshot x)) s tt [] (set_incoming_snapshot x s).
Proof.
  intros H. split_and!; [done|by destruct H|].
  apply Step_inert; node_simpl; try done; [by rewrite app_nil_r|congruence].
Qed.

Lemma handle_install_snapshot_handled from r s :
  Inv s -> from ∈ cfg_voters (n_config s) -> message_typed (MInstallSnapshot r) ->
  ins_term r <= n_current_term s ->
  exists s', handled (handle_install_snapshot from r) s s' /\
    n_current_term s' = n_current_term s /\ settles s s'.
Proof.
  intros H Hin (_ & Hidx & Htm) Ht. apply exists_get.
  destruct (malformed_snapshot_request s from r) eqn:Em; [by apply snapshot_reply|].
  unfold malformed_snapshot_request in Em.
  rewrite !orb_false_iff, !Z.eqb_neq, !Z.ltb_ge in Em.
  assert (ins_last_included_index r <> u64_max /\ ins_last_included_term r <> 0 /\
    ins_last_included_term r <= n_current_term s) as (Hi & Hz & Hb) by (split_and!; [tauto|tauto|lia]).
  clear Em. destruct (follow_leader_runs from s H Hin) as
    (n1 & s1 & R1 & Hs1 & Hr1 & _ & Ht1 & _ & _ & _ & Ha1 & _).
  apply (exists_bind _ _ _ _ _ _ R1 Hs1 Ht1 (or_introl Hr1)). apply exists_get. destruct R1 as (_ & I1 & _).
  destruct (Z.leb_spec (ins_last_included_index r) (n_last_applied s1)) as [|Hfresh];
    [by apply snapshot_reply|].
  set (begin := mkIncomingSnapshot from (ins_last_included_index r) (ins_last_included_term r)
    (ins_total_size r) []).
  assert (exists x, runs (when (ins_offset r =? 0) (modify (set_incoming_snapshot (Some begin))))
    s1 tt [] (set_incoming_snapshot x s1)) as (x & R2).
  { destruct (_ =? _); cbn [when]; [eexists; by apply incoming_runs|].
    exists (n_incoming_snapshot s1). by apply runs_ret. }
  apply (exists_bind _ _ _ _ _ _ R2 ltac:(constructor) eq_refl (or_intror (conj eq_refl eq_refl))). apply exists_get.
  destruct R2 as (_ & I2 & _).
  change (n_incoming_snapshot (set_incoming_snapshot x s1)) with x.
  destruct x as [incoming|]; [|by apply snapshot_reply].
  destruct (_ || _); [by apply snapshot_reply|]. cbv zeta.
  eapply (exists_bind _ _ tt _ []); [by apply incoming_runs|constructor|done|by right|].
  pose proof (incoming_runs (Some (mkIncomingSnapshot (in_leader_id incoming)
    (in_last_included_index incoming) (in_last_included_term incoming) (in_total_size incoming)
    (in_bytes incoming ++ ins_data r))) _ I2) as (_ & I3 & _).
  destruct (negb (ins_done r)); [by apply snapshot_reply|].
  eapply exists_bind; [apply install_complete_snapshot_runs; try done| | | |].
  - cbn [sm_last_included_index]. node_simpl. unfold is_u64, u64_max in *. lia.
  - cbn [sm_last_included_term]. node_simpl. unfold is_u64, u64_max in *. lia.
  - by repeat constructor.
  - done.
  - by left.
  - apply snapshot_reply. apply install_complete_snapshot_runs; try done.
    + cbn [sm_last_included_index]. node_simpl. unfold is_u64, u64_max in *. lia.
    + cbn [sm_last_included_term]. node_simpl. unfold is_u64, u64_max in *. lia.
Qed.

Lemma ProgressOk_offset last rpc d p offset recent :
  ProgressOk last rpc (Some d) p -> pp_snapshot_index p = sm_last_included_index d ->
  0 <= offset <= size_of (sm_state_machine d) ->
  size_of recent <= size_of (pp_recent_snapshot_rpcs p) ->
  Forall (fun r => 0 < sr_rpc_id r <= pp_newest_rpc_id p /\
      sr_snapshot_index r = pp_snapshot_index p /\ sr_offset r <= sr_end r /\
      exists x, Some d = Some x /\ sr_end r <= size_of (sm_state_machine x)) recent ->
  ProgressOk last rpc (Some d)
    (mkPeerProgress (pp_next_index p) (pp_match_index p) (pp_newest_rpc_id p)
       (pp_newest_rpc_last_index p) (pp_recent_rpcs p) (pp_snapshot_index p) offset recent).
Proof.
  intros [] Hi Ho Hl Hf. constructor; progress_simpl; try done; try lia.
  right. exists d. split_and!; [done..|lia].
Qed.

Lemma handle_install_snapshot_response_handled from r s :
  Inv s -> message_typed (MInstallSnapshotResponse r) -> n_next_rpc_id s + 7 <= u64_max ->
  exists s', handled (handle_install_snapshot_response from r) s s' /\ leads_on s s'.
Proof.
  intros H (_ & Hoff) Hrpc. apply exists_get. cbv zeta.
  destruct (negb (bool_decide (n_role s = leader)) || _) eqn:Eg; [by apply idle|].
  apply orb_false_iff in Eg as [Er _]. apply negb_false_iff, bool_decide_eq_true in Er.
  destruct (n_peer_progress s !! from) as [p|] eqn:Ep; [|by apply idle].
  destruct (n_durable_snapshot s) as [d|] eqn:Ed; [|by apply idle].
  destruct (_ || _) eqn:Es; [by apply idle|].
  apply orb_false_iff in Es as [_ Es]. apply negb_false_iff, Z.eqb_eq in Es.
  destruct (List.find _ (pp_recent_snapshot_rpcs p)) as [rpc|] eqn:Ef; [|by apply idle].
  pose proof (inv_role _ H) as Hrole. unfold RoleOk in Hrole. rewrite Er, Ed in Hrole.
  destruct Hrole as (_ & _ & _ & Hlast & _ & Hall). pose proof (Hall _ _ Ep) as Hpo.
  pose proof Hpo as [Hm Hn Hnl Hnew _ _ Ho _ Hsl Hsr].
  apply find_some in Ef as [Ein _]. apply list_elem_of_In in Ein.
  pose proof Hsr as Hsr'. rewrite Forall_forall in Hsr'.
  destruct (Hsr' _ Ein) as (_ & _ & Hse & ? & [= <-] & Hend).
  assert (forall offset, 0 <= offset <= size_of (sm_state_machine d) ->
    exists s', handled (put_progress from (mkPeerProgress (pp_next_index p) (pp_match_index p)
      (pp_newest_rpc_id p) (pp_newest_rpc_last_index p) (pp_recent_rpcs p) (pp_snapshot_index p) offset
      (erase_first (fun sent => (sr_rpc_id sent =? insr_rpc_id r) &&
         (sr_snapshot_index sent =? insr_last_included_index r)) (pp_recent_snapshot_rpcs p))) ;;
      send_append_entries from) s s' /\ leads_on s s') as Hresume.
  { intros offset Hoffs. apply retry_handled; try done; [lia|]. rewrite Ed.
    apply ProgressOk_offset; try done; [apply erase_first_len|by apply erase_first_Forall]. }
  destruct (negb (insr_success r)).
  { destruct (_ || (sr_end rpc <? insr_next_offset r)) eqn:Eo; [by apply idle|].
    apply orb_false_iff in Eo as [_ Eo%Z.ltb_ge]. apply Hresume. unfold is_u64 in *. lia. }
  destruct (negb _); [by apply idle|].
  destruct (Z.leb_spec (sr_end rpc) (pp_snapshot_offset p)); [by apply idle|].
  destruct (negb _); [by apply idle|].
  destruct (_ <? _); [apply Hresume; lia|].
  apply retry_handled; try done; [lia|]. rewrite Ed.
  pose proof (inv_snapshot _ H) as Hsn. rewrite Ed in Hsn. pose proof (inv_commit _ H).
  pose proof (LogInv_base _ _ (inv_log _ H)) as Hb0. rewrite <- base_index_of in Hb0.
  rewrite u64_small by (unfold is_u64, u64_max in *; lia).
  constructor; progress_simpl; try done; try lia; constructor.
Qed.
End Handlers.
