(* ===== verification/RaftSafety.v ===== *)
(** * The public operations of a Raft node

    [RaftNode]'s constructor and its operations [advance_time], [step],
    [propose], [read_barrier] and [compact] over whole executions: they return
    normally or refuse for a named reason, [verify_invariants] never throws, and
    hard state, commitment, persistence and application behave as Raft needs. *)

From S2P Require Import Prelude RaftTypes RaftNode RaftInvariant RaftStep RaftHandlers.

(** The next check of a validation passes. *)
Ltac passes E :=
  match goal with |- (if ?b then _ else _) = _ -> _ => destruct b eqn:E; [done|] end.

Section Public.
Context {RNG : UniformRandom}.

Lemma Inv_actions a s : Inv s -> Inv (set_actions a s).
Proof. intros H. by destruct H. Qed.

Lemma finish_eq s : Inv s -> finish s = (set_actions [] s, Ok (n_actions s)).
Proof. intros H. unfold finish, verify_invariants. run. by rewrite invariants_hold_true. Qed.

(** A public operation that returns [acts]. *)
Definition performs (m : M Impl Actions) (s : Impl) (acts : Actions) (s' : Impl) : Prop :=
  m s = (s', Ok acts) /\ Inv s' /\ Step (set_actions [] s) acts (set_actions acts s') /\
  Msgs (Speaks s') acts.

Lemma performs_body (m : M Impl unit) s s1 :
  handled m (set_actions [] s) s1 ->
  performs (modify (set_actions []) ;; m ;; finish) s (n_actions s1) (set_actions [] s1).
Proof.
  intros (new & (E & I & HS) & HM). pose proof (st_actions _ _ _ HS) as Ha.
  cbn [app] in Ha. change (n_actions (set_actions [] s)) with (@nil Action) in Ha. cbn [app] in Ha.
  split_and!.
  - unfold bind, modify. rewrite E. by rewrite finish_eq.
  - by apply Inv_actions.
  - subst new. exact HS.
  - rewrite Ha. eapply Msgs_impl; [|exact HM]. intros to m'. apply Speaks_actions.
Qed.

(** Room below the 64-bit limits: for an entry, and for one round of requests. *)
Record Room (s : Impl) : Prop := {
  room_log : last_log_index s + 1 < u64_max;
  room_rpc : n_next_rpc_id s + 7 <= u64_max;
}.

(** ** [step] *)

Lemma answers_handled m s from r :
  answers m s from r ->
  exists s', handled m s s' /\ n_current_term s' = n_current_term s.
Proof.
  intros (new & resp & s' & R & Hs & Ht & _ & Ht' & _ & Hok). exists s'. split; [|done].
  eexists. split; [exact R|]. apply Msgs_app; [by apply Silent_Msgs|].
  constructor; [|constructor]. split; [done|]. intros E. rewrite E in Hok.
  destruct Hok as ((_ & _ & Hlast) & _ & -> & _). done.
Qed.

Lemma handle_handled from m s :
  Inv s -> Room s -> from ∈ cfg_voters (n_config s) -> from <> self_id s -> message_typed m ->
  message_term m <= n_current_term s ->
  exists s', handled (handle from m) s s' /\ n_current_term s' = n_current_term s.
Proof.
  intros H [Hlog Hrpc] Hin Hne Hm Ht. destruct m as [r|r|r|r|r|r]; cbn [handle].
  - by apply handle_request_vote_handled.
  - destruct (handle_request_vote_response_handled from r s H Hin Hlog Hrpc) as (s' & ? & ? & _). eauto.
  - by apply (answers_handled _ _ from r), handle_append_entries_answers.
  - destruct (handle_append_entries_response_handled from r s H Hm Hrpc) as (s' & ? & ? & _). eauto.
  - destruct (handle_install_snapshot_handled from r s H Hin Hm Ht) as (s' & ? & ? & _). eauto.
  - destruct (handle_install_snapshot_response_handled from r s H Hm Hrpc) as (s' & ? & ? & _). eauto.
Qed.

Lemma incoming_leader_voter from m v s :
  from ∈ cfg_voters (n_config s) -> incoming_leader from m = Some v -> v ∈ cfg_voters (n_config s).
Proof. intros Hin. destruct m; cbn; try done; case_match; naive_solver. Qed.

(** A message of a higher term first makes the node a follower of that term. *)
Lemma enter_term from m s :
  Inv s -> from ∈ cfg_voters (n_config s) -> message_term m <= u64_max ->
  exists n1 s1, runs (when (n_current_term s <? message_term m)
      (become_follower (message_term m) (incoming_leader from m))) s tt n1 s1 /\ Silent n1 /\
    n_current_term s1 = Z.max (n_current_term s) (message_term m) /\ n_log s1 = n_log s /\
    n_config s1 = n_config s /\ n_commit_index s1 = n_commit_index s /\
    n_next_rpc_id s1 = n_next_rpc_id s /\
    (n_current_term s < message_term m -> n_role s1 = follower /\ n_voted_for s1 = None) /\
    (message_term m <= n_current_term s -> s1 = s).
Proof.
  intros H Hin Ht. destruct (Z.ltb_spec (n_current_term s) (message_term m)) as [Hlt|Hge]; cbn [when].
  - destruct (become_follower_runs (message_term m) (incoming_leader from m) s H Ht) as
      (n1 & s1 & R & Hs & Hr & _ & Htm & Hl & Hc & Hci & _ & Hrpc & _ & _ & Hv).
    { intros v. by apply incoming_leader_voter. }
    rewrite (proj2 (Z.ltb_lt _ _)) in Hv by done.
    exists n1, s1. split_and!; done || lia.
  - exists [], s. split_and!; try done; try lia; [by apply runs_ret|constructor].
Qed.

Lemma message_term_range m : message_typed m -> message_term m <= u64_max.
Proof.
  assert (forall x, is_u64 x -> x <= u64_max) as Hx by (unfold is_u64, u64_max; lia).
  destruct m; cbn; intros Hm; apply Hx; tauto.
Qed.

Lemma Impl_step_handled from m s :
  Inv s -> Room s -> message_typed m -> exists s', handled (Impl_step from m) s s' /\
    (from ∈ cfg_voters (n_config s) -> from <> self_id s ->
     n_current_term s' = Z.max (n_current_term s) (message_term m)).
Proof.
  intros H Hroom Hm. unfold Impl_step.
  destruct (bool_decide (from = self_id s) || negb (is_voter s from)) eqn:Eg.
  { exists s. split; [apply handled_get; rewrite Eg; by apply handled_ret|].
    intros Hin Hne. apply orb_true_iff in Eg as [Eg|Eg].
    - by apply bool_decide_eq_true in Eg.
    - apply negb_true_iff, bool_decide_eq_false in Eg. done. }
  apply orb_false_iff in Eg as [Hne%bool_decide_eq_false Hin%negb_false_iff%bool_decide_eq_true].
  destruct (enter_term from m s H Hin (message_term_range m Hm)) as
    (n1 & s1 & R & Hs & Ht & Hl & Hc & _ & Hrpc & _).
  destruct (handle_handled from m s1) as (s' & Hh & Ht'); try done.
  - apply R.
  - destruct Hroom as [H1 H2]. constructor; [|by rewrite Hrpc]. by rewrite last_log_index_of, Hl.
  - by rewrite Hc.
  - unfold self_id. by rewrite Hc.
  - lia.
  - exists s'. split; [|intros; lia]. apply handled_get.
    rewrite bool_decide_eq_false_2 by done. unfold is_voter. rewrite bool_decide_eq_true_2 by done.
    cbn [negb orb]. by eapply handled_bind.
Qed.

Lemma step_performs from m s :
  Inv s -> Room s -> message_typed m -> exists acts s', performs (RaftNode_step from m) s acts s' /\
    (from ∈ cfg_voters (n_config s) -> from <> self_id s ->
     n_current_term s' = Z.max (n_current_term s) (message_term m)).
Proof.
  intros H Hroom Hm.
  destruct (Impl_step_handled from m (set_actions [] s)) as (s1 & Hh & Ht);
    [by apply Inv_actions|by destruct Hroom|done|].
  exists (n_actions s1), (set_actions [] s1). split; [by apply performs_body|exact Ht].
Qed.

(** ** [advance_time] *)

Lemma performs_from (m : M Impl Actions) (body : M Impl unit) s s0 s1 :
  m s = (body ;; finish) s0 -> Step (set_actions [] s) [] s0 -> handled body s0 s1 ->
  performs m s (n_actions s1) (set_actions [] s1).
Proof.
  intros Em S0 (new & (E & I & HS) & HM). pose proof (Step_trans _ _ _ _ _ S0 HS) as S1.
  cbn [app] in S1. assert (n_actions s1 = new) as Ha by apply (st_actions _ _ _ S1).
  subst new. split_and!.
  - rewrite Em. unfold bind. rewrite E. by rewrite finish_eq.
  - by apply Inv_actions.
  - exact S1.
  - eapply Msgs_impl; [|exact HM]. intros to m'. apply Speaks_actions.
Qed.

Lemma tick_Step t s : Inv s -> Step (set_actions [] s) [] (set_actions [] (set_now t s)).
Proof. intros H. by apply Step_inert; node_simpl; [by apply Inv_actions|..]; try done; congruence. Qed.

Lemma tick_Inv t s : Inv s -> Inv (set_actions [] (set_now t s)).
Proof. intros H. by destruct H. Qed.

Lemma heartbeat_handled t s :
  Inv s -> Room s -> n_role s = leader ->
  exists s', handled (broadcast_append_entries ;;
      modify (fun s => set_heartbeat_deadline
        (saturating_add t (cfg_heartbeat_interval (n_config s))) s)) s s' /\ leads_on s s'.
Proof.
  intros H [_ Hrpc] Hr. destruct (broadcast_runs s H Hr Hrpc) as (new & s1 & R & HS & HM).
  destruct (Sends_frame _ _ HS) as (_ & ? & ? & ? & _ & ?).
  set (h := saturating_add t (cfg_heartbeat_interval (n_config s1))).
  exists (set_heartbeat_deadline h s1). split; [|done]. exists new.
  destruct R as (E & I & S1). split; [split_and!|].
  - unfold bind. by rewrite E.
  - by destruct I.
  - rewrite <- (app_nil_r new). eapply Step_trans; [exact S1|].
    apply Step_inert; node_simpl; try done; [by rewrite app_nil_r|congruence].
  - eapply Msgs_impl; [|exact HM]. intros to m. by apply Speaks_same.
Qed.

Lemma advance_time_performs t s :
  Inv s -> Room s -> n_now s <= t -> n_current_term s < u64_max ->
  exists acts s', performs (RaftNode_advance_time t) s acts s' /\
    n_current_term s' =
      (if negb (bool_decide (n_role s = leader)) && (n_election_deadline s <=? t)
       then n_current_term s + 1 else n_current_term s).
Proof.
  intros H Hroom Hnow Hterm. set (s0 := set_actions [] (set_now t s)).
  pose proof (tick_Step t s H) as S0. pose proof (tick_Inv t s H) as I0. fold s0 in S0, I0.
  assert (forall body, (if negb (bool_decide (n_role s = leader)) && (n_election_deadline s <=? t)
     then start_election
     else when (bool_decide (n_role s = leader) && (n_heartbeat_deadline s <=? t))
       (broadcast_append_entries ;;
        modify (fun s => set_heartbeat_deadline
          (saturating_add t (cfg_heartbeat_interval (n_config s))) s))) = body ->
     RaftNode_advance_time t s = (body ;; finish) s0) as Em.
  { intros body <-. unfold RaftNode_advance_time. unfold bind at 1, get.
    by rewrite (proj2 (Z.ltb_ge _ _)) by lia. }
  destruct Hroom as [Hlog Hrpc].
  destruct (negb (bool_decide (n_role s = leader)) && (n_election_deadline s <=? t)) eqn:Ee.
  - apply andb_true_iff in Ee as [Er _]. apply negb_true_iff, bool_decide_eq_false in Er.
    destruct (start_election_runs s0 I0 Er Hterm Hlog Hrpc) as (new & s1 & R & HM & Ht & _).
    exists (n_actions s1), (set_actions [] s1). split; [|exact Ht].
    eapply performs_from; [by apply Em|exact S0|by exists new].
  - destruct (bool_decide (n_role s = leader) && (n_heartbeat_deadline s <=? t)) eqn:Eh; cbn [when] in Em.
    + apply andb_true_iff in Eh as [Er%bool_decide_eq_true _].
      destruct (heartbeat_handled t s0 I0) as (s1 & Hh & Hlo); [done|done|].
      exists (n_actions s1), (set_actions [] s1). split; [|apply Hlo].
      eapply performs_from; [by apply Em|exact S0|exact Hh].
    + exists (n_actions s0), (set_actions [] s0). split; [|done].
      eapply performs_from; [by apply Em|exact S0|by apply handled_ret].
Qed.

(** ** [propose] and [read_barrier] *)

Lemma submit_performs kind cmd s :
  Inv s -> Room s -> exists acts s', performs (submit_entry kind cmd) s acts s' /\
    n_current_term s' = n_current_term s /\
    (if decide (n_role s = leader)
     then n_log s' = n_log s ++ [mkLogEntry (last_log_index s + 1) (n_current_term s) kind cmd]
     else acts = [ProposalRejected (n_leader_id s)] /\ n_log s' = n_log s).
Proof.
  intros H [Hlog Hrpc]. set (s0 := set_actions [] s). pose proof (Inv_actions [] s H) as I0. fold s0 in I0.
  destruct (decide (n_role s = leader)) as [Hr|Hr].
  - pose proof (append_local_entry_runs kind cmd s0 I0 Hr Hlog) as R1. cbv zeta in R1.
    match type of R1 with runs _ _ _ _ ?x => set (s1 := x) in * end.
    destruct (advance_leader_commit_runs s1 (proj1 (proj2 R1))) as (b & c & n2 & Hs2 & R2 & _).
    match type of R2 with runs _ _ _ _ ?x => set (s2 := x) in * end.
    destruct (broadcast_runs s2 (proj1 (proj2 R2)) Hr Hrpc) as (n3 & s3 & R3 & HS & HM).
    destruct (Sends_frame _ _ HS) as (_ & _ & Ht3 & Hl3 & _).
    exists (n_actions s3), (set_actions [] s3). split_and!; [|exact Ht3|exact Hl3].
    apply (performs_body (let* s := get in if negb (bool_decide (n_role s = leader))
      then push_action (ProposalRejected (n_leader_id s))
      else append_local_entry kind cmd ;; advance_leader_commit ;; broadcast_append_entries)).
    apply handled_get. change (n_role (set_actions [] s)) with (n_role s).
    rewrite bool_decide_eq_true_2 by done. cbn [negb].
    eapply handled_bind; [exact R1|by repeat constructor|].
    eapply handled_bind'; [exact R2|done|]. by exists n3.
  - exists [ProposalRejected (n_leader_id s)], s0. split_and!; [|done..].
    apply (performs_body (let* s := get in if negb (bool_decide (n_role s = leader))
      then push_action (ProposalRejected (n_leader_id s))
      else append_local_entry kind cmd ;; advance_leader_commit ;; broadcast_append_entries)
      s (set_actions [ProposalRejected (n_leader_id s)] s)).
    apply handled_get. change (n_role (set_actions [] s)) with (n_role s).
    rewrite bool_decide_eq_false_2 by done. cbn [negb].
    by apply (handled_push s0 (ProposalRejected (n_leader_id s))).
Qed.

(** ** [compact] *)

(** A snapshot [compact] accepts: it covers applied entries beyond the current
    one, and its term is the log's at its boundary. *)
Definition compactable (s : Impl) (d : StateMachineSnapshot) : Prop :=
  base_index s < sm_last_included_index d <= n_last_applied s /\
  sm_last_included_index d < u64_max /\
  term_at (n_log s) (sm_last_included_index d) = Some (sm_last_included_term d).

Definition compacted (s : Impl) (d : StateMachineSnapshot) : Impl :=
  set_actions [PersistSnapshot d]
    (set_peer_progress (restart_transfer (sm_last_included_index d) <$> n_peer_progress s)
      (set_durable_snapshot (Some d) (set_log (installed_log s d) s))).

Lemma compactable_entry s d :
  Inv s -> compactable s d ->
  exists e, n_log s !! Z.to_nat (sm_last_included_index d - base_index s) = Some e /\
    le_term e = sm_last_included_term d /\ 1 <= le_term e /\
    uncovered s d = drop (Z.to_nat (sm_last_included_index d - base_index s + 1)) (n_log s).
Proof.
  intros H (Hi & _ & Ht). unfold term_at, log_at in Ht. rewrite <- base_index_of in Ht.
  rewrite (proj2 (Z.ltb_ge _ _)) in Ht by lia.
  destruct (n_log s !! _) as [e|] eqn:Ee; [|done]. injection Ht as Ht.
  exists e. split_and!; [done|done| |].
  - eapply (li_positive _ _ (inv_log _ H)); [|exact Ee]. lia.
  - unfold uncovered. by rewrite Ee, Ht, Z.eqb_refl.
Qed.

Lemma installed_log_last s d :
  Inv s -> compactable s d -> last_of (installed_log s d) = last_log_index s.
Proof.
  intros H Hc. destruct (compactable_entry s d H Hc) as (e & He & Ht & Hpos & Hu).
  pose proof (inv_log _ H) as Hl. pose proof (lookup_lt_Some _ _ _ He) as Hlt.
  destruct Hc as (Hi & Hmax & _). pose proof (li_bound _ _ Hl _ _ He).
  rewrite (LogInv_last (n_current_term s)) by (apply installed_log_Inv; [done|lia|lia]).
  rewrite last_log_index_of, (LogInv_last _ _ Hl), <- base_index_of. unfold installed_log.
  rewrite Hu. cbn [length base_of]. rewrite length_drop. cbn. lia.
Qed.

Lemma compacted_Inv s d : Inv s -> compactable s d -> Inv (compacted s d).
Proof.
  intros H Hc. pose proof (installed_log_last s d H Hc) as Hlast.
  destruct (compactable_entry s d H Hc) as (e & He & Ht & Hpos & Hu).
  destruct Hc as (Hi & Hmax & _). pose proof (inv_applied _ H). pose proof (inv_commit _ H) as Hci.
  pose proof (li_bound _ _ (inv_log _ H) _ _ He).
  pose proof (LogInv_base _ _ (inv_log _ H)) as Hb. rewrite <- base_index_of in Hb.
  pose proof (installed_log_Inv s d H ltac:(lia) ltac:(lia)) as Hl'.
  pose proof (inv_role _ H) as Hrole. destruct H. constructor; unfold compacted; node_simpl; try done.
  - split_and!; [done..|]. change (sm_last_included_index d <> 0). lia.
  - change (sm_last_included_index d <= n_commit_index s <= last_of (installed_log s d)). lia.
  - unfold RoleOk in *; node_simpl. destruct (n_role s).
    + by rewrite Hrole, fmap_empty.
    + destruct Hrole as (-> & ? & ?). rewrite fmap_empty. done.
    + destruct Hrole as (R1 & R2 & R3 & R4 & Hdom & Hall).
      change (last_log_index (set_actions _ _)) with (last_of (installed_log s d)).
      rewrite Hlast. split_and!; try done.
      * intros peer. rewrite lookup_fmap, fmap_is_Some. apply Hdom.
      * intros q x Hx. rewrite lookup_fmap in Hx. apply fmap_Some in Hx as (p & Hp & ->).
        destruct (Hall q p Hp). unfold restart_transfer.
        constructor; progress_simpl; try done; try lia.
        right. exists d. split_and!; [done..|apply size_of_nonneg].
Qed.

Lemma compacted_Step s d :
  Inv s -> compactable s d -> Step (set_actions [] s) [PersistSnapshot d] (compacted s d).
Proof.
  intros H Hc. pose proof (installed_log_last s d H Hc) as Hlast.
  destruct (compactable_entry s d H Hc) as (e & He & Ht & Hpos & Hu).
  destruct Hc as (Hi & Hmax & _). unfold compacted.
  assert (forall n, agree_upto n (n_log s) (installed_log s d)) as Hag.
  { intros n. unfold installed_log. rewrite Hu, <- Ht. apply agree_upto_compact; [|done].
    rewrite <- base_index_of. lia. }
  step_fields.
  - change (base_index s <= sm_last_included_index d). lia.
  - intros _ _ _. split; [|apply Hag].
    change (last_log_index s <= last_of (installed_log s d)). lia.
  - cbn [replay foldl].
    change (persistent_of (set_actions [] s)) with (persistent_of s).
    rewrite installed_log_persist by (done || lia). done.
  - intros x Hx. exfalso. set_solver.
  - pose proof (inv_term _ H). pose proof (li_bound _ _ (inv_log _ H) _ _ He).
    pose proof (LogInv_base _ _ (inv_log _ H)) as Hb. rewrite <- base_index_of in Hb.
    cbn. unfold is_u64, u64_max in *. split_and!; try done; lia.
Qed.

Lemma compact_performs d s :
  Inv s -> compactable s d ->
  performs (RaftNode_compact d) s [PersistSnapshot d] (set_actions [] (compacted s d)).
Proof.
  intros H Hc. pose proof (compacted_Inv s d H Hc) as Hinv.
  split_and!; [|by apply Inv_actions|by apply compacted_Step|by repeat constructor].
  destruct (compactable_entry s d H Hc) as (e & He & Ht & Hpos & Hu). destruct Hc as (Hi & Hmax & _).
  pose proof (inv_commit _ H). pose proof (inv_applied _ H).
  destruct (entry_at_ok _ (set_actions [] s) (sm_last_included_index d) (inv_log _ H)) as (e' & Ee & He' & _).
  { change (base_index s <= sm_last_included_index d <= last_log_index s). lia. }
  change (base_index (set_actions [] s)) with (base_index s) in He'. node_simpl_in He'.
  rewrite He in He'. injection He' as <-.
  unfold RaftNode_compact. unfold bind at 1, modify. unfold bind at 1, get. node_simpl.
  change (base_index (set_actions [] s)) with (base_index s).
  rewrite (proj2 (Z.eqb_neq _ _)), (proj2 (Z.leb_gt _ _)), (proj2 (Z.ltb_ge _ _)) by lia. cbn [orb].
  unfold bind at 1. rewrite Ee, Ht, Z.eqb_refl. cbn [negb]. run.
  rewrite <- Hu. rewrite finish_eq; [done|exact Hinv].
Qed.

Lemma compact_refused d s :
  Inv s -> ~ compactable s d ->
  RaftNode_compact d s = (set_actions [] s, Throw invalid_argument).
Proof.
  intros H Hno. unfold RaftNode_compact. unfold bind at 1, modify. unfold bind at 1, get. node_simpl.
  change (base_index (set_actions [] s)) with (base_index s).
  destruct (_ || _) eqn:Eg; [done|].
  rewrite !orb_false_iff, Z.eqb_neq, Z.leb_gt, Z.ltb_ge in Eg. destruct Eg as ((Hm & Hb) & Ha).
  pose proof (inv_commit _ H). pose proof (inv_applied _ H). pose proof (li_max _ _ (inv_log _ H)) as Hlast.
  rewrite <- last_log_index_of in Hlast.
  destruct (entry_at_ok _ (set_actions [] s) (sm_last_included_index d) (inv_log _ H)) as (e & Ee & He & _).
  { change (base_index s <= sm_last_included_index d <= last_log_index s). lia. }
  unfold bind at 1. rewrite Ee. destruct (Z.eqb_spec (le_term e) (sm_last_included_term d)) as [Et|]; [|done].
  exfalso. apply Hno. split_and!; [lia..|].
  unfold term_at, log_at. rewrite <- base_index_of, (proj2 (Z.ltb_ge _ _)) by lia.
  change (n_log (set_actions [] s)) with (n_log s) in He.
  change (base_index (set_actions [] s)) with (base_index s) in He. rewrite He. cbn. by rewrite Et.
Qed.

(** ** The constructor *)

Lemma voters_unique_spec u l :
  voters_unique u l = true <-> NoDup l /\ (forall v, v ∈ l -> v <> 0 /\ v ∉ u).
Proof.
  revert u. induction l as [|v l IH]; intros u; cbn [voters_unique].
  { split; [intros _; split; [constructor|set_solver]|done]. }
  destruct (Z.eqb_spec v 0) as [->|Hz]; cbn [orb].
  { split; [done|]. intros [_ Hx]. by destruct (Hx 0) as [? _]; [left|]. }
  case_bool_decide as Hu.
  { split; [done|]. intros [_ Hx]. by destruct (Hx v) as [_ ?]; [left|]. }
  rewrite IH, NoDup_cons. split.
  - intros [Hnd Hx]. split; [split; [|done]|].
    + intros Hv. destruct (Hx v Hv) as [_ Hn]. set_solver.
    + intros w [->|Hw]%elem_of_cons; [done|]. destruct (Hx w Hw). set_solver.
  - intros [[Hv Hnd] Hx]. split; [done|]. intros w Hw.
    destruct (Hx w) as [? ?]; [by right|]. split; [done|].
    rewrite elem_of_union, elem_of_singleton. intros [->|?]; done.
Qed.

(** Sizes and durations of a configuration are unsigned. *)
Definition config_typed (c : RaftConfig) : Prop :=
  0 <= cfg_max_append_entries c /\ 0 <= cfg_election_timeout_min c.

Lemma validate_raft_config_ConfigOk c :
  config_typed c -> validate_raft_config c = Ok tt -> ConfigOk c.
Proof.
  intros [Hme Hmin]. unfold validate_raft_config. cbv zeta.
  passes E1. passes E2. passes E3. passes E4. passes E5. passes E6. intros _.
  rewrite !orb_false_iff, !Z.eqb_neq in *.
  apply negb_false_iff, voters_unique_spec in E2. apply negb_false_iff, bool_decide_eq_true in E3.
  pose proof (size_of_nonneg (cfg_voters c)).
  constructor; [apply E2|done|lia|lia|lia].
Qed.

Lemma persistent_log_valid_chained T next mint l :
  1 <= next -> next + size_of l - 1 <= u64_max -> 0 <= mint ->
  persistent_log_valid T (u64 next) mint l = true <-> chained T next mint l.
Proof.
  unfold size_of. revert next mint. induction l as [|e l IH]; intros next mint Hn Hmax Hmin.
  { split; [|done]. intros _. split_and!; try done. }
  cbn [persistent_log_valid]. cbn [length] in Hmax.
  rewrite (u64_small next) by (unfold is_u64, u64_max in *; lia).
  destruct (_ || _) eqn:Eg.
  - split; [done|]. intros (H1 & H2 & _). exfalso. specialize (H1 0%nat e eq_refl).
    specialize (H2 0%nat e eq_refl). rewrite !orb_true_iff, negb_true_iff, Z.eqb_neq, Z.eqb_eq, !Z.ltb_lt in Eg. lia.
  - rewrite !orb_false_iff, negb_false_iff, !Z.ltb_ge, Z.eqb_eq, Z.eqb_neq in Eg. rewrite IH by lia. split.
    + intros Hch. apply chained_cons; [lia|lia|done].
    + intros (H1 & H2 & H3 & H4). split_and!.
      * intros k x Hk. rewrite (H1 (S k) x Hk). lia.
      * intros k x Hk. pose proof (H2 (S k) x Hk).
        pose proof (H3 0%nat (S k) e x ltac:(lia) eq_refl Hk). lia.
      * intros j k x y Hjk Hj Hk. by apply (H3 (S j) (S k)); [lia|..].
      * cbn [length] in H4. lia.
Qed.

(** A persistent state of 64-bit fields, with its log below the index limit. *)
Definition persistent_typed (p : RaftPersistentState) : Prop :=
  0 <= ps_current_term p <= u64_max /\
  0 <= snapshot_index_of (ps_snapshot p) <= u64_max /\ 0 <= snapshot_term_of (ps_snapshot p) /\
  snapshot_index_of (ps_snapshot p) + size_of (ps_log p) <= u64_max.

Lemma persistent_log_Inv c p :
  persistent_typed p -> validate_persistent_state c p = Ok tt ->
  LogInv (ps_current_term p)
    (sentinel (snapshot_index_of (ps_snapshot p)) (snapshot_term_of (ps_snapshot p)) :: ps_log p).
Proof.
  intros (Ht & Hi & Hst & Hroom). unfold validate_persistent_state. cbv zeta.
  passes E1. passes E2. passes E3. destruct (persistent_log_valid _ _ _ _) eqn:E4; [|done]. intros _.
  apply persistent_log_valid_chained in E4; [|lia|lia|done].
  set (i := snapshot_index_of (ps_snapshot p)) in *. set (t := snapshot_term_of (ps_snapshot p)) in *.
  assert (i < u64_max /\ (i = 0 <-> t = 0) /\ t <= ps_current_term p) as (Hmax & Hz & Htt).
  { destruct (ps_snapshot p) as [d|]; [|cbn in i, t; unfold u64_max; subst i t; lia].
    rewrite bool_decide_eq_true_2 in E3 by eauto. cbn [andb] in E3.
    rewrite !orb_false_iff, !Z.eqb_neq, Z.ltb_ge in E3. lia. }
  change (LogInv (ps_current_term p) ([sentinel i t] ++ ps_log p)). apply LogInv_extend; [|exact E4].
  constructor.
  - exists i, t, []. split_and!; done || lia.
  - intros k e Hk. apply list_lookup_singleton_Some in Hk as [-> <-]. cbn. lia.
  - intros j k e e' _ Hj Hk. apply list_lookup_singleton_Some in Hj as [-> <-].
    by apply list_lookup_singleton_Some in Hk as [-> <-].
  - intros k e Hk. apply list_lookup_singleton_Some in Hk as [-> <-]. done.
  - intros k e Hk0 Hk. apply list_lookup_singleton_Some in Hk as [-> <-]. lia.
  - cbn. lia.
Qed.

Lemma create_ok c p t :
  config_typed c -> persistent_typed p ->
  validate_raft_config c = Ok tt -> validate_persistent_state c p = Ok tt ->
  exists s, RaftNode_create c p t = Ok s /\ Inv s /\ persistent_of s = p /\ n_config s = c /\
    n_role s = follower /\ n_commit_index s = snapshot_index_of (ps_snapshot p) /\ n_actions s = [].
Proof.
  intros Hct Hpt Hc Hp. unfold RaftNode_create. rewrite Hc, Hp. cbv zeta.
  match goal with |- context [(reset_election_deadline ;; verify_invariants) ?x] => set (s0 := x) end.
  destruct (reset_election_deadline_eq s0) as (d & g & E).
  pose proof (persistent_log_Inv c p Hpt Hp) as Hl.
  set (s1 := set_election_deadline d (set_random g s0)) in *.
  assert (Inv s1) as HI.
  { pose proof (validate_raft_config_ConfigOk c Hct Hc) as Hcok.
    destruct Hpt as (Ht & Hi & Hst & Hroom).
    revert Hp. unfold validate_persistent_state. cbv zeta. passes E1. passes E2. passes E3. intros _.
    pose proof (LogInv_last _ _ Hl) as Hlast. cbn [length base_of] in Hlast.
    constructor; unfold s1, s0; node_simpl; try done.
    - unfold base_index, log_front; cbn. destruct (ps_snapshot p) as [x|]; cbn; [|done].
      rewrite bool_decide_eq_true_2 in E3 by eauto. cbn [andb] in E3.
      rewrite !orb_false_iff, !Z.eqb_neq in E3. tauto.
    - rewrite last_log_index_of, base_index_of. node_simpl. split; [done|].
      rewrite (LogInv_last _ _ Hl). cbn. lia.
    - intros v Hv. rewrite Hv in E1, E2. apply negb_false_iff, bool_decide_eq_true in E2.
      split; [done|]. rewrite bool_decide_eq_true_2, andb_true_r in E1 by eauto.
      apply Z.eqb_neq in E1. lia. }
  exists s1. split_and!; try done.
  - unfold bind. rewrite E. fold s1. unfold verify_invariants. run. by rewrite (invariants_hold_true s1 HI).
  - by destruct p.
Qed.

Lemma create_Inv c p t s :
  config_typed c -> persistent_typed p -> RaftNode_create c p t = Ok s ->
  Inv s /\ persistent_of s = p /\ n_config s = c /\ n_role s = follower /\
  n_commit_index s = snapshot_index_of (ps_snapshot p) /\ n_actions s = [] /\
  validate_raft_config c = Ok tt /\ validate_persistent_state c p = Ok tt.
Proof.
  intros Hc Hp E. pose proof E as E'. unfold RaftNode_create in E'.
  destruct (validate_raft_config c) as [[]|] eqn:Ec; [|done].
  destruct (validate_persistent_state c p) as [[]|] eqn:Ep; [|done].
  destruct (create_ok c p t Hc Hp Ec Ep) as (s' & E2 & ? & ? & ? & ? & ? & ?).
  rewrite E in E2. injection E2 as <-. split_and!; done.
Qed.

(** The entries behind the sentinel. *)
Lemma LogInv_chained T l :
  LogInv T l ->
  chained T (base_of l + 1) (le_term (default default_entry (head l))) (tail l).
Proof.
  intros H. pose proof (li_max _ _ H) as Hmax. rewrite (LogInv_last _ _ H) in Hmax.
  destruct (li_sentinel _ _ H) as (i & t & rest & El & _). rewrite El in *.
  cbn [length tail head default] in *. split_and!.
  - intros k e Hk. rewrite (li_index _ _ H (S k) e Hk). lia.
  - intros k e Hk. pose proof (li_sorted _ _ H 0%nat (S k) _ e ltac:(lia) eq_refl Hk).
    pose proof (li_bound _ _ H (S k) e Hk). pose proof (li_positive _ _ H (S k) e ltac:(lia) Hk).
    cbn in *. lia.
  - intros j k e e' Hjk Hj Hk. by apply (li_sorted _ _ H (S j) (S k)); [lia|..].
  - lia.
Qed.

(** What a node has persisted is always accepted by a restart. *)
Lemma persistent_of_valid s :
  Inv s -> validate_persistent_state (n_config s) (persistent_of s) = Ok tt /\
    persistent_typed (persistent_of s).
Proof.
  intros H. pose proof (inv_log _ H) as Hl. pose proof (inv_snapshot _ H) as Hsn.
  pose proof (inv_voted _ H) as Hv. pose proof (inv_term _ H) as Ht.
  pose proof (li_max _ _ Hl) as Hmax. rewrite (LogInv_last _ _ Hl) in Hmax.
  pose proof (LogInv_chained _ _ Hl) as Hch. pose proof (li_bound _ _ Hl 0%nat) as Hbound.
  destruct (li_sentinel _ _ Hl) as (i & t & rest & El & Hi & Hti & Hz).
  assert (snapshot_index_of (n_durable_snapshot s) = i /\
    snapshot_term_of (n_durable_snapshot s) = t) as [Hsi Hst].
  { unfold base_index, log_front in Hsn. rewrite El in Hsn. cbn in Hsn.
    destruct (n_durable_snapshot s); cbn; naive_solver. }
  rewrite El in *. cbn [base_of head default length tail] in *. specialize (Hbound _ eq_refl).
  cbn in Hbound, Hmax, Hch.
  assert (persistent_typed (persistent_of s)) as Hty.
  { unfold persistent_typed, persistent_of; cbn. rewrite El, Hsi, Hst. cbn. unfold size_of.
    split_and!; lia. }
  split; [|done].
  assert (persistent_log_valid (n_current_term s) (u64 (i + 1)) t rest = true) as E4.
  { apply persistent_log_valid_chained; try done; unfold size_of; lia. }
  assert ((n_current_term s =? 0) && bool_decide (is_Some (n_voted_for s)) = false) as E1.
  { apply andb_false_iff. destruct (n_voted_for s) as [v|]; [left|by right].
    apply Z.eqb_neq. destruct (Hv v eq_refl). lia. }
  assert (match n_voted_for s with
    | Some v => negb (bool_decide (v ∈ cfg_voters (n_config s))) | None => false end = false) as E2.
  { destruct (n_voted_for s) as [v|]; [|done]. rewrite bool_decide_eq_true_2; [done|]. by apply Hv. }
  assert (bool_decide (is_Some (n_durable_snapshot s)) &&
    ((i =? 0) || (t =? 0) || (i =? u64_max) || (n_current_term s <? t)) = false) as E3.
  { destruct (n_durable_snapshot s) as [d|]; [|done]. cbn in Hsi. apply andb_false_iff. right.
    assert (i <> 0) by (unfold base_index, log_front in Hsn; rewrite El in Hsn; cbn in Hsn; lia).
    rewrite !orb_false_iff, !Z.eqb_neq, Z.ltb_ge. lia. }
  unfold validate_persistent_state, persistent_of; cbn [ps_current_term ps_voted_for ps_snapshot ps_log].
  rewrite El, Hsi, Hst. cbn [tail]. by rewrite E1, E2, E3, E4.
Qed.

(** ** Executions *)

Inductive Op :=
| OpAdvanceTime (t : LogicalTime)
| OpStep (from : NodeId) (m : Message)
| OpPropose (cmd : list byte)
| OpReadBarrier
| OpCompact (d : StateMachineSnapshot).

Definition perform (op : Op) : M Impl Actions :=
  match op with
  | OpAdvanceTime t => RaftNode_advance_time t
  | OpStep from m => RaftNode_step from m
  | OpPropose cmd => RaftNode_propose cmd
  | OpReadBarrier => RaftNode_read_barrier
  | OpCompact d => RaftNode_compact d
  end.

(** Arguments of the C++ types, below the 64-bit limits. *)
Definition op_typed (op : Op) : Prop :=
  match op with
  | OpStep _ m => message_typed m
  | _ => True
  end.

(** The only reasons for which an operation throws. *)
Definition refused (op : Op) (s : Impl) (e : exn) : Prop :=
  match op with
  | OpAdvanceTime t =>
      t < n_now s /\ e = invalid_argument \/ n_current_term s = u64_max /\ e = overflow_error
  | OpCompact d => ~ compactable s d /\ e = invalid_argument
  | _ => False
  end.

Global Instance term_at_dec l i x : Decision (term_at l i = x).
Proof. apply _. Defined.

Global Instance compactable_dec s d : Decision (compactable s d).
Proof. unfold compactable. apply _. Defined.

(** A refused operation leaves what is durable, the role and its bookkeeping alone. *)
Definition untouched (s s' : Impl) : Prop :=
  persistent_of s' = persistent_of s /\ n_role s' = n_role s /\
  n_votes_received s' = n_votes_received s /\
  n_commit_index s' = n_commit_index s /\ n_peer_progress s' = n_peer_progress s.

Lemma advance_time_cases t s :
  Inv s -> Room s -> (exists acts s', performs (RaftNode_advance_time t) s acts s') \/
    exists e s', RaftNode_advance_time t s = (s', Throw e) /\ Inv s' /\
      untouched s s' /\ refused (OpAdvanceTime t) s e /\
      Step (set_actions [] s) [] (set_actions [] s').
Proof.
  intros H Hroom. pose proof (inv_term _ H).
  destruct (Z.lt_ge_cases t (n_now s)) as [Hback|Hnow].
  { right. exists invalid_argument, s. split_and!; try done.
    - unfold RaftNode_advance_time. unfold bind, get. by rewrite (proj2 (Z.ltb_lt _ _)).
    - by left.
    - by apply Step_refl, Inv_actions. }
  destruct (decide (n_current_term s = u64_max)) as [Hmax|Hterm].
  2:{ left. destruct (advance_time_performs t s H Hroom Hnow ltac:(lia)) as (acts & s' & ? & _). eauto. }
  destruct (negb (bool_decide (n_role s = leader)) && (n_election_deadline s <=? t)) eqn:Ee.
  - right. exists overflow_error, (set_actions [] (set_now t s)). split_and!.
    + unfold RaftNode_advance_time. unfold bind at 1, get. rewrite (proj2 (Z.ltb_ge _ _)) by lia.
      run. rewrite Ee. unfold start_election. run. node_simpl. by rewrite Hmax.
    + by apply tick_Inv.
    + done.
    + by right.
    + by apply tick_Step.
  - left. set (s0 := set_actions [] (set_now t s)).
    pose proof (tick_Step t s H) as S0. pose proof (tick_Inv t s H) as I0. fold s0 in S0, I0.
    destruct (bool_decide (n_role s = leader) && (n_heartbeat_deadline s <=? t)) eqn:Eh.
    + pose proof Eh as Eh'. apply andb_true_iff in Eh' as [Er%bool_decide_eq_true _].
      destruct (heartbeat_handled t s0 I0) as (s1 & Hh & Hlo); [by destruct Hroom|done|].
      exists (n_actions s1), (set_actions [] s1). eapply performs_from; [|exact S0|exact Hh].
      unfold RaftNode_advance_time. unfold bind at 1, get. rewrite (proj2 (Z.ltb_ge _ _)) by lia.
      by rewrite Ee, Eh.
    + exists (n_actions s0), (set_actions [] s0).
      eapply performs_from; [|exact S0|by apply handled_ret].
      unfold RaftNode_advance_time. unfold bind at 1, get. rewrite (proj2 (Z.ltb_ge _ _)) by lia.
      by rewrite Ee, Eh.
Qed.

(** Every operation returns its actions or throws for one of those reasons, and
    leaves the node in [Inv] either way. *)
Lemma perform_cases op s :
  Inv s -> Room s -> op_typed op -> (exists acts s', performs (perform op) s acts s') \/
    exists e s', perform op s = (s', Throw e) /\ Inv s' /\
      untouched s s' /\ refused op s e /\
      Step (set_actions [] s) [] (set_actions [] s').
Proof.
  intros H Hroom Hop. destruct op as [t|from m|cmd| |d]; cbn [perform].
  - by apply advance_time_cases.
  - left. destruct (step_performs from m s H Hroom Hop) as (acts & s' & ? & _). eauto.
  - left. destruct (submit_performs command cmd s H Hroom) as (acts & s' & ? & _). eauto.
  - left. destruct (submit_performs no_op [] s H Hroom) as (acts & s' & ? & _). eauto.
  - destruct (decide (compactable s d)) as [Hc|Hc].
    + left. eexists _, _. by apply compact_performs.
    + right. exists invalid_argument, (set_actions [] s). split_and!; try done.
      * by apply compact_refused.
      * by apply Inv_actions.
      * exact (Step_refl (set_actions [] s) (Inv_actions [] s H)).
Qed.

(** A run of operations and the actions it has emitted. *)
Inductive Run (s : Impl) : Actions -> Impl -> Prop :=
| run_start : Run s [] s
| run_op acts s1 op new s2 :
    Run s acts s1 -> Room s1 -> op_typed op -> perform op s1 = (s2, Ok new) ->
    Run s (acts ++ new) s2
| run_refused acts s1 op e s2 :
    Run s acts s1 -> Room s1 -> op_typed op -> perform op s1 = (s2, Throw e) ->
    Run s acts s2.

(** The actions already collected do not matter to a step. *)
Lemma Step_rebase a s new s' :
  Step (set_actions [] s) new (set_actions new s') ->
  Step (set_actions a s) new (set_actions (a ++ new) s').
Proof. intros H. by destruct H. Qed.

Lemma Run_Step s acts s' :
  Inv s -> Run s acts s' ->
  Inv s' /\ Step (set_actions [] s) acts (set_actions acts s').
Proof.
  intros H HR. induction HR as [|acts s1 op new s2 _ [I1 S1] Hroom Hop E|acts s1 op e s2 _ [I1 S1] Hroom Hop E].
  - split; [done|]. by apply Step_refl, Inv_actions.
  - destruct (perform_cases op s1 I1 Hroom Hop) as [(new' & s2' & E' & I2 & S2 & _)|(e & s2' & E' & _)];
      [|congruence].
    rewrite E in E'. injection E' as <- <-. split; [done|].
    eapply Step_trans; [exact S1|]. by apply Step_rebase.
  - destruct (perform_cases op s1 I1 Hroom Hop) as [(new' & s2' & E' & _)|(e' & s2' & E' & I2 & _ & _ & S2)];
      [congruence|].
    rewrite E in E'. injection E' as <- <-. split; [done|].
    rewrite <- (app_nil_r acts) at 1. eapply Step_trans; [exact S1|].
    rewrite <- (app_nil_r acts) at 2. by apply Step_rebase.
Qed.
End Public.
