(* ===== verification/RaftImages.v ===== *)
(** * Snapshots and the actions of a node

    The snapshot a node holds is the last one it announced with [ApplySnapshot],
    except for a snapshot of its own that it was told to compact to. *)

From S2P Require Import Prelude RaftTypes RaftNode RaftInvariant RaftStep RaftHandlers RaftSafety.

Create HintDb images.

Definition image_of (image : option StateMachineSnapshot) (actions : Actions) : option StateMachineSnapshot :=
  foldl (fun image a => match a with ApplySnapshot d => Some d | _ => image end) image actions.

Lemma image_of_app image l k : image_of image (l ++ k) = image_of (image_of image l) k.
Proof. apply foldl_app. Qed.

Section Images.
Context {RNG : UniformRandom}.

Definition Images (s s' : Impl) : Prop :=
  exists new, n_actions s' = n_actions s ++ new /\ image_of (n_durable_snapshot s) new = n_durable_snapshot s'.

#[local] Instance Images_preorder : PreOrder Images.
Proof.
  split; [intros s; exists []; by rewrite app_nil_r|].
  intros s1 s2 s3 (a & Ea & Ia) (b & Eb & Ib). exists (a ++ b).
  by rewrite Eb, Ea, app_assoc, image_of_app, Ia.
Qed.

Lemma modify_Images f :
  (forall s, n_actions (f s) = n_actions s) -> (forall s, n_durable_snapshot (f s) = n_durable_snapshot s) ->
  within Images (modify f).
Proof. intros Ha Hd s. exists []. cbn. by rewrite Ha, Hd, app_nil_r. Qed.

Lemma push_Images a : (forall d, a <> ApplySnapshot d) -> within Images (push_action a).
Proof. intros Ha s. exists [a]. split; [done|]. destruct a; try done. by destruct (Ha snapshot). Qed.

Lemma entry_at_Images i : within Images (entry_at i).
Proof. intros s. unfold entry_at, bind, get. destruct (_ || _); [apply reflexivity|]. case_match; apply reflexivity. Qed.

#[local] Hint Resolve entry_at_Images : images.

Ltac images :=
  repeat first
    [ solve [auto with images]
    | apply modify_Images; [done|done]
    | apply push_Images; done
    | apply within_ret; apply _ | apply within_throw; apply _ | apply within_get; apply _
    | apply within_bind; [apply _| |intros ?]
    | apply within_when; [apply _|]
    | apply within_for_each; [apply _|intros ? _]
    | match goal with
      | |- within _ (if ?b then _ else _) => destruct b
      | |- within _ (match ?x with _ => _ end) => destruct x
      end
    | progress cbv zeta ].

Lemma reset_election_deadline_Images : within Images reset_election_deadline.
Proof.
  apply modify_Images; intros s; by destruct (uniform_draw _ _ _).
Qed.
#[local] Hint Resolve reset_election_deadline_Images : images.

Lemma become_follower_Images t l : within Images (become_follower t l).
Proof. unfold become_follower. images. Qed.
#[local] Hint Resolve become_follower_Images : images.

Lemma send_append_entries_Images peer : within Images (send_append_entries peer).
Proof.
  unfold send_append_entries, progress_at, put_progress, send_snapshot_chunk, send_log_entries, put_progress, take_rpc_id.
  images.
Qed.
#[local] Hint Resolve send_append_entries_Images : images.

Lemma broadcast_Images : within Images broadcast_append_entries.
Proof. unfold broadcast_append_entries. images. Qed.
#[local] Hint Resolve broadcast_Images : images.

Lemma append_local_entry_Images k c : within Images (append_local_entry k c).
Proof. unfold append_local_entry. images. Qed.
#[local] Hint Resolve append_local_entry_Images : images.

Lemma apply_committed_Images n : within Images (apply_committed n).
Proof. induction n; cbn [apply_committed]; images. Qed.
#[local] Hint Resolve apply_committed_Images : images.

Lemma commit_to_Images i : within Images (commit_to i).
Proof. unfold commit_to. images. Qed.
#[local] Hint Resolve commit_to_Images : images.

Lemma advance_leader_commit_Images : within Images advance_leader_commit.
Proof.
  unfold advance_leader_commit. apply within_bind; [apply _|images|]. intros s.
  generalize (Z.to_nat (last_log_index s - n_commit_index s)). intros n.
  induction n; cbn [leader_commit_scan]; images.
Qed.
#[local] Hint Resolve advance_leader_commit_Images : images.

Lemma become_leader_Images : within Images become_leader.
Proof. unfold become_leader. images. Qed.
#[local] Hint Resolve become_leader_Images : images.

Lemma start_election_Images : within Images start_election.
Proof. unfold start_election. images. Qed.
#[local] Hint Resolve start_election_Images : images.

Lemma handle_request_vote_Images from r : within Images (handle_request_vote from r).
Proof. unfold handle_request_vote. images. Qed.

Lemma handle_request_vote_response_Images from r : within Images (handle_request_vote_response from r).
Proof. unfold handle_request_vote_response. images. Qed.

Lemma follow_leader_Images from : within Images (follow_leader from).
Proof. unfold follow_leader. images. Qed.
#[local] Hint Resolve handle_request_vote_Images handle_request_vote_response_Images follow_leader_Images : images.

Lemma first_conflict_Images fuel t i : within Images (first_conflict fuel t i).
Proof. revert i. induction fuel; intros i; cbn [first_conflict]; images. Qed.

Lemma scan_entries_Images es : within Images (scan_entries es).
Proof. induction es; cbn [scan_entries]; images. Qed.
#[local] Hint Resolve first_conflict_Images scan_entries_Images : images.

Lemma handle_append_entries_Images from r : within Images (handle_append_entries from r).
Proof.
  unfold handle_append_entries, send_append_response, replace_suffix, advance_follower_commit. images.
Qed.

Lemma handle_append_entries_response_Images from r : within Images (handle_append_entries_response from r).
Proof. unfold handle_append_entries_response, put_progress. images. Qed.

Lemma handle_install_snapshot_response_Images from r : within Images (handle_install_snapshot_response from r).
Proof. unfold handle_install_snapshot_response, put_progress. images. Qed.
#[local] Hint Resolve handle_append_entries_Images handle_append_entries_response_Images
  handle_install_snapshot_response_Images : images.

(** An installation makes the snapshot its own and announces it. *)
Lemma install_complete_Images d s s' :
  install_complete_snapshot d s = (s', Ok tt) -> Images s s'.
Proof.
  unfold install_complete_snapshot. unfold bind at 1, modify. unfold bind at 1, get.
  set (s1 := set_incoming_snapshot None s).
  assert (forall suffix, Images s (set_actions (n_actions s ++ [PersistSnapshot d; ApplySnapshot d])
    (set_durable_snapshot (Some d) suffix))) as Hs by (intros s2; by eexists).
  assert (exists r, (if (sm_last_included_index d <=? last_log_index s1) && (base_index s1 <=? sm_last_included_index d) then
      let* e := entry_at (sm_last_included_index d) in
      ret (if le_term e =? sm_last_included_term d
           then drop (Z.to_nat (sm_last_included_index d - base_index s1 + 1)) (n_log s1) else [])
    else ret []) s1 = (s1, r)) as (r & Er).
  { destruct (_ && _); [|by eexists]. unfold bind.
    assert (exists r, entry_at (sm_last_included_index d) s1 = (s1, r)) as ([e|x] & ->); [|by eexists..].
    unfold entry_at, bind, get. destruct (_ || _); [by eexists|]. case_match; by eexists. }
  unfold bind at 1. rewrite Er. destruct r as [suffix|x]; [|done]. run. intros [= <-].
  exists [PersistSnapshot d; ApplySnapshot d]. split; [|done]. node_simpl. by rewrite <- app_assoc.
Qed.

(** The computations that return. *)
Definition kept_by {A} (m : M Impl A) : Prop := forall s s' a, m s = (s', Ok a) -> Images s s'.

Lemma kept_within {A} (m : M Impl A) : within Images m -> kept_by m.
Proof. intros Hm s s' a E. specialize (Hm s). by rewrite E in Hm. Qed.

Lemma kept_bind {A B} (m : M Impl A) (k : A -> M Impl B) :
  kept_by m -> (forall a, kept_by (k a)) -> kept_by (bind m k).
Proof.
  intros Hm Hk s s' b. unfold bind. destruct (m s) as [s1 [a|]] eqn:E; [|done]. intros E2.
  etransitivity; [by eapply Hm|by eapply Hk].
Qed.

Lemma handle_install_snapshot_kept from r : kept_by (handle_install_snapshot from r).
Proof.
  unfold handle_install_snapshot.
  assert (forall ok next, within Images (send_snapshot_response from r ok next)) as Hr
    by (intros; unfold send_snapshot_response; images).
  apply kept_bind; [apply kept_within; images|]. intros s.
  destruct (malformed_snapshot_request s from r); [by apply kept_within|].
  apply kept_bind; [apply kept_within; images|]. intros _. apply kept_bind; [apply kept_within; images|]. intros s1.
  destruct (_ <=? _); [by apply kept_within|].
  apply kept_bind; [apply kept_within; images|]. intros _. apply kept_bind; [apply kept_within; images|]. intros s2.
  destruct (n_incoming_snapshot s2) as [incoming|]; [|by apply kept_within].
  destruct (_ || _); [by apply kept_within|]. cbv zeta.
  apply kept_bind; [apply kept_within; images|]. intros _. destruct (negb _); [by apply kept_within|].
  apply kept_bind; [|intros _; by apply kept_within]. intros s3 s4 []. apply install_complete_Images.
Qed.

Lemma Impl_step_kept from m : kept_by (Impl_step from m).
Proof.
  unfold Impl_step. apply kept_bind; [apply kept_within; images|]. intros s.
  destruct (_ || _); [apply kept_within; images|].
  apply kept_bind; [apply kept_within; images|]. intros _.
  destruct m; cbn [handle]; try (apply kept_within; solve [auto with images]). apply handle_install_snapshot_kept.
Qed.

(** The last snapshot announced by an operation other than [compact] is the one
    the node then holds. *)
Lemma perform_image op s acts s' :
  (forall d, op <> OpCompact d) -> perform op s = (s', Ok acts) ->
  image_of (n_durable_snapshot s) acts = n_durable_snapshot s'.
Proof.
  intros Hop E.
  assert (forall (m : M Impl unit) s0, kept_by m -> (m ;; finish) s0 = (s', Ok acts) -> n_actions s0 = [] ->
    image_of (n_durable_snapshot s0) acts = n_durable_snapshot s') as Hbody.
  { intros m s0 Hm. unfold bind. destruct (m s0) as [s1 [[]|]] eqn:Em; [|done].
    destruct (Hm _ _ _ Em) as (new & Ea & Ei). unfold finish, verify_invariants. run.
    destruct (invariants_hold s1); [|done]. intros [= <- <-] H0. rewrite Ea, H0. exact Ei. }
  destruct op as [t|from m|cmd| |d]; cbn [perform] in E; [| | | |by destruct (Hop d)].
  - unfold RaftNode_advance_time in E. unfold bind at 1, get at 1 in E. destruct (_ <? _); [done|].
    eapply (Hbody _ (set_actions [] (set_now t s))); [|exact E|done]. apply kept_within; images.
  - eapply (Hbody _ (set_actions [] s)); [apply Impl_step_kept|exact E|done].
  - eapply (Hbody _ (set_actions [] s)); [|exact E|done]. apply kept_within; images.
  - eapply (Hbody _ (set_actions [] s)); [|exact E|done]. apply kept_within; images.
Qed.

End Images.
