(* ===== verification/ElectionSafety.v ===== *)
(** * At most one leader per term

    The voters of a cluster, their disks and the network.  A node's operation is
    made durable before its messages leave it ([PersistedRaftNode::drive]), and a
    node may crash while its actions are being persisted or published and be
    rebuilt later from what its disk holds.  Messages may be lost, duplicated and
    reordered.  In every execution two leaders of one term are the same node. *)

From S2P Require Import Prelude RaftTypes RaftNode RaftInvariant RaftStep RaftHandlers RaftSafety.

Section Elects.
Context {RNG : UniformRandom}.

(** ** How one operation makes candidates and leaders *)

Definition granted_vote (op : Op) (s : Impl) (from : NodeId) : Prop :=
  from ∈ cfg_voters (n_config s) /\ exists r, op = OpStep from (MRequestVoteResponse r) /\
    rvr_term r = n_current_term s /\ rvr_vote_granted r = true.

Record Elects (op : Op) (s s' : Impl) : Prop := {
  el_candidate : n_role s' = candidate ->
    n_votes_received s' = {[self_id s]} \/
    n_role s = candidate /\ n_current_term s' = n_current_term s /\
    (n_votes_received s' = n_votes_received s \/
     exists from, granted_vote op s from /\ n_votes_received s' = {[from]} ∪ n_votes_received s);
  el_leader : n_role s' = leader ->
    n_role s = leader /\ n_current_term s' = n_current_term s \/
    cfg_voters (n_config s) = [self_id s] \/
    n_role s = candidate /\ n_current_term s' = n_current_term s /\
    exists from, granted_vote op s from /\
      quorum s <= Z.of_nat (size ({[from]} ∪ n_votes_received s));
}.

Lemma settles_Elects op s s' :
  n_current_term s' = n_current_term s -> settles s s' -> Elects op s s'.
Proof.
  intros Ht [Hr|[Hr Hv]]; constructor; rewrite ?Hr; try done; [right|left]; auto.
Qed.

Lemma leads_on_settles s s' : leads_on s s' -> settles s s'.
Proof. intros (_ & Hr & _ & Hv). by right. Qed.

(** A handler run in the term of the message or a later one. *)
Lemma handle_Elects from m s s' :
  Inv s -> Room s -> from ∈ cfg_voters (n_config s) -> from <> self_id s -> message_typed m ->
  message_term m <= n_current_term s -> handle from m s = (s', Ok tt) ->
  Elects (OpStep from m) s s'.
Proof.
  intros H [Hlog Hrpc] Hin Hne Hm Ht E. destruct m as [r|r|r|r|r|r]; cbn [handle] in E.
  - destruct (handle_request_vote_runs from r s H Hin Hne) as (pre & s1 & (E1 & _) & _ & _ & Ht1 & _ & Hr1 & Hv1).
    rewrite E in E1. injection E1 as <-. apply settles_Elects; [done|by right].
  - destruct (handle_request_vote_response_handled from r s H Hin Hlog Hrpc) as
      (s1 & (new & (E1 & _ & S1) & _) & Ht1 & Hlead & Hcand).
    rewrite E in E1. injection E1 as <-. constructor.
    + intros Hr'. right. assert (n_role s = candidate) as Hr.
      { destruct (n_role s) eqn:Er; [|done|].
        - by rewrite (st_follower _ _ _ S1 Ht1 Er) in Hr'.
        - by apply (st_leader _ _ _ S1 Ht1) in Er. }
      split_and!; [done..|]. destruct (Hcand Hr') as [Hv|(Hrt & Hg & Hv)]; [by left|right].
      exists from. split; [|done]. split; [done|]. by exists r.
    + intros Hr'. destruct (decide (n_role s = leader)) as [Hr|Hr]; [by left|].
      destruct (Hlead Hr' Hr) as (Hc & Hrt & Hg & Hq). right. right. split_and!; [done..|].
      exists from. split; [|done]. split; [done|]. by exists r.
  - destruct (handle_append_entries_answers from r s H Hin Hm Ht) as
      (new & resp & s1 & (E1 & _) & _ & _ & _ & Ht1 & Hset & _).
    rewrite E in E1. injection E1 as <-. by apply settles_Elects.
  - destruct (handle_append_entries_response_handled from r s H Hm Hrpc) as (s1 & (new & (E1 & _) & _) & Hlo).
    rewrite E in E1. injection E1 as <-. apply settles_Elects; [apply Hlo|by apply leads_on_settles].
  - destruct (handle_install_snapshot_handled from r s H Hin Hm Ht) as (s1 & (new & (E1 & _) & _) & Ht1 & Hset).
    rewrite E in E1. injection E1 as <-. by apply settles_Elects.
  - destruct (handle_install_snapshot_response_handled from r s H Hm Hrpc) as (s1 & (new & (E1 & _) & _) & Hlo).
    rewrite E in E1. injection E1 as <-. apply settles_Elects; [apply Hlo|by apply leads_on_settles].
Qed.

Lemma Elects_actions op a b s s' :
  Elects op (set_actions a s) (set_actions b s') -> Elects op s s'.
Proof. intros [H1 H2]. by constructor. Qed.

Lemma step_Elects from m s s' new :
  Inv s -> Room s -> message_typed m -> RaftNode_step from m s = (s', Ok new) ->
  Elects (OpStep from m) s s'.
Proof.
  intros H Hroom Hm E. set (s0 := set_actions [] s). pose proof (Inv_actions [] s H) as I0. fold s0 in I0.
  apply (Elects_actions _ [] new).
  assert (exists s2, Impl_step from m s0 = (s2, Ok tt) /\ set_actions new s' = s2) as (s2 & E2 & ->).
  { destruct (Impl_step_handled from m s0 I0) as (s2 & (n2 & (E2 & I2 & S2) & _) & _); [by destruct Hroom|done|].
    exists s2. split; [done|]. unfold RaftNode_step, bind, modify in E. fold s0 in E.
    rewrite E2, finish_eq in E by done. by injection E as <- <-. }
  unfold Impl_step in E2. unfold bind at 1, get in E2.
  destruct (_ || _) eqn:Eg; [injection E2 as <-; apply settles_Elects; [done|by right]|].
  apply orb_false_iff in Eg as [Hne%bool_decide_eq_false Hin%negb_false_iff%bool_decide_eq_true].
  destruct (enter_term from m s0 I0 Hin (message_term_range m Hm)) as
    (n1 & s1 & (E1 & I1 & S1) & Hs & Ht & Hl & Hc & _ & Hrpc & Hhi & Hlo).
  unfold bind in E2. rewrite E1 in E2.
  assert (Room s1) as Hroom1.
  { destruct Hroom as [G1 G2]. constructor; [|by rewrite Hrpc]. by rewrite last_log_index_of, Hl. }
  assert (from ∈ cfg_voters (n_config s1)) as Hin1 by by rewrite Hc.
  assert (from <> self_id s1) as Hne1 by (unfold self_id; by rewrite Hc).
  destruct (Z.lt_ge_cases (n_current_term s0) (message_term m)) as [Hlt|Hge].
  - destruct (Hhi Hlt) as [Hf _].
    destruct (handle_handled from m s1 I1 Hroom1 Hin1 Hne1 Hm ltac:(lia)) as (s3 & (n3 & (E3 & _ & S3) & _) & Ht3).
    rewrite E2 in E3. injection E3 as <-. pose proof (st_follower _ _ _ S3 Ht3 Hf) as Hr2.
    constructor; congruence.
  - rewrite (Hlo Hge) in *. apply handle_Elects; done.
Qed.

Lemma advance_time_Elects t s s' new :
  Inv s -> Room s -> RaftNode_advance_time t s = (s', Ok new) -> Elects (OpAdvanceTime t) s s'.
Proof.
  intros H Hroom E. set (s0 := set_actions [] (set_now t s)).
  pose proof (tick_Inv t s H) as I0. fold s0 in I0.
  unfold RaftNode_advance_time in E. unfold bind at 1, get in E.
  destruct (t <? n_now s); [done|]. unfold bind at 1, modify in E. fold s0 in E.
  apply (Elects_actions _ [] new).
  destruct (negb (bool_decide (n_role s = leader)) && (n_election_deadline s <=? t)) eqn:Ee.
  - apply andb_true_iff in Ee as [Er _]. apply negb_true_iff, bool_decide_eq_false in Er.
    destruct (decide (n_current_term s = u64_max)) as [Hmax|Hmax].
    { unfold start_election, bind, get, throw in E.
      change (n_current_term s0) with (n_current_term s) in E. by rewrite Hmax in E. }
    pose proof (inv_term _ H). destruct Hroom as [Hlog Hrpc].
    destruct (start_election_runs s0 I0 Er ltac:(cbn; lia) Hlog Hrpc) as
      (n1 & s1 & (E1 & I1 & _) & _ & _ & _ & Hl & Hc).
    unfold bind in E. rewrite E1, finish_eq in E by done. injection E as <- <-.
    constructor; [intros Hx; left; by apply Hc|intros Hx; right; left; by apply Hl].
  - destruct (bool_decide (n_role s = leader) && (n_heartbeat_deadline s <=? t)) eqn:Eh; cbn [when] in E.
    + apply andb_true_iff in Eh as [Er%bool_decide_eq_true _].
      destruct (heartbeat_handled t s0 I0) as (s1 & (n1 & (E1 & I1 & _) & _) & Hlo); [by destruct Hroom|done|].
      rewrite (bind_Ok _ _ _ _ _ E1), finish_eq in E by done. injection E as <- <-.
      apply settles_Elects; [apply Hlo|by apply leads_on_settles in Hlo].
    + unfold bind, ret in E. rewrite finish_eq in E by done. injection E as <- <-.
      apply settles_Elects; [done|by right].
Qed.

Lemma submit_Elects op kind cmd s s' new :
  Inv s -> Room s -> submit_entry kind cmd s = (s', Ok new) -> Elects op s s'.
Proof.
  intros H Hroom E. destruct (submit_performs kind cmd s H Hroom) as
    (acts & s1 & (E1 & _ & S1 & _) & Ht & _).
  rewrite E in E1. injection E1 as <- <-. destruct (decide (n_role s = leader)) as [Hr|Hr].
  - constructor; [|by left]. intros Hx. by destruct (st_leader _ _ _ S1 Ht Hr).
  - unfold submit_entry in E. unfold bind at 1, modify in E. unfold bind at 1, get in E. unfold bind at 1 in E.
    change (n_role (set_actions [] s)) with (n_role s) in E.
    rewrite bool_decide_eq_false_2 in E by done. cbn [negb] in E. rewrite push_action_eq in E.
    rewrite finish_eq in E by by apply Inv_actions, Inv_actions.
    injection E as <- <-. apply settles_Elects; [done|by right].
Qed.

Lemma perform_Elects op s s' new :
  Inv s -> Room s -> op_typed op -> perform op s = (s', Ok new) -> Elects op s s'.
Proof.
  intros H Hroom Hop E. destruct op as [t|from m|cmd| |d]; cbn [perform] in E.
  - by eapply advance_time_Elects.
  - by eapply step_Elects.
  - by eapply submit_Elects.
  - by eapply submit_Elects.
  - destruct (decide (compactable s d)) as [Hc|Hc].
    + destruct (compact_performs d s H Hc) as (E1 & _). rewrite E in E1. injection E1 as -> _.
      apply settles_Elects; [done|by right].
    + by rewrite compact_refused in E.
Qed.
End Elects.

(** ** The cluster *)

(** Two quorums of the voters share a voter. *)
Lemma quorums_intersect (voters : list NodeId) (Q1 Q2 : gset NodeId) :
  Q1 ⊆ list_to_set voters -> Q2 ⊆ list_to_set voters ->
  size_of voters / 2 + 1 <= Z.of_nat (size Q1) -> size_of voters / 2 + 1 <= Z.of_nat (size Q2) ->
  exists v, v ∈ Q1 /\ v ∈ Q2.
Proof.
  intros H1 H2 S1 S2. destruct (decide (Q1 ∩ Q2 = ∅)) as [Hd|Hd].
  - exfalso. assert (size (Q1 ∪ Q2) = size Q1 + size Q2)%nat as Hu by (apply size_union; set_solver).
    assert (size (Q1 ∪ Q2) <= length voters)%nat as Hle.
    { transitivity (size (list_to_set voters : gset NodeId)); [apply subseteq_size; set_solver|].
      clear. induction voters as [|v l IH]; [done|].
      cbn [list_to_set length]. rewrite size_union_alt, size_singleton.
      pose proof (subseteq_size (list_to_set l ∖ {[v]} : gset NodeId) (list_to_set l) ltac:(set_solver)).
      lia. }
    unfold size_of in *. pose proof (Z.div_mod (Z.of_nat (length voters)) 2 ltac:(lia)).
    pose proof (Z.mod_pos_bound (Z.of_nat (length voters)) 2 ltac:(lia)). lia.
  - apply set_choose_L in Hd as [v Hv]. exists v. set_solver.
Qed.

Section Cluster.
Context {RNG : UniformRandom}.

(** The configuration of every voter. *)
Variable config : NodeId -> RaftConfig.
Variable voters : list NodeId.
Hypothesis config_self : forall i, i ∈ voters -> cfg_self_id (config i) = i.
Hypothesis config_voters : forall i, i ∈ voters -> cfg_voters (config i) = voters.
Hypothesis config_is_typed : forall i, i ∈ voters -> config_typed (config i).

Record Cluster := mkCluster {
  cl_nodes : gmap NodeId Impl;
  cl_disks : NodeId -> RaftPersistentState;
  cl_net : list (NodeId * NodeId * Message);
}.

Definition set_disk (i : NodeId) (d : RaftPersistentState) (disks : NodeId -> RaftPersistentState)
    : NodeId -> RaftPersistentState :=
  fun j => if decide (j = i) then d else disks j.

(** The messages node [i] puts on the network. *)
Definition sends_of (i : NodeId) (acts : Actions) : list (NodeId * NodeId * Message) :=
  omap (fun a => match a with SendMessage to m => Some (i, to, m) | _ => None end) acts.

(** A message is handled only if its sender put it on the network. *)
Definition arrives (i : NodeId) (op : Op) (net : list (NodeId * NodeId * Message)) : Prop :=
  match op with OpStep from m => (from, i, m) ∈ net | _ => True end.

Inductive cstep (cl : Cluster) : Cluster -> Prop :=
| c_start i t s :
    i ∈ voters -> cl_nodes cl !! i = None -> persistent_typed (cl_disks cl i) ->
    RaftNode_create (config i) (cl_disks cl i) t = Ok s ->
    cstep cl (mkCluster (<[i := s]> (cl_nodes cl)) (cl_disks cl) (cl_net cl))
| c_operation i s op acts s' :
    cl_nodes cl !! i = Some s -> arrives i op (cl_net cl) -> Room s -> op_typed op ->
    perform op s = (s', Ok acts) ->
    cstep cl (mkCluster (<[i := s']> (cl_nodes cl))
      (set_disk i (replay acts (cl_disks cl i)) (cl_disks cl)) (cl_net cl ++ sends_of i acts))
| c_refused i s op e s' :
    cl_nodes cl !! i = Some s -> Room s -> op_typed op -> perform op s = (s', Throw e) ->
    cstep cl (mkCluster (<[i := s']> (cl_nodes cl)) (cl_disks cl) (cl_net cl))
| c_crash i : cstep cl (mkCluster (delete i (cl_nodes cl)) (cl_disks cl) (cl_net cl))
| c_crash_persisting i s op acts s' k :
    cl_nodes cl !! i = Some s -> arrives i op (cl_net cl) -> Room s -> op_typed op ->
    perform op s = (s', Ok acts) ->
    cstep cl (mkCluster (delete i (cl_nodes cl))
      (set_disk i (replay (take k acts) (cl_disks cl i)) (cl_disks cl)) (cl_net cl))
| c_crash_publishing i s op acts s' k :
    cl_nodes cl !! i = Some s -> arrives i op (cl_net cl) -> Room s -> op_typed op ->
    perform op s = (s', Ok acts) ->
    cstep cl (mkCluster (delete i (cl_nodes cl))
      (set_disk i (replay acts (cl_disks cl i)) (cl_disks cl))
      (cl_net cl ++ sends_of i (take k acts))).

(** The states an execution has gone through, the latest first. *)
Inductive Execution : list Cluster -> Prop :=
| ex_start disks : Execution [mkCluster ∅ disks []]
| ex_step cl h cl' : Execution (cl :: h) -> cstep cl cl' -> Execution (cl' :: cl :: h).

(** Node [v] has at some time held a durable vote for [x] in term [T]. *)
Definition Voted (h : list Cluster) (v : NodeId) (T : Term) (x : NodeId) : Prop :=
  exists cl, cl ∈ h /\ ps_current_term (cl_disks cl v) = T /\ ps_voted_for (cl_disks cl v) = Some x.

Lemma Voted_cons cl h v T x : Voted h v T x -> Voted (cl :: h) v T x.
Proof. intros (c & Hc & H). exists c. split; [by right|done]. Qed.

Definition leads (cl : Cluster) (i : NodeId) (T : Term) : Prop :=
  exists s, cl_nodes cl !! i = Some s /\ n_role s = leader /\ n_current_term s = T.

(** A quorum of durable votes. *)
Definition Elected (h : list Cluster) (i : NodeId) (T : Term) : Prop :=
  exists Q : gset NodeId, Q ⊆ list_to_set voters /\
    size_of voters / 2 + 1 <= Z.of_nat (size Q) /\ forall v, v ∈ Q -> Voted h v T i.

Record ClusterInv (cl : Cluster) (h : list Cluster) : Prop := {
  ci_votes : forall v T x, Voted (cl :: h) v T x ->
    T < ps_current_term (cl_disks cl v) \/
    T = ps_current_term (cl_disks cl v) /\ ps_voted_for (cl_disks cl v) = Some x;
  ci_unique : forall v T x y, Voted (cl :: h) v T x -> Voted (cl :: h) v T y -> x = y;
  ci_nodes : forall i s, cl_nodes cl !! i = Some s ->
    Inv s /\ i ∈ voters /\ n_config s = config i /\ persistent_of s = cl_disks cl i;
  ci_net : forall v to r, (v, to, MRequestVoteResponse r) ∈ cl_net cl ->
    rvr_vote_granted r = true -> Voted (cl :: h) v (rvr_term r) to;
  ci_candidates : forall i s, cl_nodes cl !! i = Some s -> n_role s = candidate ->
    forall v, v ∈ n_votes_received s -> Voted (cl :: h) v (n_current_term s) i;
  ci_leaders : forall cl' i T, cl' ∈ cl :: h -> leads cl' i T -> Elected (cl :: h) i T;
}.

(** *** Votes stay *)

Lemma votes_kept cl cl' h :
  ClusterInv cl h -> (forall v, hard_le (cl_disks cl v) (cl_disks cl' v)) ->
  forall v T x, Voted (cl' :: cl :: h) v T x ->
    T < ps_current_term (cl_disks cl' v) \/
    T = ps_current_term (cl_disks cl' v) /\ ps_voted_for (cl_disks cl' v) = Some x.
Proof.
  intros HI Hle v T x (c & Hc & HT & Hx). apply elem_of_cons in Hc as [->|Hc]; [by right|].
  destruct (Hle v) as [Ht Hv].
  destruct (ci_votes _ _ HI v T x) as [Hlt|[Heq Hvote]]; [by exists c|left; lia|].
  destruct (decide (ps_current_term (cl_disks cl' v) = ps_current_term (cl_disks cl v))) as [E|E].
  - right. split; [lia|]. by apply Hv.
  - left. lia.
Qed.

Lemma votes_unique cl cl' h :
  ClusterInv cl h -> (forall v, hard_le (cl_disks cl v) (cl_disks cl' v)) ->
  forall v T x y, Voted (cl' :: cl :: h) v T x -> Voted (cl' :: cl :: h) v T y -> x = y.
Proof.
  intros HI Hle. pose proof (votes_kept cl cl' h HI Hle) as Hkept.
  assert (forall v T x y, ps_current_term (cl_disks cl' v) = T -> ps_voted_for (cl_disks cl' v) = Some x ->
    Voted (cl' :: cl :: h) v T y -> x = y) as Hnow.
  { intros v T x y HT Hx Hy. destruct (Hkept v T y Hy) as [?|[_ ?]]; [lia|congruence]. }
  intros v T x y Hx Hy. destruct Hx as (c & Hc & HT & Hv), Hy as (c' & Hc' & HT' & Hv').
  apply elem_of_cons in Hc as [->|Hc].
  - apply (Hnow v T x y HT Hv). by exists c'.
  - apply elem_of_cons in Hc' as [->|Hc'].
    + symmetry. apply (Hnow v T y x HT' Hv'). exists c. split; [by right|done].
    + by apply (ci_unique _ _ HI v T); [exists c|exists c'].
Qed.

Lemma hard_le_set_disk i d disks v :
  hard_le (disks i) d -> hard_le (disks v) (set_disk i d disks v).
Proof. intros H. unfold set_disk. destruct (decide (v = i)) as [->|]; [done|apply hard_le_refl]. Qed.

Lemma Elected_cons cl h i T : Elected h i T -> Elected (cl :: h) i T.
Proof. intros (Q & HQ & Hs & Hv). exists Q. split_and!; [done..|]. intros v Hin. by apply Voted_cons, Hv. Qed.

(** A step in which no node gains a role. *)
Lemma ClusterInv_quiet cl cl' h :
  ClusterInv cl h -> (forall v, hard_le (cl_disks cl v) (cl_disks cl' v)) ->
  (forall v to r, (v, to, MRequestVoteResponse r) ∈ cl_net cl' -> rvr_vote_granted r = true ->
     Voted (cl' :: cl :: h) v (rvr_term r) to) ->
  (forall i s', cl_nodes cl' !! i = Some s' ->
     (Inv s' /\ i ∈ voters /\ n_config s' = config i /\ persistent_of s' = cl_disks cl' i) /\
     (n_role s' = follower \/ exists s, cl_nodes cl !! i = Some s /\ n_role s' = n_role s /\
        n_current_term s' = n_current_term s /\ n_votes_received s' = n_votes_received s)) ->
  ClusterInv cl' (cl :: h).
Proof.
  intros HI Hle Hnet Hnodes. constructor.
  - by apply votes_kept.
  - by apply votes_unique.
  - intros i s' Hs'. apply Hnodes, Hs'.
  - exact Hnet.
  - intros i s' Hs' Hr v Hv. destruct (Hnodes i s' Hs') as [_ [Hf|(s & Hs & Hrs & Ht & Hvs)]]; [congruence|].
    apply Voted_cons. rewrite Ht. apply (ci_candidates _ _ HI i s); [done|congruence|by rewrite <- Hvs].
  - intros c i T Hc Hl. apply Elected_cons. apply elem_of_cons in Hc as [->|Hc].
    + destruct Hl as (s' & Hs' & Hr & HT). destruct (Hnodes i s' Hs') as [_ [Hf|(s & Hs & Hrs & Ht & _)]]; [congruence|].
      apply (ci_leaders _ _ HI cl); [by left|]. exists s. split_and!; congruence.
    + by apply (ci_leaders _ _ HI c).
Qed.

Lemma operation_facts cl h i s op acts s' :
  ClusterInv cl h -> cl_nodes cl !! i = Some s -> Room s -> op_typed op ->
  perform op s = (s', Ok acts) ->
  (Inv s' /\ i ∈ voters /\ n_config s' = config i /\ persistent_of s' = replay acts (cl_disks cl i)) /\
  (forall k, hard_le (cl_disks cl i) (replay (take k acts) (cl_disks cl i))) /\
  Elects op s s' /\ Msgs (Speaks s') acts.
Proof.
  intros HI Hs Hroom Hop E. destruct (ci_nodes _ _ HI i s Hs) as (I & Hi & Hc & Hp).
  destruct (perform_cases op s I Hroom Hop) as [(acts' & s1 & E1 & I1 & S1 & HM)|(e & s1 & E1 & _)];
    [|congruence]. rewrite E in E1. injection E1 as <- <-. rewrite <- Hp. split_and!; try done.
  - rewrite <- Hc. apply (st_config _ _ _ S1).
  - symmetry. apply (st_persist _ _ _ S1).
  - apply (st_hard _ _ _ S1).
  - by eapply perform_Elects.
Qed.

Lemma elem_of_sends_of i acts v to m :
  (v, to, m) ∈ sends_of i acts -> v = i /\ SendMessage to m ∈ acts.
Proof.
  unfold sends_of. rewrite list_elem_of_omap. intros (a & Ha & E).
  destruct a; try done. by injection E as <- <- <-.
Qed.

(** A granted vote among the messages is the disk's. *)
Lemma sent_votes cl h i s' acts k nodes net v to r :
  Msgs (Speaks s') acts -> persistent_of s' = replay acts (cl_disks cl i) ->
  (v, to, MRequestVoteResponse r) ∈ sends_of i (take k acts) -> rvr_vote_granted r = true ->
  Voted (mkCluster nodes (set_disk i (replay acts (cl_disks cl i)) (cl_disks cl)) net :: h)
    v (rvr_term r) to.
Proof.
  intros HM Hp Hin Hg. apply elem_of_sends_of in Hin as [-> Hin].
  assert (SendMessage to (MRequestVoteResponse r) ∈ acts) as Hin'.
  { rewrite <- (take_drop k acts). apply elem_of_app. by left. }
  unfold Msgs in HM. rewrite Forall_forall in HM. destruct (HM _ Hin') as [Ht Hv].
  eexists. split; [by left|]. cbn. unfold set_disk. rewrite decide_True by done.
  rewrite <- Hp. cbn. split; [done|by apply Hv].
Qed.

Lemma self_voted cl h i s' acts nodes net :
  i ∈ voters -> n_config s' = config i -> persistent_of s' = replay acts (cl_disks cl i) ->
  n_voted_for s' = Some (self_id s') ->
  Voted (mkCluster nodes (set_disk i (replay acts (cl_disks cl i)) (cl_disks cl)) net :: h)
    i (n_current_term s') i.
Proof.
  intros Hi Hc Hp Hv. eexists. split; [by left|]. cbn. unfold set_disk. rewrite decide_True by done.
  rewrite <- Hp. cbn. split; [done|]. rewrite Hv. unfold self_id. by rewrite Hc, config_self.
Qed.

(** The candidates and leaders one operation makes are backed by votes. *)
Lemma operation_candidate cl h i s op acts s' nodes net :
  ClusterInv cl h -> cl_nodes cl !! i = Some s -> arrives i op (cl_net cl) ->
  i ∈ voters -> Inv s' -> n_config s' = config i -> persistent_of s' = replay acts (cl_disks cl i) ->
  Elects op s s' -> n_role s' = candidate -> forall v, v ∈ n_votes_received s' ->
  Voted (mkCluster nodes (set_disk i (replay acts (cl_disks cl i)) (cl_disks cl)) net :: cl :: h)
    v (n_current_term s') i.
Proof.
  intros HI Hs Harr Hi I' Hc Hp HE Hr v Hv.
  destruct (ci_nodes _ _ HI i s Hs) as (_ & _ & Hcs & _).
  destruct (el_candidate _ _ _ HE Hr) as [Hself|(Hrs & Ht & Hsame)].
  - rewrite Hself in Hv. apply elem_of_singleton in Hv as ->.
    replace (self_id s) with i by (unfold self_id; by rewrite Hcs, config_self).
    apply self_voted; try done. pose proof (inv_role _ I') as Hrole. unfold RoleOk in Hrole.
    rewrite Hr in Hrole. tauto.
  - rewrite Ht. apply Voted_cons. destruct Hsame as [Hsame|(from & (_ & r & -> & Hrt & Hg) & Hsame)];
      rewrite Hsame in Hv.
    + by apply (ci_candidates _ _ HI i s).
    + apply elem_of_union in Hv as [Hv%elem_of_singleton|Hv]; [subst v|by apply (ci_candidates _ _ HI i s)].
      rewrite <- Hrt. by apply (ci_net _ _ HI).
Qed.

Lemma operation_leader cl h i s op acts s' nodes net :
  ClusterInv cl h -> cl_nodes cl !! i = Some s -> arrives i op (cl_net cl) ->
  i ∈ voters -> Inv s' -> n_config s' = config i -> persistent_of s' = replay acts (cl_disks cl i) ->
  Elects op s s' -> n_role s' = leader ->
  Elected (mkCluster nodes (set_disk i (replay acts (cl_disks cl i)) (cl_disks cl)) net :: cl :: h)
    i (n_current_term s').
Proof.
  intros HI Hs Harr Hi I' Hc Hp HE Hr.
  destruct (ci_nodes _ _ HI i s Hs) as (I & _ & Hcs & _).
  destruct (el_leader _ _ _ HE Hr) as [[Hrs Ht]|[Hone|(Hrs & Ht & from & (Hin & r & -> & Hrt & Hg) & Hq)]].
  - apply Elected_cons. apply (ci_leaders _ _ HI cl); [by left|]. exists s. split_and!; congruence.
  - rewrite Hcs, config_voters in Hone by done. exists {[i]}. split_and!.
    + set_solver.
    + rewrite Hone, size_singleton. by vm_compute.
    + intros v Hv. apply elem_of_singleton in Hv as ->. apply self_voted; try done.
      pose proof (inv_role _ I') as Hrole. unfold RoleOk in Hrole. rewrite Hr in Hrole. tauto.
  - exists ({[from]} ∪ n_votes_received s). split_and!.
    + intros v Hv. apply elem_of_list_to_set. rewrite <- (config_voters i Hi), <- Hcs.
      apply elem_of_union in Hv as [->%elem_of_singleton|Hv]; [done|by apply (inv_votes _ I)].
    + unfold quorum in Hq. by rewrite Hcs, config_voters in Hq.
    + intros v Hv. apply Voted_cons. rewrite Ht.
      apply elem_of_union in Hv as [->%elem_of_singleton|Hv]; [|by apply (ci_candidates _ _ HI i s)].
      rewrite <- Hrt. by apply (ci_net _ _ HI).
Qed.

Lemma ClusterInv_operation cl h i s op acts s' :
  ClusterInv cl h -> cl_nodes cl !! i = Some s -> arrives i op (cl_net cl) -> Room s -> op_typed op ->
  perform op s = (s', Ok acts) ->
  ClusterInv (mkCluster (<[i := s']> (cl_nodes cl))
      (set_disk i (replay acts (cl_disks cl i)) (cl_disks cl)) (cl_net cl ++ sends_of i acts)) (cl :: h).
Proof.
  intros HI Hs Harr Hroom Hop E.
  destruct (operation_facts cl h i s op acts s' HI Hs Hroom Hop E) as ((I' & Hi & Hc & Hp) & Hh & HE & HM).
  assert (forall j x, <[i := s']> (cl_nodes cl) !! j = Some x -> j = i /\ x = s' \/
    j <> i /\ cl_nodes cl !! j = Some x) as Hlook.
  { intros j x Hx. apply lookup_insert_Some in Hx as [[<- <-]|[? ?]]; auto. }
  assert (forall v, hard_le (cl_disks cl v) (set_disk i (replay acts (cl_disks cl i)) (cl_disks cl) v)) as Hle.
  { intros v. apply hard_le_set_disk. rewrite <- (take_ge acts (length acts)) by done. apply Hh. }
  constructor; cbn [cl_nodes cl_disks cl_net].
  - by apply votes_kept.
  - by apply votes_unique.
  - intros j x Hx. unfold set_disk. destruct (Hlook j x Hx) as [[-> ->]|[Hne Hold]].
    + by rewrite decide_True.
    + rewrite decide_False by done. by apply (ci_nodes _ _ HI).
  - intros v to r Hin Hg. apply elem_of_app in Hin as [Hin|Hin]; [by apply Voted_cons, (ci_net _ _ HI)|].
    eapply (sent_votes cl (cl :: h) i s' acts (length acts)); [done|done| |done]. by rewrite take_ge.
  - intros j x Hx Hr v Hv. destruct (Hlook j x Hx) as [[-> ->]|[Hne Hold]].
    + by eapply operation_candidate.
    + by apply Voted_cons, (ci_candidates _ _ HI j x).
  - intros c j T Hcl Hl. apply elem_of_cons in Hcl as [->|Hcl]; [|by apply Elected_cons, (ci_leaders _ _ HI c)].
    destruct Hl as (x & Hx & Hr & <-). cbn in Hx. destruct (Hlook j x Hx) as [[-> ->]|[Hne Hold]].
    + by eapply operation_leader.
    + apply Elected_cons, (ci_leaders _ _ HI cl); [by left|]. by exists x.
Qed.

Lemma deleted_nodes cl h i disks j s' :
  ClusterInv cl h -> delete i (cl_nodes cl) !! j = Some s' ->
  (Inv s' /\ j ∈ voters /\ n_config s' = config j /\ persistent_of s' = set_disk i disks (cl_disks cl) j) /\
  (n_role s' = follower \/ exists s, cl_nodes cl !! j = Some s /\ n_role s' = n_role s /\
     n_current_term s' = n_current_term s /\ n_votes_received s' = n_votes_received s).
Proof.
  intros HI Hs. apply lookup_delete_Some in Hs as [Hne Hs].
  split; [|right; by exists s']. unfold set_disk. rewrite decide_False by done.
  by apply (ci_nodes _ _ HI).
Qed.

Lemma ClusterInv_step cl cl' h : ClusterInv cl h -> cstep cl cl' -> ClusterInv cl' (cl :: h).
Proof.
  intros HI HS. pose proof (fun v to r Hin Hg => Voted_cons cl' _ _ _ _ (ci_net _ _ HI v to r Hin Hg)) as Hnet.
  destruct HS as [i t s Hi Hno Hty E|i s op acts s' Hs Harr Hroom Hop E|i s op e s' Hs Hroom Hop E|i
    |i s op acts s' k Hs Harr Hroom Hop E|i s op acts s' k Hs Harr Hroom Hop E].
  - apply ClusterInv_quiet; try done.
    destruct (create_Inv (config i) (cl_disks cl i) t s (config_is_typed i Hi) Hty E) as (I & Hp & Hc & Hr & _).
    intros j x Hx. cbn in Hx. apply lookup_insert_Some in Hx as [[<- <-]|[Hne Hx]].
    + split; [|by left]. done.
    + split; [by apply (ci_nodes _ _ HI)|]. right. by exists x.
  - by eapply ClusterInv_operation.
  - destruct (ci_nodes _ _ HI i s Hs) as (I & Hi & Hc & Hp).
    destruct (perform_cases op s I Hroom Hop) as [(acts' & s1 & E1 & _)|(e' & s1 & E1 & I1 & (P1 & Hr1 & Hv1 & _) & _ & S1)];
      [congruence|]. rewrite E in E1. injection E1 as <- <-.
    apply ClusterInv_quiet; try done.
    intros j x Hx. cbn in Hx. apply lookup_insert_Some in Hx as [[<- <-]|[Hne Hx]].
    + split; [split_and!; [done|done|rewrite <- Hc; apply (st_config _ _ _ S1)|cbn; congruence]|].
      right. exists s. split_and!; try done. by injection P1.
    + split; [by apply (ci_nodes _ _ HI)|]. right. by exists x.
  - apply ClusterInv_quiet; try done.
    intros j x Hx. destruct (deleted_nodes cl h i (cl_disks cl i) j x HI Hx) as [Ha Hb]. split; [|done].
    unfold set_disk in Ha. destruct (decide (j = i)) as [->|]; exact Ha.
  - destruct (operation_facts cl h i s op acts s' HI Hs Hroom Hop E) as (_ & Hh & _).
    apply ClusterInv_quiet; try done; [intros v; by apply hard_le_set_disk|].
    intros j x Hx. by apply (deleted_nodes cl h).
  - destruct (operation_facts cl h i s op acts s' HI Hs Hroom Hop E) as ((_ & _ & _ & Hp) & Hh & _ & HM).
    apply ClusterInv_quiet; [done|..]; cbn [cl_nodes cl_disks cl_net].
    + intros v. apply hard_le_set_disk. rewrite <- (take_ge acts (length acts)) by done. apply Hh.
    + intros v to r Hin Hg. apply elem_of_app in Hin as [Hin|Hin]; [by apply Hnet|].
      by eapply sent_votes.
    + intros j x Hx. by apply (deleted_nodes cl h).
Qed.

Lemma Execution_Inv h cl : Execution (cl :: h) -> ClusterInv cl h.
Proof.
  intros H. remember (cl :: h) as l eqn:El. revert cl h El.
  induction H as [disks|cl1 h1 cl2 Hex IH HS]; intros cl h El; injection El as <- <-.
  - constructor.
    + intros v T x (c & Hc & HT & Hx). apply list_elem_of_singleton in Hc as ->. by right.
    + intros v T x y (c & Hc & _ & Hx) (c' & Hc' & _ & Hy).
      apply list_elem_of_singleton in Hc as ->. apply list_elem_of_singleton in Hc' as ->. congruence.
    + intros i s Hs. cbn in Hs. by rewrite lookup_empty in Hs.
    + intros v to r Hin. by apply elem_of_nil in Hin.
    + intros i s Hs. cbn in Hs. by rewrite lookup_empty in Hs.
    + intros c i T Hc (s & Hs & _). apply list_elem_of_singleton in Hc as ->. cbn in Hs. by rewrite lookup_empty in Hs.
  - apply ClusterInv_step; [by apply IH|done].
Qed.

(** C4. Election safety: over a whole execution, with crashes at any point of
    persisting or publishing, restarts, lost, duplicated and reordered messages,
    two nodes that ever lead the same term are one node. *)
Theorem election_safety h cl1 cl2 i j T :
  Execution h -> cl1 ∈ h -> cl2 ∈ h -> leads cl1 i T -> leads cl2 j T -> i = j.
Proof.
  intros Hex H1 H2 L1 L2. destruct h as [|cl h]; [by inversion Hex|].
  pose proof (Execution_Inv h cl Hex) as HI.
  destruct (ci_leaders _ _ HI cl1 i T H1 L1) as (Q1 & HQ1 & S1 & V1).
  destruct (ci_leaders _ _ HI cl2 j T H2 L2) as (Q2 & HQ2 & S2 & V2).
  destruct (quorums_intersect voters Q1 Q2 HQ1 HQ2 S1 S2) as (v & Hv1 & Hv2).
  by apply (ci_unique _ _ HI v T); [apply V1|apply V2].
Qed.
End Cluster.
