(* ===== verification/RaftEmits.v ===== *)
(** * Which actions a computation of the node emits

    [Emits Q] is the effect of a computation that only appends actions of the kind
    [Q].  It is read off the code by the tactic [emits]; the kinds that matter are
    the actions that write nothing, and those that come with a new snapshot. *)

From S2P Require Import Prelude RaftTypes RaftNode RaftInvariant RaftStep RaftHandlers RaftSafety.

(** Actions that neither write nor acknowledge. *)
Definition bland (a : Action) : Prop :=
  match a with
  | PersistHardState _ _ | PersistLog _ _ | PersistSnapshot _ => False
  | SendMessage _ (MAppendEntriesResponse _) | SendMessage _ (MInstallSnapshotResponse _) => False
  | _ => True
  end.

(** Actions that write nothing. *)
Definition neutral (a : Action) : Prop :=
  match a with PersistHardState _ _ | PersistLog _ _ | PersistSnapshot _ => False | _ => True end.

Definition no_snapshot (a : Action) : Prop := match a with PersistSnapshot _ => False | _ => True end.
Definition no_entry (a : Action) : Prop := match a with ApplyEntry _ => False | _ => True end.

Lemma bland_neutral l : Forall bland l -> Forall neutral l.
Proof. intros H. eapply Forall_impl; [exact H|]. by intros []. Qed.

Create HintDb emits.

Section Emits.
Context {RNG : UniformRandom}.

Definition Emits (Q : Action -> Prop) (s s' : Impl) : Prop :=
  exists new, n_actions s' = n_actions s ++ new /\ Forall Q new.

#[export] Instance Emits_preorder Q : PreOrder (Emits Q).
Proof.
  split; [intros s; exists []; by rewrite app_nil_r|].
  intros s1 s2 s3 (a & Ea & Ca) (b & Eb & Cb). exists (a ++ b).
  rewrite Eb, Ea, app_assoc. split; [done|by apply Forall_app].
Qed.

Lemma modify_Emits Q f : (forall s, n_actions (f s) = n_actions s) -> within (Emits Q) (modify f).
Proof. intros Ha s. exists []. cbn. by rewrite Ha, app_nil_r. Qed.

Lemma push_Emits (Q : Action -> Prop) a : Q a -> within (Emits Q) (push_action a).
Proof. intros Ha s. exists [a]. split; [done|by repeat constructor]. Qed.

Lemma entry_at_Emits Q i : within (Emits Q) (entry_at i).
Proof. intros s. unfold entry_at, bind, get. destruct (_ || _); [apply reflexivity|]. case_match; apply reflexivity. Qed.
#[local] Hint Resolve entry_at_Emits : emits.

Lemma reset_election_deadline_Emits Q : within (Emits Q) reset_election_deadline.
Proof. apply modify_Emits; intros s; by destruct (uniform_draw _ _ _). Qed.
#[local] Hint Resolve reset_election_deadline_Emits : emits.

Ltac emits :=
  repeat first
    [ solve [auto with emits]
    | apply modify_Emits; done
    | apply push_Emits; done
    | apply within_ret; apply _ | apply within_throw; apply _ | apply within_get; apply _
    | apply within_bind; [apply _| |intros ?]
    | apply within_when; [apply _|]
    | apply within_for_each; [apply _|intros ? _]
    | match goal with
      | |- within _ (if ?b then _ else _) => destruct b
      | |- within _ (match ?x with _ => _ end) => destruct x
      end
    | progress cbv zeta ].

Lemma first_conflict_Emits Q fuel t i : within (Emits Q) (first_conflict fuel t i).
Proof. revert i. induction fuel; intros i; cbn [first_conflict]; emits. Qed.
#[local] Hint Resolve first_conflict_Emits : emits.

Lemma scan_entries_Emits Q es : within (Emits Q) (scan_entries es).
Proof. induction es; cbn [scan_entries]; emits. Qed.
#[local] Hint Resolve scan_entries_Emits : emits.

(** ** Replication and commitment *)

Lemma send_append_entries_Emits peer : within (Emits bland) (send_append_entries peer).
Proof.
  unfold send_append_entries, progress_at, put_progress, send_snapshot_chunk, send_log_entries, put_progress, take_rpc_id.
  emits.
Qed.
#[local] Hint Resolve send_append_entries_Emits : emits.

Lemma broadcast_Emits : within (Emits bland) broadcast_append_entries.
Proof. unfold broadcast_append_entries. emits. Qed.

Lemma apply_committed_Emits n : within (Emits bland) (apply_committed n).
Proof. induction n; cbn [apply_committed]; emits. Qed.
#[local] Hint Resolve apply_committed_Emits : emits.

Lemma commit_to_Emits i : within (Emits bland) (commit_to i).
Proof. unfold commit_to. emits. Qed.
#[local] Hint Resolve commit_to_Emits : emits.

Lemma advance_leader_commit_Emits : within (Emits bland) advance_leader_commit.
Proof.
  unfold advance_leader_commit. apply within_bind; [apply _|emits|]. intros s.
  generalize (Z.to_nat (last_log_index s - n_commit_index s)). intros n.
  induction n; cbn [leader_commit_scan]; emits.
Qed.

Lemma advance_follower_commit_Emits c : within (Emits bland) (advance_follower_commit c).
Proof. unfold advance_follower_commit. emits. Qed.

(** ** No entry is applied together with a new snapshot *)

Lemma Emits_bland {A} (m : M Impl A) : within (Emits bland) m -> within (Emits no_snapshot) m.
Proof.
  intros Hm s. destruct (Hm s) as (new & E & H). exists new. split; [done|].
  eapply Forall_impl; [exact H|]. by intros [].
Qed.

#[local] Hint Resolve Emits_bland broadcast_Emits advance_leader_commit_Emits advance_follower_commit_Emits : emits.

Lemma become_leader_Emits : within (Emits no_snapshot) become_leader.
Proof. unfold become_leader, append_local_entry. emits. Qed.
#[local] Hint Resolve become_leader_Emits : emits.

Lemma replace_suffix_Emits es : within (Emits no_snapshot) (replace_suffix es).
Proof. unfold replace_suffix. emits. Qed.
#[local] Hint Resolve replace_suffix_Emits : emits.

Lemma Impl_step_Emits from m :
  within (Emits no_snapshot) (Impl_step from m) \/ within (Emits no_entry) (Impl_step from m).
Proof.
  destruct m as [r|r|r|r|r|r]; [left|left|left|left|right|left];
    unfold Impl_step, become_follower, put_progress; emits.
Qed.

Lemma finish_Emits (body : M Impl unit) Q s s' acts :
  within (Emits Q) body -> n_actions s = [] -> (body ;; finish) s = (s', Ok acts) -> Forall Q acts.
Proof.
  intros Hb Hs (s1 & [] & E1 & E)%bind_inv. destruct (Hb s) as (new & Ha & Hn). rewrite E1, Hs in Ha. cbn in Ha.
  unfold finish in E. apply bind_inv in E as (s2 & [] & E2 & E).
  assert (s2 = s1) as ->.
  { unfold verify_invariants, bind, get in E2. destruct (invariants_hold s1); by injection E2. }
  cbn in E. injection E as <- <-. by rewrite Ha.
Qed.

Lemma perform_exclusive op s s' acts :
  perform op s = (s', Ok acts) -> Forall no_snapshot acts \/ Forall no_entry acts.
Proof.
  assert (forall kind cmd, submit_entry kind cmd s = (s', Ok acts) -> Forall no_snapshot acts) as Hsubmit.
  { intros kind cmd E. apply (finish_Emits _ no_snapshot (set_actions [] s) s' acts) in E; [done| |done].
    unfold append_local_entry. emits. }
  destruct op as [t|from m|cmd| |d]; cbn [perform]; intros E.
  - left. unfold RaftNode_advance_time in E. unfold bind at 1, get in E. destruct (t <? n_now s); [done|].
    apply (finish_Emits _ no_snapshot (set_actions [] (set_now t s)) s' acts) in E; [done| |done].
    unfold start_election. emits.
  - destruct (Impl_step_Emits from m) as [Hm|Hm]; [left|right];
      by apply (finish_Emits _ _ (set_actions [] s) s' acts Hm) in E.
  - left. by eapply Hsubmit.
  - left. by eapply Hsubmit.
  - right. unfold RaftNode_compact in E. unfold bind at 1, modify in E. unfold bind at 1, get in E. cbv zeta in E.
    destruct (_ || _); [done|]. apply bind_inv in E as (s1 & e & E1 & E).
    assert (n_actions s1 = []) as H1.
    { destruct (entry_at_Emits (fun _ => False) (sm_last_included_index d) (set_actions [] s)) as (new & Ha & Hn).
      rewrite E1 in Ha. cbn in Ha. rewrite Ha. by destruct Hn. }
    destruct (negb _); [done|].
    unfold bind at 1, modify in E. eapply finish_Emits; [| |exact E]; [by apply push_Emits|exact H1].
Qed.

Lemma replay_base acts p : Forall no_snapshot acts -> ps_base (replay acts p) = ps_base p.
Proof.
  intros H. revert p. induction H as [|a acts Ha _ IH]; intros p; [done|]. change (replay (a :: acts) p) with (replay acts (persist a p)).
  rewrite IH. by destruct a.
Qed.

Lemma observe_above a b acts e : observe a acts = Some b -> ApplyEntry e ∈ acts -> a < le_index e.
Proof.
  revert a. induction acts as [|x acts IH]; intros a Ho He; [by apply elem_of_nil in He|].
  apply elem_of_cons in He as [<-|He].
  - cbn in Ho. destruct (Z.eqb_spec (le_index e) (a + 1)); [lia|done].
  - destruct x; cbn in Ho; try by apply IH.
    + destruct (Z.eqb_spec (le_index entry) (a + 1)); [|done]. specialize (IH _ Ho He). lia.
    + destruct (Z.ltb_spec a (sm_last_included_index snapshot)); [|done]. specialize (IH _ Ho He). lia.
Qed.

(** What an operation applies, it holds in its log. *)
Lemma applied_held op s s' acts e :
  Inv s -> Room s -> op_typed op -> perform op s = (s', Ok acts) -> ApplyEntry e ∈ acts ->
  base_index s' < le_index e <= n_commit_index s' /\ log_at (n_log s') (le_index e) = Some e.
Proof.
  intros H Hroom Hop E He.
  destruct (perform_cases op s H Hroom Hop) as [(acts' & s1 & E1 & I1 & S1 & _)|(x & s1 & E1 & _)]; [|congruence].
  rewrite E in E1. injection E1 as <- <-. destruct (st_applied _ _ _ S1 e He) as [Hc Hl].
  enough (base_index s' < le_index e) as Hb by (split; [by split|by apply Hl]).
  destruct (perform_exclusive op s s' acts E) as [Hn|Hn].
  - pose proof (st_persist _ _ _ S1) as Hp. apply (f_equal ps_base) in Hp. rewrite replay_base in Hp by done.
    change (ps_base (persistent_of s) = ps_base (persistent_of s')) in Hp. rewrite !ps_base_of in Hp by done.
    pose proof (observe_above _ _ _ _ (st_observe _ _ _ S1) He) as Hi. node_simpl_in Hi.
    pose proof (inv_applied _ H). pose proof (inv_commit _ H). lia.
  - rewrite Forall_forall in Hn. by destruct (Hn _ He).
Qed.
End Emits.
