(* ===== verification/LogTree.v ===== *)
(** * The tree of log entries

    Every log a node ever holds is a path in one tree: an entry is known by its
    index and term, and its parent is the entry before it.  [Anc] is the order of
    that tree, for any set of parent links; a log whose links are in the set is a
    path, and two logs that meet are equal below. *)

From S2P Require Import Prelude RaftTypes RaftNode RaftInvariant RaftStep.

(** The index and term of an entry. *)
Abbreviation key := (LogIndex * Term)%type.

Definition key_of (e : LogEntry) : key := (le_index e, le_term e).

(** Where every log begins. *)
Definition root : key := (0, 0).

(** The last index and term of a log. *)
Definition tip (l : list LogEntry) : key := key_of (default default_entry (last l)).

(** [e] follows an entry of term [pt] in the log [l]. *)
Definition linked (l : list LogEntry) (pt : Term) (e : LogEntry) : Prop :=
  exists k a, l !! k = Some a /\ l !! S k = Some e /\ le_term a = pt.

Section Tree.
Variable Links : Term -> LogEntry -> Prop.

(** [Anc x y]: [x] is [y] or one of its ancestors. *)
Inductive Anc (x : key) : key -> Prop :=
| anc_refl : Anc x x
| anc_link pt e : Links pt e -> Anc x (le_index e - 1, pt) -> Anc x (key_of e).

#[export] Instance Anc_preorder : PreOrder Anc.
Proof.
  split; [constructor|]. intros x y z Hxy Hyz. induction Hyz as [|pt e HL _ IH]; [done|].
  by apply (anc_link _ pt).
Qed.

Lemma Anc_index x y : Anc x y -> x.1 <= y.1.
Proof. induction 1 as [|pt e _ _ IH]; [done|]. cbn in *. lia. Qed.

Lemma Anc_same_index x y : Anc x y -> y.1 <= x.1 -> x = y.
Proof.
  intros H. destruct H as [|pt e _ H]; [done|]. apply Anc_index in H. cbn in *. lia.
Qed.

Lemma Anc_term x y : (forall pt e, Links pt e -> pt <= le_term e) -> Anc x y -> x.2 <= y.2.
Proof. intros Hm. induction 1 as [|pt e HL _ IH]; [done|]. specialize (Hm _ _ HL). cbn in *. lia. Qed.

(** An entry is determined by its index and term, and so is its parent. *)
Definition functional : Prop := forall pt e pt' e',
  Links pt e -> Links pt' e' -> key_of e = key_of e' -> pt = pt' /\ e = e'.

Lemma Anc_parent x pt e :
  functional -> Links pt e -> Anc x (key_of e) -> x = key_of e \/ Anc x (le_index e - 1, pt).
Proof.
  intros Hf HL H. remember (key_of e) as y eqn:Ey. destruct H as [|pt' e' HL' H]; [by left|].
  right. destruct (Hf _ _ _ _ HL HL' (eq_sym Ey)) as [-> ->]. done.
Qed.

(** The ancestors of an entry form a chain. *)
Lemma Anc_linear x y z : functional -> Anc x z -> Anc y z -> x.1 <= y.1 -> Anc x y.
Proof.
  intros Hf Hx Hy Hle. revert Hx. induction Hy as [|pt e HL Hy IH]; intros Hx; [done|].
  apply Anc_index in Hy as Hi. cbn in Hi.
  destruct (Anc_parent x pt e Hf HL Hx) as [->|Hp]; [cbn in *; lia|by apply IH].
Qed.

(** ** Logs are paths *)

Section Path.
Variables (T : Term) (l : list LogEntry).
Hypothesis Hinv : LogInv T l.
Hypothesis Hin : forall pt e, linked l pt e -> Links pt e.

Lemma log_at_Some i e : log_at l i = Some e <-> exists k, l !! k = Some e /\ i = base_of l + Z.of_nat k.
Proof.
  unfold log_at. split.
  - destruct (Z.ltb_spec i (base_of l)); [done|]. intros He. exists (Z.to_nat (i - base_of l)). split; [done|lia].
  - intros (k & Hk & ->). rewrite (proj2 (Z.ltb_ge _ _)) by lia.
    by replace (Z.to_nat (base_of l + Z.of_nat k - base_of l)) with k by lia.
Qed.

Lemma log_at_index i e : log_at l i = Some e -> le_index e = i.
Proof. rewrite log_at_Some. intros (k & Hk & ->). by apply (li_index _ _ Hinv). Qed.

Lemma log_at_range i : is_Some (log_at l i) <-> base_of l <= i <= last_of l.
Proof.
  rewrite (LogInv_last _ _ Hinv). split.
  - intros (e & He). apply log_at_Some in He as (k & Hk & ->). apply lookup_lt_Some in Hk. lia.
  - intros Hi. destruct (lookup_lt_is_Some_2 l (Z.to_nat (i - base_of l)) ltac:(lia)) as [e He].
    exists e. apply log_at_Some. exists (Z.to_nat (i - base_of l)). split; [done|lia].
Qed.

Lemma term_at_range i : is_Some (term_at l i) <-> base_of l <= i <= last_of l.
Proof. unfold term_at. rewrite fmap_is_Some. apply log_at_range. Qed.

Lemma linked_log_at i pt e :
  linked l pt e /\ le_index e = i <-> log_at l i = Some e /\ base_of l < i /\ term_at l (i - 1) = Some pt.
Proof.
  unfold term_at. split.
  - intros ((k & a & Ha & He & <-) & <-). rewrite (li_index _ _ Hinv _ _ He). split_and!.
    + apply log_at_Some. by exists (S k).
    + lia.
    + replace (base_of l + Z.of_nat (S k) - 1) with (base_of l + Z.of_nat k) by lia.
      by rewrite (proj2 (log_at_Some _ a)) by eauto.
  - intros (He & Hi & Hp). apply log_at_Some in He as (k & Hk & ->).
    destruct k as [|k]; [lia|]. destruct (log_at l _) as [a|] eqn:Ha; [|done]. injection Hp as <-.
    apply log_at_Some in Ha as (j & Hj & Ej). assert (j = k) as -> by lia.
    split; [by exists k, a|]. by apply (li_index _ _ Hinv).
Qed.

Lemma tip_index : (tip l).1 = last_of l.
Proof. done. Qed.

Lemma tip_term_at : term_at l (last_of l) = Some (tip l).2.
Proof.
  pose proof (LogInv_nonempty _ _ Hinv) as Hne.
  destruct (lookup_lt_is_Some_2 l (pred (length l)) ltac:(lia)) as [e He].
  unfold term_at, tip. rewrite (LogInv_last _ _ Hinv), last_lookup, He.
  rewrite (proj2 (log_at_Some _ e)); [done|]. exists (pred (length l)). split; [done|lia].
Qed.

(** Going down a log is going up the tree. *)
Lemma path i j ti tj :
  i <= j -> term_at l i = Some ti -> term_at l j = Some tj -> Anc (i, ti) (j, tj).
Proof.
  intros Hij Hi. pose proof (proj1 (term_at_range i) (mk_is_Some _ _ Hi)) as Hri.
  replace j with (i + Z.of_nat (Z.to_nat (j - i))) by lia.
  generalize (Z.to_nat (j - i)) as n. clear j Hij. intros n. revert tj.
  induction n as [|n IH]; intros tj Hj.
  { replace (i + Z.of_nat 0) with i in * by lia. rewrite Hi in Hj. injection Hj as ->. constructor. }
  pose proof (proj1 (term_at_range _) (mk_is_Some _ _ Hj)) as Hrj.
  unfold term_at in Hj. destruct (log_at l _) as [e|] eqn:He; [|done]. injection Hj as <-.
  destruct (proj2 (term_at_range (i + Z.of_nat n)) ltac:(lia)) as [tp Hp].
  pose proof (log_at_index _ _ He) as Hidx. rewrite <- Hidx.
  change (le_index e, le_term e) with (key_of e). apply (anc_link _ tp).
  - apply Hin. apply (linked_log_at (i + Z.of_nat (S n))). split_and!; [done|lia|].
    by replace (i + Z.of_nat (S n) - 1) with (i + Z.of_nat n) by lia.
  - replace (le_index e - 1) with (i + Z.of_nat n) by lia. by apply IH.
Qed.

Lemma path_tip i t : term_at l i = Some t -> Anc (i, t) (tip l).
Proof.
  intros Hi. pose proof (proj1 (term_at_range i) (mk_is_Some _ _ Hi)).
  replace (tip l) with ((tip l).1, (tip l).2) by by destruct (tip l).
  apply path; [rewrite tip_index; lia|done|]. rewrite tip_index. apply tip_term_at.
Qed.

(** What lies between the beginning of a log and one of its entries is in the log. *)
Lemma path_back i j ti tj :
  functional -> Anc (i, ti) (j, tj) -> term_at l j = Some tj -> base_of l <= i -> term_at l i = Some ti.
Proof.
  intros Hf HA Hj Hb. pose proof (Anc_index _ _ HA) as Hij. cbn in Hij.
  pose proof (proj1 (term_at_range j) (mk_is_Some _ _ Hj)).
  destruct (proj2 (term_at_range i) ltac:(lia)) as [t Ht]. rewrite Ht. f_equal.
  pose proof (path i j t tj Hij Ht Hj) as HA'.
  pose proof (Anc_linear _ _ _ Hf HA' HA (Z.le_refl _)) as HE.
  apply Anc_same_index in HE; [|done]. by injection HE.
Qed.

Lemma path_back_tip i t : functional -> Anc (i, t) (tip l) -> base_of l <= i -> term_at l i = Some t.
Proof.
  intros Hf HA Hb. apply (path_back i (last_of l) t (tip l).2); [done| |apply tip_term_at|done].
  rewrite <- tip_index. by destruct (tip l).
Qed.
End Path.
End Tree.

Lemma Anc_mono (L L' : Term -> LogEntry -> Prop) x y :
  (forall pt e, L pt e -> L' pt e) -> Anc L x y -> Anc L' x y.
Proof. intros HL. induction 1 as [|pt e H _ IH]; [constructor|]. by apply (anc_link _ _ pt); [apply HL|]. Qed.

(** New links give no new ancestors to what was connected before. *)
Lemma Anc_back (L L' : Term -> LogEntry -> Prop) r x c :
  functional L' -> (forall pt e, L pt e -> L' pt e) -> Anc L r x -> r.1 <= c.1 -> Anc L' c x -> Anc L c x.
Proof.
  intros Hf HL Hr Hc. induction Hr as [|pt e H _ IH]; intros HA.
  - apply Anc_same_index in HA; [subst c; constructor|done].
  - destruct (Anc_parent L' c pt e Hf (HL _ _ H) HA) as [->|Hp]; [constructor|].
    by apply (anc_link _ _ pt); [|apply IH].
Qed.

(** ** Log matching *)

(** Two paths of one tree that share an entry are equal from there down. *)
Lemma paths_match Links T1 l1 T2 l2 i t :
  functional Links -> LogInv T1 l1 -> LogInv T2 l2 ->
  (forall pt e, linked l1 pt e -> Links pt e) -> (forall pt e, linked l2 pt e -> Links pt e) ->
  term_at l1 i = Some t -> term_at l2 i = Some t -> agree_upto i l1 l2 \/ base_of l2 < base_of l1.
Proof.
  intros Hf I1 I2 L1 L2 H1 H2. destruct (Z.lt_ge_cases (base_of l2) (base_of l1)) as [|Hb]; [by right|left].
  assert (forall j, base_of l2 <= j <= i -> term_at l2 j = term_at l1 j) as Ht.
  { intros j Hj. pose proof (proj1 (term_at_range _ _ I1 i) (mk_is_Some _ _ H1)).
    destruct (proj2 (term_at_range _ _ I1 j) ltac:(lia)) as [tj Hj1]. rewrite Hj1.
    apply (path_back Links T2 l2 I2 L2 j i tj t Hf); [|done|lia].
    apply (path Links T1 l1 I1 L1); [lia|done|done]. }
  intros j Hj. split; [by apply Ht|]. intros Hlt.
  pose proof (proj1 (term_at_range _ _ I1 i) (mk_is_Some _ _ H1)).
  destruct (proj2 (log_at_range _ _ I1 j) ltac:(lia)) as [e1 E1].
  assert (is_Some (term_at l2 j)) as [tj Hj2].
  { rewrite (Ht j Hj). unfold term_at. by rewrite E1. }
  unfold term_at in Hj2. destruct (log_at l2 j) as [e2|] eqn:E2; [|done]. rewrite E1. f_equal.
  destruct (proj2 (term_at_range _ _ I1 (j - 1)) ltac:(lia)) as [p1 P1].
  pose proof (Ht (j - 1) ltac:(lia)) as P2. rewrite P1 in P2.
  assert (Links p1 e1) as K1 by (apply L1, (linked_log_at _ _ I1 j); split_and!; [done|lia|done]).
  assert (Links p1 e2) as K2 by (apply L2, (linked_log_at _ _ I2 j); split_and!; [done|lia|done]).
  apply (Hf _ _ _ _ K2 K1). unfold key_of. f_equal.
  - by rewrite (log_at_index _ _ I1 _ _ E1), (log_at_index _ _ I2 _ _ E2).
  - specialize (Ht j Hj). unfold term_at in Ht. rewrite E1, E2 in Ht. by injection Ht.
Qed.
