(* ===== verification/AbstractRaft.v ===== *)
(** * The replication protocol, step by step

    What the operations of [RaftNode] do, cut into the smallest steps that make
    sense between nodes: a node enters a term, votes, is elected, appends or
    accepts entries, installs a snapshot, compacts its log, records what a peer
    holds, and commits.  A node is its durable state and what it keeps in memory;
    a step reads the messages that were sent to the node.  Any node may crash
    after any step, and every message may be lost, repeated or delayed.

    [RaftRefinement] shows that every operation of the code is a sequence of these
    steps; [AbstractSafety] shows what the steps keep. *)

From S2P Require Import Prelude RaftTypes RaftNode RaftInvariant RaftStep RaftHandlers LogTree.

(** What a node keeps in memory; [m_match] is what a leader knows of its peers. *)
Record Mem := mkMem {
  m_role : Role;
  m_commit : LogIndex;
  m_votes : gset NodeId;
  m_match : gmap NodeId LogIndex;
}.

(** The log of a durable state, with the sentinel of its snapshot. *)
Definition dlog (d : RaftPersistentState) : list LogEntry :=
  sentinel (snapshot_index_of (ps_snapshot d)) (snapshot_term_of (ps_snapshot d)) :: ps_log d.

(** [b] is at least as up to date as [a]. *)
Definition uptodate (a b : key) : Prop := a.2 < b.2 \/ a.2 = b.2 /\ a.1 <= b.1.

(** The log [l] holds what the request carries. *)
Definition Holds (l : list LogEntry) (r : AppendEntries) : Prop :=
  term_at l (ae_previous_log_index r) = Some (ae_previous_log_term r) /\
  (forall k e, ae_entries r !! k = Some e -> log_at l (ae_previous_log_index r + 1 + Z.of_nat k) = Some e).

Section Protocol.
Variable voters : list NodeId.

Definition majority (Q : gset NodeId) : Prop :=
  Q ⊆ list_to_set voters /\ size_of voters / 2 + 1 <= Z.of_nat (size Q).

Section Node.
(** The messages sent so far, and the node. *)
Variable net : NodeId -> NodeId -> Message -> Prop.
Variable i : NodeId.

(** A follower that takes [suffix], the end of the request's entries, in place of
    what its log holds from there on. *)
Record Splices (l : list LogEntry) (r : AppendEntries) (pre suffix : list LogEntry) : Prop := {
  spl_entries : ae_entries r = pre ++ suffix;
  spl_new : suffix <> [];
  spl_base : base_of l <= ae_previous_log_index r;
  spl_previous : term_at l (ae_previous_log_index r) = Some (ae_previous_log_term r);
  spl_kept : forall k e, pre !! k = Some e -> log_at l (ae_previous_log_index r + 1 + Z.of_nat k) = Some e;
  spl_last : ae_previous_log_index r + size_of pre <= last_of l;
  spl_differs : forall e t, head suffix = Some e ->
    term_at l (ae_previous_log_index r + 1 + size_of pre) = Some t -> t <> le_term e;
}.

Inductive lstep (d : RaftPersistentState) (m : Mem) : RaftPersistentState -> Mem -> Prop :=
| l_enter t :
    ps_current_term d < t ->
    lstep d m (persist (PersistHardState t None) d) (mkMem follower (m_commit m) ∅ ∅)
| l_follow : lstep d m d (mkMem follower (m_commit m) ∅ ∅)
| l_vote x r :
    net x i (MRequestVote r) -> m_role m = follower -> rv_term r = ps_current_term d ->
    ps_voted_for d = None ->
    uptodate (tip (dlog d)) (rv_last_log_index r, rv_last_log_term r) ->
    lstep d m (persist (PersistHardState (ps_current_term d) (Some x)) d) m
| l_campaign :
    m_role m <> leader ->
    lstep d m (persist (PersistHardState (ps_current_term d + 1) (Some i)) d)
      (mkMem candidate (m_commit m) {[i]} ∅)
| l_count v r :
    net v i (MRequestVoteResponse r) -> v ∈ voters -> m_role m = candidate ->
    rvr_term r = ps_current_term d -> rvr_vote_granted r = true ->
    lstep d m d (mkMem candidate (m_commit m) ({[v]} ∪ m_votes m) (m_match m))
| l_elect e mt :
    m_role m = candidate -> size_of voters / 2 + 1 <= Z.of_nat (size (m_votes m)) ->
    le_index e = last_of (dlog d) + 1 -> le_term e = ps_current_term d ->
    1 <= le_term e -> le_index e <= u64_max ->
    (forall v k, mt !! v = Some k -> k = 0 /\ v ∈ voters /\ v <> i) ->
    lstep d m (persist (PersistLog (le_index e) [e]) d) (mkMem leader (m_commit m) ∅ mt)
| l_append e :
    m_role m = leader -> le_index e = last_of (dlog d) + 1 -> le_term e = ps_current_term d ->
    1 <= le_term e -> le_index e <= u64_max ->
    lstep d m (persist (PersistLog (le_index e) [e]) d) m
| l_accept from r pre suffix :
    net from i (MAppendEntries r) -> m_role m = follower -> ae_term r = ps_current_term d ->
    Splices (dlog d) r pre suffix -> m_commit m <= ae_previous_log_index r + size_of pre ->
    lstep d m (persist (PersistLog (ae_previous_log_index r + 1 + size_of pre) suffix) d) m
| l_install from r x :
    net from i (MInstallSnapshot r) -> m_role m = follower -> ins_term r = ps_current_term d ->
    sm_last_included_index x = ins_last_included_index r ->
    sm_last_included_term x = ins_last_included_term r -> m_commit m < sm_last_included_index x ->
    lstep d m (persist (PersistSnapshot x) d) (mkMem follower (sm_last_included_index x) (m_votes m) (m_match m))
| l_compact x :
    base_of (dlog d) < sm_last_included_index x <= m_commit m -> sm_last_included_index x < u64_max ->
    term_at (dlog d) (sm_last_included_index x) = Some (sm_last_included_term x) ->
    lstep d m (persist (PersistSnapshot x) d) m
| l_commit_leader c Q :
    m_role m = leader -> m_commit m < c -> term_at (dlog d) c = Some (ps_current_term d) ->
    majority Q -> (forall v, v ∈ Q -> v = i \/ exists k, m_match m !! v = Some k /\ c <= k) ->
    lstep d m d (mkMem leader c (m_votes m) (m_match m))
| l_commit_follower from r c :
    net from i (MAppendEntries r) -> m_role m = follower -> ae_term r = ps_current_term d ->
    Holds (dlog d) r -> m_commit m < c -> c <= ae_leader_commit r ->
    c <= ae_previous_log_index r + size_of (ae_entries r) ->
    lstep d m d (mkMem follower c (m_votes m) (m_match m))
| l_match v r k :
    net v i (MAppendEntriesResponse r) -> m_role m = leader -> aer_term r = ps_current_term d ->
    aer_success r = true -> 0 <= k <= aer_match_index r -> is_Some (m_match m !! v) ->
    lstep d m d (mkMem leader (m_commit m) (m_votes m) (<[v := k]> (m_match m)))
| l_match_snapshot v r x :
    net v i (MInstallSnapshotResponse r) -> m_role m = leader -> insr_term r = ps_current_term d ->
    insr_success r = true -> ps_snapshot d = Some x ->
    insr_last_included_index r = sm_last_included_index x ->
    size_of (sm_state_machine x) <= insr_next_offset r -> is_Some (m_match m !! v) ->
    lstep d m d (mkMem leader (m_commit m) (m_votes m) (<[v := sm_last_included_index x]> (m_match m))).

(** The messages the node may send: each is true of its state, and a response
    answers a request that was sent to it. *)
Definition Tells (d : RaftPersistentState) (m : Mem) (to : NodeId) (msg : Message) : Prop :=
  match msg with
  | MRequestVote r =>
      m_role m = candidate /\ rv_term r = ps_current_term d /\
      (rv_last_log_index r, rv_last_log_term r) = tip (dlog d)
  | MRequestVoteResponse r =>
      rvr_term r = ps_current_term d /\ (rvr_vote_granted r = true -> ps_voted_for d = Some to)
  | MAppendEntries r =>
      m_role m = leader /\ ae_term r = ps_current_term d /\ Holds (dlog d) r /\
      ae_leader_commit r = m_commit m
  | MInstallSnapshot r =>
      m_role m = leader /\ ins_term r = ps_current_term d /\
      exists x, ps_snapshot d = Some x /\ ins_last_included_index r = sm_last_included_index x /\
        ins_last_included_term r = sm_last_included_term x /\
        ins_total_size r = size_of (sm_state_machine x)
  | MAppendEntriesResponse r =>
      aer_success r = true -> aer_term r = ps_current_term d /\
      exists q, net to i (MAppendEntries q) /\ ae_term q = ps_current_term d /\ Holds (dlog d) q /\
        aer_match_index r = ae_previous_log_index q + size_of (ae_entries q)
  | MInstallSnapshotResponse r =>
      insr_success r = true -> insr_term r = ps_current_term d /\
      exists q, net to i (MInstallSnapshot q) /\ ins_term q = ps_current_term d /\
        insr_last_included_index r = ins_last_included_index q /\
        (insr_next_offset r < ins_total_size q \/ ins_last_included_index q <= m_commit m)
  end.
End Node.

(** ** All nodes *)

Record World := mkWorld {
  w_disk : NodeId -> RaftPersistentState;
  w_mem : NodeId -> option Mem;
  w_net : NodeId -> NodeId -> Message -> Prop;
}.

Definition upd {A} (i : NodeId) (x : A) (f : NodeId -> A) : NodeId -> A :=
  fun j => if decide (j = i) then x else f j.

Inductive wstep (w : World) : World -> Prop :=
| w_local i m d' m' :
    w_mem w i = Some m -> lstep (w_net w) i (w_disk w i) m d' m' ->
    wstep w (mkWorld (upd i d' (w_disk w)) (upd i (Some m') (w_mem w)) (w_net w))
| w_send i m to msg :
    w_mem w i = Some m -> Tells (w_net w) i (w_disk w i) m to msg ->
    wstep w (mkWorld (w_disk w) (w_mem w)
      (fun a b c => w_net w a b c \/ a = i /\ b = to /\ c = msg))
| w_crash i : wstep w (mkWorld (w_disk w) (upd i None (w_mem w)) (w_net w))
| w_start i :
    i ∈ voters -> w_mem w i = None ->
    wstep w (mkWorld (w_disk w)
      (upd i (Some (mkMem follower (base_of (dlog (w_disk w i))) ∅ ∅)) (w_mem w)) (w_net w)).

(** No node runs, and nothing was ever stored. *)
Definition genesis : World := mkWorld (fun _ => empty_persistent_state) (fun _ => None) (fun _ _ _ => False).
End Protocol.

Lemma upd_eq {A} i (x : A) f : upd i x f i = x.
Proof. unfold upd. by rewrite decide_True. Qed.

Lemma upd_ne {A} i j (x : A) f : j <> i -> upd i x f j = f j.
Proof. intros H. unfold upd. by rewrite decide_False. Qed.

(** ** What a step writes to the log *)

Lemma base_dlog d : base_of (dlog d) = ps_base d.
Proof. done. Qed.

Lemma dlog_hard t v d : dlog (persist (PersistHardState t v) d) = dlog d.
Proof. done. Qed.

Lemma dlog_entries from es d :
  ps_base d < from ->
  dlog (persist (PersistLog from es) d) = take (Z.to_nat (from - base_of (dlog d))) (dlog d) ++ es.
Proof.
  intros H. rewrite base_dlog. unfold dlog at 2. unfold dlog. cbn [persist ps_snapshot ps_log].
  destruct (Z.to_nat (from - ps_base d)) as [|n] eqn:E; [lia|]. cbn [take app].
  by replace (Z.to_nat (from - ps_base d - 1)) with n by lia.
Qed.

(** What is left of a log once the snapshot [x] is stored. *)
Definition behind (l : list LogEntry) (x : StateMachineSnapshot) : list LogEntry :=
  if decide (term_at l (sm_last_included_index x) = Some (sm_last_included_term x))
  then drop (Z.to_nat (sm_last_included_index x - base_of l + 1)) l else [].

Lemma dlog_snapshot x d :
  ps_base d < sm_last_included_index x ->
  dlog (persist (PersistSnapshot x) d) =
    sentinel (sm_last_included_index x) (sm_last_included_term x) :: behind (dlog d) x.
Proof.
  intros H. unfold behind, term_at, log_at. rewrite base_dlog. unfold dlog at 1.
  cbn [persist ps_snapshot ps_log snapshot_index_of snapshot_term_of]. f_equal.
  rewrite (proj2 (Z.ltb_ge _ _)) by lia.
  replace (Z.to_nat (sm_last_included_index x - ps_base d + 1))
    with (S (Z.to_nat (sm_last_included_index x - ps_base d))) by lia.
  destruct (Z.to_nat (sm_last_included_index x - ps_base d)) as [|n] eqn:E; [lia|].
  unfold dlog. cbn [lookup list_lookup drop pred]. change (list_lookup n (ps_log d)) with (ps_log d !! n).
  destruct (ps_log d !! n) as [e|] eqn:Ee; cbn [fmap option_fmap option_map].
  - destruct (Z.eqb_spec (le_term e) (sm_last_included_term x)) as [Et|Et];
      [rewrite decide_True by congruence|rewrite decide_False by congruence]; done.
  - by rewrite decide_False.
Qed.
