(* ===== verification/ReplicatedLog.v ===== *)
(** * What the past of a cluster commits

    Facts about the durable states that the nodes of a cluster have held, with no
    regard to what they hold now: their logs form one tree, the entries of a term
    form a chain below one elected leader, and an entry that a majority held in
    its own term is below every entry of a later term. *)

From S2P Require Import Prelude RaftTypes RaftNode RaftInvariant RaftStep LogTree ElectionSafety AbstractRaft.

Lemma majorities_meet voters Q1 Q2 :
  majority voters Q1 -> majority voters Q2 -> exists v, v ∈ Q1 /\ v ∈ Q2.
Proof. intros [H1 S1] [H2 S2]. by apply (quorums_intersect voters). Qed.

Lemma majority_inhabited voters Q : majority voters Q -> exists v, v ∈ Q.
Proof. intros H. destruct (majorities_meet _ _ _ H H) as (v & Hv & _). eauto. Qed.

Section Past.
Variable voters : list NodeId.

(** [P v d]: node [v] has held the durable state [d]. *)
Variable P : NodeId -> RaftPersistentState -> Prop.

Definition Links (pt : Term) (e : LogEntry) : Prop := exists v d, P v d /\ linked (dlog d) pt e.

Definition VotedFor (v : NodeId) (T : Term) (x : NodeId) : Prop :=
  exists d, P v d /\ ps_current_term d = T /\ ps_voted_for d = Some x.

(** [v] held the entry [c] in the term of [c]. *)
Definition Acked (v : NodeId) (c : key) : Prop :=
  exists d, P v d /\ ps_current_term d = c.2 /\ Anc Links c (tip (dlog d)).

Definition Committed (c : key) : Prop := exists Q, majority voters Q /\ forall v, v ∈ Q -> Acked v c.

(** [x] was committed in a term up to [B], itself or by a later entry. *)
Definition Com (B : Term) (x : key) : Prop :=
  x = root \/ exists c, Committed c /\ c.2 <= B /\ Anc Links x c.

(** Some entry of a later term, up to [B], is not above [c]. *)
Definition Bad (c : key) (B : Term) : Prop :=
  exists pt e, Links pt e /\ c.2 < le_term e <= B /\ ~ Anc Links c (key_of e).

(** [v] voted in term [T] for node [i], whose log ended at [p]; what [v] held then. *)
Definition Ballot (v : NodeId) (T : Term) (i : NodeId) (p : key) (B : Term) : Prop :=
  exists d, P v d /\ ps_current_term d = T /\ ps_voted_for d = Some i /\ uptodate (tip (dlog d)) p /\
    forall c, Acked v c -> c.2 < T -> Anc Links c (tip (dlog d)) \/ Bad c B.

(** The election behind the entries of term [T]: node [i] was elected with a log
    that ended at [p], and every entry of the term is above [p]. *)
Definition Reign (T : Term) : Prop :=
  exists i p Q, majority voters Q /\ (forall v, v ∈ Q -> Ballot v T i p (T - 1)) /\
    p.2 < T /\ Anc Links root p /\ (exists d, P i d /\ (tip (dlog d)).2 = T) /\
    forall pt e, Links pt e -> le_term e = T -> Anc Links p (key_of e).

Record Tree : Prop := {
  t_wf : forall v d, P v d -> LogInv (ps_current_term d) (dlog d) /\ Anc Links root (tip (dlog d));
  t_fun : functional Links;
  t_votes : forall v T x y, VotedFor v T x -> VotedFor v T y -> x = y;
  t_chain : forall pt e pt' e', Links pt e -> Links pt' e' -> le_term e = le_term e' ->
    le_index e <= le_index e' -> Anc Links (key_of e) (key_of e');
  t_reign : forall pt e, Links pt e -> Reign (le_term e);
}.

(** *** Well-formed logs *)

Section Logs.
Hypothesis Hwf : forall v d, P v d -> LogInv (ps_current_term d) (dlog d).

Lemma links_facts pt e :
  Links pt e -> pt <= le_term e /\ 1 <= le_index e /\ 1 <= le_term e /\ 0 <= pt.
Proof.
  intros (v & d & Hd & k & a & Ha & He & <-). pose proof (Hwf v d Hd) as Hl.
  pose proof (LogInv_base _ _ Hl). pose proof (li_index _ _ Hl _ _ He).
  pose proof (li_positive _ _ Hl (S k) e ltac:(lia) He). pose proof (LogInv_terms_nonneg _ _ _ _ Hl Ha).
  split_and!; [|lia|lia|lia]. by apply (li_sorted _ _ Hl k (S k)); [lia| |].
Qed.

Lemma Anc_terms x y : Anc Links x y -> x.2 <= y.2.
Proof. apply Anc_term. intros pt e HL. apply (links_facts _ _ HL). Qed.

Lemma Anc_nonneg c x : Anc Links c x -> 0 <= x.1 -> 0 <= c.1.
Proof.
  induction 1 as [|pt e HL _ IH]; [done|]. intros _. apply IH. cbn.
  pose proof (links_facts _ _ HL). lia.
Qed.
End Logs.

Section Facts.
Hypothesis HT : Tree.

Lemma in_links v d pt e : P v d -> linked (dlog d) pt e -> Links pt e.
Proof. intros Hd Hl. by exists v, d. Qed.

Lemma past_log v d : P v d -> LogInv (ps_current_term d) (dlog d).
Proof. intros Hd. apply (t_wf HT v d Hd). Qed.

Lemma Anc_root c : Anc Links c root -> c = root.
Proof.
  intros H. apply Anc_same_index in H as ?; [done|].
  apply (Anc_nonneg past_log) in H; [done|cbn; lia].
Qed.

(** What hangs on the root is the root or an entry. *)
Lemma rooted_linked x : Anc Links root x -> x = root \/ exists pt e, Links pt e /\ key_of e = x.
Proof. intros H. destruct H as [|pt e HL _]; [by left|right; eauto]. Qed.

Lemma rooted_below c x : Anc Links root x -> Anc Links c x -> Anc Links root c.
Proof.
  intros Hr Hc. apply (Anc_linear _ _ _ x); [apply HT|done|done|]. cbn.
  apply (Anc_nonneg past_log c x Hc). apply Anc_index in Hr. cbn in Hr. lia.
Qed.

Lemma past_rooted v d i t : P v d -> term_at (dlog d) i = Some t -> Anc Links root (i, t).
Proof.
  intros Hd Hi. apply (rooted_below _ (tip (dlog d))); [by apply (t_wf HT v)|].
  apply (path_tip _ (ps_current_term d)); [by apply (past_log v)| |done]. intros pt e. by apply (in_links v).
Qed.

Lemma past_path v d i j ti tj :
  P v d -> i <= j -> term_at (dlog d) i = Some ti -> term_at (dlog d) j = Some tj ->
  Anc Links (i, ti) (j, tj).
Proof.
  intros Hd. apply (path _ (ps_current_term d)); [by apply (past_log v)|]. intros pt e. by apply (in_links v).
Qed.

Lemma past_path_tip v d i t : P v d -> term_at (dlog d) i = Some t -> Anc Links (i, t) (tip (dlog d)).
Proof.
  intros Hd. apply (path_tip _ (ps_current_term d)); [by apply (past_log v)|]. intros pt e. by apply (in_links v).
Qed.

Lemma past_back_tip v d i t :
  P v d -> Anc Links (i, t) (tip (dlog d)) -> base_of (dlog d) <= i -> term_at (dlog d) i = Some t.
Proof.
  intros Hd. apply (path_back_tip _ (ps_current_term d)); [by apply (past_log v)| |apply HT].
  intros pt e. by apply (in_links v).
Qed.

(** Entries of one term are in one line. *)
Lemma same_term x y :
  Anc Links root x -> Anc Links root y -> x.2 = y.2 -> x.1 <= y.1 -> Anc Links x y.
Proof.
  intros Hx Hy Ht Hi. destruct (rooted_linked x Hx) as [->|(pt & e & HL & <-)]; [done|].
  destruct (rooted_linked y Hy) as [->|(pt' & e' & HL' & <-)].
  - pose proof (links_facts past_log _ _ HL). cbn in *. lia.
  - by apply (t_chain HT pt e pt' e').
Qed.

Lemma Acked_rooted v c : Acked v c -> Anc Links root c.
Proof. intros (d & Hd & _ & Hc). apply (rooted_below _ (tip (dlog d))); [by apply (t_wf HT v)|done]. Qed.

Lemma Committed_rooted c : Committed c -> Anc Links root c.
Proof. intros (Q & HQ & Hv). destruct (majority_inhabited _ _ HQ) as [v Hin]. by eapply Acked_rooted, Hv. Qed.

(** ** Leader completeness *)

Lemma committed_below c : Committed c -> forall pt e, Links pt e -> c.2 < le_term e -> Anc Links c (key_of e).
Proof.
  intros HC. pose proof (Committed_rooted c HC) as Hroot. destruct HC as (Q & HQ & Hacks).
  assert (forall n pt e, Links pt e -> c.2 < le_term e -> (Z.to_nat (le_term e) < n)%nat ->
    Anc Links c (key_of e)) as Hn; [|intros pt e HL Hlt; apply (Hn (S (Z.to_nat (le_term e))) pt); [done|done|lia]].
  induction n as [|n IH]; intros pt e HL Hlt Hb; [lia|]. pose proof (links_facts past_log _ _ HL) as Hpos.
  destruct (t_reign HT pt e HL) as (i & p & Q' & HQ' & Hballots & Hp & Hrp & _ & Hall).
  destruct (majorities_meet _ _ _ HQ HQ') as (v & Hv & Hv').
  destruct (Hballots v Hv') as (d & Hd & HTd & _ & Hup & Hkept).
  assert (Anc Links c p) as Hcp; [|etransitivity; [exact Hcp|by apply (Hall pt)]].
  assert (Anc Links c (tip (dlog d))) as Hct.
  { destruct (Hkept c (Hacks v Hv) Hlt) as [Hc|(pt2 & e2 & HL2 & Ht2 & Hno)]; [done|].
    destruct Hno. apply (IH pt2); [done|lia|lia]. }
  pose proof (Anc_terms past_log _ _ Hct) as Hterm. destruct Hup as [Hup|[Hup Hidx]].
  - destruct (rooted_linked p Hrp) as [->|(pp & ep & HLp & <-)].
    + apply (Anc_terms past_log) in Hroot. cbn in *. lia.
    + apply (IH pp); [done|cbn in *; lia|cbn in *; lia].
  - etransitivity; [exact Hct|]. by apply same_term; [apply (t_wf HT v)| | |].
Qed.

(** Committed entries are in one line. *)
Lemma committed_chain c c' : Committed c -> Committed c' -> Anc Links c c' \/ Anc Links c' c.
Proof.
  intros H H'. pose proof (Committed_rooted _ H) as R. pose proof (Committed_rooted _ H') as R'.
  assert (forall a b, Committed a -> Anc Links root a -> Anc Links root b -> a.2 < b.2 -> Anc Links a b) as Hlt.
  { intros a b Ha Ra Rb Hab. destruct (rooted_linked b Rb) as [->|(pt & e & HL & <-)].
    - apply (Anc_terms past_log) in Ra. cbn in *. lia.
    - by apply (committed_below a Ha pt). }
  destruct (Z.lt_trichotomy c.2 c'.2) as [?|[?|?]]; [left; by apply Hlt| |right; by apply Hlt].
  destruct (Z.le_ge_cases c.1 c'.1); [left|right]; by apply same_term.
Qed.

Lemma Com_chain B B' x y : Com B x -> Com B' y -> Anc Links root y -> x.1 <= y.1 -> Anc Links x y.
Proof.
  intros Hx Hy Ry Hi. destruct Hx as [->|(c & Hc & _ & Hxc)]; [done|].
  destruct Hy as [->|(c' & Hc' & _ & Hyc)].
  - pose proof (rooted_below x c (Committed_rooted c Hc) Hxc) as Rx. pose proof (Anc_index _ _ _ Rx).
    cbn in *. replace x with root; [done|]. apply (Anc_same_index Links); [done|cbn; lia].
  - destruct (committed_chain c c' Hc Hc') as [H|H].
    + apply (Anc_linear _ _ _ c'); [apply HT|by etransitivity|done|done].
    + apply (Anc_linear _ _ _ c); [apply HT|done|by etransitivity|done].
Qed.

Lemma Com_below B x y : Com B y -> Anc Links x y -> Com B x.
Proof.
  intros [->|(c & Hc & HB & Hy)] Hx; [left; by apply Anc_root|]. right. exists c.
  split_and!; [done|done|by etransitivity].
Qed.

Lemma Com_later B B' x : B <= B' -> Com B x -> Com B' x.
Proof. intros HB [->|(c & Hc & Hcb & Hx)]; [by left|right]. exists c. split_and!; [done|lia|done]. Qed.

(** Two nodes elected in one term are one. *)
Lemma elected_once T i j Qi Qj :
  majority voters Qi -> majority voters Qj ->
  (forall v, v ∈ Qi -> VotedFor v T i) -> (forall v, v ∈ Qj -> VotedFor v T j) -> i = j.
Proof.
  intros Mi Mj Vi Vj. destruct (majorities_meet _ _ _ Mi Mj) as (v & Hi & Hj).
  apply (t_votes HT v T); auto.
Qed.
End Facts.
End Past.

(** ** As the past grows *)

Section Growth.
Variable voters : list NodeId.
Variables P P' : NodeId -> RaftPersistentState -> Prop.
Hypothesis HT : Tree voters P.
Hypothesis Hsub : forall v d, P v d -> P' v d.
Hypothesis Hwf' : forall v d, P' v d -> LogInv (ps_current_term d) (dlog d).
Hypothesis Hfun' : functional (Links P').

Lemma Links_grow pt e : Links P pt e -> Links P' pt e.
Proof. intros (v & d & Hd & Hl). exists v, d. auto. Qed.

Lemma Anc_grow x y : Anc (Links P) x y -> Anc (Links P') x y.
Proof. apply Anc_mono, Links_grow. Qed.

(** What was connected gains no ancestors. *)
Lemma Anc_shrink c x : Anc (Links P) root x -> Anc (Links P') c x -> Anc (Links P) c x.
Proof.
  intros Hr Hc. apply (Anc_back _ (Links P') root); [done|apply Links_grow|done| |done].
  apply (Anc_nonneg _ Hwf' _ _ Hc). apply Anc_index in Hr. cbn in Hr. lia.
Qed.

Lemma VotedFor_grow v T x : VotedFor P v T x -> VotedFor P' v T x.
Proof. intros (d & Hd & H). exists d. auto. Qed.

Lemma Acked_grow v c : Acked P v c -> Acked P' v c.
Proof. intros (d & Hd & Ht & Hc). exists d. split_and!; [auto|done|by apply Anc_grow]. Qed.

Lemma Committed_grow c : Committed voters P c -> Committed voters P' c.
Proof. intros (Q & HQ & Hv). exists Q. split; [done|]. intros v Hin. by apply Acked_grow, Hv. Qed.

Lemma Com_grow B x : Com voters P B x -> Com voters P' B x.
Proof.
  intros [->|(c & Hc & HB & Hx)]; [by left|right]. exists c.
  split_and!; [by apply Committed_grow|done|by apply Anc_grow].
Qed.

Lemma linked_rooted pt e : Links P pt e -> Anc (Links P) root (key_of e).
Proof.
  intros (v & d & Hd & Hl). pose proof (past_log _ _ HT v d Hd) as Hinv.
  apply (past_rooted voters _ HT v d); [done|]. unfold term_at.
  destruct (proj1 (linked_log_at _ _ Hinv (le_index e) pt e) (conj Hl eq_refl)) as (-> & _). done.
Qed.

Lemma Bad_grow c B B' : B <= B' -> Bad P c B -> Bad P' c B'.
Proof.
  intros HB (pt & e & HL & Ht & Hno). exists pt, e. split_and!; [by apply Links_grow|lia|lia|].
  intros Hc. apply Hno, Anc_shrink; [by apply (linked_rooted pt)|done].
Qed.

Lemma Acked_shrink v c :
  (forall d, P' v d -> ps_current_term d = c.2 -> P v d) -> Acked P' v c -> Acked P v c.
Proof.
  intros Hold (d & Hd & Ht & Hc). pose proof (Hold d Hd Ht) as HP. exists d. split_and!; [done|done|].
  apply Anc_shrink; [by apply (t_wf _ _ HT v)|done].
Qed.

Lemma Ballot_grow v T i p B B' :
  (forall d, P' v d -> ps_current_term d < T -> P v d) -> B <= B' ->
  Ballot P v T i p B -> Ballot P' v T i p B'.
Proof.
  intros Hold HB (d & Hd & HT' & Hv & Hup & Hk). exists d. split_and!; [auto|done|done|done|].
  intros c Hc Hlt. destruct (Hk c) as [H|H]; [|done|left; by apply Anc_grow|right; by eapply Bad_grow].
  apply Acked_shrink; [|done]. intros d' Hd' Ht'. apply Hold; [done|lia].
Qed.

Lemma Reign_grow T :
  (forall v d, P' v d -> P v d \/ forall d0, P v d0 -> ps_current_term d0 <= ps_current_term d) ->
  (forall pt e, Links P' pt e -> le_term e = T -> Links P pt e \/
     exists pt0 e0, Links P pt0 e0 /\ le_term e0 = T /\ Anc (Links P') (key_of e0) (key_of e)) ->
  Reign voters P T -> Reign voters P' T.
Proof.
  intros Hlate Hnew (i & p & Q & HQ & Hb & Hp & Hrp & (d & Hd & Hdt) & Hall).
  exists i, p, Q. split_and!; try done.
  - intros v Hv. apply (Ballot_grow v T i p (T - 1)); [|lia|by apply Hb].
    intros d' Hd' Hlt. destruct (Hb v Hv) as (d0 & Hd0 & Ht0 & _).
    destruct (Hlate v d' Hd') as [|Hl]; [done|]. specialize (Hl d0 Hd0). lia.
  - by apply Anc_grow.
  - exists d. auto.
  - intros pt e HL Ht. destruct (Hnew pt e HL Ht) as [HL0|(pt0 & e0 & HL0 & Ht0 & HA)].
    + by apply Anc_grow, (Hall pt).
    + etransitivity; [|exact HA]. by apply Anc_grow, (Hall pt0).
Qed.
End Growth.
