(* ===== verification/AbstractSafety.v ===== *)
(** * The protocol keeps the logs in line

    The invariant of the protocol of [AbstractRaft]: the past of the cluster is a
    tree as [ReplicatedLog] needs it, and what the nodes hold now, in memory and
    in messages, agrees with that past. *)

From S2P Require Import Prelude RaftTypes RaftNode RaftInvariant RaftStep RaftHandlers LogTree AbstractRaft ReplicatedLog.

Section Safety.
Variable voters : list NodeId.

(** [v] and the leader [i] of term [T] agree up to index [k]. *)
Definition Shares (P : NodeId -> RaftPersistentState -> Prop) (v i : NodeId) (T : Term) (k : LogIndex) : Prop :=
  exists d0 d1 t, P v d0 /\ ps_current_term d0 = T /\ P i d1 /\ ps_current_term d1 = T /\
    (tip (dlog d1)).2 = T /\ Anc (Links P) (k, t) (tip (dlog d0)) /\ Anc (Links P) (k, t) (tip (dlog d1)).

Record CandOk P (i : NodeId) (d : RaftPersistentState) (m : Mem) : Prop := {
  ca_older : forall d0, P i d0 -> (tip (dlog d0)).2 < ps_current_term d;
  ca_ballots : forall v, VotedFor P v (ps_current_term d) i ->
    Ballot P v (ps_current_term d) i (tip (dlog d)) (ps_current_term d);
  ca_votes : forall v, v ∈ m_votes m -> v ∈ voters /\ VotedFor P v (ps_current_term d) i;
}.

Record LeadOk P (i : NodeId) (d : RaftPersistentState) (m : Mem) : Prop := {
  ld_tip : (tip (dlog d)).2 = ps_current_term d;
  ld_line : forall pt e, Links P pt e -> le_term e = ps_current_term d ->
    Anc (Links P) (key_of e) (tip (dlog d));
  ld_votes : exists Q, majority voters Q /\ forall v, v ∈ Q -> VotedFor P v (ps_current_term d) i;
  ld_match : forall v k, m_match m !! v = Some k -> k = 0 \/ Shares P v i (ps_current_term d) k;
}.

Definition CommitOk P (d : RaftPersistentState) (c : LogIndex) : Prop :=
  exists t, term_at (dlog d) c = Some t /\ Com voters P (ps_current_term d) (c, t).

Definition MemOk P (i : NodeId) (d : RaftPersistentState) (m : Mem) : Prop :=
  i ∈ voters /\ CommitOk P d (m_commit m) /\
  match m_role m with
  | follower => True
  | candidate => CandOk P i d m
  | leader => LeadOk P i d m
  end.

(** What a message of node [i] to [to] says of the past, and of [i] as long as it
    is what it was. *)
Definition Claim P (net : NodeId -> NodeId -> Message -> Prop) (i : NodeId) (d : RaftPersistentState)
    (mo : option Mem) (to : NodeId) (msg : Message) : Prop :=
  match msg with
  | MRequestVote r =>
      rv_term r <= ps_current_term d /\
      forall m, mo = Some m -> m_role m = candidate -> ps_current_term d = rv_term r ->
        tip (dlog d) = (rv_last_log_index r, rv_last_log_term r)
  | MRequestVoteResponse r => rvr_vote_granted r = true -> VotedFor P i (rvr_term r) to
  | MAppendEntries r =>
      exists d0, P i d0 /\ ps_current_term d0 = ae_term r /\ (tip (dlog d0)).2 = ae_term r /\
        Holds (dlog d0) r /\ CommitOk P d0 (ae_leader_commit r)
  | MInstallSnapshot r =>
      (exists d0, P i d0 /\ ps_current_term d0 = ins_term r /\ (tip (dlog d0)).2 = ins_term r /\
         ps_base d0 = ins_last_included_index r /\
         snapshot_term_of (ps_snapshot d0) = ins_last_included_term r) /\
      forall m, mo = Some m -> m_role m = leader -> ps_current_term d = ins_term r ->
        ins_last_included_index r <= ps_base d /\
        forall x, ps_snapshot d = Some x -> ins_last_included_index r = sm_last_included_index x ->
          ins_total_size r = size_of (sm_state_machine x)
  | MAppendEntriesResponse r =>
      aer_success r = true -> Shares P i to (aer_term r) (aer_match_index r)
  | MInstallSnapshotResponse r =>
      insr_success r = true -> Shares P i to (insr_term r) (insr_last_included_index r) \/
        exists q, net to i (MInstallSnapshot q) /\ ins_term q = insr_term r /\
          ins_last_included_index q = insr_last_included_index r /\
          insr_next_offset r < ins_total_size q
  end.

Record Now (P : NodeId -> RaftPersistentState -> Prop) (w : World) : Prop := {
  now_disk : forall v, P v (w_disk w v);
  now_hard : forall v d, P v d -> hard_le d (w_disk w v);
  now_acks : forall v c, Acked P v c ->
    Anc (Links P) c (tip (dlog (w_disk w v))) \/ Bad P c (ps_current_term (w_disk w v));
  now_voted : forall v T x, VotedFor P v T x -> T <= ps_current_term (w_disk w x);
  now_base : forall v d, P v d -> CommitOk P d (ps_base d);
  now_mem : forall i m, w_mem w i = Some m -> MemOk P i (w_disk w i) m;
  now_net : forall i to msg, w_net w i to msg ->
    Claim P (w_net w) i (w_disk w i) (w_mem w i) to msg;
}.

(** ** Steps that write nothing *)

Lemma Claim_keep (P P' : NodeId -> RaftPersistentState -> Prop) (net net' : NodeId -> NodeId -> Message -> Prop)
    i d d' mo mo' to msg :
  (forall v x, P v x -> P' v x) -> (forall a b c, net a b c -> net' a b c) ->
  ps_current_term d <= ps_current_term d' ->
  (forall m', mo' = Some m' -> m_role m' = candidate -> ps_current_term d < ps_current_term d' \/
     tip (dlog d') = tip (dlog d) /\ exists m, mo = Some m /\ m_role m = candidate) ->
  (forall m', mo' = Some m' -> m_role m' = leader ->
     (forall d0, P i d0 -> (tip (dlog d0)).2 < ps_current_term d') \/
     ps_current_term d' = ps_current_term d /\ (exists m, mo = Some m /\ m_role m = leader) /\
     (ps_snapshot d' = ps_snapshot d \/ ps_base d < ps_base d')) ->
  Claim P net i d mo to msg -> Claim P' net' i d' mo' to msg.
Proof.
  intros HP Hnet Hterm Hcand Hlead.
  assert (forall x y, Anc (Links P) x y -> Anc (Links P') x y) as HA by by apply Anc_grow.
  assert (forall v j T k, Shares P v j T k -> Shares P' v j T k) as HS.
  { intros v j T k (d0 & d1 & t & H0 & H1 & H2 & H3 & H4 & H5 & H6). exists d0, d1, t. split_and!; auto. }
  assert (forall x c, CommitOk P x c -> CommitOk P' x c) as HC.
  { intros x c (t & Ht & Hc). exists t. split; [done|]. by apply (Com_grow voters P). }
  destruct msg as [r|r|r|r|r|r]; unfold Claim.
  - intros [Ht Htip]. split; [lia|]. intros m' Hm' Hr' Ht'.
    destruct (Hcand m' Hm' Hr') as [?|(-> & m & Hm & Hr)]; [lia|]. apply (Htip m); [done|done|lia].
  - intros Hv Hg. by apply (VotedFor_grow P), Hv.
  - intros (d0 & H0 & H1 & H2 & H3 & H4). exists d0. split_and!; auto.
  - auto.
  - intros [(d0 & H0 & H1 & H2 & H3 & H4) Hsame]. split; [exists d0; auto|]. intros m' Hm' Hr' Ht'.
    destruct (Hlead m' Hm' Hr') as [Hold|(Ht & (m & Hm & Hr) & Hs)].
    { specialize (Hold d0 H0). lia. }
    destruct (Hsame m Hm Hr ltac:(lia)) as [Hb Hx]. unfold ps_base in *. destruct Hs as [Hs|Hs].
    + rewrite Hs. done.
    + split; [lia|]. intros x Ex. rewrite Ex in Hs. cbn in Hs. lia.
  - intros Hok Hs. destruct (Hok Hs) as [H|(q & Hq & H)]; [left; auto|right]. exists q. auto.
Qed.

(** A step of a node that only changes its memory. *)
Lemma Now_memory P w i m m' :
  Now P w -> w_mem w i = Some m -> MemOk P i (w_disk w i) m' ->
  (m_role m' = candidate -> m_role m = candidate) -> (m_role m' = leader -> m_role m = leader) ->
  Now P (mkWorld (upd i (w_disk w i) (w_disk w)) (upd i (Some m') (w_mem w)) (w_net w)).
Proof.
  intros H Hm Hok Hc Hl.
  assert (forall v, upd i (w_disk w i) (w_disk w) v = w_disk w v) as Hd.
  { intros v. unfold upd. by destruct (decide (v = i)) as [->|]. }
  constructor; cbn [w_disk w_mem w_net].
  - intros v. rewrite Hd. apply H.
  - intros v d. rewrite Hd. apply H.
  - intros v c. rewrite Hd. apply H.
  - intros v T x. rewrite Hd. apply H.
  - apply H.
  - intros j x Hx. rewrite Hd. destruct (decide (j = i)) as [->|Hne].
    + rewrite upd_eq in Hx. by injection Hx as <-.
    + rewrite upd_ne in Hx by done. by apply H.
  - intros j to msg Hmsg. rewrite Hd. destruct (decide (j = i)) as [->|Hne].
    + rewrite upd_eq. apply (Claim_keep P P (w_net w) (w_net w) i (w_disk w i) _ (w_mem w i)); try done.
      * intros x [= <-] Hr. right. split; [done|]. exists m. auto.
      * intros x [= <-] Hr. right. split_and!; [done|exists m; auto|by left].
      * by apply H.
    + rewrite upd_ne by done. by apply H.
Qed.

(** Every index below an entry has its ancestor. *)
Lemma ancestor_at (L : Term -> LogEntry -> Prop) x k :
  Anc L root x -> 0 <= k <= x.1 -> exists t, Anc L (k, t) x.
Proof.
  induction 1 as [|pt e HL H IH]; intros Hk.
  - exists 0. replace k with 0 by (cbn in Hk; lia). done.
  - destruct (decide (k = le_index e)) as [->|Hne]; [by exists (le_term e)|].
    destruct IH as [t Ht]; [cbn in *; lia|]. exists t. by apply (anc_link _ _ pt).
Qed.

(** Where a request ends. *)
Definition request_end (r : AppendEntries) : key :=
  (ae_previous_log_index r + size_of (ae_entries r),
   match last (ae_entries r) with Some e => le_term e | None => ae_previous_log_term r end).

Lemma Holds_end l r : Holds l r -> term_at l (request_end r).1 = Some (request_end r).2.
Proof.
  intros [Hp He]. unfold request_end. cbn. destruct (last (ae_entries r)) as [e|] eqn:El.
  - rewrite last_lookup in El. specialize (He _ _ El). unfold term_at, size_of.
    pose proof (lookup_lt_Some _ _ _ El).
    replace (ae_previous_log_index r + Z.of_nat (length (ae_entries r)))
      with (ae_previous_log_index r + 1 + Z.of_nat (pred (length (ae_entries r)))) by lia.
    by rewrite He.
  - apply last_None in El. rewrite El. unfold size_of. cbn. by rewrite Z.add_0_r.
Qed.

Section Steps.
Variables (P : NodeId -> RaftPersistentState -> Prop) (w : World).
Hypothesis HT : Tree voters P.
Hypothesis HN : Now P w.

Lemma disk_log v : LogInv (ps_current_term (w_disk w v)) (dlog (w_disk w v)).
Proof. apply (past_log _ _ HT v), HN. Qed.

Lemma Holds_Anc v d r : P v d -> Holds (dlog d) r -> Anc (Links P) (request_end r) (tip (dlog d)).
Proof.
  intros Hd Hr. rewrite (surjective_pairing (request_end r)).
  by apply (past_path_tip voters P HT v), Holds_end.
Qed.

(** What a leader of the term once held is below what it holds now. *)
Lemma lead_above i d0 m :
  LeadOk P i (w_disk w i) m -> P i d0 -> (tip (dlog d0)).2 = ps_current_term (w_disk w i) ->
  Anc (Links P) (tip (dlog d0)) (tip (dlog (w_disk w i))).
Proof.
  intros HL Hd Ht. pose proof (t_wf _ _ HT i d0 Hd) as [Hl Hr].
  destruct (rooted_linked _ _ Hr) as [E|(pt & e & HLe & He)].
  - rewrite E. apply (t_wf _ _ HT i), HN.
  - rewrite <- He in Ht |- *. by apply (ld_line _ _ _ _ HL pt).
Qed.

Lemma follow_ok i m : w_mem w i = Some m -> MemOk P i (w_disk w i) (mkMem follower (m_commit m) ∅ ∅).
Proof. intros Hm. by destruct (now_mem _ _ HN i m Hm) as (? & ? & _). Qed.

Lemma count_ok i m v r :
  w_mem w i = Some m -> w_net w v i (MRequestVoteResponse r) -> v ∈ voters -> m_role m = candidate ->
  rvr_term r = ps_current_term (w_disk w i) -> rvr_vote_granted r = true ->
  MemOk P i (w_disk w i) (mkMem candidate (m_commit m) ({[v]} ∪ m_votes m) (m_match m)).
Proof.
  intros Hm Hnet Hv Hr Ht Hg. destruct (now_mem _ _ HN i m Hm) as (Hi & Hc & Hok). rewrite Hr in Hok.
  split_and!; [done..|]. destruct Hok as [H1 H2 H3]. constructor; [done|done|]. cbn [m_votes].
  intros x Hx. apply elem_of_union in Hx as [->%elem_of_singleton|Hx]; [|by apply H3].
  split; [done|]. rewrite <- Ht. by apply (now_net _ _ HN v i _ Hnet).
Qed.

Lemma commit_leader_ok i m c Q :
  w_mem w i = Some m -> m_role m = leader -> m_commit m < c ->
  term_at (dlog (w_disk w i)) c = Some (ps_current_term (w_disk w i)) -> majority voters Q ->
  (forall v, v ∈ Q -> v = i \/ exists k, m_match m !! v = Some k /\ c <= k) ->
  MemOk P i (w_disk w i) (mkMem leader c (m_votes m) (m_match m)).
Proof.
  intros Hm Hr Hlt Hc HQ Hk. destruct (now_mem _ _ HN i m Hm) as (Hi & (t0 & Ht0 & _) & Hok). rewrite Hr in Hok.
  pose proof (proj1 (term_at_range _ _ (disk_log i) _) (mk_is_Some _ _ Ht0)) as Hrange.
  pose proof (LogInv_base _ _ (disk_log i)) as Hb.
  set (T := ps_current_term (w_disk w i)) in *.
  assert (Anc (Links P) (c, T) (tip (dlog (w_disk w i)))) as Htip.
  { apply (past_path_tip voters P HT i); [apply HN|done]. }
  split_and!; [done| |by destruct Hok].
  exists T. split; [done|]. right. exists (c, T). split; [|done]. exists Q. split; [done|].
  intros v Hv. destruct (Hk v Hv) as [->|(k & Hmk & Hle)].
  { exists (w_disk w i). split_and!; [apply HN|done|done]. }
  destruct (ld_match _ _ _ _ Hok v k Hmk) as [->|(d0 & d1 & t & H0 & H1 & H2 & H3 & H4 & H5 & H6)]; [lia|].
  exists d0. split_and!; [done|done|]. etransitivity; [|exact H5].
  apply (Anc_linear _ _ _ (tip (dlog (w_disk w i)))); [apply HT|done| |done].
  etransitivity; [exact H6|]. by apply (lead_above i d1 m).
Qed.

Lemma commit_follower_ok i m from r c :
  w_mem w i = Some m -> w_net w from i (MAppendEntries r) -> ae_term r = ps_current_term (w_disk w i) ->
  Holds (dlog (w_disk w i)) r -> m_commit m < c -> c <= ae_leader_commit r -> c <= ae_previous_log_index r + size_of (ae_entries r) ->
  MemOk P i (w_disk w i) (mkMem follower c (m_votes m) (m_match m)).
Proof.
  intros Hm Hnet Hrt Hr Hlt Hlc Hend. destruct (now_mem _ _ HN i m Hm) as (Hi & (t0 & Ht0 & _) & _).
  destruct (now_net _ _ HN from i _ Hnet) as (d0 & H0 & Htd & _ & Hh & (t & Ht & Hcom)).
  rewrite Htd, Hrt in Hcom.
  split_and!; [done| |done].
  pose proof (Holds_end _ _ Hr) as Hz. pose proof (Holds_end _ _ Hh) as Hz0.
  pose proof (disk_log i) as Hl.
  pose proof (proj1 (term_at_range _ _ Hl _) (mk_is_Some _ _ Ht0)).
  pose proof (proj1 (term_at_range _ _ Hl _) (mk_is_Some _ _ Hz)). cbn [fst request_end] in *.
  destruct (proj2 (term_at_range _ _ Hl c) ltac:(lia)) as [tc Hc]. exists tc. split; [done|].
  apply (Com_below voters P HT _ _ _ Hcom). set (z := request_end r) in *.
  assert (Anc (Links P) (c, tc) (z.1, z.2)) as Hcz.
  { apply (past_path voters P HT i (w_disk w i)); [apply HN|exact Hend|done|exact Hz]. }
  destruct (Z.le_ge_cases (ae_leader_commit r) z.1) as [Hle|Hge].
  - apply (Anc_linear _ _ _ (z.1, z.2)); [apply HT|done| |done].
    by apply (past_path voters P HT from d0).
  - etransitivity; [exact Hcz|]. apply (past_path voters P HT from d0); [done|lia|exact Hz0|done].
Qed.

Lemma match_ok i m v k :
  w_mem w i = Some m -> m_role m = leader -> k = 0 \/ Shares P v i (ps_current_term (w_disk w i)) k ->
  MemOk P i (w_disk w i) (mkMem leader (m_commit m) (m_votes m) (<[v := k]> (m_match m))).
Proof.
  intros Hm Hr Hs. destruct (now_mem _ _ HN i m Hm) as (Hi & Hc & Hok). rewrite Hr in Hok.
  split_and!; [done..|]. destruct Hok as [H1 H2 H3 H4]. constructor; [done..|].
  intros x y Hx. cbn [m_match] in Hx. apply lookup_insert_Some in Hx as [[<- <-]|[_ Hx]]; [done|by apply H4].
Qed.

Lemma Shares_below v i T k k' : Shares P v i T k -> 0 <= k' <= k -> Shares P v i T k'.
Proof.
  intros (d0 & d1 & t & H0 & H1 & H2 & H3 & H4 & H5 & H6) Hk.
  destruct (ancestor_at (Links P) (k, t) k') as [t' Ht']; [|done|].
  { by apply (rooted_below voters P HT _ (tip (dlog d0))); [apply (t_wf _ _ HT v)|]. }
  exists d0, d1, t'. split_and!; try done; by etransitivity.
Qed.

Lemma match_append_ok i m v r k :
  w_mem w i = Some m -> m_role m = leader -> w_net w v i (MAppendEntriesResponse r) ->
  aer_term r = ps_current_term (w_disk w i) -> aer_success r = true -> 0 <= k <= aer_match_index r ->
  MemOk P i (w_disk w i) (mkMem leader (m_commit m) (m_votes m) (<[v := k]> (m_match m))).
Proof.
  intros Hm Hr Hnet Ht Hs Hk. apply match_ok; [done|done|]. right. rewrite <- Ht.
  apply (Shares_below _ _ _ (aer_match_index r)); [|done]. by apply (now_net _ _ HN v i _ Hnet).
Qed.

Lemma match_snapshot_ok i m v r x :
  w_mem w i = Some m -> m_role m = leader -> w_net w v i (MInstallSnapshotResponse r) ->
  insr_term r = ps_current_term (w_disk w i) -> insr_success r = true ->
  ps_snapshot (w_disk w i) = Some x -> insr_last_included_index r = sm_last_included_index x ->
  size_of (sm_state_machine x) <= insr_next_offset r ->
  MemOk P i (w_disk w i)
    (mkMem leader (m_commit m) (m_votes m) (<[v := sm_last_included_index x]> (m_match m))).
Proof.
  intros Hm Hr Hnet Ht Hs Hx Hidx Hsize. apply match_ok; [done|done|]. right. rewrite <- Ht, <- Hidx.
  destruct (now_net _ _ HN v i _ Hnet Hs) as [?|(q & Hq & Htq & Hiq & Hlt)]; [done|exfalso].
  destruct (now_net _ _ HN i v _ Hq) as [_ Hsame].
  destruct (Hsame m Hm Hr ltac:(lia)) as [_ Htotal]. rewrite (Htotal x Hx) in Hlt; [lia|congruence].
Qed.

(** *** Messages *)

Lemma base_term_at d : term_at (dlog d) (ps_base d) = Some (snapshot_term_of (ps_snapshot d)).
Proof.
  unfold term_at, log_at. rewrite base_dlog, (proj2 (Z.ltb_ge _ _)), Z.sub_diag by lia. done.
Qed.

Lemma Tells_Claim net' i m to msg :
  (forall a b c, w_net w a b c -> net' a b c) -> w_mem w i = Some m ->
  Tells (w_net w) i (w_disk w i) m to msg -> Claim P net' i (w_disk w i) (w_mem w i) to msg.
Proof.
  intros Hnet Hm. destruct (now_mem _ _ HN i m Hm) as (Hi & Hc & Hok). pose proof (now_disk _ _ HN i) as Hd.
  destruct msg as [r|r|r|r|r|r]; unfold Tells, Claim.
  - intros (Hr & Ht & Htip). split; [lia|]. intros _ _ _ _. done.
  - intros (Ht & Hv) Hg. exists (w_disk w i). split_and!; [done|done|by apply Hv].
  - intros (Hr & Ht & Hh & Hlc). rewrite Hr in Hok. exists (w_disk w i). rewrite Hlc, Ht.
    split_and!; try done. apply Hok.
  - intros Hs Hsucc. destruct (Hs Hsucc) as (Ht & q & Hq & Htq & Hh & ->).
    destruct (now_net _ _ HN to i _ Hq) as (d1 & H1 & Ht1 & Htip & Hh1 & _).
    exists (w_disk w i), d1, (request_end q).2. rewrite Ht. rewrite Htq in Ht1, Htip. split_and!; try done.
    + by apply (Holds_Anc i (w_disk w i) q).
    + by apply (Holds_Anc to d1 q).
  - intros (Hr & Ht & x & Hx & Hidx & Hterm & Hsize). rewrite Hr in Hok.
    assert (ps_base (w_disk w i) = sm_last_included_index x) as Hb by by (unfold ps_base; rewrite Hx).
    split.
    + exists (w_disk w i). rewrite Ht, Hidx, Hterm, Hx. split_and!; try done. apply Hok.
    + intros _ _ _ _. split; [lia|]. intros y Hy _. congruence.
  - intros Hs Hsucc. destruct (Hs Hsucc) as (Ht & q & Hq & Htq & Hidx & [Hoff|Hold]).
    { right. exists q. split_and!; [by apply Hnet|congruence|done|done]. }
    left. destruct (now_net _ _ HN to i _ Hq) as [(d1 & H1 & Ht1 & Htip & Hb & Hbt) _].
    destruct (now_base _ _ HN to d1 H1) as (t & Hbase & Hcom).
    destruct Hc as (tc & Htc & Hcc). exists (w_disk w i), d1, t.
    rewrite Ht, Hidx. rewrite Hb in Hbase, Hcom. rewrite Htq in Ht1, Htip. split_and!; try done.
    + etransitivity; [eapply (Com_chain voters P HT _ _ _ (m_commit m, tc))|by apply (past_path_tip voters P HT i)];
        [done|done|by apply (past_rooted voters P HT i (w_disk w i))|exact Hold].
    + by apply (past_path_tip voters P HT to).
Qed.

Lemma Now_send i m to msg :
  w_mem w i = Some m -> Tells (w_net w) i (w_disk w i) m to msg ->
  Now P (mkWorld (w_disk w) (w_mem w) (fun a b c => w_net w a b c \/ a = i /\ b = to /\ c = msg)).
Proof.
  intros Hm Ht. constructor; try apply HN. cbn [w_disk w_mem w_net]. intros j to' msg' [Hold|(-> & -> & ->)].
  - eapply Claim_keep; [done| |done| | |by apply HN].
    + intros a b c Habc. by left.
    + intros m' Hm' Hr'. right. eauto.
    + intros m' Hm' Hr'. right. split_and!; [done|eauto|by left].
  - eapply Tells_Claim; [|done|done]. intros a b c Habc. by left.
Qed.

(** *** Crashes and restarts *)

Lemma Now_crash i : Now P (mkWorld (w_disk w) (upd i None (w_mem w)) (w_net w)).
Proof.
  constructor; cbn [w_disk w_mem w_net]; try apply HN.
  - intros j m. unfold upd. destruct (decide (j = i)); [done|]. apply HN.
  - intros j to msg Hmsg. unfold upd. destruct (decide (j = i)) as [->|]; [|by apply HN].
    eapply Claim_keep; [done|done|done| | |by apply HN]; done.
Qed.

Lemma Now_start i :
  i ∈ voters -> w_mem w i = None ->
  Now P (mkWorld (w_disk w)
    (upd i (Some (mkMem follower (base_of (dlog (w_disk w i))) ∅ ∅)) (w_mem w)) (w_net w)).
Proof.
  intros Hi Hno. constructor; cbn [w_disk w_mem w_net]; try apply HN.
  - intros j m. unfold upd. destruct (decide (j = i)) as [->|]; [|apply HN]. intros [= <-].
    split_and!; [done| |done]. cbn [m_commit]. rewrite base_dlog. apply (now_base _ _ HN i), HN.
  - intros j to msg Hmsg. unfold upd. destruct (decide (j = i)) as [->|]; [|by apply HN].
    eapply Claim_keep; [done|done|done| | |by apply HN].
    + by intros m' [= <-].
    + by intros m' [= <-].
Qed.

(** *** Writing to a disk *)

Section Write.
Variables (i : NodeId) (m m' : Mem) (d' : RaftPersistentState).

Definition grown : NodeId -> RaftPersistentState -> Prop := fun v d => P v d \/ v = i /\ d = d'.

Lemma grown_sub v d : P v d -> grown v d.
Proof. by left. Qed.

Lemma grown_other v d : v <> i -> grown v d -> P v d.
Proof. intros Hne [H|[-> _]]; done. Qed.

Hypothesis Hm : w_mem w i = Some m.
Hypothesis Hhard : hard_le (w_disk w i) d'.

Lemma grown_hard v d : grown v d -> hard_le d (upd i d' (w_disk w) v).
Proof.
  intros Hd. destruct (decide (v = i)) as [->|Hne].
  - rewrite upd_eq. destruct Hd as [Hd|[_ ->]]; [|apply hard_le_refl].
    eapply hard_le_trans; [by apply (now_hard _ _ HN)|done].
  - rewrite upd_ne by done. apply HN. by eapply grown_other.
Qed.

Lemma grown_late v d : grown v d -> P v d \/ forall d0, P v d0 -> ps_current_term d0 <= ps_current_term d.
Proof.
  intros [H|[-> ->]]; [by left|right]. intros d0 H0.
  etransitivity; [by apply (now_hard _ _ HN)|apply Hhard].
Qed.

Hypothesis HT' : Tree voters grown.

Lemma grown_wf v d : grown v d -> LogInv (ps_current_term d) (dlog d).
Proof. apply (past_log _ _ HT'). Qed.

Lemma Ballot_grown v T x p B B' :
  VotedFor P v T x -> B <= B' -> Ballot P v T x p B -> Ballot grown v T x p B'.
Proof.
  intros (d0 & H0 & Ht0 & _) HB. apply (Ballot_grow voters P); [done|apply grown_sub|apply grown_wf|apply HT'| |done].
  intros d [Hd|[-> ->]] Hlt; [done|]. pose proof (now_hard _ _ HN i d0 H0) as [H1 _]. destruct Hhard as [H2 _]. lia.
Qed.

Lemma Shares_grown v j T k : Shares P v j T k -> Shares grown v j T k.
Proof.
  intros (d0 & d1 & t & H0 & H1 & H2 & H3 & H4 & H5 & H6). exists d0, d1, t.
  split_and!; try done; try (by apply grown_sub); by apply (Anc_grow P); [apply grown_sub|].
Qed.

Lemma CommitOk_grown d c : CommitOk P d c -> CommitOk grown d c.
Proof. intros (t & Ht & Hc). exists t. split; [done|]. by apply (Com_grow voters P); [apply grown_sub|]. Qed.

Hypothesis Hlinks : forall pt e, Links grown pt e -> Links P pt e \/
  forall j mj, j <> i -> w_mem w j = Some mj -> m_role mj = leader ->
    le_term e <> ps_current_term (w_disk w j).
Hypothesis Hvotes : forall x, ps_voted_for d' = Some x ->
  VotedFor P i (ps_current_term d') x \/ x = i \/
  ps_current_term d' <= ps_current_term (w_disk w x) /\
  forall mx, w_mem w x = Some mx -> m_role mx = candidate ->
    ps_current_term (w_disk w x) = ps_current_term d' ->
    Ballot grown i (ps_current_term d') x (tip (dlog (w_disk w x))) (ps_current_term d').

(** The other nodes. *)
Lemma MemOk_grown j mj :
  j <> i -> w_mem w j = Some mj -> MemOk P j (w_disk w j) mj -> MemOk grown j (w_disk w j) mj.
Proof.
  intros Hne Hmj (Hj & Hc & Hok). split_and!; [done|by apply CommitOk_grown|].
  destruct (m_role mj) eqn:Er; [done|..].
  - destruct Hok as [H1 H2 H3]. constructor.
    + intros d0 H0. apply H1. by eapply grown_other.
    + intros v (d0 & [H0|[-> ->]] & Ht & Hv).
      * assert (VotedFor P v (ps_current_term (w_disk w j)) j) as HV by by exists d0.
        by eapply Ballot_grown, H2.
      * destruct (Hvotes j Hv) as [HV|[?|[_ HB]]]; [|done|rewrite <- Ht; by apply (HB mj)].
        rewrite Ht in HV. by eapply Ballot_grown, H2.
    + intros v Hv. destruct (H3 v Hv) as [? HV]. split; [done|]. by apply (VotedFor_grow P); [apply grown_sub|].
  - destruct Hok as [H1 H2 (Q & HQ & HV) H4]. constructor; [done|..].
    + intros pt e HL Ht. destruct (Hlinks pt e HL) as [HL0|Hno]; [|by destruct (Hno j mj Hne Hmj Er)].
      by apply (Anc_grow P); [apply grown_sub|apply (H2 pt)].
    + exists Q. split; [done|]. intros v Hv. by apply (VotedFor_grow P); [apply grown_sub|apply HV].
    + intros v k Hk. destruct (H4 v k Hk) as [?|Hs]; [by left|right; by apply Shares_grown].
Qed.

Hypothesis Hacks : forall c, Acked grown i c ->
  Anc (Links grown) c (tip (dlog d')) \/ Bad grown c (ps_current_term d').
Hypothesis Hbase : CommitOk grown d' (ps_base d').
Hypothesis Hmem : MemOk grown i d' m'.
Hypothesis Hcand : m_role m' = candidate -> ps_current_term (w_disk w i) < ps_current_term d' \/
  tip (dlog d') = tip (dlog (w_disk w i)) /\ m_role m = candidate.
Hypothesis Hlead : m_role m' = leader ->
  (forall d0, P i d0 -> (tip (dlog d0)).2 < ps_current_term d') \/
  ps_current_term d' = ps_current_term (w_disk w i) /\ m_role m = leader /\
  (ps_snapshot d' = ps_snapshot (w_disk w i) \/ ps_base (w_disk w i) < ps_base d').

Lemma Now_write : Now grown (mkWorld (upd i d' (w_disk w)) (upd i (Some m') (w_mem w)) (w_net w)).
Proof.
  constructor; cbn [w_disk w_mem w_net].
  - intros v. unfold upd. destruct (decide (v = i)) as [->|]; [by right|left; apply HN].
  - apply grown_hard.
  - intros v c Hc. destruct (decide (v = i)) as [->|Hne]; [rewrite upd_eq; by apply Hacks|].
    rewrite upd_ne by done. destruct (now_acks _ _ HN v c) as [H|H].
    + apply (Acked_shrink voters P grown); [done|apply grown_sub|apply grown_wf|apply HT'| |done].
      intros d Hd _. by eapply grown_other.
    + left. by apply (Anc_grow P); [apply grown_sub|].
    + right. eapply (Bad_grow voters P grown); [done|apply grown_sub|apply grown_wf|apply HT'|reflexivity|done].
  - intros v T x HV. assert (T <= ps_current_term (w_disk w x) \/ x = i /\ T = ps_current_term d') as HTx.
    { destruct HV as (d & [Hd|[-> ->]] & Ht & Hv); [left; apply (now_voted _ _ HN v); by exists d|].
      destruct (Hvotes x Hv) as [HV|[->|[? _]]]; [|right; by rewrite Ht|left; lia].
      left. rewrite Ht in HV. by eapply now_voted. }
    unfold upd. destruct (decide (x = i)) as [->|Hne]; [|destruct HTx as [?|[? _]]; done].
    destruct Hhard as [? _]. lia.
  - intros v d [Hd|[-> ->]]; [by apply CommitOk_grown, (now_base _ _ HN v)|done].
  - intros j mj Hmj. destruct (decide (j = i)) as [->|Hne].
    + rewrite upd_eq in Hmj. rewrite upd_eq. by injection Hmj as <-.
    + rewrite upd_ne in Hmj by done. rewrite upd_ne by done. apply MemOk_grown; [done|done|by apply HN].
  - intros j to msg Hmsg. destruct (decide (j = i)) as [->|Hne].
    + rewrite !upd_eq. eapply Claim_keep; [apply grown_sub|done| | | |by apply HN].
      * apply Hhard.
      * intros x [= <-] Hr. destruct (Hcand Hr) as [?|[? ?]]; [by left|right; eauto].
      * intros x [= <-] Hr. destruct (Hlead Hr) as [?|(? & ? & ?)]; [by left|right; split_and!; eauto].
    + rewrite !upd_ne by done. eapply Claim_keep; [apply grown_sub|done|done| | |by apply HN].
      * intros x Hx Hr. right. eauto.
      * intros x Hx Hr. right. split_and!; [done|eauto|by left].
Qed.
End Write.

(** *** Writes that add no entry to the tree *)

Lemma Links_grown i d' pt e : Links (grown i d') pt e -> Links P pt e \/ linked (dlog d') pt e.
Proof. intros (v & d & [Hd|[-> ->]] & Hl); [left; by exists v, d|by right]. Qed.

Lemma grown_votes i d' v T x y :
  hard_le (w_disk w i) d' -> VotedFor (grown i d') v T x -> VotedFor (grown i d') v T y -> x = y.
Proof.
  intros Hh. assert (forall d a b, P i d -> ps_current_term d = ps_current_term d' ->
    ps_voted_for d = Some a -> ps_voted_for d' = Some b -> a = b) as Hold.
  { intros d a b Hd Ht Ha Hb. pose proof (hard_le_trans _ _ _ (now_hard _ _ HN i d Hd) Hh) as [_ Hv].
    rewrite (Hv (eq_sym Ht) a Ha) in Hb. by injection Hb. }
  intros (d1 & [H1|[-> ->]] & T1 & V1) (d2 & [H2|[E2 ->]] & T2 & V2).
  - apply (t_votes _ _ HT v T); [by exists d1|by exists d2].
  - subst v. apply (Hold d1); [done|congruence|done|done].
  - symmetry. apply (Hold d2); [done|congruence|done|done].
  - congruence.
Qed.

Section Same.
Variables (i : NodeId) (d' : RaftPersistentState).
Hypothesis Hhard : hard_le (w_disk w i) d'.
Hypothesis Hlog : LogInv (ps_current_term d') (dlog d').
Hypothesis Hin : forall pt e, linked (dlog d') pt e -> Links P pt e.
Hypothesis Hroot : Anc (Links P) root (tip (dlog d')).

Lemma same_links pt e : Links (grown i d') pt e <-> Links P pt e.
Proof.
  split; [intros [H|H]%Links_grown; [done|by apply Hin]|]. apply Links_grow, grown_sub.
Qed.

Lemma same_Anc x y : Anc (Links (grown i d')) x y <-> Anc (Links P) x y.
Proof. split; apply Anc_mono; intros pt e; apply same_links. Qed.

Lemma Tree_same : Tree voters (grown i d').
Proof.
  assert (forall v d, grown i d' v d -> LogInv (ps_current_term d) (dlog d)) as Hwf.
  { intros v d [Hd|[-> ->]]; [by apply (past_log _ _ HT v)|done]. }
  assert (functional (Links (grown i d'))) as Hfun.
  { intros pt e pt' e' H1%same_links H2%same_links. by apply (t_fun _ _ HT). }
  constructor; [|done|..].
  - intros v d Hd. split; [by apply (Hwf v)|]. apply same_Anc.
    destruct Hd as [Hd|[-> ->]]; [by apply (t_wf _ _ HT v)|done].
  - intros v T x y. by apply grown_votes.
  - intros pt e pt' e' H1%same_links H2%same_links Ht Hi. apply same_Anc. by apply (t_chain _ _ HT pt e pt' e').
  - intros pt e HL%same_links. apply (Reign_grow voters P); [done|apply grown_sub|done|done| | |by apply (t_reign _ _ HT pt)].
    + intros v d. by apply grown_late.
    + intros pt' e' HL' _. left. by apply same_links.
Qed.
End Same.

(** What a node has acknowledged, after a write. *)
Lemma acks_grown i d' :
  hard_le (w_disk w i) d' -> Tree voters (grown i d') ->
  (forall c, Acked P i c -> Anc (Links P) c (tip (dlog (w_disk w i))) ->
     Anc (Links (grown i d')) c (tip (dlog d')) \/ Bad P c (ps_current_term d')) ->
  forall c, Acked (grown i d') i c ->
    Anc (Links (grown i d')) c (tip (dlog d')) \/ Bad (grown i d') c (ps_current_term d').
Proof.
  intros Hh HT' Hkept c (d & [Hd|[_ ->]] & Ht & Hc); [|by left].
  assert (forall B, B <= ps_current_term d' -> Bad P c B -> Bad (grown i d') c (ps_current_term d')) as Hbad.
  { intros B HB. apply (Bad_grow voters P); [done|apply grown_sub|by apply (past_log _ _ HT')|apply HT'|done]. }
  assert (Acked P i c) as Hacked.
  { exists d. split_and!; [done|done|]. apply (Anc_shrink P (grown i d'));
      [apply grown_sub|by apply (past_log _ _ HT')|apply HT'|by apply (t_wf _ _ HT i)|done]. }
  destruct (now_acks _ _ HN i c Hacked) as [Hold|HB]; [|right; eapply Hbad; [apply Hh|done]].
  destruct (Hkept c Hacked Hold) as [?|HB]; [by left|right; by eapply Hbad].
Qed.

Lemma tip_term_le v d : P v d -> (tip (dlog d)).2 <= ps_current_term d.
Proof.
  intros Hd. pose proof (past_log _ _ HT v d Hd) as Hl. pose proof (tip_term_at _ _ Hl) as Ht.
  unfold term_at in Ht. destruct (log_at _ _) as [e|] eqn:He; [|done].
  assert (le_term e = (tip (dlog d)).2) as <- by by injection Ht.
  apply log_at_Some in He as (k & Hk & _). by apply (li_bound _ _ Hl k).
Qed.

(** *** Hard state *)

Section Hard.
Variables (i : NodeId) (m : Mem) (t : Term) (vote : option NodeId).
Hypothesis Hm : w_mem w i = Some m.
Let d' := persist (PersistHardState t vote) (w_disk w i).
Hypothesis Hhard : hard_le (w_disk w i) d'.

Lemma hard_Tree : Tree voters (grown i d').
Proof.
  apply Tree_same; [done| | |].
  - eapply LogInv_mono; [apply Hhard|apply disk_log].
  - intros pt e Hl. exists i, (w_disk w i). split; [apply HN|done].
  - apply (t_wf _ _ HT i (w_disk w i)), HN.
Qed.

Lemma hard_Anc x y : Anc (Links P) x y -> Anc (Links (grown i d')) x y.
Proof. apply Anc_grow, grown_sub. Qed.

Lemma hard_acks c : Acked (grown i d') i c ->
  Anc (Links (grown i d')) c (tip (dlog d')) \/ Bad (grown i d') c (ps_current_term d').
Proof.
  apply acks_grown; [done|apply hard_Tree|]. intros x _ Hx. left. by apply hard_Anc.
Qed.

Lemma hard_Ballot x p :
  vote = Some x -> uptodate (tip (dlog (w_disk w i))) p -> Ballot (grown i d') i t x p t.
Proof.
  intros Hv Hup. exists d'. split_and!; [by right|done|done|done|]. intros c Hc _. by apply hard_acks.
Qed.

Lemma hard_links pt e : Links (grown i d') pt e -> Links P pt e.
Proof. intros [H|H]%Links_grown; [done|]. exists i, (w_disk w i). split; [apply HN|done]. Qed.

Lemma hard_CommitOk c : CommitOk P (w_disk w i) c -> CommitOk (grown i d') d' c.
Proof.
  intros (x & Hx & Hc). exists x. split; [done|]. apply (Com_later voters _ (ps_current_term (w_disk w i))); [apply Hhard|].
  by apply (Com_grow voters P); [apply grown_sub|].
Qed.

Lemma Now_hard m' :
  (forall x, vote = Some x -> x = i \/ t <= ps_current_term (w_disk w x) /\
     forall mx, w_mem w x = Some mx -> m_role mx = candidate -> ps_current_term (w_disk w x) = t ->
       uptodate (tip (dlog (w_disk w i))) (tip (dlog (w_disk w x)))) ->
  m_commit m' = m_commit m -> m_role m' <> leader ->
  (m_role m' = candidate -> ps_current_term (w_disk w i) < t /\ CandOk (grown i d') i d' m') ->
  Now (grown i d') (mkWorld (upd i d' (w_disk w)) (upd i (Some m') (w_mem w)) (w_net w)).
Proof.
  intros Hv Hc Hnl Hcand. apply (Now_write i m m' d'); try done.
  - apply hard_Tree.
  - intros pt e HL. left. by apply hard_links.
  - intros x Hx. destruct (Hv x Hx) as [->|[Ht Hup]]; [by right; left|]. right. right. split; [done|].
    intros mx Hmx Hr HTx. apply hard_Ballot; [done|by apply (Hup mx)].
  - intros c. apply hard_acks.
  - apply hard_CommitOk, (now_base _ _ HN i (w_disk w i)), HN.
  - destruct (now_mem _ _ HN i m Hm) as (Hi & Hcm & _). split_and!; [done| |].
    + rewrite Hc. by apply hard_CommitOk.
    + destruct (m_role m'); [done|by apply Hcand|done].
  - intros Hr. left. by apply Hcand.
Qed.
End Hard.

Lemma enter_Now i m t :
  w_mem w i = Some m -> ps_current_term (w_disk w i) < t ->
  let d' := persist (PersistHardState t None) (w_disk w i) in
  Tree voters (grown i d') /\ Now (grown i d')
    (mkWorld (upd i d' (w_disk w)) (upd i (Some (mkMem follower (m_commit m) ∅ ∅)) (w_mem w)) (w_net w)).
Proof.
  intros Hm Ht d'. assert (hard_le (w_disk w i) d') as Hh by (split; [cbn; lia|cbn; lia]).
  split; [by apply hard_Tree|]. by apply (Now_hard i m t None Hm Hh).
Qed.

Lemma vote_Now i m x r :
  w_mem w i = Some m -> w_net w x i (MRequestVote r) -> m_role m = follower ->
  rv_term r = ps_current_term (w_disk w i) -> ps_voted_for (w_disk w i) = None ->
  uptodate (tip (dlog (w_disk w i))) (rv_last_log_index r, rv_last_log_term r) ->
  let d' := persist (PersistHardState (ps_current_term (w_disk w i)) (Some x)) (w_disk w i) in
  Tree voters (grown i d') /\
  Now (grown i d') (mkWorld (upd i d' (w_disk w)) (upd i (Some m) (w_mem w)) (w_net w)).
Proof.
  intros Hm Hnet Hr Ht Hno Hup d'.
  assert (hard_le (w_disk w i) d') as Hh by (split; [done|intros _ v Hv; congruence]).
  split; [by apply hard_Tree|].
  apply (Now_hard i m _ (Some x) Hm Hh); try congruence. intros y [= <-]. right.
  destruct (now_net _ _ HN x i _ Hnet) as [Hle Htip]. split; [lia|].
  intros mx Hmx Hrx HTx. rewrite (Htip mx Hmx Hrx ltac:(lia)). done.
Qed.

Lemma campaign_Now i m :
  w_mem w i = Some m -> m_role m <> leader ->
  let d' := persist (PersistHardState (ps_current_term (w_disk w i) + 1) (Some i)) (w_disk w i) in
  Tree voters (grown i d') /\ Now (grown i d')
    (mkWorld (upd i d' (w_disk w)) (upd i (Some (mkMem candidate (m_commit m) {[i]} ∅)) (w_mem w)) (w_net w)).
Proof.
  intros Hm Hr d'. set (T := ps_current_term (w_disk w i)) in *.
  assert (hard_le (w_disk w i) d') as Hh by (split; cbn; unfold T; lia).
  split; [by apply hard_Tree|].
  apply (Now_hard i m _ (Some i) Hm Hh); [intros x [= <-]; by left|done|done|].
  intros _. split; [lia|]. constructor.
  - intros d0 [H0|[_ ->]]; cbn [d' persist ps_current_term].
    + pose proof (tip_term_le i d0 H0). destruct (now_hard _ _ HN i d0 H0) as [? _]. unfold T. lia.
    + pose proof (tip_term_le i _ (now_disk _ _ HN i)). change ((tip (dlog (w_disk w i))).2 < T + 1). unfold T. lia.
  - intros v (d0 & [H0|[-> ->]] & Ht & Hv).
    + pose proof (now_voted _ _ HN v (T + 1) i) as Hle. cbn [d' persist ps_current_term] in Ht.
      specialize (Hle ltac:(by exists d0)). exfalso. unfold T in *. lia.
    + apply hard_Ballot; [done|done|]. right. split; reflexivity.
  - intros v Hv. cbn [m_votes] in Hv. apply elem_of_singleton in Hv as ->. destruct (now_mem _ _ HN i m Hm) as (Hi & _).
    split; [done|]. exists d'. split_and!; [by right|done|done].
Qed.
End Steps.
End Safety.
