(* ===== verification/AbstractLogs.v ===== *)
(** * Steps that change a log

    Accepting entries, installing a snapshot and compacting keep the invariant of
    [AbstractSafety] and add nothing to the tree; a leader's new entry adds one
    leaf to it. *)

From S2P Require Import Prelude RaftTypes RaftNode RaftInvariant RaftStep RaftHandlers LogTree AbstractRaft ReplicatedLog AbstractSafety.

Section Logs.
Variable voters : list NodeId.
Variables (P : NodeId -> RaftPersistentState -> Prop) (w : World).
Hypothesis HT : Tree voters P.
Hypothesis HN : Now voters P w.

(** ** Logs within the tree *)

Section Within.
Variables (i : NodeId) (m m' : Mem) (d' : RaftPersistentState).
Hypothesis Hm : w_mem w i = Some m.
Hypothesis Hterm : ps_current_term d' = ps_current_term (w_disk w i).
Hypothesis Hvote : ps_voted_for d' = ps_voted_for (w_disk w i).
Hypothesis Hlog : LogInv (ps_current_term d') (dlog d').
Hypothesis Hin : forall pt e, linked (dlog d') pt e -> Links P pt e.
Hypothesis Hroot : Anc (Links P) root (tip (dlog d')).

Lemma within_hard : hard_le (w_disk w i) d'.
Proof. split; [lia|]. intros _ v Hv. congruence. Qed.

Lemma within_Tree : Tree voters (grown P i d').
Proof. by apply (Tree_same voters P w HT HN i d' within_hard). Qed.

Lemma within_voted v T x : VotedFor (grown P i d') v T x -> VotedFor P v T x.
Proof.
  intros (d & [Hd|[-> ->]] & Ht & Hv); [by exists d|]. exists (w_disk w i).
  split_and!; [apply HN|congruence|congruence].
Qed.

Hypothesis Hsame : tip (dlog d') = tip (dlog (w_disk w i)).

Lemma within_MemOk : CommitOk voters P d' (m_commit m) -> MemOk voters (grown P i d') i d' m.
Proof.
  intros Hc. destruct (now_mem _ _ _ HN i m Hm) as (Hi & _ & Hok).
  split_and!; [done|by apply CommitOk_grown|].
  assert (forall v T x, VotedFor P v T x -> VotedFor (grown P i d') v T x) as HV
    by (intros v T x; apply (VotedFor_grow P), grown_sub).
  destruct (m_role m); [done|..].
  - destruct Hok as [H1 H2 H3]. constructor; rewrite Hterm.
    + intros d0 [H0|[_ ->]]; [by apply H1|]. rewrite Hsame. apply H1, HN.
    + intros v HVv%within_voted. rewrite Hsame. eapply (Ballot_grown voters P w); try done;
        [apply within_hard|apply within_Tree|by apply H2].
    + intros v Hv. destruct (H3 v Hv). auto.
  - destruct Hok as [H1 H2 (Q & HQ & HVQ) H4]. constructor; rewrite ?Hsame, ?Hterm; [done|..].
    + intros pt e HL Ht. apply (Anc_grow P); [apply grown_sub|]. apply (H2 pt); [|done].
      by apply (same_links P i d' Hin).
    + exists Q. split; [done|]. auto.
    + intros v k Hk. destruct (H4 v k Hk) as [?|Hs]; [by left|right; by apply (Shares_grown P)].
Qed.
End Within.

Lemma log_Now i m m' d' :
  w_mem w i = Some m -> ps_current_term d' = ps_current_term (w_disk w i) ->
  ps_voted_for d' = ps_voted_for (w_disk w i) -> LogInv (ps_current_term d') (dlog d') ->
  (forall pt e, linked (dlog d') pt e -> Links P pt e) -> Anc (Links P) root (tip (dlog d')) ->
  CommitOk voters P d' (ps_base d') -> CommitOk voters P d' (m_commit m') ->
  m_role m' = follower \/ m' = m /\ tip (dlog d') = tip (dlog (w_disk w i)) /\
    (ps_snapshot d' = ps_snapshot (w_disk w i) \/ ps_base (w_disk w i) < ps_base d') ->
  (forall c, Acked P i c -> Anc (Links P) c (tip (dlog (w_disk w i))) ->
     Anc (Links P) c (tip (dlog d')) \/ Bad P c (ps_current_term d')) ->
  Tree voters (grown P i d') /\
  Now voters (grown P i d') (mkWorld (upd i d' (w_disk w)) (upd i (Some m') (w_mem w)) (w_net w)).
Proof.
  intros Hm Ht Hv Hl Hin Hroot Hbase Hc Hrole Hacks.
  pose proof (within_hard i d' Ht Hv) as Hh. pose proof (within_Tree i d' Ht Hv Hl Hin Hroot) as HT'.
  split; [done|]. apply (Now_write voters P w HT HN i m m' d'); try done.
  - intros pt e HL. left. by apply (same_links P i d' Hin).
  - intros x Hx. left. rewrite Hv in Hx. exists (w_disk w i). split_and!; [apply HN|done|done].
  - apply (acks_grown voters P w HT HN); [done|done|]. intros c Hack Hct.
    destruct (Hacks c Hack Hct); [left; by apply (Anc_grow P); [apply grown_sub|]|by right].
  - by apply CommitOk_grown.
  - destruct Hrole as [Hr|(-> & Hs & _)]; [|by apply within_MemOk].
    destruct (now_mem _ _ _ HN i m Hm) as (Hi & _). split_and!; [done|by apply CommitOk_grown|by rewrite Hr].
  - intros Hr. destruct Hrole as [?|(-> & Hs & _)]; [congruence|]. by right.
  - intros Hr. destruct Hrole as [?|(-> & Hs & Hsn)]; [congruence|]. by right.
Qed.

(** ** What a leader's message settles *)

Lemma Anc_decide c y : Anc (Links P) root y -> Anc (Links P) c y \/ ~ Anc (Links P) c y.
Proof.
  intros Hy. destruct (decide (0 <= c.1 <= y.1)) as [Hi|Hi].
  - destruct (ancestor_at (Links P) y c.1 Hy Hi) as [t Ht]. destruct c as [k tc]. cbn in *.
    destruct (decide (t = tc)) as [->|Hne]; [by left|right]. intros Hc.
    pose proof (Anc_linear _ _ _ _ (t_fun _ _ HT) Ht Hc (Z.le_refl _)) as HE.
    apply Anc_same_index in HE; [|done]. by injection HE.
  - right. intros Hc. apply Hi. split; [|by apply Anc_index in Hc].
    apply (Anc_nonneg P (past_log voters P HT) _ _ Hc). apply Anc_index in Hy. cbn in Hy. lia.
Qed.

(** What a node has acknowledged and what a leader of its term held are in one
    line, or the leader's log shows that it was never committed. *)
Lemma from_leader i c v d1 :
  Acked P i c -> P v d1 -> (tip (dlog d1)).2 = ps_current_term (w_disk w i) ->
  Anc (Links P) c (tip (dlog d1)) \/ Anc (Links P) (tip (dlog d1)) c \/ Bad P c (ps_current_term (w_disk w i)).
Proof.
  intros Hc H1 Ht. pose proof (t_wf _ _ HT v d1 H1) as [_ Hr]. pose proof (Acked_rooted voters P HT i c Hc) as Hrc.
  destruct Hc as (d & Hd & Htd & _). destruct (now_hard _ _ _ HN i d Hd) as [Hle _].
  destruct (decide (c.2 = ps_current_term (w_disk w i))) as [E|Hne].
  - destruct (Z.le_ge_cases c.1 (tip (dlog d1)).1); [left|right; left]; apply (same_term voters P HT); try done; lia.
  - destruct (Anc_decide c (tip (dlog d1)) Hr) as [?|Hno]; [by left|right; right].
    destruct (rooted_linked _ _ Hr) as [E|(pt & e & HL & He)].
    + pose proof (Anc_terms P (past_log voters P HT) _ _ Hrc). rewrite E in Ht. cbn in *. lia.
    + exists pt, e. rewrite <- He in Ht, Hno. cbn [snd key_of] in Ht. split_and!; [done|lia|lia|done].
Qed.

(** ** Snapshots *)

Lemma compacted_log T l idx t :
  LogInv T l -> base_of l < idx < u64_max -> term_at l idx = Some t ->
  let l' := sentinel idx t :: drop (Z.to_nat (idx - base_of l + 1)) l in
  LogInv T l' /\ tip l' = tip l /\ (forall pt e, linked l' pt e -> linked l pt e) /\
  forall j, idx <= j -> term_at l' j = term_at l j.
Proof.
  intros Hl Hi Ht l'. unfold term_at in Ht. destruct (log_at l idx) as [e|] eqn:Ee; [|done]. injection Ht as Ht.
  apply log_at_Some in Ee as (k & Hk & Hidx). assert (k = Z.to_nat (idx - base_of l)) as Ek by lia.
  rewrite Ek in Hk. pose proof (LogInv_base _ _ Hl). assert (1 <= le_term e) as Hpos.
  { apply (li_positive _ _ Hl (Z.to_nat (idx - base_of l))); [lia|done]. }
  assert (LogInv T l') as Hl'.
  { unfold l'. rewrite <- Ht. apply LogInv_compact; [done|lia|done|lia]. }
  assert (forall n, agree_upto n l l') as Hag.
  { intros n. unfold l'. rewrite <- Ht. apply agree_upto_compact; [lia|done]. }
  assert (forall j, idx <= j -> term_at l' j = term_at l j) as Hterm by (intros j Hj; by apply (Hag j)).
  split_and!; [done| | |done].
  - assert (last_of l' = last_of l) as Hlast.
    { rewrite (LogInv_last _ _ Hl'), (LogInv_last _ _ Hl). apply lookup_lt_Some in Hk.
      unfold l'. cbn [length]. rewrite length_drop. cbn. lia. }
    rewrite (surjective_pairing (tip l')), (surjective_pairing (tip l)). rewrite !tip_index, Hlast. f_equal.
    pose proof (tip_term_at _ _ Hl') as H1. pose proof (tip_term_at _ _ Hl) as H2. rewrite Hlast in H1.
    apply lookup_lt_Some in Hk. pose proof (LogInv_last _ _ Hl).
    rewrite (Hterm (last_of l)), H2 in H1 by lia. by injection H1.
  - intros pt x Hlx. destruct (proj1 (linked_log_at _ _ Hl' (le_index x) pt x) (conj Hlx eq_refl)) as (H1 & H2 & H3).
    change (base_of l') with idx in H2.
    apply (linked_log_at _ _ Hl (le_index x)). rewrite <- (Hterm (le_index x - 1)) by lia.
    split_and!; [|lia|done]. rewrite <- H1. symmetry. apply (Hag (le_index x)); [split; [exact (Z.lt_le_incl _ _ H2)|lia]|done].
Qed.

Lemma compact_Now i m x :
  w_mem w i = Some m -> base_of (dlog (w_disk w i)) < sm_last_included_index x <= m_commit m ->
  sm_last_included_index x < u64_max ->
  term_at (dlog (w_disk w i)) (sm_last_included_index x) = Some (sm_last_included_term x) ->
  let d' := persist (PersistSnapshot x) (w_disk w i) in
  Tree voters (grown P i d') /\
  Now voters (grown P i d') (mkWorld (upd i d' (w_disk w)) (upd i (Some m) (w_mem w)) (w_net w)).
Proof.
  intros Hm Hi Hmax Ht d'. pose proof (disk_log voters P w HT HN i) as Hl. rewrite base_dlog in Hi.
  destruct (compacted_log _ _ (sm_last_included_index x) (sm_last_included_term x) Hl ltac:(rewrite base_dlog; lia) Ht) as (Hl' & Htip & Hlk & Hat).
  assert (dlog d' = sentinel (sm_last_included_index x) (sm_last_included_term x) ::
    drop (Z.to_nat (sm_last_included_index x - base_of (dlog (w_disk w i)) + 1)) (dlog (w_disk w i))) as Ed.
  { unfold d'. rewrite dlog_snapshot by lia. unfold behind. by rewrite decide_True. }
  rewrite <- Ed in *. destruct (now_mem _ _ _ HN i m Hm) as (_ & (tc & Htc & Hcom) & _).
  apply (log_Now i m m d'); try done.
  - intros pt e Hlx. exists i, (w_disk w i). split; [apply HN|by apply Hlk].
  - rewrite Htip. apply (t_wf _ _ HT i), HN.
  - exists (sm_last_included_term x). change (ps_base d') with (sm_last_included_index x).
    rewrite Hat by lia. split; [done|]. apply (Com_below voters P HT _ _ _ Hcom).
    apply (past_path voters P HT i (w_disk w i)); [apply HN|lia|done|done].
  - exists tc. rewrite Hat by lia. done.
  - right. split_and!; [done|done|right]. change (ps_base d') with (sm_last_included_index x). lia.
  - intros c _ Hc. left. by rewrite Htip.
Qed.

Lemma install_Now i m from r x :
  w_mem w i = Some m -> w_net w from i (MInstallSnapshot r) ->
  ins_term r = ps_current_term (w_disk w i) ->
  sm_last_included_index x = ins_last_included_index r ->
  sm_last_included_term x = ins_last_included_term r -> m_commit m < sm_last_included_index x ->
  let d' := persist (PersistSnapshot x) (w_disk w i) in
  let m' := mkMem follower (sm_last_included_index x) (m_votes m) (m_match m) in
  Tree voters (grown P i d') /\
  Now voters (grown P i d') (mkWorld (upd i d' (w_disk w)) (upd i (Some m') (w_mem w)) (w_net w)).
Proof.
  intros Hm Hnet Hterm Hidx Htx Hgt d' m'. set (l := dlog (w_disk w i)).
  destruct (now_net _ _ _ HN from i _ Hnet) as [(d1 & H1 & Ht1 & Htip & Hb & Hbt) _].
  rewrite Hterm in Ht1, Htip. rewrite <- Hidx in Hb. rewrite <- Htx in Hbt.
  set (idx := sm_last_included_index x) in *. set (t := sm_last_included_term x) in *.
  pose proof (disk_log voters P w HT HN i) as Hl. fold l in Hl.
  destruct (now_mem _ _ _ HN i m Hm) as (_ & (tc & Htc & _) & _).
  pose proof (proj1 (term_at_range _ _ Hl _) (mk_is_Some _ _ Htc)) as Hrange.
  pose proof (LogInv_base _ _ Hl) as Hb0. pose proof (past_log voters P HT from d1 H1) as Hl1.
  pose proof (LogInv_base _ _ Hl1) as Hb1. rewrite base_dlog, Hb in Hb1.
  pose proof (base_term_at d1) as Hat1. rewrite Hb, Hbt in Hat1.
  assert (Com voters P (ps_current_term (w_disk w i)) (idx, t)) as Hcom.
  { destruct (now_base _ _ _ HN from d1 H1) as (t' & Ht' & Hc'). rewrite Hb in Ht', Hc'. congruence. }
  assert (1 <= t <= ps_current_term (w_disk w i)) as Ht.
  { destruct (li_sentinel _ _ Hl1) as (i0 & t0 & rest & E & _ & Hpos & Hz). unfold dlog in E. injection E as E1 E2 _.
    pose proof (li_bound _ _ Hl1 0%nat _ eq_refl) as Hle. cbn in Hle.
    unfold ps_base in Hb. rewrite Hbt in *. lia. }
  assert (Anc (Links P) (idx, t) (tip (dlog d1))) as Hbelow by by apply (past_path_tip voters P HT from).
  assert (dlog d' = sentinel idx t :: behind l x) as Ed by (apply dlog_snapshot; rewrite <- base_dlog; fold l; lia).
  destruct (decide (term_at l idx = Some t)) as [Hhave|Hno].
  - destruct (compacted_log _ _ idx t Hl ltac:(lia) Hhave) as (Hl' & Hsame & Hlk & Hat).
    unfold behind in Ed. rewrite decide_True in Ed by done. fold idx in Ed. rewrite <- Ed in *.
    apply (log_Now i m m' d'); try done.
    + intros pt e Hlx. exists i, (w_disk w i). split; [apply HN|by apply Hlk].
    + rewrite Hsame. apply (t_wf _ _ HT i), HN.
    + exists t. change (ps_base d') with idx. by rewrite Hat.
    + exists t. change (m_commit m') with idx. by rewrite Hat.
    + by left.
    + intros c _ Hc. left. by rewrite Hsame.
  - unfold behind in Ed. rewrite decide_False in Ed by done.
    assert (term_at [sentinel idx t] idx = Some t) as Hat.
    { unfold term_at, log_at. change (base_of [sentinel idx t]) with idx. by rewrite Z.ltb_irrefl, Z.sub_diag. }
    apply (log_Now i m m' d'); rewrite ?Ed; try done.
    + apply LogInv_sentinel; [lia|done].
    + intros pt e (k & a & _ & Hx & _). by destruct k.
    + by apply (past_rooted voters P HT from d1).
    + exists t. rewrite Ed. change (ps_base d') with idx. done.
    + exists t. rewrite Ed. change (m_commit m') with idx. done.
    + by left.
    + intros c Hc Hct. change (tip [sentinel idx t]) with (idx, t).
      assert (Anc (Links P) (idx, t) c -> False) as Hnot.
      { intros Hic. apply Hno. apply (past_back_tip voters P HT i (w_disk w i));
          [apply HN|by etransitivity|fold l; lia]. }
      destruct (from_leader i c from d1 Hc H1 Htip) as [HcL|[HLc|?]]; [|by destruct Hnot; etransitivity|by right].
      left. destruct (Z.le_ge_cases c.1 idx) as [Hle|Hge].
      * by apply (Anc_linear _ _ _ (tip (dlog d1))); [apply HT| | |].
      * destruct Hnot. by apply (Anc_linear _ _ _ (tip (dlog d1))); [apply HT| | |].
Qed.

(** ** Accepting entries *)

Lemma Holds_chained T l r :
  LogInv T l -> Holds l r ->
  chained T (ae_previous_log_index r + 1) (ae_previous_log_term r) (ae_entries r).
Proof.
  intros Hl [Hp He]. set (prev := ae_previous_log_index r) in *.
  unfold term_at in Hp. destruct (log_at l prev) as [a|] eqn:Ea; [|done]. injection Hp as Hp.
  rewrite <- Hp. apply log_at_Some in Ea as (j & Hj & Hprev).
  assert (forall k e, ae_entries r !! k = Some e -> l !! (j + 1 + k)%nat = Some e) as Hat.
  { intros k e Hk. specialize (He k e Hk). apply log_at_Some in He as (n & Hn & En).
    by replace (j + 1 + k)%nat with n by lia. }
  split_and!.
  - intros k e Hk. by apply (log_at_index _ _ Hl), He.
  - intros k e Hk. specialize (Hat k e Hk). split_and!.
    + by apply (li_sorted _ _ Hl j (j + 1 + k)); [lia| |].
    + by apply (li_bound _ _ Hl _ _ Hat).
    + by apply (li_positive _ _ Hl (j + 1 + k)); [lia|].
  - intros x y e e' Hxy Hx Hy. apply (li_sorted _ _ Hl (j + 1 + x) (j + 1 + y)); [lia|auto|auto].
  - pose proof (Holds_end l r) as Hend. unfold request_end, size_of in Hend. cbn [fst snd] in Hend.
    assert (is_Some (term_at l (prev + Z.of_nat (length (ae_entries r))))) as HS.
    { eexists. apply Hend. split; [|done]. unfold term_at. fold prev.
      by rewrite (proj2 (log_at_Some l prev a)), <- Hp by eauto. }
    apply (term_at_range _ _ Hl) in HS. pose proof (li_max _ _ Hl). lia.
Qed.

(** Two logs that hold one request agree on its range. *)
Lemma Holds_agree l1 l2 r j :
  Holds l1 r -> Holds l2 r ->
  ae_previous_log_index r <= j <= ae_previous_log_index r + size_of (ae_entries r) ->
  term_at l1 j = term_at l2 j /\ (ae_previous_log_index r < j -> log_at l1 j = log_at l2 j).
Proof.
  intros [P1 E1] [P2 E2] Hj. set (prev := ae_previous_log_index r) in *.
  destruct (decide (j = prev)) as [->|Hne]; [split; [congruence|lia]|].
  unfold size_of in Hj.
  destruct (lookup_lt_is_Some_2 (ae_entries r) (Z.to_nat (j - prev - 1)) ltac:(lia)) as [e He].
  specialize (E1 _ _ He). specialize (E2 _ _ He).
  replace (prev + 1 + Z.of_nat (Z.to_nat (j - prev - 1))) with j in * by lia.
  unfold term_at. by rewrite E1, E2.
Qed.

Section Splice.
Variables (T : Term) (l l1 : list LogEntry) (r : AppendEntries) (pre suffix : list LogEntry).
Hypothesis Hl : LogInv T l.
Hypothesis Hl1 : LogInv T l1.
Hypothesis Hh1 : Holds l1 r.
Hypothesis Hs : Splices l r pre suffix.
Let cut := ae_previous_log_index r + 1 + size_of pre.
Let l' := take (Z.to_nat (cut - base_of l)) l ++ suffix.

Lemma splice_inv : LogInv T l'.
Proof.
  destruct Hs as [H1 H2 H3 H4 H5 H6 H7]. pose proof (Holds_chained _ _ _ Hl1 Hh1) as Hc. rewrite H1 in Hc.
  apply (splice_log T l pre suffix (ae_previous_log_index r + 1) (ae_previous_log_term r) cut);
    try done; [lia|unfold cut; lia|by rewrite Z.add_simpl_r].
Qed.

Lemma splice_front : (0 < Z.to_nat (cut - base_of l))%nat /\ take (Z.to_nat (cut - base_of l)) l <> [].
Proof.
  pose proof (spl_base _ _ _ _ Hs). pose proof (size_of_nonneg pre).
  assert (0 < Z.to_nat (cut - base_of l))%nat as Hpos by (unfold cut; lia). split; [done|].
  intros E%(f_equal length). rewrite length_take in E. pose proof (LogInv_nonempty _ _ Hl). cbn in E. lia.
Qed.

Lemma splice_base : base_of l' = base_of l.
Proof. destruct splice_front as [Hpos Hne]. unfold l'. by rewrite base_of_app, base_of_take. Qed.

Lemma splice_below j : j < cut -> log_at l' j = log_at l j.
Proof.
  intros Hj. pose proof (spl_base _ _ _ _ Hs). pose proof (spl_last _ _ _ _ Hs) as Hlast.
  pose proof (LogInv_last _ _ Hl) as Hlen. pose proof (size_of_nonneg pre).
  destruct splice_front as [Hpos Hne]. unfold l'. rewrite log_at_app; [|done|].
  - apply log_at_take; unfold cut in *; lia.
  - rewrite base_of_take by (unfold cut; lia). unfold size_of at 1. rewrite length_take. unfold cut in *. lia.
Qed.

Lemma splice_holds : Holds l' r.
Proof.
  destruct Hs as [H1 H2 H3 H4 H5 H6 H7]. split.
  - unfold term_at. rewrite splice_below; [exact H4|]. unfold cut. pose proof (size_of_nonneg pre). lia.
  - intros k e Hk. rewrite H1 in Hk. unfold l'.
    by apply (splice_at T l pre suffix); [done|lia|done|unfold cut; lia| |].
Qed.

Lemma splice_tip : tip l' = request_end r.
Proof.
  pose proof (Holds_end _ _ splice_holds) as Hend. pose proof (tip_term_at _ _ splice_inv) as Ht.
  destruct Hs as [H1 H2 H3 H4 H5 H6 H7]. pose proof (size_of_nonneg pre).
  pose proof (LogInv_last _ _ splice_inv) as Hlast. pose proof (LogInv_last _ _ Hl) as Hlen.
  assert (last_of l' = (request_end r).1) as E.
  { rewrite Hlast. unfold request_end. cbn [fst]. rewrite H1, size_of_app.
    rewrite splice_base. unfold l'. rewrite length_app, length_take. unfold cut, size_of in *. lia. }
  rewrite (surjective_pairing (tip l')), (surjective_pairing (request_end r)), tip_index, E. f_equal.
  rewrite E, Hend in Ht. by injection Ht.
Qed.

Lemma splice_linked pt e : linked l' pt e -> linked l pt e \/ linked l1 pt e.
Proof.
  intros He. destruct (proj1 (linked_log_at _ _ splice_inv (le_index e) pt e) (conj He eq_refl)) as (Ha & Hb & Hp).
  set (j := le_index e) in *. rewrite splice_base in Hb.
  destruct (Z.le_gt_cases j (ae_previous_log_index r)) as [Hle|Hgt].
  - left. apply (linked_log_at _ _ Hl j). pose proof (size_of_nonneg pre). unfold term_at in *.
    rewrite <- !splice_below by (unfold cut; lia). split_and!; [done|lia|done].
  - right. pose proof (proj1 (log_at_range _ _ splice_inv j) (mk_is_Some _ _ Ha)) as [_ Hj].
    rewrite <- tip_index, splice_tip in Hj. unfold request_end in Hj. cbn [fst] in Hj.
    destruct (Holds_agree l1 l' r j Hh1 splice_holds ltac:(lia)) as [_ Hat].
    destruct (Holds_agree l1 l' r (j - 1) Hh1 splice_holds ltac:(lia)) as [Hpt _].
    apply (linked_log_at _ _ Hl1 j). rewrite Hat, Hpt by lia. split_and!; [done| |done].
    pose proof (proj1 (term_at_range _ _ Hl1 (j - 1))) as Hr. rewrite Hpt in Hr. specialize (Hr (mk_is_Some _ _ Hp)). lia.
Qed.
End Splice.

(** What the follower had acknowledged is still below the end of its log, or lost
    to an entry of a later term. *)
Lemma accept_acks i from d1 r pre suffix c :
  let T := ps_current_term (w_disk w i) in let l := dlog (w_disk w i) in
  P from d1 -> LogInv T (dlog d1) -> (tip (dlog d1)).2 = T -> Holds (dlog d1) r -> Splices l r pre suffix ->
  Acked P i c -> Anc (Links P) c (tip l) ->
  Anc (Links P) c (request_end r) \/ Bad P c T.
Proof.
  intros T l H1 Hl1 Htip1 Hh1 Hs Hc Hct. pose proof (disk_log voters P w HT HN i : LogInv T l) as Hl.
  set (cut := ae_previous_log_index r + 1 + size_of pre) in *. set (z := request_end r).
  pose proof (spl_base _ _ _ _ Hs) as Hb. pose proof (size_of_nonneg pre) as Hpre.
  pose proof (Holds_Anc voters P HT from d1 r H1 Hh1) as Hz. fold z in Hz.
  destruct (suffix) as [|e0 rest] eqn:Esuf; [by destruct (spl_new _ _ _ _ Hs)|].
  assert (size_of (ae_entries r) = size_of pre + Z.of_nat (S (length rest))) as Hsz.
  { rewrite (spl_entries _ _ _ _ Hs), size_of_app. done. }
  assert (cut <= z.1) as Hcz by (unfold z, request_end, cut; cbn [fst]; lia).
  assert (Anc (Links P) (cut, le_term e0) z) as Hy.
  { rewrite (surjective_pairing z). apply (past_path voters P HT from d1 cut z.1); [done|done| |by apply Holds_end].
    destruct Hh1 as [_ Hent]. unfold term_at, cut, size_of. rewrite (Hent (length pre) e0); [done|].
    rewrite (spl_entries _ _ _ _ Hs), lookup_app_r, Nat.sub_diag by done. done. }
  assert (forall y, Anc (Links P) c y -> Anc (Links P) (cut, le_term e0) y -> c.1 < cut) as Hlow.
  { intros y Hcy Hyy. destruct (Z.lt_ge_cases c.1 cut) as [|Hge]; [done|exfalso].
    pose proof (Anc_index _ _ _ Hct) as Hci2. rewrite tip_index in Hci2. fold l in Hci2.
    destruct (proj2 (term_at_range _ _ Hl cut) ltac:(unfold cut in *; lia)) as [t' Ht'].
    apply (spl_differs _ _ _ _ Hs e0 t' eq_refl Ht').
    assert (Anc (Links P) (cut, t') c) as Hc1.
    { apply (Anc_linear _ _ _ (tip l)); [apply HT| |done|done].
      apply (past_path_tip voters P HT i (w_disk w i)); [apply HN|done]. }
    assert (Anc (Links P) (cut, le_term e0) c) as Hc2 by by apply (Anc_linear _ _ _ y); [apply HT| | |].
    pose proof (Anc_linear _ _ _ _ (t_fun _ _ HT) Hc1 Hc2 (Z.le_refl _)) as HE.
    apply Anc_same_index in HE; [|done]. by injection HE. }
  destruct (from_leader i c from d1 Hc H1 Htip1) as [HcL|[HLc|?]]; [| |by right]; left.
  + pose proof (Hlow _ HcL ltac:(by etransitivity)). apply (Anc_linear _ _ _ (tip (dlog d1))); [apply HT|done|done|lia].
  + exfalso. pose proof (Hlow c ltac:(done) ltac:(etransitivity; [exact Hy|by etransitivity])).
    apply Anc_index in HLc, Hz. lia.
Qed.

Lemma accept_Now i m from r pre suffix :
  w_mem w i = Some m -> w_net w from i (MAppendEntries r) -> m_role m = follower ->
  ae_term r = ps_current_term (w_disk w i) -> Splices (dlog (w_disk w i)) r pre suffix ->
  m_commit m <= ae_previous_log_index r + size_of pre ->
  let d' := persist (PersistLog (ae_previous_log_index r + 1 + size_of pre) suffix) (w_disk w i) in
  Tree voters (grown P i d') /\
  Now voters (grown P i d') (mkWorld (upd i d' (w_disk w)) (upd i (Some m) (w_mem w)) (w_net w)).
Proof.
  intros Hm Hnet Hr Ht Hs Hci d'. set (l := dlog (w_disk w i)) in *. set (T := ps_current_term (w_disk w i)) in *.
  destruct (now_net _ _ _ HN from i _ Hnet) as (d1 & H1 & Ht1 & Htip1 & Hh1 & _). rewrite Ht in Ht1, Htip1.
  pose proof (disk_log voters P w HT HN i : LogInv T l) as Hl.
  pose proof (past_log voters P HT from d1 H1) as Hl1. rewrite Ht1 in Hl1.
  set (cut := ae_previous_log_index r + 1 + size_of pre) in *.
  pose proof (spl_base _ _ _ _ Hs) as Hb. pose proof (size_of_nonneg pre) as Hpre.
  assert (dlog d' = take (Z.to_nat (cut - base_of l)) l ++ suffix) as Ed.
  { apply dlog_entries. rewrite <- base_dlog. fold l. unfold cut. lia. }
  pose proof (splice_inv T l (dlog d1) r pre suffix Hl Hl1 Hh1 Hs) as Hl'. fold cut in Hl'. rewrite <- Ed in Hl'.
  pose proof (splice_tip T l (dlog d1) r pre suffix Hl Hl1 Hh1 Hs) as Htip'. fold cut in Htip'. rewrite <- Ed in Htip'.
  assert (forall j, j < cut -> term_at (dlog d') j = term_at l j) as Hbelow.
  { intros j Hj. unfold term_at. rewrite Ed. f_equal. by apply (splice_below T l r pre suffix). }
  pose proof (Holds_Anc voters P HT from d1 r H1 Hh1) as Hz.
  destruct (now_mem _ _ _ HN i m Hm) as (_ & (tc & Htc & Hcom) & _).
  apply (log_Now i m m d'); try done.
  - intros pt e Hle. rewrite Ed in Hle.
    destruct (splice_linked T l (dlog d1) r pre suffix Hl Hl1 Hh1 Hs pt e Hle) as [H|H];
      [exists i, (w_disk w i)|exists from, d1]; split; try done. apply HN.
  - rewrite Htip'. by apply (rooted_below voters P HT _ (tip (dlog d1))); [apply (t_wf _ _ HT from)|].
  - destruct (now_base _ _ _ HN i _ (now_disk _ _ _ HN i)) as (tb & Htb & Hcb). exists tb.
    change (ps_base d') with (ps_base (w_disk w i)). rewrite Hbelow; [done|]. rewrite <- base_dlog. fold l. unfold cut. lia.
  - exists tc. rewrite Hbelow by (unfold cut; lia). done.
  - by left.
  - intros c Hc Hct. rewrite Htip'. by apply (accept_acks i from d1 r pre suffix).
Qed.

(** ** A new entry of a leader *)

Section Leaf.
Variables (i : NodeId) (e : LogEntry).
Let d := w_disk w i.
Let T := ps_current_term d.
Let d' := persist (PersistLog (le_index e) [e]) d.
Let P' := grown P i d'.
Hypothesis Hidx : le_index e = last_of (dlog d) + 1.
Hypothesis Hterm : le_term e = T.
Hypothesis Hpos : 1 <= T.
Hypothesis Hmax : le_index e <= u64_max.
Hypothesis Hline : forall pt e0, Links P pt e0 -> le_term e0 = T -> Anc (Links P) (key_of e0) (tip (dlog d)).

Lemma leaf_log : dlog d' = dlog d ++ [e].
Proof.
  pose proof (disk_log voters P w HT HN i) as Hl. fold d in Hl. pose proof (LogInv_last _ _ Hl) as Hlast.
  pose proof (LogInv_nonempty _ _ Hl). unfold d'. rewrite dlog_entries by (rewrite <- base_dlog; lia).
  rewrite take_ge by lia. done.
Qed.

Lemma leaf_hard : hard_le d d'.
Proof. done. Qed.

Lemma leaf_wf v x : P' v x -> LogInv (ps_current_term x) (dlog x).
Proof.
  intros [Hx|[_ ->]]; [by apply (past_log voters P HT v)|]. rewrite leaf_log.
  pose proof (disk_log voters P w HT HN i) as Hl. fold d in Hl. fold T in Hl. pose proof (tip_term_le voters P HT i d).
  change (ps_current_term d') with T. apply LogInv_snoc; try done.
Qed.

Lemma leaf_tip : tip (dlog d') = key_of e.
Proof. rewrite leaf_log. unfold tip. by rewrite last_snoc. Qed.

Lemma leaf_grow x y : Anc (Links P) x y -> Anc (Links P') x y.
Proof. apply Anc_grow, grown_sub. Qed.

Lemma leaf_link : Links P' (tip (dlog d)).2 e.
Proof.
  exists i, d'. split; [by right|]. rewrite leaf_log.
  pose proof (disk_log voters P w HT HN i) as Hl. fold d in Hl. pose proof (LogInv_nonempty _ _ Hl) as Hne.
  destruct (lookup_lt_is_Some_2 (dlog d) (pred (length (dlog d))) ltac:(lia)) as [a Ha].
  exists (pred (length (dlog d))), a. split_and!.
  - by apply lookup_app_l_Some.
  - rewrite lookup_app_r by lia. by replace (S (pred (length (dlog d))) - length (dlog d))%nat with 0%nat by lia.
  - unfold tip. by rewrite last_lookup, Ha.
Qed.

Lemma leaf_above : Anc (Links P') (tip (dlog d)) (key_of e).
Proof.
  apply (anc_link _ _ _ _ leaf_link). replace (le_index e - 1) with (tip (dlog d)).1 by (rewrite tip_index; lia).
  by rewrite <- surjective_pairing.
Qed.

Lemma leaf_links pt x : Links P' pt x -> Links P pt x \/ pt = (tip (dlog d)).2 /\ x = e.
Proof.
  intros [H|Hx]%Links_grown; [by left|]. rewrite leaf_log in Hx. destruct Hx as (k & a & Ha & Hx & <-).
  apply lookup_app_Some in Hx as [Hx|[Hlen Hx]].
  - left. exists i, d. split; [apply HN|]. exists k, a. split_and!; [|done|done].
    apply lookup_app_Some in Ha as [Ha|[Hge _]]; [done|]. apply lookup_lt_Some in Hx. lia.
  - right. apply list_lookup_singleton_Some in Hx as [Hk <-]. split; [|done].
    rewrite lookup_app_l in Ha by lia. unfold tip.
    rewrite last_lookup. replace (pred (length (dlog d))) with k by lia. by rewrite Ha.
Qed.

(** The new entry is beyond every entry of its term. *)
Lemma leaf_fresh pt x : Links P pt x -> le_term x = T -> le_index x < le_index e.
Proof.
  intros HL Ht. pose proof (Anc_index _ _ _ (Hline pt x HL Ht)) as Hi. rewrite tip_index in Hi. cbn [fst key_of] in Hi. lia.
Qed.

Lemma leaf_functional : functional (Links P').
Proof.
  assert (forall pt x, Links P pt x -> key_of x <> key_of e) as Hne.
  { intros pt x HL E. injection E as E1 E2. pose proof (leaf_fresh pt x HL ltac:(congruence)). lia. }
  intros pt x pt' x' [H|[-> ->]]%leaf_links [H'|[-> ->]]%leaf_links E;
    [|by destruct (Hne _ _ H)|by destruct (Hne _ _ H')|done].
  by apply (t_fun _ _ HT).
Qed.

Lemma leaf_Tree : Reign voters P' T -> Tree voters P'.
Proof.
  intros HR. constructor; [|apply leaf_functional|..].
  - intros v x Hx. split; [by apply (leaf_wf v)|]. destruct Hx as [Hx|[_ ->]].
    + by apply leaf_grow, (t_wf _ _ HT v).
    + rewrite leaf_tip. etransitivity; [|exact leaf_above]. apply leaf_grow, (t_wf _ _ HT i), HN.
  - intros v T' x y. apply (grown_votes voters P w HT HN), leaf_hard.
  - intros pt x pt' x' [H|[-> ->]]%leaf_links [H'|[-> ->]]%leaf_links Ht Hi.
    + by apply leaf_grow, (t_chain _ _ HT pt x pt' x').
    + etransitivity; [|exact leaf_above]. apply leaf_grow, (Hline pt); [done|congruence].
    + pose proof (leaf_fresh pt' x' H' ltac:(congruence)). lia.
    + done.
  - intros pt x [H|[-> ->]]%leaf_links; [|by rewrite Hterm].
    destruct (decide (le_term x = T)) as [->|Hne]; [done|].
    apply (Reign_grow voters P); [done|apply grown_sub|apply leaf_wf|apply leaf_functional| | |by apply (t_reign _ _ HT pt)].
    + intros v y. apply (grown_late voters P w HN), leaf_hard.
    + intros pt' x' [H'|[-> ->]]%leaf_links Ht; [by left|congruence].
Qed.

Lemma leaf_acks c : Tree voters P' -> Acked P' i c ->
  Anc (Links P') c (tip (dlog d')) \/ Bad P' c (ps_current_term d').
Proof.
  intros HT'. apply (acks_grown voters P w HT HN); [apply leaf_hard|done|]. intros x _ Hx. left.
  rewrite leaf_tip. etransitivity; [by apply leaf_grow|exact leaf_above].
Qed.

Lemma leaf_CommitOk c : CommitOk voters P d c -> CommitOk voters P' d' c.
Proof.
  intros (t & Ht & Hc). exists t. split; [|by apply (Com_grow voters P); [apply grown_sub|]].
  rewrite leaf_log. unfold term_at in *. pose proof (disk_log voters P w HT HN i) as Hl. fold d in Hl.
  rewrite log_at_app; [done| |].
  - intros E%(f_equal length). pose proof (LogInv_nonempty _ _ Hl). cbn in *. lia.
  - assert (is_Some (log_at (dlog d) c)) as Hr by by destruct (log_at (dlog d) c).
    apply (log_at_range _ _ Hl) in Hr. pose proof (LogInv_last _ _ Hl). unfold size_of. lia.
Qed.

(** The leader's new state. *)
Lemma leaf_Now m m' :
  w_mem w i = Some m -> Reign voters P' T -> m_role m' = leader -> m_commit m' = m_commit m ->
  (exists Q, majority voters Q /\ forall v, v ∈ Q -> VotedFor P v T i) ->
  (forall v k, m_match m' !! v = Some k -> k = 0 \/ Shares P v i T k) ->
  (forall d0, P i d0 -> (tip (dlog d0)).2 < T) \/ m_role m = leader ->
  Tree voters P' /\ Now voters P' (mkWorld (upd i d' (w_disk w)) (upd i (Some m') (w_mem w)) (w_net w)).
Proof.
  intros Hm HR Hr' Hc (Q & HQ & HV) Hmatch Hlead. pose proof (leaf_Tree HR) as HT'. split; [done|].
  apply (Now_write voters P w HT HN i m m' d'); try done.
  - intros pt x [H|[-> ->]]%leaf_links; [by left|right]. intros j mj Hne Hmj Hrj Et.
    destruct (now_mem _ _ _ HN j mj Hmj) as (_ & _ & Hok). rewrite Hrj in Hok.
    destruct (ld_votes _ _ _ _ _ Hok) as (Qj & HQj & HVj). rewrite <- Et, Hterm in HVj.
    by apply Hne, (elected_once voters P HT T j i Qj Q).
  - intros x Hx. left. exists d. split_and!; [apply HN|done|done].
  - intros c. by apply leaf_acks.
  - apply leaf_CommitOk, (now_base _ _ _ HN i d), HN.
  - destruct (now_mem _ _ _ HN i m Hm) as (Hi & Hcm & _). split_and!; [done|rewrite Hc; by apply leaf_CommitOk|].
    rewrite Hr'. constructor; change (ps_current_term d') with T.
    + by rewrite leaf_tip.
    + intros pt x [H|[-> ->]]%leaf_links Ht; rewrite leaf_tip; [|done].
      etransitivity; [|exact leaf_above]. by apply leaf_grow, (Hline pt).
    + exists Q. split; [done|]. intros v Hv. by apply (VotedFor_grow P); [apply grown_sub|apply HV].
    + intros v k Hk. destruct (Hmatch v k Hk) as [?|Hs]; [by left|right; by apply (Shares_grown P)].
  - congruence.
  - intros _. destruct Hlead as [?|?]; [by left|right]. split_and!; [done|done|by left].
Qed.
End Leaf.

Lemma append_Now i m e :
  w_mem w i = Some m -> m_role m = leader -> le_index e = last_of (dlog (w_disk w i)) + 1 ->
  le_term e = ps_current_term (w_disk w i) -> 1 <= le_term e -> le_index e <= u64_max ->
  let d' := persist (PersistLog (le_index e) [e]) (w_disk w i) in
  Tree voters (grown P i d') /\
  Now voters (grown P i d') (mkWorld (upd i d' (w_disk w)) (upd i (Some m) (w_mem w)) (w_net w)).
Proof.
  intros Hm Hr Hidx Ht Hpos Hmax d'. destruct (now_mem _ _ _ HN i m Hm) as (Hi & _ & Hok). rewrite Hr in Hok.
  pose proof (ld_line _ _ _ _ _ Hok) as Hline. rewrite Ht in Hpos.
  apply (leaf_Now i e Hidx Ht Hpos Hmax Hline m m); try done; [|apply Hok|apply Hok|by right].
  destruct (t_wf _ _ HT i _ (now_disk _ _ _ HN i)) as [_ Hroot].
  pose proof (ld_tip _ _ _ _ _ Hok) as Htip.
  destruct (rooted_linked _ _ Hroot) as [E|(pt & e0 & HL & He0)]; [rewrite E in Htip; cbn in Htip; lia|].
  rewrite <- He0 in Htip.
  apply (Reign_grow voters P); [done|apply grown_sub|by apply leaf_wf|by apply leaf_functional| | |].
  - intros v x. by apply (grown_late voters P w HN).
  - intros pt' x' HL' Ht'. destruct (leaf_links i e Hidx pt' x' HL') as [?|[-> ->]]; [by left|right].
    exists pt, e0. split_and!; [done|done|]. rewrite He0. by apply leaf_above.
  - rewrite <- Htip. by apply (t_reign _ _ HT pt).
Qed.

(** ** An election *)

(** A term whose candidate has a majority has no entry yet. *)
Lemma elect_new i m :
  w_mem w i = Some m -> m_role m = candidate -> size_of voters / 2 + 1 <= Z.of_nat (size (m_votes m)) ->
  majority voters (m_votes m) /\
  forall pt e, Links P pt e -> le_term e <> ps_current_term (w_disk w i).
Proof.
  intros Hm Hr Hq. destruct (now_mem _ _ _ HN i m Hm) as (_ & _ & Hok). rewrite Hr in Hok.
  assert (majority voters (m_votes m)) as HQ.
  { split; [|done]. intros v Hv. apply elem_of_list_to_set. by apply (ca_votes _ _ _ _ _ Hok). }
  split; [done|]. intros pt e HL Ht.
  destruct (t_reign _ _ HT pt e HL) as (j & p & Q & HQj & Hb & _ & _ & (d & Hd & Hdt) & _). rewrite Ht in Hb, Hdt.
  assert (j = i) as ->.
  { apply (elected_once voters P HT (ps_current_term (w_disk w i)) j i Q (m_votes m)); try done.
    - intros v Hv. destruct (Hb v Hv) as (x & Hx & H1 & H2 & _). by exists x.
    - intros v Hv. by apply (ca_votes _ _ _ _ _ Hok). }
  pose proof (ca_older _ _ _ _ _ Hok d Hd). lia.
Qed.

Lemma elect_Now i m e mt :
  w_mem w i = Some m -> m_role m = candidate -> size_of voters / 2 + 1 <= Z.of_nat (size (m_votes m)) ->
  le_index e = last_of (dlog (w_disk w i)) + 1 -> le_term e = ps_current_term (w_disk w i) ->
  1 <= le_term e -> le_index e <= u64_max ->
  (forall v k, mt !! v = Some k -> k = 0 /\ v ∈ voters /\ v <> i) ->
  let d' := persist (PersistLog (le_index e) [e]) (w_disk w i) in
  Tree voters (grown P i d') /\ Now voters (grown P i d')
    (mkWorld (upd i d' (w_disk w)) (upd i (Some (mkMem leader (m_commit m) ∅ mt)) (w_mem w)) (w_net w)).
Proof.
  intros Hm Hr Hq Hidx Ht Hpos Hmax Hmt d'. rewrite Ht in Hpos.
  destruct (elect_new i m Hm Hr Hq) as [HQ Hnone].
  destruct (now_mem _ _ _ HN i m Hm) as (Hi & _ & Hok). rewrite Hr in Hok.
  set (T := ps_current_term (w_disk w i)) in *.
  assert (forall pt e0, Links P pt e0 -> le_term e0 = T ->
    Anc (Links P) (key_of e0) (tip (dlog (w_disk w i)))) as Hline by (intros pt e0 HL E; by destruct (Hnone pt e0 HL)).
  assert (forall v, v ∈ m_votes m -> VotedFor P v T i) as HV by (intros v Hv; by apply (ca_votes _ _ _ _ _ Hok)).
  apply (leaf_Now i e Hidx Ht Hpos Hmax Hline m); try done; [|by exists (m_votes m)| |].
  - exists i, (tip (dlog (w_disk w i))), (m_votes m). split_and!.
    + done.
    + intros v Hv. destruct (ca_ballots _ _ _ _ _ Hok v (HV v Hv)) as (d & Hd & Htd & Hvd & Hup & Hk).
      apply (Ballot_grow voters P (grown P i d') HT) with (B := T - 1);
        [apply grown_sub|by apply leaf_wf|by apply leaf_functional| |done|].
      * intros x [Hx|[-> ->]] Hlt; [done|]. cbn in Hlt. fold T in Hlt. lia.
      * exists d. split_and!; try done. intros c Hc Hlt. destruct (Hk c Hc Hlt) as [?|(pt & e0 & HL & Hb & Hno)]; [by left|right].
        exists pt, e0. pose proof (Hnone pt e0 HL). fold T in Hb. split_and!; [done|lia|lia|done].
    + apply (ca_older _ _ _ _ _ Hok), HN.
    + apply (Anc_grow P); [apply grown_sub|]. apply (t_wf _ _ HT i), HN.
    + exists d'. split; [by right|]. unfold d'. by rewrite leaf_tip.
    + intros pt x HL Htx. destruct (leaf_links i e Hidx pt x HL) as [H|[-> ->]]; [by destruct (Hnone pt x H)|].
      by apply leaf_above.
  - intros v k Hk. left. by apply (Hmt v k).
  - left. intros d0 H0. by apply (ca_older _ _ _ _ _ Hok).
Qed.
End Logs.

(** ** Every execution *)

Section Reach.
Variable voters : list NodeId.

Lemma empty_log : LogInv 0 (dlog empty_persistent_state).
Proof.
  constructor.
  - exists 0, 0, []. split_and!; done || lia.
  - intros k e Hk. apply list_lookup_singleton_Some in Hk as [-> <-]. done.
  - intros j k e e' _ Hj Hk. apply list_lookup_singleton_Some in Hj as [-> <-].
    by apply list_lookup_singleton_Some in Hk as [-> <-].
  - intros k e Hk. apply list_lookup_singleton_Some in Hk as [-> <-]. done.
  - intros k e Hk0 Hk. apply list_lookup_singleton_Some in Hk as [-> <-]. lia.
  - done.
Qed.

Lemma genesis_Tree : Tree voters (fun _ d => d = empty_persistent_state).
Proof.
  assert (forall pt e, ~ Links (fun _ d => d = empty_persistent_state) pt e) as Hno.
  { intros pt e (v & d & -> & k & a & _ & He & _). by destruct k. }
  constructor.
  - intros v d ->. split; [apply empty_log|constructor].
  - intros pt e pt' e' H. by destruct (Hno pt e).
  - intros v T x y (d & -> & _ & Hx). done.
  - intros pt e pt' e' H. by destruct (Hno pt e).
  - intros pt e H. by destruct (Hno pt e).
Qed.

Lemma genesis_Now : Now voters (fun _ d => d = empty_persistent_state) genesis.
Proof.
  constructor; cbn [genesis w_disk w_mem w_net]; try done.
  - intros v d ->. apply hard_le_refl.
  - intros v c (d & -> & _ & Hc). by left.
  - intros v T x (d & -> & _ & Hx). done.
  - intros v d ->. exists 0. split; [done|by left].
Qed.
(** The past [P] explains the world [w]. *)
Definition Sound (P : NodeId -> RaftPersistentState -> Prop) (w : World) : Prop := Tree voters P /\ Now voters P w.

Lemma lstep_Sound P w i m d' m' :
  Sound P w -> w_mem w i = Some m -> lstep voters (w_net w) i (w_disk w i) m d' m' ->
  exists P', (forall v d, P v d -> P' v d) /\
    Sound P' (mkWorld (upd i d' (w_disk w)) (upd i (Some m') (w_mem w)) (w_net w)).
Proof.
  intros [HT HN] Hm Hs.
  assert (forall x, Sound (grown P i d') x -> exists P', (forall v d, P v d -> P' v d) /\ Sound P' x) as Hgrow.
  { intros x Hx. exists (grown P i d'). split; [apply grown_sub|done]. }
  assert (forall x, Now voters P x -> exists P', (forall v d, P v d -> P' v d) /\ Sound P' x) as Hsame
    by (intros x Hx; by exists P).
  destruct Hs as [t| |x r| |v r|e mt|e|from r pre suf|from r x|x|c Q|from r c|v r k|v r x].
  - by apply Hgrow, enter_Now.
  - apply Hsame, (Now_memory voters P w i m); try done. by apply follow_ok.
  - by apply Hgrow, (vote_Now voters P w HT HN i m x r).
  - by apply Hgrow, campaign_Now.
  - apply Hsame, (Now_memory voters P w i m); try done. by eapply count_ok.
  - by apply Hgrow, elect_Now.
  - by apply Hgrow, append_Now.
  - by apply Hgrow, (accept_Now voters P w HT HN i m from r pre suf).
  - by apply Hgrow, (install_Now voters P w HT HN i m from r x).
  - by apply Hgrow, compact_Now.
  - apply Hsame, (Now_memory voters P w i m); try done. by eapply commit_leader_ok.
  - apply Hsame, (Now_memory voters P w i m); try done. by eapply commit_follower_ok.
  - apply Hsame, (Now_memory voters P w i m); try done. by eapply match_append_ok.
  - apply Hsame, (Now_memory voters P w i m); try done. by eapply match_snapshot_ok.
Qed.

Lemma wstep_Sound P w w' :
  Sound P w -> wstep voters w w' -> exists P', (forall v d, P v d -> P' v d) /\ Sound P' w'.
Proof.
  intros [HT HN] Hs. destruct Hs as [i m d' m' Hm Hl|i m to msg Hm Ht|i|i Hi Hno].
  - by apply (lstep_Sound P w i m).
  - exists P. split; [done|]. split; [done|]. by apply (Now_send voters P w HT HN i m).
  - exists P. split; [done|]. split; [done|]. by apply Now_crash.
  - exists P. split; [done|]. split; [done|]. by apply Now_start.
Qed.

Lemma wsteps_Sound P w w' :
  Sound P w -> rtc (wstep voters) w w' -> exists P', (forall v d, P v d -> P' v d) /\ Sound P' w'.
Proof.
  intros HS Hs. revert P HS. induction Hs as [w|w1 w2 w3 H12 _ IH]; intros P HS; [by exists P|].
  destruct (wstep_Sound P w1 w2 HS H12) as (P2 & Hsub & HS2).
  destruct (IH P2 HS2) as (P3 & Hsub' & HS3). exists P3. split; [auto|done].
Qed.
End Reach.
