(* ===== verification/RaftRefinement.v ===== *)
(** * The Raft node follows the protocol

    Every operation of [RaftNode] is a sequence of the steps of [AbstractRaft],
    taken by the node with the messages it was given: the durable states it goes
    through while its actions are carried out are those of the steps, and the
    messages it sends are true of the state it ends in. *)

From S2P Require Import Prelude RaftTypes RaftNode RaftInvariant RaftStep RaftHandlers RaftSafety RaftEmits LogTree AbstractRaft.

Section Refinement.
Context {RNG : UniformRandom}.

(** ** Operations as steps *)

Definition mem_of (s : Impl) : Mem :=
  mkMem (n_role s) (n_commit_index s) (n_votes_received s) (pp_match_index <$> n_peer_progress s).

Definition view (s : Impl) : RaftPersistentState * Mem := (persistent_of s, mem_of s).

Variable voters : list NodeId.
Variable net : NodeId -> NodeId -> Message -> Prop.
Variable i : NodeId.

Definition lsteps : relation (RaftPersistentState * Mem) :=
  rtc (fun p q => lstep voters net i p.1 p.2 q.1 q.2).

(** The actions [new] that lead from [s] to [s'] are carried out along steps. *)
Record Sim (s : Impl) (new : Actions) (s' : Impl) : Prop := {
  sim_steps : lsteps (view s) (view s');
  sim_disks : forall k, exists m, lsteps (view s) (replay (take k new) (persistent_of s), m);
  sim_persist : replay new (persistent_of s) = persistent_of s';
}.

Lemma Sim_trans s1 n1 s2 n2 s3 : Sim s1 n1 s2 -> Sim s2 n2 s3 -> Sim s1 (n1 ++ n2) s3.
Proof.
  intros [S1 D1 P1] [S2 D2 P2]. constructor.
  - by etransitivity.
  - intros k. rewrite take_app. destruct (Nat.le_gt_cases k (length n1)) as [Hle|Hgt].
    + replace (k - length n1)%nat with 0%nat by lia. rewrite take_0, app_nil_r. apply D1.
    + destruct (D2 (k - length n1)%nat) as [m Hm]. exists m.
      rewrite (take_ge n1) by lia. rewrite replay_app, P1. by etransitivity.
  - by rewrite replay_app, P1.
Qed.

Lemma replay_neutral l p : Forall neutral l -> replay l p = p.
Proof.
  intros H. revert p. induction H as [|a l Ha _ IH]; intros p; [done|]. destruct a; try done; apply IH.
Qed.

Lemma Sim_quiet s new s' :
  Forall neutral new -> persistent_of s' = persistent_of s -> mem_of s' = mem_of s -> Sim s new s'.
Proof.
  intros Hn Hp Hm. unfold view. constructor.
  - unfold view. rewrite Hp, Hm. constructor.
  - intros k. exists (mem_of s). rewrite replay_neutral by by apply Forall_take. constructor.
  - by rewrite replay_neutral.
Qed.

(** One step, with at most one durable write [x] among the actions. *)
Lemma Sim_memory s new s' :
  Forall neutral new -> persistent_of s' = persistent_of s ->
  lstep voters net i (persistent_of s) (mem_of s) (persistent_of s) (mem_of s') -> Sim s new s'.
Proof.
  intros Hn Hp Hs. constructor.
  - unfold view. rewrite Hp. by apply rtc_once.
  - intros k. exists (mem_of s). rewrite replay_neutral by by apply Forall_take. constructor.
  - by rewrite replay_neutral.
Qed.

Lemma Sim_write s pre x post s' :
  Forall neutral pre -> Forall neutral post -> persist x (persistent_of s) = persistent_of s' ->
  lstep voters net i (persistent_of s) (mem_of s) (persistent_of s') (mem_of s') ->
  Sim s (pre ++ x :: post) s'.
Proof.
  intros Hpre Hpost Hx Hs.
  assert (lsteps (view s) (view s')) as Hone by by apply rtc_once.
  constructor; [done| |].
  - intros k. rewrite take_app, replay_app, (replay_neutral (take k pre)) by by apply Forall_take.
    destruct (k - length pre)%nat as [|n]; cbn [take replay foldl].
    + exists (mem_of s). constructor.
    + exists (mem_of s'). rewrite Hx. change (foldl _ _ ?l) with (replay l (persistent_of s')).
      by rewrite replay_neutral by by apply Forall_take.
  - rewrite replay_app, (replay_neutral pre) by done. cbn [replay foldl]. rewrite Hx.
    change (foldl _ _ ?l) with (replay l (persistent_of s')). by rewrite replay_neutral.
Qed.

(** The node the steps are about. *)
Definition Mine (s : Impl) : Prop := cfg_voters (n_config s) = voters /\ self_id s = i.

Lemma Mine_config s s' : n_config s' = n_config s -> Mine s -> Mine s'.
Proof. unfold Mine, self_id. by intros ->. Qed.

Lemma dlog_of s : Inv s -> dlog (persistent_of s) = n_log s.
Proof.
  intros H. destruct (li_sentinel _ _ (inv_log _ H)) as (j & t & rest & El & Hj & _ & Hz).
  pose proof (inv_snapshot _ H) as Hs. unfold base_index, log_front in Hs. unfold dlog, persistent_of. cbn.
  rewrite El in *. cbn in *. destruct (n_durable_snapshot s) as [x|]; cbn.
  - destruct Hs as (-> & -> & _). done.
  - rewrite Hs. by rewrite (proj1 Hz Hs).
Qed.

Lemma tip_of s : tip (n_log s) = (last_log_index s, last_log_term s).
Proof. done. Qed.

Definition noack (a : Action) : Prop :=
  match a with
  | SendMessage _ (MAppendEntriesResponse _) | SendMessage _ (MInstallSnapshotResponse _) => False
  | _ => True
  end.

Lemma bland_noack l : Forall bland l -> Forall noack l.
Proof. intros H. eapply Forall_impl; [exact H|]. by intros []. Qed.

(** [m] runs from [s] along steps, and acknowledges nothing. *)
Definition does {A} (m : M Impl A) (s : Impl) (a : A) (s' : Impl) : Prop :=
  exists new, runs m s a new s' /\ Sim s new s' /\ Forall noack new.

Lemma does_bind {A B} (m : M Impl A) (k : A -> M Impl B) s a s1 b s2 :
  does m s a s1 -> does (k a) s1 b s2 -> does (bind m k) s b s2.
Proof.
  intros (n1 & R1 & S1 & A1) (n2 & R2 & S2 & A2). exists (n1 ++ n2).
  split_and!; [by eapply runs_bind|by eapply Sim_trans|by apply Forall_app].
Qed.

Lemma does_get {B} (k : Impl -> M Impl B) s b s' : does (k s) s b s' -> does (bind get k) s b s'.
Proof. done. Qed.

Lemma does_same {A} (m m' : M Impl A) s a s' : m s = m' s -> does m' s a s' -> does m s a s'.
Proof. intros Hm (new & (E & R) & H). exists new. split; [|done]. split; [by rewrite Hm|done]. Qed.

Lemma does_Inv {A} (m : M Impl A) s a s' : does m s a s' -> Inv s' /\ n_config s' = n_config s.
Proof. intros (new & (_ & I & S1) & _). split; [done|apply (st_config _ _ _ S1)]. Qed.

Lemma bland_new {A} (m : M Impl A) s a new s' : within (Emits bland) m -> runs m s a new s' -> Forall bland new.
Proof.
  intros Hm (E & _ & S1). specialize (Hm s). rewrite E in Hm. destruct Hm as (l & El & Hl). cbn [fst] in El.
  rewrite (st_actions _ _ _ S1) in El. by apply app_inv_head in El as ->.
Qed.

Lemma does_quiet {A} (m : M Impl A) s a new s' :
  within (Emits bland) m -> runs m s a new s' -> mem_of s' = mem_of s -> does m s a s'.
Proof.
  intros Hm R Hmem. pose proof (bland_new m s a new s' Hm R) as Hb. exists new.
  split_and!; [done| |by apply bland_noack]. apply bland_neutral in Hb. apply Sim_quiet; [done| |done].
  destruct R as (_ & _ & S1). by rewrite <- (st_persist _ _ _ S1), replay_neutral.
Qed.

Lemma does_ret {A} (a : A) s : Inv s -> does (ret a) s a s.
Proof. intros H. apply (does_quiet _ _ _ []); [apply within_ret, _|by apply runs_ret|done]. Qed.

Lemma push_does a s :
  Inv s -> bland a -> inert a = true -> announce (n_role s) a = n_role s ->
  does (push_action a) s tt (set_actions (n_actions s ++ [a]) s).
Proof.
  intros H Hb Ha Hr. apply (does_quiet _ _ _ [a]); [by apply push_Emits| |done].
  split_and!; [done|by apply Inv_actions|]. apply Step_inert; node_simpl; try done; [|congruence].
  constructor; [by rewrite Ha|constructor].
Qed.

(** *** Leaders *)

Lemma Sends_mem s s' : Inv s -> Inv s' -> n_role s = leader -> Sends s s' -> mem_of s' = mem_of s.
Proof.
  intros H H' Hr HS. destruct (Sends_frame _ _ HS) as (Hc & Hr' & Ht & Hl & Hci & Hv).
  unfold mem_of. rewrite Hr', Hci, Hv. f_equal. apply map_eq. intros v. rewrite !lookup_fmap.
  pose proof (inv_role _ H) as R. pose proof (inv_role _ H') as R'. unfold RoleOk in R, R'.
  rewrite Hr in R. rewrite Hr', Hr in R'. destruct R as (_ & _ & _ & _ & Hd & _), R' as (_ & _ & _ & _ & Hd' & _).
  specialize (Hd v). specialize (Hd' v). rewrite Hc in Hd'. replace (self_id s') with (self_id s) in Hd' by (unfold self_id; by rewrite Hc).
  destruct (n_peer_progress s' !! v) as [p'|] eqn:E'.
  - destruct (sends_match _ _ HS v p' E') as (p & -> & Hm). cbn. by rewrite Hm.
  - destruct (n_peer_progress s !! v) as [p|] eqn:E; [|done].
    assert (is_Some (@None PeerProgress)) as [? ?]; [|done]. apply Hd', Hd. done.
Qed.

Lemma broadcast_does s :
  Inv s -> n_role s = leader -> n_next_rpc_id s + 7 <= u64_max ->
  exists s', does broadcast_append_entries s tt s' /\ mem_of s' = mem_of s.
Proof.
  intros H Hr Hrpc. destruct (broadcast_runs s H Hr Hrpc) as (new & s' & R & HS & _).
  pose proof (Sends_mem s s' H (proj1 (proj2 R)) Hr HS) as Hm. exists s'. split; [|done].
  by apply (does_quiet _ _ _ new); [apply broadcast_Emits| |].
Qed.

Lemma send_does peer s :
  Inv s -> n_role s = leader -> is_Some (n_peer_progress s !! peer) -> n_next_rpc_id s < u64_max ->
  exists s', does (send_append_entries peer) s tt s'.
Proof.
  intros H Hr Hp Hrpc. destruct (send_append_entries_runs peer s H Hr Hp Hrpc) as (new & s' & R & HS & _).
  pose proof (Sends_mem s s' H (proj1 (proj2 R)) Hr HS) as Hm. exists s'.
  by apply (does_quiet _ _ _ new); [apply send_append_entries_Emits| |].
Qed.

Lemma NoDup_fst_filter {A B} (Q : A * B -> Prop) `{forall x, Decision (Q x)} (l : list (A * B)) :
  NoDup l.*1 -> NoDup (filter Q l).*1.
Proof.
  induction l as [|x l IH]; [done|]. cbn [fmap list_fmap]. intros [Hx Hl]%NoDup_cons. rewrite filter_cons.
  destruct (decide (Q x)); [|by apply IH]. cbn. apply NoDup_cons. split; [|by apply IH].
  intros Hin. apply Hx. apply list_elem_of_fmap in Hin as (y & -> & Hy). apply list_elem_of_fmap_2.
  by apply list_elem_of_filter in Hy as [_ Hy].
Qed.

(** The members that are known to hold an index. *)
Lemma replicated_majority s c :
  Inv s -> Mine s -> n_role s = leader -> quorum s <= replicated s c ->
  exists Q, majority voters Q /\
    forall v, v ∈ Q -> v = i \/ exists k, m_match (mem_of s) !! v = Some k /\ c <= k.
Proof.
  intros H [Hv Hi] Hr Hq. pose proof (inv_role _ H) as R. unfold RoleOk in R. rewrite Hr in R.
  destruct R as (_ & _ & _ & _ & Hd & _). unfold replicated in Hq.
  set (f := filter _ _) in Hq. set (peers := list_to_set f.*1 : gset NodeId).
  assert (forall v, v ∈ peers -> exists p, n_peer_progress s !! v = Some p /\ c <= pp_match_index p) as Hp.
  { intros v Hvp. unfold peers in Hvp. apply elem_of_list_to_set, list_elem_of_fmap in Hvp as ([v' p] & -> & Hin).
    unfold f in Hin. apply list_elem_of_filter in Hin as [Hc Hin%elem_of_map_to_list]. eauto. }
  assert (Z.of_nat (size peers) = size_of f) as Hsz.
  { unfold peers. rewrite size_list_to_set, length_fmap; [done|].
    unfold f. apply NoDup_fst_filter, NoDup_fst_map_to_list. }
  assert (i ∉ peers) as Hno.
  { intros Hin. destruct (Hp i Hin) as (p & Ep & _). apply (Hd i); [by rewrite Ep|done]. }
  exists ({[i]} ∪ peers). split; [split|].
  - intros v Hin. apply elem_of_list_to_set. rewrite <- Hv. apply elem_of_union in Hin as [->%elem_of_singleton|Hin].
    + rewrite <- Hi. apply (inv_config _ H).
    + destruct (Hp v Hin) as (p & Ep & _). apply (Hd v). by rewrite Ep.
  - unfold quorum in Hq. rewrite Hv in Hq. rewrite size_union, size_singleton by set_solver. lia.
  - intros v Hin. apply elem_of_union in Hin as [->%elem_of_singleton|Hin]; [by left|right].
    destruct (Hp v Hin) as (p & Ep & Hc). exists (pp_match_index p). split; [|done].
    cbn. by rewrite lookup_fmap, Ep.
Qed.

Lemma advance_does s :
  Inv s -> Mine s -> n_role s = leader ->
  exists b s', does advance_leader_commit s b s' /\ n_role s' = leader /\
    n_next_rpc_id s' = n_next_rpc_id s /\ n_peer_progress s' = n_peer_progress s.
Proof.
  intros H HM Hr. destruct (advance_leader_commit_runs s H) as (b & c & new & _ & R & Hc & Hb & Hnb & _).
  pose proof (bland_new _ _ _ _ _ advance_leader_commit_Emits R) as Hbl.
  match type of R with runs _ _ _ _ ?x => exists b, x end. split; [|by split_and!].
  exists new. split_and!; [exact R| |by apply bland_noack]. apply bland_neutral in Hbl.
  destruct (decide (c = n_commit_index s)) as [->|Hne]; [by apply Sim_quiet|].
  destruct b; [|by destruct Hne; apply Hnb]. destruct (Hb eq_refl) as [Ht Hq].
  destruct (replicated_majority s c H HM Hr Hq) as (Q & HQ & Hk).
  apply Sim_memory; [done|done|].
  replace (mem_of (set_actions _ _)) with (mkMem leader c (m_votes (mem_of s)) (m_match (mem_of s)))
    by (unfold mem_of; node_simpl; by rewrite Hr).
  apply (l_commit_leader _ _ _ _ _ c Q); try done; [cbn; lia|]. by rewrite dlog_of.
Qed.

Lemma append_does kind cmd s :
  Inv s -> n_role s = leader -> last_log_index s + 1 < u64_max ->
  exists s', does (append_local_entry kind cmd) s tt s' /\ n_role s' = leader /\
    n_next_rpc_id s' = n_next_rpc_id s.
Proof.
  intros H Hr Hroom. pose proof (append_local_entry_runs kind cmd s H Hr Hroom) as R. cbv zeta in R.
  match type of R with runs _ _ _ _ ?x => set (s' := x) in * end. set (e := mkLogEntry _ _ _ _) in *.
  exists s'. split; [|done]. exists [PersistLog (le_index e) [e]]. split_and!; [exact R| |by repeat constructor].
  destruct R as (_ & _ & S1). pose proof (st_persist _ _ _ S1) as Hp. cbn [replay foldl] in Hp.
  pose proof (inv_role _ H) as Hrole. unfold RoleOk in Hrole. rewrite Hr in Hrole.
  apply (Sim_write s [] _ []); [done|done|done|]. rewrite <- Hp.
  apply l_append; [done| |done|cbn; tauto|cbn; lia]. by rewrite dlog_of.
Qed.

(** Counting replicas, then telling the peers. *)
Lemma replicate_does s :
  Inv s -> Mine s -> n_role s = leader -> n_next_rpc_id s + 7 <= u64_max ->
  exists s', does (advance_leader_commit ;; broadcast_append_entries) s tt s'.
Proof.
  intros H HM Hr Hrpc. destruct (advance_does s H HM Hr) as (b & s1 & D1 & Hr1 & Hrpc1 & _).
  destruct (does_Inv _ _ _ _ D1) as [I1 _]. destruct (broadcast_does s1 I1 Hr1 ltac:(lia)) as (s2 & D2 & _).
  exists s2. by eapply does_bind.
Qed.

Lemma become_leader_does s :
  Inv s -> Mine s -> n_role s = candidate -> quorum s <= Z.of_nat (size (n_votes_received s)) ->
  last_log_index s + 1 < u64_max -> n_next_rpc_id s + 7 <= u64_max ->
  exists s', does become_leader s tt s'.
Proof.
  intros H HM Hr Hq Hroom Hrpc. pose proof (LogInv_base _ _ (inv_log _ H)) as Hb.
  pose proof (inv_commit _ H) as Hci. rewrite <- base_index_of in Hb.
  set (h := saturating_add (n_now s) (cfg_heartbeat_interval (n_config s))).
  destruct (lead_Inv s h (n_current_term s) H Hr ltac:(lia)) as [I1 S1]. cbv zeta in I1, S1.
  match type of I1 with Inv ?x => set (s1 := x) in * end.
  pose proof (append_local_entry_runs no_op [] s1 I1 eq_refl Hroom) as R2. cbv zeta in R2.
  match type of R2 with runs _ _ _ _ ?x => set (s2 := x) in * end. set (e := mkLogEntry _ _ _ _) in *.
  assert (Mine s2) as HM2 by done.
  destruct (replicate_does s2 (proj1 (proj2 R2)) HM2 eq_refl Hrpc) as (s3 & D3). exists s3.
  set (first := modify (fun _ => s1) ;; append_local_entry no_op []).
  apply (does_same _ (first ;; advance_leader_commit ;; broadcast_append_entries)).
  { unfold first, become_leader. run. rewrite u64_small by (unfold is_u64, u64_max in *; lia). by rewrite Hr. }
  eapply does_bind; [|exact D3]. destruct R2 as (E2 & I2 & S2).
  pose proof (Step_trans _ _ _ _ _ S1 S2) as S12. cbn [app] in S12.
  eexists. split_and!; [split_and!; [|exact I2|exact S12]| |by repeat constructor].
  { unfold first, bind, modify. by rewrite E2. }
  pose proof (st_persist _ _ _ S12) as Hp. cbn [replay foldl persist] in Hp.
  apply (Sim_write s [RoleChanged candidate leader (n_current_term s) (Some (self_id s))] _ []);
    [by repeat constructor|done|exact Hp|]. rewrite <- Hp.
  pose proof (inv_role _ H) as Hrole. unfold RoleOk in Hrole. rewrite Hr in Hrole. destruct HM as [HMv HMi].
  change (mem_of s2) with (mkMem leader (m_commit (mem_of s)) ∅ (pp_match_index <$> n_peer_progress s1)).
  apply l_elect; try done.
  - unfold quorum in Hq. by rewrite HMv in Hq.
  - by rewrite dlog_of.
  - cbn. tauto.
  - cbn. change (last_log_index s1) with (last_log_index s). lia.
  - intros v k. rewrite lookup_fmap. unfold s1. node_simpl. rewrite fresh_progress_lookup by apply (inv_config _ H).
    destruct (decide _) as [[Hv Hne]|]; [|done]. cbn. intros [= <-]. rewrite <- HMv, <- HMi. done.
Qed.

Lemma start_election_does s :
  Inv s -> Mine s -> n_role s <> leader -> n_current_term s < u64_max ->
  last_log_index s + 1 < u64_max -> n_next_rpc_id s + 7 <= u64_max ->
  exists s', does start_election s tt s'.
Proof.
  intros H HM Hr Ht Hroom Hrpc. pose proof (inv_term _ H) as Hterm.
  set (msg := MRequestVote (mkRequestVote (n_current_term s + 1) (self_id s)
    (last_log_index s) (last_log_term s))).
  destruct (reset_election_deadline_eq (set_votes_received {[self_id s]}
    (set_voted_for (Some (self_id s)) (set_leader_id None (set_role candidate
      (set_current_term (n_current_term s + 1) s)))))) as (d & g & Ed).
  destruct (campaign_Inv s d g msg H Hr Ht) as [I1 S1]. cbv zeta in I1, S1.
  match type of S1 with Step _ ?x ?y => set (n1 := x) in *; set (s1 := y) in * end.
  assert (start_election s = (modify (fun _ => s1) ;; when (quorum s <=? 1) become_leader) s) as E1.
  { unfold start_election. unfold bind at 1, get. rewrite (proj2 (Z.eqb_neq _ _)) by lia.
    unfold bind at 1, modify. rewrite u64_small by (unfold is_u64, u64_max in *; lia).
    unfold bind at 1. rewrite Ed. unfold s1, n1.
    case_bool_decide; case_decide; try congruence; cbn [negb when];
      unfold bind, get, ret; repeat (rewrite push_action_eq; cbv beta iota);
      rewrite for_each_request; node_simpl; rewrite size_singleton, <- ?app_assoc; cbn [app];
      rewrite ?app_nil_l; done. }
  assert (does (modify (fun _ => s1)) s tt s1) as D1.
  { exists n1. split_and!; [by split_and!| |].
    - pose proof (st_persist _ _ _ S1) as Hp. unfold n1 in *. destruct HM as [_ HMi].
      apply Sim_write.
      + case_decide; by repeat constructor.
      + apply Forall_map, Forall_true. done.
      + done.
      + change (persistent_of s1) with (persist (PersistHardState (n_current_term s + 1) (Some (self_id s))) (persistent_of s)).
        change (mem_of s1) with (mkMem candidate (m_commit (mem_of s)) {[self_id s]} (pp_match_index <$> n_peer_progress s)).
        replace (n_peer_progress s) with (∅ : gmap NodeId PeerProgress).
        2:{ pose proof (inv_role _ H) as Hrole. unfold RoleOk in Hrole. by destruct (n_role s); [|destruct Hrole|]. }
        rewrite fmap_empty, HMi. by apply l_campaign.
    - unfold n1. apply Forall_app. split; [case_decide; by repeat constructor|].
      constructor; [done|]. apply Forall_map, Forall_true. done. }
  destruct (Z.leb_spec (quorum s) 1) as [Hq|Hq]; cbn [when] in E1.
  - destruct (become_leader_does s1 I1) as (s2 & D2); try done.
    { change (quorum s <= Z.of_nat (size ({[self_id s]} : gset NodeId))). rewrite size_singleton. lia. }
    exists s2. eapply does_same; [exact E1|]. by eapply does_bind.
  - exists s1. eapply does_same; [exact E1|]. eapply does_bind; [exact D1|by apply does_ret].
Qed.

(** *** Followers *)

Lemma become_follower_does term l s :
  Inv s -> term <= u64_max -> (forall v, l = Some v -> v ∈ cfg_voters (n_config s)) ->
  n_role s <> follower \/ n_current_term s < term -> exists s', does (become_follower term l) s tt s'.
Proof.
  intros H Ht Hl Hrole. destruct (become_follower_runs term l s H Ht Hl) as (new & s' & R & Hs & _).
  exists s', new. destruct (become_follower_eq term l s) as (d & g & E). cbv zeta in E.
  pose proof R as (E' & _ & S1). rewrite E in E'. injection E' as E'.
  pose proof (st_actions _ _ _ S1) as Ha. rewrite <- E' in Ha. node_simpl_in Ha. apply app_inv_head in Ha.
  pose proof (st_persist _ _ _ S1) as Hp.
  assert (mem_of s' = mkMem follower (m_commit (mem_of s)) ∅ ∅) as Hmem.
  { rewrite <- E'. unfold mem_of. node_simpl. by rewrite fmap_empty. }
  split_and!; [done| |].
  - destruct (Z.ltb_spec (n_current_term s) term) as [Hlt|Hge]; subst new.
    + apply (Sim_write s _ _ []); [case_decide; by repeat constructor|done| |].
      * rewrite <- E'. done.
      * rewrite Hmem. replace (persistent_of s') with (persist (PersistHardState term None) (persistent_of s)) by by rewrite <- E'.
        by apply l_enter.
    + apply Sim_memory; [case_decide; by repeat constructor|by rewrite <- E'|]. rewrite Hmem. apply l_follow.
  - subst new. case_decide; case_match; by repeat constructor.
Qed.

Lemma follow_leader_does from s :
  Inv s -> from ∈ cfg_voters (n_config s) ->
  exists s', does (follow_leader from) s tt s' /\ n_role s' = follower /\
    n_current_term s' = n_current_term s /\ n_log s' = n_log s /\
    n_commit_index s' = n_commit_index s /\ n_last_applied s' = n_last_applied s.
Proof.
  intros H Hin. destruct (follow_leader_runs from s H Hin) as
    (new & s' & R & _ & Hr & _ & Ht & _ & Hl & Hc & Ha & _).
  exists s'. split; [|done]. unfold follow_leader. apply does_get.
  destruct (decide (n_role s = follower)) as [Hf|Hf].
  - destruct R as (E & I & S1). unfold follow_leader in E. unfold bind at 1, get in E.
    rewrite bool_decide_eq_true_2 in E |- * by done. cbn [negb] in E |- *.
    eapply (does_quiet _ _ _ new); [|by split_and!|].
    + apply within_bind; [apply _|by apply modify_Emits|]. intros _. apply reset_election_deadline_Emits.
    + unfold bind, modify in E. destruct (reset_election_deadline_eq (set_leader_id (Some from) s)) as (d & g & E').
      rewrite E' in E. injection E as <-. done.
  - destruct (become_follower_does (n_current_term s) (Some from) s H) as (s2 & D2);
      [apply (inv_term _ H)|by intros v [= <-]|by left|].
    rewrite bool_decide_eq_false_2 by done. cbn [negb].
    assert (s2 = s') as ->; [|done]. destruct D2 as (n2 & (E2 & _) & _), R as (E & _).
    unfold follow_leader in E. unfold bind at 1, get in E. rewrite bool_decide_eq_false_2 in E by done.
    cbn [negb] in E. rewrite E2 in E. by injection E.
Qed.

(** *** Votes *)

Lemma handle_request_vote_does from r s :
  Inv s -> Mine s -> net from i (MRequestVote r) -> from ∈ cfg_voters (n_config s) -> from <> self_id s ->
  exists s', does (handle_request_vote from r) s tt s'.
Proof.
  intros H HM Hnet Hin Hne.
  destruct (handle_request_vote_runs from r s H Hin Hne) as (pre & s' & R & _ & Hv & Ht & Hl & Hr & Hvs).
  assert (does (when (grants_vote s from r && negb (bool_decide (n_voted_for s = Some from)))
    (modify (set_voted_for (Some from)) ;; push_action (PersistHardState (n_current_term s) (Some from)))) s tt
    (if grants_vote s from r && negb (bool_decide (n_voted_for s = Some from))
     then set_actions (n_actions s ++ [PersistHardState (n_current_term s) (Some from)]) (set_voted_for (Some from) s)
     else s)) as D1.
  { destruct (grants_vote s from r) eqn:Eg; cbn [andb]; [|by apply does_ret].
    destruct (grants_vote_facts s from r H Hne Eg) as (Hcan & Hpos & Hf).
    destruct (record_vote_runs from s H Hin Hcan Hpos Hf) as (p1 & s1 & R1 & _).
    case_bool_decide as Ev; cbn [negb when] in R1 |- *; [by apply does_ret|].
    assert (s1 = set_actions (n_actions s ++ [PersistHardState (n_current_term s) (Some from)]) (set_voted_for (Some from) s)) as Es.
    { destruct R1 as (E1 & _). unfold bind, modify in E1. rewrite push_action_eq in E1. by injection E1. }
    assert (p1 = [PersistHardState (n_current_term s) (Some from)]) as Ep.
    { pose proof (st_actions _ _ _ (proj2 (proj2 R1))) as Ha. rewrite Es in Ha. node_simpl_in Ha. by apply app_inv_head in Ha. }
    subst s1 p1. eexists. split_and!; [exact R1| |by repeat constructor].
    apply (Sim_write s [] _ []); [done|done|done|].
    destruct Hcan as [Hno|?]; [|done]. unfold grants_vote in Eg.
    rewrite !andb_true_iff, !orb_true_iff, andb_true_iff, !Z.eqb_eq, Z.ltb_lt, Z.leb_le in Eg.
    change (lstep voters net i (persistent_of s) (mem_of s)
      (persist (PersistHardState (ps_current_term (persistent_of s)) (Some from)) (persistent_of s)) (mem_of s)).
    apply (l_vote _ _ _ _ _ from r); try done; [tauto|]. rewrite dlog_of by done. rewrite tip_of.
    unfold uptodate. cbn. destruct Eg as (_ & [?|[? ?]]); [by left|right; lia]. }
  destruct (does_Inv _ _ _ _ D1) as [I1 _]. match type of D1 with does _ _ _ ?x => set (s1 := x) in * end.
  set (k := when (grants_vote s from r) reset_election_deadline ;;
    push_action (SendMessage from (MRequestVoteResponse (mkRequestVoteResponse (n_current_term s) (grants_vote s from r))))).
  assert (exists s2, does k s1 tt s2) as (s2 & D2); [|exists s2; apply does_get; by eapply does_bind].
  assert (exists s2, does (when (grants_vote s from r) reset_election_deadline) s1 tt s2) as (s2 & D2).
  { destruct (grants_vote s from r); cbn [when]; [|exists s1; by apply does_ret].
    destruct (reset_election_deadline_runs s1 I1) as (d & g & R2). eexists.
    eapply (does_quiet _ _ _ []); [apply reset_election_deadline_Emits|exact R2|done]. }
  destruct (does_Inv _ _ _ _ D2) as [I2 _]. eexists. eapply does_bind; [exact D2|].
  by apply push_does.
Qed.

Lemma handle_request_vote_response_does from r s :
  Inv s -> Mine s -> net from i (MRequestVoteResponse r) -> from ∈ cfg_voters (n_config s) ->
  last_log_index s + 1 < u64_max -> n_next_rpc_id s + 7 <= u64_max ->
  exists s', does (handle_request_vote_response from r) s tt s'.
Proof.
  intros H HM Hnet Hin Hroom Hrpc. unfold handle_request_vote_response.
  destruct (negb (bool_decide (n_role s = candidate)) || negb (rvr_term r =? n_current_term s)
    || negb (rvr_vote_granted r)) eqn:Eg.
  { exists s. apply does_get. rewrite Eg. by apply does_ret. }
  assert (n_role s = candidate /\ rvr_term r = n_current_term s /\ rvr_vote_granted r = true) as (Hr & Ht & Hg).
  { rewrite !orb_false_iff, !negb_false_iff, bool_decide_eq_true, Z.eqb_eq in Eg. tauto. }
  set (s1 := set_votes_received ({[from]} ∪ n_votes_received s) s).
  assert (does (modify (fun s => set_votes_received ({[from]} ∪ n_votes_received s) s)) s tt s1) as D1.
  { exists []. split_and!; [|apply Sim_memory; [done|done|]|done].
    - split_and!; [done| |apply Step_inert; try done; [by rewrite app_nil_r|congruence]].
      destruct H. constructor; try done. intros v. unfold s1; node_simpl. set_solver.
    - destruct HM as [HMv _]. replace (mem_of s1) with
        (mkMem candidate (m_commit (mem_of s)) ({[from]} ∪ m_votes (mem_of s)) (m_match (mem_of s)))
        by (unfold mem_of; cbn; by rewrite Hr).
      by apply (l_count _ _ _ _ (mem_of s) from r); [|rewrite <- HMv|..]. }
  destruct (does_Inv _ _ _ _ D1) as [I1 _].
  assert (exists s', does (when (quorum s1 <=? Z.of_nat (size (n_votes_received s1))) become_leader) s1 tt s') as (s2 & D2).
  { destruct (Z.leb_spec (quorum s1) (Z.of_nat (size (n_votes_received s1)))) as [Hq|Hq]; cbn [when].
    - by apply become_leader_does.
    - exists s1. by apply does_ret. }
  exists s2. apply does_get. rewrite Eg. eapply does_bind; [exact D1|]. by apply does_get.
Qed.

(** *** Responses to a leader *)

Lemma put_progress_does from p p' s :
  Inv s -> n_role s = leader -> n_peer_progress s !! from = Some p ->
  ProgressOk (last_log_index s) (n_next_rpc_id s) (n_durable_snapshot s) p' ->
  pp_match_index p' = pp_match_index p \/
    lstep voters net i (persistent_of s) (mem_of s) (persistent_of s)
      (mkMem leader (m_commit (mem_of s)) (m_votes (mem_of s)) (<[from := pp_match_index p']> (m_match (mem_of s)))) ->
  does (put_progress from p') s tt (set_peer_progress (<[from := p']> (n_peer_progress s)) s).
Proof.
  intros H Hr Hp Hok Hstep. pose proof (put_progress_runs from p' s H Hr (mk_is_Some _ _ Hp) Hok) as R.
  set (s1 := set_peer_progress _ s) in *.
  assert (mem_of s1 = mkMem leader (m_commit (mem_of s)) (m_votes (mem_of s))
    (<[from := pp_match_index p']> (m_match (mem_of s)))) as Hm.
  { unfold mem_of, s1. node_simpl. by rewrite Hr, fmap_insert. }
  exists []. split_and!; [done| |done]. destruct Hstep as [Hsame|Hstep]; [|apply Sim_memory; [done|done|by rewrite Hm]].
  apply Sim_quiet; [done|done|]. rewrite Hm, Hsame. rewrite insert_id; [unfold mem_of; cbn; by rewrite Hr|].
  cbn. by rewrite lookup_fmap, Hp.
Qed.

Lemma retry_does from p p' s :
  Inv s -> n_role s = leader -> n_peer_progress s !! from = Some p -> n_next_rpc_id s < u64_max ->
  ProgressOk (last_log_index s) (n_next_rpc_id s) (n_durable_snapshot s) p' ->
  pp_match_index p' = pp_match_index p \/
    lstep voters net i (persistent_of s) (mem_of s) (persistent_of s)
      (mkMem leader (m_commit (mem_of s)) (m_votes (mem_of s)) (<[from := pp_match_index p']> (m_match (mem_of s)))) ->
  exists s', does (put_progress from p' ;; send_append_entries from) s tt s'.
Proof.
  intros H Hr Hp Hrpc Hok Hstep. pose proof (put_progress_does from p p' s H Hr Hp Hok Hstep) as D1.
  destruct (does_Inv _ _ _ _ D1) as [I1 _].
  destruct (send_does from _ I1 Hr) as (s2 & D2); [|done|exists s2; by eapply does_bind].
  node_simpl. rewrite lookup_insert_eq. eauto.
Qed.

(** A confirmed request: [m] is the index known to match. *)
Lemma confirmed_does from s p recent m :
  Inv s -> Mine s -> n_role s = leader -> n_peer_progress s !! from = Some p ->
  n_next_rpc_id s + 7 <= u64_max -> size_of recent <= size_of (pp_recent_rpcs p) ->
  Forall (fun r => 0 < rr_rpc_id r <= pp_newest_rpc_id p /\ rr_last_index r <= last_log_index s) recent ->
  0 <= m <= last_log_index s ->
  m = pp_match_index p \/
    lstep voters net i (persistent_of s) (mem_of s) (persistent_of s)
      (mkMem leader (m_commit (mem_of s)) (m_votes (mem_of s)) (<[from := m]> (m_match (mem_of s)))) ->
  exists s', does
    (put_progress from (set_next_index (u64 (m + 1)) (set_match_index m (set_recent_rpcs recent p))) ;;
     let* advanced := advance_leader_commit in
     let* s := get in
     if advanced then broadcast_append_entries
     else when (u64 (m + 1) <=? last_log_index s) (send_append_entries from)) s tt s'.
Proof.
  intros H HM Hr Hp Hrpc Hlen Hall Hm Hstep. pose proof (inv_role _ H) as Hrole. unfold RoleOk in Hrole.
  rewrite Hr in Hrole. destruct Hrole as (_ & _ & _ & Hlast & _ & Hprog).
  rewrite u64_small by (unfold is_u64, u64_max in *; lia).
  pose proof (ProgressOk_settle _ _ _ _ recent m (m + 1) (Hprog _ _ Hp) Hlen Hall ltac:(lia) ltac:(lia)) as Hp'.
  pose proof (put_progress_does from p _ s H Hr Hp Hp' Hstep) as D1.
  match type of D1 with does _ _ _ ?x => set (s1 := x) in * end. destruct (does_Inv _ _ _ _ D1) as [I1 _].
  destruct (advance_does s1 I1 HM Hr) as (b & s2 & D2 & Hr2 & Hrpc2 & Hp2). destruct (does_Inv _ _ _ _ D2) as [I2 _].
  change (n_next_rpc_id s1) with (n_next_rpc_id s) in Hrpc2. pose proof (inv_rpc _ H).
  assert (exists s3, does (if b then broadcast_append_entries
    else when (m + 1 <=? last_log_index s2) (send_append_entries from)) s2 tt s3) as (s3 & D3).
  { destruct b; [destruct (broadcast_does s2 I2 Hr2 ltac:(lia)) as (s3 & D3 & _); eauto|].
    destruct (_ <=? _); cbn [when]; [|exists s2; by apply does_ret]. apply send_does; [done|done| |lia].
    rewrite Hp2. unfold s1. node_simpl. rewrite lookup_insert_eq. eauto. }
  exists s3. eapply does_bind; [exact D1|]. eapply does_bind; [exact D2|]. by apply does_get.
Qed.

Lemma handle_append_entries_response_does from r s :
  Inv s -> Mine s -> net from i (MAppendEntriesResponse r) -> message_typed (MAppendEntriesResponse r) ->
  n_next_rpc_id s + 7 <= u64_max -> exists s', does (handle_append_entries_response from r) s tt s'.
Proof.
  intros H HM Hnet (_ & Hmi & Hrh) Hrpc. unfold handle_append_entries_response.
  assert (exists s', does (ret tt) s tt s') as Hidle by (exists s; by apply does_ret).
  match goal with |- exists s', does (bind get ?f) s tt s' =>
    assert (exists s', does (f s) s tt s') as (s' & D); [cbv beta zeta|exists s'; by apply does_get] end.
  destruct (negb (bool_decide (n_role s = leader)) || _) eqn:Eg; [done|].
  apply orb_false_iff in Eg as [Er Et]. apply negb_false_iff, bool_decide_eq_true in Er.
  apply negb_false_iff, Z.eqb_eq in Et.
  destruct (n_peer_progress s !! from) as [p|] eqn:Ep; [|done].
  destruct (List.find _ (pp_recent_rpcs p)) as [rpc|] eqn:Ef; [|done].
  pose proof (inv_role _ H) as Hrole. unfold RoleOk in Hrole. rewrite Er in Hrole.
  destruct Hrole as (_ & _ & _ & Hlast & _ & Hall). pose proof (Hall _ _ Ep) as Hpo.
  destruct (find_recent _ _ _ _ _ _ Hpo Ef) as (Hrl & _ & Hel & Hef).
  pose proof (po_match _ _ _ _ Hpo) as Hm. pose proof (po_next _ _ _ _ Hpo) as Hn.
  destruct (aer_success r) eqn:Es.
  - apply confirmed_does; try done; [unfold is_u64 in *; lia|].
    destruct (Z.max_spec (pp_match_index p) (Z.min (aer_match_index r) (rr_last_index rpc))) as [[Hlt Emax]|[_ ->]];
      [right|by left]. rewrite Emax.
    apply (l_match _ _ _ _ _ from r); try done; [unfold is_u64 in *; lia|]. cbn. by rewrite lookup_fmap, Ep.
  - destruct (negb (aer_rpc_id r =? pp_newest_rpc_id p)); [done|].
    apply (retry_does from p); try done; [lia| |by left].
    rewrite u64_small by (unfold is_u64, u64_max in *; lia).
    apply (ProgressOk_settle _ _ _ _ _ _ _ Hpo Hel Hef Hm). unfold is_u64 in *.
    destruct (Z.ltb_spec 1 (pp_next_index p)), (_ || _) eqn:Eh; try lia;
      apply orb_false_iff in Eh as [_ Eh%Z.leb_gt]; lia.
Qed.

Lemma handle_install_snapshot_response_does from r s :
  Inv s -> net from i (MInstallSnapshotResponse r) -> message_typed (MInstallSnapshotResponse r) ->
  n_next_rpc_id s + 7 <= u64_max -> exists s', does (handle_install_snapshot_response from r) s tt s'.
Proof.
  intros H Hnet (_ & Hoff) Hrpc. unfold handle_install_snapshot_response.
  assert (exists s', does (ret tt) s tt s') as Hidle by (exists s; by apply does_ret).
  match goal with |- exists s', does (bind get ?f) s tt s' =>
    assert (exists s', does (f s) s tt s') as (s' & D); [cbv beta zeta|exists s'; by apply does_get] end.
  destruct (negb (bool_decide (n_role s = leader)) || _) eqn:Eg; [done|].
  apply orb_false_iff in Eg as [Er Et]. apply negb_false_iff, bool_decide_eq_true in Er.
  apply negb_false_iff, Z.eqb_eq in Et.
  destruct (n_peer_progress s !! from) as [p|] eqn:Ep; [|done].
  destruct (n_durable_snapshot s) as [d|] eqn:Ed; [|done].
  destruct (_ || _) eqn:Es; [done|].
  apply orb_false_iff in Es as [Ei Es]. apply negb_false_iff, Z.eqb_eq in Es, Ei.
  destruct (List.find _ (pp_recent_snapshot_rpcs p)) as [rpc|] eqn:Ef; [|done].
  pose proof (inv_role _ H) as Hrole. unfold RoleOk in Hrole. rewrite Er, Ed in Hrole.
  destruct Hrole as (_ & _ & _ & Hlast & _ & Hall). pose proof (Hall _ _ Ep) as Hpo.
  pose proof Hpo as [Hm Hn Hnl Hnew _ _ Ho _ Hsl Hsr].
  apply find_some in Ef as [Ein _]. apply list_elem_of_In in Ein.
  pose proof Hsr as Hsr'. rewrite Forall_forall in Hsr'.
  destruct (Hsr' _ Ein) as (_ & _ & Hse & ? & [= <-] & Hend).
  assert (forall offset, 0 <= offset <= size_of (sm_state_machine d) ->
    exists s', does (put_progress from (mkPeerProgress (pp_next_index p) (pp_match_index p)
      (pp_newest_rpc_id p) (pp_newest_rpc_last_index p) (pp_recent_rpcs p) (pp_snapshot_index p) offset
      (erase_first (fun sent => (sr_rpc_id sent =? insr_rpc_id r) &&
         (sr_snapshot_index sent =? insr_last_included_index r)) (pp_recent_snapshot_rpcs p))) ;;
      send_append_entries from) s tt s') as Hresume.
  { intros offset Hoffs. apply (retry_does from p); try done; [lia| |by left]. rewrite Ed.
    apply ProgressOk_offset; try done; [apply erase_first_len|by apply erase_first_Forall]. }
  destruct (negb (insr_success r)) eqn:Esucc.
  { destruct (negb (insr_rpc_id r =? pp_newest_rpc_id p) || (sr_end rpc <? insr_next_offset r)) eqn:Eo; [done|].
    apply orb_false_iff in Eo as [_ Eo%Z.ltb_ge]. apply Hresume. unfold is_u64 in *. lia. }
  apply negb_false_iff in Esucc.
  destruct (negb (insr_next_offset r =? sr_end rpc)) eqn:Eend; [done|]. apply negb_false_iff, Z.eqb_eq in Eend.
  destruct (Z.leb_spec (sr_end rpc) (pp_snapshot_offset p)); [done|].
  destruct (negb _); [done|].
  destruct (Z.ltb_spec (sr_end rpc) (size_of (sm_state_machine d))); [apply Hresume; lia|].
  pose proof (inv_snapshot _ H) as Hsn. rewrite Ed in Hsn. pose proof (inv_commit _ H).
  pose proof (LogInv_base _ _ (inv_log _ H)) as Hb0. rewrite <- base_index_of in Hb0.
  apply (retry_does from p); try done; [lia| |].
  - rewrite Ed. rewrite u64_small by (unfold is_u64, u64_max in *; lia).
    constructor; progress_simpl; try done; try lia; constructor.
  - cbn [pp_match_index]. destruct (Z.max_spec (pp_match_index p) (sm_last_included_index d)) as [[Hlt ->]|[_ ->]];
      [right|by left].
    apply (l_match_snapshot _ _ _ _ _ from r d); try done; [lia|]. cbn. by rewrite lookup_fmap, Ep.
Qed.

(** ** Operations other than [step] *)

(** The result of an operation: the steps it took, and the messages that acknowledge
    nothing. *)
Lemma does_finish (body : M Impl unit) s s1 s' acts :
  does body (set_actions [] s) tt s1 -> (body ;; finish) (set_actions [] s) = (s', Ok acts) ->
  Sim s acts s' /\ Forall noack acts.
Proof.
  intros (new & (E1 & I1 & S1) & HS & Hn) E. unfold bind in E. rewrite E1, finish_eq in E by done.
  injection E as <- <-. pose proof (st_actions _ _ _ S1) as Ha. cbn in Ha. rewrite Ha. split; [|done].
  destruct HS as [H1 H2 H3]. by constructor.
Qed.

Lemma submit_sim kind cmd s s' acts :
  Inv s -> Mine s -> Room s -> submit_entry kind cmd s = (s', Ok acts) -> Sim s acts s' /\ Forall noack acts.
Proof.
  intros H HM [Hlog Hrpc] E. set (s0 := set_actions [] s). pose proof (Inv_actions [] s H) as I0. fold s0 in I0.
  set (body := if negb (bool_decide (n_role s = leader)) then push_action (ProposalRejected (n_leader_id s))
     else append_local_entry kind cmd ;; advance_leader_commit ;; broadcast_append_entries).
  change (submit_entry kind cmd s) with ((body ;; finish) s0) in E.
  assert (exists s1, does body s0 tt s1) as (s1 & D); [|by eapply does_finish].
  unfold body. case_bool_decide as Hr; cbn [negb]; [|eexists; by apply push_does].
  destruct (append_does kind cmd s0 I0 Hr Hlog) as (s1 & D1 & Hr1 & Hrpc1). destruct (does_Inv _ _ _ _ D1) as [I1 Hc1].
  destruct (replicate_does s1 I1) as (s2 & D2); [by apply (Mine_config s0)|done|by rewrite Hrpc1|].
  exists s2. by eapply does_bind.
Qed.

Lemma advance_time_sim t s s' acts :
  Inv s -> Mine s -> Room s -> RaftNode_advance_time t s = (s', Ok acts) -> Sim s acts s' /\ Forall noack acts.
Proof.
  intros H HM [Hlog Hrpc] E. unfold RaftNode_advance_time in E. unfold bind at 1, get in E.
  destruct (t <? n_now s); [done|]. unfold bind at 1, modify in E. set (st := set_now t s) in *.
  assert (Inv st) as It by by destruct H. pose proof (Inv_actions [] st It) as I0.
  change (set_actions [] (set_now t s)) with (set_actions [] st) in E.
  enough (Sim st acts s' /\ Forall noack acts) as [[H1 H2 H3] Hn] by (split; [by constructor|done]).
  match type of E with bind ?b _ _ = _ => set (body := b) in E end.
  assert (exists s1, does body (set_actions [] st) tt s1) as (s1 & D); [|by eapply does_finish].
  unfold body. destruct (negb (bool_decide (n_role s = leader)) && (n_election_deadline s <=? t)) eqn:Ee.
  - apply andb_true_iff in Ee as [Er _]. apply negb_true_iff, bool_decide_eq_false in Er.
    destruct (decide (n_current_term s = u64_max)) as [Hmax|Hmax].
    { exfalso. unfold body, start_election, bind, get, throw in E.
      change (n_current_term (set_actions [] st)) with (n_current_term s) in E. by rewrite Hmax in E. }
    pose proof (inv_term _ H). apply start_election_does; try done. cbn. lia.
  - destruct (bool_decide (n_role s = leader) && (n_heartbeat_deadline s <=? t)) eqn:Eh; cbn [when];
      [|eexists; by apply does_ret].
    apply andb_true_iff in Eh as [Er%bool_decide_eq_true _].
    destruct (broadcast_does (set_actions [] st) I0 Er Hrpc) as (s1 & D1 & _). destruct (does_Inv _ _ _ _ D1) as [I1 _].
    exists (set_heartbeat_deadline (saturating_add t (cfg_heartbeat_interval (n_config s1))) s1).
    eapply does_bind; [exact D1|]. apply (does_quiet _ _ _ []); [by apply modify_Emits| |done].
    split_and!; [done|by destruct I1|]. apply Step_inert; node_simpl; try done; [by rewrite app_nil_r|congruence].
Qed.

Lemma compact_sim d s s' acts :
  Inv s -> RaftNode_compact d s = (s', Ok acts) -> Sim s acts s' /\ Forall noack acts.
Proof.
  intros H E. destruct (decide (compactable s d)) as [Hc|Hc]; [|by rewrite compact_refused in E].
  destruct (compact_performs d s H Hc) as (E1 & _ & S1 & _). rewrite E in E1. injection E1 as -> ->.
  split; [|by repeat constructor]. pose proof (st_persist _ _ _ S1) as Hp. cbn [replay foldl] in Hp.
  destruct Hc as (Hi & Hmax & Ht). pose proof (inv_applied _ H) as Ha.
  apply (Sim_write s [] _ []); [done|done|exact Hp|].
  replace (mem_of (set_actions [] (compacted s d))) with (mem_of s).
  2:{ unfold mem_of, compacted. node_simpl. rewrite <- map_fmap_compose. done. }
  change (persistent_of (set_actions [] (compacted s d))) with (persistent_of (compacted s d)).
  replace (persistent_of (compacted s d)) with (persist (PersistSnapshot d) (persistent_of s)) by exact Hp.
  apply l_compact; rewrite ?dlog_of by done; [|done|done]. rewrite <- base_index_of. cbn. lia.
Qed.

(** ** Requests of a leader *)

(** An acknowledgement among the actions is true of [s]. *)
Definition ack_true (s : Impl) (a : Action) : Prop :=
  match a with
  | SendMessage to ((MAppendEntriesResponse _ | MInstallSnapshotResponse _) as msg) =>
      Tells net i (persistent_of s) (mem_of s) to msg
  | _ => True
  end.

Definition acks (m : M Impl unit) (s s' : Impl) : Prop :=
  exists new, runs m s tt new s' /\ Sim s new s' /\ Forall (ack_true s') new.

Lemma noack_true s l : Forall noack l -> Forall (ack_true s) l.
Proof. intros H. eapply Forall_impl; [exact H|]. intros a. unfold noack, ack_true. by repeat case_match. Qed.

Lemma does_acks m s s' : does m s tt s' -> acks m s s'.
Proof. intros (new & R & HS & Hn). exists new. split_and!; [done|done|by apply noack_true]. Qed.

Lemma acks_bind {A} (m : M Impl A) (k : A -> M Impl unit) s a s1 s2 :
  does m s a s1 -> acks (k a) s1 s2 -> acks (bind m k) s s2.
Proof.
  intros (n1 & R1 & S1 & A1) (n2 & R2 & S2 & A2). exists (n1 ++ n2).
  split_and!; [by eapply runs_bind|by eapply Sim_trans|]. apply Forall_app. split; [by apply noack_true|done].
Qed.

Lemma does_read {A} (m : M Impl A) s a : Inv s -> m s = (s, Ok a) -> does m s a s.
Proof.
  intros H E. exists []. split_and!; [|by apply Sim_quiet|constructor]. split_and!; [done|done|by apply Step_refl].
Qed.

Lemma ack_does s to msg :
  Inv s -> Tells net i (persistent_of s) (mem_of s) to msg ->
  acks (push_action (SendMessage to msg)) s (set_actions (n_actions s ++ [SendMessage to msg]) s).
Proof.
  intros H Ht. exists [SendMessage to msg]. split_and!.
  - split_and!; [done|by apply Inv_actions|]. apply Step_inert; node_simpl; try done; [by repeat constructor|congruence].
  - apply Sim_quiet; [by repeat constructor|done|done].
  - constructor; [|constructor]. by destruct msg.
Qed.

Lemma refuse_acks s from r match_index hint :
  Inv s -> exists s', acks (send_append_response from r false match_index hint) s s'.
Proof. intros H. eexists. unfold send_append_response. apply (ack_does s); [done|]. by intros [=]. Qed.

Lemma entry_at_inv j s s1 e : entry_at j s = (s1, Ok e) -> s1 = s /\ log_at (n_log s) j = Some e.
Proof.
  unfold entry_at, bind, get, log_at. rewrite <- base_index_of.
  destruct (j <? base_index s) eqn:E1, (last_log_index s <? j) eqn:E2; cbn [orb]; try done.
  destruct (n_log s !! _) as [x|] eqn:Ex; [|done]. intros [= <- <-]. done.
Qed.

(** The entries taken over begin where the log ends or differs. *)
Lemma scan_differs T es s s1 suffix e t :
  LogInv T (n_log s) -> scan_entries es s = (s1, Ok (ScanReplace suffix)) -> head suffix = Some e ->
  term_at (n_log s) (le_index e) = Some t -> t <> le_term e.
Proof.
  intros Hl. induction es as [|x es IH]; cbn [scan_entries].
  { intros [= <- <-]. done. }
  unfold bind at 1, get. destruct (Z.ltb_spec (last_log_index s) (le_index x)) as [Hlt|Hge].
  { intros [= <- <-] [= <-] Ht. pose proof (proj1 (term_at_range _ _ Hl _) (mk_is_Some _ _ Ht)) as Hr.
    rewrite <- last_log_index_of in Hr. lia. }
  intros (s2 & a & Ea & E)%bind_inv. apply entry_at_inv in Ea as [-> Ha].
  destruct (Z.eqb_spec (le_term a) (le_term x)) as [Et|Et]; cbn [negb] in E.
  - destruct (negb _); [by injection E|by apply IH].
  - destruct (_ <=? _); [done|]. injection E as <- <-. intros [= <-]. unfold term_at. rewrite Ha. by intros [= <-].
Qed.

Lemma replace_suffix_does s from r pre suffix :
  Inv s -> net from i (MAppendEntries r) -> n_role s = follower -> ae_term r = n_current_term s ->
  base_index s <= ae_previous_log_index r -> ae_entries r = pre ++ suffix ->
  chained (n_current_term s) (ae_previous_log_index r + 1) (ae_previous_log_term r) (pre ++ suffix) ->
  term_at (n_log s) (ae_previous_log_index r) = Some (ae_previous_log_term r) ->
  (forall k e, pre !! k = Some e -> log_at (n_log s) (ae_previous_log_index r + 1 + Z.of_nat k) = Some e) ->
  (suffix <> [] -> n_commit_index s < ae_previous_log_index r + 1 + size_of pre <= last_log_index s + 1) ->
  (forall e t, head suffix = Some e -> term_at (n_log s) (le_index e) = Some t -> t <> le_term e) ->
  exists s', does (replace_suffix suffix) s tt s' /\ Spliced s s' (ae_previous_log_index r + 1) (pre ++ suffix) /\
    n_role s' = follower /\ n_current_term s' = n_current_term s.
Proof.
  intros H Hnet Hr Ht Hb He Hch Hterm Hpre Hs Hdiff. set (prev := ae_previous_log_index r) in *.
  destruct (replace_suffix_runs pre suffix (prev + 1) (ae_previous_log_term r) s) as
    (n1 & s1 & R1 & _ & Hsp & Ht1 & Hr1 & _); try done; [lia|by rewrite Z.add_simpl_r|].
  exists s1. split; [|done]. destruct suffix as [|e0 rest].
  { destruct R1 as (E1 & _). injection E1 as <-. by apply does_ret. }
  assert (le_index e0 = prev + 1 + size_of pre) as Hidx.
  { destruct Hch as (Hi & _). apply (Hi (length pre)). by rewrite lookup_app_r, Nat.sub_diag. }
  pose proof R1 as (E1 & I1 & S1). assert (n1 = [PersistLog (le_index e0) (e0 :: rest)]) as Hn.
  { pose proof (st_actions _ _ _ S1) as Ha. unfold replace_suffix, bind, modify in E1. rewrite push_action_eq in E1.
    injection E1 as <-. node_simpl_in Ha. by apply app_inv_head in Ha. }
  exists n1. split_and!; [done| |rewrite Hn; by repeat constructor]. rewrite Hn in *.
  pose proof (st_persist _ _ _ S1) as Hp. cbn [replay foldl] in Hp.
  apply (Sim_write s [] _ []); [done|done|exact Hp|]. rewrite <- Hp, Hidx.
  assert (mem_of s1 = mem_of s) as ->.
  { unfold replace_suffix, bind, modify in E1. rewrite push_action_eq in E1. by injection E1 as <-. }
  specialize (Hs ltac:(done)). apply (l_accept _ _ _ _ _ from r); try done; [|cbn; fold prev; lia].
  rewrite dlog_of by done. constructor; fold prev; try done.
  - rewrite <- last_log_index_of. lia.
  - intros e t [= <-] Htt. apply (Hdiff e0 t eq_refl). by rewrite Hidx.
Qed.

Lemma follower_commit_does s from r :
  Inv s -> net from i (MAppendEntries r) -> n_role s = follower -> ae_term r = n_current_term s ->
  Holds (n_log s) r -> exists s',
    does (advance_follower_commit
      (Z.min (ae_leader_commit r) (ae_previous_log_index r + size_of (ae_entries r)))) s tt s' /\
    n_log s' = n_log s /\ n_current_term s' = n_current_term s /\ n_role s' = follower.
Proof.
  intros H Hnet Hr Ht Hh. set (c := Z.min _ _).
  destruct (advance_follower_commit_runs c s H) as (new & _ & R). cbv zeta in R.
  match type of R with runs _ _ _ _ ?x => set (s1 := x) in *; exists s1 end. split; [|done].
  pose proof (bland_new _ _ _ _ _ (advance_follower_commit_Emits c) R) as Hbl.
  exists new. split_and!; [done| |by apply bland_noack]. apply bland_neutral in Hbl.
  destruct (Z.max_spec (n_commit_index s) (Z.min c (last_log_index s))) as [[Hlt Emax]|[_ Emax]].
  - apply Sim_memory; [done|done|]. unfold c in *.
    replace (mem_of s1) with (mkMem follower (Z.min (Z.min (ae_leader_commit r)
      (ae_previous_log_index r + size_of (ae_entries r))) (last_log_index s)) (m_votes (mem_of s)) (m_match (mem_of s)))
      by (unfold mem_of, s1; node_simpl; by rewrite Hr, Emax).
    apply (l_commit_follower _ _ _ _ _ from r); try done; [by rewrite dlog_of|lia|lia].
  - apply Sim_quiet; [done|done|]. unfold mem_of, s1. node_simpl. by rewrite Emax.
Qed.
Lemma acks_get (f : Impl -> M Impl unit) s : (exists s', acks (f s) s s') -> exists s', acks (bind get f) s s'.
Proof. done. Qed.

Lemma acks_after {A} (m : M Impl A) (k : A -> M Impl unit) s a s1 :
  does m s a s1 -> (exists s', acks (k a) s1 s') -> exists s', acks (bind m k) s s'.
Proof. intros D (s' & Ha). exists s'. by eapply acks_bind. Qed.

(** Taking the entries over, committing and answering. *)
Lemma accept_entries_acks s from r pre suffix :
  Inv s -> net from i (MAppendEntries r) -> n_role s = follower -> ae_term r = n_current_term s ->
  base_index s <= ae_previous_log_index r -> ae_entries r = pre ++ suffix ->
  chained (n_current_term s) (ae_previous_log_index r + 1) (ae_previous_log_term r) (pre ++ suffix) ->
  term_at (n_log s) (ae_previous_log_index r) = Some (ae_previous_log_term r) ->
  (forall k e, pre !! k = Some e -> log_at (n_log s) (ae_previous_log_index r + 1 + Z.of_nat k) = Some e) ->
  (suffix <> [] -> n_commit_index s < ae_previous_log_index r + 1 + size_of pre <= last_log_index s + 1) ->
  (forall e t, head suffix = Some e -> term_at (n_log s) (le_index e) = Some t -> t <> le_term e) ->
  exists s', acks
    (replace_suffix suffix ;;
     let matched_index := u64 (ae_previous_log_index r + size_of (ae_entries r)) in
     advance_follower_commit (Z.min (ae_leader_commit r) matched_index) ;;
     send_append_response from r true matched_index 0) s s'.
Proof.
  intros H Hnet Hr Ht Hb He Hch Hterm Hpre Hs Hdiff. set (prev := ae_previous_log_index r) in *.
  destruct (replace_suffix_does s from r pre suffix) as (s1 & D1 & Hsp & Hr1 & Ht1); try done.
  destruct (does_Inv _ _ _ _ D1) as [I1 _]. rewrite <- He in *. set (matched := prev + size_of (ae_entries r)).
  assert (u64 matched = matched) as Hm.
  { pose proof (LogInv_base _ _ (inv_log _ H)) as Hb0. rewrite <- base_index_of in Hb0.
    pose proof (size_of_nonneg (ae_entries r)). apply u64_small.
    destruct Hch as (_ & _ & _ & Hmax). unfold is_u64, u64_max, size_of in *. lia. }
  assert (Holds (n_log s1) r) as Hh.
  { split; [|apply (sp_entries _ _ _ _ Hsp)]. unfold term_at. fold prev. rewrite (sp_below _ _ _ _ Hsp) by lia. done. }
  eapply acks_after; [exact D1|]. cbv zeta. rewrite Hm.
  destruct (follower_commit_does s1 from r) as (s2 & D2 & Hl2 & Ht2 & Hr2); try done; [congruence|].
  destruct (does_Inv _ _ _ _ D2) as [I2 _]. eapply acks_after; [exact D2|]. apply acks_get. eexists.
  apply ack_does; [done|]. intros _. split; [done|]. exists r. rewrite dlog_of, Hl2 by done.
  split_and!; [done| |done|done]. cbn. congruence.
Qed.

Lemma handle_append_entries_acks from r s :
  Inv s -> net from i (MAppendEntries r) -> from ∈ cfg_voters (n_config s) -> message_typed (MAppendEntries r) ->
  ae_term r <= n_current_term s -> exists s', acks (handle_append_entries from r) s s'.
Proof.
  intros H Hnet Hin (_ & Hu & Hpos) Ht. unfold handle_append_entries. apply acks_get.
  destruct (_ || _) eqn:Eg; [by apply refuse_acks|].
  rewrite !orb_false_iff, Z.ltb_ge in Eg. assert (ae_term r = n_current_term s) as Hterm by lia.
  destruct (follow_leader_does from s H Hin) as (s1 & D1 & Hr1 & Ht1 & Hl1 & Hc1 & _).
  eapply acks_after; [exact D1|]. apply acks_get. destruct (does_Inv _ _ _ _ D1) as [I1 _].
  set (prev := ae_previous_log_index r) in *. cbv zeta.
  destruct (Z.ltb_spec prev (base_index s1)) as [|Hb]; [by apply refuse_acks|].
  destruct (Z.ltb_spec (last_log_index s1) prev) as [|Hlast]; [by apply refuse_acks|].
  pose proof (inv_log _ I1) as Hl. destruct (entry_at_ok _ s1 prev Hl ltac:(lia)) as (e & Ee & He & Hei).
  apply (acks_after _ _ _ e s1); [by apply does_read|].
  assert (log_at (n_log s1) prev = Some e) as Hpt by by apply entry_at_inv in Ee as [_ ?].
  destruct (Z.eqb_spec (le_term e) (ae_previous_log_term r)) as [Et|Et]; cbn [negb].
  2:{ destruct (first_conflict_ok _ (length (n_log s1)) (le_term e) prev s1 Hl ltac:(lia)) as (j & Ej).
      apply (acks_after _ _ _ j s1); [by apply does_read|]. by apply refuse_acks. }
  destruct (malformed_entry _ _ _ _) as [j|] eqn:Em; [by apply refuse_acks|].
  pose proof (LogInv_base _ _ Hl) as Hb0. rewrite <- base_index_of in Hb0.
  apply malformed_entry_None in Em; [|unfold is_u64, u64_max in *; lia|done].
  pose proof (inv_commit _ I1) as Hci.
  destruct (scan_entries_ok _ s1 (ae_entries r) (prev + 1) Hl ltac:(lia) ltac:(lia) (proj1 Em))
    as (o & Eo & Ho). apply (acks_after _ _ _ o s1); [by apply does_read|].
  destruct o as [hint|suffix]; [by apply refuse_acks|]. destruct Ho as (pre & Hpre & Hat & Hsuf).
  apply (accept_entries_acks s1 from r pre suffix); try done; [congruence| | |].
  - rewrite <- Hpre, Ht1, <- Hterm. done.
  - unfold term_at. fold prev. by rewrite Hpt, <- Et.
  - intros x t. by apply (scan_differs _ _ _ _ _ _ _ Hl Eo).
Qed.
(** *** Snapshots *)

Lemma snapshot_acks s from r ok next :
  Inv s -> (ok = true -> net from i (MInstallSnapshot r) /\ ins_term r = n_current_term s /\
    (next < ins_total_size r \/ ins_last_included_index r <= n_commit_index s)) ->
  exists s', acks (send_snapshot_response from r ok next) s s'.
Proof.
  intros H Hok. apply acks_get. eexists. apply ack_does; [done|]. intros E. destruct (Hok E) as (Hn & Ht & Ho).
  split; [done|]. by exists r.
Qed.

Lemma incoming_does x s : Inv s -> does (modify (set_incoming_snapshot x)) s tt (set_incoming_snapshot x s).
Proof. intros H. apply (does_quiet _ _ _ []); [by apply modify_Emits|by apply incoming_runs|done]. Qed.

Lemma install_complete_does d from r s :
  Inv s -> net from i (MInstallSnapshot r) -> n_role s = follower -> ins_term r = n_current_term s ->
  sm_last_included_index d = ins_last_included_index r -> sm_last_included_term d = ins_last_included_term r ->
  n_last_applied s < sm_last_included_index d < u64_max -> 1 <= sm_last_included_term d <= n_current_term s ->
  does (install_complete_snapshot d) s tt (installed d s).
Proof.
  intros H Hnet Hr Ht Hi Hti Hrange Htr. pose proof (install_complete_snapshot_runs d s H Hr Hrange Htr) as R.
  exists [PersistSnapshot d; ApplySnapshot d]. split_and!; [done| |by repeat constructor].
  destruct R as (_ & _ & S1). pose proof (st_persist _ _ _ S1) as Hp. cbn [replay foldl persist] in Hp.
  pose proof (inv_applied _ H).
  apply (Sim_write s [] _ [ApplySnapshot d]); [done|by repeat constructor|exact Hp|]. rewrite <- Hp.
  replace (mem_of (installed d s)) with
    (mkMem follower (sm_last_included_index d) (m_votes (mem_of s)) (m_match (mem_of s)))
    by (unfold mem_of, installed; node_simpl; by rewrite Hr).
  apply (l_install _ _ _ _ _ from r); try done. cbn. lia.
Qed.

Lemma handle_install_snapshot_acks from r s :
  Inv s -> net from i (MInstallSnapshot r) -> from ∈ cfg_voters (n_config s) ->
  message_typed (MInstallSnapshot r) -> ins_term r <= n_current_term s ->
  exists s', acks (handle_install_snapshot from r) s s'.
Proof.
  intros H Hnet Hin (_ & Hidx & Htm) Ht. apply acks_get.
  destruct (malformed_snapshot_request s from r) eqn:Em; [by apply snapshot_acks|].
  unfold malformed_snapshot_request in Em. rewrite !orb_false_iff, !Z.eqb_neq, !Z.ltb_ge, !negb_false_iff in Em.
  destruct Em as (((((((((((_ & Hge) & _) & _) & _) & Hmax) & Hz) & Hb) & _) & Hoff) & Hlen) & Hdone).
  apply eqb_prop in Hdone. assert (ins_term r = n_current_term s) as Hterm by lia.
  destruct (follow_leader_does from s H Hin) as (s1 & D1 & Hr1 & Ht1 & _ & _ & _).
  destruct (does_Inv _ _ _ _ D1) as [I1 _]. eapply acks_after; [exact D1|]. apply acks_get.
  destruct (Z.leb_spec (ins_last_included_index r) (n_last_applied s1)) as [Hle|Hfresh].
  { apply snapshot_acks; [done|]. intros _. pose proof (inv_applied _ I1). split_and!; [done|congruence|right; lia]. }
  set (begin := mkIncomingSnapshot from _ _ _ []).
  assert (exists x, does (when (ins_offset r =? 0) (modify (set_incoming_snapshot (Some begin))))
    s1 tt (set_incoming_snapshot x s1)) as (x & D2).
  { destruct (ins_offset r =? 0); cbn [when]; [eexists; by apply incoming_does|].
    exists (n_incoming_snapshot s1). by apply does_ret. }
  eapply acks_after; [exact D2|]. apply acks_get. destruct (does_Inv _ _ _ _ D2) as [I2 _].
  change (n_incoming_snapshot (set_incoming_snapshot x s1)) with x.
  destruct x as [incoming|]; [|by apply snapshot_acks].
  destruct (_ || _) eqn:Eg; [by apply snapshot_acks|]. cbv zeta.
  rewrite !orb_false_iff, !negb_false_iff, !Z.eqb_eq in Eg. destruct Eg as [_ Hsize].
  eapply acks_after; [by apply incoming_does|].
  match goal with |- context [acks _ ?x _] => set (s3 := x) end.
  assert (Inv s3) as I3 by by apply incoming_runs.
  assert (n_role s3 = follower /\ n_current_term s3 = n_current_term s /\ n_last_applied s3 = n_last_applied s1)
    as (Hr3 & Ht3 & Ha3) by done.
  destruct (ins_done r); cbn [negb].
  - match goal with |- context [install_complete_snapshot ?x] => set (d := x) end.
    assert (does (install_complete_snapshot d) s3 tt (installed d s3)) as D4.
    { apply (install_complete_does d from r); try done; [congruence|..]; cbn; unfold is_u64, u64_max in *; lia. }
    eapply acks_after; [exact D4|]. destruct (does_Inv _ _ _ _ D4) as [I4 _].
    apply snapshot_acks; [done|]. intros _. split_and!; [done| |by right]. change (ins_term r = n_current_term s3). congruence.
  - apply snapshot_acks; [done|]. intros _. split_and!; [done|congruence|left].
    symmetry in Hdone. apply Z.eqb_neq in Hdone. unfold size_of in *. rewrite length_app. lia.
Qed.
(** ** Every operation *)

Lemma handle_acks from m s :
  Inv s -> Mine s -> Room s -> net from i m -> from ∈ cfg_voters (n_config s) -> from <> self_id s ->
  message_typed m -> message_term m <= n_current_term s -> exists s', acks (handle from m) s s'.
Proof.
  intros H HM [Hlog Hrpc] Hnet Hin Hne Hm Ht.
  assert (forall f, (exists s', does f s tt s') -> exists s', acks f s s') as Hd.
  { intros f (s' & D). exists s'. by apply does_acks. }
  destruct m as [r|r|r|r|r|r]; cbn [handle].
  - by apply Hd, handle_request_vote_does.
  - by apply Hd, handle_request_vote_response_does.
  - by apply handle_append_entries_acks.
  - by apply Hd, handle_append_entries_response_does.
  - by apply handle_install_snapshot_acks.
  - by apply Hd, handle_install_snapshot_response_does.
Qed.

Lemma Impl_step_acks from m s :
  Inv s -> Mine s -> Room s -> net from i m -> message_typed m -> exists s', acks (Impl_step from m) s s'.
Proof.
  intros H HM Hroom Hnet Hm. apply acks_get.
  destruct (bool_decide (from = self_id s) || negb (is_voter s from)) eqn:Eg.
  { exists s. by apply does_acks, does_ret. }
  apply orb_false_iff in Eg as [Hne%bool_decide_eq_false Hin%negb_false_iff%bool_decide_eq_true].
  pose proof (message_term_range m Hm) as Hmax.
  destruct (enter_term from m s H Hin Hmax) as (n1 & s1 & (E1 & _) & _ & Ht & Hl & Hc & _ & Hrpc & _).
  assert (does (when (n_current_term s <? message_term m)
    (become_follower (message_term m) (incoming_leader from m))) s tt s1) as D.
  { destruct (Z.ltb_spec (n_current_term s) (message_term m)) as [Hlt|Hge]; cbn [when] in *.
    - destruct (become_follower_does (message_term m) (incoming_leader from m) s H Hmax) as (s2 & D);
        [intros v; by apply incoming_leader_voter|by right|].
      assert (s2 = s1) as <-; [|done]. destruct D as (n2 & (E2 & _) & _). congruence.
    - injection E1 as <-. by apply does_ret. }
  eapply acks_after; [exact D|]. destruct (does_Inv _ _ _ _ D) as [I1 _].
  apply handle_acks; try done; [by apply (Mine_config s)| |by rewrite Hc|unfold self_id; by rewrite Hc|lia].
  destruct Hroom as [G1 G2]. constructor; [by rewrite last_log_index_of, Hl|by rewrite Hrpc].
Qed.

(** Every operation is a sequence of steps. *)
Lemma perform_sim op s s' acts :
  Inv s -> Mine s -> Room s -> op_typed op ->
  match op with OpStep from m => net from i m | _ => True end ->
  perform op s = (s', Ok acts) -> Sim s acts s' /\ Forall (ack_true s') acts.
Proof.
  intros H HM Hroom Hop Hnet E.
  assert (Sim s acts s' /\ Forall noack acts -> Sim s acts s' /\ Forall (ack_true s') acts) as Hn.
  { intros [HS Hn]. split; [done|by apply noack_true]. }
  destruct op as [t|from m|cmd| |d]; cbn [perform] in E.
  - by eapply Hn, advance_time_sim.
  - destruct (Impl_step_acks from m (set_actions [] s)) as (s1 & new & (E1 & I1 & S1) & HS & Ha);
      [by apply Inv_actions|done|by destruct Hroom|done|done|].
    unfold RaftNode_step, bind, modify in E. rewrite E1, finish_eq in E by done. injection E as <- <-.
    pose proof (st_actions _ _ _ S1) as Hnew. cbn in Hnew. rewrite Hnew. split; [|done].
    destruct HS as [H1 H2 H3]. by constructor.
  - by eapply Hn, submit_sim.
  - by eapply Hn, submit_sim.
  - by eapply Hn, compact_sim.
Qed.

(** *** What the messages say *)

Lemma log_at_window s prev k j e :
  Inv s -> base_index s <= prev ->
  take k (drop (Z.to_nat (prev - base_index s + 1)) (n_log s)) !! j = Some e ->
  log_at (n_log s) (prev + 1 + Z.of_nat j) = Some e.
Proof.
  intros H Hb Hj. apply lookup_take_Some in Hj as [Hj _]. rewrite lookup_drop in Hj.
  unfold log_at. rewrite <- base_index_of, (proj2 (Z.ltb_ge _ _)) by lia. rewrite <- Hj. f_equal. lia.
Qed.

Lemma Speaks_Tells s to msg :
  Inv s -> Speaks s to msg -> ack_true s (SendMessage to msg) ->
  Tells net i (persistent_of s) (mem_of s) to msg.
Proof.
  intros H HS Ha. destruct msg as [r|r|r|r|r|r]; try done.
  - destruct HS as (Ht & _ & Hr & _ & Hi & Hl). split_and!; [done|done|]. by rewrite dlog_of, tip_of, Hi, Hl.
  - destruct HS as [Hr HL]. inversion HL as [prev e k rpc Hrange He|]; subst. split_and!; [done|done| |done].
    rewrite dlog_of by done. split; cbn.
    + unfold term_at, log_at. rewrite <- base_index_of, (proj2 (Z.ltb_ge _ _)) by lia. by rewrite He.
    + intros j x Hj. apply (log_at_window _ _ k); [done|lia|done].
  - destruct HS as [Hr HL]. inversion HL as [|d off n rpc Hd]; subst. split_and!; [done|done|]. by exists d.
Qed.

Lemma perform_tells op s s' acts :
  Inv s -> Room s -> op_typed op -> perform op s = (s', Ok acts) -> Forall (ack_true s') acts ->
  Msgs (Tells net i (persistent_of s') (mem_of s')) acts.
Proof.
  intros H Hroom Hop E Ha.
  destruct (perform_cases op s H Hroom Hop) as [(acts' & s1 & E1 & I1 & _ & HM)|(e & s1 & E1 & _)]; [|congruence].
  rewrite E in E1. injection E1 as <- <-. unfold Msgs in *. rewrite Forall_forall in *.
  intros a Hin. specialize (HM a Hin). specialize (Ha a Hin). destruct a; try done. by apply Speaks_Tells.
Qed.

(** A refused operation is no step at all. *)
Lemma refused_view op s s' e :
  Inv s -> Room s -> op_typed op -> perform op s = (s', Throw e) -> view s' = view s.
Proof.
  intros H Hroom Hop E.
  destruct (perform_cases op s H Hroom Hop) as [(acts & s1 & E1 & _)|(e1 & s1 & E1 & _ & HU & _)]; [congruence|].
  rewrite E in E1. injection E1 as <- <-. destruct HU as (Hp & Hr & Hv & Hc & Hpp).
  unfold view, mem_of. by rewrite Hp, Hr, Hv, Hc, Hpp.
Qed.
End Refinement.
