(* ===== verification/ConsensusSafety.v ===== *)
(** * Consensus

    The cluster of [ElectionSafety], every node of it running [RaftNode], follows
    the protocol of [AbstractRaft]: its disks, the memories of its nodes and its
    messages are those of a world the protocol reaches.  What the protocol keeps is
    then true of the nodes: logs that meet are equal below, a leader holds what was
    committed before its term, and no two nodes apply different entries at one
    index. *)

From S2P Require Import Prelude RaftTypes RaftNode RaftInvariant RaftStep RaftHandlers RaftSafety ElectionSafety RaftEmits LogTree AbstractRaft ReplicatedLog AbstractSafety AbstractLogs RaftRefinement.

Section Consensus.
Context {RNG : UniformRandom}.

Variable config : NodeId -> RaftConfig.
Variable voters : list NodeId.
Hypothesis config_self : forall i, i ∈ voters -> cfg_self_id (config i) = i.
Hypothesis config_voters : forall i, i ∈ voters -> cfg_voters (config i) = voters.
Hypothesis config_is_typed : forall i, i ∈ voters -> config_typed (config i).

Abbreviation cstep := (cstep config voters).
Abbreviation Execution := (Execution config voters).

(** ** Steps of one node in the world *)

(** The world after node [i] alone has moved. *)
Record Moved (i : NodeId) (w : World) (d : RaftPersistentState) (mo : option Mem) (w' : World) : Prop := {
  mv_steps : rtc (wstep voters) w w';
  mv_disk : forall j, w_disk w' j = upd i d (w_disk w) j;
  mv_mem : forall j, w_mem w' j = upd i mo (w_mem w) j;
}.

Lemma lsteps_world i w m d' m' :
  w_mem w i = Some m -> lsteps voters (w_net w) i (w_disk w i, m) (d', m') ->
  exists w', Moved i w d' (Some m') w' /\ w_net w' = w_net w.
Proof.
  intros Hm Hs. remember (w_disk w i, m) as p eqn:Ep. remember (d', m') as q eqn:Eq.
  remember (w_net w) as net eqn:En. revert w m Ep En Hm.
  induction Hs as [p|p [d1 m1] q Hstep _ IH]; intros w m Ep En Hm.
  - simplify_eq. exists w. split; [|done].
    constructor; [constructor|intros j|intros j]; unfold upd; by destruct (decide (j = i)) as [->|].
  - subst p. set (w1 := mkWorld (upd i d1 (w_disk w)) (upd i (Some m1) (w_mem w)) (w_net w)).
    destruct (IH Eq w1 m1) as (w' & [H1 H2 H3] & Hn); [by cbn; rewrite upd_eq|done|by cbn; rewrite upd_eq|].
    exists w'. split; [|done]. constructor.
    + eapply rtc_l; [|exact H1]. apply (w_local voters w i m); [done|]. by rewrite <- En.
    + intros j. rewrite H2. cbn. unfold upd. by destruct (decide (j = i)).
    + intros j. rewrite H3. cbn. unfold upd. by destruct (decide (j = i)).
Qed.

Lemma Tells_mono (net net' : NodeId -> NodeId -> Message -> Prop) i d m to msg :
  (forall a b c, net a b c -> net' a b c) -> Tells net i d m to msg -> Tells net' i d m to msg.
Proof.
  intros Hn. destruct msg; try done; unfold Tells; intros Ht Hs; destruct (Ht Hs) as (? & q & ? & ?); eauto.
Qed.

Lemma sends_world i m acts w :
  w_mem w i = Some m -> Msgs (Tells (w_net w) i (w_disk w i) m) acts ->
  exists w', rtc (wstep voters) w w' /\ w_disk w' = w_disk w /\ w_mem w' = w_mem w /\
    (forall a b c, w_net w a b c -> w_net w' a b c) /\
    forall a b c, (a, b, c) ∈ sends_of i acts -> w_net w' a b c.
Proof.
  revert w. induction acts as [|x acts IH]; intros w Hm HT.
  { exists w. split_and!; [constructor|done..|]. intros a b c H. by apply elem_of_nil in H. }
  apply Forall_cons in HT as [Hx HT].
  destruct x as [to msg| | | | | | | |]; [|by destruct (IH w Hm HT) as (w' & ? & ? & ? & ? & ?); exists w'..].
  set (w1 := mkWorld (w_disk w) (w_mem w) (fun a b c => w_net w a b c \/ a = i /\ b = to /\ c = msg)).
  destruct (IH w1 Hm) as (w' & H1 & H2 & H3 & H4 & H5).
  { eapply Msgs_impl; [|exact HT]. intros to' m'. apply Tells_mono. by left. }
  exists w'. split_and!; [|done|done| |].
  - eapply rtc_l; [|exact H1]. by apply (w_send voters w i m).
  - intros a b c H. apply H4. by left.
  - intros a b c H. apply elem_of_cons in H as [[= -> -> ->]|H]; [apply H4; by right|by apply H5].
Qed.

(** ** Steps of the cluster *)

(** [w] is what the protocol sees of the cluster [cl]. *)
Record Matches (cl : Cluster) (w : World) : Prop := {
  mt_disk : forall i, w_disk w i = cl_disks cl i;
  mt_mem : forall i, w_mem w i = mem_of <$> cl_nodes cl !! i;
  mt_net : forall a b c, (a, b, c) ∈ cl_net cl -> w_net w a b c;
}.

Lemma create_mem c p t s :
  RaftNode_create c p t = Ok s -> mem_of s = mkMem follower (base_of (dlog p)) ∅ ∅.
Proof.
  unfold RaftNode_create. destruct (validate_raft_config c) as [[]|]; [|done].
  destruct (validate_persistent_state c p) as [[]|]; [|done]. cbv zeta.
  match goal with |- context [(reset_election_deadline ;; verify_invariants) ?x] => set (s0 := x) end.
  destruct (reset_election_deadline_eq s0) as (d & g & E). unfold bind. rewrite E.
  unfold verify_invariants, bind, get. destruct (invariants_hold _); intros [= <-].
  unfold mem_of, s0. cbn. by rewrite fmap_empty.
Qed.

Section Step.
Variables (cl : Cluster) (h : list Cluster) (w : World).
Hypothesis HI : ClusterInv config voters cl h.
Hypothesis HM : Matches cl w.

Variables (i : NodeId) (s : Impl).
Hypothesis Hs : cl_nodes cl !! i = Some s.

Lemma node_view : w_mem w i = Some (mem_of s) /\ (w_disk w i, mem_of s) = view s.
Proof.
  destruct (ci_nodes _ _ _ _ HI i s Hs) as (_ & _ & _ & Hp). rewrite (mt_mem _ _ HM), Hs. split; [done|].
  unfold view. by rewrite (mt_disk _ _ HM), Hp.
Qed.

Lemma node_sim op s' acts :
  arrives i op (cl_net cl) -> Room s -> op_typed op -> perform op s = (s', Ok acts) ->
  Sim voters (w_net w) i s acts s' /\ Msgs (Tells (w_net w) i (persistent_of s') (mem_of s')) acts.
Proof.
  intros Harr Hroom Hop E. destruct (ci_nodes _ _ _ _ HI i s Hs) as (I & Hi & Hc & Hp).
  destruct (perform_sim voters (w_net w) i op s s' acts) as [HS Ha]; try done.
  - split; [by rewrite Hc, config_voters|]. unfold self_id. by rewrite Hc, config_self.
  - destruct op; try done. by apply (mt_net _ _ HM).
  - split; [done|]. by eapply perform_tells.
Qed.

Lemma operation_world op s' acts :
  arrives i op (cl_net cl) -> Room s -> op_typed op -> perform op s = (s', Ok acts) ->
  exists w', Moved i w (replay acts (cl_disks cl i)) (Some (mem_of s')) w' /\
    (forall a b c, w_net w a b c -> w_net w' a b c) /\
    forall a b c, (a, b, c) ∈ sends_of i acts -> w_net w' a b c.
Proof.
  intros Harr Hroom Hop E. destruct (node_sim op s' acts Harr Hroom Hop E) as [[HS _ Hrep] HT].
  destruct (ci_nodes _ _ _ _ HI i s Hs) as (_ & _ & _ & Hp). rewrite Hp in Hrep.
  destruct node_view as [Hm Hv]. rewrite <- Hv in HS.
  destruct (lsteps_world i w _ _ _ Hm HS) as (w1 & [H1 H2 H3] & Hn).
  destruct (sends_world i (mem_of s') acts w1) as (w2 & K1 & K2 & K3 & K4 & K5).
  { by rewrite H3, upd_eq. }
  { rewrite H2, upd_eq, Hn. done. }
  exists w2. rewrite Hn in K4. split; [|done]. rewrite Hrep. constructor.
  - by etransitivity.
  - by rewrite K2.
  - by rewrite K3.
Qed.

Lemma persisting_world op s' acts k :
  arrives i op (cl_net cl) -> Room s -> op_typed op -> perform op s = (s', Ok acts) ->
  exists m w', Moved i w (replay (take k acts) (cl_disks cl i)) (Some m) w' /\ w_net w' = w_net w.
Proof.
  intros Harr Hroom Hop E. destruct (node_sim op s' acts Harr Hroom Hop E) as [[_ HD _] _].
  destruct (ci_nodes _ _ _ _ HI i s Hs) as (_ & _ & _ & Hp). rewrite Hp in HD.
  destruct node_view as [Hm Hv]. rewrite <- Hv in HD. destruct (HD k) as [m Hk]. exists m.
  by apply (lsteps_world i w (mem_of s)).
Qed.
End Step.

(** A node that has moved, or moved and crashed, in the cluster. *)
Lemma Matches_moved cl w i d mo w' nodes net :
  Matches cl w -> Moved i w d mo w' ->
  (forall j, nodes !! j = if decide (j = i) then nodes !! i else cl_nodes cl !! j) ->
  mem_of <$> nodes !! i = mo -> (forall a b c, (a, b, c) ∈ net -> w_net w' a b c) ->
  Matches (mkCluster nodes (set_disk i d (cl_disks cl)) net) w'.
Proof.
  intros [M1 M2 M3] [V1 V2 V3] Hn Hmo Hnet. constructor; cbn.
  - intros j. rewrite V2. unfold upd, set_disk. by destruct (decide (j = i)).
  - intros j. rewrite V3, (Hn j). unfold upd. destruct (decide (j = i)); [done|apply M2].
  - done.
Qed.

Lemma Moved_crash i w d mo w' :
  Moved i w d mo w' -> Moved i w d None (mkWorld (w_disk w') (upd i None (w_mem w')) (w_net w')).
Proof.
  intros [H1 H2 H3]. constructor; cbn; [|done|].
  - eapply rtc_r; [exact H1|]. apply w_crash.
  - intros j. unfold upd at 1. rewrite H3. unfold upd. by destruct (decide (j = i)).
Qed.

Lemma deleted_at (nodes : gmap NodeId Impl) i j :
  delete i nodes !! j = if decide (j = i) then delete i nodes !! i else nodes !! j.
Proof. destruct (decide (j = i)) as [->|]; [done|by apply lookup_delete_ne]. Qed.

Lemma inserted_at (nodes : gmap NodeId Impl) i s j :
  <[i := s]> nodes !! j = if decide (j = i) then <[i := s]> nodes !! i else nodes !! j.
Proof. destruct (decide (j = i)) as [->|]; [done|by apply lookup_insert_ne]. Qed.

Lemma cstep_world cl h w cl' :
  ClusterInv config voters cl h -> Matches cl w -> cstep cl cl' ->
  exists w', rtc (wstep voters) w w' /\ Matches cl' w'.
Proof.
  intros HI HM HS.
  destruct HS as [i t s Hi Hno Hty E|i s op acts s' Hs Harr Hroom Hop E|i s op e s' Hs Hroom Hop E|i
    |i s op acts s' k Hs Harr Hroom Hop E|i s op acts s' k Hs Harr Hroom Hop E].
  - eexists. split; [apply rtc_once, (w_start voters w i); [done|by rewrite (mt_mem _ _ HM), Hno]|].
    destruct HM as [M1 M2 M3]. constructor; cbn; [done| |done].
    intros j. rewrite inserted_at, lookup_insert_eq. unfold upd. destruct (decide (j = i)) as [->|]; [|apply M2].
    cbn. by rewrite (create_mem _ _ _ _ E), M1.
  - destruct (operation_world cl h w HI HM i s Hs op s' acts) as (w' & HV & Hn & Hsent); try done.
    exists w'. split; [apply HV|].
    apply (Matches_moved cl w i _ (Some (mem_of s')) w'); try done; [apply inserted_at|by rewrite lookup_insert_eq|].
    intros a b c H. apply elem_of_app in H as [H|H]; [by apply Hn, (mt_net _ _ HM)|by apply Hsent].
  - exists w. split; [constructor|]. destruct (ci_nodes _ _ _ _ HI i s Hs) as (I & _).
    pose proof (f_equal snd (refused_view op s s' e I Hroom Hop E)) as Hm. cbn [snd view] in Hm.
    destruct HM as [M1 M2 M3]. constructor; cbn; [done| |done]. intros j. rewrite M2, inserted_at, lookup_insert_eq.
    destruct (decide (j = i)) as [->|]; [|done]. rewrite Hs. cbn. by rewrite <- Hm.
  - eexists. split; [apply rtc_once, (w_crash voters w i)|].
    destruct HM as [M1 M2 M3]. constructor; cbn; [done| |done]. intros j.
    rewrite deleted_at, lookup_delete_eq. unfold upd. by destruct (decide (j = i)).
  - destruct (persisting_world cl h w HI HM i s Hs op s' acts k) as (m & w' & HV%Moved_crash & Hn); try done.
    eexists. split; [apply HV|].
    apply (Matches_moved cl w i _ None _ _ _ HM HV); [apply deleted_at|by rewrite lookup_delete_eq|].
    intros a b c H. cbn. rewrite Hn. by apply (mt_net _ _ HM).
  - destruct (operation_world cl h w HI HM i s Hs op s' acts) as (w' & HV%Moved_crash & Hn & Hsent); try done.
    eexists. split; [apply HV|].
    apply (Matches_moved cl w i _ None _ _ _ HM HV); [apply deleted_at|by rewrite lookup_delete_eq|].
    intros a b c H. cbn. apply elem_of_app in H as [H|H]; [by apply Hn, (mt_net _ _ HM)|]. apply Hsent.
    rewrite <- (take_drop k acts). unfold sends_of. rewrite omap_app. apply elem_of_app. by left.
Qed.

(** ** Executions *)

(** The execution began with nothing stored on any disk. *)
Definition Fresh (h : list Cluster) : Prop :=
  forall cl i, last h = Some cl -> cl_disks cl i = empty_persistent_state.

(** What the past [P] keeps of a state of the cluster. *)
Record Recorded (P : NodeId -> RaftPersistentState -> Prop) (cl : Cluster) : Prop := {
  rec_disk : forall i, P i (cl_disks cl i);
  rec_node : forall i s, cl_nodes cl !! i = Some s -> Inv s /\ persistent_of s = cl_disks cl i;
  rec_commit : forall i s, cl_nodes cl !! i = Some s ->
    CommitOk voters P (persistent_of s) (n_commit_index s);
  rec_leader : forall i s, cl_nodes cl !! i = Some s -> n_role s = leader ->
    (tip (n_log s)).2 = n_current_term s;
}.

Lemma Recorded_grow P P' cl : (forall v d, P v d -> P' v d) -> Recorded P cl -> Recorded P' cl.
Proof.
  intros Hsub [H1 H2 H3 H4]. constructor; [auto|done| |done].
  intros i s Hs. destruct (H3 i s Hs) as (t & Ht & Hc). exists t. split; [done|]. by apply (Com_grow voters P).
Qed.

Lemma Recorded_now P cl h w :
  ClusterInv config voters cl h -> Matches cl w -> Sound voters P w -> Recorded P cl.
Proof.
  intros HI HM [HT HN]. constructor.
  - intros i. rewrite <- (mt_disk _ _ HM). apply HN.
  - intros i s Hs. destruct (ci_nodes _ _ _ _ HI i s Hs) as (? & _ & _ & ?). done.
  - intros i s Hs. destruct (node_view cl h w HI HM i s Hs) as [Hm [= Hd]].
    destruct (now_mem _ _ _ HN i _ Hm) as (_ & Hc & _). by rewrite <- Hd.
  - intros i s Hs Hr. destruct (node_view cl h w HI HM i s Hs) as [Hm [= Hd]].
    destruct (now_mem _ _ _ HN i _ Hm) as (_ & _ & Hok). cbn [m_role mem_of] in Hok. rewrite Hr in Hok.
    pose proof (ld_tip _ _ _ _ _ Hok) as Ht. destruct (ci_nodes _ _ _ _ HI i s Hs) as (I & _).
    by rewrite Hd, dlog_of in Ht.
Qed.

(** Every execution is one of the protocol, and its past explains all it went
    through. *)
Lemma Execution_world h cl :
  Execution (cl :: h) -> Fresh (cl :: h) ->
  exists P w, rtc (wstep voters) genesis w /\ Matches cl w /\ Sound voters P w /\
    Forall (Recorded P) (cl :: h).
Proof.
  intros H. remember (cl :: h) as l eqn:El. revert cl h El.
  induction H as [disks|cl1 h1 cl2 Hex IH HS]; intros cl h El Hf; injection El as <- <-.
  - assert (Matches (mkCluster ∅ disks []) genesis) as HM.
    { constructor; cbn; [intros i; symmetry; by apply (Hf (mkCluster ∅ disks []) i)|intros i; by rewrite lookup_empty|].
      intros a b c H. by apply elem_of_nil in H. }
    assert (Sound voters (fun _ d => d = empty_persistent_state) genesis) as HSd
      by (split; [apply genesis_Tree|apply genesis_Now]).
    exists (fun _ d => d = empty_persistent_state), genesis. split_and!; [constructor|done|done|].
    constructor; [|constructor]. eapply (Recorded_now _ _ []); [|done|done].
    apply Execution_Inv; [done..|]. constructor.
  - destruct (IH cl1 h1 eq_refl) as (P & w & Hw & HM & HSd & HR); [exact Hf|].
    pose proof (Execution_Inv config voters config_self config_voters config_is_typed h1 cl1 Hex) as HI.
    destruct (cstep_world cl1 h1 w cl2 HI HM HS) as (w' & Hw' & HM').
    destruct (wsteps_Sound voters P w w' HSd Hw') as (P' & Hsub & HSd').
    exists P', w'. split_and!; [by etransitivity|done|done|]. constructor.
    + eapply (Recorded_now _ _ (cl1 :: h1)); [|done|done]. by apply ClusterInv_step.
    + eapply Forall_impl; [exact HR|]. intros c. by apply Recorded_grow.
Qed.

(** ** What the past says of two logs *)

Section Logs.
Variable P : NodeId -> RaftPersistentState -> Prop.
Hypothesis HT : Tree voters P.

Lemma past_match i j d1 d2 k t n :
  P i d1 -> P j d2 -> term_at (dlog d1) k = Some t -> term_at (dlog d2) k = Some t ->
  base_of (dlog d1) < n -> base_of (dlog d2) < n -> n <= k -> log_at (dlog d1) n = log_at (dlog d2) n.
Proof.
  intros H1 H2 T1 T2 B1 B2 Hn.
  assert (forall a b da db, P a da -> P b db -> term_at (dlog da) k = Some t -> term_at (dlog db) k = Some t ->
    base_of (dlog da) <= base_of (dlog db) -> base_of (dlog db) < n -> log_at (dlog db) n = log_at (dlog da) n) as Hm.
  { intros a b da db Ha Hb Ta Tb Hle Hlt.
    destruct (paths_match (Links P) (ps_current_term da) (dlog da) (ps_current_term db) (dlog db) k t) as [HA|HA];
      [apply HT|by apply (past_log voters P HT a)|by apply (past_log voters P HT b)
      |intros pt e; by apply (in_links P a)|intros pt e; by apply (in_links P b)|done|done| |lia].
    apply HA; [lia|done]. }
  destruct (Z.le_ge_cases (base_of (dlog d1)) (base_of (dlog d2))); [symmetry; by eapply Hm|by eapply Hm].
Qed.

(** Two logs agree up to an entry of the one that is below the end of the other. *)
Lemma past_agree i j d1 d2 c t n :
  P i d1 -> P j d2 -> term_at (dlog d1) c = Some t -> Anc (Links P) (c, t) (tip (dlog d2)) ->
  base_of (dlog d1) < n -> base_of (dlog d2) < n -> n <= c -> log_at (dlog d1) n = log_at (dlog d2) n.
Proof.
  intros H1 H2 T1 HA B1 B2 Hn. apply (past_match i j _ _ c t); try done.
  apply (past_back_tip voters P HT j); [done|done|lia].
Qed.

Lemma commits_agree cl1 cl2 i j s1 s2 n :
  Recorded P cl1 -> Recorded P cl2 -> cl_nodes cl1 !! i = Some s1 -> cl_nodes cl2 !! j = Some s2 ->
  base_index s1 < n <= n_commit_index s1 -> base_index s2 < n <= n_commit_index s2 ->
  log_at (n_log s1) n = log_at (n_log s2) n.
Proof.
  intros R1 R2 Hs1 Hs2 N1 N2.
  assert (forall ca cb a b sa sb, Recorded P ca -> Recorded P cb -> cl_nodes ca !! a = Some sa ->
    cl_nodes cb !! b = Some sb -> n_commit_index sa <= n_commit_index sb -> base_index sa < n <= n_commit_index sa ->
    base_index sb < n -> log_at (n_log sa) n = log_at (n_log sb) n) as Hle.
  { intros ca cb a b sa sb Ra Rb Ha Hb Hab Na Nb.
    destruct (rec_node _ _ Ra a sa Ha) as [Ia Da], (rec_node _ _ Rb b sb Hb) as [Ib Db].
    destruct (rec_commit _ _ Ra a sa Ha) as (ta & Hta & Ca), (rec_commit _ _ Rb b sb Hb) as (tb & Htb & Cb).
    rewrite <- (dlog_of sa), <- (dlog_of sb) by done.
    assert (P a (persistent_of sa) /\ P b (persistent_of sb)) as [Pa Pb].
    { rewrite Da, Db. split; [apply Ra|apply Rb]. }
    apply (past_agree a b _ _ (n_commit_index sa) ta); try done; [| | |lia].
    - etransitivity; [apply (Com_chain voters P HT _ _ _ _ Ca Cb); [|done]|].
      + by apply (past_rooted voters P HT b (persistent_of sb)).
      + by apply (past_path_tip voters P HT b).
    - rewrite dlog_of by done. rewrite <- base_index_of. lia.
    - rewrite dlog_of by done. by rewrite <- base_index_of. }
  destruct (Z.le_ge_cases (n_commit_index s1) (n_commit_index s2)).
  - by apply (Hle cl1 cl2 i j); [..|lia].
  - symmetry. by apply (Hle cl2 cl1 j i); [..|lia].
Qed.

(** What was committed up to a term is below the logs of the leaders of later terms. *)
Lemma committed_led cl1 cl2 i j s1 s2 :
  Recorded P cl1 -> Recorded P cl2 -> cl_nodes cl1 !! i = Some s1 -> cl_nodes cl2 !! j = Some s2 ->
  n_role s2 = leader -> n_current_term s1 < n_current_term s2 ->
  exists t, term_at (n_log s1) (n_commit_index s1) = Some t /\
    Anc (Links P) (n_commit_index s1, t) (tip (n_log s2)).
Proof.
  intros R1 R2 Hs1 Hs2 Hr Ht. pose proof (rec_leader _ _ R2 j s2 Hs2 Hr) as Htip.
  destruct (rec_node _ _ R1 i s1 Hs1) as [I1 D1], (rec_node _ _ R2 j s2 Hs2) as [I2 D2].
  destruct (rec_commit _ _ R1 i s1 Hs1) as (t & Hc & HC). rewrite dlog_of in Hc by done.
  exists t. split; [done|]. pose proof (inv_term _ I1) as Hterm.
  assert (Anc (Links P) root (tip (n_log s2))) as Hroot.
  { rewrite <- (dlog_of s2) by done. apply (t_wf _ _ HT j). rewrite D2. apply R2. }
  destruct HC as [->|(c & Hcom & Hb & HA)]; [done|]. etransitivity; [exact HA|]. cbn in Hb.
  destruct (rooted_linked P _ Hroot) as [E|(pt & e & HL & E)]; [rewrite E in Htip; cbn in Htip; lia|].
  rewrite <- E in *. apply (committed_below voters P HT c Hcom pt); [done|]. cbn in Htip. lia.
Qed.
End Logs.

(** ** The theorems *)

Lemma Execution_past h :
  Execution h -> Fresh h -> exists P, Tree voters P /\ forall cl, cl ∈ h -> Recorded P cl.
Proof.
  intros Hex Hf. destruct h as [|cl h]; [inversion Hex|].
  destruct (Execution_world h cl Hex Hf) as (P & w & _ & _ & [HT _] & HR). exists P. split; [done|].
  by apply Forall_forall.
Qed.

(** C5. Refinement: whatever the nodes of a cluster do, with crashes at any point
    of persisting or publishing, restarts, lost, duplicated and reordered messages,
    their disks, memories and messages are those of a world that the step-by-step
    protocol reaches from nothing. *)
Theorem cluster_refines_protocol h cl :
  Execution (cl :: h) -> Fresh (cl :: h) -> exists w, rtc (wstep voters) genesis w /\ Matches cl w.
Proof. intros Hex Hf. destruct (Execution_world h cl Hex Hf) as (P & w & ? & ? & _). eauto. Qed.

(** C6. Log matching: if the stored logs of two nodes, each at any time of an
    execution, have the same term at an index, they hold the same entries up to it,
    except for what their snapshots cover. *)
Theorem log_matching h cl1 cl2 i j k t n :
  Execution h -> Fresh h -> cl1 ∈ h -> cl2 ∈ h ->
  term_at (dlog (cl_disks cl1 i)) k = Some t -> term_at (dlog (cl_disks cl2 j)) k = Some t ->
  base_of (dlog (cl_disks cl1 i)) < n -> base_of (dlog (cl_disks cl2 j)) < n -> n <= k ->
  log_at (dlog (cl_disks cl1 i)) n = log_at (dlog (cl_disks cl2 j)) n.
Proof.
  intros Hex Hf H1 H2. destruct (Execution_past h Hex Hf) as (P & HT & HR).
  apply (past_match P HT i j); [apply (HR cl1 H1)|apply (HR cl2 H2)].
Qed.

(** C2. Leader completeness: a leader's log reaches up to what any node, at any
    time of the execution, had committed in an earlier term, and holds the same
    entries there, except for what the snapshots of the two nodes cover. *)
Theorem leader_completeness h cl1 cl2 i j s1 s2 :
  Execution h -> Fresh h -> cl1 ∈ h -> cl2 ∈ h ->
  cl_nodes cl1 !! i = Some s1 -> cl_nodes cl2 !! j = Some s2 ->
  n_role s2 = leader -> n_current_term s1 < n_current_term s2 ->
  n_commit_index s1 <= last_log_index s2 /\
  forall n, base_index s1 < n <= n_commit_index s1 -> base_index s2 < n ->
    log_at (n_log s2) n = log_at (n_log s1) n.
Proof.
  intros Hex Hf H1 H2 Hs1 Hs2 Hr Ht. destruct (Execution_past h Hex Hf) as (P & HT & HR).
  pose proof (HR cl1 H1) as R1. pose proof (HR cl2 H2) as R2.
  destruct (committed_led P HT cl1 cl2 i j s1 s2) as (t & Hc & HA); try done.
  destruct (rec_node _ _ R1 i s1 Hs1) as [I1 D1], (rec_node _ _ R2 j s2 Hs2) as [I2 D2].
  split; [by apply Anc_index in HA|]. intros n Hn Hb. rewrite !base_index_of in *.
  rewrite <- !dlog_of in * by done. symmetry.
  apply (past_agree P HT i j _ _ (n_commit_index s1) t); try done; [..|lia|lia].
  - rewrite D1. apply R1.
  - rewrite D2. apply R2.
Qed.

(** Node [i] applied the entry [e] in an operation of the execution. *)
Definition Applied (h : list Cluster) (i : NodeId) (e : LogEntry) : Prop :=
  exists later cl' cl earlier s op acts s', h = later ++ cl' :: cl :: earlier /\
    cl_nodes cl !! i = Some s /\ cl_nodes cl' !! i = Some s' /\ Room s /\ op_typed op /\
    perform op s = (s', Ok acts) /\ ApplyEntry e ∈ acts.

Lemma Applied_held P h i e :
  (forall cl, cl ∈ h -> Recorded P cl) -> Applied h i e ->
  exists cl s, cl ∈ h /\ cl_nodes cl !! i = Some s /\
    base_index s < le_index e <= n_commit_index s /\ log_at (n_log s) (le_index e) = Some e.
Proof.
  intros HR (later & cl' & cl & earlier & s & op & acts & s' & -> & Hs & Hs' & Hroom & Hop & E & He).
  assert (cl ∈ later ++ cl' :: cl :: earlier /\ cl' ∈ later ++ cl' :: cl :: earlier) as [Hin Hin'] by set_solver.
  destruct (rec_node _ _ (HR cl Hin) i s Hs) as [I _].
  exists cl', s'. split_and!; [done|done|..]; by eapply applied_held.
Qed.

(** C1. State machine safety: two nodes never apply different entries at one
    index, at whatever times of the execution they do it and whatever crashed in
    between. *)
Theorem state_machine_safety h i j e e' :
  Execution h -> Fresh h -> Applied h i e -> Applied h j e' -> le_index e = le_index e' -> e = e'.
Proof.
  intros Hex Hf A1 A2 Hi. destruct (Execution_past h Hex Hf) as (P & HT & HR).
  destruct (Applied_held P h i e HR A1) as (cl1 & s1 & H1 & Hs1 & N1 & L1).
  destruct (Applied_held P h j e' HR A2) as (cl2 & s2 & H2 & Hs2 & N2 & L2). rewrite <- Hi in N2, L2.
  pose proof (commits_agree P HT cl1 cl2 i j s1 s2 (le_index e) (HR _ H1) (HR _ H2) Hs1 Hs2 N1 N2). congruence.
Qed.
End Consensus.
