(* ===== verification/PersistedRaft.v ===== *)
(** * The persisted Raft node

    [src/raft/persisted_raft_node.cpp]: a [RaftNode] over a [RaftStorage].  The
    actions of an operation are carried out before any of its messages is handed
    to the output sink.

    [crash_hook] and [sync_observer] tell whether a callback is installed; a
    callback, and the output sink, may throw.  [outputs] records what the sink was
    given, and the disk at that moment. *)

From stdpp Require Import sorting.
From S2P Require Import Prelude RaftTypes RaftNode RaftSafety RaftFormat RaftJournal Fs RaftStorage.
Import RaftFormat RaftJournal.

(** ** The fingerprint of the voters *)

Definition fnv_offset : Z := 14695981039346656037.
Definition fnv_prime : Z := 1099511628211.

(** [hash ^= x; hash *= prime] *)
Definition fnv_step (hash x : Z) : Z := u64 (Z.lxor hash x * fnv_prime).

(** The bytes of a voter, the low ones first. *)
Definition voter_bytes (voter : NodeId) : list Z :=
  map (fun shift => Z.land (Z.shiftr voter shift) 255) [0; 8; 16; 24; 32; 40; 48; 56].

Definition fixed_membership_fingerprint (voters : list NodeId) : Z :=
  let voters := merge_sort Z.le voters in
  let hash := foldl fnv_step fnv_offset (concat (map voter_bytes voters)) in
  let hash := fnv_step hash (size_of voters) in
  if hash =? 0 then 1 else hash.

Module PersistedRaftNode.
Section Driver.
Context {RNG : UniformRandom}.

Inductive RaftCrashPoint : Set :=
| before_persist
| after_write
| after_file_sync
| after_rename
| after_sync
| before_response
| after_response.

Record Driver := {
  storage : RaftStorage.Storage;
  node : Impl;
  crash_hook : bool;
  sync_observer : bool;
  is_failed : bool;
  snapshot_already_durable : bool;
  outputs : list (Action * Disk)
}.

Definition driver_fs (d : Driver) : Fs := RaftStorage.fs_ (storage d).

Definition set_storage (s : RaftStorage.Storage) (d : Driver) : Driver :=
  {| storage := s; node := node d; crash_hook := crash_hook d; sync_observer := sync_observer d;
     is_failed := is_failed d; snapshot_already_durable := snapshot_already_durable d;
     outputs := outputs d |}.

Definition set_node (n : Impl) (d : Driver) : Driver :=
  {| storage := storage d; node := n; crash_hook := crash_hook d; sync_observer := sync_observer d;
     is_failed := is_failed d; snapshot_already_durable := snapshot_already_durable d;
     outputs := outputs d |}.

Definition set_failed (d : Driver) : Driver :=
  {| storage := storage d; node := node d; crash_hook := crash_hook d; sync_observer := sync_observer d;
     is_failed := true; snapshot_already_durable := snapshot_already_durable d; outputs := outputs d |}.

Definition set_already_durable (b : bool) (d : Driver) : Driver :=
  {| storage := storage d; node := node d; crash_hook := crash_hook d; sync_observer := sync_observer d;
     is_failed := is_failed d; snapshot_already_durable := b; outputs := outputs d |}.

Definition add_output (a : Action) (d : Driver) : Driver :=
  {| storage := storage d; node := node d; crash_hook := crash_hook d; sync_observer := sync_observer d;
     is_failed := is_failed d; snapshot_already_durable := snapshot_already_durable d;
     outputs := outputs d ++ [(a, disk (driver_fs d))] |}.

Definition on_storage {A} (m : M RaftStorage.Storage A) : M Driver A := lift storage set_storage m.
Definition on_node {A} (m : M Impl A) : M Driver A := lift node set_node m.

(** ** Driving the actions of the node *)

Definition ensure_healthy : M Driver unit :=
  let* d := get in if is_failed d then throw logic_error else ret tt.

Definition at_point (point : RaftCrashPoint) : M Driver unit :=
  let* d := get in when (crash_hook d) (on_storage (RaftStorage.sys callback)).

(** The exceptions of the observer are swallowed. *)
Definition observe_sync : M Driver unit :=
  let* d := get in
  when (sync_observer d) (fun d => (fst (on_storage (RaftStorage.sys callback) d), Ok tt)).

(** [persist], around the [prepare] of the action. *)
Definition persist_action (prepare : M RaftStorage.Storage unit) : M Driver unit :=
  at_point before_persist ;;
  on_storage prepare ;;
  at_point after_write ;;
  on_storage RaftStorage.sync ;;
  observe_sync ;;
  at_point after_sync.

Definition persist_snapshot (snapshot : StateMachineSnapshot) : M Driver unit :=
  at_point before_persist ;;
  let* d := get in
  on_storage (RaftStorage.install_snapshot snapshot (snapshot_already_durable d)) ;;
  observe_sync ;;
  modify (set_already_durable false) ;;
  at_point after_sync.

(** The first loop of [drive]: what is left to publish. *)
Fixpoint persist_actions (actions : Actions) : M Driver Actions :=
  match actions with
  | [] => ret []
  | action :: rest =>
      match action with
      | PersistHardState term voted_for =>
          persist_action (RaftStorage.prepare_hard_state term voted_for) ;; persist_actions rest
      | PersistLog from_index entries =>
          persist_action (RaftStorage.prepare_log (update_of from_index entries)) ;; persist_actions rest
      | PersistSnapshot snapshot => persist_snapshot snapshot ;; persist_actions rest
      | _ => let* publish := persist_actions rest in ret (action :: publish)
      end
  end.

Definition is_message (action : Action) : bool :=
  match action with SendMessage _ _ => true | _ => false end.

(** The output sink records the action and may throw. *)
Definition output (action : Action) : M Driver unit :=
  modify (add_output action) ;; on_storage (RaftStorage.sys callback).

Definition publish_action (action : Action) : M Driver unit :=
  when (is_message action) (at_point before_response) ;;
  output action ;;
  when (is_message action) (at_point after_response).

Definition drive (actions : Actions) : M Driver unit :=
  ensure_healthy ;;
  on_error
    (let* publish := persist_actions actions in for_each publish publish_action)
    (modify set_failed).

(** ** Operations *)

Definition advance_time (now : LogicalTime) : M Driver unit :=
  ensure_healthy ;; let* actions := on_node (RaftNode_advance_time now) in drive actions.

Definition step (from : NodeId) (message : Message) : M Driver unit :=
  ensure_healthy ;; let* actions := on_node (RaftNode_step from message) in drive actions.

Definition propose (command : list byte) : M Driver unit :=
  ensure_healthy ;; let* actions := on_node (RaftNode_propose command) in drive actions.

Definition read_barrier : M Driver unit :=
  ensure_healthy ;; let* actions := on_node RaftNode_read_barrier in drive actions.

Definition compact (snapshot : StateMachineSnapshot) (already_durable : bool) : M Driver unit :=
  ensure_healthy ;;
  modify (set_already_durable already_durable) ;;
  on_error
    (let* actions := on_node (RaftNode_compact snapshot) in drive actions)
    (modify (set_already_durable false)).

Definition durable_state (d : Driver) : RaftPersistentState := RaftStorage.state (RaftStorage.impl_ (storage d)).

Definition failed (d : Driver) : bool := is_failed d.

(** [open]: [output] and the hooks tell whether the options hold a callable. *)
Definition open (config : RaftConfig) (initial_time : LogicalTime) (output crash_hook sync_observer : bool)
    (pid : N) : M Fs Driver :=
  if negb output then throw invalid_argument
  else
    match validate_raft_config config with
    | Throw e => throw e
    | Ok _ =>
        let voter_fingerprint := fixed_membership_fingerprint (cfg_voters config) in
        let* i := RaftStorage.open (cfg_cluster_id config) (cfg_self_id config) crash_hook
          voter_fingerprint pid in
        let* fs := get in
        match RaftNode_create config (RaftStorage.state i) initial_time with
        | Throw e => throw e
        | Ok n =>
            ret {| storage := {| RaftStorage.impl_ := i; RaftStorage.fs_ := fs |}; node := n;
                   crash_hook := crash_hook; sync_observer := sync_observer; is_failed := false;
                   snapshot_already_durable := false; outputs := [] |}
        end
    end.
End Driver.
End PersistedRaftNode.
