(* ===== verification/PersistedSafety.v ===== *)
(** * What the persisted node makes durable

    The driver of [PersistedRaft.v] over the store of [RaftStorage.v]: how the
    actions of a node reach the disk and the output sink. *)

From S2P Require Import Prelude Wire Checksum Protocol RaftTypes RaftNode RaftInvariant RaftStep RaftHandlers.
From S2P Require Import RaftSafety RaftFormat RaftJournal Fs FsTriples Directory RaftStorage RaftTotality.
From S2P Require Import RaftFiles RaftRecovery RaftCreation RaftDurability RaftLifecycle PersistedRaft.
Import RaftFormat RaftJournal PersistedRaftNode.

(** What [drive] publishes of the actions. *)
Definition is_persist (a : Action) : bool :=
  match a with PersistHardState _ _ | PersistLog _ _ | PersistSnapshot _ => true | _ => false end.

Definition published (actions : Actions) : Actions := base.filter (fun a => is_persist a = false) actions.

(** Every snapshot of the actions ends with an entry of the log it is for. *)
Fixpoint keeps_boundaries (actions : Actions) (p : RaftPersistentState) : Prop :=
  match actions with
  | [] => True
  | a :: rest => keeps_boundary a p /\ keeps_boundaries rest (persist a p)
  end.

Section Driver.
Context {RNG : UniformRandom} (cid : Z) (nid : NodeId) (fp : Z).
Hypothesis cid_u64 : is_u64 cid.
Hypothesis nid_u64 : is_u64 nid.
Hypothesis fp_u64 : is_u64 fp.

Abbreviation initialized := (initialized cid nid fp).
Abbreviation opened := (opened cid nid fp).

(** [d'] is [d] after a callback. *)
Definition calm (d d' : Driver) : Prop :=
  exists fs', disk fs' = disk (driver_fs d) /\ d' = set_storage (RaftStorage.set_fs fs' (storage d)) d.

Lemma calm_refl d : calm d d.
Proof. exists (driver_fs d). split; [done|]. by destruct d as [[? ?] ? ? ? ? ? ?]. Qed.

Lemma calm_trans d1 d2 d3 : calm d1 d2 -> calm d2 d3 -> calm d1 d3.
Proof. intros (fs1 & E1 & ->) (fs2 & E2 & ->). exists fs2. split; [|done]. by rewrite E2. Qed.

Lemma calm_disk d d' : calm d d' -> disk (driver_fs d') = disk (driver_fs d).
Proof. by intros (fs' & E & ->). Qed.

Lemma calm_opened p d d' : calm d d' -> opened p (storage d) -> opened p (storage d').
Proof.
  intros (fs' & E & ->) (h & ino & Hr & Hs). exists h, ino. split; [exact Hr|]. cbn. by rewrite E.
Qed.

Section Triples.
Context (faulty : Prop) (C : Disk -> Prop).
Abbreviation triple := (triple driver_fs faulty C).

Lemma t_on_storage {A} (m : M RaftStorage.Storage A) d (Q : result A -> Driver -> Prop) :
  FsTriples.triple RaftStorage.fs_ faulty C m (storage d) (fun r s' => Q r (set_storage s' d)) ->
  triple (on_storage m) d Q.
Proof. by apply (t_lift RaftStorage.fs_). Qed.

Lemma t_callback d Q :
  C (disk (driver_fs d)) -> (forall d', calm d d' -> Q (Ok tt) d') ->
  (faulty -> forall d', calm d d' -> Q (Throw callback_error) d') ->
  triple (on_storage (RaftStorage.sys callback)) d Q.
Proof.
  intros HC HQ He. apply t_on_storage, t_sys. eapply t_calls; [apply calls_attempt_once|done| |].
  - intros fs' E. apply HQ. by exists fs'.
  - intros Hf fs' E. apply He; [done|]. by exists fs'.
Qed.

Lemma t_at point d Q :
  C (disk (driver_fs d)) -> (forall d', calm d d' -> Q (Ok tt) d') ->
  (faulty -> forall d', calm d d' -> Q (Throw callback_error) d') ->
  triple (at_point point) d Q.
Proof.
  intros HC HQ He. apply t_bind, t_get; [done|]. destruct (crash_hook d); cbn [when]; [by apply t_callback|].
  apply t_ret; [done|]. apply HQ, calm_refl.
Qed.

Lemma t_observe d Q :
  C (disk (driver_fs d)) -> (forall d', calm d d' -> Q (Ok tt) d') -> triple observe_sync d Q.
Proof.
  intros HC HQ. apply t_bind, t_get; [done|]. destruct (sync_observer d); cbn [when].
  2:{ apply t_ret; [done|]. apply HQ, calm_refl. }
  intros Hh. destruct (t_callback d (fun _ d' => calm d d')) as (new & H1 & H2 & H3 & H4 & H5); try done.
  exists new. cbn [fst snd]. split_and!; try done. by apply HQ.
Qed.
End Triples.

(** ** Carrying out the actions *)

(** The exceptions of a store: a refused update, or a failure. *)
Definition store_exception (e : exn) : Prop := e = raft_invalid \/ storage_failure e.

(** Only the storage has changed. *)
Definition stored_by (d d' : Driver) : Prop := d' = set_storage (storage d') d.

Lemma calm_stored d d' : calm d d' -> stored_by d d'.
Proof. by intros (fs' & _ & ->). Qed.

Lemma stored_refl d : stored_by d d.
Proof. by destruct d. Qed.

Lemma stored_trans d1 d2 d3 : stored_by d1 d2 -> stored_by d2 d3 -> stored_by d1 d3.
Proof. unfold stored_by. intros H1 H2. rewrite H2, H1. done. Qed.

Section Persisting.
Context (faulty : Prop) (P : RaftPersistentState -> Prop).
Abbreviation C := (all_dirs (initialized P)).
Abbreviation triple := (triple driver_fs faulty C).

(** A prepared update, whatever its kind. *)
Record prepared_for (p' : RaftPersistentState) (s : RaftStorage.Storage) : Prop := {
  pf_C : C (disk (RaftStorage.fs_ s));
  pf_sync : forall fs', disk fs' = disk (RaftStorage.fs_ s) ->
    FsTriples.triple RaftStorage.fs_ faulty C RaftStorage.sync (RaftStorage.set_fs fs' s)
      (fun r s' => match r with Ok _ => opened p' s' | Throw e => storage_failure e end)
}.

Lemma t_persist_action prepare p p' d Q :
  opened p (storage d) -> P p -> P p' ->
  (forall s, opened p s -> FsTriples.triple RaftStorage.fs_ faulty C prepare s
     (fun r s' => match r with Ok _ => prepared_for p' s' | Throw e => store_exception e end)) ->
  (forall d', opened p' (storage d') -> stored_by d d' -> Q (Ok tt) d') ->
  (forall e d', store_exception e -> stored_by d d' -> Q (Throw e) d') ->
  triple (persist_action prepare) d Q.
Proof.
  intros Ho HP HP' Hprep HQ He. assert (forall e, storage_failure e -> store_exception e) as Hse by by right.
  assert (storage_failure callback_error) as Hcb by by right.
  apply t_bind, t_at; [by eapply opened_initialized| |intros; apply He; auto using calm_stored].
  intros d1 H1. apply calm_opened with (p := p) in H1 as Ho1; [|done]. apply calm_stored in H1.
  apply t_bind, t_on_storage. eapply t_weaken; [by apply Hprep|].
  intros [[]|e] s2 H2; [|by apply He; [|apply stored_trans with d1]]. set (d2 := set_storage s2 d1).
  assert (stored_by d d2) as Hs2 by by apply stored_trans with d1.
  apply t_bind, t_at; [apply H2| |intros _ d3 H3; apply He; [auto|apply stored_trans with d2; auto using calm_stored]].
  intros d3 (fs3 & E3 & ->). apply t_bind, t_on_storage. eapply t_weaken; [by apply H2|].
  intros [[]|e] s4 H4; [|apply He; [auto|by apply stored_trans with d2]]. set (d4 := set_storage s4 _).
  assert (stored_by d d4) as Hs4 by by apply stored_trans with d2.
  apply t_bind, t_observe; [by eapply (opened_initialized cid nid fp); [exact H4|]|]. intros d5 H5.
  pose proof (calm_opened p' d4 d5 H5 H4) as Ho5. assert (stored_by d d5) as Hs5
    by (apply stored_trans with d4; [done|by apply calm_stored]).
  apply t_at; [by eapply opened_initialized| |].
  - intros d6 H6. apply HQ; [by eapply calm_opened|]. apply stored_trans with d5; [done|by apply calm_stored].
  - intros _ d6 H6. apply He; [auto|]. apply stored_trans with d5; [done|by apply calm_stored].
Qed.

Lemma initialized_either p p' d : P p -> P p' -> all_dirs (initialized (either p p')) d -> C d.
Proof.
  intros HP HP'. apply all_dirs_weaken. intros ns. apply initialized_weaken. by intros x [->| ->].
Qed.

Lemma t_prepare_hard t v p s :
  let p' := persist (PersistHardState t v) p in
  P p -> P p' -> update_typed (PersistHardState t v) p -> opened p s ->
  FsTriples.triple RaftStorage.fs_ faulty C (RaftStorage.prepare_hard_state t v) s
    (fun r s' => match r with Ok _ => prepared_for p' s' | Throw e => store_exception e end).
Proof.
  intros p' HP HP' [Ht Hv] (h & ino & Hr & Hs).
  eapply t_mono; [|by intros d; apply (initialized_either p p')].
  eapply (t_prepare_hard_state cid nid fp); [done..|exact Hr|exact Hs|exact Ht|exact Hv| |by left|by right].
  intros s1 Hp1. split.
  - destruct Hp1 as (_ & _ & tmp & tino & d0 & _ & _ & _ & _ & _ & (HC & _)). by apply (initialized_either p p').
  - intros fs' E. eapply t_mono; [|by intros d; apply (initialized_either p p')].
    eapply (t_sync_hard_state cid nid fp); [done..| | |done].
    + destruct Hp1 as (H1 & H2 & tmp & tino & d0 & H3 & H4 & H5 & H6 & H7 & H8). split; [exact H1|].
      split; [exact H2|]. exists tmp, tino, d0. split_and!; try done. cbn. by rewrite E.
    + intros s' Hr' Hs'. by eexists _, _.
Qed.

Lemma t_prepare_entries from es p s :
  let p' := persist (PersistLog from es) p in
  P p -> P p' -> update_typed (PersistLog from es) p -> opened p s ->
  FsTriples.triple RaftStorage.fs_ faulty C (RaftStorage.prepare_log (update_of from es)) s
    (fun r s' => match r with Ok _ => prepared_for p' s' | Throw e => store_exception e end).
Proof.
  intros p' HP HP' Hty Ho. pose proof (opened_wf _ _ _ _ _ Ho) as Hwf. destruct Ho as (h & ino & Hr & Hs).
  pose proof (update_typed_above _ _ _ Hty) as Ha.
  assert (forall x, apply_log_update p (update_of from es) raft_invalid_update = Ok x -> x = p') as Hx
    by (intros x Hx; by eapply apply_is_persist).
  eapply (t_prepare_log cid nid fp); [done..|exact Hr|exact Hs|done|done| | | |].
  - intros x Hu. by rewrite (Hx x Hu).
  - intros x s1 Hu Hp1. rewrite (Hx x Hu) in Hp1. split.
    + destruct Hp1 as (_ & _ & _ & req & us & u & _ & _ & _ & _ & _ & _ & HC).
      apply (initialized_either p p'); [done..|]. eapply store_initialized; [|exact HC]. done.
    + intros fs' E. eapply (t_sync_log cid nid fp); [done..| |exact HP|exact HP'| |done].
      * destruct Hp1 as (H1 & H2 & H3 & H4). split; [exact H1|]. cbn. rewrite E. by split_and!.
      * intros s' Hr' Hs'. by eexists _, _.
  - intros e Hu. left. by rewrite (apply_log_update_error _ _ _ _ Hu).
  - intros _ s1. right. by left.
Qed.

Lemma t_persist_snapshot snap p d Q :
  let p' := persist (PersistSnapshot snap) p in
  opened p (storage d) -> snapshot_already_durable d = false -> P p -> P p' ->
  update_typed (PersistSnapshot snap) p -> compacts snap p ->
  (forall d', opened p' (storage d') -> stored_by d d' -> Q (Ok tt) d') ->
  (forall e d', store_exception e -> stored_by d d' -> Q (Throw e) d') ->
  triple (persist_snapshot snap) d Q.
Proof.
  intros p' Ho Hflag HP HP' Hty Hc HQ He.
  assert (store_exception callback_error) as Hcb by (right; by right).
  apply t_bind, t_at; [by eapply opened_initialized| |intros; apply He; auto using calm_stored].
  intros d1 H1. pose proof (calm_opened p _ _ H1 Ho) as Ho1. apply calm_stored in H1.
  apply t_bind, t_get; [by eapply opened_initialized|].
  assert (snapshot_already_durable d1 = false) as -> by by rewrite H1.
  apply t_bind, t_on_storage. eapply t_mono; [|by intros x; apply (initialized_either p p')].
  apply t_carry_snapshot; [done..| | |].
  - intros s2 Ho2. set (d2 := set_storage s2 d1). assert (stored_by d d2) as H2 by by apply stored_trans with d1.
    apply t_bind, t_observe; [by eapply (opened_initialized cid nid fp); [exact Ho2|]|]. intros d3 H3.
    pose proof (calm_opened p' d2 d3 H3 Ho2) as Ho3.
    assert (stored_by d d3) as Hs3 by (apply stored_trans with d2; [done|by apply calm_stored]).
    pose proof (opened_initialized cid nid fp P _ _ Ho3 HP') as HC3.
    apply t_bind, t_modify; [done|exact HC3|].
    assert (set_already_durable false d3 = d3) as ->.
    { rewrite Hs3. unfold set_already_durable, set_storage. cbn. by rewrite Hflag. }
    apply t_at; [exact HC3| |].
    + intros d4 H4. apply HQ; [by eapply calm_opened|]. apply stored_trans with d3; [done|by apply calm_stored].
    + intros _ d4 H4. apply He; [done|]. apply stored_trans with d3; [done|by apply calm_stored].
  - apply He; [by left|]. by apply stored_trans with d1.
  - intros e s2 Hf. apply He; [by right|]. by apply stored_trans with d1.
Qed.

Lemma storable_typed c a p : Forall is_u64 (cfg_voters c) -> storable c a p -> update_typed a p.
Proof.
  intros Hv. destruct a; cbn; try done. intros [Ht Hx]. split; [done|]. destruct voted_for as [x|]; [|done].
  rewrite Forall_forall in Hv. by apply Hv, Hx.
Qed.

(** The first loop of [drive]. *)
Lemma t_persist_actions c actions p d Q :
  Forall is_u64 (cfg_voters c) -> opened p (storage d) -> snapshot_already_durable d = false ->
  all_storable c actions p -> keeps_boundaries actions p ->
  (forall k, P (replay (take k actions) p)) ->
  (forall d', opened (replay actions p) (storage d') -> stored_by d d' -> Q (Ok (published actions)) d') ->
  (forall e d', store_exception e -> stored_by d d' -> Q (Throw e) d') ->
  triple (persist_actions actions) d Q.
Proof.
  intros Hv. revert p d Q. induction actions as [|a rest IH]; intros p d Q Ho Hflag Hst Hkb HP HQ He.
  { apply t_ret; [eapply opened_initialized; [exact Ho|exact (HP 0%nat)]|]. apply HQ; [exact Ho|apply stored_refl]. }
  destruct Hst as [Hst Hrest]. destruct Hkb as [Hkb Hkbs].
  pose proof (HP 0%nat : P p) as HP0. pose proof (HP 1%nat : P (persist a p)) as HP1.
  pose proof (storable_typed _ _ _ Hv Hst) as Hty.
  assert (forall k, P (replay (take k rest) (persist a p))) as HPs by (intros k; exact (HP (S k))).
  assert (forall Q', (forall d', opened (replay rest (persist a p)) (storage d') -> stored_by d d' -> Q' (Ok (published rest)) d') ->
    (forall e d', store_exception e -> stored_by d d' -> Q' (Throw e) d') ->
    forall d1, opened (persist a p) (storage d1) -> stored_by d d1 -> triple (persist_actions rest) d1 Q') as Hgo.
  { intros Q' HQ' He' d1 Ho1 Hs1.
    assert (snapshot_already_durable d1 = false) as Hf1 by (unfold stored_by in Hs1; rewrite Hs1; exact Hflag).
    apply (IH (persist a p)); [exact Ho1|exact Hf1|exact Hrest|exact Hkbs|exact HPs|..].
    - intros d' Ho' Hs'. apply HQ'; [done|by apply stored_trans with d1].
    - intros e d' He1 Hs'. apply He'; [done|by apply stored_trans with d1]. }
  pose proof (stored_refl d) as Hdd.
  pose proof (HPs (length rest)) as Hall. rewrite firstn_all in Hall.
  assert (is_persist a = false -> triple (let* publish := persist_actions rest in ret (a :: publish)) d Q) as Hinert.
  { intros Ha. assert (persist a p = p) as Ep by by destruct a. apply t_bind, Hgo; [|done|by rewrite Ep|done].
    intros d' Ho' Hs'. apply t_ret; [by eapply opened_initialized|].
    assert (published (a :: rest) = a :: published rest) as <- by (by apply filter_cons_True). by apply HQ. }
  assert (is_persist a = true -> published (a :: rest) = published rest) as Hpub.
  { intros Ha. apply filter_cons_False. by rewrite Ha. }
  destruct a; cbn [persist_actions]; try (by apply Hinert); rewrite Hpub in HQ by done.
  - eapply t_bind, (t_persist_action _ p _ _ _ Ho HP0 HP1); [intros; by apply t_prepare_hard| |by auto].
    intros d1 Ho1 Hs1. by apply Hgo.
  - eapply t_bind, (t_persist_action _ p _ _ _ Ho HP0 HP1); [intros; by apply t_prepare_entries| |by auto].
    intros d1 Ho1 Hs1. by apply Hgo.
  - eapply t_bind, (t_persist_snapshot _ p _ _ Ho Hflag HP0 HP1); [done|done| |by auto]. intros d1 Ho1 Hs1. by apply Hgo.
Qed.

(** ** Publishing *)

(** The actions were handed to the sink while the disk was as it is. *)
Record emitted (d : Driver) (acts : Actions) (d' : Driver) : Prop := {
  em_outputs : outputs d' = outputs d ++ map (fun a => (a, disk (driver_fs d))) acts;
  em_disk : disk (driver_fs d') = disk (driver_fs d);
  em_impl : RaftStorage.impl_ (storage d') = RaftStorage.impl_ (storage d);
  em_node : node d' = node d;
  em_failed : is_failed d' = is_failed d;
  em_flag : snapshot_already_durable d' = snapshot_already_durable d
}.

Lemma calm_emitted d d' : calm d d' -> emitted d [] d'.
Proof. intros (fs' & E & ->). split; try done. cbn. by rewrite app_nil_r. Qed.

Lemma emitted_trans d1 a d2 b d3 : emitted d1 a d2 -> emitted d2 b d3 -> emitted d1 (a ++ b) d3.
Proof.
  intros [H1 H2 H3 H4 H5 H6] [K1 K2 K3 K4 K5 K6]. split; try congruence.
  by rewrite K1, H1, H2, map_app, (assoc_L (++)).
Qed.

Lemma emitted_calm d1 a d2 d3 : emitted d1 a d2 -> calm d2 d3 -> emitted d1 a d3.
Proof. intros H Hc. rewrite <- (app_nil_r a). eapply emitted_trans; [exact H|by apply calm_emitted]. Qed.

Lemma emitted_opened q d acts d' : emitted d acts d' -> opened q (storage d) -> opened q (storage d').
Proof.
  intros Hem (h & ino & Hr & Hs). exists h, ino. rewrite (em_impl _ _ _ Hem). split; [done|].
  pose proof (em_disk _ _ _ Hem) as E. unfold driver_fs in E. by rewrite E.
Qed.

Lemma t_publish_action a d Q :
  C (disk (driver_fs d)) -> (forall d', emitted d [a] d' -> Q (Ok tt) d') ->
  (faulty -> forall d', emitted d [] d' \/ emitted d [a] d' -> Q (Throw callback_error) d') ->
  triple (publish_action a) d Q.
Proof.
  intros HC HQ He.
  assert (forall b point x R, C (disk (driver_fs x)) -> (forall x', calm x x' -> R (Ok tt) x') ->
    (faulty -> forall x', calm x x' -> R (Throw callback_error) x') ->
    triple (when b (at_point point)) x R) as Hat.
  { intros b point x R HCx H1 H2. destruct b; cbn [when]; [by apply t_at|]. apply t_ret; [done|]. apply H1, calm_refl. }
  apply t_bind, Hat; [done| |intros Hf d' Hc; apply He; [done|left; by apply calm_emitted]]. intros d1 H1.
  pose proof (calm_disk _ _ H1) as E1. rewrite <- E1 in HC.
  assert (emitted d [a] (add_output a d1)) as Hem.
  { apply calm_emitted in H1 as [G1 G2 G3 G4 G5 G6]. rewrite app_nil_r in G1. split; try done. cbn. by rewrite G1, G2. }
  apply t_bind, t_bind, t_modify; [done|done|].
  apply t_callback; [done| |intros Hf d2 H2; apply He; [done|right; by eapply emitted_calm]].
  intros d2 H2. apply calm_disk in H2 as E2. apply Hat; [by rewrite E2| |].
  - intros d3 H3. apply HQ. by eapply emitted_calm; [eapply emitted_calm|].
  - intros Hf d3 H3. apply He; [done|right]. by eapply emitted_calm; [eapply emitted_calm|].
Qed.

Lemma t_publish_all pub d Q :
  C (disk (driver_fs d)) -> (forall d', emitted d pub d' -> Q (Ok tt) d') ->
  (faulty -> forall e k d', storage_failure e -> emitted d (take k pub) d' -> Q (Throw e) d') ->
  triple (for_each pub publish_action) d Q.
Proof.
  revert d Q. induction pub as [|a pub IH]; intros d Q HC HQ He.
  { apply t_ret; [done|]. apply HQ, calm_emitted, calm_refl. }
  cbn [for_each]. apply t_bind, t_publish_action; [done| |].
  - intros d1 H1. apply IH.
    + by rewrite (em_disk _ _ _ H1).
    + intros d2 H2. apply HQ. exact (emitted_trans _ [a] _ _ _ H1 H2).
    + intros Hf e k d2 Hse H2. apply (He Hf e (S k)); [done|]. exact (emitted_trans _ [a] _ _ _ H1 H2).
  - intros Hf d1 [H1|H1]; [apply (He Hf _ 0%nat)|apply (He Hf _ 1%nat)]; [by right|done|by right|done].
Qed.
End Persisting.

(** ** Operations *)

(** The sink was given [acts], all of them when the disk held exactly [q]. *)
Definition handed (q : RaftPersistentState) (d : Driver) (acts : Actions) (d' : Driver) : Prop :=
  exists dk, outputs d' = outputs d ++ map (fun a => (a, dk)) acts /\
    (acts = [] \/ all_dirs (initialized (eq q)) dk).

(** The outcome of driving [actions] from the durable state [p]. *)
Definition driven (actions : Actions) (p : RaftPersistentState) (d : Driver) (r : result unit) (d' : Driver)
    : Prop :=
  node d' = node d /\ let q := replay actions p in
  match r with
  | Ok _ => handed q d (published actions) d' /\ opened q (storage d') /\ is_failed d' = false /\
      snapshot_already_durable d' = false
  | Throw e => store_exception e /\ is_failed d' = true /\ exists k, handed q d (take k (published actions)) d'
  end.

Lemma t_drive faulty (P : RaftPersistentState -> Prop) c actions p d :
  Forall is_u64 (cfg_voters c) -> opened p (storage d) -> is_failed d = false ->
  snapshot_already_durable d = false -> all_storable c actions p -> keeps_boundaries actions p ->
  (forall k, P (replay (take k actions) p)) ->
  triple driver_fs faulty (all_dirs (initialized P)) (drive actions) d (driven actions p d).
Proof.
  intros Hv Ho Hok Hflag Hst Hkb HP. pose proof (HP (length actions)) as Hall. rewrite firstn_all in Hall.
  pose proof (opened_initialized cid nid fp P _ _ Ho (HP 0%nat)) as HC.
  apply t_bind. unfold ensure_healthy. apply t_bind, t_get; [exact HC|]. rewrite Hok. apply t_ret; [exact HC|].
  apply t_on_error, t_bind, t_last. eapply t_persist_actions; [done..| |].
  - intros d1 Ho1 Hs1 HC1. assert (outputs d1 = outputs d) as Eo by by rewrite Hs1.
    apply t_last, t_publish_all; [exact HC1| |].
    + intros d2 Hem _. pose proof Hem as [G1 G2 G3 G4 G5 G6]. rewrite Hs1 in G4, G5, G6. split; [done|].
      split_and!; [|by eapply (emitted_opened _ d1)|by rewrite G5|by rewrite G6].
      exists (disk (driver_fs d1)). rewrite Eo in G1. split; [done|right].
      eapply opened_initialized; [exact Ho1|done].
    + intros _ e k d2 He Hem HC2. apply t_modify; [done|exact HC2|]. destruct Hem as [G1 G2 G3 G4 G5 G6].
      rewrite Hs1 in G4. split; [done|]. split_and!; [by right|done|]. exists k, (disk (driver_fs d1)). cbn.
      rewrite Eo in G1. split; [done|right]. eapply opened_initialized; [exact Ho1|done].
  - intros e d1 He Hs1 HC1. apply t_modify; [done|exact HC1|]. rewrite Hs1. split; [done|]. split_and!; [done..|].
    exists 0%nat, (disk (driver_fs d)). split; [|by left]. cbn. by rewrite app_nil_r.
Qed.

(** A healthy driver: what the node holds in memory is what its disk holds. *)
Record consistent (d : Driver) : Prop := {
  con_failed : is_failed d = false;
  con_flag : snapshot_already_durable d = false;
  con_inv : Inv (node d);
  con_voters : Forall is_u64 (cfg_voters (n_config (node d)));
  con_store : opened (persistent_of (node d)) (storage d)
}.

(** The operations of the driver, by the operation of its node. *)
Definition operate (op : Op) : M Driver unit :=
  match op with
  | OpAdvanceTime t => advance_time t
  | OpStep from m => step from m
  | OpPropose cmd => propose cmd
  | OpReadBarrier => read_barrier
  | OpCompact snapshot => compact snapshot false
  end.

(** The actions an operation of the node returns. *)
Definition actions_of (op : Op) (n : Impl) : Actions :=
  match snd (perform op n) with Ok new => new | Throw _ => [] end.

(** The outcome of an operation. *)
Definition operated (op : Op) (d : Driver) (r : result unit) (d' : Driver) : Prop :=
  node d' = fst (perform op (node d)) /\ Inv (node d') /\ n_config (node d') = n_config (node d) /\
  replay (actions_of op (node d)) (persistent_of (node d)) = persistent_of (node d') /\
  match snd (perform op (node d)) with
  | Ok new => driven new (persistent_of (node d)) (set_node (node d') d) r d'
  | Throw e => r = Throw e /\ storage d' = storage d /\ outputs d' = outputs d /\
      is_failed d' = false /\ snapshot_already_durable d' = false
  end.

(** The common body of the operations. *)
Lemma t_body faulty P op d :
  consistent d -> Room (node d) -> op_typed op ->
  keeps_boundaries (actions_of op (node d)) (persistent_of (node d)) ->
  (forall k, P (replay (take k (actions_of op (node d))) (persistent_of (node d)))) ->
  triple driver_fs faulty (all_dirs (initialized P))
    (let* actions := on_node (perform op) in drive actions) d (operated op d).
Proof.
  intros [Hf Hfl Hi Hv Ho] Hroom Hop Hkb HP.
  pose proof (opened_initialized cid nid fp P _ _ Ho (HP 0%nat)) as HC. unfold operated, actions_of in *.
  destruct (perform_cases op (node d) Hi Hroom Hop) as [(acts & n' & E & I' & HS & _)|(e & n' & E & I' & (Hu & _) & _ & HS)].
  - rewrite E in *. cbn [fst snd] in *. pose proof (st_persist _ _ _ HS) as Hp. pose proof (st_config _ _ _ HS) as Hc.
    pose proof (st_storable _ _ _ HS) as Hst. cbn in Hc, Hst.
    apply t_bind, t_pure; [unfold on_node, lift; by rewrite E|done|]. unfold on_node, lift. rewrite E. cbn [fst snd].
    eapply t_weaken; [apply (t_drive faulty P (n_config (node d)) acts (persistent_of (node d)) (set_node n' d)); done|].
    intros r d' Hd. pose proof (proj1 Hd) as Hn. cbn in Hn. rewrite Hn. split_and!; try done.
  - rewrite E in *. cbn [fst snd] in *. pose proof (st_config _ _ _ HS) as Hc. cbn in Hc.
    apply t_bind, t_pure; [unfold on_node, lift; by rewrite E|done|]. unfold on_node, lift. rewrite E. by split_and!.
Qed.

Lemma t_operate faulty P op d :
  consistent d -> Room (node d) -> op_typed op ->
  keeps_boundaries (actions_of op (node d)) (persistent_of (node d)) ->
  (forall k, P (replay (take k (actions_of op (node d))) (persistent_of (node d)))) ->
  triple driver_fs faulty (all_dirs (initialized P)) (operate op) d (operated op d).
Proof.
  intros Hcon Hroom Hop Hkb HP. pose proof (t_body faulty P op d Hcon Hroom Hop Hkb HP) as Hbody.
  pose proof (opened_initialized cid nid fp P _ _ (con_store _ Hcon) (HP 0%nat)) as HC.
  assert (forall m, triple driver_fs faulty (all_dirs (initialized P)) m d (operated op d) ->
    triple driver_fs faulty (all_dirs (initialized P)) (ensure_healthy ;; m) d (operated op d)) as Hhealthy.
  { intros m Hm. apply t_bind, t_bind, t_get; [exact HC|]. rewrite (con_failed _ Hcon). by apply t_ret. }
  destruct op; try (by apply Hhealthy). apply Hhealthy, t_bind, t_modify; [done|exact HC|].
  assert (set_already_durable false d = d) as ->.
  { pose proof (con_flag _ Hcon) as Hfl. destruct d. unfold set_already_durable. cbn in *. by rewrite Hfl. }
  apply t_on_error, t_last. eapply t_weaken; [exact Hbody|]. intros [[]|e] d' Hd HC'; [exact Hd|].
  apply t_modify; [done|exact HC'|]. unfold operated in *. destruct Hd as (H1 & H2 & H3 & H4 & H5).
  split_and!; try done. destruct (snd (perform _ _)) as [new|e']; [done|].
  by destruct H5 as (G1 & G2 & G3 & G4 & G5).
Qed.

Lemma operated_consistent op d r d' :
  consistent d -> operated op d r d' -> is_failed d' = true \/ consistent d'.
Proof.
  intros [Hf Hfl Hi Hv Ho] (H1 & H2 & H3 & H4 & H5). unfold actions_of in H4.
  destruct (snd (perform op (node d))) as [new|e].
  - destruct H5 as (_ & H5). destruct r as [[]|e]; [|left; apply H5]. right. rewrite H4 in H5.
    split; try apply H5; [done|by rewrite H3].
  - right. destruct H5 as (_ & G2 & _ & G4 & G5). split; [done|done|done|by rewrite H3|].
    rewrite G2, <- H4. exact Ho.
Qed.

(** A driver that has failed does nothing any more. *)
Lemma operate_failed op d : is_failed d = true -> operate op d = (d, Throw logic_error).
Proof.
  intros Hf. destruct op; cbn [operate];
    unfold advance_time, step, propose, read_barrier, compact, ensure_healthy, bind at 1, bind at 1, get;
    by rewrite Hf.
Qed.
End Driver.
