(* ===== verification/PersistedTheorems.v ===== *)
(** * What the persisted node promises

    Every reachable driver: opened on a store with any past, and run through any
    operations and failures. *)

From stdpp Require Import sorting.
From S2P Require Import Prelude Wire Checksum Protocol RaftTypes RaftNode RaftInvariant RaftStep RaftHandlers.
From S2P Require Import RaftSafety RaftFormat RaftJournal Fs FsTriples Directory RaftStorage RaftFiles.
From S2P Require Import RaftRecovery RaftCreation RaftDurability RaftLifecycle PersistedRaft PersistedSafety.
Import RaftFormat RaftJournal PersistedRaftNode.

Lemma fnv_range l h : is_u64 h -> is_u64 (foldl fnv_step h l).
Proof.
  revert h. induction l as [|x l IH]; intros h Hh; cbn; [done|]. apply IH, u64_range.
Qed.

(** The fingerprint of a membership does not depend on the order in which its
    voters are listed, fits 64 bits and is never the zero that marks an absent
    one. *)
Theorem fingerprint_of_the_set voters voters' :
  voters ≡ₚ voters' ->
  fixed_membership_fingerprint voters = fixed_membership_fingerprint voters' /\
  is_u64 (fixed_membership_fingerprint voters) /\ fixed_membership_fingerprint voters <> 0.
Proof.
  intros Hp. split.
  - unfold fixed_membership_fingerprint.
    replace (merge_sort Z.le voters') with (merge_sort Z.le voters); [done|].
    apply (Sorted_unique Z.le); try apply Sorted_merge_sort; try apply _.
    by rewrite !merge_sort_Permutation.
  - unfold fixed_membership_fingerprint. set (h := fnv_step _ _).
    assert (is_u64 h) by apply u64_range. destruct (Z.eqb_spec h 0); [done|]. done.
Qed.

(** ** What the store gives back fits the node *)

Lemma sound_log_valid ct exp prev l :
  sound_entries ct exp prev (map stored l) -> 1 <= exp -> exp + size_of l <= u64_max + 1 ->
  persistent_log_valid ct (u64 exp) prev l = true.
Proof.
  revert exp prev. induction l as [|e l IH]; intros exp prev; cbn [map sound_entries persistent_log_valid]; [done|].
  intros (Hx & Hz & Ht & _ & _ & _ & Hs) He Hmax. unfold size_of in *. cbn [length] in Hmax. cbn in Hx, Hz, Ht, Hs.
  rewrite (u64_small exp) by (unfold is_u64, u64_max in *; lia).
  rewrite Hx, Z.eqb_refl, (proj2 (Z.eqb_neq _ _) Hz), !(proj2 (Z.ltb_ge _ _)) by lia. cbn [negb orb].
  apply IH; [done|lia|lia].
Qed.

Section Theorems.
Context {RNG : UniformRandom} (c : RaftConfig).
Hypothesis c_typed : config_typed c.
Hypothesis voters_u64 : Forall is_u64 (cfg_voters c).
Hypothesis cluster_u64 : is_u64 (cfg_cluster_id c).
Hypothesis self_u64 : is_u64 (cfg_self_id c).
Hypothesis cluster_nonzero : cfg_cluster_id c <> 0.
Hypothesis self_nonzero : cfg_self_id c <> 0.

Abbreviation fp := (fixed_membership_fingerprint (cfg_voters c)).
Abbreviation Life := (Life (cfg_cluster_id c) (cfg_self_id c) fp).
Abbreviation initialized := (initialized (cfg_cluster_id c) (cfg_self_id c) fp).
Abbreviation consistent := (consistent (cfg_cluster_id c) (cfg_self_id c) fp).

Lemma fp_u64 : is_u64 fp.
Proof. unfold fixed_membership_fingerprint. set (h := fnv_step _ _). destruct (h =? 0); [done|apply u64_range]. Qed.




Lemma wf_persistent_typed p : wf_state p -> persistent_typed p.
Proof.
  intros Hwf. destruct (wf_base p Hwf) as [Hb Hbt]. pose proof (wf_last p Hwf) as Hl. pose proof (wf_term p Hwf) as Ht.
  unfold last_of, base_of, is_u64, u64_max in *. unfold persistent_typed, u64_max.
  change (snapshot_index_of (ps_snapshot p)) with (snapshot_base (ps_snapshot p)).
  change (snapshot_term_of (ps_snapshot p)) with (snapshot_base_term (ps_snapshot p)). lia.
Qed.

Lemma opened_valid p s :
  opened (cfg_cluster_id c) (cfg_self_id c) fp p s -> (forall v, ps_voted_for p = Some v -> v ∈ cfg_voters c) ->
  validate_persistent_state c p = Ok tt.
Proof.
  intros Ho Hv. pose proof (opened_wf _ _ _ _ _ Ho) as Hwf. destruct Ho as (h & ino & _ & Hs).
  pose proof (solid_valid_hard _ _ _ _ _ _ _ Hs) as (_ & _ & _ & Hvote). destruct Hs as (_ & (Bt & Bv & _) & _).
  destruct (wf_base p Hwf) as [Hb Hbt]. pose proof (wf_last p Hwf) as Hl. pose proof (wf_snapshot p Hwf) as Hsn.
  unfold validate_persistent_state.
  assert ((ps_current_term p =? 0) && bool_decide (is_Some (ps_voted_for p)) = false) as ->.
  { apply andb_false_iff. rewrite Bv, Bt. destruct (hr_voted_for h) as [v|]; [left|by right].
    apply Z.eqb_neq. apply Hvote. }
  assert (match ps_voted_for p with Some v => negb (bool_decide (v ∈ cfg_voters c)) | None => false end = false) as ->.
  { destruct (ps_voted_for p) as [v|]; [|done]. by rewrite bool_decide_true by auto. }
  assert (persistent_log_valid (ps_current_term p) (u64 (snapshot_index_of (ps_snapshot p) + 1))
    (snapshot_term_of (ps_snapshot p)) (ps_log p) = true) as ->.
  { apply sound_log_valid; [exact (wf_log p Hwf)|change (snapshot_index_of (ps_snapshot p)) with (base_of p); lia|].
    unfold last_of in Hl. change (snapshot_index_of (ps_snapshot p)) with (base_of p). lia. }
  destruct (ps_snapshot p) as [d|]; [|done]. destruct Hsn as [Hbd Ht]. unfold valid_boundary, u64_max in Hbd. cbn.
  rewrite !(proj2 (Z.eqb_neq _ _)), (proj2 (Z.ltb_ge _ _)) by (unfold u64_max; lia). done.
Qed.

(** Whatever an open store holds, the node can be built from it: its constructor
    accepts the state and starts from exactly that term, vote, snapshot and log,
    provided the vote is for a member. *)
Theorem stored_state_is_accepted P s initial_time :
  validate_raft_config c = Ok tt -> Life P (Live s) ->
  (forall v, ps_voted_for (RaftStorage.state (RaftStorage.impl_ s)) = Some v -> v ∈ cfg_voters c) ->
  exists n, RaftNode_create c (RaftStorage.state (RaftStorage.impl_ s)) initial_time = Ok n /\ Inv n /\
    persistent_of n = RaftStorage.state (RaftStorage.impl_ s) /\ n_config n = c.
Proof.
  intros Hvalid HL Hv. apply Life_explained in HL as (p & _ & Ho); [|auto using fp_u64..].
  rewrite (opened_state _ _ _ _ _ Ho) in *. pose proof (opened_valid p s Ho Hv) as Hok.
  destruct (create_ok c p initial_time c_typed (wf_persistent_typed p (opened_wf _ _ _ _ _ Ho)) Hvalid Hok)
    as (n & E & HI & Hp & Hc & _). by exists n.
Qed.




End Theorems.
