(* ===== verification/RaftTheorems.v ===== *)
(** * What a Raft node guarantees

    The properties of a single Raft node over arbitrary runs of its public
    operations, stated on the definitions of [RaftNode] and derived from the step
    analysis of [RaftSafety].  A small cluster of three voters serves as the
    concrete node of the witnesses. *)

From S2P Require Import Prelude RaftTypes RaftNode RaftInvariant RaftStep RaftHandlers RaftSafety.

Section Theorems.
Context {RNG : UniformRandom}.

(** The log is its sentinel, which the snapshot determines, and the entries. *)
Lemma Inv_log_shape s :
  Inv s -> n_log s = sentinel (snapshot_index_of (n_durable_snapshot s))
    (snapshot_term_of (n_durable_snapshot s)) :: tail (n_log s).
Proof.
  intros H. pose proof (inv_snapshot _ H) as Hs.
  destruct (li_sentinel _ _ (inv_log _ H)) as (i & t & rest & El & _ & _ & Hz).
  unfold base_index, log_front in Hs. rewrite El in *. cbn in *.
  destruct (n_durable_snapshot s); cbn; [by destruct Hs as (-> & -> & _)|].
  subst i. by rewrite (proj1 Hz eq_refl).
Qed.

(** A node as it comes out of the constructor and a run from there. *)
Definition Reaches (c : RaftConfig) (p : RaftPersistentState) (t : LogicalTime) (acts : Actions)
    (s : Impl) : Prop :=
  exists s0, RaftNode_create c p t = Ok s0 /\ Run s0 acts s.

Lemma Reaches_Step c p t acts s :
  config_typed c -> persistent_typed p -> Reaches c p t acts s ->
  Inv s /\ n_config s = c /\ replay acts p = persistent_of s /\
  observe (snapshot_index_of (ps_snapshot p)) acts = Some (n_last_applied s).
Proof.
  intros Hc Hp (s0 & E & HR). destruct (create_Inv c p t s0 Hc Hp E) as (I0 & P0 & C0 & _ & Ci0 & _).
  destruct (Run_Step s0 acts s I0 HR) as [I1 S1]. split_and!; [done| | |].
  - rewrite <- C0. apply (st_config _ _ _ S1).
  - rewrite <- P0. apply (st_persist _ _ _ S1).
  - rewrite <- Ci0, <- (inv_applied _ I0). apply (st_observe _ _ _ S1).
Qed.

(** C13. The invariants the code checks after every operation hold in every state an
    operation leaves: whatever a node has gone through, its next operation
    returns its actions, or throws because time went backwards, the term counter
    is exhausted or the snapshot offered to [compact] is not acceptable; it never
    ends in [logic_error] or [out_of_range]. *)
Theorem operations_never_violate_invariants c p t acts s op :
  config_typed c -> persistent_typed p -> Reaches c p t acts s -> Room s -> op_typed op ->
  (exists new s', perform op s = (s', Ok new) /\ invariants_hold s' = true) \/
  (exists e s', perform op s = (s', Throw e) /\ refused op s e /\ invariants_hold s' = true).
Proof.
  intros Hc Hp HR Hroom Hop. destruct (Reaches_Step c p t acts s Hc Hp HR) as (I & _).
  destruct (perform_cases op s I Hroom Hop) as [(new & s' & E & I' & _)|(e & s' & E & I' & _ & Hr & _)].
  - left. exists new, s'. split; [done|by apply invariants_hold_true].
  - right. exists e, s'. split_and!; [done..|by apply invariants_hold_true].
Qed.

(** Hard state only moves forward: over a run the term never decreases, and
    within a term a vote once cast is never changed. *)
Theorem hard_state_monotone s acts s' :
  Inv s -> Run s acts s' ->
  n_current_term s <= n_current_term s' /\
  (n_current_term s' = n_current_term s ->
   forall v, n_voted_for s = Some v -> n_voted_for s' = Some v).
Proof.
  intros I HR. destruct (Run_Step s acts s' I HR) as [_ S1].
  split; [apply (st_term _ _ _ S1)|apply (st_vote _ _ _ S1)].
Qed.

(** Votes among the emitted actions are backed by the node's hard state. *)
Lemma run_votes s acts s' :
  Inv s -> Run s acts s' ->
  forall to r, SendMessage to (MRequestVoteResponse r) ∈ acts -> rvr_vote_granted r = true ->
    rvr_term r <= n_current_term s' /\
    (rvr_term r = n_current_term s' -> n_voted_for s' = Some to).
Proof.
  intros I HR. induction HR as [|acts s1 op new s2 HR IH Hroom Hop E|acts s1 op e s2 HR IH Hroom Hop E].
  { intros to r Hin. by apply elem_of_nil in Hin. }
  all: destruct (Run_Step s acts s1 I HR) as [I1 _];
    destruct (perform_cases op s1 I1 Hroom Hop) as
      [(new' & s2' & E' & I2 & S2 & HM)|(e' & s2' & E' & I2 & _ & _ & S2)]; try congruence;
    rewrite E in E'; injection E' as <- <-;
    pose proof (st_term _ _ _ S2) as Ht; pose proof (st_vote _ _ _ S2) as Hv; node_simpl_in Ht; node_simpl_in Hv.
  - intros to r Hin Hg. apply elem_of_app in Hin as [Hin|Hin].
    + destruct (IH to r Hin Hg) as [H1 H2]. split; [lia|]. intros Ht'. apply Hv; [lia|]. apply H2. lia.
    + unfold Msgs in HM. rewrite Forall_forall in HM. destruct (HM _ Hin) as [H1 H2].
      split; [lia|]. intros _. by apply H2.
  - intros to r Hin Hg. destruct (IH to r Hin Hg) as [H1 H2]. split; [lia|].
    intros Ht'. apply Hv; [lia|]. apply H2. lia.
Qed.

(** A node grants at most one candidate its vote in any term. *)
Theorem one_vote_per_term s acts s' to1 r1 to2 r2 :
  Inv s -> Run s acts s' ->
  SendMessage to1 (MRequestVoteResponse r1) ∈ acts -> rvr_vote_granted r1 = true ->
  SendMessage to2 (MRequestVoteResponse r2) ∈ acts -> rvr_vote_granted r2 = true ->
  rvr_term r1 = rvr_term r2 -> to1 = to2.
Proof.
  intros I HR. induction HR as [|acts s1 op new s2 HR IH Hroom Hop E|acts s1 op e s2 HR IH Hroom Hop E].
  { intros Hin. by apply elem_of_nil in Hin. }
  2:{ done. }
  pose proof (run_votes _ _ _ I (run_op s acts s1 op new s2 HR Hroom Hop E)) as Hall.
  destruct (Run_Step s acts s1 I HR) as [I1 _].
  destruct (perform_cases op s1 I1 Hroom Hop) as [(new' & s2' & E' & _ & S2 & HM)|(e' & s2' & E' & _)];
    [|congruence]. rewrite E in E'. injection E' as <- <-.
  assert (forall to r, SendMessage to (MRequestVoteResponse r) ∈ new -> rvr_vote_granted r = true ->
    rvr_term r = n_current_term s2 /\ n_voted_for s2 = Some to) as Hnew.
  { intros to r Hin Hg. unfold Msgs in HM. rewrite Forall_forall in HM.
    destruct (HM _ Hin) as [H1 H2]. split; [done|by apply H2]. }
  intros Hin1 Hg1 Hin2 Hg2 Heq.
  destruct (Hall _ _ Hin1 Hg1) as [_ V1]. destruct (Hall _ _ Hin2 Hg2) as [_ V2].
  apply elem_of_app in Hin1 as [Hin1|Hin1], Hin2 as [Hin2|Hin2]; [by apply IH|..];
    try (destruct (Hnew _ _ Hin1 Hg1)); try (destruct (Hnew _ _ Hin2 Hg2));
    specialize (V1 ltac:(congruence)); specialize (V2 ltac:(congruence)); congruence.
Qed.


(** A leader never overwrites or drops its own entries: between two points of
    its leadership of a term its log has only grown. *)
Theorem leader_append_only s acts s' i :
  Inv s -> Run s acts s' -> n_role s = leader -> n_role s' = leader ->
  n_current_term s' = n_current_term s -> base_index s' < i <= last_log_index s ->
  last_log_index s <= last_log_index s' /\ log_at (n_log s') i = log_at (n_log s) i.
Proof.
  intros I HR Hr Hr' Ht Hi. destruct (Run_Step s acts s' I HR) as [_ S1].
  destruct (st_append_only _ _ _ S1 Hr Hr' Ht) as [Hlast Hag]. split; [exact Hlast|].
  rewrite base_index_of in Hi. apply Hag; node_simpl; [|lia].
  change (base_of (n_log s') <= i <= last_log_index s). lia.
Qed.

(** Persistence refines memory: carrying out the [Persist*] actions a node has
    emitted, in order, on the durable state it was created from gives exactly the
    term, vote, snapshot and log the node holds. *)
Theorem persist_actions_describe_the_node c p t acts s :
  config_typed c -> persistent_typed p -> Reaches c p t acts s ->
  replay acts p = persistent_of s.
Proof. intros Hc Hp HR. by destruct (Reaches_Step c p t acts s Hc Hp HR) as (_ & _ & ? & _). Qed.

(** C14. A node that has persisted its actions can always be restarted: the
    constructor accepts the durable state and rebuilds the term, the vote, the
    snapshot and the log, with everything above the snapshot uncommitted again. *)
Theorem restart_recovers c p t acts s t' :
  config_typed c -> persistent_typed p -> Reaches c p t acts s ->
  exists s', RaftNode_create c (replay acts p) t' = Ok s' /\
    persistent_of s' = persistent_of s /\ n_log s' = n_log s /\ n_role s' = follower /\
    n_commit_index s' = base_index s /\ n_last_applied s' = base_index s /\
    invariants_hold s' = true.
Proof.
  intros Hc Hp HR. pose proof HR as (s0 & E0 & _).
  destruct (create_Inv c p t s0 Hc Hp E0) as (_ & _ & _ & _ & _ & _ & Hvc & _).
  destruct (Reaches_Step c p t acts s Hc Hp HR) as (I & Hcfg & -> & _).
  destruct (persistent_of_valid s I) as [Hv Hty]. rewrite Hcfg in Hv.
  destruct (create_ok c (persistent_of s) t' Hc Hty Hvc Hv) as (s' & E & I' & P & _ & Hr & Hci & _).
  assert (n_commit_index s' = base_index s) as Hb.
  { rewrite Hci. by rewrite <- (ps_base_of s I). }
  exists s'. split_and!; try done.
  - rewrite (Inv_log_shape s' I'), (Inv_log_shape s I).
    unfold persistent_of in P. injection P as _ _ P1 P2. by rewrite P1, P2.
  - by rewrite (inv_applied _ I').
  - by apply invariants_hold_true.
Qed.

(** C23. The state machine sees every index once and in order: the [ApplyEntry] and
    [ApplySnapshot] actions of a run advance it from the recovered snapshot to
    [last_applied] without a gap or a repetition, every entry handed over is at
    or below the commit index, and those above the current snapshot are the
    log's own entries. *)
Theorem entries_applied_in_order c p t acts s :
  config_typed c -> persistent_typed p -> Reaches c p t acts s ->
  observe (snapshot_index_of (ps_snapshot p)) acts = Some (n_commit_index s) /\
  forall e, ApplyEntry e ∈ acts -> le_index e <= n_commit_index s /\
    (base_index s < le_index e -> log_at (n_log s) (le_index e) = Some e).
Proof.
  intros Hc Hp HR. destruct (Reaches_Step c p t acts s Hc Hp HR) as (I & _ & _ & Ho).
  rewrite <- (inv_applied _ I). split; [done|]. rewrite (inv_applied _ I).
  destruct HR as (s0 & E & HR). destruct (create_Inv c p t s0 Hc Hp E) as (I0 & _).
  destruct (Run_Step s0 acts s I0 HR) as [_ S1]. apply (st_applied _ _ _ S1).
Qed.

(** C22. [AppendEntries] is answered exactly once, and an answer that claims success
    is true: the node's log then holds the term the leader named at the previous
    index and every entry of the request at its index, and its commit index is
    what the leader's commit index allows within the request.  A refusal changes
    neither log nor commit index. *)
Theorem append_entries_answer_is_true from r s :
  Inv s -> Room s -> from ∈ cfg_voters (n_config s) -> from <> self_id s ->
  message_typed (MAppendEntries r) ->
  exists pre resp s',
    RaftNode_step from (MAppendEntries r) s =
      (s', Ok (pre ++ [SendMessage from (MAppendEntriesResponse resp)])) /\ Silent pre /\
    aer_rpc_id resp = ae_rpc_id r /\ aer_term resp = n_current_term s' /\
    n_current_term s' = Z.max (n_current_term s) (ae_term r) /\
    if aer_success resp
    then Accepted s' r /\ n_role s' = follower /\
         aer_match_index resp = ae_previous_log_index r + size_of (ae_entries r) /\
         n_commit_index s' =
           Z.max (n_commit_index s) (Z.min (ae_leader_commit r) (aer_match_index resp))
    else n_commit_index s' = n_commit_index s /\ n_log s' = n_log s.
Proof.
  intros I Hroom Hin Hne Hm. set (s0 := set_actions [] s).
  destruct (enter_term from (MAppendEntries r) s0 (Inv_actions [] s I) Hin
    (message_term_range _ Hm)) as (n1 & s1 & R1 & Hs1 & Ht1 & Hl1 & Hc1 & Hci1 & _).
  destruct (handle_append_entries_answers from r s1) as
    (n2 & resp & s2 & R2 & Hs2 & Ht & Hrpc & Ht2 & _ & Hok); [apply R1|by rewrite Hc1|done|cbn in Ht1; lia|].
  pose proof (st_actions _ _ _ (proj2 (proj2 R1))) as A1.
  pose proof (st_actions _ _ _ (proj2 (proj2 R2))) as A2. rewrite A1 in A2. cbn [app] in A2.
  change (n_actions s0) with (@nil Action) in A2. cbn [app] in A2. rewrite app_assoc in A2.
  exists (n1 ++ n2), resp, (set_actions [] s2). split_and!; try done.
  - unfold RaftNode_step. unfold bind at 1, modify. unfold bind at 1. fold s0. unfold Impl_step.
    unfold bind at 1, get. rewrite bool_decide_eq_false_2 by done. unfold is_voter.
    rewrite bool_decide_eq_true_2 by done. cbn [orb negb]. unfold bind at 1. rewrite (proj1 R1).
    cbn [handle]. rewrite (proj1 R2), finish_eq by apply R2. by rewrite A2.
  - by apply Msgs_app.
  - cbn. rewrite Ht2, Ht1. done.
  - destruct (aer_success resp); rewrite Hci1, ?Hl1 in Hok; exact Hok.
Qed.

(** C24. The commit rule: a leader advances its commit index only to an entry of its
    own term that a quorum of the voters is known to hold, to the highest such
    entry, and applies exactly what it commits. *)
Theorem leader_commits_by_quorum_in_its_term s :
  Inv s ->
  exists b s', advance_leader_commit s = (s', Ok b) /\
    n_commit_index s <= n_commit_index s' <= last_log_index s /\
    n_last_applied s' = n_commit_index s' /\ n_log s' = n_log s /\
    (b = true -> term_at (n_log s) (n_commit_index s') = Some (n_current_term s) /\
       quorum s <= replicated s (n_commit_index s')) /\
    (b = false -> n_commit_index s' = n_commit_index s) /\
    (forall i, n_commit_index s' < i <= last_log_index s ->
       term_at (n_log s) i = Some (n_current_term s) -> replicated s i < quorum s).
Proof.
  intros I. destruct (advance_leader_commit_runs s I) as (b & c & new & _ & (E & _) & Hc & Hq & Hf & Hm).
  eexists b, _. split_and!; [exact E|apply Hc..|done|done|exact Hq|exact Hf|exact Hm].
Qed.

(** C26. [compact] accepts exactly the snapshots of applied entries beyond the current
    boundary whose term is the log's; it then keeps every later entry and asks
    for the snapshot to be persisted, and otherwise throws without touching the
    node's state. *)
Theorem compact_accepts_exactly_applied_prefixes d s :
  Inv s -> is_u64 (sm_last_included_index d) ->
  if bool_decide (compactable s d)
  then exists s', RaftNode_compact d s = (s', Ok [PersistSnapshot d]) /\
         base_index s' = sm_last_included_index d /\ last_log_index s' = last_log_index s /\
         n_durable_snapshot s' = Some d /\ n_commit_index s' = n_commit_index s /\
         forall i, sm_last_included_index d < i -> log_at (n_log s') i = log_at (n_log s) i
  else RaftNode_compact d s = (set_actions [] s, Throw invalid_argument).
Proof.
  intros I Hu. case_bool_decide as Hc; [|by apply compact_refused].
  destruct (compact_performs d s I Hc) as (E & _ & S1 & _).
  exists (set_actions [] (compacted s d)). split_and!; try done.
  - apply (installed_log_last s d I Hc).
  - intros i Hi. destruct (compactable_entry s d I Hc) as (e & He & Ht & _ & Hu').
    change (log_at (installed_log s d) i = log_at (n_log s) i).
    unfold installed_log. rewrite Hu', <- Ht. rewrite base_index_of in *.
    apply (agree_upto_compact i); [|exact He|cbn; lia|cbn; lia].
    destruct Hc as (Hb & _). rewrite <- base_index_of. lia.
Qed.

(** When a candidate may have this node's vote. *)
Definition deserves_vote (s : Impl) (from : NodeId) (r : RequestVote) : Prop :=
  rv_term r <> 0 /\ n_current_term s <= rv_term r /\ rv_candidate_id r = from /\
  (n_current_term s < rv_term r \/ n_voted_for s = None \/ n_voted_for s = Some from) /\
  (last_log_term s < rv_last_log_term r \/
   rv_last_log_term r = last_log_term s /\ last_log_index s <= rv_last_log_index r).

Lemma grants_vote_spec s s1 from r :
  n_current_term s1 = Z.max (n_current_term s) (rv_term r) -> n_log s1 = n_log s ->
  (n_current_term s < rv_term r -> n_voted_for s1 = None) ->
  (rv_term r <= n_current_term s -> n_voted_for s1 = n_voted_for s) ->
  grants_vote s1 from r = true <-> deserves_vote s from r.
Proof.
  intros Ht Hl Hv1 Hv2. unfold grants_vote, deserves_vote, last_log_term, last_log_index, log_back.
  rewrite Hl, !andb_true_iff, !orb_true_iff, !andb_true_iff, !bool_decide_eq_true, negb_true_iff,
    Z.eqb_neq, !Z.eqb_eq, Z.ltb_lt, Z.leb_le.
  destruct (Z.lt_ge_cases (n_current_term s) (rv_term r)) as [Hlt|Hge].
  - rewrite (Hv1 Hlt), Ht, Z.max_r by lia. intuition lia.
  - rewrite (Hv2 Hge), Ht, Z.max_l by lia. intuition lia.
Qed.

(** A vote is granted exactly to a candidate of a term not in the past, that the
    node has not voted against in that term, and whose log is at least as up to
    date as its own.  The request is answered once, and the vote is persisted
    before the answer. *)
Theorem votes_go_to_up_to_date_candidates from r s :
  Inv s -> from ∈ cfg_voters (n_config s) -> from <> self_id s -> is_u64 (rv_term r) ->
  exists pre granted s',
    RaftNode_step from (MRequestVote r) s =
      (s', Ok (pre ++ [SendMessage from (MRequestVoteResponse
         (mkRequestVoteResponse (Z.max (n_current_term s) (rv_term r)) granted))])) /\ Silent pre /\
    (granted = true <-> deserves_vote s from r) /\
    (granted = true -> ps_voted_for (replay pre (persistent_of s)) = Some from /\
       ps_current_term (replay pre (persistent_of s)) = rv_term r).
Proof.
  intros I Hin Hne Hm. set (s0 := set_actions [] s).
  destruct (enter_term from (MRequestVote r) s0 (Inv_actions [] s I) Hin
    (message_term_range (MRequestVote r) Hm)) as
    (n1 & s1 & R1 & Hs1 & Ht1 & Hl1 & Hc1 & _ & _ & Hhi & Hlo). cbn [message_term] in *.
  assert (grants_vote s1 from r = true <-> deserves_vote s from r) as Hg.
  { apply grants_vote_spec; [exact Ht1|exact Hl1|by intros [_ ?]%Hhi|]. intros Hle. by rewrite (Hlo Hle). }
  destruct (handle_request_vote_runs from r s1) as (n2 & s2 & R2 & Hs2 & Hv2 & Ht2 & _);
    [apply R1|by rewrite Hc1|unfold self_id; by rewrite Hc1|].
  rewrite Ht1 in R2. change (n_current_term s0) with (n_current_term s) in *.
  pose proof (st_actions _ _ _ (proj2 (proj2 R1))) as A1.
  pose proof (st_actions _ _ _ (proj2 (proj2 R2))) as A2. rewrite A1 in A2.
  change (n_actions s0) with (@nil Action) in A2. cbn [app] in A2. rewrite app_assoc in A2.
  exists (n1 ++ n2), (grants_vote s1 from r), (set_actions [] s2). split_and!; try done.
  - unfold RaftNode_step. unfold bind at 1, modify. unfold bind at 1. fold s0. unfold Impl_step.
    unfold bind at 1, get. rewrite bool_decide_eq_false_2 by done. unfold is_voter.
    rewrite bool_decide_eq_true_2 by done. cbn [orb negb]. unfold bind at 1. cbn [message_term].
    change (n_current_term s0) with (n_current_term s). rewrite (proj1 R1). cbn [handle]. rewrite (proj1 R2), finish_eq by apply R2. by rewrite A2.
  - by apply Msgs_app.
  - intros Eg. pose proof (st_persist _ _ _ (proj2 (proj2 R1))) as P1.
    pose proof (st_persist _ _ _ (proj2 (proj2 R2))) as P2. rewrite replay_app in P2. cbn in P2.
    rewrite replay_app. change (persistent_of s) with (persistent_of s0). rewrite P1, P2.
    apply Hg in Eg as Hd. destruct Hd as (_ & Hle & _). rewrite Eg in Hv2. cbn. rewrite Hv2, Ht2, Ht1. split; [done|lia].
Qed.

(** ** Snapshot transfer *)

(** The request carries a chunk of the image [X]. *)
Definition chunk_of (X : list byte) (r : InstallSnapshot) : Prop :=
  0 <= ins_offset r /\ ins_total_size r = size_of X /\
  ins_data r = take (length (ins_data r)) (drop (Z.to_nat (ins_offset r)) X).

(** The transfer [incoming] is the one the request belongs to. *)
Definition same_transfer (from : NodeId) (r : InstallSnapshot) (incoming : IncomingSnapshot) : Prop :=
  in_leader_id incoming = from /\ in_last_included_index incoming = ins_last_included_index r /\
  in_last_included_term incoming = ins_last_included_term r /\
  in_total_size incoming = ins_total_size r.

Definition assembles (X : list byte) (from : NodeId) (r : InstallSnapshot) (s : Impl) : Prop :=
  forall incoming, n_incoming_snapshot s = Some incoming -> same_transfer from r incoming ->
    in_bytes incoming `prefix_of` X.

Lemma chunk_extends X r bytes :
  chunk_of X r -> bytes `prefix_of` X -> size_of bytes = ins_offset r ->
  (bytes ++ ins_data r) `prefix_of` X /\
  (ins_offset r + size_of (ins_data r) = ins_total_size r -> bytes ++ ins_data r = X).
Proof.
  unfold size_of. intros (Ho & Ht & Hd) [rest ->] Hs. rewrite <- Hs, Nat2Z.id, drop_app_length in Hd.
  rewrite Hd at 1 3. split.
  - exists (drop (length (ins_data r)) rest). by rewrite <- app_assoc, take_drop.
  - intros Hlen. rewrite Ht in Hlen. unfold size_of in Hlen. rewrite length_app in Hlen.
    by rewrite take_ge by lia.
Qed.

Lemma entry_at_pure i (s : Impl) : exists r, entry_at i s = (s, r).
Proof. unfold entry_at, bind, get. destruct (_ || _); [by eexists|]. case_match; by eexists. Qed.

Lemma install_complete_fields d s s' :
  install_complete_snapshot d s = (s', Ok tt) ->
  n_incoming_snapshot s' = None /\ n_durable_snapshot s' = Some d.
Proof.
  unfold install_complete_snapshot. unfold bind at 1, modify. unfold bind at 1, get.
  set (s1 := set_incoming_snapshot None s). destruct (_ && _).
  - destruct (entry_at_pure (sm_last_included_index d) s1) as [[e|x] E]; run; rewrite E; [|done].
    by intros [= <-].
  - run. by intros [= <-].
Qed.

(** C25. A snapshot sent in chunks arrives whole: while every chunk of a transfer is
    cut from one image, what has been collected is a prefix of that image, and the
    snapshot finally installed is the image itself, at the index and term the
    leader named. *)
Theorem snapshot_transfer_is_exact X from r s s' :
  Inv s -> from ∈ cfg_voters (n_config s) -> chunk_of X r -> assembles X from r s ->
  handle_install_snapshot from r s = (s', Ok tt) ->
  assembles X from r s' /\
  (n_durable_snapshot s' = n_durable_snapshot s \/
   n_durable_snapshot s' =
     Some (mkStateMachineSnapshot (ins_last_included_index r) (ins_last_included_term r) X)).
Proof.
  intros I Hin HX Hpre. unfold handle_install_snapshot. unfold bind at 1, get.
  destruct (malformed_snapshot_request s from r) eqn:Em; [intros [= <-]; by split; [|left]|].
  destruct (follow_leader_runs from s I Hin) as (n1 & s1 & R1 & _ & _ & _ & _ & _ & _ & _ & _ & Hd1 & Hi1).
  unfold bind at 1. rewrite (proj1 R1). unfold bind at 1.
  assert (assembles X from r s1) as Hpre1 by (unfold assembles; by rewrite Hi1).
  destruct (_ <=? _); [intros [= <-]; split; [done|by left]|].
  set (begin := mkIncomingSnapshot from _ _ _ []).
  assert (exists s2, when (ins_offset r =? 0) (modify (set_incoming_snapshot (Some begin))) s1 = (s2, Ok tt) /\
    assembles X from r s2 /\ n_durable_snapshot s2 = n_durable_snapshot s) as (s2 & E2 & Hpre2 & Hd2).
  { destruct (_ =? _); cbn [when]; eexists; split_and!; try done.
    intros incoming [= <-] _. apply prefix_nil. }
  unfold bind at 1. rewrite E2. unfold bind at 1.
  destruct (n_incoming_snapshot s2) as [incoming|] eqn:Ei; [|intros [= <-]; by split; [|left]].
  destruct (_ || _) eqn:Eg; [intros [= <-]; split; [exact Hpre2|by left]|].
  rewrite !orb_false_iff, !negb_false_iff, !Z.eqb_eq in Eg. destruct Eg as ((((G1 & G2) & G3) & G4) & G5).
  destruct (chunk_extends X r (in_bytes incoming) HX) as [Hnext Hwhole]; [by apply Hpre2|done|].
  unfold bind at 1, modify. destruct (ins_done r) eqn:Edone; cbn [negb].
  2:{ intros [= <-]. split; [|by left]. by intros x [= <-] _. }
  unfold bind. destruct (install_complete_snapshot _ _) as [s3 [[]|]] eqn:E3; [|done].
  apply install_complete_fields in E3 as [Hnone Hdur].
  intros [= <-]. split; [intros x Hx; cbn in Hx; congruence|]. right. cbn. rewrite Hdur. do 2 f_equal.
  apply Hwhole. unfold malformed_snapshot_request in Em. rewrite !orb_false_iff, Edone in Em.
  destruct Em as (_ & Em). apply negb_false_iff, eqb_prop in Em. by apply Z.eqb_eq.
Qed.
End Theorems.
