(* ===== verification/RaftWitnesses.v ===== *)
(** * Concrete runs of a Raft node

    One voter of a cluster of three, run on concrete messages: the hypotheses of
    the theorems about a node hold together on these states. *)

From S2P Require Import Prelude RaftTypes RaftNode RaftInvariant RaftStep RaftHandlers RaftSafety.
From S2P Require Import ElectionSafety RaftTheorems.

(** A generator that always draws the lower bound. *)
Definition lower_bound_random : UniformRandom :=
  {| engine := unit; seed_engine := fun _ => tt; uniform_draw := fun _ a _ => (a, tt);
     uniform_draw_range := fun _ a b H => conj (Z.le_refl a) H |}.

#[local] Existing Instance lower_bound_random.

Definition example_config : RaftConfig :=
  {| cfg_self_id := 1; cfg_cluster_id := 1; cfg_voters := [1; 2; 3];
     cfg_election_timeout_min := 10; cfg_election_timeout_max := 20; cfg_heartbeat_interval := 3;
     cfg_random_seed := 7; cfg_max_append_entries := 4096; cfg_max_append_bytes := 1049768 |}.

Lemma example_config_typed : config_typed example_config.
Proof. split; by vm_compute. Qed.

Lemma example_persistent_typed : persistent_typed empty_persistent_state.
Proof. split_and!; by vm_compute. Qed.

Definition blank : Impl :=
  mkImpl example_config follower 0 None None None [] 0 0 0 0 0 tt ∅ ∅ None 1 [].

Definition example_node : Impl :=
  match RaftNode_create example_config empty_persistent_state 0 with Ok s => s | Throw _ => blank end.

Lemma example_node_created :
  RaftNode_create example_config empty_persistent_state 0 = Ok example_node.
Proof. by vm_compute. Qed.

Lemma example_node_Inv : Inv example_node.
Proof.
  apply (create_Inv example_config empty_persistent_state 0);
    [apply example_config_typed|apply example_persistent_typed|apply example_node_created].
Qed.

(** Playing a list of operations. *)
Fixpoint play (ops : list Op) (s : Impl) : Actions * Impl :=
  match ops with
  | [] => ([], s)
  | op :: rest =>
      match perform op s with
      | (s', Ok new) => let '(acts, s2) := play rest s' in (new ++ acts, s2)
      | (s', Throw _) => play rest s'
      end
  end.

Definition room_b (s : Impl) : bool :=
  (last_log_index s + 1 <? u64_max) && (n_next_rpc_id s + 7 <=? u64_max).

Fixpoint play_in_room (ops : list Op) (s : Impl) : bool :=
  match ops with
  | [] => true
  | op :: rest => room_b s && play_in_room rest (perform op s).1
  end.

Lemma room_b_Room s : room_b s = true -> Room s.
Proof. intros [?%Z.ltb_lt ?%Z.leb_le]%andb_true_iff. by constructor. Qed.

Lemma Run_app s1 a s2 b s3 : Run s1 a s2 -> Run s2 b s3 -> Run s1 (a ++ b) s3.
Proof.
  intros H1 H2. induction H2 as [|acts s op new s' _ IH|acts s op e s' _ IH].
  - by rewrite app_nil_r.
  - rewrite app_assoc. by eapply run_op.
  - by eapply run_refused.
Qed.

Lemma play_Run ops s :
  Forall op_typed ops -> play_in_room ops s = true -> Run s (play ops s).1 (play ops s).2.
Proof.
  intros Ht. revert s. induction Ht as [|op ops Hop _ IH]; intros s Hroom; [constructor|].
  cbn [play play_in_room] in *. apply andb_true_iff in Hroom as [Hr%room_b_Room Hrest].
  destruct (perform op s) as [s' [new|e]] eqn:E; cbn in Hrest; specialize (IH s' Hrest).
  - destruct (play ops s') as [acts s2] eqn:Ep. cbn in *.
    eapply (Run_app _ new s'); [|exact IH]. apply (run_op _ [] s op new s'); [constructor|done..].
  - apply (Run_app _ [] s'); [|exact IH]. apply (run_refused _ [] s op e s'); [constructor|done..].
Qed.

(** Winning an election against node 2, committing its no-op and a command. *)
Definition elected_ops : list Op :=
  [OpAdvanceTime 10;
   OpStep 2 (MRequestVoteResponse (mkRequestVoteResponse 1 true));
   OpStep 2 (MAppendEntriesResponse (mkAppendEntriesResponse 1 true 1 0 1));
   OpPropose [Byte.x41];
   OpStep 3 (MAppendEntriesResponse (mkAppendEntriesResponse 1 true 2 0 6))].

Definition elected : Actions * Impl := play elected_ops example_node.

Lemma elected_ops_typed : Forall op_typed elected_ops.
Proof. repeat constructor; by vm_compute. Qed.

Lemma elected_Run : Run example_node elected.1 elected.2.
Proof. apply play_Run; [apply elected_ops_typed|by vm_compute]. Qed.

Lemma elected_Reaches : Reaches example_config empty_persistent_state 0 elected.1 elected.2.
Proof. exists example_node. split; [apply example_node_created|apply elected_Run]. Qed.

Lemma elected_Inv : Inv elected.2.
Proof. exact (proj1 (Run_Step example_node elected.1 elected.2 example_node_Inv elected_Run)). Qed.

Lemma elected_Room : Room elected.2.
Proof. apply room_b_Room. by vm_compute. Qed.

Lemma operations_never_violate_invariants_witness :
  (exists new s', perform (OpPropose []) elected.2 = (s', Ok new) /\ invariants_hold s' = true) \/
  (exists e s', perform (OpPropose []) elected.2 = (s', Throw e) /\
     refused (OpPropose []) elected.2 e /\ invariants_hold s' = true).
Proof.
  exact (operations_never_violate_invariants example_config empty_persistent_state 0 elected.1 elected.2
    (OpPropose []) example_config_typed example_persistent_typed elected_Reaches elected_Room I).
Defined.

Lemma hard_state_monotone_witness :
  n_current_term example_node <= n_current_term elected.2 /\
  (n_current_term elected.2 = n_current_term example_node ->
   forall v, n_voted_for example_node = Some v -> n_voted_for elected.2 = Some v).
Proof. exact (hard_state_monotone example_node elected.1 elected.2 example_node_Inv elected_Run). Defined.

(** Node 1 votes for node 2 and repeats its answer to a repeated request. *)
Definition vote_request : RequestVote := mkRequestVote 4 2 0 0.
Definition voted_ops : list Op := [OpStep 2 (MRequestVote vote_request); OpStep 2 (MRequestVote vote_request)].
Definition voted : Actions * Impl := play voted_ops example_node.

Lemma voted_Run : Run example_node voted.1 voted.2.
Proof. apply play_Run; [repeat constructor; by vm_compute|by vm_compute]. Qed.

Lemma one_vote_per_term_witness : (2 : NodeId) = 2.
Proof.
  refine (one_vote_per_term example_node voted.1 voted.2 2 (mkRequestVoteResponse 4 true)
    2 (mkRequestVoteResponse 4 true) example_node_Inv voted_Run _ eq_refl _ eq_refl eq_refl).
  - apply (bool_decide_unpack _). vm_compute. exact I.
  - apply (bool_decide_unpack _). vm_compute. exact I.
Defined.

(** The leader after one more proposal. *)
Definition extended : Actions * Impl := play [OpPropose [Byte.x42]] elected.2.

Lemma extended_Run : Run elected.2 extended.1 extended.2.
Proof. apply play_Run; [repeat constructor; by vm_compute|by vm_compute]. Qed.


Lemma leader_append_only_witness :
  last_log_index elected.2 <= last_log_index extended.2 /\
  log_at (n_log extended.2) 2 = log_at (n_log elected.2) 2.
Proof.
  apply (leader_append_only elected.2 extended.1 extended.2 2 elected_Inv extended_Run);
    by vm_compute.
Defined.

Lemma persist_actions_describe_the_node_witness :
  replay elected.1 empty_persistent_state = persistent_of elected.2.
Proof.
  exact (persist_actions_describe_the_node example_config empty_persistent_state 0 elected.1 elected.2
    example_config_typed example_persistent_typed elected_Reaches).
Defined.

Lemma restart_recovers_witness :
  exists s', RaftNode_create example_config (replay elected.1 empty_persistent_state) 99 = Ok s' /\
    persistent_of s' = persistent_of elected.2 /\ n_log s' = n_log elected.2 /\
    n_role s' = follower /\ n_commit_index s' = base_index elected.2 /\
    n_last_applied s' = base_index elected.2 /\ invariants_hold s' = true.
Proof.
  exact (restart_recovers example_config empty_persistent_state 0 elected.1 elected.2 99
    example_config_typed example_persistent_typed elected_Reaches).
Defined.

Lemma entries_applied_in_order_witness :
  observe 0 elected.1 = Some (n_commit_index elected.2) /\
  forall e, ApplyEntry e ∈ elected.1 -> le_index e <= n_commit_index elected.2 /\
    (base_index elected.2 < le_index e -> log_at (n_log elected.2) (le_index e) = Some e).
Proof.
  exact (entries_applied_in_order example_config empty_persistent_state 0 elected.1 elected.2
    example_config_typed example_persistent_typed elected_Reaches).
Defined.

(** A leader's first request to an empty follower. *)
Definition append_request : AppendEntries :=
  {| ae_term := 3; ae_leader_id := 2; ae_previous_log_index := 0; ae_previous_log_term := 0;
     ae_entries := [mkLogEntry 1 3 no_op []]; ae_leader_commit := 1; ae_rpc_id := 9 |}.

Lemma example_node_Room : Room example_node.
Proof. apply room_b_Room. by vm_compute. Qed.

Lemma append_entries_answer_is_true_witness :
  exists pre resp s',
    RaftNode_step 2 (MAppendEntries append_request) example_node =
      (s', Ok (pre ++ [SendMessage 2 (MAppendEntriesResponse resp)])) /\ Silent pre /\
    aer_rpc_id resp = ae_rpc_id append_request /\ aer_term resp = n_current_term s' /\
    n_current_term s' = Z.max (n_current_term example_node) (ae_term append_request) /\
    if aer_success resp
    then Accepted s' append_request /\ n_role s' = follower /\
         aer_match_index resp =
           ae_previous_log_index append_request + size_of (ae_entries append_request) /\
         n_commit_index s' = Z.max (n_commit_index example_node)
           (Z.min (ae_leader_commit append_request) (aer_match_index resp))
    else n_commit_index s' = n_commit_index example_node /\ n_log s' = n_log example_node.
Proof.
  apply (append_entries_answer_is_true 2 append_request example_node example_node_Inv example_node_Room).
  - apply (bool_decide_unpack _). by vm_compute.
  - by vm_compute.
  - split_and!; [by vm_compute..|by repeat constructor].
Defined.

Lemma leader_commits_by_quorum_in_its_term_witness :
  exists b s', advance_leader_commit elected.2 = (s', Ok b) /\
    n_commit_index elected.2 <= n_commit_index s' <= last_log_index elected.2 /\
    n_last_applied s' = n_commit_index s' /\ n_log s' = n_log elected.2 /\
    (b = true -> term_at (n_log elected.2) (n_commit_index s') = Some (n_current_term elected.2) /\
       quorum elected.2 <= replicated elected.2 (n_commit_index s')) /\
    (b = false -> n_commit_index s' = n_commit_index elected.2) /\
    (forall i, n_commit_index s' < i <= last_log_index elected.2 ->
       term_at (n_log elected.2) i = Some (n_current_term elected.2) ->
       replicated elected.2 i < quorum elected.2).
Proof. exact (leader_commits_by_quorum_in_its_term elected.2 elected_Inv). Defined.

(** A snapshot of the first applied entry. *)
Definition example_snapshot : StateMachineSnapshot := mkStateMachineSnapshot 1 1 [Byte.x00].

Lemma compact_accepts_exactly_applied_prefixes_witness :
  if bool_decide (compactable elected.2 example_snapshot)
  then exists s', RaftNode_compact example_snapshot elected.2 = (s', Ok [PersistSnapshot example_snapshot]) /\
         base_index s' = sm_last_included_index example_snapshot /\
         last_log_index s' = last_log_index elected.2 /\
         n_durable_snapshot s' = Some example_snapshot /\
         n_commit_index s' = n_commit_index elected.2 /\
         forall i, sm_last_included_index example_snapshot < i ->
           log_at (n_log s') i = log_at (n_log elected.2) i
  else RaftNode_compact example_snapshot elected.2 = (set_actions [] elected.2, Throw invalid_argument).
Proof.
  apply (compact_accepts_exactly_applied_prefixes example_snapshot elected.2 elected_Inv). by vm_compute.
Defined.

Lemma votes_go_to_up_to_date_candidates_witness :
  exists pre granted s',
    RaftNode_step 2 (MRequestVote vote_request) example_node =
      (s', Ok (pre ++ [SendMessage 2 (MRequestVoteResponse (mkRequestVoteResponse
         (Z.max (n_current_term example_node) (rv_term vote_request)) granted))])) /\ Silent pre /\
    (granted = true <-> deserves_vote example_node 2 vote_request) /\
    (granted = true -> ps_voted_for (replay pre (persistent_of example_node)) = Some 2 /\
       ps_current_term (replay pre (persistent_of example_node)) = rv_term vote_request).
Proof.
  apply (votes_go_to_up_to_date_candidates 2 vote_request example_node example_node_Inv).
  - apply (bool_decide_unpack _). by vm_compute.
  - by vm_compute.
  - by vm_compute.
Defined.

(** A one-chunk transfer of a two-byte image. *)
Definition snapshot_request : InstallSnapshot :=
  {| ins_term := 5; ins_leader_id := 3; ins_last_included_index := 8; ins_last_included_term := 4;
     ins_total_size := 2; ins_offset := 0; ins_data := [Byte.x01; Byte.x02]; ins_done := true;
     ins_rpc_id := 1 |}.

Definition installed_example : Impl :=
  (handle_install_snapshot 3 snapshot_request (set_current_term 5 example_node)).1.

Lemma example_term_Inv : Inv (set_current_term 5 example_node).
Proof.
  pose proof example_node_Inv as H. destruct H. constructor; node_simpl; try done.
  eapply LogInv_mono; [|exact inv_log]. by vm_compute.
Qed.

Lemma snapshot_transfer_is_exact_witness :
  assembles [Byte.x01; Byte.x02] 3 snapshot_request installed_example /\
  (n_durable_snapshot installed_example = n_durable_snapshot (set_current_term 5 example_node) \/
   n_durable_snapshot installed_example = Some (mkStateMachineSnapshot 8 4 [Byte.x01; Byte.x02])).
Proof.
  apply (snapshot_transfer_is_exact [Byte.x01; Byte.x02] 3 snapshot_request
    (set_current_term 5 example_node) installed_example example_term_Inv).
  - apply (bool_decide_unpack _). by vm_compute.
  - split_and!; by vm_compute.
  - intros incoming Hx. by vm_compute in Hx.
  - by vm_compute.
Defined.

(** ** An election among three nodes *)

Definition trio : list NodeId := [1; 2; 3].

Definition trio_config (i : NodeId) : RaftConfig :=
  mkRaftConfig i 1 trio 10 20 3 7 4096 1049768.

Definition trio_start (i : NodeId) (cl : Cluster) : Cluster :=
  match RaftNode_create (trio_config i) (cl_disks cl i) 0 with
  | Ok s => mkCluster (<[i := s]> (cl_nodes cl)) (cl_disks cl) (cl_net cl)
  | Throw _ => cl
  end.

Definition trio_operate (i : NodeId) (op : Op) (cl : Cluster) : Cluster :=
  match cl_nodes cl !! i with
  | Some s =>
      match perform op s with
      | (s', Ok acts) => mkCluster (<[i := s']> (cl_nodes cl))
          (set_disk i (replay acts (cl_disks cl i)) (cl_disks cl)) (cl_net cl ++ sends_of i acts)
      | (_, Throw _) => cl
      end
  | None => cl
  end.

Lemma trio_operate_step i op cl :
  match cl_nodes cl !! i with
  | Some s => room_b s && match perform op s with (_, Ok _) => true | _ => false end
  | None => false
  end = true ->
  arrives i op (cl_net cl) -> op_typed op -> cstep trio_config trio cl (trio_operate i op cl).
Proof.
  unfold trio_operate. destruct (cl_nodes cl !! i) as [s|] eqn:Es; [|done].
  destruct (perform op s) as [s' [acts|e]] eqn:E; rewrite ?andb_false_r; [|done].
  rewrite andb_true_r. intros Hr Harr Hop.
  by apply (c_operation trio_config trio cl i s op acts s' Es Harr (room_b_Room s Hr) Hop).
Qed.

Definition trio0 : Cluster := mkCluster ∅ (fun _ => empty_persistent_state) [].
Definition trio1 : Cluster := trio_start 1 trio0.
Definition trio2 : Cluster := trio_start 2 trio1.
Definition trio3 : Cluster := trio_operate 1 (OpAdvanceTime 10) trio2.
Definition trio4 : Cluster := trio_operate 2 (OpStep 1 (MRequestVote (mkRequestVote 1 1 0 0))) trio3.
Definition trio5 : Cluster :=
  trio_operate 1 (OpStep 2 (MRequestVoteResponse (mkRequestVoteResponse 1 true))) trio4.

Lemma trio_Execution : Execution trio_config trio [trio5; trio4; trio3; trio2; trio1; trio0].
Proof.
  apply ex_step; [apply ex_step; [apply ex_step; [apply ex_step; [apply ex_step; [apply ex_start|]|]|]|]|].
  - eapply (c_start _ _ _ 1 0); [by left|done|split_and!; by vm_compute|by vm_compute].
  - eapply (c_start _ _ _ 2 0); [by right; left|by vm_compute|split_and!; by vm_compute|by vm_compute].
  - apply trio_operate_step; by vm_compute.
  - apply trio_operate_step; [by vm_compute|cbn [arrives]; apply (bool_decide_unpack _); by vm_compute|by vm_compute].
  - apply trio_operate_step; [by vm_compute|cbn [arrives]; apply (bool_decide_unpack _); by vm_compute|by vm_compute].
Qed.

Lemma trio_leads : leads trio5 1 1.
Proof.
  destruct (cl_nodes trio5 !! (1 : NodeId)) as [s|] eqn:E; [|by vm_compute in E].
  exists s. split; [done|]. revert E. vm_compute. intros [= <-]. done.
Qed.

Lemma election_safety_witness : (1 : NodeId) = 1.
Proof.
  refine (election_safety trio_config trio _ _ _ [trio5; trio4; trio3; trio2; trio1; trio0]
    trio5 trio5 1 1 1 trio_Execution _ _ trio_leads trio_leads).
  - done.
  - done.
  - intros i _. split; by vm_compute.
  - by left.
  - by left.
Defined.
