(* ===== verification/ConsensusWitnesses.v ===== *)
(** * A run of three nodes

    A cluster that elects a leader, commits and applies entries on two nodes and
    then elects another leader, computed from the code; the consensus theorems are
    applied to it. *)

From S2P Require Import Prelude RaftTypes RaftNode RaftInvariant RaftStep RaftHandlers RaftSafety ElectionSafety LogTree AbstractRaft RaftRefinement ConsensusSafety RaftWitnesses.

#[local] Existing Instance lower_bound_random.

#[export] Instance message_typed_dec m : Decision (message_typed m).
Proof. destruct m; unfold message_typed, is_u64; apply _. Defined.

#[export] Instance op_typed_dec op : Decision (op_typed op).
Proof. destruct op; unfold op_typed; apply _. Defined.

(** What may happen next: a node starts or crashes, its clock advances, the [k]-th message on
    the network is delivered, or a client submits a command. *)
Inductive Event :=
| Start (i : NodeId)
| Crash (i : NodeId)
| Tick (i : NodeId) (t : LogicalTime)
| Deliver (k : nat)
| Submit (i : NodeId) (cmd : list byte).

Definition event_operation (ev : Event) (cl : Cluster) : option (NodeId * Op) :=
  match ev with
  | Start _ | Crash _ => None
  | Tick i t => Some (i, OpAdvanceTime t)
  | Deliver k => (fun '(from, to, m) => (to, OpStep from m)) <$> cl_net cl !! k
  | Submit i cmd => Some (i, OpPropose cmd)
  end.

Definition operates (i : NodeId) (op : Op) (cl : Cluster) : option Cluster :=
  match cl_nodes cl !! i with
  | Some s =>
      match perform op s with
      | (s', Ok acts) =>
          if room_b s && bool_decide (op_typed op)
          then Some (mkCluster (<[i := s']> (cl_nodes cl))
            (set_disk i (replay acts (cl_disks cl i)) (cl_disks cl)) (cl_net cl ++ sends_of i acts))
          else None
      | _ => None
      end
  | None => None
  end.

Definition happens (ev : Event) (cl : Cluster) : option Cluster :=
  match ev with
  | Start i =>
      match cl_nodes cl !! i, RaftNode_create (trio_config i) (cl_disks cl i) 0 with
      | None, Ok s =>
          if bool_decide (i ∈ trio) && bool_decide (persistent_typed (cl_disks cl i))
          then Some (mkCluster (<[i := s]> (cl_nodes cl)) (cl_disks cl) (cl_net cl)) else None
      | _, _ => None
      end
  | Crash i => Some (mkCluster (delete i (cl_nodes cl)) (cl_disks cl) (cl_net cl))
  | _ => match event_operation ev cl with Some (i, op) => operates i op cl | None => None end
  end.

(** The history of a list of events, the latest first. *)
Fixpoint unfolds (evs : list Event) (h : list Cluster) : option (list Cluster) :=
  match evs, h with
  | [], _ => Some h
  | ev :: rest, cl :: _ => match happens ev cl with Some cl' => unfolds rest (cl' :: h) | None => None end
  | _, [] => None
  end.

Lemma event_operation_arrives ev cl i op : event_operation ev cl = Some (i, op) -> arrives i op (cl_net cl).
Proof.
  intros H. destruct ev as [| | |k|]; cbn in H; try done; [by injection H as <- <-| |by injection H as <- <-].
  destruct (cl_net cl !! k) as [[[from to] m]|] eqn:E; [|done]. injection H as <- <-.
  by apply (list_elem_of_lookup_2 _ k).
Qed.

Lemma operates_facts i op cl cl' :
  operates i op cl = Some cl' -> exists s s' acts, cl_nodes cl !! i = Some s /\ Room s /\ op_typed op /\
    perform op s = (s', Ok acts) /\ cl' = mkCluster (<[i := s']> (cl_nodes cl))
      (set_disk i (replay acts (cl_disks cl i)) (cl_disks cl)) (cl_net cl ++ sends_of i acts).
Proof.
  unfold operates. destruct (cl_nodes cl !! i) as [s|] eqn:Es; [|done].
  destruct (perform op s) as [s' [acts|]] eqn:E; [|done]. destruct (room_b s) eqn:Er; [|done].
  case_bool_decide as Ht; [|done]. cbn [andb]. intros [= <-]. apply room_b_Room in Er. by exists s, s', acts.
Qed.

Lemma happens_step ev cl cl' : happens ev cl = Some cl' -> cstep trio_config trio cl cl'.
Proof.
  assert (match event_operation ev cl with Some (i, op) => operates i op cl | None => None end = Some cl' ->
    cstep trio_config trio cl cl') as Hop.
  { destruct (event_operation ev cl) as [[i op]|] eqn:Eo; [|done].
    intros (s & s' & acts & Hs & Hroom & Ht & E & ->)%operates_facts.
    eapply c_operation; [exact Hs|by apply (event_operation_arrives ev)|done..]. }
  destruct ev as [i|i|i t|k|i cmd]; cbn [happens]; try exact Hop.
  - destruct (cl_nodes cl !! i) eqn:En; [done|]. destruct (RaftNode_create _ _ _) as [s|] eqn:E; [|done].
    case_bool_decide; [|done]. case_bool_decide; [|done]. intros [= <-]. by apply (c_start _ _ _ i 0).
  - intros [= <-]. apply c_crash.
Qed.

Lemma unfolds_Execution evs h h' :
  Execution trio_config trio h -> unfolds evs h = Some h' -> Execution trio_config trio h'.
Proof.
  revert h. induction evs as [|ev evs IH]; intros h Hex; cbn [unfolds]; [by intros [= <-]|].
  destruct h as [|cl h]; [done|]. destruct (happens ev cl) as [cl'|] eqn:E; [|done].
  apply IH. constructor; [done|by apply (happens_step ev)].
Qed.

Lemma unfolds_extends evs h h' : unfolds evs h = Some h' -> exists later, h' = later ++ h.
Proof.
  revert h. induction evs as [|ev evs IH]; intros h; cbn [unfolds]; [intros [= <-]; by exists []|].
  destruct h as [|cl h]; [done|]. destruct (happens ev cl) as [cl'|]; [|done].
  intros (later & ->)%IH. exists (later ++ [cl']). by rewrite <- app_assoc.
Qed.

Lemma unfolds_app evs evs' h : unfolds (evs ++ evs') h = unfolds evs h ≫= unfolds evs'.
Proof.
  revert h. induction evs as [|ev evs IH]; intros h; [done|]. cbn [app unfolds].
  destruct h as [|cl h]; [done|]. by destruct (happens ev cl).
Qed.

(** Node 1 leads term 1 and commits its first entry, which nodes 1 and 2 apply;
    it crashes, node 2 leads term 2 with its help, and it applies the entry again. *)
Definition run_before : list Event := [Start 1; Start 2; Tick 1 10; Deliver 0; Deliver 2; Deliver 3].
Definition run_after : list Event := [Crash 1; Start 1; Tick 2 30; Deliver 9; Deliver 11; Deliver 12].
Definition run : list Event := run_before ++ Deliver 5 :: Deliver 6 :: run_after.

Definition run_history : list Cluster := default [] (unfolds run [trio0]).

Lemma run_unfolds : unfolds run [trio0] = Some run_history.
Proof. unfold run_history. destruct (unfolds run [trio0]) eqn:E; [done|by vm_compute in E]. Qed.

Lemma run_Execution : Execution trio_config trio run_history.
Proof. eapply unfolds_Execution; [|exact run_unfolds]. constructor. Qed.

Lemma run_Fresh : Fresh run_history.
Proof.
  destruct (unfolds_extends _ _ _ run_unfolds) as (later & ->). intros cl i. rewrite last_snoc. by intros [= <-].
Qed.

(** The state of the cluster [n] events before the end, and its nodes. *)
Definition moment (n : nat) : Cluster := default trio0 (run_history !! n).
Definition node_at (n : nat) (i : NodeId) : Impl := default blank (cl_nodes (moment n) !! i).

Lemma moment_in n : (n <? 15)%nat = true -> moment n ∈ run_history.
Proof.
  intros Hn%Nat.ltb_lt. unfold moment. destruct (run_history !! n) as [cl|] eqn:E; [by eapply list_elem_of_lookup_2|].
  apply lookup_ge_None in E. assert (length run_history = 15%nat) as Hl by by vm_compute. lia.
Qed.

Lemma node_at_in n i :
  bool_decide (is_Some (cl_nodes (moment n) !! i)) = true -> cl_nodes (moment n) !! i = Some (node_at n i).
Proof. intros H%bool_decide_eq_true. unfold node_at. by destruct H as [s ->]. Qed.

(** ** Applied entries *)

Definition applies (evs : list Event) (ev : Event) (i : NodeId) (e : LogEntry) : bool :=
  match unfolds evs [trio0] with
  | Some (cl :: _) =>
      match event_operation ev cl with
      | Some (j, op) =>
          bool_decide (j = i) &&
          match cl_nodes cl !! j with
          | Some s => match perform op s with (_, Ok acts) => bool_decide (ApplyEntry e ∈ acts) | _ => false end
          | None => false
          end
      | None => false
      end
  | _ => false
  end.

Lemma applies_Applied evs ev evs' i e h :
  applies evs ev i e = true -> unfolds (evs ++ ev :: evs') [trio0] = Some h -> Applied h i e.
Proof.
  unfold applies. rewrite unfolds_app. destruct (unfolds evs [trio0]) as [[|cl earlier]|]; [done| |done].
  cbn [mbind option_bind unfolds]. destruct (event_operation ev cl) as [[j op]|] eqn:Eo; [|done].
  case_bool_decide as Hj; [subst j|done]. cbn [andb]. intros Ha.
  replace (happens ev cl) with (operates i op cl) by (destruct ev; cbn [happens]; by rewrite ?Eo).
  destruct (operates i op cl) as [cl'|] eqn:E; [|done].
  apply operates_facts in E as (s & s' & acts & Hs & Hroom & Ht & E & ->). rewrite Hs, E in Ha.
  apply bool_decide_eq_true in Ha. intros (later & ->)%unfolds_extends.
  eexists later, _, cl, earlier, s, op, acts, s'. split_and!; try done. cbn. by rewrite lookup_insert_eq.
Qed.

Definition first_entry : LogEntry := mkLogEntry 1 1 no_op [].

Lemma run_applied : Applied run_history 1 first_entry /\ Applied run_history 2 first_entry.
Proof.
  split; [apply (applies_Applied run_before (Deliver 5) (Deliver 6 :: run_after))
    |apply (applies_Applied (run_before ++ [Deliver 5]) (Deliver 6) run_after)];
    [by vm_compute|exact run_unfolds|by vm_compute|exact run_unfolds].
Qed.

(** ** The theorems on this run *)

Ltac trio_configs := first [by intros i Hi|intros i Hi; split; by vm_compute].

Lemma state_machine_safety_witness :
  Applied run_history 1 first_entry /\ Applied run_history 2 first_entry /\ first_entry = first_entry.
Proof.
  split; [exact (proj1 run_applied)|split; [exact (proj2 run_applied)|]].
  refine (state_machine_safety trio_config trio _ _ _ run_history 1 2 first_entry first_entry
    run_Execution run_Fresh (proj1 run_applied) (proj2 run_applied) eq_refl); trio_configs.
Defined.

Lemma leader_completeness_witness :
  n_commit_index (node_at 7 1) = 1 /\
  n_commit_index (node_at 7 1) <= last_log_index (node_at 1 2) /\
  forall n, base_index (node_at 7 1) < n <= n_commit_index (node_at 7 1) -> base_index (node_at 1 2) < n ->
    log_at (n_log (node_at 1 2)) n = log_at (n_log (node_at 7 1)) n.
Proof.
  split; [by vm_compute|].
  refine (leader_completeness trio_config trio _ _ _ run_history (moment 7) (moment 1) 1 2 (node_at 7 1) (node_at 1 2)
    run_Execution run_Fresh (moment_in 7 eq_refl) (moment_in 1 eq_refl) (node_at_in 7 1 _) (node_at_in 1 2 _) _ _);
    first [trio_configs|by vm_compute].
Defined.

Lemma log_matching_witness :
  log_at (dlog (cl_disks (moment 7) 1)) 1 = log_at (dlog (cl_disks (moment 1) 2)) 1.
Proof.
  refine (log_matching trio_config trio _ _ _ run_history (moment 7) (moment 1) 1 2 1 1 1
    run_Execution run_Fresh (moment_in 7 eq_refl) (moment_in 1 eq_refl) _ _ _ _ _);
    first [trio_configs|by vm_compute].
Defined.

Lemma run_latest : run_history = moment 0 :: tail run_history.
Proof. unfold moment. destruct run_history as [|cl h] eqn:E; [by vm_compute in E|done]. Qed.

Lemma run_latest_Execution :
  Execution trio_config trio (moment 0 :: tail run_history) /\ Fresh (moment 0 :: tail run_history).
Proof. rewrite <- run_latest. split; [exact run_Execution|exact run_Fresh]. Qed.

Lemma cluster_refines_protocol_witness :
  exists w, rtc (wstep trio) genesis w /\ Matches (moment 0) w.
Proof.
  refine (cluster_refines_protocol trio_config trio _ _ _ (tail run_history) (moment 0)
    (proj1 run_latest_Execution) (proj2 run_latest_Execution)); trio_configs.
Defined.
