(* ===== verification/PersistedWitnesses.v ===== *)
(** * Concrete runs of a persisted node

    A voter of a cluster of three on an empty directory: it times out, stores its
    term and vote, and only then asks for votes. *)

From S2P Require Import Prelude Wire Checksum Protocol RaftTypes RaftNode RaftInvariant RaftStep RaftHandlers.
From S2P Require Import RaftSafety RaftFormat RaftJournal Fs FsTriples Directory RaftStorage RaftFiles.
From S2P Require Import RaftRecovery RaftCreation RaftDurability RaftLifecycle RaftStoreTheorems.
From S2P Require Import RaftStoreWitnesses PersistedRaft PersistedSafety PersistedTheorems ElectionSafety.
From S2P Require Import RaftTheorems RaftWitnesses.
Import RaftFormat RaftJournal PersistedRaftNode.

#[local] Existing Instance lower_bound_random.

Lemma fingerprint_of_the_set_witness :
  fixed_membership_fingerprint [3; 1; 2] = fixed_membership_fingerprint [1; 2; 3] /\
  is_u64 (fixed_membership_fingerprint [3; 1; 2]) /\ fixed_membership_fingerprint [3; 1; 2] <> 0.
Proof.
  apply (fingerprint_of_the_set [3; 1; 2] [1; 2; 3]).
  apply (Permutation_cons_append [1; 2] 3).
Defined.

Abbreviation fp := (fixed_membership_fingerprint (cfg_voters example_config)).











(** The store of the driver, opened on its own. *)
Definition opened_store : Fs * result RaftStorage.Impl := RaftStorage.open 1 1 false fp 7 (quiet empty_disk).

Definition member_store : RaftStorage.Storage :=
  {| RaftStorage.impl_ := match snd opened_store with Ok i => i | Throw _ => blank_impl end;
     RaftStorage.fs_ := fst opened_store |}.

Lemma member_store_Life :
  RaftLifecycle.Life 1 1 fp (fun p => empty_persistent_state = p /\ p = RaftStorage.state (RaftStorage.impl_ member_store))
    (Live member_store).
Proof.
  assert ((match snd opened_store with Ok _ => true | Throw _ => false end) = true) as H by by vm_compute.
  unfold member_store. destruct opened_store as [fs' [i|e]] eqn:E; [|done].
  apply (life_opened 1 1 fp (eq empty_persistent_state) (quiet empty_disk) false 7); [|exact E].
  clear. apply life_new; try done; split; by intros ? ? ? ?.
Qed.

Lemma stored_state_is_accepted_witness :
  exists n, RaftNode_create example_config (RaftStorage.state (RaftStorage.impl_ member_store)) 0 = Ok n /\ Inv n /\
    persistent_of n = RaftStorage.state (RaftStorage.impl_ member_store) /\ n_config n = example_config.
Proof.
  apply (stored_state_is_accepted example_config example_config_typed ltac:(done) ltac:(done) ltac:(done) ltac:(done)
    (fun p => empty_persistent_state = p /\ p = RaftStorage.state (RaftStorage.impl_ member_store)) member_store 0);
    [by vm_compute|apply member_store_Life|by vm_compute].
Defined.
