(* ===== verification/ClusterCodecs.v ===== *)
(** * Peer frames and replicated commands

    [src/cluster/codecs.cpp]: the payload of a Raft frame between two nodes, the
    payloads of client requests, and the command a client mutation is replicated
    as.  A [std::string] and a [std::vector<std::byte>] are both lists of bytes;
    a [std::array<std::byte, 16>] is one of length 16. *)

From S2P Require Import Prelude Wire Protocol RaftTypes RaftFormat.

Module ClusterCodecs.

Definition kPeerCommonSize : nat := 32.
Definition kEntryHeaderSize : nat := 24.
Definition kCommandHeaderSize : nat := 40.

(** A peer kind is read from the wire as any byte, and compared with the
    enumerators. *)
Definition PeerKind : Set := byte.
Definition PeerKind_request_vote : PeerKind := Byte.x01.
Definition PeerKind_request_vote_response : PeerKind := Byte.x02.
Definition PeerKind_append_entries : PeerKind := Byte.x03.
Definition PeerKind_append_entries_response : PeerKind := Byte.x04.
Definition PeerKind_install_snapshot : PeerKind := Byte.x05.
Definition PeerKind_install_snapshot_response : PeerKind := Byte.x06.

Record DecodeResult (Value : Type) : Type := {
  dr_value : option Value;
  dr_error : string
}.
Arguments dr_value {Value} _.
Arguments dr_error {Value} _.

Definition failure {Value} (message : string) : DecodeResult Value :=
  {| dr_value := None; dr_error := message |}.
Definition decoded {Value} (value : Value) : DecodeResult Value :=
  {| dr_value := Some value; dr_error := EmptyString |}.
Definition ok {Value} (r : DecodeResult Value) : bool := bool_decide (is_Some (dr_value r)).

Record PeerEnvelope := {
  pe_cluster_id : Z;
  pe_from : NodeId;
  pe_to : NodeId;
  pe_message : Message
}.

Inductive KvOperation : Set := put | delete_key.

#[export] Instance KvOperation_eq_dec : EqDecision KvOperation.
Proof. solve_decision. Defined.
#[export] Instance PeerEnvelope_eq_dec : EqDecision PeerEnvelope.
Proof. solve_decision. Defined.

Record ReplicatedCommand := {
  rc_operation : KvOperation;
  rc_client_id : list byte;
  rc_request_id : Z;
  rc_key : list byte;
  rc_value : list byte
}.

#[export] Instance ReplicatedCommand_eq_dec : EqDecision ReplicatedCommand.
Proof. solve_decision. Defined.

Definition all_zero (bytes : list byte) : bool :=
  forallb (fun b => Byte.eqb b Byte.x00) bytes.

(** ** Encoding peer frames *)

Definition peer_type (message : Message) : MessageType :=
  match message with
  | MRequestVote _ | MRequestVoteResponse _ => MessageType_raft_request_vote
  | MInstallSnapshot _ | MInstallSnapshotResponse _ => MessageType_raft_install_snapshot
  | MAppendEntries _ | MAppendEntriesResponse _ => MessageType_raft_append_entries
  end.

Definition peer_kind (message : Message) : PeerKind :=
  match message with
  | MRequestVote _ => PeerKind_request_vote
  | MRequestVoteResponse _ => PeerKind_request_vote_response
  | MAppendEntries _ => PeerKind_append_entries
  | MAppendEntriesResponse _ => PeerKind_append_entries_response
  | MInstallSnapshot _ => PeerKind_install_snapshot
  | MInstallSnapshotResponse _ => PeerKind_install_snapshot_response
  end.

(** The loop of [peer_payload_size] over the entries of an AppendEntries.  An
    [EntryKind] of the model is [command] or [no_op], so the check for other
    kinds has no counterpart. *)
Fixpoint append_entries_size (entries : list LogEntry) (size : Z) : result Z :=
  match entries with
  | [] => Ok size
  | entry :: rest =>
      if (le_index entry =? 0) || (le_term entry =? 0) ||
         (RaftFormat.kMaxRaftCommandSize <? size_of (le_command entry)) ||
         (bool_decide (le_kind entry = no_op) && negb (bool_decide (le_command entry = []))) ||
         (kMaxPayloadSize - Z.of_nat kEntryHeaderSize <? size) ||
         (kMaxPayloadSize - size - Z.of_nat kEntryHeaderSize <? size_of (le_command entry))
      then Throw invalid_argument
      else append_entries_size rest (size + (Z.of_nat kEntryHeaderSize + size_of (le_command entry)))
  end.

Definition peer_payload_size (message : Message) : result Z :=
  match message with
  | MRequestVote _ => Ok (Z.of_nat kPeerCommonSize + 32)
  | MRequestVoteResponse _ => Ok (Z.of_nat kPeerCommonSize + 16)
  | MAppendEntries typed =>
      if (ae_rpc_id typed =? 0) || (RaftFormat.kMaxRaftLogEntriesPerRecord <? size_of (ae_entries typed))
      then Throw invalid_argument
      else append_entries_size (ae_entries typed) (Z.of_nat kPeerCommonSize + 56)
  | MAppendEntriesResponse _ => Ok (Z.of_nat kPeerCommonSize + 40)
  | MInstallSnapshot typed =>
      if (ins_rpc_id typed =? 0) || (ins_term typed =? 0) || (ins_leader_id typed =? 0) ||
         (ins_last_included_index typed =? 0) || (ins_last_included_term typed =? 0) ||
         (ins_total_size typed <? ins_offset typed) ||
         (ins_total_size typed - ins_offset typed <? size_of (ins_data typed)) ||
         negb (Bool.eqb (ins_done typed)
                 (u64 (ins_offset typed + size_of (ins_data typed)) =? ins_total_size typed)) ||
         (kMaxPayloadSize - Z.of_nat kPeerCommonSize - 64 <? size_of (ins_data typed))
      then Throw invalid_argument
      else Ok (Z.of_nat kPeerCommonSize + 64 + size_of (ins_data typed))
  | MInstallSnapshotResponse _ => Ok (Z.of_nat kPeerCommonSize + 40)
  end.

Definition valid_key_size (size : Z) : bool := (0 <? size) && (size <=? kMaxKeySize).

Definition flag_byte (b : bool) : byte := if b then Byte.x01 else Byte.x00.

(** The loop that stores the entries into the body from [offset] on. *)
Fixpoint write_entries (entries : list LogEntry) (offset : nat) (body : list byte) : list byte :=
  match entries with
  | [] => body
  | entry :: rest =>
      let body := write_at offset (write_u64 (le_index entry)) body in
      let body := write_at (offset + 8) (write_u64 (le_term entry)) body in
      let body := write_at (offset + 16) [RaftFormat.kind_byte (le_kind entry)] body in
      let body := write_at (offset + 20) (write_u32 (u32 (size_of (le_command entry)))) body in
      let body := write_at (offset + 24) (le_command entry) body in
      write_entries rest (offset + (kEntryHeaderSize + length (le_command entry))) body
  end.

(** What the visitor of [encode_peer_frame] stores into [body], the span of the
    payload after the common part. *)
Definition write_body (m : Message) (body : list byte) : result (list byte) :=
  match m with
  | MRequestVote message =>
      let body := write_at 0 (write_u64 (rv_term message)) body in
      let body := write_at 8 (write_u64 (rv_candidate_id message)) body in
      let body := write_at 16 (write_u64 (rv_last_log_index message)) body in
      Ok (write_at 24 (write_u64 (rv_last_log_term message)) body)
  | MRequestVoteResponse message =>
      let body := write_at 0 (write_u64 (rvr_term message)) body in
      Ok (write_at 8 [flag_byte (rvr_vote_granted message)] body)
  | MAppendEntries message =>
      let body := write_at 0 (write_u64 (ae_term message)) body in
      let body := write_at 8 (write_u64 (ae_leader_id message)) body in
      let body := write_at 16 (write_u64 (ae_previous_log_index message)) body in
      let body := write_at 24 (write_u64 (ae_previous_log_term message)) body in
      let body := write_at 32 (write_u64 (ae_leader_commit message)) body in
      let body := write_at 40 (write_u64 (ae_rpc_id message)) body in
      if u32_max <? size_of (ae_entries message) then Throw invalid_argument
      else
        let body := write_at 48 (write_u32 (u32 (size_of (ae_entries message)))) body in
        Ok (write_entries (ae_entries message) 56 body)
  | MAppendEntriesResponse message =>
      let body := write_at 0 (write_u64 (aer_term message)) body in
      let body := write_at 8 [flag_byte (aer_success message)] body in
      let body := write_at 16 (write_u64 (aer_match_index message)) body in
      let body := write_at 24 (write_u64 (aer_reject_hint message)) body in
      Ok (write_at 32 (write_u64 (aer_rpc_id message)) body)
  | MInstallSnapshot message =>
      let body := write_at 0 (write_u64 (ins_term message)) body in
      let body := write_at 8 (write_u64 (ins_leader_id message)) body in
      let body := write_at 16 (write_u64 (ins_last_included_index message)) body in
      let body := write_at 24 (write_u64 (ins_last_included_term message)) body in
      let body := write_at 32 (write_u64 (ins_total_size message)) body in
      let body := write_at 40 (write_u64 (ins_offset message)) body in
      let body := write_at 48 (write_u64 (ins_rpc_id message)) body in
      let body := write_at 56 [flag_byte (ins_done message)] body in
      Ok (write_at 64 (ins_data message) body)
  | MInstallSnapshotResponse message =>
      let body := write_at 0 (write_u64 (insr_term message)) body in
      let body := write_at 8 [flag_byte (insr_success message)] body in
      let body := write_at 16 (write_u64 (insr_last_included_index message)) body in
      let body := write_at 24 (write_u64 (insr_next_offset message)) body in
      Ok (write_at 32 (write_u64 (insr_rpc_id message)) body)
  end.

Definition encode_peer_frame (envelope : PeerEnvelope) (request_id : Z) : result Frame :=
  if (pe_cluster_id envelope =? 0) || (pe_from envelope =? 0) || (pe_to envelope =? 0)
  then Throw invalid_argument
  else
    match peer_payload_size (pe_message envelope) with
    | Throw e => Throw e
    | Ok size =>
        if kMaxPayloadSize <? size then Throw invalid_argument
        else
          let payload := zero_bytes (Z.to_nat size) in
          let payload := write_at 0 (write_u64 (pe_cluster_id envelope)) payload in
          let payload := write_at 8 (write_u64 (pe_from envelope)) payload in
          let payload := write_at 16 (write_u64 (pe_to envelope)) payload in
          let payload := write_at 24 [peer_kind (pe_message envelope)] payload in
          match write_body (pe_message envelope) (drop kPeerCommonSize payload) with
          | Throw e => Throw e
          | Ok body =>
              Ok {| message_namespace := Namespace_raft;
                    message_type := peer_type (pe_message envelope);
                    flags := Byte.x00;
                    request_id := request_id;
                    payload := take kPeerCommonSize payload ++ body |}
          end
    end.

(** ** Decoding peer frames *)

(** The loop of [decode_peer_frame] over [count] entries: the entries and the
    offset after them, or the message of the failure. *)
Fixpoint read_entries (count : nat) (body : list byte) (offset : nat)
    : string + list LogEntry * nat :=
  match count with
  | O => inr ([], offset)
  | S count' =>
      if Nat.ltb (length body - offset) kEntryHeaderSize then inl "truncated Raft entry header"%string
      else
        let command_size := read_u32 (subspan (offset + 20) 4 body) in
        if (RaftFormat.kMaxRaftCommandSize <? command_size) ||
           (Z.of_nat (length body - offset - kEntryHeaderSize) <? command_size) ||
           negb (all_zero (subspan (offset + 17) 3 body))
        then inl "invalid Raft entry length"%string
        else
          match RaftFormat.entry_kind (byte_at body (offset + 16)) with
          | None => inl "invalid Raft entry kind"%string
          | Some entry_kind =>
              let entry_index := read_u64 (subspan offset 8 body) in
              let entry_term := read_u64 (subspan (offset + 8) 8 body) in
              if (entry_index =? 0) || (entry_term =? 0) ||
                 (bool_decide (entry_kind = no_op) && negb (command_size =? 0))
              then inl "invalid Raft entry semantics"%string
              else
                let entry :=
                  {| le_index := entry_index; le_term := entry_term; le_kind := entry_kind;
                     le_command := subspan (offset + kEntryHeaderSize) (Z.to_nat command_size) body |} in
                match read_entries count' body (offset + (kEntryHeaderSize + Z.to_nat command_size)) with
                | inl message => inl message
                | inr (entries, offset') => inr (entry :: entries, offset')
                end
          end
  end.

Definition decode_request_vote (type : MessageType) (body : list byte) : string + Message :=
  if negb (Byte.eqb type MessageType_raft_request_vote) || negb (Nat.eqb (length body) 32)
  then inl "invalid RequestVote payload size"%string
  else inr (MRequestVote
    {| rv_term := read_u64 (subspan 0 8 body);
       rv_candidate_id := read_u64 (subspan 8 8 body);
       rv_last_log_index := read_u64 (subspan 16 8 body);
       rv_last_log_term := read_u64 (subspan 24 8 body) |}).

Definition decode_request_vote_response (type : MessageType) (body : list byte) : string + Message :=
  if negb (Byte.eqb type MessageType_raft_request_vote) || negb (Nat.eqb (length body) 16) ||
     (1 <? Z_of_byte (byte_at body 8)) || negb (all_zero (subspan 9 7 body))
  then inl "invalid RequestVoteResponse payload"%string
  else inr (MRequestVoteResponse
    {| rvr_term := read_u64 (subspan 0 8 body);
       rvr_vote_granted := Byte.eqb (byte_at body 8) Byte.x01 |}).

Definition decode_append_entries (type : MessageType) (body : list byte) : string + Message :=
  if negb (Byte.eqb type MessageType_raft_append_entries) || Nat.ltb (length body) 56 ||
     negb (all_zero (subspan 52 4 body))
  then inl "invalid AppendEntries header"%string
  else
    let count := read_u32 (subspan 48 4 body) in
    let maximum_entries := (size_of body - 56) / Z.of_nat kEntryHeaderSize in
    if (maximum_entries <? count) || (RaftFormat.kMaxRaftLogEntriesPerRecord <? count)
    then inl "impossible AppendEntries count"%string
    else
      match read_entries (Z.to_nat count) body 56 with
      | inl message => inl message
      | inr (entries, offset) =>
          if negb (Nat.eqb offset (length body)) then inl "trailing AppendEntries bytes"%string
          else inr (MAppendEntries
            {| ae_term := read_u64 (subspan 0 8 body);
               ae_leader_id := read_u64 (subspan 8 8 body);
               ae_previous_log_index := read_u64 (subspan 16 8 body);
               ae_previous_log_term := read_u64 (subspan 24 8 body);
               ae_entries := entries;
               ae_leader_commit := read_u64 (subspan 32 8 body);
               ae_rpc_id := read_u64 (subspan 40 8 body) |})
      end.

Definition decode_append_entries_response (type : MessageType) (body : list byte) : string + Message :=
  if negb (Byte.eqb type MessageType_raft_append_entries) || negb (Nat.eqb (length body) 40) ||
     (1 <? Z_of_byte (byte_at body 8)) || negb (all_zero (subspan 9 7 body))
  then inl "invalid AppendEntriesResponse payload"%string
  else inr (MAppendEntriesResponse
    {| aer_term := read_u64 (subspan 0 8 body);
       aer_success := Byte.eqb (byte_at body 8) Byte.x01;
       aer_match_index := read_u64 (subspan 16 8 body);
       aer_reject_hint := read_u64 (subspan 24 8 body);
       aer_rpc_id := read_u64 (subspan 32 8 body) |}).

Definition decode_install_snapshot (type : MessageType) (body : list byte) : string + Message :=
  if negb (Byte.eqb type MessageType_raft_install_snapshot) || Nat.ltb (length body) 64 ||
     (1 <? Z_of_byte (byte_at body 56)) || negb (all_zero (subspan 57 7 body))
  then inl "invalid InstallSnapshot header"%string
  else
    let total_size := read_u64 (subspan 32 8 body) in
    let offset := read_u64 (subspan 40 8 body) in
    let chunk_size := size_of body - 64 in
    let done := Byte.eqb (byte_at body 56) Byte.x01 in
    if (total_size <? offset) || (total_size - offset <? chunk_size) ||
       negb (Bool.eqb done (u64 (offset + chunk_size) =? total_size))
    then inl "invalid InstallSnapshot chunk range"%string
    else inr (MInstallSnapshot
      {| ins_term := read_u64 (subspan 0 8 body);
         ins_leader_id := read_u64 (subspan 8 8 body);
         ins_last_included_index := read_u64 (subspan 16 8 body);
         ins_last_included_term := read_u64 (subspan 24 8 body);
         ins_total_size := total_size;
         ins_offset := offset;
         ins_data := drop 64 body;
         ins_done := done;
         ins_rpc_id := read_u64 (subspan 48 8 body) |}).

Definition decode_install_snapshot_response (type : MessageType) (body : list byte) : string + Message :=
  if negb (Byte.eqb type MessageType_raft_install_snapshot) || negb (Nat.eqb (length body) 40) ||
     (1 <? Z_of_byte (byte_at body 8)) || negb (all_zero (subspan 9 7 body))
  then inl "invalid InstallSnapshotResponse payload"%string
  else inr (MInstallSnapshotResponse
    {| insr_term := read_u64 (subspan 0 8 body);
       insr_success := Byte.eqb (byte_at body 8) Byte.x01;
       insr_last_included_index := read_u64 (subspan 16 8 body);
       insr_next_offset := read_u64 (subspan 24 8 body);
       insr_rpc_id := read_u64 (subspan 32 8 body) |}).

(** The chain of [if (kind == ...)] of [decode_peer_frame]. *)
Definition decode_body (kind : PeerKind) (type : MessageType) (body : list byte) : string + Message :=
  if Byte.eqb kind PeerKind_request_vote then decode_request_vote type body
  else if Byte.eqb kind PeerKind_request_vote_response then decode_request_vote_response type body
  else if Byte.eqb kind PeerKind_append_entries then decode_append_entries type body
  else if Byte.eqb kind PeerKind_append_entries_response then decode_append_entries_response type body
  else if Byte.eqb kind PeerKind_install_snapshot then decode_install_snapshot type body
  else if Byte.eqb kind PeerKind_install_snapshot_response then decode_install_snapshot_response type body
  else inl "unknown Raft peer message kind"%string.

Definition decode_peer_frame (frame : Frame) : DecodeResult PeerEnvelope :=
  if negb (Byte.eqb (message_namespace frame) Namespace_raft) ||
     Nat.ltb (length (payload frame)) kPeerCommonSize ||
     negb (all_zero (subspan 25 7 (payload frame)))
  then failure "invalid Raft peer envelope"
  else
    let payload := payload frame in
    let cluster_id := read_u64 (subspan 0 8 payload) in
    let from := read_u64 (subspan 8 8 payload) in
    let to := read_u64 (subspan 16 8 payload) in
    if (cluster_id =? 0) || (from =? 0) || (to =? 0) then failure "zero Raft peer identity"
    else
      match decode_body (byte_at payload 24) (message_type frame) (drop kPeerCommonSize payload) with
      | inl message => failure message
      | inr message =>
          decoded {| pe_cluster_id := cluster_id; pe_from := from; pe_to := to;
                     pe_message := message |}
      end.

(** ** Client requests and replicated commands *)

Definition decode_client_mutation (frame : Frame) : DecodeResult ReplicatedCommand :=
  if negb (Byte.eqb (message_namespace frame) Namespace_client) ||
     (negb (Byte.eqb (message_type frame) MessageType_put) &&
      negb (Byte.eqb (message_type frame) MessageType_delete_key)) ||
     (request_id frame =? 0) || Nat.ltb (length (payload frame)) 20
  then failure "invalid mutation frame"
  else
    let payload := payload frame in
    let operation := if Byte.eqb (message_type frame) MessageType_put then put else delete_key in
    let key_size := read_u32 (subspan 16 4 payload) in
    if bool_decide (operation = put) && Nat.ltb (length payload) 24
    then failure "truncated PUT payload"
    else
      let value_size := if bool_decide (operation = put) then read_u32 (subspan 20 4 payload) else 0 in
      let header_size := if bool_decide (operation = put) then 24%nat else 20%nat in
      if negb (valid_key_size key_size) || (kMaxValueSize <? value_size) ||
         negb (size_of payload =? Z.of_nat header_size + key_size + value_size)
      then failure "invalid mutation key/value lengths"
      else
        decoded
          {| rc_operation := operation;
             rc_client_id := take 16 payload;
             rc_request_id := request_id frame;
             rc_key := subspan header_size (Z.to_nat key_size) payload;
             rc_value := subspan (header_size + Z.to_nat key_size) (Z.to_nat value_size) payload |}.

Definition operation_byte (operation : KvOperation) : byte :=
  match operation with put => Byte.x01 | delete_key => Byte.x02 end.

Definition encode_replicated_command (command : ReplicatedCommand) : result (list byte) :=
  if negb (valid_key_size (size_of (rc_key command))) ||
     (kMaxValueSize <? size_of (rc_value command)) ||
     (bool_decide (rc_operation command = delete_key) && negb (bool_decide (rc_value command = []))) ||
     (rc_request_id command =? 0)
  then Throw invalid_argument
  else
    let bytes := zero_bytes (kCommandHeaderSize + length (rc_key command) + length (rc_value command)) in
    let bytes := write_at 0 [operation_byte (rc_operation command)] bytes in
    let bytes := write_at 8 (rc_client_id command) bytes in
    let bytes := write_at 24 (write_u64 (rc_request_id command)) bytes in
    let bytes := write_at 32 (write_u32 (u32 (size_of (rc_key command)))) bytes in
    let bytes := write_at 36 (write_u32 (u32 (size_of (rc_value command)))) bytes in
    let bytes := write_at kCommandHeaderSize (rc_key command) bytes in
    Ok (write_at (kCommandHeaderSize + length (rc_key command)) (rc_value command) bytes).

(** [static_cast<KvOperation>] of a byte, and the comparison with the
    enumerators. *)
Definition operation_of (b : byte) : option KvOperation :=
  match b with
  | Byte.x01 => Some put
  | Byte.x02 => Some delete_key
  | _ => None
  end.

Definition decode_replicated_command (bytes : list byte) : DecodeResult ReplicatedCommand :=
  if Nat.ltb (length bytes) kCommandHeaderSize || negb (all_zero (subspan 1 7 bytes))
  then failure "invalid replicated command header"
  else
    let key_size := read_u32 (subspan 32 4 bytes) in
    let value_size := read_u32 (subspan 36 4 bytes) in
    match operation_of (byte_at bytes 0) with
    | None => failure "invalid replicated command lengths"
    | Some operation =>
        if negb (valid_key_size key_size) || (kMaxValueSize <? value_size) ||
           (bool_decide (operation = delete_key) && negb (value_size =? 0)) ||
           negb (size_of bytes =? Z.of_nat kCommandHeaderSize + key_size + value_size)
        then failure "invalid replicated command lengths"
        else
          let request_id := read_u64 (subspan 24 8 bytes) in
          if request_id =? 0 then failure "zero replicated request ID"
          else
            decoded
              {| rc_operation := operation;
                 rc_client_id := subspan 8 16 bytes;
                 rc_request_id := request_id;
                 rc_key := subspan kCommandHeaderSize (Z.to_nat key_size) bytes;
                 rc_value := subspan (kCommandHeaderSize + Z.to_nat key_size) (Z.to_nat value_size) bytes |}
    end.

Definition decode_client_get (frame : Frame) : DecodeResult (list byte) :=
  if negb (Byte.eqb (message_namespace frame) Namespace_client) ||
     negb (Byte.eqb (message_type frame) MessageType_get) ||
     Nat.ltb (length (payload frame)) 4
  then failure "invalid GET frame"
  else
    let key_size := read_u32 (take 4 (payload frame)) in
    if negb (valid_key_size key_size) || negb (size_of (payload frame) =? 4 + key_size)
    then failure "invalid GET key length"
    else decoded (subspan 4 (Z.to_nat key_size) (payload frame)).

(** ** Reading a layout back

    Each lemma cuts one field off the front of what is left of a buffer. *)

Lemma cut_span bs off n : drop off bs = subspan off n bs ++ drop (off + n) bs.
Proof. unfold subspan. by rewrite <- drop_drop, take_drop. Qed.

Lemma length_subspan off n (bs : list byte) : (off + n <= length bs)%nat -> length (subspan off n bs) = n.
Proof. intros H. unfold subspan. rewrite length_take, length_drop. lia. Qed.

Lemma cut_u64 bs off :
  (off + 8 <= length bs)%nat -> drop off bs = write_u64 (read_u64 (subspan off 8 bs)) ++ drop (off + 8) bs.
Proof. intros H. rewrite write_read_u64 by by apply length_subspan. apply cut_span. Qed.

Lemma cut_u32 bs off :
  (off + 4 <= length bs)%nat -> drop off bs = write_u32 (read_u32 (subspan off 4 bs)) ++ drop (off + 4) bs.
Proof. intros H. rewrite write_read_u32 by by apply length_subspan. apply cut_span. Qed.

Lemma cut_byte bs off : (off < length bs)%nat -> drop off bs = [byte_at bs off] ++ drop (off + 1) bs.
Proof.
  intros H. destruct (lookup_lt_is_Some_2 bs off H) as [b E].
  rewrite (drop_S bs b off E), Nat.add_1_r. unfold byte_at. by erewrite nth_lookup_Some.
Qed.

Lemma all_zero_bytes bs : all_zero bs = true -> bs = zero_bytes (length bs).
Proof.
  induction bs as [|b bs IH]; [done|]. cbn. rewrite andb_true_iff. intros [Hb Hz].
  apply Byte.byte_dec_bl in Hb as ->. f_equal. by apply IH.
Qed.

Lemma cut_zero bs off n :
  (off + n <= length bs)%nat -> all_zero (subspan off n bs) = true ->
  drop off bs = zero_bytes n ++ drop (off + n) bs.
Proof.
  intros H Hz. apply all_zero_bytes in Hz. rewrite length_subspan in Hz by done.
  rewrite <- Hz. apply cut_span.
Qed.

Lemma flag_of_byte b : Z_of_byte b <= 1 -> flag_byte (Byte.eqb b Byte.x01) = b.
Proof. by destruct b. Qed.

Lemma all_zero_zero n : all_zero (zero_bytes n) = true.
Proof. by induction n. Qed.

(** ** Entries *)

(** An entry both sides accept. *)
Record sendable_entry (e : LogEntry) : Prop := {
  sn_index : is_u64 (le_index e) /\ le_index e <> 0;
  sn_term : is_u64 (le_term e) /\ le_term e <> 0;
  sn_size : size_of (le_command e) <= RaftFormat.kMaxRaftCommandSize;
  sn_no_op : le_kind e = no_op -> le_command e = []
}.

Abbreviation entries_bytes es := (RaftFormat.body_bytes (map RaftFormat.stored es)).

Lemma write_entries_stored es offset body :
  write_entries es offset body = RaftFormat.write_entries (map RaftFormat.stored es) offset body.
Proof. revert offset body. induction es as [|e es IH]; intros; cbn [write_entries]; [done|]. apply IH. Qed.

Lemma sendable_valid es : Forall sendable_entry es -> Forall RaftFormat.valid_entry (map RaftFormat.stored es).
Proof. intros H. apply Forall_map. eapply Forall_impl; [exact H|]. intros e [[? _] [? _] ? _]. done. Qed.

Lemma kind_byte_of_kind k : RaftFormat.entry_kind (RaftFormat.kind_byte k) = Some k.
Proof. by destruct k. Qed.

Lemma kind_of_kind_byte b k : RaftFormat.entry_kind b = Some k -> RaftFormat.kind_byte k = b.
Proof. by destruct b; intros [= <-]. Qed.

Lemma read_entries_bytes es pre :
  Forall sendable_entry es ->
  read_entries (length es) (pre ++ entries_bytes es) (length pre) =
  inr (es, length (pre ++ entries_bytes es)).
Proof.
  revert pre. induction es as [|e es IH]; intros pre Hv; cbn [read_entries length].
  { cbn. by rewrite app_nil_r. }
  pose proof (sendable_valid _ Hv) as Hs. cbn [map] in *.
  set (se := RaftFormat.stored e) in *. apply Forall_cons in Hv as [He Hes], Hs as [Hse _].
  pose proof (RaftFormat.valid_entry_u32 se Hse) as Hu. destruct He as [[Hi Hi0] [Ht Ht0] Hsz Hop].
  rewrite RaftFormat.body_bytes_cons. set (bs := RaftFormat.entry_bytes se ++ _).
  assert (length bs = (24 + length (le_command e) + length (entries_bytes es))%nat) as Hl
    by (unfold bs; rewrite length_app, RaftFormat.length_entry_bytes; done).
  rewrite (proj2 (Nat.ltb_ge _ _)) by (rewrite length_app; unfold kEntryHeaderSize; lia).
  assert (subspan (length pre) 8 (pre ++ bs) = write_u64 (le_index e) ++ []) as ->
    by (unfold subspan; by rewrite drop_app_length).
  rewrite !RaftFormat.subspan_app_r, !RaftFormat.byte_at_app_r.
  change (subspan 20 4 bs) with (write_u32 (size_of (le_command e)) ++ []).
  change (byte_at bs 16) with (RaftFormat.kind_byte (le_kind e)).
  change (subspan 8 8 bs) with (write_u64 (le_term e) ++ []).
  change (all_zero (subspan 17 3 bs)) with true.
  rewrite read_write_u32, !read_write_u64, kind_byte_of_kind by done.
  rewrite (proj2 (Z.ltb_ge _ (size_of (le_command e)))), (proj2 (Z.ltb_ge _ (size_of (le_command e))))
    by (try done; rewrite length_app; unfold size_of, kEntryHeaderSize; lia).
  cbn [negb orb]. rewrite (proj2 (Z.eqb_neq _ 0) Hi0), (proj2 (Z.eqb_neq _ 0) Ht0). cbn [orb].
  assert (bool_decide (le_kind e = no_op) && negb (size_of (le_command e) =? 0) = false) as ->.
  { case_bool_decide as E; [|done]. by rewrite (Hop E). }
  assert (subspan kEntryHeaderSize (length (le_command e)) bs = le_command e) as Hc.
  { unfold subspan. change (drop kEntryHeaderSize bs) with (le_command e ++ entries_bytes es).
    apply take_app_length. }
  unfold size_of. rewrite Nat2Z.id, Hc.
  specialize (IH (pre ++ RaftFormat.entry_bytes se) Hes).
  rewrite <- (assoc_L (++)), (length_app pre (RaftFormat.entry_bytes se)), RaftFormat.length_entry_bytes in IH.
  fold bs in IH. change (RaftFormat.se_command se) with (le_command e) in IH.
  change RaftFormat.kEntryHeaderSize with kEntryHeaderSize in IH. rewrite IH. by destruct e.
Qed.

Lemma read_entries_sound count body offset es offset' :
  read_entries count body offset = inr (es, offset') -> (offset <= length body)%nat ->
  drop offset body = entries_bytes es ++ drop offset' body /\ length es = count /\
  Forall sendable_entry es /\ (offset <= offset' <= length body)%nat.
Proof.
  revert offset es. induction count as [|count IH]; intros offset es; cbn [read_entries].
  { intros [= <- <-] Hle. split_and!; done || lia || constructor. }
  destruct (Nat.ltb_spec (length body - offset) kEntryHeaderSize) as [|Hh]; [done|]. cbv zeta.
  unfold kEntryHeaderSize in *. set (n := read_u32 _).
  destruct (_ || _) eqn:Eg; [done|]. rewrite !orb_false_iff, !Z.ltb_ge, negb_false_iff in Eg.
  destruct Eg as [[Hn1 Hn2] Hz].
  destruct (RaftFormat.entry_kind _) as [k|] eqn:Ek; [|done].
  destruct ((_ =? 0) || _ || _) eqn:Es; [done|]. rewrite !orb_false_iff, !Z.eqb_neq in Es.
  destruct Es as [[Hi0 Ht0] Hop].
  destruct (read_entries count body _) as [|[es' o]] eqn:Er; [done|]. intros [= <- <-] Hle.
  assert (is_u32 n) as Hn by (apply read_u32_range, length_subspan; lia). unfold is_u32 in Hn.
  apply IH in Er as (Hd & Hlen & Hf & Ho1 & Ho2); [|lia].
  set (e := {| le_index := _; le_term := _; le_kind := k; le_command := _ |}).
  assert (length (le_command e) = Z.to_nat n) as Hcl by (apply length_subspan; lia).
  assert (size_of (le_command e) = n) as Hcs by (unfold size_of; rewrite Hcl; lia).
  split_and!; [| |constructor; [|done]|lia|lia].
  - cbn [map]. rewrite RaftFormat.body_bytes_cons, <- (assoc_L (++)), <- Hd.
    unfold RaftFormat.entry_bytes. cbn [RaftFormat.se_command RaftFormat.stored].
    rewrite Hcs. unfold e. cbn [RaftFormat.se_index RaftFormat.se_term RaftFormat.se_kind
      RaftFormat.stored le_index le_term le_kind le_command].
    rewrite (kind_of_kind_byte _ _ Ek), <- !(assoc_L (++)).
    rewrite (cut_u64 body offset) by lia. f_equal. rewrite (cut_u64 body) by lia. f_equal.
    rewrite (cut_byte body) by lia. rewrite <- !Nat.add_assoc. f_equal.
    rewrite (cut_zero body _ 3) by (done || lia). rewrite <- !Nat.add_assoc. f_equal.
    rewrite (cut_u32 body) by lia. rewrite <- !Nat.add_assoc. f_equal.
    rewrite (cut_span body _ (Z.to_nat n)). by rewrite <- !Nat.add_assoc.
  - cbn. by rewrite Hlen.
  - split; [split; [apply read_u64_range, length_subspan; lia|done]..|rewrite Hcs; done|].
    intros Hk. cbn in Hk. rewrite bool_decide_true, andb_true_l, negb_false_iff, Z.eqb_eq in Hop by done.
    apply nil_length_inv. rewrite Hcl, Hop. done.
Qed.

(** ** The layout of a peer frame *)

Definition message_bytes (m : Message) : list byte :=
  match m with
  | MRequestVote r =>
      write_u64 (rv_term r) ++ write_u64 (rv_candidate_id r) ++ write_u64 (rv_last_log_index r) ++
      write_u64 (rv_last_log_term r)
  | MRequestVoteResponse r => write_u64 (rvr_term r) ++ [flag_byte (rvr_vote_granted r)] ++ zero_bytes 7
  | MAppendEntries r =>
      write_u64 (ae_term r) ++ write_u64 (ae_leader_id r) ++ write_u64 (ae_previous_log_index r) ++
      write_u64 (ae_previous_log_term r) ++ write_u64 (ae_leader_commit r) ++ write_u64 (ae_rpc_id r) ++
      write_u32 (size_of (ae_entries r)) ++ zero_bytes 4 ++ entries_bytes (ae_entries r)
  | MAppendEntriesResponse r =>
      write_u64 (aer_term r) ++ [flag_byte (aer_success r)] ++ zero_bytes 7 ++
      write_u64 (aer_match_index r) ++ write_u64 (aer_reject_hint r) ++ write_u64 (aer_rpc_id r)
  | MInstallSnapshot r =>
      write_u64 (ins_term r) ++ write_u64 (ins_leader_id r) ++ write_u64 (ins_last_included_index r) ++
      write_u64 (ins_last_included_term r) ++ write_u64 (ins_total_size r) ++ write_u64 (ins_offset r) ++
      write_u64 (ins_rpc_id r) ++ [flag_byte (ins_done r)] ++ zero_bytes 7 ++ ins_data r
  | MInstallSnapshotResponse r =>
      write_u64 (insr_term r) ++ [flag_byte (insr_success r)] ++ zero_bytes 7 ++
      write_u64 (insr_last_included_index r) ++ write_u64 (insr_next_offset r) ++ write_u64 (insr_rpc_id r)
  end.

Definition peer_bytes (env : PeerEnvelope) : list byte :=
  write_u64 (pe_cluster_id env) ++ write_u64 (pe_from env) ++ write_u64 (pe_to env) ++
  [peer_kind (pe_message env)] ++ zero_bytes 7 ++ message_bytes (pe_message env).

Definition peer_frame (env : PeerEnvelope) (rid : Z) : Frame :=
  {| message_namespace := Namespace_raft; message_type := peer_type (pe_message env);
     flags := Byte.x00; request_id := rid; payload := peer_bytes env |}.

(** The fields are machine integers, and the entries and the chunk are ones the
    decoder accepts. *)
Definition wire_message (m : Message) : Prop :=
  match m with
  | MRequestVote r => is_u64 (rv_term r) /\ is_u64 (rv_candidate_id r) /\
      is_u64 (rv_last_log_index r) /\ is_u64 (rv_last_log_term r)
  | MRequestVoteResponse r => is_u64 (rvr_term r)
  | MAppendEntries r => (is_u64 (ae_term r) /\ is_u64 (ae_leader_id r) /\
      is_u64 (ae_previous_log_index r) /\ is_u64 (ae_previous_log_term r) /\
      is_u64 (ae_leader_commit r) /\ is_u64 (ae_rpc_id r)) /\
      Forall sendable_entry (ae_entries r) /\
      size_of (ae_entries r) <= RaftFormat.kMaxRaftLogEntriesPerRecord
  | MAppendEntriesResponse r => is_u64 (aer_term r) /\ is_u64 (aer_match_index r) /\
      is_u64 (aer_reject_hint r) /\ is_u64 (aer_rpc_id r)
  | MInstallSnapshot r => (is_u64 (ins_term r) /\ is_u64 (ins_leader_id r) /\
      is_u64 (ins_last_included_index r) /\ is_u64 (ins_last_included_term r) /\
      is_u64 (ins_total_size r) /\ is_u64 (ins_offset r) /\ is_u64 (ins_rpc_id r)) /\
      ins_offset r + size_of (ins_data r) <= ins_total_size r /\
      (ins_done r = true <-> ins_offset r + size_of (ins_data r) = ins_total_size r)
  | MInstallSnapshotResponse r => is_u64 (insr_term r) /\ is_u64 (insr_last_included_index r) /\
      is_u64 (insr_next_offset r) /\ is_u64 (insr_rpc_id r)
  end.

Definition wire_envelope (env : PeerEnvelope) : Prop :=
  (is_u64 (pe_cluster_id env) /\ pe_cluster_id env <> 0) /\
  (is_u64 (pe_from env) /\ pe_from env <> 0) /\ (is_u64 (pe_to env) /\ pe_to env <> 0) /\
  wire_message (pe_message env).

Lemma flag_byte_eqb b : Byte.eqb (flag_byte b) Byte.x01 = b.
Proof. by destruct b. Qed.

Lemma flag_byte_le b : (1 <? Z_of_byte (flag_byte b)) = false.
Proof. by destruct b. Qed.

Lemma entries_bytes_cons_size e es :
  size_of (entries_bytes (e :: es)) =
  Z.of_nat kEntryHeaderSize + size_of (le_command e) + size_of (entries_bytes es).
Proof.
  cbn [map]. rewrite RaftFormat.body_bytes_cons, size_of_app. unfold size_of.
  rewrite RaftFormat.length_entry_bytes. unfold kEntryHeaderSize, RaftFormat.kEntryHeaderSize.
  cbn [RaftFormat.stored RaftFormat.se_command]. lia.
Qed.

Lemma entries_bytes_size es : Z.of_nat kEntryHeaderSize * size_of es <= size_of (entries_bytes es).
Proof.
  induction es as [|e es IH]; [done|]. rewrite entries_bytes_cons_size.
  pose proof (size_of_nonneg (le_command e)). unfold size_of in *. cbn [length]. lia.
Qed.

(** A chunk range is consistent exactly when the encoder and the decoder find it
    so; the sum does not wrap. *)
Lemma chunk_range total offset n done :
  is_u64 total -> 0 <= n ->
  (total <? offset) || (total - offset <? n) || negb (Bool.eqb done (u64 (offset + n) =? total)) = false ->
  0 <= offset -> offset + n <= total /\ (done = true <-> offset + n = total).
Proof.
  unfold is_u64. intros Ht Hn. rewrite !orb_false_iff, !Z.ltb_ge, negb_false_iff, eqb_true_iff.
  intros [[H1 H2] ->] Ho. rewrite u64_small by (unfold is_u64; lia). rewrite Z.eqb_eq. lia.
Qed.

Lemma chunk_range_ok total offset n done :
  is_u64 total -> 0 <= offset -> 0 <= n -> offset + n <= total -> (done = true <-> offset + n = total) ->
  (total <? offset) || (total - offset <? n) || negb (Bool.eqb done (u64 (offset + n) =? total)) = false.
Proof.
  unfold is_u64. intros Ht Ho Hn Hle Hd. rewrite !orb_false_iff, !Z.ltb_ge, negb_false_iff, eqb_true_iff.
  rewrite u64_small by (unfold is_u64; lia). split; [lia|].
  destruct (Z.eqb_spec (offset + n) total); destruct done; naive_solver.
Qed.

(** ** Decoding what was laid out *)

Ltac field64 := rewrite ?read_write_u64 by done.

Lemma decode_append_entries_bytes r :
  wire_message (MAppendEntries r) ->
  decode_append_entries MessageType_raft_append_entries (message_bytes (MAppendEntries r)) =
  inr (MAppendEntries r).
Proof.
  intros (Hf & He & Hn). destruct Hf as (? & ? & ? & ? & ? & ?).
  pose proof (entries_bytes_size (ae_entries r)) as Hs. pose proof (size_of_nonneg (ae_entries r)).
  assert (is_u32 (size_of (ae_entries r)))
    by (unfold is_u32, RaftFormat.kMaxRaftLogEntriesPerRecord in *; lia).
  unfold decode_append_entries. set (b := message_bytes (MAppendEntries r)).
  assert (size_of b = 56 + size_of (entries_bytes (ae_entries r))) as Hb
    by (unfold b, size_of, message_bytes; rewrite !length_app; cbn [length]; unfold zero_bytes;
        rewrite length_replicate, !length_write_u64, length_write_u32; lia).
  rewrite (proj2 (Nat.ltb_ge (length b) 56)) by (unfold size_of in Hb; lia).
  change (Byte.eqb _ _) with true. change (all_zero (subspan 52 4 b)) with true. cbn [negb orb].
  change (subspan 48 4 b) with (write_u32 (size_of (ae_entries r)) ++ []).
  rewrite read_write_u32 by done. cbv zeta. unfold kEntryHeaderSize in *.
  rewrite (proj2 (Z.ltb_ge _ (size_of (ae_entries r)))), (proj2 (Z.ltb_ge _ (size_of (ae_entries r))))
    by (try done; apply Z.div_le_lower_bound; lia). cbn [orb].
  assert (read_entries (Z.to_nat (size_of (ae_entries r))) b 56 = inr (ae_entries r, length b)) as ->.
  { unfold size_of. rewrite Nat2Z.id. unfold b, message_bytes. rewrite !(assoc_L (++)).
    set (pre := _ ++ zero_bytes 4). change 56%nat with (length pre). by apply read_entries_bytes. }
  rewrite Nat.eqb_refl. cbn [negb].
  change (subspan 0 8 b) with (write_u64 (ae_term r) ++ []).
  change (subspan 8 8 b) with (write_u64 (ae_leader_id r) ++ []).
  change (subspan 16 8 b) with (write_u64 (ae_previous_log_index r) ++ []).
  change (subspan 24 8 b) with (write_u64 (ae_previous_log_term r) ++ []).
  change (subspan 32 8 b) with (write_u64 (ae_leader_commit r) ++ []).
  change (subspan 40 8 b) with (write_u64 (ae_rpc_id r) ++ []). field64. by destruct r.
Qed.

Lemma decode_install_snapshot_bytes r :
  wire_message (MInstallSnapshot r) ->
  decode_install_snapshot MessageType_raft_install_snapshot (message_bytes (MInstallSnapshot r)) =
  inr (MInstallSnapshot r).
Proof.
  intros (Hf & Hr & Hd). destruct Hf as (? & ? & ? & ? & ? & Ho & ?).
  unfold decode_install_snapshot. set (b := message_bytes (MInstallSnapshot r)).
  assert (size_of b - 64 = size_of (ins_data r)) as -> by (unfold size_of; cbn; lia).
  rewrite (proj2 (Nat.ltb_ge (length b) 64)) by (cbn; lia).
  change (Byte.eqb MessageType_raft_install_snapshot _) with true.
  change (byte_at b 56) with (flag_byte (ins_done r)). change (all_zero (subspan 57 7 b)) with true.
  rewrite flag_byte_le, flag_byte_eqb. cbn [negb orb].
  change (subspan 0 8 b) with (write_u64 (ins_term r) ++ []).
  change (subspan 8 8 b) with (write_u64 (ins_leader_id r) ++ []).
  change (subspan 16 8 b) with (write_u64 (ins_last_included_index r) ++ []).
  change (subspan 24 8 b) with (write_u64 (ins_last_included_term r) ++ []).
  change (subspan 32 8 b) with (write_u64 (ins_total_size r) ++ []).
  change (subspan 40 8 b) with (write_u64 (ins_offset r) ++ []).
  change (subspan 48 8 b) with (write_u64 (ins_rpc_id r) ++ []).
  change (drop 64 b) with (ins_data r). field64. cbv zeta.
  rewrite chunk_range_ok by (done || apply size_of_nonneg || apply Ho). by destruct r.
Qed.

Lemma decode_body_bytes m :
  wire_message m -> decode_body (peer_kind m) (peer_type m) (message_bytes m) = inr m.
Proof.
  intros H. destruct m as [r|r|r|r|r|r].
  - destruct H as (? & ? & ? & ?). change (decode_body _ _ _) with (inr (A := string) (MRequestVote
      (mkRequestVote (read_u64 (write_u64 (rv_term r) ++ [])) (read_u64 (write_u64 (rv_candidate_id r) ++ []))
        (read_u64 (write_u64 (rv_last_log_index r) ++ [])) (read_u64 (write_u64 (rv_last_log_term r) ++ []))))).
    field64. by destruct r.
  - destruct r as [t g]. transitivity (inr (A := string) (MRequestVoteResponse
      (mkRequestVoteResponse (read_u64 (write_u64 t ++ [])) g))); [by destruct g|by field64].
  - by apply decode_append_entries_bytes.
  - destruct H as (? & ? & ? & ?). cbn in *. destruct r as [t g mi rh id].
    transitivity (inr (A := string) (MAppendEntriesResponse
      (mkAppendEntriesResponse (read_u64 (write_u64 t ++ [])) g (read_u64 (write_u64 mi ++ []))
        (read_u64 (write_u64 rh ++ [])) (read_u64 (write_u64 id ++ []))))); [by destruct g|by field64].
  - by apply decode_install_snapshot_bytes.
  - destruct H as (? & ? & ? & ?). cbn in *. destruct r as [t g li no id].
    transitivity (inr (A := string) (MInstallSnapshotResponse
      (mkInstallSnapshotResponse (read_u64 (write_u64 t ++ [])) g (read_u64 (write_u64 li ++ []))
        (read_u64 (write_u64 no ++ [])) (read_u64 (write_u64 id ++ []))))); [by destruct g|by field64].
Qed.

Lemma decode_peer_bytes env rid :
  wire_envelope env -> decode_peer_frame (peer_frame env rid) = decoded env.
Proof.
  intros ([Hc Hc0] & [Hf Hf0] & [Ht Ht0] & Hm). unfold decode_peer_frame.
  cbn [message_namespace message_type payload peer_frame]. set (b := peer_bytes env).
  rewrite (proj2 (Nat.ltb_ge (length b) kPeerCommonSize)) by (cbn; unfold kPeerCommonSize; lia).
  change (all_zero (subspan 25 7 b)) with true. change (Byte.eqb _ _) with true. cbn [negb orb].
  change (subspan 0 8 b) with (write_u64 (pe_cluster_id env) ++ []).
  change (subspan 8 8 b) with (write_u64 (pe_from env) ++ []).
  change (subspan 16 8 b) with (write_u64 (pe_to env) ++ []).
  change (byte_at b 24) with (peer_kind (pe_message env)).
  change (drop kPeerCommonSize b) with (message_bytes (pe_message env)). field64. cbv zeta.
  rewrite (proj2 (Z.eqb_neq _ 0) Hc0), (proj2 (Z.eqb_neq _ 0) Hf0), (proj2 (Z.eqb_neq _ 0) Ht0).
  cbn [orb]. rewrite decode_body_bytes by done. by destruct env.
Qed.

(** ** Encoding *)

(** What the encoder asks for beyond the fields being machine integers. *)
Definition identified (m : Message) : Prop :=
  match m with
  | MAppendEntries r => ae_rpc_id r <> 0
  | MInstallSnapshot r => ins_rpc_id r <> 0 /\ ins_term r <> 0 /\ ins_leader_id r <> 0 /\
      ins_last_included_index r <> 0 /\ ins_last_included_term r <> 0
  | _ => True
  end.

#[export] Instance identified_dec m : Decision (identified m).
Proof. destruct m; cbn; apply _. Defined.

Definition fits (env : PeerEnvelope) : Prop := size_of (peer_bytes env) <= kMaxPayloadSize.

Lemma peer_bytes_size env : size_of (peer_bytes env) = 32 + size_of (message_bytes (pe_message env)).
Proof. unfold size_of, peer_bytes. cbn. lia. Qed.

Lemma append_entries_size_ok es size :
  Forall sendable_entry es -> size + size_of (entries_bytes es) <= kMaxPayloadSize ->
  append_entries_size es size = Ok (size + size_of (entries_bytes es)).
Proof.
  revert size. induction es as [|e es IH]; intros size Hs; cbn [append_entries_size].
  { intros _. f_equal. change (size_of _) with 0. lia. }
  apply Forall_cons in Hs as [[[? Hi] [? Ht] Hc Hop] Hs].
  rewrite entries_bytes_cons_size. intros Hle. pose proof (size_of_nonneg (entries_bytes es)).
  pose proof (size_of_nonneg (le_command e)).
  rewrite (proj2 (Z.eqb_neq _ 0) Hi), (proj2 (Z.eqb_neq _ 0) Ht).
  rewrite !(proj2 (Z.ltb_ge _ _)) by (done || lia). cbn [orb].
  assert (bool_decide (le_kind e = no_op) && negb (bool_decide (le_command e = [])) = false) as ->.
  { case_bool_decide as E; [|done]. by rewrite (Hop E). }
  cbn [orb]. rewrite IH; [f_equal; lia|done|lia].
Qed.

Lemma append_entries_size_inv es size n :
  append_entries_size es size = Ok n -> size <= kMaxPayloadSize ->
  n = size + size_of (entries_bytes es) /\ n <= kMaxPayloadSize /\
  Forall (fun e => is_u64 (le_index e) -> is_u64 (le_term e) -> sendable_entry e) es.
Proof.
  revert size. induction es as [|e es IH]; intros size; cbn [append_entries_size].
  { intros [= <-] ?. change (size_of _) with 0. split_and!; [lia..|constructor]. }
  destruct (_ || _) eqn:Eg; [done|]. rewrite !orb_false_iff, !Z.eqb_neq, !Z.ltb_ge in Eg.
  destruct Eg as (((((Hi & Ht) & Hc) & Hop) & H1) & H2). intros E _.
  apply IH in E as (-> & Hle & Hf); [|unfold kEntryHeaderSize in *; lia].
  rewrite entries_bytes_cons_size. split_and!; [lia..|].
  constructor; [|done]. intros Hiu Htu. split; [done..|]. intros Hk.
  rewrite bool_decide_true, andb_true_l, negb_false_iff, bool_decide_eq_true in Hop by done. done.
Qed.

(** The sizes computed before encoding are the sizes of the layouts. *)
Lemma peer_payload_size_ok env :
  wire_message (pe_message env) -> identified (pe_message env) -> fits env ->
  peer_payload_size (pe_message env) = Ok (size_of (peer_bytes env)).
Proof.
  unfold fits. rewrite peer_bytes_size. destruct (pe_message env) as [r|r|r|r|r|r]; intros H Hid Hf; try done.
  - destruct H as (_ & He & Hn). cbn [peer_payload_size identified] in *.
    rewrite (proj2 (Z.eqb_neq _ 0) Hid), (proj2 (Z.ltb_ge _ _) Hn). cbn [orb].
    assert (size_of (message_bytes (MAppendEntries r)) = 56 + size_of (entries_bytes (ae_entries r))) as Hs
      by (unfold size_of; cbn; lia).
    rewrite append_entries_size_ok by (done || unfold kPeerCommonSize; lia).
    f_equal. unfold kPeerCommonSize. lia.
  - destruct H as ((? & ? & ? & ? & Htot & Ho & ?) & Hr & Hd). cbn [peer_payload_size identified] in *.
    destruct Hid as (Hz1 & Hz2 & Hz3 & Hz4 & Hz5).
    assert (size_of (message_bytes (MInstallSnapshot r)) = 64 + size_of (ins_data r)) as Hs
      by (unfold size_of; cbn; lia).
    rewrite (proj2 (Z.eqb_neq _ 0) Hz1), (proj2 (Z.eqb_neq _ 0) Hz2), (proj2 (Z.eqb_neq _ 0) Hz3),
      (proj2 (Z.eqb_neq _ 0) Hz4), (proj2 (Z.eqb_neq _ 0) Hz5). cbn [orb].
    rewrite chunk_range_ok by (done || apply size_of_nonneg || apply Ho).
    rewrite (proj2 (Z.ltb_ge _ _)) by (unfold kPeerCommonSize; lia). cbn [orb].
    f_equal. unfold kPeerCommonSize. lia.
Qed.

Lemma write_body_ok m :
  wire_message m -> write_body m (zero_bytes (length (message_bytes m))) = Ok (message_bytes m).
Proof.
  destruct m as [r|r|r|r|r|r]; intros H; try reflexivity.
  - destruct H as (_ & He & Hn). cbn [write_body]. pose proof (size_of_nonneg (ae_entries r)).
    unfold RaftFormat.kMaxRaftLogEntriesPerRecord in Hn.
    rewrite (proj2 (Z.ltb_ge _ _)) by (unfold u32_max; lia). f_equal.
    rewrite u32_small by (unfold is_u32; lia).
    change (length (message_bytes (MAppendEntries r))) with (56 + length (entries_bytes (ae_entries r)))%nat.
    unfold message_bytes. set (es := entries_bytes (ae_entries r)).
    unfold zero_bytes at 1. rewrite replicate_add. fold (zero_bytes (length es)).
    rewrite write_entries_stored, !(assoc_L (++)). set (pre := _ ++ zero_bytes 4).
    change (RaftFormat.write_entries (map RaftFormat.stored (ae_entries r)) (length pre)
      (pre ++ zero_bytes (length es)) = pre ++ es).
    by apply RaftFormat.write_entries_body, sendable_valid.
  - cbn [write_body].
    change (length (message_bytes (MInstallSnapshot r))) with (64 + length (ins_data r))%nat.
    unfold zero_bytes at 1. rewrite replicate_add. fold (zero_bytes (length (ins_data r))).
    unfold message_bytes. rewrite !(assoc_L (++)). set (pre := _ ++ zero_bytes 7).
    change (Ok (write_at (length pre) (ins_data r) (pre ++ zero_bytes (length (ins_data r)))) =
      Ok (pre ++ ins_data r)).
    rewrite write_at_app_r, Nat.sub_diag, write_at_all by (done || unfold zero_bytes; by rewrite length_replicate).
    done.
Qed.

Lemma encode_peer_frame_ok env rid :
  wire_envelope env -> identified (pe_message env) -> fits env ->
  encode_peer_frame env rid = Ok (peer_frame env rid).
Proof.
  intros ([Hc Hc0] & [Hf Hf0] & [Ht Ht0] & Hm) Hid Hfit. unfold encode_peer_frame.
  rewrite (proj2 (Z.eqb_neq _ 0) Hc0), (proj2 (Z.eqb_neq _ 0) Hf0), (proj2 (Z.eqb_neq _ 0) Ht0).
  cbn [orb]. rewrite peer_payload_size_ok, (proj2 (Z.ltb_ge _ _) Hfit) by done.
  assert (Z.to_nat (size_of (peer_bytes env)) = (32 + length (message_bytes (pe_message env)))%nat) as ->
    by (rewrite peer_bytes_size; unfold size_of; lia).
  unfold zero_bytes. rewrite replicate_add. fold (zero_bytes (length (message_bytes (pe_message env)))).
  cbv zeta. set (zs := zero_bytes _). change (drop kPeerCommonSize _) with zs.
  unfold zs. rewrite write_body_ok by done. done.
Qed.

(** Whatever the encoder returns is the layout of its envelope. *)
Lemma encode_peer_frame_inv env rid f :
  encode_peer_frame env rid = Ok f ->
  identified (pe_message env) /\ fits env /\ pe_cluster_id env <> 0 /\ pe_from env <> 0 /\ pe_to env <> 0.
Proof.
  unfold encode_peer_frame. destruct (_ || _) eqn:Ez; [done|]. rewrite !orb_false_iff, !Z.eqb_neq in Ez.
  destruct (peer_payload_size _) as [n|] eqn:En; [|done].
  destruct (Z.ltb_spec kMaxPayloadSize n) as [|Hn]; [done|]. intros _.
  unfold fits. rewrite peer_bytes_size. destruct Ez as [[? ?] ?]. split_and!; try done.
  all: destruct (pe_message env) as [r|r|r|r|r|r]; try done; cbn [peer_payload_size identified] in *.
  all: destruct (_ || _) eqn:Eg in En; [done|]; rewrite !orb_false_iff, !Z.eqb_neq in Eg.
  - tauto.
  - tauto.
  - apply append_entries_size_inv in En as (-> & ? & _); [|done].
    change (message_bytes (MAppendEntries r)) with (take 56 (message_bytes (MAppendEntries r)) ++ entries_bytes (ae_entries r)).
    rewrite size_of_app. change (size_of (take 56 _)) with 56. unfold kPeerCommonSize in *. lia.
  - assert (size_of (message_bytes (MInstallSnapshot r)) = 64 + size_of (ins_data r)) as -> by (unfold size_of; cbn; lia).
    unfold kPeerCommonSize in *. injection En as <-. lia.
Qed.

(** The fields of an envelope as their C++ types hold them. *)
Definition machine_message (m : Message) : Prop :=
  match m with
  | MRequestVote r => is_u64 (rv_term r) /\ is_u64 (rv_candidate_id r) /\
      is_u64 (rv_last_log_index r) /\ is_u64 (rv_last_log_term r)
  | MRequestVoteResponse r => is_u64 (rvr_term r)
  | MAppendEntries r => (is_u64 (ae_term r) /\ is_u64 (ae_leader_id r) /\
      is_u64 (ae_previous_log_index r) /\ is_u64 (ae_previous_log_term r) /\
      is_u64 (ae_leader_commit r) /\ is_u64 (ae_rpc_id r)) /\
      Forall (fun e => is_u64 (le_index e) /\ is_u64 (le_term e)) (ae_entries r)
  | MAppendEntriesResponse r => is_u64 (aer_term r) /\ is_u64 (aer_match_index r) /\
      is_u64 (aer_reject_hint r) /\ is_u64 (aer_rpc_id r)
  | MInstallSnapshot r => is_u64 (ins_term r) /\ is_u64 (ins_leader_id r) /\
      is_u64 (ins_last_included_index r) /\ is_u64 (ins_last_included_term r) /\
      is_u64 (ins_total_size r) /\ is_u64 (ins_offset r) /\ is_u64 (ins_rpc_id r)
  | MInstallSnapshotResponse r => is_u64 (insr_term r) /\ is_u64 (insr_last_included_index r) /\
      is_u64 (insr_next_offset r) /\ is_u64 (insr_rpc_id r)
  end.

Definition machine_envelope (env : PeerEnvelope) : Prop :=
  is_u64 (pe_cluster_id env) /\ is_u64 (pe_from env) /\ is_u64 (pe_to env) /\
  machine_message (pe_message env).

(** What the encoder accepts, the decoder can read. *)
Lemma encoded_on_wire env rid f :
  machine_envelope env -> encode_peer_frame env rid = Ok f -> wire_envelope env /\ f = peer_frame env rid.
Proof.
  intros (Hc & Hf & Ht & Hm) E. pose proof (encode_peer_frame_inv _ _ _ E) as (Hid & Hfit & ? & ? & ?).
  assert (wire_envelope env) as Hw.
  { split_and!; try done. unfold encode_peer_frame in E. destruct (_ || _) in E; [done|].
    destruct (peer_payload_size _) as [n|] eqn:En in E; [|done]. clear E.
    destruct (pe_message env) as [r|r|r|r|r|r]; try exact Hm; cbn [peer_payload_size] in En.
    - destruct (_ || _) eqn:Eg in En; [done|]. rewrite orb_false_iff, Z.ltb_ge in Eg. destruct Hm as [Hu He].
      apply append_entries_size_inv in En as (_ & _ & Hs); [|done]. split_and!; [apply Hu..| |apply Eg].
      eapply Forall_impl; [exact (proj2 (Forall_and _ _) (conj He Hs))|]. cbn. intros e [[? ?] Hse]. by apply Hse.
    - destruct (_ || _) eqn:Eg in En; [done|]. rewrite !orb_false_iff in Eg. split; [exact Hm|].
      destruct Hm as (_ & _ & _ & _ & Htot & [Ho _] & _).
      apply chunk_range; [done|apply size_of_nonneg| |done]. rewrite !orb_false_iff; tauto. }
  split; [done|]. rewrite encode_peer_frame_ok in E by done. congruence.
Qed.

(** ** Soundness of the decoder *)

Lemma decode_request_vote_sound type b m :
  decode_request_vote type b = inr m ->
  b = message_bytes m /\ wire_message m /\ type = peer_type m /\ peer_kind m = PeerKind_request_vote.
Proof.
  unfold decode_request_vote. destruct (_ || _) eqn:Eg; [done|]. intros [= <-].
  rewrite !orb_false_iff, !negb_false_iff, Nat.eqb_eq in Eg. destruct Eg as [Hty Hl].
  apply Byte.byte_dec_bl in Hty as ->.
  split_and!; [|cbn [wire_message]; split_and?; apply read_u64_range, length_subspan; lia|done|done].
  cbn [message_bytes rv_term rv_candidate_id rv_last_log_index rv_last_log_term].
  rewrite <- (drop_0 b) at 1. rewrite (cut_u64 b 0) by lia. f_equal. rewrite (cut_u64 b) by lia. f_equal.
  rewrite (cut_u64 b) by lia. f_equal. rewrite (cut_u64 b) by lia.
  by rewrite (drop_ge b), app_nil_r by lia.
Qed.

Lemma decode_request_vote_response_sound type b m :
  decode_request_vote_response type b = inr m ->
  b = message_bytes m /\ wire_message m /\ type = peer_type m /\
  peer_kind m = PeerKind_request_vote_response.
Proof.
  unfold decode_request_vote_response. destruct (_ || _) eqn:Eg; [done|]. intros [= <-].
  rewrite !orb_false_iff, !negb_false_iff, Nat.eqb_eq, Z.ltb_ge in Eg. destruct Eg as [[[Hty Hl] Hb] Hz].
  apply Byte.byte_dec_bl in Hty as ->.
  split_and!; [|cbn [wire_message]; split_and?; apply read_u64_range, length_subspan; lia|done|done].
  cbn [message_bytes rvr_term rvr_vote_granted]. rewrite flag_of_byte by done.
  rewrite <- (drop_0 b) at 1. rewrite (cut_u64 b 0) by lia. f_equal. rewrite (cut_byte b) by lia. f_equal.
  rewrite (cut_zero b _ 7) by (done || lia). by rewrite (drop_ge b), app_nil_r by lia.
Qed.

(** The two responses of the same layout. *)
Lemma response_layout b :
  length b = 40%nat -> Z_of_byte (byte_at b 8) <= 1 -> all_zero (subspan 9 7 b) = true ->
  b = write_u64 (read_u64 (subspan 0 8 b)) ++ [flag_byte (Byte.eqb (byte_at b 8) Byte.x01)] ++
      zero_bytes 7 ++ write_u64 (read_u64 (subspan 16 8 b)) ++ write_u64 (read_u64 (subspan 24 8 b)) ++
      write_u64 (read_u64 (subspan 32 8 b)).
Proof.
  intros Hl Hb Hz. rewrite flag_of_byte by done.
  rewrite <- (drop_0 b) at 1. rewrite (cut_u64 b 0) by lia. f_equal. rewrite (cut_byte b) by lia. f_equal.
  rewrite (cut_zero b _ 7) by (done || lia). f_equal. rewrite (cut_u64 b) by lia. f_equal.
  rewrite (cut_u64 b) by lia. f_equal. rewrite (cut_u64 b) by lia.
  by rewrite (drop_ge b), app_nil_r by lia.
Qed.

Lemma decode_append_entries_response_sound type b m :
  decode_append_entries_response type b = inr m ->
  b = message_bytes m /\ wire_message m /\ type = peer_type m /\
  peer_kind m = PeerKind_append_entries_response.
Proof.
  unfold decode_append_entries_response. destruct (_ || _) eqn:Eg; [done|]. intros [= <-].
  rewrite !orb_false_iff, !negb_false_iff, Nat.eqb_eq, Z.ltb_ge in Eg. destruct Eg as [[[Hty Hl] Hb] Hz].
  apply Byte.byte_dec_bl in Hty as ->.
  split_and!; [by apply response_layout|cbn [wire_message]; split_and!; apply read_u64_range, length_subspan; lia|done|done].
Qed.

Lemma decode_install_snapshot_response_sound type b m :
  decode_install_snapshot_response type b = inr m ->
  b = message_bytes m /\ wire_message m /\ type = peer_type m /\
  peer_kind m = PeerKind_install_snapshot_response.
Proof.
  unfold decode_install_snapshot_response. destruct (_ || _) eqn:Eg; [done|]. intros [= <-].
  rewrite !orb_false_iff, !negb_false_iff, Nat.eqb_eq, Z.ltb_ge in Eg. destruct Eg as [[[Hty Hl] Hb] Hz].
  apply Byte.byte_dec_bl in Hty as ->.
  split_and!; [by apply response_layout|cbn [wire_message]; split_and!; apply read_u64_range, length_subspan; lia|done|done].
Qed.

Lemma decode_install_snapshot_sound type b m :
  decode_install_snapshot type b = inr m ->
  b = message_bytes m /\ wire_message m /\ type = peer_type m /\ peer_kind m = PeerKind_install_snapshot.
Proof.
  unfold decode_install_snapshot. destruct (_ || _) eqn:Eg; [done|]. cbv zeta.
  rewrite !orb_false_iff, !negb_false_iff, Nat.ltb_ge, Z.ltb_ge in Eg. destruct Eg as [[[Hty Hl] Hb] Hz].
  destruct (_ || _) eqn:Er; [done|]. intros [= <-]. apply Byte.byte_dec_bl in Hty as ->.
  assert (forall off, (off + 8 <= 64)%nat -> is_u64 (read_u64 (subspan off 8 b))) as Hu
    by (intros off ?; apply read_u64_range, length_subspan; lia).
  assert (size_of b - 64 = size_of (drop 64 b)) as Hsz by (unfold size_of; rewrite length_drop; lia).
  split_and!; [|split; [split_and!; apply Hu; lia|]|done|done].
  - cbn [message_bytes ins_term ins_leader_id ins_last_included_index ins_last_included_term ins_total_size
      ins_offset ins_rpc_id ins_done ins_data]. rewrite flag_of_byte by done.
    rewrite <- (drop_0 b) at 1. rewrite (cut_u64 b 0) by lia. f_equal. do 6 (rewrite (cut_u64 b) by lia; f_equal).
    rewrite (cut_byte b) by lia. f_equal. by rewrite (cut_zero b _ 7) by (done || lia).
  - cbn [ins_offset ins_data ins_total_size ins_done]. rewrite Hsz in Er.
    apply chunk_range in Er; [done|apply Hu; lia|apply size_of_nonneg|]. apply (Hu 40%nat). lia.
Qed.

Lemma decode_append_entries_sound type b m :
  decode_append_entries type b = inr m ->
  b = message_bytes m /\ wire_message m /\ type = peer_type m /\ peer_kind m = PeerKind_append_entries.
Proof.
  unfold decode_append_entries. destruct (_ || _) eqn:Eg; [done|]. cbv zeta.
  rewrite !orb_false_iff, !negb_false_iff, Nat.ltb_ge in Eg. destruct Eg as [[Hty Hl] Hz].
  destruct (_ || _) eqn:Ec; [done|]. rewrite orb_false_iff, !Z.ltb_ge in Ec. destruct Ec as [_ Hn].
  destruct (read_entries _ _ _) as [|[es o]] eqn:Ee; [done|].
  destruct (Nat.eqb_spec o (length b)) as [->|]; [|done]. cbn [negb]. intros [= <-].
  apply Byte.byte_dec_bl in Hty as ->.
  assert (is_u32 (read_u32 (subspan 48 4 b))) as Hu32 by (apply read_u32_range, length_subspan; lia).
  unfold is_u32 in Hu32. apply read_entries_sound in Ee as (Hd & Hlen & Hs & _); [|done].
  assert (size_of es = read_u32 (subspan 48 4 b)) as Hc by (unfold size_of; rewrite Hlen; lia).
  split_and!; [|split; [split_and!; apply read_u64_range, length_subspan; lia|]|done|done].
  - cbn [message_bytes ae_term ae_leader_id ae_previous_log_index ae_previous_log_term ae_leader_commit
      ae_rpc_id ae_entries].
    rewrite <- (drop_0 b) at 1. rewrite (cut_u64 b 0) by lia. f_equal. do 5 (rewrite (cut_u64 b) by lia; f_equal).
    rewrite (cut_u32 b), Hc by lia. f_equal. rewrite (cut_zero b _ 4) by (done || lia). f_equal.
    cbn [Nat.add]. by rewrite Hd, (drop_ge b), app_nil_r by lia.
  - cbn [ae_entries]. split; [done|lia].
Qed.

Lemma decode_body_sound kind type b m :
  decode_body kind type b = inr m ->
  b = message_bytes m /\ wire_message m /\ type = peer_type m /\ kind = peer_kind m.
Proof.
  unfold decode_body.
  destruct (Byte.eqb kind PeerKind_request_vote) eqn:E1;
    [apply Byte.byte_dec_bl in E1 as ->; intros H%decode_request_vote_sound; naive_solver|].
  destruct (Byte.eqb kind PeerKind_request_vote_response) eqn:E2;
    [apply Byte.byte_dec_bl in E2 as ->; intros H%decode_request_vote_response_sound; naive_solver|].
  destruct (Byte.eqb kind PeerKind_append_entries) eqn:E3;
    [apply Byte.byte_dec_bl in E3 as ->; intros H%decode_append_entries_sound; naive_solver|].
  destruct (Byte.eqb kind PeerKind_append_entries_response) eqn:E4;
    [apply Byte.byte_dec_bl in E4 as ->; intros H%decode_append_entries_response_sound; naive_solver|].
  destruct (Byte.eqb kind PeerKind_install_snapshot) eqn:E5;
    [apply Byte.byte_dec_bl in E5 as ->; intros H%decode_install_snapshot_sound; naive_solver|].
  destruct (Byte.eqb kind PeerKind_install_snapshot_response) eqn:E6; [|done].
  apply Byte.byte_dec_bl in E6 as ->; intros H%decode_install_snapshot_response_sound; naive_solver.
Qed.

Lemma decode_peer_frame_sound f env :
  dr_value (decode_peer_frame f) = Some env ->
  wire_envelope env /\ message_namespace f = Namespace_raft /\
  message_type f = peer_type (pe_message env) /\ payload f = peer_bytes env.
Proof.
  unfold decode_peer_frame. destruct (_ || _) eqn:Eg; [done|]. cbv zeta.
  rewrite !orb_false_iff, !negb_false_iff, Nat.ltb_ge in Eg. destruct Eg as [[Hns Hl] Hz].
  unfold kPeerCommonSize in *. set (b := payload f) in *.
  destruct ((_ =? 0) || _ || _) eqn:E0; [done|]. rewrite !orb_false_iff, !Z.eqb_neq in E0.
  destruct E0 as [[? ?] ?]. destruct (decode_body _ _ _) as [|m] eqn:Em; [done|]. intros [= <-].
  apply decode_body_sound in Em as (Hb & Hw & Hty & Hk).
  split_and!; try done; [unfold wire_envelope; split_and!; try done; apply read_u64_range, length_subspan; lia
    |by apply Byte.byte_dec_bl in Hns|].
  unfold peer_bytes. cbn [pe_cluster_id pe_from pe_to pe_message]. rewrite <- Hk, <- Hb.
  rewrite <- (drop_0 b) at 1. rewrite (cut_u64 b 0) by lia. f_equal. do 2 (rewrite (cut_u64 b) by lia; f_equal).
  rewrite (cut_byte b) by lia. f_equal. by rewrite (cut_zero b _ 7) by (done || lia).
Qed.

(** ** Replicated commands *)

Definition command_bytes (c : ReplicatedCommand) : list byte :=
  [operation_byte (rc_operation c)] ++ zero_bytes 7 ++ rc_client_id c ++ write_u64 (rc_request_id c) ++
  write_u32 (size_of (rc_key c)) ++ write_u32 (size_of (rc_value c)) ++ rc_key c ++ rc_value c.

(** A command as its C++ type holds it. *)
Definition machine_command (c : ReplicatedCommand) : Prop :=
  length (rc_client_id c) = 16%nat /\ is_u64 (rc_request_id c).

Record valid_command (c : ReplicatedCommand) : Prop := {
  vc_machine : machine_command c;
  vc_request : rc_request_id c <> 0;
  vc_key : 0 < size_of (rc_key c) <= kMaxKeySize;
  vc_value : size_of (rc_value c) <= kMaxValueSize;
  vc_delete : rc_operation c = delete_key -> rc_value c = []
}.

Lemma valid_key_size_spec n : valid_key_size n = true <-> 0 < n <= kMaxKeySize.
Proof. unfold valid_key_size. rewrite andb_true_iff, Z.ltb_lt, Z.leb_le. done. Qed.

Lemma command_bytes_size c :
  length (rc_client_id c) = 16%nat ->
  size_of (command_bytes c) = Z.of_nat kCommandHeaderSize + size_of (rc_key c) + size_of (rc_value c).
Proof.
  intros H. unfold size_of, command_bytes, kCommandHeaderSize. rewrite !length_app, H, length_write_u64,
    !length_write_u32. cbn [length]. unfold zero_bytes. rewrite length_replicate. lia.
Qed.

Lemma encode_command_ok c :
  valid_command c -> encode_replicated_command c = Ok (command_bytes c).
Proof.
  intros [[Hid Hu] Hr Hk Hv Hd]. unfold encode_replicated_command.
  rewrite (proj2 (valid_key_size_spec _) Hk), (proj2 (Z.ltb_ge _ _) Hv), (proj2 (Z.eqb_neq _ 0) Hr).
  assert (bool_decide (rc_operation c = delete_key) && negb (bool_decide (rc_value c = [])) = false) as ->.
  { case_bool_decide as E; [|done]. by rewrite (Hd E). }
  cbn [negb orb]. pose proof (size_of_nonneg (rc_value c)). unfold kMaxKeySize, kMaxValueSize in *.
  rewrite !u32_small by (unfold is_u32; lia). cbv zeta. f_equal. unfold command_bytes.
  destruct c as [op id rid k v]. cbn [rc_operation rc_client_id rc_request_id rc_key rc_value] in *.
  do 17 (destruct id as [|? id]; [try done|]); [|done].
  rewrite <- Nat.add_assoc. unfold zero_bytes at 1. rewrite !replicate_add.
  fold (zero_bytes (length k)) (zero_bytes (length v)).
  rewrite !(assoc_L (++)). set (pre := _ ++ write_u32 (size_of v)).
  change (write_at (length pre + length k) v (write_at (length pre) k
    ((pre ++ zero_bytes (length k)) ++ zero_bytes (length v))) = pre ++ k ++ v).
  assert (write_at (length pre) k (pre ++ zero_bytes (length k)) = pre ++ k) as Hk'
    by (rewrite write_at_app_r, Nat.sub_diag, write_at_all by (unfold zero_bytes; rewrite ?length_replicate; lia); done).
  rewrite write_at_app_l, Hk' by (unfold zero_bytes; rewrite length_app, length_replicate; lia).
  rewrite write_at_app_r by (rewrite length_app; lia).
  rewrite length_app, Nat.sub_diag, write_at_all by (unfold zero_bytes; by rewrite length_replicate).
  done.
Qed.

Lemma encode_command_inv c bs :
  machine_command c -> encode_replicated_command c = Ok bs -> valid_command c /\ bs = command_bytes c.
Proof.
  intros Hm E. assert (valid_command c) as Hv.
  { revert E. unfold encode_replicated_command. destruct (_ || _) eqn:Eg; [done|]. intros _.
    rewrite !orb_false_iff, negb_false_iff, Z.ltb_ge, Z.eqb_neq, valid_key_size_spec in Eg.
    destruct Eg as [[[Hk Hval] Hd] Hr]. split; try done. intros Hop.
    rewrite bool_decide_true, andb_true_l, negb_false_iff, bool_decide_eq_true in Hd by done. done. }
  split; [done|]. rewrite encode_command_ok in E by done. congruence.
Qed.

Lemma decode_command_bytes c :
  valid_command c -> decode_replicated_command (command_bytes c) = decoded c.
Proof.
  intros [[Hid Hu] Hr Hk Hv Hd]. pose proof (command_bytes_size c Hid) as Hs.
  pose proof (size_of_nonneg (rc_value c)). unfold decode_replicated_command.
  assert (is_u32 (size_of (rc_key c)) /\ is_u32 (size_of (rc_value c))) as [? ?]
    by (unfold is_u32, kMaxKeySize, kMaxValueSize in *; lia).
  rewrite (proj2 (Nat.ltb_ge _ _)) by (unfold size_of in Hs; unfold kCommandHeaderSize in *; lia).
  rewrite Hs. clear Hs. unfold kCommandHeaderSize.
  destruct c as [op id rid k v]. cbn [rc_operation rc_client_id rc_request_id rc_key rc_value] in *.
  assert (subspan 40 (length k) (command_bytes (Build_ReplicatedCommand op id rid k v)) = k /\
          subspan (40 + length k) (length v) (command_bytes (Build_ReplicatedCommand op id rid k v)) = v) as [Ek Ev].
  { unfold command_bytes. cbn [rc_operation rc_client_id rc_request_id rc_key rc_value].
    do 17 (destruct id as [|? id]; [try done|]); [|done]. rewrite !(assoc_L (++)).
    set (pre := _ ++ write_u32 (size_of v)). change 40%nat with (length pre). split.
    - rewrite <- (assoc_L (++)), <- (Nat.add_0_r (length pre)), RaftFormat.subspan_app_r. apply take_app_length.
    - rewrite <- length_app. unfold subspan. by rewrite drop_app_length, take_ge. }
  do 17 (destruct id as [|? id]; [try done|]); [|done].
  set (bs := command_bytes _) in *. change (all_zero (subspan 1 7 bs)) with true. cbn [negb orb].
  change (subspan 32 4 bs) with (write_u32 (size_of k) ++ []).
  change (subspan 36 4 bs) with (write_u32 (size_of v) ++ []).
  change (subspan 24 8 bs) with (write_u64 rid ++ []).
  rewrite !read_write_u32, read_write_u64 by done. cbv zeta.
  assert (operation_of (byte_at bs 0) = Some op) as -> by by destruct op.
  rewrite (proj2 (valid_key_size_spec _) Hk), (proj2 (Z.ltb_ge _ _) Hv), Z.eqb_refl.
  assert (bool_decide (op = delete_key) && negb (size_of v =? 0) = false) as ->.
  { case_bool_decide as E; [|done]. by rewrite (Hd E). }
  cbn [negb orb]. rewrite (proj2 (Z.eqb_neq _ 0) Hr).
  unfold size_of. by rewrite !Nat2Z.id, Ek, Ev.
Qed.

Lemma operation_of_byte b op : operation_of b = Some op -> operation_byte op = b.
Proof. by destruct b; intros [= <-]. Qed.

Lemma decode_command_sound bs c :
  dr_value (decode_replicated_command bs) = Some c -> valid_command c /\ bs = command_bytes c.
Proof.
  unfold decode_replicated_command, kCommandHeaderSize. destruct (_ || _) eqn:Eg; [done|]. cbv zeta.
  rewrite orb_false_iff, negb_false_iff, Nat.ltb_ge in Eg. destruct Eg as [Hl Hz].
  destruct (operation_of _) as [op|] eqn:Eop; [|done].
  set (k := read_u32 (subspan 32 4 bs)). set (v := read_u32 (subspan 36 4 bs)).
  destruct (_ || _) eqn:Ev; [done|].
  rewrite !orb_false_iff, !negb_false_iff, Z.ltb_ge, Z.eqb_eq, valid_key_size_spec in Ev.
  destruct Ev as [[[Hk Hv] Hd] Hs]. destruct (Z.eqb_spec (read_u64 (subspan 24 8 bs)) 0) as [|Hr]; [done|].
  set (vb := subspan (40 + Z.to_nat k) (Z.to_nat v) bs). intros [= <-]. unfold size_of in Hs.
  assert (is_u32 k /\ is_u32 v) as [Hku Hvu] by (split; apply read_u32_range, length_subspan; lia).
  unfold is_u32 in *.
  assert (length (subspan 40 (Z.to_nat k) bs) = Z.to_nat k) as Hlk by (apply length_subspan; lia).
  assert (length vb = Z.to_nat v) as Hlv by (apply length_subspan; lia).
  split; [split; cbn [rc_operation rc_client_id rc_request_id rc_key rc_value]; try done|].
  - split; [apply length_subspan|apply read_u64_range, length_subspan]; lia.
  - unfold size_of. rewrite Hlk. lia.
  - unfold size_of. rewrite Hlv. lia.
  - intros ->. rewrite bool_decide_true, andb_true_l, negb_false_iff, Z.eqb_eq in Hd by done.
    apply nil_length_inv. lia.
  - unfold command_bytes. cbn [rc_operation rc_client_id rc_request_id rc_key rc_value]. unfold size_of.
    rewrite Hlk, Hlv, !Z2Nat.id by lia.
    rewrite (operation_of_byte _ _ Eop).
    rewrite <- (drop_0 bs) at 1. rewrite (cut_byte bs 0) by lia. f_equal.
    rewrite (cut_zero bs _ 7) by (done || lia). f_equal. rewrite (cut_span bs _ 16). f_equal.
    rewrite (cut_u64 bs) by lia. f_equal. do 2 (rewrite (cut_u32 bs) by lia; f_equal).
    cbn [Nat.add]. rewrite (cut_span bs _ (Z.to_nat k)). f_equal.
    by rewrite (cut_span bs _ (Z.to_nat v)), (drop_ge bs), app_nil_r by lia.
Qed.

(** A client request that is accepted gives a command that can be replicated. *)
Lemma client_mutation_valid f c :
  is_u64 (request_id f) -> dr_value (decode_client_mutation f) = Some c -> valid_command c.
Proof.
  intros Hu. unfold decode_client_mutation. destruct (_ || _) eqn:Eg; [done|]. cbv zeta.
  rewrite !orb_false_iff, Z.eqb_neq, Nat.ltb_ge in Eg. destruct Eg as [[[_ _] Hr] Hl].
  set (op := if Byte.eqb _ _ then put else delete_key). set (b := payload f) in *.
  destruct (_ && _) eqn:Et; [done|]. set (k := read_u32 (subspan 16 4 b)).
  set (h := if bool_decide (op = put) then 24%nat else 20%nat).
  set (v := if bool_decide (op = put) then _ else 0).
  destruct (_ || _) eqn:Ev; [done|]. intros [= <-].
  rewrite !orb_false_iff, !negb_false_iff, Z.ltb_ge, Z.eqb_eq, valid_key_size_spec in Ev.
  destruct Ev as [[Hk Hv] Hs]. unfold size_of in Hs.
  assert (0 <= v) as Hv0.
  { unfold v. case_bool_decide as Eop; [|done]. rewrite andb_true_l, Nat.ltb_ge in Et.
    apply read_u32_range, length_subspan. lia. }
  split; cbn [rc_operation rc_client_id rc_request_id rc_key rc_value]; try done.
  - split; [|done]. cbn. rewrite length_take. lia.
  - unfold size_of. rewrite length_subspan; lia.
  - unfold size_of. rewrite length_subspan; lia.
  - intros Hd. unfold v. by rewrite bool_decide_false by (rewrite Hd; done).
Qed.

End ClusterCodecs.
