(* ===== verification/StateMachine.v ===== *)
(** * The replicated state machine

    [src/cluster/state_machine.cpp]: the key-value state with the last request
    of every client, [apply], [snapshot] and [restore].  A
    [std::unordered_map] is a [gmap]; the order in which it is traversed is
    unspecified, and is what [UnorderedMap] leaves open. *)

From S2P Require Import Prelude Wire Protocol RaftTypes RaftFormat ClusterCodecs.

Module StateMachine.
Import ClusterCodecs.

(** The traversal order of [std::unordered_map]: some order of its elements. *)
Class UnorderedMap := {
  traverse : forall {K} `{Countable K} {A}, gmap K A -> list (K * A);
  traverse_elements : forall `{Countable K} {A} (m : gmap K A), traverse m ≡ₚ map_to_list m
}.

Abbreviation ClientId := (list byte) (only parsing).

Record DedupRecord : Set := {
  d_request_id : Z;
  d_command : list byte;
  d_response : list byte
}.

Abbreviation KeyValueState := (gmap (list byte) (list byte)) (only parsing).
Abbreviation DedupState := (gmap (list byte) DedupRecord) (only parsing).

Record SnapshotState : Set := {
  ss_values : KeyValueState;
  ss_clients : DedupState
}.

Inductive MutationApplyStatus : Set :=
| applied
| duplicate
| request_id_reuse
| stale_request
| capacity_exceeded.

Record MutationApplyResult : Set := {
  ar_status : MutationApplyStatus;
  ar_response : list byte
}.

#[export] Instance DedupRecord_eq_dec : EqDecision DedupRecord.
Proof. solve_decision. Defined.
#[export] Instance SnapshotState_eq_dec : EqDecision SnapshotState.
Proof. solve_decision. Defined.
#[export] Instance MutationApplyStatus_eq_dec : EqDecision MutationApplyStatus.
Proof. solve_decision. Defined.
#[export] Instance MutationApplyResult_eq_dec : EqDecision MutationApplyResult.
Proof. solve_decision. Defined.

Definition kMaxDedupClients : Z := 1024.
Definition kMaxDedupBytes : Z := 64 * 1024 * 1024.

Record ReplicatedStateMachine : Set := {
  max_clients_ : Z;
  max_dedup_bytes_ : Z;
  dedup_bytes_ : Z;
  values_ : KeyValueState;
  clients_ : DedupState
}.

#[export] Instance ReplicatedStateMachine_eq_dec : EqDecision ReplicatedStateMachine.
Proof. solve_decision. Defined.

Definition map_size {A} (m : gmap (list byte) A) : Z := Z.of_nat (size m).

(** ** Operations *)

Definition validate_response (command : ReplicatedCommand) (response : list byte) : result unit :=
  match rc_operation command with
  | put => if negb (bool_decide (response = [])) then Throw invalid_argument else Ok tt
  | delete_key =>
      if negb (Nat.eqb (length response) 1) ||
         (negb (Byte.eqb (byte_at response 0) Byte.x00) && negb (Byte.eqb (byte_at response 0) Byte.x01))
      then Throw invalid_argument else Ok tt
  end.

(** [encode_replicated_command(command) != bytes], for a command that encodes. *)
Definition encodes_to (command : ReplicatedCommand) (bytes : list byte) : result bool :=
  match encode_replicated_command command with
  | Throw e => Throw e
  | Ok encoded => Ok (bool_decide (encoded = bytes))
  end.

Fixpoint validate_values (values : list (list byte * list byte)) : result unit :=
  match values with
  | [] => Ok tt
  | (key, value) :: rest =>
      if bool_decide (key = []) || (kMaxKeySize <? size_of key) || (kMaxValueSize <? size_of value)
      then Throw invalid_argument
      else validate_values rest
  end.

(** The loop of [validate_snapshot_state] over the clients. *)
Fixpoint validate_clients (clients : list (ClientId * DedupRecord)) (max_dedup_bytes dedup_bytes : Z)
    : result Z :=
  match clients with
  | [] => Ok dedup_bytes
  | (client_id, record) :: rest =>
      match dr_value (decode_replicated_command (d_command record)) with
      | None => Throw invalid_argument
      | Some value =>
          if negb (bool_decide (rc_client_id value = client_id)) ||
             negb (rc_request_id value =? d_request_id record)
          then Throw invalid_argument
          else
            match encodes_to value (d_command record) with
            | Throw e => Throw e
            | Ok false => Throw invalid_argument
            | Ok true =>
                match validate_response value (d_response record) with
                | Throw e => Throw e
                | Ok _ =>
                    let record_bytes := size_of (d_command record) + size_of (d_response record) in
                    if u64 (max_dedup_bytes - dedup_bytes) <? record_bytes then Throw invalid_argument
                    else validate_clients rest max_dedup_bytes (dedup_bytes + record_bytes)
                end
            end
      end
  end.

Definition validate_snapshot_state `{UnorderedMap} (state : SnapshotState)
    (max_clients max_dedup_bytes : Z) : result Z :=
  if max_clients <? map_size (ss_clients state) then Throw invalid_argument
  else
    match validate_values (traverse (ss_values state)) with
    | Throw e => Throw e
    | Ok _ => validate_clients (traverse (ss_clients state)) max_dedup_bytes 0
    end.

(** The constructor. *)
Definition make (max_clients max_dedup_bytes : Z) : result ReplicatedStateMachine :=
  if (max_clients =? 0) || (kMaxDedupClients <? max_clients) ||
     (max_dedup_bytes =? 0) || (kMaxDedupBytes <? max_dedup_bytes)
  then Throw invalid_argument
  else Ok {| max_clients_ := max_clients; max_dedup_bytes_ := max_dedup_bytes; dedup_bytes_ := 0;
             values_ := ∅; clients_ := ∅ |}.

Definition refuse (status : MutationApplyStatus) : M ReplicatedStateMachine MutationApplyResult :=
  ret {| ar_status := status; ar_response := [] |}.

(** The part of [apply] after the checks on the retained request. *)
Definition apply_new (command : ReplicatedCommand) (canonical_command : list byte)
    (retained : option DedupRecord) : M ReplicatedStateMachine MutationApplyResult :=
  let* m := get in
  let response :=
    match rc_operation command with
    | delete_key => [if bool_decide (is_Some (values_ m !! rc_key command)) then Byte.x01 else Byte.x00]
    | put => []
    end in
  let next := {| d_request_id := rc_request_id command; d_command := canonical_command;
                 d_response := response |} in
  let retained_bytes :=
    match retained with
    | None => 0
    | Some r => size_of (d_command r) + size_of (d_response r)
    end in
  let next_bytes := size_of (d_command next) + size_of (d_response next) in
  let bytes_without_retained := u64 (dedup_bytes_ m - retained_bytes) in
  if u64 (max_dedup_bytes_ m - bytes_without_retained) <? next_bytes then refuse capacity_exceeded
  else
    modify (fun m =>
      {| max_clients_ := max_clients_ m;
         max_dedup_bytes_ := max_dedup_bytes_ m;
         dedup_bytes_ := u64 (bytes_without_retained + next_bytes);
         values_ := match rc_operation command with
                    | put => <[rc_key command := rc_value command]> (values_ m)
                    | delete_key => delete (rc_key command) (values_ m)
                    end;
         clients_ := <[rc_client_id command := next]> (clients_ m) |}) ;;
    ret {| ar_status := applied; ar_response := response |}.

Definition apply (command : ReplicatedCommand) (canonical_command : list byte)
    : M ReplicatedStateMachine MutationApplyResult :=
  match encodes_to command canonical_command with
  | Throw e => throw e
  | Ok false => throw invalid_argument
  | Ok true =>
      let* m := get in
      match clients_ m !! rc_client_id command with
      | Some retained =>
          if rc_request_id command <? d_request_id retained then refuse stale_request
          else if rc_request_id command =? d_request_id retained then
            if negb (bool_decide (canonical_command = d_command retained)) then refuse request_id_reuse
            else ret {| ar_status := duplicate; ar_response := d_response retained |}
          else apply_new command canonical_command (Some retained)
      | None =>
          if max_clients_ m <=? map_size (clients_ m) then refuse capacity_exceeded
          else apply_new command canonical_command None
      end
  end.

Definition find (m : ReplicatedStateMachine) (key : list byte) : option (list byte) := values_ m !! key.

Definition client_count (m : ReplicatedStateMachine) : Z := map_size (clients_ m).

Definition snapshot (m : ReplicatedStateMachine) : SnapshotState :=
  {| ss_values := values_ m; ss_clients := clients_ m |}.

Definition restore `{UnorderedMap} (state : SnapshotState) : M ReplicatedStateMachine unit :=
  let* m := get in
  match validate_snapshot_state state (max_clients_ m) (max_dedup_bytes_ m) with
  | Throw e => throw e
  | Ok dedup_bytes =>
      modify (fun m =>
        {| max_clients_ := max_clients_ m; max_dedup_bytes_ := max_dedup_bytes_ m;
           dedup_bytes_ := dedup_bytes; values_ := ss_values state; clients_ := ss_clients state |})
  end.

(** What a committed command does, as [apply_entry] of [node.cpp] calls it. *)
Definition apply_command (bytes : list byte) : M ReplicatedStateMachine MutationApplyResult :=
  match dr_value (decode_replicated_command bytes) with
  | None => throw runtime_error
  | Some value => apply value bytes
  end.

(** Committed commands one after the other. *)
Fixpoint apply_commands (commands : list (list byte))
    : M ReplicatedStateMachine (list MutationApplyResult) :=
  match commands with
  | [] => ret []
  | bytes :: rest =>
      let* r := apply_command bytes in
      let* rs := apply_commands rest in
      ret (r :: rs)
  end.

(** ** The bytes retained for the clients *)

Definition record_bytes (r : DedupRecord) : Z := size_of (d_command r) + size_of (d_response r).

Definition total_bytes (l : list (ClientId * DedupRecord)) : Z :=
  foldr (fun p acc => record_bytes p.2 + acc) 0 l.

Definition dedup_total (m : DedupState) : Z := total_bytes (map_to_list m).

Lemma record_bytes_nonneg r : 0 <= record_bytes r.
Proof. unfold record_bytes, size_of. lia. Qed.

Lemma total_bytes_nonneg l : 0 <= total_bytes l.
Proof. induction l as [|[i r] l IH]; cbn; [done|]. fold (total_bytes l).
  pose proof (record_bytes_nonneg r). lia.
Qed.

#[export] Instance total_bytes_proper : Proper ((≡ₚ) ==> (=)) total_bytes.
Proof. intros l k Hp. unfold total_bytes. induction Hp; cbn; lia. Qed.

Lemma dedup_total_insert_new (m : DedupState) id r :
  m !! id = None -> dedup_total (<[id := r]> m) = record_bytes r + dedup_total m.
Proof. intros H. unfold dedup_total. by rewrite map_to_list_insert. Qed.

Lemma dedup_total_delete (m : DedupState) id r :
  m !! id = Some r -> dedup_total m = record_bytes r + dedup_total (delete id m).
Proof.
  intros H. rewrite <- (insert_delete_id m id r H) at 1.
  apply dedup_total_insert_new, lookup_delete_eq.
Qed.

Lemma dedup_total_insert (m : DedupState) id r :
  dedup_total (<[id := r]> m) = record_bytes r + dedup_total (delete id m).
Proof.
  rewrite <- insert_delete_eq. apply dedup_total_insert_new, lookup_delete_eq.
Qed.

Lemma dedup_total_nonneg m : 0 <= dedup_total m.
Proof. apply total_bytes_nonneg. Qed.

(** ** The invariant *)

Definition response_ok (c : ReplicatedCommand) (response : list byte) : Prop :=
  match rc_operation c with
  | put => response = []
  | delete_key => response = [Byte.x00] \/ response = [Byte.x01]
  end.

(** The record retained for a client is its last applied request. *)
Definition record_ok (id : ClientId) (r : DedupRecord) : Prop :=
  exists c, valid_command c /\ rc_client_id c = id /\ rc_request_id c = d_request_id r /\
    d_command r = command_bytes c /\ response_ok c (d_response r).

Definition pair_ok (key value : list byte) : Prop :=
  0 < size_of key <= kMaxKeySize /\ size_of value <= kMaxValueSize.

Record state_ok (max_clients max_dedup_bytes : Z) (s : SnapshotState) : Prop := {
  so_values : map_Forall pair_ok (ss_values s);
  so_clients : map_Forall record_ok (ss_clients s);
  so_count : map_size (ss_clients s) <= max_clients;
  so_bytes : dedup_total (ss_clients s) <= max_dedup_bytes
}.

Record Inv (m : ReplicatedStateMachine) : Prop := {
  inv_clients : 0 < max_clients_ m <= kMaxDedupClients;
  inv_bytes : 0 < max_dedup_bytes_ m <= kMaxDedupBytes;
  inv_state : state_ok (max_clients_ m) (max_dedup_bytes_ m) (snapshot m);
  inv_total : dedup_bytes_ m = dedup_total (clients_ m)
}.

(** ** Validation of a snapshot *)

Lemma validate_response_spec c response :
  validate_response c response = Ok tt <-> response_ok c response.
Proof.
  unfold validate_response, response_ok. destruct (rc_operation c).
  - case_bool_decide; naive_solver.
  - destruct response as [|b [|b' l]]; cbn; [naive_solver| |naive_solver].
    destruct b; cbn; naive_solver.
Qed.

Lemma validate_response_throws c response e :
  validate_response c response = Throw e -> e = invalid_argument.
Proof. unfold validate_response. destruct (rc_operation c); destruct (_ : bool); congruence. Qed.

Lemma command_bytes_inj c d :
  valid_command c -> valid_command d -> command_bytes c = command_bytes d -> c = d.
Proof.
  intros Hc Hd E. apply decode_command_bytes in Hc, Hd. rewrite E, Hd in Hc. by injection Hc.
Qed.

Lemma encodes_to_valid c bytes :
  valid_command c -> encodes_to c bytes = Ok (bool_decide (command_bytes c = bytes)).
Proof. intros H. unfold encodes_to. by rewrite encode_command_ok. Qed.

Definition client_ok (p : ClientId * DedupRecord) : Prop := record_ok p.1 p.2.

(** One record of the loop. *)
Lemma validate_client_step id r rest max acc :
  record_ok id r ->
  validate_clients ((id, r) :: rest) max acc =
  if u64 (max - acc) <? record_bytes r then Throw invalid_argument
  else validate_clients rest max (acc + record_bytes r).
Proof.
  intros (c & Hv & Hid & Hr & Hb & Hresp). cbn [validate_clients].
  rewrite Hb, decode_command_bytes by done. cbn [dr_value decoded].
  rewrite Hr, Z.eqb_refl, bool_decide_true, encodes_to_valid, bool_decide_true by done. cbn [negb orb].
  by rewrite (proj2 (validate_response_spec _ _) Hresp), <- Hb.
Qed.

Lemma validate_clients_ok l max acc :
  Forall client_ok l -> 0 <= acc -> acc + total_bytes l <= max -> max <= kMaxDedupBytes ->
  validate_clients l max acc = Ok (acc + total_bytes l).
Proof.
  revert acc. induction l as [|[id r] l IH]; intros acc Hf Ha Hle Hmax; cbn [total_bytes foldr] in *.
  { cbn. by rewrite Z.add_0_r. }
  fold (total_bytes l) in *. apply Forall_cons in Hf as [Hr Hf]. cbn [snd] in *.
  pose proof (record_bytes_nonneg r). pose proof (total_bytes_nonneg l).
  unfold kMaxDedupBytes in *. rewrite validate_client_step by done.
  rewrite u64_small by (unfold is_u64; lia). rewrite (proj2 (Z.ltb_ge _ _)) by lia.
  rewrite IH; [f_equal; lia|done|lia..].
Qed.

Lemma validate_clients_inv l max acc :
  0 <= acc <= max -> max <= kMaxDedupBytes ->
  match validate_clients l max acc with
  | Ok n => Forall client_ok l /\ n = acc + total_bytes l /\ n <= max
  | Throw e => e = invalid_argument
  end.
Proof.
  revert acc. induction l as [|[id r] l IH]; intros acc Ha Hmax.
  { cbn. split_and!; [constructor|lia..]. }
  cbn [validate_clients]. destruct (dr_value _) as [c|] eqn:Ec; [|done].
  apply decode_command_sound in Ec as [Hv Hb].
  destruct (_ || _) eqn:Ei; [done|].
  rewrite orb_false_iff, !negb_false_iff, bool_decide_eq_true, Z.eqb_eq in Ei. destruct Ei as [Hid Hr].
  rewrite encodes_to_valid, bool_decide_true by done.
  destruct (validate_response _ _) as [[]|e] eqn:Er; [|by eapply validate_response_throws].
  cbv zeta. fold (record_bytes r). apply validate_response_spec in Er.
  pose proof (record_bytes_nonneg r). unfold kMaxDedupBytes in *.
  rewrite u64_small by (unfold is_u64; lia). destruct (Z.ltb_spec (max - acc) (record_bytes r)); [done|].
  specialize (IH (acc + record_bytes r) ltac:(lia) Hmax).
  destruct (validate_clients l _ _) as [n|]; [|done]. destruct IH as (Hf & -> & Hle).
  split_and!; [|cbn; unfold total_bytes; lia|done]. constructor; [|done]. by exists c.
Qed.

Lemma validate_values_spec l :
  match validate_values l with
  | Ok _ => Forall (fun p => pair_ok p.1 p.2) l
  | Throw e => e = invalid_argument /\ ~ Forall (fun p => pair_ok p.1 p.2) l
  end.
Proof.
  induction l as [|[k v] l IH]; cbn [validate_values]; [constructor|].
  assert (pair_ok k v <->
    bool_decide (k = []) || (kMaxKeySize <? size_of k) || (kMaxValueSize <? size_of v) = false) as Hp.
  { unfold pair_ok. rewrite !orb_false_iff, !Z.ltb_ge, bool_decide_eq_false. destruct k; cbn.
    - split; [unfold size_of; cbn; lia|naive_solver].
    - unfold size_of. cbn [length]. split; [intros; split_and!; try done; lia|intros; split_and!; try tauto; lia]. }
  destruct (_ || _) eqn:E.
  - split; [done|]. rewrite Forall_cons. cbn. intros [Hk _]. apply Hp in Hk. congruence.
  - destruct (validate_values l); [by constructor; [apply Hp|]|]. split; [apply IH|].
    rewrite Forall_cons. tauto.
Qed.

Section Validation.
Context `{UnorderedMap}.

Lemma traverse_Forall {A} (P : list byte -> A -> Prop) (m : gmap (list byte) A) :
  Forall (fun p => P p.1 p.2) (traverse m) <-> map_Forall P m.
Proof. rewrite traverse_elements, map_Forall_to_list. apply Forall_proper; [|done]. by intros [k v]. Qed.

(** A snapshot is validated exactly when it satisfies the invariant of the
    machine; the bytes counted are those it retains. *)
Lemma validate_snapshot_ok s max_clients max_bytes :
  state_ok max_clients max_bytes s -> max_bytes <= kMaxDedupBytes ->
  validate_snapshot_state s max_clients max_bytes = Ok (dedup_total (ss_clients s)).
Proof.
  intros [Hv Hc Hn Hb] Hmax. unfold validate_snapshot_state. rewrite (proj2 (Z.ltb_ge _ _) Hn).
  pose proof (validate_values_spec (traverse (ss_values s))) as Hs.
  destruct (validate_values _); [|by destruct Hs as [_ []]; apply traverse_Forall].
  assert (total_bytes (traverse (ss_clients s)) = dedup_total (ss_clients s)) as Ht
    by (unfold dedup_total; by rewrite traverse_elements).
  rewrite validate_clients_ok; [by rewrite Ht| |done|lia|done]. by apply traverse_Forall.
Qed.

Lemma validate_snapshot_inv s max_clients max_bytes :
  0 <= max_bytes <= kMaxDedupBytes ->
  match validate_snapshot_state s max_clients max_bytes with
  | Ok n => state_ok max_clients max_bytes s /\ n = dedup_total (ss_clients s)
  | Throw e => e = invalid_argument
  end.
Proof.
  intros Hmax. unfold validate_snapshot_state.
  destruct (Z.ltb_spec max_clients (map_size (ss_clients s))) as [|Hn]; [done|].
  pose proof (validate_values_spec (traverse (ss_values s))) as Hs.
  destruct (validate_values _); [|apply Hs].
  pose proof (validate_clients_inv (traverse (ss_clients s)) max_bytes 0 ltac:(lia) ltac:(lia)) as Hc.
  assert (total_bytes (traverse (ss_clients s)) = dedup_total (ss_clients s)) as Ht
    by (unfold dedup_total; by rewrite traverse_elements).
  destruct (validate_clients _ _ _) as [n|]; [|done]. destruct Hc as (Hf & -> & Hle).
  split; [|lia]. split; [by apply traverse_Forall|by apply traverse_Forall|done|lia].
Qed.

End Validation.

(** ** One command *)

(** What a command does to the values, and what it answers. *)
Definition effect (c : ReplicatedCommand) (v : KeyValueState) : KeyValueState :=
  match rc_operation c with
  | put => <[rc_key c := rc_value c]> v
  | delete_key => delete (rc_key c) v
  end.

Definition answer (c : ReplicatedCommand) (v : KeyValueState) : list byte :=
  match rc_operation c with
  | put => []
  | delete_key => [if bool_decide (is_Some (v !! rc_key c)) then Byte.x01 else Byte.x00]
  end.

Definition record_of (c : ReplicatedCommand) (response : list byte) : DedupRecord :=
  {| d_request_id := rc_request_id c; d_command := command_bytes c; d_response := response |}.

(** No request of this client with this or a later number is retained. *)
Definition newer (m : ReplicatedStateMachine) (c : ReplicatedCommand) : Prop :=
  forall r, clients_ m !! rc_client_id c = Some r -> d_request_id r < rc_request_id c.

Lemma answer_ok c v : response_ok c (answer c v).
Proof. unfold response_ok, answer. destruct (rc_operation c); [done|]. case_bool_decide; auto. Qed.

Lemma record_of_ok c response :
  valid_command c -> response_ok c response -> record_ok (rc_client_id c) (record_of c response).
Proof. intros Hv Hr. by exists c. Qed.

Lemma effect_ok c v : valid_command c -> map_Forall pair_ok v -> map_Forall pair_ok (effect c v).
Proof.
  intros Hv Hf. unfold effect. destruct (rc_operation c).
  - apply map_Forall_insert_2; [|done]. split; apply Hv.
  - by apply map_Forall_delete.
Qed.

(** The size of the client table with one client set. *)
Lemma clients_size_set (m : DedupState) id r n :
  (m !! id = None -> map_size m < n) -> map_size m <= n -> map_size (<[id := r]> m) <= n.
Proof.
  unfold map_size. intros Hn Hle. destruct (m !! id) as [r'|] eqn:E.
  - rewrite map_size_insert_Some by done. done.
  - rewrite map_size_insert_None by done. specialize (Hn eq_refl). lia.
Qed.

Definition retained_size (retained : option DedupRecord) : Z :=
  match retained with None => 0 | Some r => record_bytes r end.

Lemma dedup_total_without (m : DedupState) id :
  dedup_total m = retained_size (m !! id) + dedup_total (delete id m).
Proof.
  destruct (m !! id) as [r|] eqn:E; [by apply dedup_total_delete|].
  by rewrite delete_id.
Qed.

Definition apply_new_outcome (c : ReplicatedCommand) (m m' : ReplicatedStateMachine)
    (r : MutationApplyResult) : Prop :=
  (m' = m /\ r = {| ar_status := capacity_exceeded; ar_response := [] |}) \/
  (r = {| ar_status := applied; ar_response := answer c (values_ m) |} /\
   values_ m' = effect c (values_ m) /\
   clients_ m' = <[rc_client_id c := record_of c (answer c (values_ m))]> (clients_ m)).

Lemma apply_new_spec m c :
  Inv m -> valid_command c -> (clients_ m !! rc_client_id c = None -> map_size (clients_ m) < max_clients_ m) ->
  exists m' r, apply_new c (command_bytes c) (clients_ m !! rc_client_id c) m = (m', Ok r) /\ Inv m' /\
    apply_new_outcome c m m' r.
Proof.
  intros Hm Hc Hroom. pose proof Hm as Hm0. destruct Hm as [Hl Hb [Hv Hr Hn Ht] Hd]. cbn [snapshot ss_values ss_clients] in *.
  set (retained := clients_ m !! rc_client_id c) in *.
  set (next := record_of c (answer c (values_ m))).
  pose proof (dedup_total_without (clients_ m) (rc_client_id c)) as Hw. fold retained in Hw.
  pose proof (dedup_total_nonneg (delete (rc_client_id c) (clients_ m))) as Hw0.
  pose proof (record_bytes_nonneg next) as Hnx. unfold kMaxDedupBytes in *.
  assert (0 <= retained_size retained) as Hr0
    by (destruct retained; [apply record_bytes_nonneg|done]).
  unfold apply_new, bind, get. fold (answer c (values_ m)). fold (record_of c (answer c (values_ m))).
  fold next. cbv zeta. fold (record_bytes next).
  change (match retained with None => 0 | Some r => size_of (d_command r) + size_of (d_response r) end)
    with (retained_size retained).
  rewrite (u64_small (dedup_bytes_ m - _)) by (unfold is_u64; lia).
  rewrite (u64_small (max_dedup_bytes_ m - _)) by (unfold is_u64; lia).
  destruct (Z.ltb_spec (max_dedup_bytes_ m - (dedup_bytes_ m - retained_size retained)) (record_bytes next))
    as [|Hfit].
  - eexists m, _. split; [done|]. split; [done|]. by left.
  - eexists _, _. split; [reflexivity|]. split; [|by right].
    rewrite u64_small by (unfold is_u64; lia).
    split; cbn [max_clients_ max_dedup_bytes_ dedup_bytes_ clients_ values_]; [done|done| |].
    + split; cbn [snapshot ss_values ss_clients clients_ values_].
      * by apply (effect_ok c).
      * apply map_Forall_insert_2; [|done]. by apply record_of_ok, answer_ok.
      * by apply clients_size_set.
      * rewrite dedup_total_insert. lia.
    + rewrite dedup_total_insert. lia.
Qed.

(** What [apply] answers to a valid command, and what it leaves. *)
Definition apply_outcome (c : ReplicatedCommand) (m m' : ReplicatedStateMachine)
    (r : MutationApplyResult) : Prop :=
  match ar_status r with
  | applied => newer m c /\ ar_response r = answer c (values_ m) /\ values_ m' = effect c (values_ m) /\
      clients_ m' = <[rc_client_id c := record_of c (ar_response r)]> (clients_ m)
  | duplicate => m' = m /\ clients_ m !! rc_client_id c = Some (record_of c (ar_response r))
  | request_id_reuse => m' = m /\ ar_response r = [] /\ exists d, clients_ m !! rc_client_id c = Some d /\
      d_request_id d = rc_request_id c /\ d_command d <> command_bytes c
  | stale_request => m' = m /\ ar_response r = [] /\ exists d, clients_ m !! rc_client_id c = Some d /\
      rc_request_id c < d_request_id d
  | capacity_exceeded => m' = m /\ ar_response r = [] /\ newer m c
  end.

Lemma apply_spec m c :
  Inv m -> valid_command c ->
  exists m' r, apply c (command_bytes c) m = (m', Ok r) /\ Inv m' /\ apply_outcome c m m' r.
Proof.
  intros Hm Hc. unfold apply. rewrite encodes_to_valid, bool_decide_true by done. unfold bind, get at 1.
  pose proof (apply_new_spec m c Hm Hc) as Hnew. unfold apply_outcome.
  assert (forall m' r, newer m c -> apply_new_outcome c m m' r ->
    match ar_status r with
    | applied => newer m c /\ ar_response r = answer c (values_ m) /\ values_ m' = effect c (values_ m) /\
        clients_ m' = <[rc_client_id c := record_of c (ar_response r)]> (clients_ m)
    | capacity_exceeded => m' = m /\ ar_response r = [] /\ newer m c
    | _ => False
    end) as Hout by (intros m' r Hn [[-> ->]|(-> & ? & ?)]; done).
  destruct (clients_ m !! rc_client_id c) as [d|] eqn:Ed.
  - destruct (Z.ltb_spec (rc_request_id c) (d_request_id d)).
    { eexists m, _. split; [reflexivity|]. cbn. naive_solver. }
    destruct (Z.eqb_spec (rc_request_id c) (d_request_id d)) as [Er|].
    + case_bool_decide as Eb; cbn [negb]; eexists m, _; (split; [reflexivity|]); cbn;
        [|by naive_solver].
      split_and!; [done..|]. unfold record_of. rewrite Er, Eb. by destruct d.
    + destruct Hnew as (m' & r & E & Hi & Ho); [done|]. exists m', r. split; [done|]. split; [done|].
      assert (newer m c) as Hn by (intros d' E'; rewrite Ed in E'; injection E' as <-; lia).
      specialize (Hout m' r Hn Ho). by destruct (ar_status r).
  - destruct (Z.leb_spec (max_clients_ m) (map_size (clients_ m))).
    { eexists m, _. split; [reflexivity|]. cbn. split_and!; try done. intros d' E'. congruence. }
    destruct Hnew as (m' & r & E & Hi & Ho); [done|]. exists m', r. split; [done|]. split; [done|].
    assert (newer m c) as Hn by (intros d' E'; congruence).
    specialize (Hout m' r Hn Ho). by destruct (ar_status r).
Qed.

(** ** A history of commands

    A history lists the commands a machine was given with its answers, oldest
    first. *)

Abbreviation History := (list (ReplicatedCommand * MutationApplyResult)) (only parsing).

Definition performed (p : ReplicatedCommand * MutationApplyResult) : bool :=
  bool_decide (ar_status p.2 = applied).

(** The values the performed commands of a history leave. *)
Definition values_after (log : History) : KeyValueState :=
  fold_left (fun v p => if performed p then effect p.1 v else v) log ∅.

(** The answer to [c] after the history [log]: a command is performed when it is
    newer than every performed command of its client; the same command again is
    answered from memory; a reused or an older number is refused; and what is
    not performed changes nothing. *)
Definition verdict (log : History) (c : ReplicatedCommand) (r : MutationApplyResult) : Prop :=
  let earlier d rd := (d, rd) ∈ log /\ ar_status rd = applied /\ rc_client_id d = rc_client_id c in
  match ar_status r with
  | applied => ar_response r = answer c (values_after log) /\
      (forall d rd, earlier d rd -> rc_request_id d < rc_request_id c)
  | duplicate => exists rc, earlier c rc /\ ar_response r = ar_response rc
  | request_id_reuse => ar_response r = [] /\
      exists d rd, earlier d rd /\ rc_request_id d = rc_request_id c /\ d <> c
  | stale_request => ar_response r = [] /\ exists d rd, earlier d rd /\ rc_request_id c < rc_request_id d
  | capacity_exceeded => ar_response r = [] /\
      (forall d rd, earlier d rd -> rc_request_id d < rc_request_id c)
  end.

(** The machine remembers, for every client, its newest performed command. *)
Record Tracks (m : ReplicatedStateMachine) (log : History) : Prop := {
  tr_inv : Inv m;
  tr_values : values_ m = values_after log;
  tr_valid : Forall (fun p => valid_command p.1) log;
  tr_retained : forall id d, clients_ m !! id = Some d ->
    exists c r, (c, r) ∈ log /\ ar_status r = applied /\ rc_client_id c = id /\
      d = record_of c (ar_response r);
  tr_newest : forall c r, (c, r) ∈ log -> ar_status r = applied ->
    exists d, clients_ m !! rc_client_id c = Some d /\ rc_request_id c <= d_request_id d
}.

Lemma values_after_snoc log c r :
  values_after (log ++ [(c, r)]) =
  if performed (c, r) then effect c (values_after log) else values_after log.
Proof. unfold values_after. by rewrite fold_left_app. Qed.

Lemma newer_history m log c :
  Tracks m log -> newer m c ->
  forall d rd, (d, rd) ∈ log /\ ar_status rd = applied /\ rc_client_id d = rc_client_id c ->
    rc_request_id d < rc_request_id c.
Proof.
  intros Ht Hn d rd (Hin & Hp & Hid). destruct (tr_newest _ _ Ht d rd Hin Hp) as (x & Ex & Hle).
  rewrite Hid in Ex. specialize (Hn x Ex). lia.
Qed.

Lemma apply_verdict m m' log c r :
  Tracks m log -> valid_command c -> apply_outcome c m m' r -> verdict log c r.
Proof.
  intros Ht Hc. unfold apply_outcome, verdict. destruct (ar_status r) eqn:Es.
  - intros (Hn & Ha & _ & _). rewrite <- (tr_values _ _ Ht). split; [done|]. by eapply newer_history.
  - intros [_ Hr]. destruct (tr_retained _ _ Ht _ _ Hr) as (d & rd & Hin & Hp & Hid & E).
    assert (command_bytes c = command_bytes d) as Eb by exact (f_equal d_command E).
    assert (ar_response r = ar_response rd) as Ea by exact (f_equal d_response E). assert (valid_command d) as Hd by apply (proj1 (Forall_forall _ _) (tr_valid _ _ Ht) _ Hin).
    assert (c = d) as -> by by apply command_bytes_inj. exists rd. by rewrite Ea.
  - intros (_ & Hr & x & Hx & Hreq & Hne). split; [done|].
    destruct (tr_retained _ _ Ht _ _ Hx) as (d & rd & Hin & Hp & Hid & ->). exists d, rd.
    split_and!; try done. intros ->. done.
  - intros (_ & Hr & x & Hx & Hreq). split; [done|].
    destruct (tr_retained _ _ Ht _ _ Hx) as (d & rd & Hin & Hp & Hid & ->). by exists d, rd.
  - intros (_ & Hr & Hn). split; [done|]. by eapply newer_history.
Qed.

Lemma Tracks_performed m m' log c r :
  Tracks m log -> valid_command c -> Inv m' -> apply_outcome c m m' r -> ar_status r = applied ->
  Tracks m' (log ++ [(c, r)]).
Proof.
  intros [Hi Hv Hval Hr Hn] Hc Hi' Ho Es. unfold apply_outcome in Ho. rewrite Es in Ho.
  destruct Ho as (Hnew & Ha & Hv' & Hc'). split; [done| | | |].
  - rewrite values_after_snoc. unfold performed. cbn [snd]. rewrite bool_decide_true by done. by rewrite Hv', Hv.
  - apply Forall_app. by split; [|apply Forall_singleton].
  - intros id d. rewrite Hc', lookup_insert_Some. intros [[<- <-]|[Hne Hd]].
    + exists c, r. split_and!; try done. set_solver.
    + destruct (Hr _ _ Hd) as (c0 & r0 & Hin & ?). exists c0, r0. split_and!; try naive_solver. set_solver.
  - intros c0 r0 Hin Hp. rewrite Hc'. destruct (decide (rc_client_id c = rc_client_id c0)) as [Hid|Hid].
    + rewrite Hid, lookup_insert_eq. eexists. split; [reflexivity|]. cbn.
      apply elem_of_app in Hin as [Hin|Hin]; [|set_solver].
      destruct (Hn _ _ Hin Hp) as (d & Hd & Hle). rewrite <- Hid in Hd. specialize (Hnew _ Hd). lia.
    + rewrite lookup_insert_ne by done. apply elem_of_app in Hin as [Hin|Hin]; [by eapply Hn|set_solver].
Qed.

Lemma Tracks_refused m m' log c r :
  Tracks m log -> valid_command c -> apply_outcome c m m' r -> ar_status r <> applied ->
  Tracks m' (log ++ [(c, r)]).
Proof.
  intros [Hi Hv Hval Hr Hn] Hc Ho Es.
  assert (m' = m) as -> by (unfold apply_outcome in Ho; destruct (ar_status r); tauto).
  split; [done| | | |].
  - rewrite values_after_snoc. unfold performed. cbn [snd]. by rewrite bool_decide_false.
  - apply Forall_app. by split; [|apply Forall_singleton].
  - intros id d Hd. destruct (Hr _ _ Hd) as (c0 & r0 & Hin & ?). exists c0, r0. split; [set_solver|done].
  - intros c0 r0 Hin Hp. apply elem_of_app in Hin as [Hin|Hin]; [by eapply Hn|set_solver].
Qed.

Lemma apply_command_spec m log c :
  Tracks m log -> valid_command c ->
  exists m' r, apply_command (command_bytes c) m = (m', Ok r) /\ Tracks m' (log ++ [(c, r)]) /\ verdict log c r.
Proof.
  intros Ht Hc. destruct (apply_spec m c (tr_inv _ _ Ht) Hc) as (m' & r & E & Hi & Ho). exists m', r.
  unfold apply_command. rewrite decode_command_bytes by done. split; [done|].
  split; [|by eapply apply_verdict].
  destruct (decide (ar_status r = applied)); [by eapply Tracks_performed|by eapply Tracks_refused].
Qed.

(** Committed commands are answered one after the other, each by its verdict. *)
Lemma apply_commands_spec cs m log :
  Tracks m log -> Forall valid_command cs ->
  exists m' rs, apply_commands (map command_bytes cs) m = (m', Ok rs) /\ length rs = length cs /\
    Tracks m' (log ++ zip cs rs) /\
    forall pre c r post, zip cs rs = pre ++ (c, r) :: post -> verdict (log ++ pre) c r.
Proof.
  revert m log. induction cs as [|c cs IH]; intros m log Ht Hv; cbn [map apply_commands].
  { exists m, []. rewrite app_nil_r. split_and!; try done. by intros []. }
  apply Forall_cons in Hv as [Hc Hv].
  destruct (apply_command_spec m log c Ht Hc) as (m1 & r & E & Ht1 & Hr).
  destruct (IH m1 _ Ht1 Hv) as (m2 & rs & E2 & Hlen & Ht2 & Hrs). exists m2, (r :: rs).
  unfold bind. rewrite E, E2. rewrite <- (assoc_L (++)) in Ht2. split_and!; [done|cbn; lia|done|].
  intros [|p pre] c' r' post Hz; cbn in Hz.
  - injection Hz as <- <- _. by rewrite app_nil_r.
  - injection Hz as <- Hz. rewrite cons_middle, (assoc_L (++)). by eapply Hrs.
Qed.

Lemma make_Tracks max_clients max_bytes m :
  0 <= max_clients -> 0 <= max_bytes -> make max_clients max_bytes = Ok m -> Tracks m [].
Proof.
  unfold make. intros Hc Hb. destruct (_ || _) eqn:E; [done|]. intros [= <-].
  rewrite !orb_false_iff, !Z.eqb_neq, !Z.ltb_ge in E. unfold kMaxDedupClients, kMaxDedupBytes in *.
  split; [split; cbn [max_clients_ max_dedup_bytes_ dedup_bytes_ clients_ values_ snapshot]|..]; try set_solver.
  - unfold kMaxDedupClients. lia.
  - unfold kMaxDedupBytes. lia.
  - split; cbn; [apply map_Forall_empty|apply map_Forall_empty| |].
    + unfold map_size. rewrite map_size_empty. lia.
    + unfold dedup_total. rewrite map_to_list_empty. cbn. lia.
Qed.

(** The limits stay. *)
Definition same_limits (m m' : ReplicatedStateMachine) : Prop :=
  max_clients_ m' = max_clients_ m /\ max_dedup_bytes_ m' = max_dedup_bytes_ m.

Lemma apply_limits c bytes m : same_limits m (apply c bytes m).1.
Proof.
  unfold apply, bind, get, throw, refuse, ret. destruct (encodes_to c bytes) as [[]|]; [|done..].
  assert (forall o, same_limits m (apply_new c bytes o m).1) as Hn
    by (intros o; unfold apply_new, bind, get; cbv zeta; by destruct (_ <? _)).
  destruct (clients_ m !! _); [|by destruct (_ <=? _)].
  destruct (_ <? _); [done|]. destruct (_ =? _); [|done]. by destruct (negb _).
Qed.

Lemma apply_commands_limits l m m' r : apply_commands l m = (m', r) -> same_limits m m'.
Proof.
  revert m m' r. induction l as [|bytes l IH]; intros m m' r; cbn [apply_commands]; [by intros [= <- _]|].
  unfold bind. destruct (apply_command bytes m) as [m1 r1] eqn:E1.
  assert (same_limits m m1) as [H1 H2].
  { unfold apply_command in E1. destruct (dr_value _) as [c|]; [|by injection E1 as <- _].
    pose proof (apply_limits c bytes m) as H. by rewrite E1 in H. }
  destruct r1; [|by intros [= <- _]]. destruct (apply_commands l m1) as [m2 r2] eqn:E2.
  destruct (IH _ _ _ E2) as [H3 H4]. unfold same_limits in *. destruct r2; intros [= <- _]; split; congruence.
Qed.

(** ** Restoring *)

Lemma restore_ok `{UnorderedMap} m s :
  Inv m -> state_ok (max_clients_ m) (max_dedup_bytes_ m) s ->
  exists m', restore s m = (m', Ok tt) /\ Inv m' /\ snapshot m' = s /\
    max_clients_ m' = max_clients_ m /\ max_dedup_bytes_ m' = max_dedup_bytes_ m.
Proof.
  intros [Hc Hb Hs Ht] Hok. unfold restore, bind, get.
  rewrite validate_snapshot_ok by (done || apply Hb). eexists. split; [reflexivity|].
  cbn [snapshot max_clients_ max_dedup_bytes_ dedup_bytes_ values_ clients_]. destruct s. by split.
Qed.

(** Two machines that hold the same, hold the same number of bytes. *)
Lemma Inv_snapshot_inj m m' :
  Inv m -> Inv m' -> max_clients_ m = max_clients_ m' -> max_dedup_bytes_ m = max_dedup_bytes_ m' ->
  snapshot m = snapshot m' -> m = m'.
Proof.
  intros [_ _ _ H] [_ _ _ H'] ? ? [= Hv Hc]. destruct m, m'. cbn in *. congruence.
Qed.

End StateMachine.
