(* ===== verification/SnapshotCodec.v ===== *)
(** * The encoding of a state-machine snapshot

    [src/cluster/snapshot_codec.cpp]: [encode_snapshot_state] and
    [decode_snapshot_state], in the current format (version 2) and the legacy
    one (version 1, without deduplication records). *)

From stdpp Require Import sorting.
From S2P Require Import Prelude Wire Protocol RaftTypes RaftFormat ClusterCodecs StateMachine.

Module SnapshotCodec.
Import ClusterCodecs StateMachine.

Definition kStateMagic : Z := 1179342419.
Definition kLegacyStateFormatVersion : Z := 1.
Definition kStateFormatVersion : Z := 2.
Definition kLegacyStateHeaderSize : nat := 16.
Definition kStateHeaderSize : nat := 24.
Definition kEntryHeaderSize : nat := 8.
Definition kDedupEntryHeaderSize : nat := 32.
Definition kMaxSnapshotKeys : Z := 1048576.

(** ** Ordering

    [std::string] and [std::byte] compare as unsigned bytes,
    lexicographically. *)

Fixpoint bytes_less (left right : list byte) : bool :=
  match left, right with
  | _, [] => false
  | [], _ :: _ => true
  | a :: left', b :: right' =>
      if Z_of_byte a <? Z_of_byte b then true
      else if Z_of_byte b <? Z_of_byte a then false
      else bytes_less left' right'
  end.

Definition client_less (left right : ClientId) : bool := bytes_less left right.

(** [std::ranges::sort] by the first component. *)
Definition not_after {A} (p q : list byte * A) : Prop := bytes_less q.1 p.1 = false.

#[export] Instance not_after_dec {A} : RelDecision (@not_after A).
Proof. intros p q. unfold not_after. apply _. Defined.

Definition sort_by_key {A} (l : list (list byte * A)) : list (list byte * A) := merge_sort not_after l.

(** ** Encoding *)

Definition add_size (total amount : Z) : result Z :=
  if u64 (RaftFormat.kMaxSnapshotPayloadSize - total) <? amount then Throw invalid_argument
  else Ok (total + amount).

Definition valid_stored_result (command : ReplicatedCommand) (response : list byte) : bool :=
  match rc_operation command with
  | put => bool_decide (response = [])
  | delete_key =>
      Nat.eqb (length response) 1 &&
      (Byte.eqb (byte_at response 0) Byte.x00 || Byte.eqb (byte_at response 0) Byte.x01)
  end.

(** [validate_record]: the message of the failure, if any.  The command that
    was decoded encodes, so the comparison does not throw. *)
Definition validate_record (client_id : ClientId) (record : DedupRecord) : option string :=
  if (d_request_id record =? 0) || (kMaxClientCommandSize <? size_of (d_command record))
  then Some "invalid snapshot dedup record length"%string
  else
    match dr_value (decode_replicated_command (d_command record)) with
    | None => Some "invalid snapshot dedup record"%string
    | Some value =>
        if negb (bool_decide (rc_client_id value = client_id)) ||
           negb (rc_request_id value =? d_request_id record) ||
           negb match encode_replicated_command value with
                | Ok bytes => bool_decide (bytes = d_command record)
                | Throw _ => false
                end ||
           negb (valid_stored_result value (d_response record))
        then Some "invalid snapshot dedup record"%string
        else None
    end.

(** The loop over the values that computes the size. *)
Fixpoint values_size (values : list (list byte * list byte)) (size : Z) : result Z :=
  match values with
  | [] => Ok size
  | (key, value) :: rest =>
      if bool_decide (key = []) || (kMaxKeySize <? size_of key) || (kMaxValueSize <? size_of value)
      then Throw invalid_argument
      else
        match add_size size (Z.of_nat kEntryHeaderSize) with
        | Throw e => Throw e
        | Ok size =>
            match add_size size (size_of key) with
            | Throw e => Throw e
            | Ok size =>
                match add_size size (size_of value) with
                | Throw e => Throw e
                | Ok size => values_size rest size
                end
            end
        end
  end.

(** The loop over the clients. *)
Fixpoint clients_size (clients : list (ClientId * DedupRecord)) (size dedup_bytes : Z) : result Z :=
  match clients with
  | [] => Ok size
  | (client_id, record) :: rest =>
      match validate_record client_id record with
      | Some _ => Throw invalid_argument
      | None =>
          let record_bytes := size_of (d_command record) + size_of (d_response record) in
          if u64 (kMaxDedupBytes - dedup_bytes) <? record_bytes then Throw invalid_argument
          else
            match add_size size (Z.of_nat kDedupEntryHeaderSize) with
            | Throw e => Throw e
            | Ok size =>
                match add_size size (size_of (d_command record)) with
                | Throw e => Throw e
                | Ok size =>
                    match add_size size (size_of (d_response record)) with
                    | Throw e => Throw e
                    | Ok size => clients_size rest size (dedup_bytes + record_bytes)
                    end
                end
            end
      end
  end.

Fixpoint write_values (values : list (list byte * list byte)) (offset : nat) (bytes : list byte)
    : nat * list byte :=
  match values with
  | [] => (offset, bytes)
  | (key, value) :: rest =>
      let bytes := write_at offset (write_u32 (u32 (size_of key))) bytes in
      let bytes := write_at (offset + 4) (write_u32 (u32 (size_of value))) bytes in
      let bytes := write_at (offset + 8) key bytes in
      let bytes := write_at (offset + kEntryHeaderSize + length key) value bytes in
      write_values rest (offset + (kEntryHeaderSize + length key + length value)) bytes
  end.

Fixpoint write_clients (clients : list (ClientId * DedupRecord)) (offset : nat) (bytes : list byte)
    : list byte :=
  match clients with
  | [] => bytes
  | (client_id, record) :: rest =>
      let bytes := write_at offset client_id bytes in
      let bytes := write_at (offset + 16) (write_u64 (d_request_id record)) bytes in
      let bytes := write_at (offset + 24) (write_u32 (u32 (size_of (d_command record)))) bytes in
      let bytes := write_at (offset + 28) (write_u32 (u32 (size_of (d_response record)))) bytes in
      let bytes := write_at (offset + 32) (d_command record) bytes in
      let bytes := write_at (offset + 32 + length (d_command record)) (d_response record) bytes in
      write_clients rest
        (offset + (kDedupEntryHeaderSize + length (d_command record) + length (d_response record))) bytes
  end.

Definition encode_snapshot_state `{UnorderedMap} (state : SnapshotState) : result (list byte) :=
  if (kMaxSnapshotKeys <? map_size (ss_values state)) || (kMaxDedupClients <? map_size (ss_clients state))
  then Throw invalid_argument
  else
    match values_size (traverse (ss_values state)) (Z.of_nat kStateHeaderSize) with
    | Throw e => Throw e
    | Ok size =>
        let sorted_values := sort_by_key (traverse (ss_values state)) in
        match clients_size (traverse (ss_clients state)) size 0 with
        | Throw e => Throw e
        | Ok size =>
            let sorted_clients := sort_by_key (traverse (ss_clients state)) in
            let bytes := zero_bytes (Z.to_nat size) in
            let bytes := write_at 0 (write_u32 kStateMagic) bytes in
            let bytes := write_at 4 (write_u16 kStateFormatVersion) bytes in
            let bytes := write_at 6 (write_u16 (u16 (Z.of_nat kStateHeaderSize))) bytes in
            let bytes := write_at 8 (write_u64 (map_size (ss_values state))) bytes in
            let bytes := write_at 16 (write_u64 (map_size (ss_clients state))) bytes in
            let '(offset, bytes) := write_values sorted_values kStateHeaderSize bytes in
            Ok (write_clients sorted_clients offset bytes)
        end
    end.

(** ** Decoding *)

(** [emplace]: an element that is already there stays. *)
Definition emplace {A} (m : gmap (list byte) A) (key : list byte) (value : A) : gmap (list byte) A :=
  match m !! key with
  | Some _ => m
  | None => <[key := value]> m
  end.

Fixpoint read_values (count : nat) (input : list byte) (offset : nat) (previous_key : list byte)
    (values : KeyValueState) : string + KeyValueState * nat :=
  match count with
  | O => inr (values, offset)
  | S count' =>
      if Nat.ltb (length input - offset) kEntryHeaderSize then inl "truncated snapshot state entry"%string
      else
        let key_size := read_u32 (subspan offset 4 input) in
        let value_size := read_u32 (subspan (offset + 4) 4 input) in
        if (key_size =? 0) || (kMaxKeySize <? key_size) || (kMaxValueSize <? value_size) ||
           (Z.of_nat (length input - offset - kEntryHeaderSize) <? key_size) ||
           (Z.of_nat (length input - offset - kEntryHeaderSize) - key_size <? value_size)
        then inl "invalid snapshot key/value length"%string
        else
          let key := subspan (offset + kEntryHeaderSize) (Z.to_nat key_size) input in
          if negb (bool_decide (previous_key = [])) && negb (bytes_less previous_key key)
          then inl "snapshot keys are not strictly ordered"%string
          else
            let value :=
              subspan (offset + kEntryHeaderSize + Z.to_nat key_size) (Z.to_nat value_size) input in
            read_values count' input
              (offset + (kEntryHeaderSize + Z.to_nat key_size + Z.to_nat value_size)) key
              (emplace values key value)
  end.

Fixpoint read_clients (count : nat) (input : list byte) (offset : nat)
    (previous_client : option ClientId) (decoded_dedup_bytes : Z) (clients : DedupState)
    : string + DedupState * nat :=
  match count with
  | O => inr (clients, offset)
  | S count' =>
      if Nat.ltb (length input - offset) kDedupEntryHeaderSize then inl "truncated snapshot dedup entry"%string
      else
        let client_id := subspan offset 16 input in
        let request_id := read_u64 (subspan (offset + 16) 8 input) in
        let command_size := read_u32 (subspan (offset + 24) 4 input) in
        let response_size := read_u32 (subspan (offset + 28) 4 input) in
        if match previous_client with
           | Some previous => negb (client_less previous client_id)
           | None => false
           end
        then inl "snapshot clients are not strictly ordered"%string
        else if (request_id =? 0) || (kMaxClientCommandSize <? command_size) || (1 <? response_size) ||
                (Z.of_nat (length input - offset - kDedupEntryHeaderSize) <? command_size) ||
                (Z.of_nat (length input - offset - kDedupEntryHeaderSize) - command_size <? response_size)
        then inl "invalid snapshot dedup length"%string
        else
          let record_bytes := command_size + response_size in
          if u64 (kMaxDedupBytes - decoded_dedup_bytes) <? record_bytes
          then inl "snapshot exceeds deduplication byte limit"%string
          else
            let record :=
              {| d_request_id := request_id;
                 d_command := subspan (offset + kDedupEntryHeaderSize) (Z.to_nat command_size) input;
                 d_response :=
                   subspan (offset + kDedupEntryHeaderSize + Z.to_nat command_size)
                     (Z.to_nat response_size) input |} in
            match validate_record client_id record with
            | Some message => inl message
            | None =>
                read_clients count' input
                  (offset + (kDedupEntryHeaderSize + Z.to_nat command_size + Z.to_nat response_size))
                  (Some client_id) (decoded_dedup_bytes + record_bytes) (emplace clients client_id record)
            end
  end.

Definition decode_snapshot_state (input : list byte) : DecodeResult SnapshotState :=
  if Nat.ltb (length input) kLegacyStateHeaderSize ||
     negb (read_u32 (subspan 0 4 input) =? kStateMagic)
  then failure "invalid snapshot state header"
  else
    let version := read_u16 (subspan 4 2 input) in
    let header_size := read_u16 (subspan 6 2 input) in
    if ((version =? kLegacyStateFormatVersion) && negb (header_size =? Z.of_nat kLegacyStateHeaderSize)) ||
       ((version =? kStateFormatVersion) && negb (header_size =? Z.of_nat kStateHeaderSize)) ||
       (negb (version =? kLegacyStateFormatVersion) && negb (version =? kStateFormatVersion)) ||
       (size_of input <? header_size)
    then failure "invalid snapshot state version"
    else
      let key_count := read_u64 (subspan 8 8 input) in
      let client_count := if version =? kStateFormatVersion then read_u64 (subspan 16 8 input) else 0 in
      if (kMaxSnapshotKeys <? key_count) || (kMaxDedupClients <? client_count) ||
         ((size_of input - header_size) / Z.of_nat (kEntryHeaderSize + 1) <? key_count)
      then failure "invalid snapshot state entry count"
      else
        match read_values (Z.to_nat key_count) input (Z.to_nat header_size) [] ∅ with
        | inl message => failure message
        | inr (values, offset) =>
            match read_clients (Z.to_nat client_count) input offset None 0 ∅ with
            | inl message => failure message
            | inr (clients, offset) =>
                if negb (Nat.eqb offset (length input)) then failure "snapshot state has trailing bytes"
                else decoded {| ss_values := values; ss_clients := clients |}
            end
        end.

(** ** The order *)

Lemma bytes_less_irrefl a : bytes_less a a = false.
Proof. induction a as [|x a IH]; cbn; [done|]. by rewrite Z.ltb_irrefl. Qed.

Lemma bytes_less_trans a b c : bytes_less a b = true -> bytes_less b c = true -> bytes_less a c = true.
Proof.
  revert b c. induction a as [|x a IH]; intros [|y b] [|z c]; cbn; try done.
  destruct (Z.ltb_spec (Z_of_byte x) (Z_of_byte y)), (Z.ltb_spec (Z_of_byte y) (Z_of_byte z)),
    (Z.ltb_spec (Z_of_byte x) (Z_of_byte z)), (Z.ltb_spec (Z_of_byte y) (Z_of_byte x)),
    (Z.ltb_spec (Z_of_byte z) (Z_of_byte y)), (Z.ltb_spec (Z_of_byte z) (Z_of_byte x));
    try done; try lia. apply IH.
Qed.

Lemma bytes_less_total a b : bytes_less a b = false -> bytes_less b a = false -> a = b.
Proof.
  revert b. induction a as [|x a IH]; intros [|y b]; cbn; try done.
  destruct (Z.ltb_spec (Z_of_byte x) (Z_of_byte y)), (Z.ltb_spec (Z_of_byte y) (Z_of_byte x)); try done.
  intros H1 H2. f_equal; [apply Z_of_byte_inj; lia|by apply IH].
Qed.

Lemma bytes_less_asym a b : bytes_less a b = true -> bytes_less b a = false.
Proof.
  intros H. destruct (bytes_less b a) eqn:E; [|done].
  by rewrite <- (bytes_less_irrefl a), (bytes_less_trans _ _ _ H E).
Qed.

#[export] Instance not_after_total {A} : Total (@not_after A).
Proof.
  intros p q. unfold not_after. destruct (bytes_less q.1 p.1) eqn:E; [|by left].
  right. by apply bytes_less_asym.
Qed.

#[export] Instance not_after_trans {A} : Transitive (@not_after A).
Proof.
  intros p q r. unfold not_after. intros H1 H2. destruct (bytes_less r.1 p.1) eqn:E; [|done].
  destruct (bytes_less p.1 q.1) eqn:Epq.
  - by rewrite (bytes_less_trans _ _ _ E Epq) in H2.
  - by rewrite (bytes_less_total _ _ Epq H1), H2 in E.
Qed.

(** Strictly before, by key. *)
Definition before {A} (p q : list byte * A) : Prop := bytes_less p.1 q.1 = true.

#[export] Instance before_trans {A} : Transitive (@before A).
Proof. intros p q r. apply bytes_less_trans. Qed.

Lemma before_not_after {A} (p q : list byte * A) : before p q -> not_after p q.
Proof. apply bytes_less_asym. Qed.

Lemma StronglySorted_before_NoDup {A} (l : list (list byte * A)) : StronglySorted before l -> NoDup l.*1.
Proof.
  induction 1 as [|p l Hs IH Hf]; cbn; constructor; [|done].
  rewrite list_elem_of_fmap. intros (q & Hq & Hin). rewrite Forall_forall in Hf.
  specialize (Hf _ Hin). unfold before in Hf. by rewrite Hq, bytes_less_irrefl in Hf.
Qed.

(** Elements with different keys have one order. *)
Lemma sorted_unique {A} (l k : list (list byte * A)) :
  NoDup l.*1 -> StronglySorted not_after l -> StronglySorted not_after k -> l ≡ₚ k -> l = k.
Proof.
  intros Hd Hl Hk Hp. eapply StronglySorted_unique_strong; [|exact Hl|exact Hk|exact Hp].
  intros [a x] [b y] Ha Hb H1 H2. unfold not_after in *. cbn in *.
  assert (a = b) as -> by by apply bytes_less_total.
  assert ((b, y) ∈ l) as Hb' by by rewrite Hp. f_equal.
  apply list_elem_of_lookup in Ha as [i Hi], Hb' as [j Hj].
  assert (i = j) as ->.
  { eapply (NoDup_lookup l.*1); [done|rewrite list_lookup_fmap, Hi; done|by rewrite list_lookup_fmap, Hj]. }
  congruence.
Qed.

Lemma sort_by_key_sorted {A} (l : list (list byte * A)) : StronglySorted not_after (sort_by_key l).
Proof. apply StronglySorted_merge_sort; apply _. Qed.

Lemma sort_by_key_perm {A} (l : list (list byte * A)) : sort_by_key l ≡ₚ l.
Proof. apply merge_sort_Permutation. Qed.

Lemma sort_by_key_eq {A} (l k : list (list byte * A)) :
  NoDup l.*1 -> l ≡ₚ k -> sort_by_key l = sort_by_key k.
Proof.
  intros Hd Hp. apply sorted_unique; [by rewrite sort_by_key_perm|apply sort_by_key_sorted..|].
  by rewrite !sort_by_key_perm.
Qed.

Lemma StronglySorted_weaken {A} (l : list (list byte * A)) :
  StronglySorted before l -> StronglySorted not_after l.
Proof.
  induction 1 as [|p l Hs IH Hf]; constructor; [done|].
  eapply Forall_impl; [exact Hf|]. apply before_not_after.
Qed.

Lemma sort_by_key_strict {A} (l : list (list byte * A)) :
  NoDup l.*1 -> StronglySorted before (sort_by_key l).
Proof.
  intros Hd. assert (NoDup (sort_by_key l).*1) as Hd' by by rewrite sort_by_key_perm.
  pose proof (sort_by_key_sorted l) as Hs. revert Hs Hd'. generalize (sort_by_key l) as k. clear.
  induction 1 as [|p k Hs IH Hf]; cbn; intros Hd; [constructor|]. apply NoDup_cons in Hd as [Hn Hd].
  constructor; [by apply IH|]. rewrite Forall_forall in *. intros q Hq. specialize (Hf q Hq).
  unfold before, not_after in *. destruct (bytes_less p.1 q.1) eqn:E; [done|]. exfalso. apply Hn.
  rewrite (bytes_less_total _ _ E Hf). by apply list_elem_of_fmap_2.
Qed.

Lemma sort_by_key_id {A} (l k : list (list byte * A)) :
  StronglySorted before l -> k ≡ₚ l -> sort_by_key k = l.
Proof.
  intros Hs Hp. symmetry. apply sorted_unique; [by apply StronglySorted_before_NoDup|
    by apply StronglySorted_weaken|apply sort_by_key_sorted|]. by rewrite sort_by_key_perm.
Qed.

(** The elements of a map in order: the same whatever order it is traversed in. *)
Definition in_order {A} (m : gmap (list byte) A) : list (list byte * A) := sort_by_key (map_to_list m).

Lemma sort_traverse `{UnorderedMap} {A} (m : gmap (list byte) A) : sort_by_key (traverse m) = in_order m.
Proof.
  apply sort_by_key_eq; [|apply traverse_elements]. rewrite traverse_elements. apply NoDup_fst_map_to_list.
Qed.

Lemma in_order_perm {A} (m : gmap (list byte) A) : in_order m ≡ₚ map_to_list m.
Proof. apply sort_by_key_perm. Qed.

Lemma Forall_in_order {A} (P : list byte -> A -> Prop) (m : gmap (list byte) A) :
  Forall (fun p => P p.1 p.2) (in_order m) <-> map_Forall P m.
Proof. rewrite in_order_perm, map_Forall_to_list. apply Forall_proper; [|done]. by intros [k v]. Qed.

Lemma in_order_strict {A} (m : gmap (list byte) A) : StronglySorted before (in_order m).
Proof. apply sort_by_key_strict, NoDup_fst_map_to_list. Qed.

Lemma in_order_to_map {A} (l : list (list byte * A)) :
  StronglySorted before l -> in_order (list_to_map l) = l.
Proof.
  intros Hs. apply sort_by_key_id; [done|]. by apply map_to_list_to_map, StronglySorted_before_NoDup.
Qed.

Lemma list_to_map_in_order {A} (m : gmap (list byte) A) : list_to_map (in_order m) = m.
Proof.
  apply map_to_list_inj. rewrite map_to_list_to_map; [apply in_order_perm|].
  apply StronglySorted_before_NoDup, in_order_strict.
Qed.

(** Elements emplaced one after the other. *)
Lemma emplace_all {A} (l : list (list byte * A)) (m : gmap (list byte) A) :
  fold_left (fun m p => emplace m p.1 p.2) l m = m ∪ list_to_map l.
Proof.
  revert m. induction l as [|[k v] l IH]; intros m; cbn [fold_left list_to_map foldr fst snd].
  { by rewrite (right_id_L ∅ (∪)). }
  rewrite IH. apply map_eq. intros j. fold (list_to_map (M := gmap (list byte) A) l).
  rewrite !lookup_union. unfold emplace.
  destruct (m !! k) as [w|] eqn:E; destruct (decide (j = k)) as [->|Hne].
  - by rewrite E, lookup_insert_eq; destruct (list_to_map l !! k).
  - by rewrite lookup_insert_ne.
  - by rewrite !lookup_insert_eq, E; destruct (list_to_map l !! k).
  - by rewrite !lookup_insert_ne.
Qed.

(** ** The layout *)

Definition value_bytes (p : list byte * list byte) : list byte :=
  write_u32 (size_of p.1) ++ write_u32 (size_of p.2) ++ p.1 ++ p.2.

Definition client_bytes (p : ClientId * DedupRecord) : list byte :=
  p.1 ++ write_u64 (d_request_id p.2) ++ write_u32 (size_of (d_command p.2)) ++
  write_u32 (size_of (d_response p.2)) ++ d_command p.2 ++ d_response p.2.

Definition values_bytes (l : list (list byte * list byte)) : list byte := concat (map value_bytes l).
Definition clients_bytes (l : list (ClientId * DedupRecord)) : list byte := concat (map client_bytes l).

Definition state_head (keys clients : Z) : list byte :=
  write_u32 kStateMagic ++ write_u16 kStateFormatVersion ++ write_u16 (Z.of_nat kStateHeaderSize) ++
  write_u64 keys ++ write_u64 clients.

Definition snapshot_bytes (s : SnapshotState) : list byte :=
  state_head (map_size (ss_values s)) (map_size (ss_clients s)) ++
  values_bytes (in_order (ss_values s)) ++ clients_bytes (in_order (ss_clients s)).

#[global] Arguments values_bytes : simpl never.
#[global] Arguments clients_bytes : simpl never.

Lemma length_value_bytes p : length (value_bytes p) = (8 + length p.1 + length p.2)%nat.
Proof. unfold value_bytes. rewrite !length_app, !length_write_u32. lia. Qed.

Lemma values_bytes_cons p l : values_bytes (p :: l) = value_bytes p ++ values_bytes l.
Proof. done. Qed.

Lemma clients_bytes_cons p l : clients_bytes (p :: l) = client_bytes p ++ clients_bytes l.
Proof. done. Qed.

Lemma concat_size_perm {A} (f : A -> list byte) l k :
  l ≡ₚ k -> size_of (concat (map f l)) = size_of (concat (map f k)).
Proof. unfold size_of. induction 1; cbn; rewrite ?length_app; lia. Qed.

Lemma values_size_perm l k : l ≡ₚ k -> size_of (values_bytes l) = size_of (values_bytes k).
Proof. apply concat_size_perm. Qed.

Lemma clients_size_perm l k : l ≡ₚ k -> size_of (clients_bytes l) = size_of (clients_bytes k).
Proof. apply concat_size_perm. Qed.

Definition good_pair (p : list byte * list byte) : Prop := pair_ok p.1 p.2.

Lemma good_pair_u32 p : good_pair p -> is_u32 (size_of p.1) /\ is_u32 (size_of p.2).
Proof.
  intros [Hk Hv]. unfold is_u32, kMaxKeySize, kMaxValueSize in *. pose proof (size_of_nonneg p.2). lia.
Qed.

(** The records of a machine pass [validate_record]. *)
Lemma valid_stored_result_spec c response : valid_stored_result c response = true <-> response_ok c response.
Proof.
  unfold valid_stored_result, response_ok. destruct (rc_operation c).
  - apply bool_decide_eq_true.
  - destruct response as [|b [|b' l]]; cbn; [naive_solver| |naive_solver].
    rewrite orb_true_iff. split.
    + by intros [H%Byte.byte_dec_bl|H%Byte.byte_dec_bl]; rewrite H; auto.
    + by intros [[= ->]|[= ->]]; auto.
Qed.

Lemma command_bytes_bound c :
  valid_command c -> Z.of_nat kCommandHeaderSize < size_of (command_bytes c) <= kMaxClientCommandSize.
Proof.
  intros Hv. rewrite command_bytes_size by apply Hv. pose proof (vc_key _ Hv). pose proof (vc_value _ Hv).
  pose proof (size_of_nonneg (rc_value c)). unfold kMaxClientCommandSize, kCommandHeaderSize. lia.
Qed.

Lemma validate_record_spec id r : validate_record id r = None <-> record_ok id r.
Proof.
  unfold validate_record, record_ok. split.
  - destruct ((d_request_id r =? 0) || _); [done|]. destruct (dr_value _) as [c|] eqn:Ec; [|done].
    apply decode_command_sound in Ec as [Hv Hb]. rewrite encode_command_ok by done.
    destruct (_ || _) eqn:Eg; [done|].
    rewrite !orb_false_iff, !negb_false_iff, !bool_decide_eq_true, Z.eqb_eq, valid_stored_result_spec in Eg.
    intros _. exists c. naive_solver.
  - intros (c & Hv & Hid & Hr & Hb & Hresp). pose proof (command_bytes_bound c Hv) as Hs.
    rewrite <- Hr, (proj2 (Z.eqb_neq _ 0) (vc_request _ Hv)), Hb, (proj2 (Z.ltb_ge _ _)) by lia. cbn [orb].
    rewrite decode_command_bytes by done. cbn [dr_value decoded].
    by rewrite bool_decide_true, Z.eqb_refl, encode_command_ok, bool_decide_true,
      (proj2 (valid_stored_result_spec _ _) Hresp) by done.
Qed.

(** What a valid record looks like on the wire. *)
Lemma record_ok_sizes id r :
  record_ok id r ->
  length id = 16%nat /\ is_u64 (d_request_id r) /\ d_request_id r <> 0 /\
  0 < size_of (d_command r) <= kMaxClientCommandSize /\ 0 <= size_of (d_response r) <= 1.
Proof.
  intros (c & Hv & <- & <- & -> & Hresp). pose proof (command_bytes_bound c Hv) as Hs.
  destruct (vc_machine _ Hv) as [? ?]. split_and!; try done; [apply Hv|lia|apply size_of_nonneg|].
  revert Hresp. unfold response_ok. destruct (rc_operation c); [by intros ->|by intros [-> | ->]].
Qed.

Lemma length_client_bytes p :
  length p.1 = 16%nat ->
  length (client_bytes p) = (32 + length (d_command p.2) + length (d_response p.2))%nat.
Proof.
  intros H. unfold client_bytes. rewrite !length_app, H, length_write_u64, !length_write_u32. lia.
Qed.

(** ** Sizes *)

Abbreviation limit := RaftFormat.kMaxSnapshotPayloadSize.

Lemma add_size_spec total amount :
  0 <= total <= limit -> add_size total amount =
    if limit <? total + amount then Throw invalid_argument else Ok (total + amount).
Proof.
  intros H. unfold add_size, RaftFormat.kMaxSnapshotPayloadSize in *.
  rewrite u64_small by (unfold is_u64; lia).
  destruct (Z.ltb_spec (512 * 1024 * 1024 - total) amount),
    (Z.ltb_spec (512 * 1024 * 1024) (total + amount)); done || lia.
Qed.

(** Three sizes added one after the other. *)
Lemma add_sizes {A} total a b c (k : Z -> result A) :
  0 <= total <= limit -> 0 <= a -> 0 <= b -> 0 <= c ->
  match add_size total a with
  | Throw e => Throw e
  | Ok size => match add_size size b with
      | Throw e => Throw e
      | Ok size => match add_size size c with Throw e => Throw e | Ok size => k size end
      end
  end = if limit <? total + (a + b + c) then Throw invalid_argument else k (total + (a + b + c)).
Proof.
  intros Ht Ha Hb Hc. rewrite add_size_spec by done.
  destruct (Z.ltb_spec limit (total + a)); [by rewrite (proj2 (Z.ltb_lt _ _)) by lia|].
  rewrite add_size_spec by lia.
  destruct (Z.ltb_spec limit (total + a + b)); [by rewrite (proj2 (Z.ltb_lt _ _)) by lia|].
  rewrite add_size_spec by lia. replace (total + a + b + c) with (total + (a + b + c)) by lia.
  by destruct (limit <? _).
Qed.

Lemma values_size_spec l size :
  0 <= size <= limit ->
  match values_size l size with
  | Ok n => Forall good_pair l /\ n = size + size_of (values_bytes l) /\ n <= limit
  | Throw e => e = invalid_argument /\
      ~ (Forall good_pair l /\ size + size_of (values_bytes l) <= limit)
  end.
Proof.
  revert size. induction l as [|[k v] l IH]; intros size Hs; cbn [values_size].
  { change (size_of (values_bytes [])) with 0. split_and!; [constructor|lia..]. }
  pose proof (validate_values_spec [(k, v)]) as Hp. cbn [validate_values] in Hp.
  rewrite values_bytes_cons, size_of_app.
  destruct (_ || _ || _) eqn:E.
  { split; [done|]. rewrite Forall_cons. intros [[Hk _] _]. destruct Hp as [_ Hp]. apply Hp.
    by apply Forall_singleton. }
  rewrite add_sizes by (done || apply size_of_nonneg).
  assert (size_of (value_bytes (k, v)) = 8 + size_of k + size_of v) as Hsz
    by (unfold size_of; rewrite length_value_bytes; cbn; lia).
  change (Z.of_nat kEntryHeaderSize) with 8. rewrite <- Hsz.
  pose proof (size_of_nonneg (value_bytes (k, v))). pose proof (size_of_nonneg (values_bytes l)).
  destruct (Z.ltb_spec limit (size + size_of (value_bytes (k, v)))); [split; [done|]; lia|].
  specialize (IH (size + size_of (value_bytes (k, v))) ltac:(lia)). apply Forall_cons in Hp as [Hp _].
  destruct (values_size l _) as [n|].
  - destruct IH as (Hf & -> & Hle). split_and!; [by constructor; [exact Hp|]|lia..].
  - destruct IH as [-> Hno]. split; [done|]. rewrite Forall_cons. intros [[_ Hf] Hle]. apply Hno.
    split; [done|lia].
Qed.

Lemma clients_size_spec l size dedup :
  0 <= size <= limit -> 0 <= dedup <= kMaxDedupBytes ->
  match clients_size l size dedup with
  | Ok n => Forall client_ok l /\ dedup + total_bytes l <= kMaxDedupBytes /\
      n = size + size_of (clients_bytes l) /\ n <= limit
  | Throw e => e = invalid_argument /\
      ~ (Forall client_ok l /\ dedup + total_bytes l <= kMaxDedupBytes /\
         size + size_of (clients_bytes l) <= limit)
  end.
Proof.
  revert size dedup. induction l as [|[id r] l IH]; intros size dedup Hs Hd; cbn [clients_size].
  { change (size_of (clients_bytes [])) with 0. cbn. split_and!; [constructor|lia..]. }
  rewrite clients_bytes_cons, size_of_app. cbn [total_bytes foldr snd]. fold (total_bytes l).
  pose proof (validate_record_spec id r) as Hv. pose proof (total_bytes_nonneg l).
  pose proof (record_bytes_nonneg r). destruct (validate_record id r) eqn:Er.
  { split; [done|]. rewrite Forall_cons. intros [[Hk _] _]. by apply Hv in Hk. }
  cbv zeta. fold (record_bytes r). specialize (proj1 Hv eq_refl) as Hok. clear Hv.
  unfold kMaxDedupBytes in *. rewrite u64_small by (unfold is_u64; lia).
  destruct (Z.ltb_spec (64 * 1024 * 1024 - dedup) (record_bytes r)); [split; [done|]; lia|].
  rewrite add_sizes by (done || apply size_of_nonneg).
  assert (size_of (client_bytes (id, r)) = 32 + size_of (d_command r) + size_of (d_response r)) as Hsz.
  { unfold size_of. rewrite length_client_bytes by apply (record_ok_sizes _ _ Hok). cbn [snd]. lia. }
  change (Z.of_nat kDedupEntryHeaderSize) with 32. rewrite <- Hsz.
  pose proof (size_of_nonneg (client_bytes (id, r))). pose proof (size_of_nonneg (clients_bytes l)).
  destruct (Z.ltb_spec limit (size + size_of (client_bytes (id, r)))); [split; [done|]; lia|].
  specialize (IH (size + size_of (client_bytes (id, r))) (dedup + record_bytes r) ltac:(lia) ltac:(lia)).
  destruct (clients_size l _ _) as [n|].
  - destruct IH as (Hf & Ht & -> & Hle). split_and!; [by constructor|lia..].
  - destruct IH as [-> Hno]. split; [done|]. rewrite Forall_cons. intros ((_ & Hf) & ? & ?). apply Hno.
    split_and!; [done|lia..].
Qed.

(** ** Writing *)

(** A field stored at the front of what is left of a zeroed buffer. *)
Lemma write_front pre f n rest :
  write_at (length pre) f ((pre ++ zero_bytes (length f + n)) ++ rest) =
  ((pre ++ f) ++ zero_bytes n) ++ rest.
Proof.
  unfold zero_bytes. rewrite replicate_add. fold (zero_bytes (length f)) (zero_bytes n).
  rewrite <- !(assoc_L (++)), write_at_app_r, Nat.sub_diag by done.
  rewrite write_at_app_l, write_at_all by (unfold zero_bytes; rewrite ?length_replicate; lia). done.
Qed.

(** The same with the offset computed another way. *)
Lemma write_front_at off pre f n rest :
  off = length pre -> write_at off f ((pre ++ zero_bytes (length f + n)) ++ rest) =
  ((pre ++ f) ++ zero_bytes n) ++ rest.
Proof. intros ->. apply write_front. Qed.

Lemma write_values_bytes l pre rest :
  Forall good_pair l ->
  write_values l (length pre) ((pre ++ zero_bytes (length (values_bytes l))) ++ rest) =
  (length (pre ++ values_bytes l), (pre ++ values_bytes l) ++ rest).
Proof.
  revert pre. induction l as [|[k v] l IH]; intros pre Hf; cbn [write_values].
  { change (values_bytes []) with (@nil byte). cbn [length zero_bytes replicate]. by rewrite !app_nil_r. }
  apply Forall_cons in Hf as [Hp Hf]. destruct (good_pair_u32 _ Hp) as [Hk Hv]. cbn [fst snd] in *.
  rewrite !u32_small by done. rewrite values_bytes_cons, length_app, length_value_bytes.
  cbn [fst snd]. cbv zeta. set (n := length (values_bytes l)).
  replace (8 + length k + length v + n)%nat
    with (length (write_u32 (size_of k)) + (length (write_u32 (size_of v)) + (length k + (length v + n))))%nat
    by (rewrite !length_write_u32; lia).
  rewrite (write_front_at (length pre)) by done.
  do 3 rewrite write_front_at by (rewrite !length_app, ?length_write_u32; unfold kEntryHeaderSize; lia).
  specialize (IH (pre ++ value_bytes (k, v)) Hf). rewrite (length_app pre), length_value_bytes in IH.
  fold n in IH. unfold value_bytes in IH |- *. cbn [fst snd] in IH |- *.
  rewrite <- !(assoc_L (++)) in IH |- *. unfold kEntryHeaderSize.
  by rewrite IH, <- (assoc_L (++) v).
Qed.

Lemma write_clients_bytes l pre :
  Forall client_ok l ->
  write_clients l (length pre) (pre ++ zero_bytes (length (clients_bytes l))) = pre ++ clients_bytes l.
Proof.
  revert pre. induction l as [|[id r] l IH]; intros pre Hf; cbn [write_clients].
  { change (clients_bytes []) with (@nil byte). done. }
  apply Forall_cons in Hf as [Hp Hf]. destruct (record_ok_sizes _ _ Hp) as (Hid & Hr & _ & Hc & Hresp).
  cbn [fst snd] in *. unfold kMaxClientCommandSize, kMaxKeySize, kMaxValueSize in *.
  rewrite !u32_small by (unfold is_u32; lia).
  rewrite clients_bytes_cons, length_app, length_client_bytes by done. cbn [fst snd]. cbv zeta.
  set (n := length (clients_bytes l)). set (c := d_command r) in *. set (a := d_response r) in *.
  replace (32 + length c + length a + n)%nat
    with (length id + (length (write_u64 (d_request_id r)) + (length (write_u32 (size_of c)) +
      (length (write_u32 (size_of a)) + (length c + (length a + n))))))%nat
    by (rewrite length_write_u64, !length_write_u32; lia).
  rewrite <- (app_nil_r (pre ++ zero_bytes _)).
  rewrite (write_front_at (length pre)) by done.
  do 5 rewrite write_front_at by (rewrite !length_app, ?length_write_u64, ?length_write_u32, Hid; lia).
  rewrite app_nil_r.
  specialize (IH (pre ++ client_bytes (id, r)) Hf). rewrite (length_app pre), length_client_bytes in IH by done.
  fold n in IH. unfold client_bytes in IH |- *. cbn [fst snd] in IH |- *. fold c a in IH |- *.
  rewrite <- !(assoc_L (++)) in IH |- *. unfold kDedupEntryHeaderSize.
  by rewrite IH, <- (assoc_L (++) c).
Qed.

(** ** Encoding as a function of the content *)

Record encodable (s : SnapshotState) : Prop := {
  en_ok : state_ok kMaxDedupClients kMaxDedupBytes s;
  en_keys : map_size (ss_values s) <= kMaxSnapshotKeys;
  en_size : size_of (snapshot_bytes s) <= limit
}.

Lemma snapshot_bytes_size s :
  size_of (snapshot_bytes s) =
  24 + size_of (values_bytes (map_to_list (ss_values s))) + size_of (clients_bytes (map_to_list (ss_clients s))).
Proof.
  unfold snapshot_bytes. rewrite !size_of_app, (values_size_perm _ _ (in_order_perm _)),
    (clients_size_perm _ _ (in_order_perm _)). change (size_of (state_head _ _)) with 24. lia.
Qed.

Section Encoding.
Context `{UnorderedMap}.

Lemma encode_snapshot_ok s : encodable s -> encode_snapshot_state s = Ok (snapshot_bytes s).
Proof.
  intros [[Hv Hc Hn Hb] Hk Hsz]. unfold encode_snapshot_state.
  rewrite (proj2 (Z.ltb_ge _ _) Hk), (proj2 (Z.ltb_ge _ _) Hn). cbn [orb].
  pose proof (snapshot_bytes_size s) as Hs. rewrite Hs in Hsz.
  rewrite <- (values_size_perm _ _ (traverse_elements (ss_values s))),
    <- (clients_size_perm _ _ (traverse_elements (ss_clients s))) in Hs, Hsz.
  set (lv := traverse (ss_values s)) in *. set (lc := traverse (ss_clients s)) in *.
  pose proof (size_of_nonneg (values_bytes lv)). pose proof (size_of_nonneg (clients_bytes lc)).
  assert (Forall good_pair lv) as Hlv by by apply (traverse_Forall pair_ok).
  assert (Forall client_ok lc) as Hlc by by apply (traverse_Forall record_ok).
  assert (total_bytes lc <= kMaxDedupBytes) as Hlt.
  { unfold lc. rewrite traverse_elements. exact Hb. }
  pose proof (values_size_spec lv 24 ltac:(unfold RaftFormat.kMaxSnapshotPayloadSize; lia)) as Hvs.
  change (Z.of_nat kStateHeaderSize) with 24.
  destruct (values_size lv 24) as [n1|]; [|exfalso; apply Hvs; split; [done|lia]].
  destruct Hvs as (_ & -> & Hn1).
  pose proof (clients_size_spec lc (24 + size_of (values_bytes lv)) 0 ltac:(lia)
    ltac:(unfold kMaxDedupBytes; lia)) as Hcs.
  destruct (clients_size lc _ _) as [n2|]; [|exfalso; apply Hcs; split_and!; [done|lia..]].
  destruct Hcs as (_ & _ & -> & _). cbv zeta.
  unfold lv, lc. rewrite !sort_traverse. fold lv lc.
  assert (Z.to_nat (24 + size_of (values_bytes lv) + size_of (clients_bytes lc)) =
    (24 + (length (values_bytes (in_order (ss_values s))) +
           length (clients_bytes (in_order (ss_clients s)))))%nat) as ->.
  { unfold lv, lc. rewrite (values_size_perm _ _ (traverse_elements _)), (clients_size_perm _ _ (traverse_elements _)).
    rewrite <- (values_size_perm _ _ (in_order_perm _)), <- (clients_size_perm _ _ (in_order_perm _)).
    unfold size_of. lia. }
  set (vb := values_bytes (in_order _)). set (cb := clients_bytes (in_order _)).
  rewrite u16_small by done. unfold zero_bytes. rewrite !replicate_add.
  fold (zero_bytes (length vb)) (zero_bytes (length cb)).
  set (head := state_head (map_size (ss_values s)) (map_size (ss_clients s))).
  change (write_at 16 _ _) with (head ++ zero_bytes (length vb) ++ zero_bytes (length cb)).
  rewrite (assoc_L (++)). change kStateHeaderSize with (length head). unfold vb.
  rewrite write_values_bytes by by rewrite in_order_perm, <- (traverse_elements (ss_values s)).
  fold vb. unfold cb. rewrite write_clients_bytes by by rewrite in_order_perm, <- (traverse_elements (ss_clients s)).
  unfold snapshot_bytes. by rewrite (assoc_L (++)).
Qed.

Lemma encode_snapshot_inv s bs :
  encode_snapshot_state s = Ok bs -> encodable s /\ bs = snapshot_bytes s.
Proof.
  intros E. assert (encodable s) as He; [|split; [done|]; rewrite encode_snapshot_ok in E by done; congruence].
  revert E. unfold encode_snapshot_state. destruct (_ || _) eqn:El; [done|].
  rewrite orb_false_iff, !Z.ltb_ge in El. change (Z.of_nat kStateHeaderSize) with 24.
  pose proof (values_size_spec (traverse (ss_values s)) 24 ltac:(unfold RaftFormat.kMaxSnapshotPayloadSize; lia)) as Hvs.
  destruct (values_size _ _) as [n1|]; [|done]. destruct Hvs as (Hv & -> & Hn1).
  pose proof (size_of_nonneg (values_bytes (traverse (ss_values s)))).
  assert (0 <= 24 + size_of (values_bytes (traverse (ss_values s))) <= limit) as Hr by lia.
  pose proof (clients_size_spec (traverse (ss_clients s)) _ 0 Hr ltac:(unfold kMaxDedupBytes; lia)) as Hcs.
  destruct (clients_size _ _ _) as [n2|]; [|done]. destruct Hcs as (Hc & Ht & -> & Hn2). intros _.
  rewrite (values_size_perm _ _ (traverse_elements _)), (clients_size_perm _ _ (traverse_elements _)) in Hn2.
  split; [split|apply El|].
  - by apply traverse_Forall.
  - by apply traverse_Forall.
  - apply El.
  - unfold dedup_total. rewrite <- traverse_elements. lia.
  - rewrite snapshot_bytes_size. lia.
Qed.

Lemma encode_snapshot_throws s e : encode_snapshot_state s = Throw e -> e = invalid_argument.
Proof.
  unfold encode_snapshot_state. destruct (_ || _); [congruence|]. change (Z.of_nat kStateHeaderSize) with 24.
  pose proof (values_size_spec (traverse (ss_values s)) 24 ltac:(unfold RaftFormat.kMaxSnapshotPayloadSize; lia)) as Hvs.
  destruct (values_size _ _) as [n1|]; [|intros [= <-]; tauto]. destruct Hvs as (Hv & -> & Hn1).
  pose proof (size_of_nonneg (values_bytes (traverse (ss_values s)))).
  assert (0 <= 24 + size_of (values_bytes (traverse (ss_values s))) <= limit) as Hr by lia.
  pose proof (clients_size_spec (traverse (ss_clients s)) _ 0 Hr ltac:(unfold kMaxDedupBytes; lia)) as Hcs.
  destruct (clients_size _ _ _) as [n2|]; [|intros [= <-]; tauto]. by destruct (write_values _ _ _).
Qed.

End Encoding.

(** ** Reading *)

(** Keys that increase from [prev] on. *)
Fixpoint chain {A} (prev : option (list byte)) (l : list (list byte * A)) : Prop :=
  match l with
  | [] => True
  | p :: l' => match prev with Some k => bytes_less k p.1 = true | None => True end /\ chain (Some p.1) l'
  end.

Lemma chain_sorted {A} prev (l : list (list byte * A)) : chain prev l -> StronglySorted before l.
Proof.
  intros H. apply Sorted_StronglySorted; [apply _|]. revert prev H.
  induction l as [|p l IH]; intros prev; cbn; [constructor|]. intros [_ H]. constructor; [by eapply IH|].
  destruct l as [|q l]; constructor. apply H.
Qed.

Lemma sorted_chain {A} (l : list (list byte * A)) : StronglySorted before l -> chain None l.
Proof.
  intros H. destruct l as [|p l]; [done|]. split; [done|]. revert p H.
  induction l as [|q l IH]; intros p H; [done|]. apply StronglySorted_inv in H as [H Hf].
  apply Forall_cons in Hf as [Hp _]. split; [exact Hp|]. by apply IH.
Qed.

Definition key_opt (key : list byte) : option (list byte) := if bool_decide (key = []) then None else Some key.

Abbreviation emplaced l start := (fold_left (fun m p => emplace m p.1 p.2) l start).

Lemma order_check prev key (l : list (list byte * list byte)) v :
  chain (key_opt prev) ((key, v) :: l) ->
  negb (bool_decide (prev = [])) && negb (bytes_less prev key) = false.
Proof. unfold key_opt. case_bool_decide; cbn; [done|]. by intros [-> _]. Qed.

Lemma read_values_bytes l pre rest prev acc :
  Forall good_pair l -> chain (key_opt prev) l ->
  read_values (length l) (pre ++ values_bytes l ++ rest) (length pre) prev acc =
  inr (emplaced l acc, length (pre ++ values_bytes l)).
Proof.
  revert pre prev acc. induction l as [|[k v] l IH]; intros pre prev acc Hf Hch; cbn [read_values length].
  { cbn. by rewrite app_nil_r. }
  apply Forall_cons in Hf as [Hp Hf]. destruct (good_pair_u32 _ Hp) as [Hku Hvu].
  destruct Hp as [Hk Hv]. cbn [fst snd] in *. pose proof (order_check _ _ _ _ Hch) as Hord.
  rewrite values_bytes_cons, <- (assoc_L (++)). set (bs := value_bytes (k, v) ++ values_bytes l ++ rest).
  assert (length bs = (8 + length k + length v + length (values_bytes l ++ rest))%nat) as Hl
    by (unfold bs; rewrite length_app, length_value_bytes; done).
  unfold kEntryHeaderSize in *. rewrite (proj2 (Nat.ltb_ge _ _)) by (rewrite length_app; lia).
  assert (subspan (length pre) 4 (pre ++ bs) = write_u32 (size_of k) ++ []) as ->
    by (unfold subspan; by rewrite drop_app_length).
  rewrite <- !Nat.add_assoc, !RaftFormat.subspan_app_r.
  change (subspan 4 4 bs) with (write_u32 (size_of v) ++ []). rewrite !read_write_u32 by done. cbv zeta.
  rewrite (proj2 (Z.eqb_neq (size_of k) 0)) by lia.
  rewrite (proj2 (Z.ltb_ge kMaxKeySize _)), (proj2 (Z.ltb_ge kMaxValueSize _)) by lia.
  rewrite length_app, Hl. rewrite (proj2 (Z.ltb_ge _ (size_of k))), (proj2 (Z.ltb_ge _ (size_of v)))
    by (unfold size_of; lia). cbn [orb]. unfold size_of. rewrite !Nat2Z.id.
  assert (subspan 8 (length k) bs = k) as ->.
  { unfold subspan. change (drop 8 bs) with ((k ++ v) ++ values_bytes l ++ rest).
    by rewrite <- (assoc_L (++)), take_app_length. }
  assert (subspan (8 + length k) (length v) bs = v) as ->.
  { unfold subspan. rewrite <- drop_drop. change (drop 8 bs) with ((k ++ v) ++ values_bytes l ++ rest).
    by rewrite <- (assoc_L (++)), drop_app_length, take_app_length. }
  rewrite Hord. specialize (IH (pre ++ value_bytes (k, v)) k (emplace acc k v) Hf).
  rewrite <- !(assoc_L (++)), (length_app pre (value_bytes _)), length_value_bytes in IH.
  cbn [fst snd] in IH. fold bs in IH. rewrite <- Nat.add_assoc in IH. rewrite IH; [done|].
  destruct Hch as [_ Hch]. cbn [fst] in Hch. unfold key_opt. rewrite bool_decide_false; [done|].
  intros ->. unfold size_of in Hk. cbn in Hk. lia.
Qed.

Lemma read_values_sound n input offset prev acc m offset' :
  read_values n input offset prev acc = inr (m, offset') -> (offset <= length input)%nat ->
  exists l, length l = n /\ drop offset input = values_bytes l ++ drop offset' input /\
    Forall good_pair l /\ chain (key_opt prev) l /\ m = emplaced l acc /\
    (offset <= offset' <= length input)%nat.
Proof.
  revert offset prev acc. induction n as [|n IH]; intros offset prev acc; cbn [read_values].
  { intros [= <- <-] Hle. exists []. split_and!; done || lia || constructor. }
  unfold kEntryHeaderSize. destruct (Nat.ltb_spec (length input - offset) 8) as [|Hh]; [done|]. cbv zeta.
  set (ks := read_u32 (subspan offset 4 input)). set (vs := read_u32 (subspan (offset + 4) 4 input)).
  destruct (_ || _) eqn:Eg; [done|]. rewrite !orb_false_iff, !Z.ltb_ge, Z.eqb_neq in Eg.
  destruct Eg as ((((Hk0 & Hk1) & Hv1) & Hk2) & Hv2).
  assert (is_u32 ks /\ is_u32 vs) as [Hku Hvu] by (split; apply read_u32_range, length_subspan; lia).
  unfold is_u32 in *. set (k := subspan (offset + 8) (Z.to_nat ks) input).
  set (v := subspan (offset + 8 + Z.to_nat ks) (Z.to_nat vs) input).
  destruct (_ && _) eqn:Eo; [done|]. intros E Hle.
  apply IH in E as (l & Hn & Hd & Hf & Hch & -> & Ho); [|lia].
  assert (length k = Z.to_nat ks /\ length v = Z.to_nat vs) as [Hlk Hlv]
    by (split; apply length_subspan; lia).
  assert (k <> []) as Hk by (intros Ek; rewrite Ek in Hlk; cbn in Hlk; lia).
  exists ((k, v) :: l). split_and!; [cbn; lia| |constructor; [|done]|split; [|]|done|lia|lia].
  - rewrite values_bytes_cons, <- (assoc_L (++)), <- Hd. unfold value_bytes, size_of. cbn [fst snd].
    rewrite Hlk, Hlv, !Z2Nat.id, <- !(assoc_L (++)) by lia.
    rewrite (cut_u32 input offset) by lia. f_equal. rewrite (cut_u32 input) by lia. f_equal.
    rewrite <- Nat.add_assoc. change (4 + 4)%nat with 8%nat.
    rewrite (cut_span input (offset + 8) (Z.to_nat ks)). fold k. f_equal.
    rewrite (cut_span input _ (Z.to_nat vs)). fold v. by rewrite <- !Nat.add_assoc.
  - unfold good_pair, pair_ok, size_of. cbn [fst snd]. rewrite Hlk, Hlv. lia.
  - unfold key_opt. destruct (bool_decide (prev = [])); [done|].
    cbn in Eo. by rewrite negb_false_iff in Eo.
  - unfold key_opt in Hch. by rewrite bool_decide_false in Hch.
Qed.

Lemma read_clients_bytes l pre prev dedup acc :
  Forall client_ok l -> chain prev l -> 0 <= dedup -> dedup + total_bytes l <= kMaxDedupBytes ->
  read_clients (length l) (pre ++ clients_bytes l) (length pre) prev dedup acc =
  inr (emplaced l acc, length (pre ++ clients_bytes l)).
Proof.
  revert pre prev dedup acc. induction l as [|[id r] l IH]; intros pre prev dedup acc Hf Hch H0 Ht;
    cbn [read_clients length]. { cbn. by rewrite app_nil_r. }
  apply Forall_cons in Hf as [Hp Hf]. destruct (record_ok_sizes _ _ Hp) as (Hid & Hr & Hr0 & Hc & Ha).
  cbn [fst snd total_bytes foldr] in *. fold (total_bytes l) in Ht.
  pose proof (total_bytes_nonneg l) as Htl. pose proof (record_bytes_nonneg r) as Hrb.
  rewrite clients_bytes_cons. set (bs := client_bytes (id, r) ++ clients_bytes l).
  set (c := d_command r) in *. set (a := d_response r) in *.
  assert (length bs = (32 + length c + length a + length (clients_bytes l))%nat) as Hl
    by (unfold bs; rewrite length_app, length_client_bytes; done).
  assert (is_u32 (size_of c) /\ is_u32 (size_of a)) as [Hcu Hau]
    by (unfold is_u32, kMaxClientCommandSize, kMaxKeySize, kMaxValueSize in *; lia).
  unfold kDedupEntryHeaderSize in *. rewrite (proj2 (Nat.ltb_ge _ _)) by (rewrite length_app; lia).
  assert (subspan (length pre) 16 (pre ++ bs) = id) as ->.
  { unfold subspan. rewrite drop_app_length. unfold bs, client_bytes. cbn [fst snd].
    by rewrite <- (assoc_L (++)), take_app_length'. }
  rewrite <- !Nat.add_assoc, !RaftFormat.subspan_app_r.
  assert (bs = (id ++ write_u64 (d_request_id r) ++ write_u32 (size_of c) ++ write_u32 (size_of a)) ++
    (c ++ a) ++ clients_bytes l) as Eb by (unfold bs, client_bytes; cbn [fst snd]; by rewrite <- !(assoc_L (++))).
  do 17 (destruct id as [|? id]; [try done|]); [|done].
  assert (subspan 16 8 bs = write_u64 (d_request_id r) ++ []) as -> by (rewrite Eb; reflexivity).
  assert (subspan 24 4 bs = write_u32 (size_of c) ++ []) as -> by (rewrite Eb; reflexivity).
  assert (subspan 28 4 bs = write_u32 (size_of a) ++ []) as -> by (rewrite Eb; reflexivity).
  assert (drop 32 bs = (c ++ a) ++ clients_bytes l) as Hd by (rewrite Eb; reflexivity).
  set (id' := _ :: _) in *. rewrite read_write_u64, !read_write_u32 by done. cbv zeta.
  assert (match prev with Some previous => negb (client_less previous id') | None => false end = false) as ->.
  { destruct Hch as [Hch _]. destruct prev; [|done]. unfold client_less. cbn [fst] in Hch. by rewrite Hch. }
  rewrite (proj2 (Z.eqb_neq _ 0) Hr0), (proj2 (Z.ltb_ge kMaxClientCommandSize _)),
    (proj2 (Z.ltb_ge 1 _)) by lia. rewrite length_app, Hl.
  rewrite (proj2 (Z.ltb_ge _ (size_of c))), (proj2 (Z.ltb_ge _ (size_of a))) by (unfold size_of; lia).
  cbn [orb]. unfold kMaxDedupBytes in *. rewrite u64_small by (unfold is_u64; lia).
  change (size_of c + size_of a) with (record_bytes r). rewrite (proj2 (Z.ltb_ge _ (record_bytes r))) by lia.
  unfold size_of. rewrite !Nat2Z.id.
  assert (subspan 32 (length c) bs = c) as -> by (unfold subspan; by rewrite Hd, <- (assoc_L (++)), take_app_length).
  assert (subspan (32 + length c) (length a) bs = a) as ->.
  { unfold subspan. rewrite <- drop_drop, Hd. by rewrite <- (assoc_L (++)), drop_app_length, take_app_length. }
  assert (Build_DedupRecord (d_request_id r) c a = r) as -> by by destruct r.
  rewrite (proj2 (validate_record_spec id' r) Hp).
  specialize (IH (pre ++ client_bytes (id', r)) (Some id') (dedup + record_bytes r) (emplace acc id' r) Hf).
  rewrite <- !(assoc_L (++)), (length_app pre (client_bytes _)), length_client_bytes in IH by done.
  cbn [snd] in IH. fold c a bs in IH. rewrite <- Nat.add_assoc in IH. rewrite IH by (apply Hch || lia).
  by rewrite length_app, Hl.
Qed.

Lemma read_clients_sound n input offset prev dedup acc m offset' :
  read_clients n input offset prev dedup acc = inr (m, offset') -> (offset <= length input)%nat ->
  0 <= dedup <= kMaxDedupBytes ->
  exists l, length l = n /\ drop offset input = clients_bytes l ++ drop offset' input /\
    Forall client_ok l /\ chain prev l /\ m = emplaced l acc /\
    dedup + total_bytes l <= kMaxDedupBytes /\ (offset <= offset' <= length input)%nat.
Proof.
  revert offset prev dedup acc. induction n as [|n IH]; intros offset prev dedup acc; cbn [read_clients].
  { intros [= <- <-] Hle ?. exists []. cbn. split_and!; done || lia || constructor. }
  unfold kDedupEntryHeaderSize. destruct (Nat.ltb_spec (length input - offset) 32) as [|Hh]; [done|]. cbv zeta.
  set (id := subspan offset 16 input).
  set (rid := read_u64 (subspan (offset + 16) 8 input)).
  set (cs := read_u32 (subspan (offset + 24) 4 input)). set (rs := read_u32 (subspan (offset + 28) 4 input)).
  destruct (match prev with Some _ => _ | None => _ end) eqn:Eprev; [done|].
  destruct (_ || _) eqn:Eg; [done|]. rewrite !orb_false_iff, !Z.ltb_ge, Z.eqb_neq in Eg.
  destruct Eg as ((((Hr0 & Hc1) & Ha1) & Hc2) & Ha2).
  assert (is_u32 cs /\ is_u32 rs) as [Hcu Hau] by (split; apply read_u32_range, length_subspan; lia).
  unfold is_u32 in *.
  destruct (u64 (kMaxDedupBytes - dedup) <? cs + rs) eqn:Ed; [done|].
  set (c := subspan (offset + 32) (Z.to_nat cs) input).
  set (a := subspan (offset + 32 + Z.to_nat cs) (Z.to_nat rs) input).
  destruct (validate_record _ _) eqn:Ev; [done|]. intros E Hle Hd.
  apply validate_record_spec in Ev.
  unfold kMaxDedupBytes in Ed, Hd. rewrite u64_small, Z.ltb_ge in Ed by (unfold is_u64; lia).
  apply IH in E as (l & Hn & Hdrop & Hf & Hch & -> & Ht & Ho); [|lia|unfold kMaxDedupBytes; lia].
  assert (length c = Z.to_nat cs /\ length a = Z.to_nat rs) as [Hlc Hla]
    by (split; apply length_subspan; lia).
  set (r := {| d_request_id := rid; d_command := c; d_response := a |}) in *.
  exists ((id, r) :: l).
  assert (record_bytes r = cs + rs) as Hrb by (unfold record_bytes, size_of; cbn [r d_command d_response]; lia).
  split_and!; [cbn; lia| |by constructor|split; [|done]|done| |lia|lia].
  - rewrite clients_bytes_cons, <- (assoc_L (++)), <- Hdrop. unfold client_bytes, size_of.
    cbn [fst snd r d_request_id d_command d_response].
    rewrite Hlc, Hla, !Z2Nat.id, <- !(assoc_L (++)) by lia.
    rewrite (cut_span input offset 16). fold id. f_equal. rewrite (cut_u64 input) by lia. f_equal.
    rewrite <- Nat.add_assoc. rewrite (cut_u32 input) by lia. f_equal.
    rewrite <- Nat.add_assoc. rewrite (cut_u32 input) by lia. f_equal. rewrite <- Nat.add_assoc.
    change (16 + 8 + 4 + 4)%nat with 32%nat. rewrite (cut_span input (offset + 32) (Z.to_nat cs)). fold c. f_equal.
    rewrite (cut_span input _ (Z.to_nat rs)). fold a. by rewrite <- !Nat.add_assoc.
  - destruct prev; [|done]. by rewrite negb_false_iff in Eprev.
  - cbn [total_bytes foldr snd]. fold (total_bytes l). rewrite Hrb. lia.
Qed.

(** ** The codec *)

Lemma map_size_in_order {A} (m : gmap (list byte) A) : map_size m = size_of (in_order m).
Proof.
  unfold map_size, size_of. rewrite (Permutation_length (in_order_perm m)). by rewrite length_map_to_list.
Qed.

Lemma values_bytes_length l : Forall good_pair l -> 9 * size_of l <= size_of (values_bytes l).
Proof.
  induction 1 as [|[k v] l [Hk _] Hf IH]; [done|]. rewrite values_bytes_cons, size_of_app.
  unfold size_of in *. rewrite length_value_bytes. cbn [length fst snd] in *. lia.
Qed.

Lemma decode_snapshot_bytes s : encodable s -> decode_snapshot_state (snapshot_bytes s) = decoded s.
Proof.
  intros [[Hv Hc Hn Hb] Hk _]. unfold decode_snapshot_state, snapshot_bytes.
  set (nk := map_size (ss_values s)) in *. set (nc := map_size (ss_clients s)) in *.
  set (lv := in_order (ss_values s)). set (lc := in_order (ss_clients s)).
  assert (nk = size_of lv /\ nc = size_of lc) as [Enk Enc] by (split; apply map_size_in_order).
  pose proof (size_of_nonneg lv). pose proof (size_of_nonneg lc).
  assert (Forall good_pair lv) as Hlv by by apply (Forall_in_order pair_ok).
  assert (Forall client_ok lc) as Hlc by by apply (Forall_in_order record_ok).
  pose proof (values_bytes_length lv Hlv) as H9. unfold kMaxSnapshotKeys, kMaxDedupClients in *.
  set (b := state_head nk nc ++ values_bytes lv ++ clients_bytes lc).
  assert (size_of b = 24 + size_of (values_bytes lv) + size_of (clients_bytes lc)) as Hs
    by (unfold b; rewrite !size_of_app; change (size_of (state_head nk nc)) with 24; lia).
  pose proof (size_of_nonneg (clients_bytes lc)).
  rewrite (proj2 (Nat.ltb_ge _ _)) by (unfold kLegacyStateHeaderSize; unfold size_of in *; lia).
  change (read_u32 (subspan 0 4 b)) with kStateMagic.
  change (read_u16 (subspan 4 2 b)) with 2. change (read_u16 (subspan 6 2 b)) with 24.
  change (subspan 8 8 b) with (write_u64 nk ++ []). change (subspan 16 8 b) with (write_u64 nc ++ []).
  rewrite !read_write_u64 by (unfold is_u64; lia). cbv zeta. rewrite Z.eqb_refl.
  change (2 =? kLegacyStateFormatVersion) with false. change (2 =? kStateFormatVersion) with true.
  change (24 =? Z.of_nat kStateHeaderSize) with true. cbn [negb orb andb].
  rewrite (proj2 (Z.ltb_ge (size_of b) 24)) by lia.
  unfold kMaxSnapshotKeys, kMaxDedupClients. rewrite (proj2 (Z.ltb_ge _ nk)), (proj2 (Z.ltb_ge _ nc)) by lia.
  change (Z.of_nat (kEntryHeaderSize + 1)) with 9.
  rewrite (proj2 (Z.ltb_ge _ nk)) by (apply Z.div_le_lower_bound; lia). cbn [orb].
  change (Z.to_nat 24) with (length (state_head nk nc)).
  assert (Z.to_nat nk = length lv) as -> by (rewrite Enk; unfold size_of; lia).
  assert (Z.to_nat nc = length lc) as -> by (rewrite Enc; unfold size_of; lia).
  unfold b. rewrite read_values_bytes; [|done|apply sorted_chain, in_order_strict].
  rewrite (assoc_L (++)), read_clients_bytes; [|done|apply sorted_chain, in_order_strict|done|].
  2:{ unfold lc. rewrite in_order_perm. exact Hb. }
  rewrite Nat.eqb_refl. cbn [negb]. rewrite !emplace_all, !(left_id_L ∅ (∪)). unfold lv, lc.
  rewrite !list_to_map_in_order. by destruct s.
Qed.

Lemma emplaced_empty {A} (l : list (list byte * A)) : emplaced l ∅ = list_to_map l.
Proof. by rewrite emplace_all, (left_id_L ∅ (∪)). Qed.

Lemma Forall_list_to_map {A} (P : list byte -> A -> Prop) (l : list (list byte * A)) :
  StronglySorted before l -> Forall (fun p => P p.1 p.2) l ->
  map_Forall P (list_to_map l : gmap (list byte) A).
Proof.
  intros Hs Hf. apply map_Forall_to_list.
  rewrite map_to_list_to_map by by apply StronglySorted_before_NoDup.
  eapply Forall_impl; [exact Hf|]. by intros [k v].
Qed.

Lemma cut_u16 bs off :
  (off + 2 <= length bs)%nat -> drop off bs = write_u16 (read_u16 (subspan off 2 bs)) ++ drop (off + 2) bs.
Proof. intros H. rewrite write_read_u16 by by apply length_subspan. apply cut_span. Qed.

(** What the decoder accepts: the layout of the state it returns, or the same
    under the legacy header. *)
Lemma decode_snapshot_sound input s :
  dr_value (decode_snapshot_state input) = Some s ->
  state_ok kMaxDedupClients kMaxDedupBytes s /\ map_size (ss_values s) <= kMaxSnapshotKeys /\
  (input = snapshot_bytes s \/
   (ss_clients s = ∅ /\ input = take 8 input ++ write_u64 (map_size (ss_values s)) ++
      values_bytes (in_order (ss_values s)) /\ read_u16 (subspan 4 2 input) = kLegacyStateFormatVersion)).
Proof.
  unfold decode_snapshot_state, kLegacyStateHeaderSize. destruct (_ || _) eqn:Eh; [done|]. cbv zeta.
  rewrite orb_false_iff, Nat.ltb_ge, negb_false_iff, Z.eqb_eq in Eh. destruct Eh as [Hl Hmagic].
  set (version := read_u16 (subspan 4 2 input)). set (hs := read_u16 (subspan 6 2 input)).
  destruct (_ || _ || _ || _) eqn:Ev; [done|]. rewrite !orb_false_iff, Z.ltb_ge in Ev.
  destruct Ev as (((Ev1 & Ev2) & Ev3) & Ev4).
  set (nk := read_u64 (subspan 8 8 input)).
  set (nc := if version =? kStateFormatVersion then read_u64 (subspan 16 8 input) else 0).
  destruct (_ || _) eqn:Ec; [done|]. rewrite !orb_false_iff, !Z.ltb_ge in Ec. destruct Ec as ((Hnk & Hnc) & _).
  destruct (read_values _ _ _ _ _) as [|[values o1]] eqn:E1; [done|].
  destruct (read_clients _ _ _ _ _ _) as [|[clients o2]] eqn:E2; [done|].
  destruct (Nat.eqb_spec o2 (length input)) as [->|]; [|done]. cbn [negb]. intros [= <-].
  assert (is_u16 hs) as Hh by (apply Z.mod_pos_bound; lia). unfold is_u16, size_of in *.
  assert (is_u64 nk) as Hnku by (apply read_u64_range, length_subspan; lia). unfold is_u64 in Hnku.
  apply read_values_sound in E1 as (lv & Hlv & Hdv & Hfv & Hcv & -> & Ho1); [|lia].
  apply read_clients_sound in E2 as (lc & Hlc & Hdc & Hfc & Hcc & -> & Ht & _);
    [|lia|unfold kMaxDedupBytes; lia].
  apply chain_sorted in Hcv, Hcc. rewrite !emplaced_empty. cbn [ss_values ss_clients].
  assert (map_size (list_to_map (M := gmap (list byte) (list byte)) lv) = nk) as Hsv
    by (rewrite map_size_in_order, in_order_to_map by done; unfold size_of; rewrite Hlv; lia).
  assert (0 <= nc) as Hnc0.
  { unfold nc. destruct (version =? kStateFormatVersion); [|done].
    rewrite andb_true_l, negb_false_iff, Z.eqb_eq in Ev2. unfold kStateHeaderSize in Ev2.
    apply read_u64_range, length_subspan. lia. }
  assert (map_size (list_to_map (M := gmap (list byte) DedupRecord) lc) = nc) as Hsc
    by (rewrite map_size_in_order, in_order_to_map by done; unfold size_of; rewrite Hlc; lia).
  rewrite (drop_ge input (length input)), app_nil_r in Hdc by done. rewrite Hdc in Hdv.
  split; [|split; [by rewrite Hsv|]].
  - split; cbn [ss_values ss_clients]; [by apply Forall_list_to_map..|by rewrite Hsc|].
    unfold dedup_total. rewrite map_to_list_to_map by by apply StronglySorted_before_NoDup. lia.
  - unfold snapshot_bytes. cbn [ss_values ss_clients]. rewrite !in_order_to_map, Hsv, Hsc by done.
    destruct (Z.eqb_spec version kStateFormatVersion) as [Ever|Ever]; cbn [andb] in Ev2.
    + left. rewrite negb_false_iff, Z.eqb_eq in Ev2. unfold kStateHeaderSize in Ev2.
      rewrite Ev2 in Hdv. change (Z.to_nat (Z.of_nat 24)) with 24%nat in Hdv. rewrite <- Hdv.
      unfold state_head, kStateHeaderSize. rewrite <- Hmagic, <- Ever, <- Ev2, <- !(assoc_L (++)).
      rewrite <- (drop_0 input) at 1. rewrite (cut_u32 input 0) by lia. f_equal.
      rewrite (cut_u16 input) by lia. f_equal. rewrite (cut_u16 input) by lia. f_equal.
      rewrite (cut_u64 input) by lia. f_equal. by rewrite (cut_u64 input) by lia.
    + right. cbn [negb] in Ev3. rewrite andb_true_r, negb_false_iff, Z.eqb_eq in Ev3.
      rewrite (proj2 (Z.eqb_eq _ _) Ev3), andb_true_l, negb_false_iff, Z.eqb_eq in Ev1.
      assert (lc = []) as -> by by destruct lc. split; [done|]. split; [|done].
      rewrite Ev1 in Hdv. change (Z.to_nat (Z.of_nat 16)) with 16%nat in Hdv.
      change (clients_bytes []) with (@nil byte) in Hdv. rewrite app_nil_r in Hdv. rewrite <- Hdv.
      change 16%nat with (8 + 8)%nat. unfold nk. by rewrite <- (cut_u64 input 8), take_drop by lia.
Qed.

End SnapshotCodec.
