(* ===== verification/ClusterTheorems.v ===== *)
(** * What the codecs and the replicated state machine promise

    Peer messages and commands over the wire, the effect of committed commands,
    and snapshots of the state machine. *)

From S2P Require Import Prelude Wire Checksum Protocol RaftTypes RaftFormat ClusterCodecs StateMachine SnapshotCodec.
Import ClusterCodecs StateMachine SnapshotCodec.

(** ** Peer frames *)

Lemma encoded_frame_valid env rid :
  fits env -> validate (peer_frame env rid) = none.
Proof.
  intros Hf. unfold validate. cbn [peer_frame message_namespace message_type flags payload].
  assert ((kMaxPayloadSize <? size_of (peer_bytes env)) = false) as -> by (apply Z.ltb_ge, Hf).
  by destruct (pe_message env).
Qed.

Lemma encode_throws env rid e : encode_peer_frame env rid = Throw e -> e = invalid_argument.
Proof.
  unfold encode_peer_frame. destruct (_ || _); [congruence|].
  assert (forall es n e, append_entries_size es n = Throw e -> e = invalid_argument) as Ha.
  { induction es as [|x es IH]; intros n e' E; cbn in E; [done|]. destruct (_ || _); [congruence|by eapply IH]. }
  destruct (peer_payload_size _) as [n|e'] eqn:En.
  - destruct (_ <? _); [congruence|]. destruct (pe_message env); try done. cbn.
    destruct (_ <? _); congruence.
  - intros [= <-]. destruct (pe_message env); cbn in En; try done; destruct (_ || _); try congruence.
    by eapply Ha.
Qed.

(** Peer messages, encoded, serialized and sent over a connection that cuts the
    byte stream into chunks of any size, are received and decoded as exactly the
    messages that were sent, each with its envelope. *)
Theorem peer_messages_cross_the_wire (sent : list (PeerEnvelope * Z)) frames chunks :
  Forall (fun p => machine_envelope p.1 /\ is_u64 p.2) sent ->
  Forall2 (fun p f => encode_peer_frame p.1 p.2 = Ok f) sent frames ->
  concat chunks = concat (map (fun f => sr_bytes (serialize f)) frames) ->
  exists p', consume_all Parser_default chunks = Some (p', {| pb_frames := frames; pb_error := none |}) /\
    map decode_peer_frame frames = map (fun p => decoded p.1) sent /\ map request_id frames = map snd sent.
Proof.
  intros Hs He Hc.
  assert (Forall (fun f => validate f = none /\ is_u64 (request_id f)) frames /\
    map decode_peer_frame frames = map (fun p => decoded p.1) sent /\ map request_id frames = map snd sent)
    as (Hv & Hd & Hr).
  { clear Hc. induction He as [|[env rid] f sent frames E He IH]; [by split_and!|].
    apply Forall_cons in Hs as [[Hm Hrid] Hs]. destruct (IH Hs) as (Hv & Hd & Hr). cbn [fst snd] in *.
    destruct (encoded_on_wire _ _ _ Hm E) as [Hw ->].
    pose proof (encode_peer_frame_inv _ _ _ E) as (_ & Hfit & _).
    split_and!; cbn [map fst snd]; [constructor; [|done]; split; [by apply encoded_frame_valid|done]| |by rewrite Hr].
    by rewrite decode_peer_bytes, Hd. }
  destruct (consume_all_frames frames chunks Hv Hc) as (p' & E & _). by exists p'.
Qed.

(** A frame that the decoder accepts is the one encoding of the envelope it
    returns: encoding that envelope gives the frame back, unless the message
    carries a zero identifier, which the decoder lets pass and the encoder
    refuses. *)
Theorem accepted_peer_frames_are_encodings f env :
  validate f = none -> dr_value (decode_peer_frame f) = Some env ->
  encode_peer_frame env (request_id f) =
    if decide (identified (pe_message env)) then Ok f else Throw invalid_argument.
Proof.
  intros Hv Hd. apply decode_peer_frame_sound in Hd as (Hw & Hns & Hty & Hp).
  assert (f = peer_frame env (request_id f)) as Ef.
  { assert (flags f = Byte.x00) as Hfl.
    { unfold validate in Hv. destruct (negb (is_valid_namespace _)); [done|].
      destruct (negb (is_valid_message_type _)); [done|].
      destruct (negb (message_type_matches_namespace _ _)); [done|].
      destruct (Byte.eqb (flags f) Byte.x00) eqn:E; [|done]. by apply Byte.byte_dec_bl in E. }
    unfold peer_frame. rewrite <- Hns, <- Hty, <- Hp, <- Hfl. by destruct f. }
  assert (fits env) as Hfit.
  { unfold fits. rewrite <- Hp. apply (validate_size f Hv). }
  destruct (decide _) as [Hid|Hid]; [by rewrite encode_peer_frame_ok, <- Ef|].
  destruct (encode_peer_frame env (request_id f)) as [g|e] eqn:E.
  - by apply encode_peer_frame_inv in E as (? & _).
  - f_equal. by eapply encode_throws.
Qed.

(** ** Commands *)

(** Commands and their encodings correspond one to one: a command encodes to
    the bytes that decode to it, and no other bytes decode to it. *)
Theorem command_codec_is_bijective c bytes :
  machine_command c ->
  encode_replicated_command c = Ok bytes <-> decode_replicated_command bytes = decoded c.
Proof.
  intros Hm. split.
  - intros E. destruct (encode_command_inv c bytes Hm E) as [Hv ->]. by apply decode_command_bytes.
  - intros E. destruct (decode_command_sound bytes c) as [Hv ->]; [by rewrite E|]. by apply encode_command_ok.
Qed.

(** A mutation that is accepted from a client can always be replicated: it
    encodes to a command that fits a log entry, that every node decodes to the
    same mutation, and that carries the request number of the frame. *)
Theorem accepted_mutations_can_be_replicated f c :
  is_u64 (request_id f) -> dr_value (decode_client_mutation f) = Some c ->
  exists bytes, encode_replicated_command c = Ok bytes /\
    decode_replicated_command bytes = decoded c /\
    0 < size_of bytes <= RaftFormat.kMaxRaftCommandSize /\ rc_request_id c = request_id f.
Proof.
  intros Hu E. pose proof (client_mutation_valid f c Hu E) as Hv. exists (command_bytes c).
  split_and!; [by apply encode_command_ok|by apply decode_command_bytes| | |].
  - pose proof (command_bytes_bound c Hv). unfold kCommandHeaderSize in *. lia.
  - apply (command_bytes_bound c Hv).
  - revert E. unfold decode_client_mutation. destruct (_ || _); [done|]. cbv zeta.
    destruct (_ && _); [done|]. destruct (_ || _ || _); [done|]. by intros [= <-].
Qed.

(** ** The state machine *)

(** C12. Committed commands, retried and reordered in any way, take effect at most
    once each: the machine answers all of them, its values are those of the
    performed commands in order, a command is performed only when it is newer
    than every performed command of its client, a repeated command is answered
    as the first time, and the others are refused without effect. *)
Theorem each_command_takes_effect_once max_clients max_bytes m0 cs :
  0 <= max_clients -> 0 <= max_bytes -> make max_clients max_bytes = Ok m0 -> Forall valid_command cs ->
  exists m rs, apply_commands (map command_bytes cs) m0 = (m, Ok rs) /\ length rs = length cs /\
    values_ m = values_after (zip cs rs) /\
    (forall pre c r post, zip cs rs = pre ++ (c, r) :: post -> verdict pre c r) /\
    client_count m <= max_clients /\ dedup_bytes_ m = dedup_total (clients_ m) /\ dedup_bytes_ m <= max_bytes.
Proof.
  intros Hc Hb Hm Hcs. pose proof (make_Tracks _ _ _ Hc Hb Hm) as Ht.
  assert (max_clients_ m0 = max_clients /\ max_dedup_bytes_ m0 = max_bytes) as [Hmc Hmb].
  { unfold make in Hm. destruct (_ || _); [done|]. by injection Hm as <-. }
  destruct (apply_commands_spec cs m0 [] Ht Hcs) as (m & rs & E & Hlen & Ht' & Hv). exists m, rs.
  destruct (apply_commands_limits _ _ _ _ E) as [Em Eb].
  destruct (tr_inv _ _ Ht') as [_ _ Hs Htot]. split_and!; try done.
  - exact (tr_values _ _ Ht').
  - rewrite <- Hmc, <- Em. apply (so_count _ _ _ Hs).
  - rewrite <- Hmb, <- Eb, Htot. apply (so_bytes _ _ _ Hs).
Qed.

(** ** Snapshots *)

(** The encoding of a state is canonical: it is the one byte string of the
    current version, within the size limit, that decodes to the state.  In
    particular it does not depend on the order in which the hash tables are
    traversed. *)
Theorem snapshot_encoding_is_canonical `{UnorderedMap} s bytes :
  encode_snapshot_state s = Ok bytes <->
  decode_snapshot_state bytes = decoded s /\ read_u16 (subspan 4 2 bytes) = kStateFormatVersion /\
  size_of bytes <= RaftFormat.kMaxSnapshotPayloadSize.
Proof.
  split.
  - intros E. apply encode_snapshot_inv in E as [He ->]. split_and!; [by apply decode_snapshot_bytes| |apply He].
    done.
  - intros (E & Hver & Hsz). destruct (decode_snapshot_sound bytes s) as (Hok & Hk & [->|(_ & _ & Hleg)]).
    + by rewrite E.
    + by apply encode_snapshot_ok.
    + rewrite Hver in Hleg. done.
Qed.

(** C20. A snapshot of a machine, written by one process and read by another, gives
    the machine back: after any commands, the bytes decode, a machine with the
    same limits accepts the state, and it becomes the machine the snapshot was
    taken from. *)
Theorem snapshot_restores_the_machine (writer reader : UnorderedMap) max_clients max_bytes m0 cs m rs bytes m1 :
  0 <= max_clients -> 0 <= max_bytes -> make max_clients max_bytes = Ok m0 -> Forall valid_command cs ->
  apply_commands (map command_bytes cs) m0 = (m, Ok rs) ->
  encode_snapshot_state (H := writer) (snapshot m) = Ok bytes ->
  Inv m1 -> same_limits m0 m1 ->
  exists s, decode_snapshot_state bytes = decoded s /\ restore (H := reader) s m1 = (m, Ok tt).
Proof.
  intros Hc Hb Hm Hcs E Ee Hi [L1 L2]. pose proof (make_Tracks _ _ _ Hc Hb Hm) as Ht.
  destruct (apply_commands_spec cs m0 [] Ht Hcs) as (m' & rs' & E' & _ & Ht' & _).
  rewrite E in E'. injection E' as <- _. destruct (apply_commands_limits _ _ _ _ E) as [M1 M2].
  pose proof (tr_inv _ _ Ht') as Him. apply encode_snapshot_inv in Ee as [He ->].
  exists (snapshot m). split; [by apply decode_snapshot_bytes|].
  pose proof (inv_state _ Him) as Hs. rewrite M1, M2, <- L1, <- L2 in Hs.
  destruct (restore_ok m1 (snapshot m) Hi Hs) as (m2 & -> & Hi2 & Hs2 & N1 & N2).
  rewrite (Inv_snapshot_inj m2 m); [done|done|done|congruence|congruence|done].
Qed.

(** ** A machine that cannot be snapshotted *)

(** The state machine limits the retained requests and not the keys, while the
    encoder limits both. *)
Lemma too_many_keys `{UnorderedMap} s :
  kMaxSnapshotKeys < map_size (ss_values s) -> encode_snapshot_state s = Throw invalid_argument.
Proof.
  intros Hk. unfold encode_snapshot_state. by rewrite (proj2 (Z.ltb_lt _ _) Hk).
Qed.

(** The [i]-th of many PUTs of one client: a new key each time, with an empty
    value. *)
Definition put_key (i : nat) : ReplicatedCommand :=
  {| rc_operation := put; rc_client_id := zero_bytes 16; rc_request_id := Z.of_nat i + 1;
     rc_key := write_u32 (Z.of_nat i); rc_value := [] |}.

Lemma put_key_valid i : (Z.of_nat i <= kMaxSnapshotKeys) -> valid_command (put_key i).
Proof.
  unfold kMaxSnapshotKeys. intros Hi. split; cbn [put_key rc_request_id rc_key rc_value rc_operation]; try done.
  - split; [done|]. unfold is_u64. cbn. lia.
  - lia.
Qed.

(** The machine after the first [n] of them. *)
Record holds_keys (n : nat) (m : ReplicatedStateMachine) : Prop := {
  hk_inv : Inv m;
  hk_limits : max_clients_ m = kMaxDedupClients /\ max_dedup_bytes_ m = kMaxDedupBytes;
  hk_values : size (values_ m) = n;
  hk_fresh : forall i, (n <= i)%nat -> Z.of_nat i <= kMaxSnapshotKeys -> values_ m !! write_u32 (Z.of_nat i) = None;
  hk_clients : clients_ m = match n with O => ∅ | S k => {[zero_bytes 16 := record_of (put_key k) []]} end
}.

Lemma put_next_key n m :
  holds_keys n m -> Z.of_nat n <= kMaxSnapshotKeys ->
  exists m' r, apply_command (command_bytes (put_key n)) m = (m', Ok r) /\ ar_status r = applied /\
    holds_keys (S n) m'.
Proof.
  intros [Hi [L1 L2] Hv Hf Hc] Hn. pose proof (put_key_valid n Hn) as Hval.
  assert (forall i, (i <= n)%nat -> record_bytes (record_of (put_key i) []) = 44) as Hrb by done.
  destruct (apply_spec m (put_key n) Hi Hval) as (m' & r & E & Hi' & Ho). exists m', r.
  unfold apply_command. rewrite decode_command_bytes by done. split; [done|].
  pose proof (apply_limits (put_key n) (command_bytes (put_key n)) m) as [N1 N2]. rewrite E in N1, N2. cbn in N1, N2.
  assert (ar_status r = applied) as Ha.
  { revert E. unfold apply. rewrite encodes_to_valid, bool_decide_true by done. unfold bind, get at 1.
    pose proof (inv_total _ Hi) as Htot. rewrite Hc in *. change (rc_client_id (put_key n)) with (zero_bytes 16).
    assert (dedup_bytes_ m = match n with O => 0 | S _ => 44 end) as Hd.
    { rewrite Htot. destruct n as [|k]; [done|]. unfold dedup_total. by rewrite map_to_list_singleton. }
    destruct n as [|k].
    - rewrite lookup_empty, L1. unfold map_size. rewrite map_size_empty. change (_ <=? _) with false.
      unfold apply_new, bind, get, modify, ret. cbv beta iota zeta. rewrite Hd, L2. intros [= _ <-]. done.
    - rewrite lookup_singleton_eq. cbn [d_request_id record_of put_key rc_request_id].
      rewrite (proj2 (Z.ltb_ge _ _)), (proj2 (Z.eqb_neq _ _)) by lia.
      unfold apply_new, bind, get, modify, ret. cbv beta iota zeta. rewrite Hd, L2. intros [= _ <-]. done. }
  split; [done|]. unfold apply_outcome in Ho. rewrite Ha in Ho. destruct Ho as (_ & Hresp & Hv' & Hc').
  cbn [effect put_key rc_operation rc_key rc_value] in Hv'.
  split; [done|split; congruence| | |].
  - rewrite Hv'. unfold effect. cbn [put_key rc_operation rc_key rc_value].
    rewrite map_size_insert_None by by apply Hf. by rewrite Hv.
  - intros i Hin Hmax. rewrite Hv'. unfold effect. cbn [put_key rc_operation rc_key rc_value].
    rewrite lookup_insert_ne; [apply Hf; [lia|done]|]. intros Heq. unfold kMaxSnapshotKeys in *.
    apply (f_equal (fun b => read_u32 (b ++ []))) in Heq.
    rewrite !read_write_u32 in Heq by (unfold is_u32; lia). lia.
  - rewrite Hc', Hc, Hresp. change (rc_client_id (put_key n)) with (zero_bytes 16).
    destruct n; [by rewrite insert_empty|by rewrite insert_singleton_eq].
Qed.

Lemma put_keys n k m :
  holds_keys k m -> Z.of_nat (k + n) <= kMaxSnapshotKeys + 1 ->
  exists m' rs, apply_commands (map command_bytes (map put_key (seq k n))) m = (m', Ok rs) /\
    Forall (fun r => ar_status r = applied) rs /\ holds_keys (k + n) m'.
Proof.
  revert k m. induction n as [|n IH]; intros k m Hk Hle; cbn [seq map apply_commands].
  { exists m, []. rewrite Nat.add_0_r. by split_and!. }
  destruct (put_next_key k m Hk ltac:(lia)) as (m1 & r & E & Ha & Hk1).
  destruct (IH (S k) m1 Hk1 ltac:(lia)) as (m2 & rs & E2 & Hrs & Hk2). exists m2, (r :: rs).
  unfold bind. rewrite E, E2. rewrite Nat.add_succ_r. split_and!; [done|by constructor|done].
Qed.

(** C34. The state machine performs commands it cannot snapshot afterwards: a client
    that puts one key more than the encoder admits is served every time, and
    then encoding the state throws, whatever its size in bytes. *)
Theorem performed_state_cannot_be_snapshotted `{UnorderedMap} :
  exists cs m0 m rs, make kMaxDedupClients kMaxDedupBytes = Ok m0 /\ Forall valid_command cs /\
    apply_commands (map command_bytes cs) m0 = (m, Ok rs) /\ Forall (fun r => ar_status r = applied) rs /\
    encode_snapshot_state (snapshot m) = Throw invalid_argument.
Proof.
  assert (exists n, Z.of_nat n = kMaxSnapshotKeys + 1) as [n Hn]
    by (exists (Z.to_nat (kMaxSnapshotKeys + 1)); apply Z2Nat.id; done).
  set (m0 := {| max_clients_ := kMaxDedupClients; max_dedup_bytes_ := kMaxDedupBytes; dedup_bytes_ := 0;
                values_ := ∅; clients_ := ∅ |}).
  assert (holds_keys 0 m0) as H0.
  { split; [|done|apply map_size_empty|intros; apply lookup_empty|done].
    apply (tr_inv m0 []), (make_Tracks kMaxDedupClients kMaxDedupBytes); done. }
  destruct (put_keys n 0 m0 H0) as (m & rs & E & Hrs & Hk); [cbn [Nat.add]; lia|].
  exists (map put_key (seq 0 n)), m0, m, rs. split_and!; [done| |done|done|].
  - apply Forall_map, Forall_forall. intros i Hi%elem_of_seq. apply put_key_valid. lia.
  - apply too_many_keys. unfold map_size. cbn [snapshot ss_values]. rewrite (hk_values _ _ Hk).
    cbn [Nat.add]. lia.
Qed.
