(* ===== verification/ClusterNode.v ===== *)
(** * The owner thread of a cluster node

    [ClusterNode::Impl] of [src/cluster/node.cpp]: the thread that owns the Raft
    node and the state machine.  It takes client and peer work from a queue, runs
    the Raft node, and handles the actions the node publishes: messages, role
    changes, committed entries and snapshots.

    A [std::promise] of a client is a number; [answers] lists what the promises
    were set to, in order, and setting one twice throws.  [Env] is what other
    threads and the machine decide: the clock, the reads the clients have given
    up, whether a write to the Raft store fails, and how far the snapshot worker
    has come. *)

From S2P Require Import Prelude Wire Protocol RaftTypes RaftFormat RaftNode RaftSafety.
From S2P Require Import Fs PersistedSafety ClusterCodecs StateMachine SnapshotCodec.

Module ClusterNode.
Import ClusterCodecs StateMachine SnapshotCodec.

(** ** Client results and response frames *)

Inductive ClientStatus : Set :=
| cs_ok
| cs_not_found
| cs_redirect
| cs_retry
| cs_failed
| cs_request_id_reuse
| cs_stale_request
| cs_capacity_exceeded.

Record ClientResult : Set := {
  cr_status : ClientStatus;
  cr_value : list byte;
  cr_leader_endpoint : list byte
}.

#[export] Instance ClientStatus_eq_dec : EqDecision ClientStatus.
Proof. solve_decision. Defined.
#[export] Instance ClientResult_eq_dec : EqDecision ClientResult.
Proof. solve_decision. Defined.

Definition status_result (status : ClientStatus) : ClientResult :=
  {| cr_status := status; cr_value := []; cr_leader_endpoint := [] |}.

(** The characters of a text. *)
Definition text (s : string) : list byte := String.list_byte_of_string s.

Definition client_response (request : Frame) (type : MessageType) (payload : list byte) : Frame :=
  {| message_namespace := Namespace_client; message_type := type; flags := Byte.x00;
     request_id := request_id request; payload := payload |}.

Definition error_response (request : Frame) (code : Z) (message : list byte) : Frame :=
  let bounded := take 512 message in
  let payload := zero_bytes (4 + length bounded) in
  let payload := write_at 0 (write_u16 code) payload in
  let payload := write_at 2 (write_u16 (u16 (size_of bounded))) payload in
  client_response request MessageType_error (write_at 4 bounded payload).

Definition busy_response (request : Frame) : Frame :=
  client_response request MessageType_busy (zero_bytes 4).

Definition redirect_response (request : Frame) (endpoint : list byte) : Frame :=
  if 65535 <? size_of endpoint then busy_response request
  else
    let payload := zero_bytes (2 + length endpoint) in
    let payload := write_at 0 (write_u16 (u16 (size_of endpoint))) payload in
    client_response request MessageType_redirect (write_at 2 endpoint payload).

Definition result_frame (request : Frame) (result : ClientResult) : Frame :=
  match cr_status result with
  | cs_ok => client_response request MessageType_ok (cr_value result)
  | cs_not_found => client_response request MessageType_not_found []
  | cs_redirect =>
      if bool_decide (cr_leader_endpoint result = []) then busy_response request
      else redirect_response request (cr_leader_endpoint result)
  | cs_retry => busy_response request
  | cs_failed => error_response request 2 (text "replicated operation failed")
  | cs_request_id_reuse => error_response request 3 (text "request ID reused with different command")
  | cs_stale_request => error_response request 4 (text "stale request ID")
  | cs_capacity_exceeded => error_response request 5 (text "deduplication retention capacity reached")
  end.

(** ** Configuration *)

Record PeerAddress : Set := {
  pa_node_id : NodeId;
  pa_host : list byte;
  pa_peer_port : Z;
  pa_client_port : Z
}.

(** [std::to_string] of a port. *)
Fixpoint decimal (fuel : nat) (n : Z) (digits : list byte) : list byte :=
  match fuel with
  | O => digits
  | S fuel' =>
      let digits := byte_of_Z (48 + n mod 10) :: digits in
      if n <? 10 then digits else decimal fuel' (n / 10) digits
  end.
Definition to_string (n : Z) : list byte := decimal 20 n [].

Definition format_endpoint (host : list byte) (port : Z) : list byte :=
  if bool_decide (Byte.x3a ∈ host) then text "[" ++ host ++ text "]:" ++ to_string port
  else host ++ text ":" ++ to_string port.

(** The options the owner thread reads. *)
Record ClusterNodeConfig := {
  c_cluster_id : Z;
  c_node_id : NodeId;
  c_peers : list PeerAddress;
  c_raft_queue_capacity : Z;
  c_max_pending_reads : Z;
  c_snapshot_threshold : Z;
  c_client_timeout_ms : Z
}.

Definition leader_endpoint (config : ClusterNodeConfig) (leader : option NodeId) : list byte :=
  match leader with
  | None => []
  | Some l =>
      match list_find (fun value => pa_node_id value = l) (c_peers config) with
      | None => []
      | Some (_, peer) => format_endpoint (pa_host peer) (pa_client_port peer)
      end
  end.

(** ** State *)

Inductive Work :=
| Proposal (command : ReplicatedCommand) (completion : nat)
| Read (key : list byte) (completion : nat) (deadline : Z)
| PeerRequest (envelope : PeerEnvelope) (completion : nat)
| PeerResponse (from : NodeId) (message : Message).

Record PendingMutation : Set := {
  pm_command : list byte;
  pm_completion : nat
}.

(** The cancellation flag of a read is that of its client, named by the
    promise. *)
Record PendingRead : Set := {
  pr_key : list byte;
  pr_completion : nat;
  pr_deadline : Z
}.

(** The snapshot being encoded and written by the worker. *)
Record SnapshotJob : Set := {
  j_index : LogIndex;
  j_term : Term;
  j_state : SnapshotState
}.

Inductive JobProgress : Set :=
| job_running
| job_write_failed
| job_written.

(** [clock] is in nanoseconds since the owner started; each reading takes the
    next of [ticks], the time that has passed and the reads given up meanwhile. *)
Record Env : Set := {
  clock : Z;
  ticks : list (Z * list nat);
  canceled : gset nat;
  store_faults : list bool;
  job_progress : list JobProgress
}.

Section Owner.
Context {RNG : UniformRandom}.

Record Owner := {
  node_ : Impl;
  role_ : Role;
  leader_id_ : option NodeId;
  active_peer_from_ : option NodeId;
  active_peer_response_ : option Message;
  active_proposal_index_ : option LogIndex;
  active_read_barrier_index_ : option LogIndex;
  pending_ : gmap LogIndex PendingMutation;
  pending_reads_ : gmap LogIndex (list PendingRead);
  state_machine_ : ReplicatedStateMachine;
  snapshot_future_ : option SnapshotJob;
  last_snapshot_index_ : LogIndex;
  failed_ : bool;
  next_tick : Z;
  answers : list (nat * ClientResult);
  peer_answers : list (nat * option Message);
  sent : list (NodeId * Message);
  env : Env
}.

Definition with_node (v : Impl) (o : Owner) : Owner :=
  {| node_ := v; role_ := role_ o; leader_id_ := leader_id_ o; active_peer_from_ := active_peer_from_
     o; active_peer_response_ := active_peer_response_ o; active_proposal_index_ :=
     active_proposal_index_ o; active_read_barrier_index_ := active_read_barrier_index_ o; pending_ :=
     pending_ o; pending_reads_ := pending_reads_ o; state_machine_ := state_machine_ o; snapshot_future_
     := snapshot_future_ o; last_snapshot_index_ := last_snapshot_index_ o; failed_ := failed_ o;
     next_tick := next_tick o; answers := answers o; peer_answers := peer_answers o; sent := sent o; env
     := env o |}.

Definition with_role (v : Role) (o : Owner) : Owner :=
  {| node_ := node_ o; role_ := v; leader_id_ := leader_id_ o; active_peer_from_ := active_peer_from_
     o; active_peer_response_ := active_peer_response_ o; active_proposal_index_ :=
     active_proposal_index_ o; active_read_barrier_index_ := active_read_barrier_index_ o; pending_ :=
     pending_ o; pending_reads_ := pending_reads_ o; state_machine_ := state_machine_ o; snapshot_future_
     := snapshot_future_ o; last_snapshot_index_ := last_snapshot_index_ o; failed_ := failed_ o;
     next_tick := next_tick o; answers := answers o; peer_answers := peer_answers o; sent := sent o; env
     := env o |}.

Definition with_leader_id (v : option NodeId) (o : Owner) : Owner :=
  {| node_ := node_ o; role_ := role_ o; leader_id_ := v; active_peer_from_ := active_peer_from_ o;
     active_peer_response_ := active_peer_response_ o; active_proposal_index_ := active_proposal_index_
     o; active_read_barrier_index_ := active_read_barrier_index_ o; pending_ := pending_ o;
     pending_reads_ := pending_reads_ o; state_machine_ := state_machine_ o; snapshot_future_ :=
     snapshot_future_ o; last_snapshot_index_ := last_snapshot_index_ o; failed_ := failed_ o; next_tick
     := next_tick o; answers := answers o; peer_answers := peer_answers o; sent := sent o; env := env o
     |}.

Definition with_active_peer_from (v : option NodeId) (o : Owner) : Owner :=
  {| node_ := node_ o; role_ := role_ o; leader_id_ := leader_id_ o; active_peer_from_ := v;
     active_peer_response_ := active_peer_response_ o; active_proposal_index_ := active_proposal_index_
     o; active_read_barrier_index_ := active_read_barrier_index_ o; pending_ := pending_ o;
     pending_reads_ := pending_reads_ o; state_machine_ := state_machine_ o; snapshot_future_ :=
     snapshot_future_ o; last_snapshot_index_ := last_snapshot_index_ o; failed_ := failed_ o; next_tick
     := next_tick o; answers := answers o; peer_answers := peer_answers o; sent := sent o; env := env o
     |}.

Definition with_active_peer_response (v : option Message) (o : Owner) : Owner :=
  {| node_ := node_ o; role_ := role_ o; leader_id_ := leader_id_ o; active_peer_from_ :=
     active_peer_from_ o; active_peer_response_ := v; active_proposal_index_ := active_proposal_index_ o;
     active_read_barrier_index_ := active_read_barrier_index_ o; pending_ := pending_ o; pending_reads_
     := pending_reads_ o; state_machine_ := state_machine_ o; snapshot_future_ := snapshot_future_ o;
     last_snapshot_index_ := last_snapshot_index_ o; failed_ := failed_ o; next_tick := next_tick o;
     answers := answers o; peer_answers := peer_answers o; sent := sent o; env := env o |}.

Definition with_active_proposal_index (v : option LogIndex) (o : Owner) : Owner :=
  {| node_ := node_ o; role_ := role_ o; leader_id_ := leader_id_ o; active_peer_from_ :=
     active_peer_from_ o; active_peer_response_ := active_peer_response_ o; active_proposal_index_ := v;
     active_read_barrier_index_ := active_read_barrier_index_ o; pending_ := pending_ o; pending_reads_
     := pending_reads_ o; state_machine_ := state_machine_ o; snapshot_future_ := snapshot_future_ o;
     last_snapshot_index_ := last_snapshot_index_ o; failed_ := failed_ o; next_tick := next_tick o;
     answers := answers o; peer_answers := peer_answers o; sent := sent o; env := env o |}.

Definition with_active_read_barrier_index (v : option LogIndex) (o : Owner) : Owner :=
  {| node_ := node_ o; role_ := role_ o; leader_id_ := leader_id_ o; active_peer_from_ :=
     active_peer_from_ o; active_peer_response_ := active_peer_response_ o; active_proposal_index_ :=
     active_proposal_index_ o; active_read_barrier_index_ := v; pending_ := pending_ o; pending_reads_ :=
     pending_reads_ o; state_machine_ := state_machine_ o; snapshot_future_ := snapshot_future_ o;
     last_snapshot_index_ := last_snapshot_index_ o; failed_ := failed_ o; next_tick := next_tick o;
     answers := answers o; peer_answers := peer_answers o; sent := sent o; env := env o |}.

Definition with_pending (v : gmap LogIndex PendingMutation) (o : Owner) : Owner :=
  {| node_ := node_ o; role_ := role_ o; leader_id_ := leader_id_ o; active_peer_from_ :=
     active_peer_from_ o; active_peer_response_ := active_peer_response_ o; active_proposal_index_ :=
     active_proposal_index_ o; active_read_barrier_index_ := active_read_barrier_index_ o; pending_ := v;
     pending_reads_ := pending_reads_ o; state_machine_ := state_machine_ o; snapshot_future_ :=
     snapshot_future_ o; last_snapshot_index_ := last_snapshot_index_ o; failed_ := failed_ o; next_tick
     := next_tick o; answers := answers o; peer_answers := peer_answers o; sent := sent o; env := env o
     |}.

Definition with_pending_reads (v : gmap LogIndex (list PendingRead)) (o : Owner) : Owner :=
  {| node_ := node_ o; role_ := role_ o; leader_id_ := leader_id_ o; active_peer_from_ :=
     active_peer_from_ o; active_peer_response_ := active_peer_response_ o; active_proposal_index_ :=
     active_proposal_index_ o; active_read_barrier_index_ := active_read_barrier_index_ o; pending_ :=
     pending_ o; pending_reads_ := v; state_machine_ := state_machine_ o; snapshot_future_ :=
     snapshot_future_ o; last_snapshot_index_ := last_snapshot_index_ o; failed_ := failed_ o; next_tick
     := next_tick o; answers := answers o; peer_answers := peer_answers o; sent := sent o; env := env o
     |}.

Definition with_state_machine (v : ReplicatedStateMachine) (o : Owner) : Owner :=
  {| node_ := node_ o; role_ := role_ o; leader_id_ := leader_id_ o; active_peer_from_ :=
     active_peer_from_ o; active_peer_response_ := active_peer_response_ o; active_proposal_index_ :=
     active_proposal_index_ o; active_read_barrier_index_ := active_read_barrier_index_ o; pending_ :=
     pending_ o; pending_reads_ := pending_reads_ o; state_machine_ := v; snapshot_future_ :=
     snapshot_future_ o; last_snapshot_index_ := last_snapshot_index_ o; failed_ := failed_ o; next_tick
     := next_tick o; answers := answers o; peer_answers := peer_answers o; sent := sent o; env := env o
     |}.

Definition with_snapshot_future (v : option SnapshotJob) (o : Owner) : Owner :=
  {| node_ := node_ o; role_ := role_ o; leader_id_ := leader_id_ o; active_peer_from_ :=
     active_peer_from_ o; active_peer_response_ := active_peer_response_ o; active_proposal_index_ :=
     active_proposal_index_ o; active_read_barrier_index_ := active_read_barrier_index_ o; pending_ :=
     pending_ o; pending_reads_ := pending_reads_ o; state_machine_ := state_machine_ o; snapshot_future_
     := v; last_snapshot_index_ := last_snapshot_index_ o; failed_ := failed_ o; next_tick := next_tick
     o; answers := answers o; peer_answers := peer_answers o; sent := sent o; env := env o |}.

Definition with_last_snapshot_index (v : LogIndex) (o : Owner) : Owner :=
  {| node_ := node_ o; role_ := role_ o; leader_id_ := leader_id_ o; active_peer_from_ :=
     active_peer_from_ o; active_peer_response_ := active_peer_response_ o; active_proposal_index_ :=
     active_proposal_index_ o; active_read_barrier_index_ := active_read_barrier_index_ o; pending_ :=
     pending_ o; pending_reads_ := pending_reads_ o; state_machine_ := state_machine_ o; snapshot_future_
     := snapshot_future_ o; last_snapshot_index_ := v; failed_ := failed_ o; next_tick := next_tick o;
     answers := answers o; peer_answers := peer_answers o; sent := sent o; env := env o |}.

Definition with_failed (v : bool) (o : Owner) : Owner :=
  {| node_ := node_ o; role_ := role_ o; leader_id_ := leader_id_ o; active_peer_from_ :=
     active_peer_from_ o; active_peer_response_ := active_peer_response_ o; active_proposal_index_ :=
     active_proposal_index_ o; active_read_barrier_index_ := active_read_barrier_index_ o; pending_ :=
     pending_ o; pending_reads_ := pending_reads_ o; state_machine_ := state_machine_ o; snapshot_future_
     := snapshot_future_ o; last_snapshot_index_ := last_snapshot_index_ o; failed_ := v; next_tick :=
     next_tick o; answers := answers o; peer_answers := peer_answers o; sent := sent o; env := env o |}.

Definition with_next_tick (v : Z) (o : Owner) : Owner :=
  {| node_ := node_ o; role_ := role_ o; leader_id_ := leader_id_ o; active_peer_from_ :=
     active_peer_from_ o; active_peer_response_ := active_peer_response_ o; active_proposal_index_ :=
     active_proposal_index_ o; active_read_barrier_index_ := active_read_barrier_index_ o; pending_ :=
     pending_ o; pending_reads_ := pending_reads_ o; state_machine_ := state_machine_ o; snapshot_future_
     := snapshot_future_ o; last_snapshot_index_ := last_snapshot_index_ o; failed_ := failed_ o;
     next_tick := v; answers := answers o; peer_answers := peer_answers o; sent := sent o; env := env o
     |}.

Definition with_answers (v : list (nat * ClientResult)) (o : Owner) : Owner :=
  {| node_ := node_ o; role_ := role_ o; leader_id_ := leader_id_ o; active_peer_from_ :=
     active_peer_from_ o; active_peer_response_ := active_peer_response_ o; active_proposal_index_ :=
     active_proposal_index_ o; active_read_barrier_index_ := active_read_barrier_index_ o; pending_ :=
     pending_ o; pending_reads_ := pending_reads_ o; state_machine_ := state_machine_ o; snapshot_future_
     := snapshot_future_ o; last_snapshot_index_ := last_snapshot_index_ o; failed_ := failed_ o;
     next_tick := next_tick o; answers := v; peer_answers := peer_answers o; sent := sent o; env := env o
     |}.

Definition with_peer_answers (v : list (nat * option Message)) (o : Owner) : Owner :=
  {| node_ := node_ o; role_ := role_ o; leader_id_ := leader_id_ o; active_peer_from_ :=
     active_peer_from_ o; active_peer_response_ := active_peer_response_ o; active_proposal_index_ :=
     active_proposal_index_ o; active_read_barrier_index_ := active_read_barrier_index_ o; pending_ :=
     pending_ o; pending_reads_ := pending_reads_ o; state_machine_ := state_machine_ o; snapshot_future_
     := snapshot_future_ o; last_snapshot_index_ := last_snapshot_index_ o; failed_ := failed_ o;
     next_tick := next_tick o; answers := answers o; peer_answers := v; sent := sent o; env := env o |}.

Definition with_sent (v : list (NodeId * Message)) (o : Owner) : Owner :=
  {| node_ := node_ o; role_ := role_ o; leader_id_ := leader_id_ o; active_peer_from_ :=
     active_peer_from_ o; active_peer_response_ := active_peer_response_ o; active_proposal_index_ :=
     active_proposal_index_ o; active_read_barrier_index_ := active_read_barrier_index_ o; pending_ :=
     pending_ o; pending_reads_ := pending_reads_ o; state_machine_ := state_machine_ o; snapshot_future_
     := snapshot_future_ o; last_snapshot_index_ := last_snapshot_index_ o; failed_ := failed_ o;
     next_tick := next_tick o; answers := answers o; peer_answers := peer_answers o; sent := v; env :=
     env o |}.

Definition with_env (v : Env) (o : Owner) : Owner :=
  {| node_ := node_ o; role_ := role_ o; leader_id_ := leader_id_ o; active_peer_from_ :=
     active_peer_from_ o; active_peer_response_ := active_peer_response_ o; active_proposal_index_ :=
     active_proposal_index_ o; active_read_barrier_index_ := active_read_barrier_index_ o; pending_ :=
     pending_ o; pending_reads_ := pending_reads_ o; state_machine_ := state_machine_ o; snapshot_future_
     := snapshot_future_ o; last_snapshot_index_ := last_snapshot_index_ o; failed_ := failed_ o;
     next_tick := next_tick o; answers := answers o; peer_answers := peer_answers o; sent := sent o; env
     := v |}.

Context `{UnorderedMap} (config : ClusterNodeConfig).

(** ** The world outside *)

(** [steady_clock::now()] *)
Definition now : M Owner Z := fun o =>
  match ticks (env o) with
  | [] => (o, Ok (clock (env o)))
  | (elapsed, given_up) :: rest =>
      let clock' := clock (env o) + Z.max 0 elapsed in
      (with_env {| clock := clock'; ticks := rest; canceled := list_to_set given_up ∪ canceled (env o);
                   store_faults := store_faults (env o); job_progress := job_progress (env o) |} o,
       Ok clock')
  end.

(** Whether the Raft store makes the actions of an operation durable. *)
Definition store_write : M Owner unit := fun o =>
  match store_faults (env o) with
  | [] => (o, Ok tt)
  | fault :: rest =>
      (with_env {| clock := clock (env o); ticks := ticks (env o); canceled := canceled (env o);
                   store_faults := rest; job_progress := job_progress (env o) |} o,
       if fault then Throw (raft_storage_error raft_io) else Ok tt)
  end.

Definition poll_job : M Owner JobProgress := fun o =>
  match job_progress (env o) with
  | [] => (o, Ok job_running)
  | progress :: rest =>
      (with_env {| clock := clock (env o); ticks := ticks (env o); canceled := canceled (env o);
                   store_faults := store_faults (env o); job_progress := rest |} o,
       Ok progress)
  end.

(** [completion->set_value(result)]; a promise that was set throws
    [std::future_error], a [std::logic_error]. *)
Definition set_value (completion : nat) (result : ClientResult) : M Owner unit :=
  let* o := get in
  if bool_decide (completion ∈ (answers o).*1) then throw logic_error
  else modify (fun o => with_answers (answers o ++ [(completion, result)]) o).

Definition is_canceled (completion : nat) (o : Owner) : bool :=
  bool_decide (completion ∈ canceled (env o)).

(** ** Waiting clients *)

Definition fail_pending (status : ClientStatus) : M Owner unit :=
  let* o := get in
  for_each (traverse (pending_ o)) (fun p => set_value (pm_completion p.2) (status_result status)) ;;
  modify (with_pending ∅) ;;
  let* o := get in
  for_each (traverse (pending_reads_ o)) (fun p =>
    for_each p.2 (fun read => set_value (pr_completion read) (status_result status))) ;;
  modify (with_pending_reads ∅).

(** [std::erase_if] over the reads of one barrier: those that stay. *)
Fixpoint expire_reads (time : Z) (reads : list PendingRead) : M Owner (list PendingRead) :=
  match reads with
  | [] => ret []
  | read :: rest =>
      let* o := get in
      let expired := is_canceled (pr_completion read) o || (pr_deadline read <=? time) in
      when expired (set_value (pr_completion read) (status_result cs_retry)) ;;
      let* kept := expire_reads time rest in
      ret (if expired then kept else read :: kept)
  end.

Definition expire_pending_reads (time : Z) : M Owner unit :=
  let* o := get in
  for_each (traverse (pending_reads_ o)) (fun p =>
    let* kept := expire_reads time p.2 in
    modify (fun o => with_pending_reads (<[p.1 := kept]> (pending_reads_ o)) o)).

(** ** Snapshots of the state machine *)

Definition maybe_start_snapshot (index : LogIndex) (term : Term) : M Owner unit :=
  let* o := get in
  if bool_decide (is_Some (snapshot_future_ o)) || (index <=? last_snapshot_index_ o) ||
     (index - last_snapshot_index_ o <? c_snapshot_threshold config)
  then ret tt
  else
    modify (with_snapshot_future
      (Some {| j_index := index; j_term := term; j_state := snapshot (state_machine_ o) |})).

(** ** Applying committed entries *)

(** The answers to the reads that waited for a barrier. *)
Fixpoint answer_reads (time : Z) (reads : list PendingRead) : M Owner unit :=
  match reads with
  | [] => ret tt
  | read :: rest =>
      let* o := get in
      set_value (pr_completion read)
        (if is_canceled (pr_completion read) o || (pr_deadline read <=? time) then status_result cs_retry
         else
           match find (state_machine_ o) (pr_key read) with
           | None => status_result cs_not_found
           | Some value => {| cr_status := cs_ok; cr_value := value; cr_leader_endpoint := [] |}
           end) ;;
      answer_reads time rest
  end.

Definition on_machine {A} (m : M ReplicatedStateMachine A) : M Owner A :=
  lift state_machine_ with_state_machine m.

Definition apply_status (status : MutationApplyStatus) : ClientStatus :=
  match status with
  | applied | duplicate => cs_ok
  | request_id_reuse => cs_request_id_reuse
  | stale_request => cs_stale_request
  | capacity_exceeded => cs_capacity_exceeded
  end.

Definition apply_entry (entry : LogEntry) : M Owner unit :=
  match le_kind entry with
  | no_op =>
      let* o := get in
      match pending_reads_ o !! le_index entry with
      | None => ret tt
      | Some reads =>
          let* time := now in
          answer_reads time reads ;;
          modify (fun o => with_pending_reads (delete (le_index entry) (pending_reads_ o)) o)
      end
  | command =>
      let* result := on_machine (apply_command (le_command entry)) in
      let* o := get in
      match pending_ o !! le_index entry with
      | None => ret tt
      | Some pending =>
          set_value (pm_completion pending)
            (if negb (bool_decide (pm_command pending = le_command entry)) then status_result cs_failed
             else {| cr_status := apply_status (ar_status result); cr_value := ar_response result;
                     cr_leader_endpoint := [] |}) ;;
          modify (fun o => with_pending (delete (le_index entry) (pending_ o)) o)
      end
  end.

(** ** Actions of the Raft node *)

Definition is_request_message (message : Message) : bool :=
  match message with
  | MRequestVote _ | MAppendEntries _ | MInstallSnapshot _ => true
  | _ => false
  end.

Definition rejected_result (o : Owner) : ClientResult :=
  {| cr_status := if bool_decide (is_Some (leader_id_ o)) then cs_redirect else cs_retry;
     cr_value := []; cr_leader_endpoint := leader_endpoint config (leader_id_ o) |}.

Definition install_state (image : list byte) : M Owner unit :=
  match dr_value (decode_snapshot_state image) with
  | None => throw runtime_error
  | Some state => on_machine (restore state)
  end.

Definition on_action (action : Action) : M Owner unit :=
  match action with
  | SendMessage to message =>
      let* o := get in
      if negb (is_request_message message) && bool_decide (active_peer_from_ o = Some to)
      then modify (with_active_peer_response (Some message))
      else when (is_request_message message) (modify (fun o => with_sent (sent o ++ [(to, message)]) o))
  | RoleChanged _ to _ leader_id =>
      let* o := get in
      let lost_leadership := bool_decide (role_ o = leader) && negb (bool_decide (to = leader)) in
      modify (fun o => with_leader_id leader_id (with_role to o)) ;;
      when lost_leadership (fail_pending cs_retry)
  | ApplyEntry entry =>
      apply_entry entry ;;
      maybe_start_snapshot (le_index entry) (le_term entry)
  | ApplySnapshot snapshot =>
      install_state (sm_state_machine snapshot) ;;
      modify (with_last_snapshot_index (sm_last_included_index snapshot)) ;;
      fail_pending cs_retry
  | ProposalRejected _ =>
      let* o := get in
      match active_proposal_index_ o, active_read_barrier_index_ o with
      | Some index, _ =>
          match pending_ o !! index with
          | None => ret tt
          | Some pending =>
              set_value (pm_completion pending) (rejected_result o) ;;
              modify (fun o => with_pending (delete index (pending_ o)) o)
          end
      | None, Some index =>
          match pending_reads_ o !! index with
          | None => ret tt
          | Some reads =>
              for_each reads (fun read => set_value (pr_completion read) (rejected_result o)) ;;
              modify (fun o => with_pending_reads (delete index (pending_reads_ o)) o)
          end
      | None, None => ret tt
      end
  | _ => ret tt
  end.

(** An operation of [PersistedRaftNode], with [on_action] as its output sink:
    the actions are made durable before they are published, and no crash hook is
    installed. *)
Definition run_node (op : Op) : M Owner unit :=
  let* actions := lift node_ with_node (perform op) in
  store_write ;;
  for_each (published actions) on_action.

(** ** Work *)

(** The index the next entry will have, as [process] computes it. *)
Definition next_index (s : RaftSnapshot) : LogIndex :=
  match rs_durable_snapshot s with
  | Some d => u64 (sm_last_included_index d + size_of (rs_log s) + 1)
  | None => u64 (size_of (rs_log s) + 1)
  end.

Definition not_leader_result (s : RaftSnapshot) : ClientResult :=
  {| cr_status := if bool_decide (is_Some (rs_leader_id s)) then cs_redirect else cs_retry;
     cr_value := []; cr_leader_endpoint := leader_endpoint config (rs_leader_id s) |}.

Definition emplace_pending {A} (m : gmap LogIndex A) (index : LogIndex) (a : A) : gmap LogIndex A :=
  match m !! index with Some _ => m | None => <[index := a]> m end.

Definition process_proposal (cmd : ReplicatedCommand) (completion : nat) : M Owner unit :=
  let* o := get in
  let snapshot := RaftNode_snapshot (node_ o) in
  if negb (bool_decide (rs_role snapshot = leader)) then set_value completion (not_leader_result snapshot)
  else
    let index := next_index snapshot in
    match encode_replicated_command cmd with
    | Throw e => throw e
    | Ok encoded =>
        modify (fun o => with_active_proposal_index (Some index)
          (with_pending (emplace_pending (pending_ o) index
             {| pm_command := encoded; pm_completion := completion |}) o)) ;;
        run_node (OpPropose encoded) ;;
        modify (with_active_proposal_index None)
    end.

Definition process_read (key : list byte) (completion : nat) (deadline : Z) : M Owner unit :=
  let* time := now in
  let* o := get in
  if is_canceled completion o || (deadline <=? time) then set_value completion (status_result cs_retry)
  else
    let snapshot := RaftNode_snapshot (node_ o) in
    if negb (bool_decide (rs_role snapshot = leader)) then set_value completion (not_leader_result snapshot)
    else if c_max_pending_reads config <=? Z.of_nat (size (pending_reads_ o))
    then set_value completion (status_result cs_retry)
    else
      let index := next_index snapshot in
      modify (fun o => with_active_read_barrier_index (Some index)
        (with_pending_reads (emplace_pending (pending_reads_ o) index
           [{| pr_key := key; pr_completion := completion; pr_deadline := deadline |}]) o)) ;;
      run_node OpReadBarrier ;;
      modify (with_active_read_barrier_index None).

Definition answer_peer (completion : nat) (response : option Message) : M Owner unit :=
  modify (fun o => with_peer_answers (peer_answers o ++ [(completion, response)]) o).

Definition process_peer_request (envelope : PeerEnvelope) (completion : nat) : M Owner unit :=
  modify (fun o => with_active_peer_response None (with_active_peer_from (Some (pe_from envelope)) o)) ;;
  run_node (OpStep (pe_from envelope) (pe_message envelope)) ;;
  modify (with_active_peer_from None) ;;
  let* o := get in
  match active_peer_response_ o with
  | None => answer_peer completion None
  | Some response =>
      answer_peer completion (Some response) ;;
      modify (with_active_peer_response None)
  end.

Definition process (work : Work) : M Owner unit :=
  match work with
  | Proposal cmd completion => process_proposal cmd completion
  | Read key completion deadline => process_read key completion deadline
  | PeerRequest envelope completion => process_peer_request envelope completion
  | PeerResponse from message => run_node (OpStep from message)
  end.

(** The worker encodes the state and writes the snapshot file. *)
Definition job_result (job : SnapshotJob) (progress : JobProgress) : result StateMachineSnapshot :=
  match encode_snapshot_state (j_state job) with
  | Throw e => Throw e
  | Ok bytes =>
      match progress with
      | job_written =>
          Ok {| sm_last_included_index := j_index job; sm_last_included_term := j_term job;
                sm_state_machine := bytes |}
      | _ => Throw (raft_storage_error raft_io)
      end
  end.

Definition base_of_snapshot (s : RaftSnapshot) : LogIndex :=
  match rs_durable_snapshot s with Some d => sm_last_included_index d | None => 0 end.

(** The end of [poll_snapshot_creation], with what the future holds. *)
Definition adopt_snapshot (outcome : result StateMachineSnapshot) : M Owner unit :=
  modify (with_snapshot_future None) ;;
  match outcome with
  | Throw e => throw e
  | Ok completed =>
      let* o := get in
      if sm_last_included_index completed <=? base_of_snapshot (RaftNode_snapshot (node_ o))
      then ret tt
      else
        run_node (OpCompact completed) ;;
        modify (fun o => with_last_snapshot_index (base_of_snapshot (RaftNode_snapshot (node_ o))) o) ;;
        let* o := get in
        let after_compaction := RaftNode_snapshot (node_ o) in
        if last_snapshot_index_ o <? rs_last_applied after_compaction then
          match list_find (fun entry => le_index entry = rs_last_applied after_compaction)
                  (rs_log after_compaction) with
          | None => ret tt
          | Some (_, entry) => maybe_start_snapshot (le_index entry) (le_term entry)
          end
        else ret tt
  end.

Definition poll_snapshot_creation : M Owner unit :=
  let* o := get in
  match snapshot_future_ o with
  | None => ret tt
  | Some job =>
      let* progress := poll_job in
      match progress with
      | job_running => ret tt
      | _ => adopt_snapshot (job_result job progress)
      end
  end.

(** ** The loop *)

Definition tick_interval : Z := 10000000.

(** The timers of a round: Raft's clock every ten milliseconds, and the deadlines
    of the reads. *)
Definition timers : M Owner unit :=
  let* time := now in
  let* o := get in
  when (next_tick o <=? time)
    (run_node (OpAdvanceTime (u64 (time / 1000000))) ;;
     modify (with_next_tick (time + tick_interval))) ;;
  expire_pending_reads time.

(** One round of the loop, on the work taken from the queue. *)
Definition round (work : option Work) : M Owner unit :=
  timers ;;
  match work with None => ret tt | Some w => process w end ;;
  poll_snapshot_creation.

(** The handlers around a round: a round that throws ends the loop. *)
Definition guarded_round (work : option Work) : M Owner bool := fun o =>
  match round work o with
  | (o', Ok _) => (o', Ok true)
  | (o', Throw _) =>
      (fail_pending cs_failed ;; modify (with_failed true) ;; ret false) o'
  end.

(** The end of the thread. *)
Definition leave_loop : M Owner unit := fail_pending cs_retry.

(** [owner_loop] up to the loop: the state machine is restored from the durable
    snapshot. *)
Definition start_owner (node : Impl) (machine : ReplicatedStateMachine) (e : Env) : result Owner :=
  let s := RaftNode_snapshot node in
  let o :=
    {| node_ := node; role_ := follower; leader_id_ := None; active_peer_from_ := None;
       active_peer_response_ := None; active_proposal_index_ := None; active_read_barrier_index_ := None;
       pending_ := ∅; pending_reads_ := ∅; state_machine_ := machine; snapshot_future_ := None;
       last_snapshot_index_ := 0; failed_ := false; next_tick := clock e; answers := [];
       peer_answers := []; sent := []; env := e |} in
  let restored :=
    match rs_durable_snapshot s with
    | None => (o, Ok tt)
    | Some d => install_state (sm_state_machine d) o
    end in
  match restored with
  | (_, Throw e) => Throw e
  | (o', Ok _) =>
      Ok (with_last_snapshot_index (base_of_snapshot s)
           (with_leader_id (rs_leader_id s) (with_role (rs_role s) o')))
  end.

End Owner.

(** ** The queue in front of the owner *)

Record Queue := {
  queue_ : list Work;
  stopping_ : bool
}.

Definition post (config : ClusterNodeConfig) (work : Work) (q : Queue) : Queue * bool :=
  if stopping_ q || (c_raft_queue_capacity config <=? size_of (queue_ q)) then (q, false)
  else ({| queue_ := queue_ q ++ [work]; stopping_ := stopping_ q |}, true).

(** What [stop] does to the queue: the work that was still in it is cancelled. *)
Definition stop (q : Queue) : Queue * list Work := ({| queue_ := []; stopping_ := true |}, queue_ q).

(** The promise a cancelled work sets, if any. *)
Definition cancel (work : Work) : option (nat * ClientResult) :=
  match work with
  | Proposal _ completion | Read _ completion _ => Some (completion, status_result cs_retry)
  | _ => None
  end.

(** ** Requests of clients *)

(** [handle_client_impl] up to [post]: the response, or the work to post. *)
Definition admit_client (config : ClusterNodeConfig) (request : Frame) (completion : nat) (time : Z)
    : Frame + Work :=
  if negb (Byte.eqb (message_namespace request) Namespace_client)
  then inl (error_response request 1 (text "client port requires client namespace"))
  else if Byte.eqb (message_type request) MessageType_ping
  then inl (client_response request MessageType_ok (payload request))
  else if Byte.eqb (message_type request) MessageType_put ||
          Byte.eqb (message_type request) MessageType_delete_key then
    let d := decode_client_mutation request in
    match dr_value d with
    | None => inl (error_response request 1 (text (dr_error d)))
    | Some value => inr (Proposal value completion)
    end
  else if Byte.eqb (message_type request) MessageType_get then
    let d := decode_client_get request in
    match dr_value d with
    | None => inl (error_response request 1 (text (dr_error d)))
    | Some key => inr (Read key completion (time + c_client_timeout_ms config * 1000000))
    end
  else inl (error_response request 1 (text "unsupported client request type")).

(** The response of a request that was posted: the value of the promise, unless
    the queue was full or the client's time is over. *)
Definition answer_client (request : Frame) (outcome : option ClientResult) : Frame :=
  match outcome with
  | None => busy_response request
  | Some result => result_frame request result
  end.

(** The checks of [handle_peer]: the request handed to the owner. *)
Definition admit_peer (config : ClusterNodeConfig) (request : Frame) (completion : nat) : result Work :=
  match dr_value (decode_peer_frame request) with
  | None => Throw invalid_argument
  | Some envelope =>
      let known_source :=
        negb (pe_from envelope =? c_node_id config) &&
        existsb (fun peer => pa_node_id peer =? pe_from envelope) (c_peers config) in
      if negb (pe_cluster_id envelope =? c_cluster_id config) ||
         negb (pe_to envelope =? c_node_id config) || negb known_source ||
         negb (is_request_message (pe_message envelope))
      then Throw invalid_argument
      else Ok (PeerRequest envelope completion)
  end.

(** The frame [handle_peer] answers with. *)
Definition answer_peer_frame (config : ClusterNodeConfig) (request : Frame) (source : NodeId)
    (response : option Message) : result Frame :=
  match response with
  | None => Throw invalid_argument
  | Some message =>
      encode_peer_frame
        {| pe_cluster_id := c_cluster_id config; pe_from := c_node_id config; pe_to := source;
           pe_message := message |} (request_id request)
  end.

End ClusterNode.
