(* ===== verification/ClusterSafety.v ===== *)
(** * Every client is answered once

    The promises the owner thread of [ClusterNode.v] holds: each is either kept
    for a later answer or was set exactly once. *)

From S2P Require Import Prelude Wire Protocol RaftTypes RaftFormat RaftNode RaftInvariant RaftStep RaftHandlers.
From S2P Require Import RaftSafety Fs PersistedSafety ClusterCodecs StateMachine SnapshotCodec ClusterNode.
Import ClusterCodecs StateMachine SnapshotCodec ClusterNode.

Ltac osimpl :=
  cbn [node_ role_ leader_id_ active_peer_from_ active_peer_response_ active_proposal_index_
    active_read_barrier_index_ pending_ pending_reads_ state_machine_ snapshot_future_
    last_snapshot_index_ failed_ next_tick answers peer_answers sent env
    with_node with_role with_leader_id with_active_peer_from with_active_peer_response
    with_active_proposal_index with_active_read_barrier_index with_pending with_pending_reads
    with_state_machine with_snapshot_future with_last_snapshot_index with_failed with_next_tick
    with_answers with_peer_answers with_sent with_env] in *.

Section Safety.
Context {RNG : UniformRandom} `{UnorderedMap} (config : ClusterNodeConfig).

(** ** Promises *)

Definition mutation_promises (m : gmap LogIndex PendingMutation) : list nat :=
  map (fun p => pm_completion p.2) (map_to_list m).
Definition read_promises (m : gmap LogIndex (list PendingRead)) : list nat :=
  concat (map (fun p => map pr_completion p.2) (map_to_list m)).

(** The promises kept for later, and those that were set. *)
Definition waiting (o : Owner) : list nat :=
  mutation_promises (pending_ o) ++ read_promises (pending_reads_ o).
Definition handed (o : Owner) : list nat := (answers o).*1.
Definition ledger (o : Owner) : list nat := waiting o ++ handed o.

Lemma NoDup_skip {A} (l1 l2 l3 : list A) : NoDup (l1 ++ l2 ++ l3) -> NoDup (l1 ++ l3).
Proof. intros Hd. eapply sublist_NoDup; [exact Hd|]. apply sublist_app; [done|]. by apply sublist_inserts_l. Qed.

(** Only the answers have changed, by answers to [ps]. *)
Definition answered (ps : list nat) (o o' : Owner) : Prop :=
  exists a, a.*1 = ps /\ o' = with_answers (answers o ++ a) o.

Lemma answered_nil o : answered [] o o.
Proof. exists []. rewrite app_nil_r. split; [done|]. by destruct o. Qed.

Lemma answered_trans ps qs o1 o2 o3 : answered ps o1 o2 -> answered qs o2 o3 -> answered (ps ++ qs) o1 o3.
Proof.
  intros (a & <- & ->) (b & <- & ->). exists (a ++ b). rewrite fmap_app. osimpl. by rewrite (assoc_L (++)).
Qed.

Lemma answered_handed ps o o' : answered ps o o' -> handed o' = handed o ++ ps.
Proof. intros (a & <- & ->). unfold handed. osimpl. apply fmap_app. Qed.

Lemma set_value_ok p r o : p ∉ handed o -> exists o', set_value p r o = (o', Ok tt) /\ answered [p] o o'.
Proof.
  intros Hp. unfold set_value, bind, get, modify. rewrite bool_decide_false by done.
  eexists. split; [reflexivity|]. by exists [(p, r)].
Qed.

(** A loop that sets one promise per element. *)
Lemma set_each {A} (key : A -> nat) (body : A -> M Owner unit) l o :
  (forall x o, key x ∉ handed o -> exists o', body x o = (o', Ok tt) /\ answered [key x] o o') ->
  NoDup (map key l ++ handed o) ->
  exists o', for_each l body o = (o', Ok tt) /\ answered (map key l) o o'.
Proof.
  intros Hb. revert o. induction l as [|x l IH]; intros o Hd; cbn [for_each map].
  { exists o. split; [done|apply answered_nil]. }
  cbn [map app] in Hd. apply NoDup_cons in Hd as [Hx Hd]. rewrite not_elem_of_app in Hx.
  destruct (Hb x o) as (o1 & E1 & A1); [tauto|]. destruct (IH o1) as (o2 & E2 & A2).
  { rewrite (answered_handed _ _ _ A1), (assoc_L (++)).
    rewrite Permutation_app_comm. apply NoDup_cons. by rewrite not_elem_of_app. }
  exists o2. unfold bind. rewrite E1, E2. split; [done|]. by apply (answered_trans [key x]) with o1.
Qed.

(** A loop over groups of promises. *)
Lemma set_groups {A} (keys : A -> list nat) (body : A -> M Owner unit) l o :
  (forall x o, NoDup (keys x ++ handed o) -> exists o', body x o = (o', Ok tt) /\ answered (keys x) o o') ->
  NoDup (concat (map keys l) ++ handed o) ->
  exists o', for_each l body o = (o', Ok tt) /\ answered (concat (map keys l)) o o'.
Proof.
  intros Hb. revert o. induction l as [|x l IH]; intros o Hd; cbn [for_each map concat].
  { exists o. split; [done|apply answered_nil]. }
  cbn [map concat] in Hd. rewrite <- (assoc_L (++)) in Hd.
  rewrite !NoDup_app in Hd. destruct Hd as (Hx & Hxr & Hl & Hlr & Hh).
  destruct (Hb x o) as (o1 & E1 & A1). { rewrite NoDup_app. split_and!; [done|set_solver|done]. }
  destruct (IH o1) as (o2 & E2 & A2).
  { rewrite (answered_handed _ _ _ A1). rewrite !NoDup_app. split_and!; try done; set_solver. }
  exists o2. unfold bind. rewrite E1, E2. split; [done|]. by eapply answered_trans.
Qed.

(** ** The ledger under changes of the waiting clients *)

Lemma mutation_promises_insert m i p :
  m !! i = None -> mutation_promises (<[i := p]> m) ≡ₚ pm_completion p :: mutation_promises m.
Proof. intros Hi. unfold mutation_promises. by rewrite map_to_list_insert. Qed.

Lemma mutation_promises_delete m i p :
  m !! i = Some p -> mutation_promises m ≡ₚ pm_completion p :: mutation_promises (delete i m).
Proof.
  intros Hi. rewrite <- (insert_delete_id m i p Hi) at 1. apply mutation_promises_insert, lookup_delete_eq.
Qed.

Lemma concat_perm {A} (l k : list (list A)) : l ≡ₚ k -> concat l ≡ₚ concat k.
Proof.
  induction 1 as [| |x y l|]; cbn; [done|by f_equiv|by rewrite !(assoc_L (++)), (Permutation_app_comm x)|].
  by etransitivity.
Qed.

Lemma read_promises_insert m i rs :
  m !! i = None -> read_promises (<[i := rs]> m) ≡ₚ map pr_completion rs ++ read_promises m.
Proof.
  intros Hi. unfold read_promises. apply (concat_perm _ (map pr_completion rs :: _)).
  by rewrite map_to_list_insert.
Qed.

Lemma read_promises_delete m i rs :
  m !! i = Some rs -> read_promises m ≡ₚ map pr_completion rs ++ read_promises (delete i m).
Proof.
  intros Hi. rewrite <- (insert_delete_id m i rs Hi) at 1. apply read_promises_insert, lookup_delete_eq.
Qed.

Lemma mutation_promises_traverse m :
  map (fun p => pm_completion p.2) (traverse m) ≡ₚ mutation_promises m.
Proof. unfold mutation_promises. by rewrite traverse_elements. Qed.

Lemma read_promises_traverse m :
  concat (map (fun p => map pr_completion p.2) (traverse m)) ≡ₚ read_promises m.
Proof. apply concat_perm. by rewrite traverse_elements. Qed.

(** ** Failing the waiting clients *)

(** [fail_pending] answers everyone who waits and changes nothing else. *)
Lemma fail_pending_spec status o :
  NoDup (ledger o) ->
  exists o', fail_pending status o = (o', Ok tt) /\ handed o' ≡ₚ ledger o /\
    exists a, o' = with_pending ∅ (with_pending_reads ∅ (with_answers (answers o ++ a) o)).
Proof.
  unfold ledger, waiting. intros Hd. unfold fail_pending. unfold bind at 1, get at 1.
  destruct (set_each (fun p => pm_completion p.2) (fun p => set_value (pm_completion p.2) (status_result status))
    (traverse (pending_ o)) o) as (o1 & E1 & A1).
  { intros x o' Hx. by apply set_value_ok. }
  { rewrite mutation_promises_traverse. rewrite <- (assoc_L (++)) in Hd. by eapply NoDup_skip. }
  unfold bind at 1. rewrite E1. unfold bind at 1, modify at 1, bind at 1, get at 1. osimpl.
  pose proof A1 as (a1 & Ha1 & ->). osimpl.
  set (o2 := with_pending ∅ (with_answers (answers o ++ a1) o)).
  destruct (set_groups (fun p => map pr_completion p.2) (fun p => for_each p.2 (fun read =>
    set_value (pr_completion read) (status_result status))) (traverse (pending_reads_ o)) o2) as (o3 & E3 & A3).
  { intros x o' Hx. apply (set_each pr_completion); [|done]. intros y o'' Hy. by apply set_value_ok. }
  { rewrite read_promises_traverse. change (handed o2) with (handed (with_answers (answers o ++ a1) o)).
    rewrite (answered_handed _ _ _ A1), mutation_promises_traverse.
    rewrite (Permutation_app_comm (handed o)), (assoc_L (++)), (Permutation_app_comm (read_promises _)). done. }
  unfold bind. rewrite E3. pose proof A3 as (a3 & Ha3 & ->). eexists. split; [reflexivity|]. split.
  - unfold handed, o2. osimpl. rewrite !fmap_app, Ha1, Ha3, mutation_promises_traverse, read_promises_traverse.
    change ((answers o).*1) with (handed o).
    by rewrite (Permutation_app_comm (handed o)), <- !(assoc_L (++)), (Permutation_app_comm (handed o)).
  - exists (a1 ++ a3). unfold o2. osimpl. by rewrite (assoc_L (++)).
Qed.

(** ** Closing a request *)

(** The promises stay accounted for, the node is not touched and nobody new
    waits. *)
Record Onward (o o' : Owner) : Prop := {
  on_ledger : ledger o' ≡ₚ ledger o;
  on_node : node_ o' = node_ o;
  on_pending : pending_ o' ⊆ pending_ o;
  on_reads : pending_reads_ o' ⊆ pending_reads_ o;
}.

Lemma Onward_refl o : Onward o o.
Proof. done. Qed.

Lemma Onward_trans o1 o2 o3 : Onward o1 o2 -> Onward o2 o3 -> Onward o1 o3.
Proof. intros [L1 N1 P1 R1] [L2 N2 P2 R2]. constructor; [by rewrite L2|by rewrite N2|by etransitivity..]. Qed.

Lemma Onward_once o o' : Onward o o' -> NoDup (ledger o) -> NoDup (ledger o').
Proof. intros Ho. by rewrite (on_ledger _ _ Ho). Qed.

Lemma pending_fresh o i pm : NoDup (ledger o) -> pending_ o !! i = Some pm -> pm_completion pm ∉ handed o.
Proof.
  unfold ledger, waiting. intros Hd Hi. rewrite (mutation_promises_delete _ _ _ Hi) in Hd.
  cbn [app] in Hd. apply NoDup_cons in Hd as [Hd _]. set_solver.
Qed.

(** A mutation that is answered does not wait any more. *)
Lemma close_mutation i pm r o :
  NoDup (ledger o) -> pending_ o !! i = Some pm ->
  exists o', (set_value (pm_completion pm) r ;;
      modify (fun o => with_pending (delete i (pending_ o)) o)) o = (o', Ok tt) /\
    o' = with_pending (delete i (pending_ o)) (with_answers (answers o ++ [(pm_completion pm, r)]) o) /\
    Onward o o'.
Proof.
  intros Hd Hi. pose proof (pending_fresh o i pm Hd Hi) as Hp.
  unfold set_value. unfold bind at 1, bind at 1, get at 1. rewrite bool_decide_false by exact Hp.
  eexists. split_and!; [reflexivity|done|]. constructor; try done.
  - unfold ledger, waiting, handed. osimpl. rewrite (mutation_promises_delete _ _ _ Hi), fmap_app.
    cbn [fmap list_fmap fst]. rewrite (assoc_L (++)), (Permutation_app_comm _ [pm_completion pm]). done.
  - osimpl. apply delete_subseteq.
Qed.

(** So with the reads that wait for one barrier. *)
Lemma close_reads i rs body o o1 :
  NoDup (ledger o) -> pending_reads_ o !! i = Some rs -> body o = (o1, Ok tt) ->
  answered (map pr_completion rs) o o1 ->
  exists o', (body ;; modify (fun o => with_pending_reads (delete i (pending_reads_ o)) o)) o = (o', Ok tt) /\
    o' = with_pending_reads (delete i (pending_reads_ o)) o1 /\ Onward o o'.
Proof.
  intros Hd Hi E (a & Ha & ->). eexists. split_and!; [unfold bind; by rewrite E|done|]. constructor; try done.
  - unfold ledger, waiting, handed. osimpl. rewrite (read_promises_delete _ _ _ Hi), fmap_app, Ha.
    rewrite <- !(assoc_L (++)). apply Permutation_app_head. rewrite (assoc_L (++)). apply Permutation_app_comm.
  - osimpl. apply delete_subseteq.
Qed.

Lemma reads_fresh o i rs : NoDup (ledger o) -> pending_reads_ o !! i = Some rs -> NoDup (map pr_completion rs ++ handed o).
Proof.
  unfold ledger, waiting. intros Hd Hi. rewrite (read_promises_delete _ _ _ Hi) in Hd.
  rewrite <- !(assoc_L (++)) in Hd. apply NoDup_app in Hd as (_ & _ & Hd). by eapply NoDup_skip.
Qed.

Lemma answer_reads_ok time rs o :
  NoDup (map pr_completion rs ++ handed o) ->
  exists o', answer_reads time rs o = (o', Ok tt) /\ answered (map pr_completion rs) o o'.
Proof.
  revert o. induction rs as [|x rs IH]; intros o Hd; cbn [answer_reads map].
  { exists o. split; [done|apply answered_nil]. }
  cbn [map app] in Hd. apply NoDup_cons in Hd as [Hx Hd]. rewrite not_elem_of_app in Hx.
  unfold bind at 1, get at 1. match goal with |- context [set_value _ ?r] => set (v := r) end.
  destruct (set_value_ok (pr_completion x) v o) as (o1 & E1 & A1); [tauto|].
  destruct (IH o1) as (o2 & E2 & A2).
  { rewrite (answered_handed _ _ _ A1), (assoc_L (++)), Permutation_app_comm. apply NoDup_cons.
    by rewrite not_elem_of_app. }
  exists o2. unfold bind. rewrite E1, E2. split; [done|]. by apply (answered_trans [pr_completion x]) with o1.
Qed.

(** ** Publishing the actions of the node *)

(** What an action may do: the ledger is kept however it ends, and [role_]
    becomes [r] when it returns. *)
Definition acts_on (r : Role) (o : Owner) (res : Owner * result unit) : Prop :=
  Onward o res.1 /\ (res.2 = Ok tt -> role_ res.1 = r).

Lemma acts_on_same o : acts_on (role_ o) o (o, Ok tt).
Proof. by split. Qed.

Lemma on_machine_keeps {A} (m : M ReplicatedStateMachine A) o :
  exists k r, on_machine m o = (with_state_machine k o, r).
Proof. unfold on_machine, lift. destruct (m _) as [k r]. by exists k, r. Qed.

Lemma maybe_start_snapshot_keeps index term o :
  exists j, maybe_start_snapshot config index term o = (with_snapshot_future j o, Ok tt).
Proof.
  unfold maybe_start_snapshot, bind, get. destruct (_ || _); [|by eexists].
  exists (snapshot_future_ o). by destruct o.
Qed.

Lemma now_keeps o : exists e t, now o = (with_env e o, Ok t).
Proof.
  unfold now. destruct (ticks (env o)) as [|[d c] l]; [|by eexists _, _].
  exists (env o), (clock (env o)). by destruct o.
Qed.

Lemma apply_entry_acts e o : NoDup (ledger o) -> acts_on (role_ o) o (apply_entry e o).
Proof.
  intros Hd. unfold apply_entry. destruct (le_kind e).
  - destruct (on_machine_keeps (apply_command (le_command e)) o) as (k & r & E). unfold bind at 1. rewrite E.
    destruct r as [r|x]; [|by split].
    unfold bind at 1, get at 1. osimpl. destruct (pending_ o !! le_index e) as [pm|] eqn:Hi; [|by split].
    destruct (close_mutation (le_index e) pm
      (if negb (bool_decide (pm_command pm = le_command e)) then status_result cs_failed
       else {| cr_status := apply_status (ar_status r); cr_value := ar_response r; cr_leader_endpoint := [] |})
      (with_state_machine k o) Hd Hi) as (o' & -> & -> & [L N P R]).
    by split.
  - unfold bind at 1, get at 1. destruct (pending_reads_ o !! le_index e) as [rs|] eqn:Hi; [|apply acts_on_same].
    destruct (now_keeps o) as (v & t & E). unfold bind at 1. rewrite E.
    destruct (answer_reads_ok t rs (with_env v o)) as (o1 & E1 & A1); [by apply (reads_fresh o (le_index e))|].
    destruct (close_reads (le_index e) rs (answer_reads t rs) (with_env v o) o1 Hd Hi E1 A1) as (o' & -> & -> & [L N P R]).
    split; [by constructor|]. by destruct A1 as (a & _ & ->).
Qed.

(** [fail_pending] in the course of an action. *)
Lemma fail_pending_acts status o : NoDup (ledger o) -> acts_on (role_ o) o (fail_pending status o) /\
  (fail_pending status o).2 = Ok tt /\
  pending_ (fail_pending status o).1 = ∅ /\ pending_reads_ (fail_pending status o).1 = ∅.
Proof.
  intros Hd. destruct (fail_pending_spec status o Hd) as (o' & -> & L & a & ->). split_and!; try done.
  split; [|done]. constructor; try done; try apply map_empty_subseteq.
Qed.

Lemma rejected_acts o : NoDup (ledger o) ->
  forall id, acts_on (role_ o) o (on_action config (ProposalRejected id) o).
Proof.
  intros Hd id. cbn [on_action]. unfold bind at 1, get at 1.
  destruct (active_proposal_index_ o) as [i|]; [|destruct (active_read_barrier_index_ o) as [i|]].
  - destruct (pending_ o !! i) as [pm|] eqn:Hi; [|by split].
    destruct (close_mutation i pm (rejected_result config o) o Hd Hi) as (o' & -> & -> & Ho). by split.
  - destruct (pending_reads_ o !! i) as [rs|] eqn:Hi; [|by split].
    destruct (set_each pr_completion (fun read => set_value (pr_completion read) (rejected_result config o)) rs o)
      as (o1 & E1 & A1); [intros x o' Hx; by apply set_value_ok|by eapply reads_fresh|].
    destruct (close_reads i rs _ o o1 Hd Hi E1 A1) as (o' & -> & -> & Ho).
    split; [done|]. by destruct A1 as (a & _ & ->).
  - by split.
Qed.

Lemma on_action_acts a o : NoDup (ledger o) ->
  acts_on (announce (role_ o) a) o (on_action config a o) /\
  ((on_action config a o).2 = Ok tt -> role_ o = leader -> announce leader a <> leader ->
   pending_ (on_action config a o).1 = ∅ /\ pending_reads_ (on_action config a o).1 = ∅).
Proof.
  intros Hd. destruct a as [to m| | | |from to t id| |e|d|id]; cbn [announce]; try (split; [by split|done]).
  - split; [|done]. cbn [on_action]. unfold bind, get. destruct (_ && _); [by split|].
    by destruct (is_request_message m).
  - set (o1 := with_leader_id id (with_role to o)).
    change (on_action config (RoleChanged from to t id) o) with
      (when (bool_decide (role_ o = leader) && negb (bool_decide (to = leader))) (fail_pending cs_retry) o1).
    destruct (_ && _) eqn:El; cbn [when].
    + destruct (fail_pending_acts cs_retry o1 Hd) as ([[L N P R] Hr] & Ho & Hp & Hrd).
      split; [split; [by constructor|exact Hr]|by intros _ _ _].
    + split; [by split|]. intros _ Hl Ht. rewrite Hl, !bool_decide_true, bool_decide_false in El by done. done.
  - split; [|done]. cbn [on_action]. unfold bind. pose proof (apply_entry_acts e o Hd) as [Ho Hr].
    destruct (apply_entry e o) as [o1 [[]|x]]; [|by split].
    destruct (maybe_start_snapshot_keeps (le_index e) (le_term e) o1) as [j ->].
    destruct Ho as [L N P R]. split; [by constructor|done].
  - split; [|done]. cbn [on_action]. unfold bind at 1.
    assert (exists k r, install_state (sm_state_machine d) o = (with_state_machine k o, r)) as (k & r & ->).
    { unfold install_state. destruct (dr_value _); [apply on_machine_keeps|].
      exists (state_machine_ o). eexists. unfold throw. by destruct o. }
    destruct r as [[]|x]; [|by split]. unfold bind at 1, modify at 1.
    match goal with |- context [fail_pending _ ?x] => destruct (fail_pending_acts cs_retry x Hd) as ([[L N P R] Hr] & Ho & _) end.
    split; [by constructor|done].
  - split; [by apply rejected_acts|done].
Qed.

(** ** The reads whose time is over *)

Lemma expire_reads_ok time rs o :
  NoDup (map pr_completion rs ++ handed o) ->
  exists o' kept gone, expire_reads time rs o = (o', Ok kept) /\ answered gone o o' /\
    map pr_completion rs ≡ₚ map pr_completion kept ++ gone.
Proof.
  revert o. induction rs as [|x rs IH]; intros o Hd; cbn [expire_reads map].
  { exists o, [], []. split_and!; [done|apply answered_nil|done]. }
  cbn [map app] in Hd. apply NoDup_cons in Hd as [Hx Hd]. rewrite not_elem_of_app in Hx.
  unfold bind at 1, get at 1. destruct (_ || _); cbn [when].
  - destruct (set_value_ok (pr_completion x) (status_result cs_retry) o) as (o1 & E1 & A1); [tauto|].
    destruct (IH o1) as (o2 & kept & gone & E2 & A2 & Hp).
    { rewrite (answered_handed _ _ _ A1), (assoc_L (++)), Permutation_app_comm. apply NoDup_cons.
      by rewrite not_elem_of_app. }
    exists o2, kept, (pr_completion x :: gone). unfold bind. rewrite E1, E2. split_and!; [done| |].
    + by apply (answered_trans [pr_completion x]) with o1.
    + by rewrite Hp, Permutation_middle.
  - destruct (IH o Hd) as (o2 & kept & gone & E2 & A2 & Hp). exists o2, (x :: kept), gone.
    unfold bind, ret. rewrite E2. split_and!; [done|done|]. cbn [map app]. by rewrite Hp.
Qed.

(** [o'] is [o] with more answers and fewer reads waiting. *)
Definition trimmed (o o' : Owner) : Prop :=
  ledger o' ≡ₚ ledger o /\ dom (pending_reads_ o') = dom (pending_reads_ o) /\
  exists a m, o' = with_pending_reads m (with_answers a o).

Lemma trimmed_refl o : trimmed o o.
Proof. split_and!; [done..|]. exists (answers o), (pending_reads_ o). by destruct o. Qed.

Lemma trimmed_trans o1 o2 o3 : trimmed o1 o2 -> trimmed o2 o3 -> trimmed o1 o3.
Proof.
  intros (L1 & D1 & a1 & m1 & ->) (L2 & D2 & a2 & m2 & ->).
  split_and!; [by rewrite L2|by rewrite D2|]. by exists a2, m2.
Qed.

(** The reads of one barrier. *)
Lemma trim_barrier time i rs o :
  NoDup (ledger o) -> pending_reads_ o !! i = Some rs ->
  exists o' kept, (let* kept := expire_reads time rs in
      modify (fun o => with_pending_reads (<[i := kept]> (pending_reads_ o)) o)) o = (o', Ok tt) /\
    trimmed o o' /\ pending_reads_ o' = <[i := kept]> (pending_reads_ o).
Proof.
  intros Hd Hi. destruct (expire_reads_ok time rs o) as (o1 & kept & gone & E & (a & Ha & ->) & Hp);
    [by eapply reads_fresh|].
  eexists _, kept. unfold bind. rewrite E. split_and!; [reflexivity| |done]. split_and!.
  - unfold ledger, waiting, handed. osimpl. rewrite fmap_app, Ha, (read_promises_delete _ _ _ Hi), Hp.
    rewrite <- insert_delete_eq, read_promises_insert by apply lookup_delete_eq.
    rewrite <- !(assoc_L (++)). do 2 apply Permutation_app_head.
    rewrite (assoc_L (++)). apply Permutation_app_comm.
  - osimpl. rewrite dom_insert_lookup_L; [done|by eexists].
  - by eexists _, _.
Qed.

Lemma expire_pending_reads_ok time o :
  NoDup (ledger o) -> exists o', expire_pending_reads time o = (o', Ok tt) /\ trimmed o o'.
Proof.
  intros Hd. unfold expire_pending_reads. unfold bind at 1, get at 1.
  assert (forall l o, NoDup (ledger o) -> NoDup l.*1 ->
    (forall p, p ∈ l -> pending_reads_ o !! p.1 = Some p.2) ->
    exists o', for_each l (fun p => let* kept := expire_reads time p.2 in
      modify (fun o => with_pending_reads (<[p.1 := kept]> (pending_reads_ o)) o)) o = (o', Ok tt) /\
      trimmed o o') as Hl.
  { clear o Hd. induction l as [|[i rs] l IH]; intros o Hd Hn Hl; cbn [for_each].
    { exists o. split; [done|apply trimmed_refl]. }
    cbn [fmap list_fmap fst] in Hn. apply NoDup_cons in Hn as [Hi Hn].
    destruct (trim_barrier time i rs o Hd) as (o1 & kept & E1 & T1 & Hm); [by apply (Hl (i, rs)); left|].
    destruct (IH o1) as (o2 & E2 & T2); [by rewrite (proj1 T1)|done| |].
    { intros p Hp. rewrite Hm, lookup_insert_ne; [apply Hl; by right|]. intros ->.
      apply Hi, list_elem_of_fmap. by exists p. }
    exists o2. unfold bind at 1. cbn [fst snd]. rewrite E1. split; [done|by eapply trimmed_trans]. }
  apply Hl; [done| |].
  - rewrite traverse_elements. apply NoDup_fst_map_to_list.
  - intros [i rs]. rewrite traverse_elements. apply elem_of_map_to_list.
Qed.

(** ** The owner between two operations *)

Definition idle (o : Owner) : Prop := pending_ o = ∅ /\ pending_reads_ o = ∅.

(** Everyone waits for an entry up to [n]. *)
Definition bounded (n : LogIndex) (o : Owner) : Prop :=
  forall i, is_Some (pending_ o !! i) \/ is_Some (pending_reads_ o !! i) -> i <= n.

(** The owner with the actions [rest] of its node still to be published: only a
    leader has clients waiting, and unless it is about to learn that it lost the
    leadership they wait for entries of its log. *)
Record Publishing (rest : Actions) (o : Owner) : Prop := {
  pb_role : announced (role_ o) rest = n_role (node_ o);
  pb_idle : role_ o <> leader -> idle o;
  pb_keys : role_ o = leader -> Forall (fun a => announce leader a = leader) rest ->
    bounded (last_log_index (node_ o)) o;
  pb_once : NoDup (ledger o);
}.

Record Kept (o : Owner) : Prop := {
  k_node : RaftInvariant.Inv (node_ o);
  k_clients : Publishing [] o;
}.

Lemma Onward_idle o o' : Onward o o' -> idle o -> idle o'.
Proof. intros [_ _ P R] [E1 E2]. rewrite E1 in P. rewrite E2 in R. split; apply (anti_symm (⊆)); try done; apply map_empty_subseteq. Qed.

Lemma Onward_bounded n o o' : Onward o o' -> bounded n o -> bounded n o'.
Proof.
  intros [_ _ P R] Hb i [Hi|Hi]; apply Hb; [left|right]; destruct Hi as [x Hx];
    exists x; by eapply lookup_weaken.
Qed.

Lemma idle_bounded n o : idle o -> bounded n o.
Proof. intros [E1 E2] i. rewrite E1, E2, !lookup_empty. intros [[? ?]|[? ?]]; done. Qed.

Lemma Publishing_step a rest o o' :
  Publishing (a :: rest) o -> on_action config a o = (o', Ok tt) -> Publishing rest o'.
Proof.
  intros [Pr Pi Pk Po] E. pose proof (on_action_acts a o Po) as [[Ho Hr] He]. rewrite E in Ho, Hr, He.
  cbn [fst snd] in *. specialize (Hr eq_refl). specialize (He eq_refl). constructor.
  - rewrite Hr, (on_node _ _ Ho). exact Pr.
  - intros Hl. destruct (decide (role_ o = leader)) as [Hlo|Hlo]; [|by eapply Onward_idle; auto].
    rewrite Hr, Hlo in Hl. by apply He.
  - intros Hl Hf. rewrite (on_node _ _ Ho). destruct (decide (role_ o = leader)) as [Hlo|Hlo].
    + eapply Onward_bounded; [done|]. apply Pk; [done|]. constructor; [|done]. by rewrite Hr, Hlo in Hl.
    + by eapply idle_bounded, Onward_idle; auto.
  - by eapply Onward_once.
Qed.

Lemma publish_all acts o :
  Publishing acts o ->
  Onward o (for_each acts (on_action config) o).1 /\
  ((for_each acts (on_action config) o).2 = Ok tt ->
   Publishing [] (for_each acts (on_action config) o).1).
Proof.
  revert o. induction acts as [|a rest IH]; intros o Hp; cbn [for_each]; [by split|].
  pose proof (on_action_acts a o (pb_once _ _ Hp)) as [[Ho _] _]. unfold bind.
  destruct (on_action config a o) as [o1 [[]|x]] eqn:E; [|by split].
  destruct (IH o1) as [H1 H2]; [by eapply Publishing_step|]. split; [by eapply Onward_trans|done].
Qed.

(** The actions that only the store sees announce nothing. *)
Lemma announced_published r acts : announced r (published acts) = announced r acts.
Proof.
  revert r. induction acts as [|a acts IH]; intros r; [done|]. unfold published. rewrite filter_cons.
  destruct (decide _) as [Ha|Ha]; [apply IH|].
  fold (published acts). rewrite IH. by destruct a.
Qed.

Lemma Publishing_published acts o : Publishing acts o -> Publishing (published acts) o.
Proof.
  intros [Pr Pi Pk Po]. constructor; [by rewrite announced_published|done| |done].
  intros Hl Hf. apply Pk; [done|]. unfold published in Hf. rewrite Forall_forall in *.
  intros a Ha. destruct (is_persist a) eqn:E; [by destruct a|]. apply Hf, list_elem_of_filter. done.
Qed.

(** ** One operation of the node *)

Lemma store_write_keeps o : exists e r, store_write o = (with_env e o, r).
Proof.
  unfold store_write. destruct (store_faults (env o)) as [|f l]; [|by eexists _, _].
  exists (env o). eexists. by destruct o.
Qed.

Lemma Publishing_env e acts o : Publishing acts o -> Publishing acts (with_env e o).
Proof. intros []. by constructor. Qed.

(** The clients after an operation on the node: no promise is lost, and no client
    has joined. *)
Record Operated (o o' : Owner) : Prop := {
  op_ledger : ledger o' ≡ₚ ledger o;
  op_pending : pending_ o' ⊆ pending_ o;
  op_reads : pending_reads_ o' ⊆ pending_reads_ o;
}.

Lemma run_node_operates op o :
  RaftInvariant.Inv (node_ o) -> Room (node_ o) -> op_typed op -> NoDup (ledger o) ->
  (forall acts s', performs (perform op) (node_ o) acts s' -> Publishing acts (with_node s' o)) ->
  Operated o (run_node config op o).1 /\ ((run_node config op o).2 = Ok tt -> Kept (run_node config op o).1).
Proof.
  intros HI HR Ht Hd Hp.
  destruct (perform_cases op (node_ o) HI HR Ht) as [(acts & s' & Hs)|(e & s' & E & _)].
  2:{ assert (run_node config op o = (with_node s' o, Throw e)) as ->
        by (unfold run_node, bind, lift; by rewrite E).
      split; [by constructor|done]. }
  pose proof (Hp _ _ Hs) as Hpub. destruct Hs as (E & HI' & _).
  destruct (store_write_keeps (with_node s' o)) as (v & r & Ew).
  destruct r as [[]|x].
  2:{ assert (run_node config op o = (with_env v (with_node s' o), Throw x)) as ->
        by (unfold run_node, bind, lift; by rewrite E, Ew).
      split; [by constructor|done]. }
  assert (run_node config op o = for_each (published acts) (on_action config) (with_env v (with_node s' o))) as ->
    by (unfold run_node, bind, lift; by rewrite E, Ew).
  apply Publishing_published, (Publishing_env v) in Hpub. destruct (publish_all _ _ Hpub) as [[L N P R] Hok].
  split; [by constructor|]. intros Hr. constructor; [by rewrite N|by apply Hok].
Qed.

(** An operation that adds no client. *)
Lemma performs_publishing m acts s' o :
  Kept o -> performs m (node_ o) acts s' -> Publishing acts (with_node s' o).
Proof.
  intros [HI [Pr Pi Pk Po]] (E & HI' & HS & _). cbn in Pr. constructor; osimpl; [|done| |done].
  - rewrite Pr. exact (st_role _ _ _ HS).
  - intros Hl Hf. assert (n_role (node_ o) = leader) as Hl0 by congruence.
    pose proof (st_reign _ _ _ HS Hl0 Hf) as Ht.
    assert (n_role s' = leader) as Hl'.
    { rewrite <- (st_role _ _ _ HS : announced (n_role (node_ o)) acts = n_role s'), Hl0. by apply announced_none. }
    destruct (st_append_only _ _ _ HS Hl0 Hl' Ht) as [Hlast _].
    intros i Hi. transitivity (last_log_index (node_ o)); [by apply Pk|exact Hlast].
Qed.

Lemma run_node_kept op o :
  Kept o -> Room (node_ o) -> op_typed op ->
  Operated o (run_node config op o).1 /\ ((run_node config op o).2 = Ok tt -> Kept (run_node config op o).1).
Proof.
  intros Hk HR Ht. apply run_node_operates; [apply Hk|done|done|apply Hk|].
  intros acts s'. by apply performs_publishing.
Qed.

(** ** Taking a request *)

(** The owner took the promises [ps], however the work on them ended. *)
Definition takes (ps : list nat) (o : Owner) (res : Owner * result unit) : Prop :=
  ledger res.1 ≡ₚ ps ++ ledger o /\ (res.2 = Ok tt -> Kept res.1).

Lemma Kept_ext o o' :
  Kept o -> node_ o' = node_ o -> role_ o' = role_ o -> pending_ o' = pending_ o ->
  pending_reads_ o' = pending_reads_ o -> answers o' = answers o -> Kept o'.
Proof.
  intros [HI [Pr Pi Pk Po]] En Er Ep Erd Ea.
  assert (ledger o' = ledger o) as El by (unfold ledger, waiting, handed; by rewrite Ep, Erd, Ea).
  constructor; [by rewrite En|]. constructor; rewrite ?Er, ?En, ?El; try done; unfold idle, bounded; by rewrite Ep, Erd.
Qed.

Lemma takes_ext ps o o' res : takes ps o res -> ledger o' ≡ₚ ledger o -> takes ps o' res.
Proof. intros [L K] E. split; [by rewrite L, E|done]. Qed.

(** A promise that is answered at once. *)
Lemma answer_now p r o : Kept o -> p ∉ ledger o -> takes [p] o (set_value p r o).
Proof.
  intros Hk Hp. destruct (set_value_ok p r o) as (o' & -> & a & Ha & ->).
  { intros Hin. apply Hp. unfold ledger. set_solver. }
  assert (ledger (with_answers (answers o ++ a) o) ≡ₚ [p] ++ ledger o) as L.
  { unfold ledger, handed. osimpl. rewrite fmap_app, Ha, (assoc_L (++)). apply Permutation_app_comm. }
  split; [done|]. intros _. destruct Hk as [HI [Pr Pi Pk Po]]. constructor; [done|].
  constructor; [done..|]. rewrite L. by apply NoDup_cons.
Qed.

Lemma next_index_eq s :
  RaftInvariant.Inv s -> Room s -> next_index (RaftNode_snapshot s) = last_log_index s + 1.
Proof.
  intros HI [Hl _]. pose proof (RaftInvariant.inv_log _ HI) as HL. pose proof (LogInv_last _ _ HL) as Hlast.
  pose proof (LogInv_nonempty _ _ HL) as Hne. pose proof (RaftInvariant.inv_snapshot _ HI) as Hs.
  rewrite last_log_index_of in *. rewrite base_index_of in Hs.
  destruct (li_sentinel _ _ HL) as (i & t & rest & El & Hi & _).
  assert (0 <= base_of (n_log s)) by (rewrite El; unfold base_of; cbn; lia).
  assert (size_of (drop 1 (n_log s)) = Z.of_nat (length (n_log s)) - 1) as Hd
    by (unfold size_of; rewrite length_drop; lia).
  unfold next_index. cbn [RaftNode_snapshot rs_durable_snapshot rs_log]. rewrite Hd. unfold u64_max in *.
  destruct (n_durable_snapshot s) as [d|].
  - destruct Hs as (-> & _). rewrite u64_small by (unfold is_u64; lia). lia.
  - rewrite u64_small by (unfold is_u64; lia). lia.
Qed.

(** A client may wait for the entry that is submitted. *)
Lemma joined_publishing kind cmd acts s' o o1 :
  Kept o -> Room (node_ o) -> n_role (node_ o) = leader ->
  performs (submit_entry kind cmd) (node_ o) acts s' ->
  role_ o1 = role_ o -> bounded (last_log_index (node_ o) + 1) o1 -> NoDup (ledger o1) ->
  Publishing acts (with_node s' o1).
Proof.
  intros Hk HR Hl Hs Er Hb Hd. destruct (performs_publishing _ _ _ _ Hk Hs) as [Pr _ _ _].
  destruct Hk as [HI [Pr0 _ _ _]]. cbn in Pr0.
  destruct (submit_performs kind cmd (node_ o) HI HR) as (acts2 & s2 & (E2 & _) & _ & Hlog).
  destruct Hs as (E & _). rewrite E in E2. injection E2 as <- <-. rewrite decide_True in Hlog by done.
  constructor; osimpl; rewrite ?Er; [exact Pr|congruence| |done].
  intros _ _. assert (last_log_index s' = last_log_index (node_ o) + 1) as ->; [|done].
  rewrite !last_log_index_of, Hlog. unfold last_of. by rewrite last_snoc.
Qed.

(** A client [p] who joined for the entry that [op] submits. *)
Lemma submit_takes op kind cmd (done_with : Owner -> Owner) p o o1 :
  Kept o -> Room (node_ o) -> n_role (node_ o) = leader -> p ∉ ledger o ->
  perform op = submit_entry kind cmd -> op_typed op -> node_ o1 = node_ o -> role_ o1 = role_ o ->
  ledger o1 ≡ₚ p :: ledger o -> bounded (last_log_index (node_ o) + 1) o1 ->
  (forall o2, Kept o2 -> Kept (done_with o2)) -> (forall o2, ledger (done_with o2) = ledger o2) ->
  takes [p] o ((run_node config op ;; modify done_with) o1).
Proof.
  intros Hk HR Hl Hp Eop Ht En Er L1 Hb HK HL.
  assert (NoDup (ledger o1)) as Hd1 by (rewrite L1; apply NoDup_cons; split; [done|apply Hk]).
  destruct (run_node_operates op o1) as [[L P R] K]; [rewrite En; apply Hk|by rewrite En|done|done| |].
  { intros acts s'. rewrite En, Eop. intros Hs. by eapply joined_publishing. }
  unfold bind. destruct (run_node _ _ o1) as [o2 [[]|x]]; cbn [fst snd] in *; split; cbn [fst snd modify];
    rewrite ?HL, ?L, ?L1; try done. intros _. by apply HK, K.
Qed.

(** Everyone waits for an entry the leader has. *)
Lemma Kept_bounded o :
  Kept o -> n_role (node_ o) = leader -> bounded (last_log_index (node_ o)) o.
Proof.
  intros [HI [Pr Pi Pk Po]] Hl. apply Pk; [|done]. cbn in Pr. congruence.
Qed.

Lemma not_waiting n o i : bounded n o -> n < i -> pending_ o !! i = None /\ pending_reads_ o !! i = None.
Proof.
  intros Hb Hi. split; apply eq_None_not_Some; intros Hx; [pose proof (Hb i (or_introl Hx))|
    pose proof (Hb i (or_intror Hx))]; lia.
Qed.

Lemma process_proposal_takes c p o :
  Kept o -> Room (node_ o) -> valid_command c -> p ∉ ledger o ->
  takes [p] o (process_proposal config c p o).
Proof.
  intros Hk HR Hv Hp. unfold process_proposal. unfold bind at 1, get at 1.
  cbn [RaftNode_snapshot rs_role]. case_bool_decide as Hl; cbn [negb]; [|by apply answer_now].
  rewrite next_index_eq by (apply Hk || done). rewrite encode_command_ok by done.
  unfold bind at 1, modify at 1. pose proof (Kept_bounded o Hk Hl) as Hb.
  destruct (not_waiting _ _ (last_log_index (node_ o) + 1) Hb) as [Hfresh _]; [lia|].
  unfold emplace_pending. rewrite Hfresh.
  apply (submit_takes _ command (command_bytes c)); try done.
  - unfold ledger, waiting, handed. osimpl. by rewrite mutation_promises_insert.
  - intros i. osimpl. rewrite lookup_insert_is_Some. intros [[->|[_ Hi]]|Hi]; [done|..].
    + pose proof (Hb i (or_introl Hi)). lia.
    + pose proof (Hb i (or_intror Hi)). lia.
  - intros o2 K. by eapply Kept_ext.
Qed.

Lemma process_read_takes key p deadline o :
  Kept o -> Room (node_ o) -> p ∉ ledger o ->
  takes [p] o (process_read config key p deadline o).
Proof.
  intros Hk0 HR Hp. unfold process_read. destruct (now_keeps o) as (v & t & E).
  unfold bind at 1. rewrite E. unfold bind at 1, get at 1.
  apply (takes_ext _ (with_env v o)); [|done]. set (oe := with_env v o).
  assert (Kept oe) as Hk by by eapply Kept_ext. change (Room (node_ oe)) in HR. change (p ∉ ledger oe) in Hp.
  clearbody oe. clear Hk0 E o. rename oe into o.
  destruct (_ || _); [by apply answer_now|].
  cbn [RaftNode_snapshot rs_role]. case_bool_decide as Hl; cbn [negb]; [|by apply answer_now].
  destruct (_ <=? _); [by apply answer_now|].
  rewrite next_index_eq by (apply Hk || done). unfold bind at 1, modify at 1.
  pose proof (Kept_bounded o Hk Hl) as Hb.
  destruct (not_waiting _ _ (last_log_index (node_ o) + 1) Hb) as [_ Hfresh]; [lia|].
  unfold emplace_pending. rewrite Hfresh.
  apply (submit_takes _ no_op []); try done.
  - unfold ledger, waiting, handed. osimpl. rewrite read_promises_insert by done. cbn [map app].
    by rewrite <- Permutation_middle.
  - intros i. osimpl. rewrite lookup_insert_is_Some. intros [Hi|[->|[_ Hi]]]; [|done|].
    + pose proof (Hb i (or_introl Hi)). lia.
    + pose proof (Hb i (or_intror Hi)). lia.
  - intros o2 K. by eapply Kept_ext.
Qed.

(** ** A round *)

(** The promises of a client that a work carries. *)
Definition promises (w : Work) : list nat :=
  match w with
  | Proposal _ completion | Read _ completion _ => [completion]
  | _ => []
  end.

(** What the client and peer ports let into the queue. *)
Definition admitted (w : Work) : Prop :=
  match w with
  | Proposal c _ => valid_command c
  | Read _ _ _ => True
  | PeerRequest envelope _ => message_typed (pe_message envelope)
  | PeerResponse _ m => message_typed m
  end.

Lemma takes_node op o :
  Kept o -> Room (node_ o) -> op_typed op -> takes [] o (run_node config op o).
Proof. intros Hk HR Ht. by destruct (run_node_kept op o Hk HR Ht) as [[L _ _] K]. Qed.

(** Work after work. *)
Lemma takes_bind {A} ps qs (m : M Owner A) (k : A -> M Owner unit) o :
  ledger (m o).1 ≡ₚ ps ++ ledger o ->
  (forall a, (m o).2 = Ok a -> takes qs (m o).1 (k a (m o).1)) ->
  (forall e, (m o).2 = Throw e -> qs = []) ->
  takes (qs ++ ps) o (bind m k o).
Proof.
  intros L Hk He. unfold bind. destruct (m o) as [o1 [a|e]]; cbn [fst snd] in *.
  - destruct (Hk a eq_refl) as [L' K]. split; [by rewrite L', L, (assoc_L (++))|done].
  - rewrite (He e eq_refl). by split.
Qed.

Lemma takes_then (m k : M Owner unit) o :
  takes [] o (m o) -> (Kept (m o).1 -> takes [] (m o).1 (k (m o).1)) -> takes [] o ((m ;; k) o).
Proof.
  intros [L K] Hk. apply (takes_bind [] []); [done| |done]. intros [] E. by apply Hk, K.
Qed.

Lemma takes_keeps f o :
  Kept o -> (Kept o -> Kept (f o)) -> ledger (f o) = ledger o -> takes [] o (modify f o).
Proof. intros Hk Hf L. split; [by cbn; rewrite L|]. intros _. by apply Hf. Qed.

Lemma process_peer_request_takes envelope p o :
  Kept o -> Room (node_ o) -> message_typed (pe_message envelope) ->
  takes [] o (process_peer_request config envelope p o).
Proof.
  intros Hk HR Ht. unfold process_peer_request.
  assert (forall f : Owner -> Owner, (forall o, node_ (f o) = node_ o) -> (forall o, role_ (f o) = role_ o) ->
    (forall o, pending_ (f o) = pending_ o) -> (forall o, pending_reads_ (f o) = pending_reads_ o) ->
    (forall o, answers (f o) = answers o) -> forall o, Kept o -> takes [] o (modify f o)) as Hm.
  { intros f En Er Ep Erd Ea o' Hk'. apply takes_keeps; [done|by intros; eapply Kept_ext|].
    unfold ledger, waiting, handed. by rewrite Ep, Erd, Ea. }
  apply takes_then; [by apply Hm|]. intros Hk1.
  apply takes_then; [by apply takes_node|]. intros Hk2.
  apply takes_then; [by apply Hm|]. intros Hk3.
  unfold bind at 1, get at 1. destruct (active_peer_response_ _); [|by apply Hm].
  apply takes_then; [by apply Hm|]. intros Hk4. by apply Hm.
Qed.

Lemma process_takes w o :
  Kept o -> Room (node_ o) -> admitted w -> NoDup (promises w ++ ledger o) ->
  takes (promises w) o (process config w o).
Proof.
  intros Hk HR Ha Hd. destruct w as [c p|key p d|envelope p|from m]; cbn [process promises admitted app] in *.
  - apply NoDup_cons in Hd as [Hp _]. by apply process_proposal_takes.
  - apply NoDup_cons in Hd as [Hp _]. by apply process_read_takes.
  - by apply process_peer_request_takes.
  - by apply takes_node.
Qed.

Lemma timers_takes o : Kept o -> Room (node_ o) -> takes [] o (timers config o).
Proof.
  intros Hk0 HR. unfold timers. destruct (now_keeps o) as (v & t & E).
  unfold bind at 1. rewrite E. unfold bind at 1, get at 1.
  apply (takes_ext _ (with_env v o)); [|done]. assert (Kept (with_env v o)) as Hk by by eapply Kept_ext.
  apply takes_then.
  - destruct (_ <=? _); [|by split]. cbn [when]. apply takes_then; [by apply takes_node|].
    intros Hk1. apply takes_keeps; [done|by intros; eapply Kept_ext|done].
  - intros [HI [Pr Pi Pk Po]]. destruct (expire_pending_reads_ok t _ Po) as (o' & -> & L & D & a & m & ->).
    split; [done|]. intros _. constructor; [done|]. osimpl. constructor; [done| | |by rewrite L].
    + intros Hl. destruct (Pi Hl) as [E1 E2]. split; [done|]. osimpl.
      rewrite E2, dom_empty_L in D. by apply dom_empty_inv_L.
    + intros Hl Hf i [Hi|Hi]; apply (Pk Hl Hf); [by left|right]. osimpl.
      rewrite <- elem_of_dom, <- D. by apply elem_of_dom.
Qed.

Lemma adopt_snapshot_takes r o : Kept o -> Room (node_ o) -> takes [] o (adopt_snapshot config r o).
Proof.
  intros Hk HR. apply takes_then; [apply takes_keeps; [done|by intros; eapply Kept_ext|done]|]. intros Hk1.
  destruct r as [completed|x]; [|by split].
  unfold bind at 1, get at 1. destruct (_ <=? _); [by split|].
  apply takes_then; [by apply takes_node|]. intros Hk2.
  apply takes_then; [apply takes_keeps; [done|by intros; eapply Kept_ext|done]|]. intros Hk3.
  unfold bind at 1, get at 1. cbv zeta. destruct (_ <? _); [|by split].
  destruct (list_find _ _) as [[k entry]|]; [|by split].
  match goal with |- takes _ ?o2 _ => destruct (maybe_start_snapshot_keeps (le_index entry) (le_term entry) o2) as [j ->] end.
  split; [done|]. intros _. cbn [fst]. by eapply Kept_ext.
Qed.

Lemma poll_takes o : Kept o -> Room (node_ o) -> takes [] o (poll_snapshot_creation config o).
Proof.
  intros Hk HR. unfold poll_snapshot_creation. unfold bind at 1, get at 1.
  destruct (snapshot_future_ o) as [job|]; [|by split].
  assert (exists e r, poll_job o = (with_env e o, Ok r)) as (e & r & E).
  { unfold poll_job. destruct (job_progress (env o)); [|by eexists _, _]. exists (env o). eexists. by destruct o. }
  unfold bind at 1. rewrite E. apply (takes_ext _ (with_env e o)); [|done].
  assert (Kept (with_env e o)) as Hke by by eapply Kept_ext.
  destruct r; [by split|by apply adopt_snapshot_takes..].
Qed.

(** ** The loop *)

(** The work of a round, between the timers and the snapshots. *)
Definition serve (work : option Work) : M Owner unit :=
  match work with None => ret tt | Some w => process config w end.

(** The node stays below the 64-bit limits throughout a round. *)
Definition roomy (work : option Work) (o : Owner) : Prop :=
  Room (node_ o) /\ Room (node_ (timers config o).1) /\
  Room (node_ (serve work (timers config o).1).1).

Definition carried (work : option Work) : list nat := from_option promises [] work.

(** The promises a round takes: those of its work, unless it ends before. *)
Definition taken (work : option Work) (o : Owner) : list nat :=
  match (timers config o).2 with Ok _ => carried work | Throw _ => [] end.

Lemma round_takes work o :
  Kept o -> roomy work o -> from_option admitted True work -> NoDup (carried work ++ ledger o) ->
  takes (taken work o) o (round config work o).
Proof.
  intros Hk (HR & HR1 & HR2) Ha Hd. destruct (timers_takes o Hk HR) as [L1 K1]. unfold round, taken.
  change (match work with None => ret tt | Some w => process config w end) with (serve work).
  unfold bind at 1. destruct (timers config o) as [o1 [[]|x]]; cbn [fst snd] in *; [|by split].
  specialize (K1 eq_refl). apply (takes_ext _ o1); [|by rewrite L1].
  assert (takes (carried work) o1 (serve work o1)) as [L2 K2].
  { destruct work as [w|]; cbn [serve carried from_option]; [|by split].
    apply process_takes; [done|done|done|by rewrite L1]. }
  apply (takes_bind (carried work) []); [done| |done]. intros [] E. apply poll_takes; [by apply K2|done].
Qed.

(** A round keeps the loop going or ends it with everyone answered. *)
Lemma guarded_round_spec work o :
  Kept o -> roomy work o -> from_option admitted True work -> NoDup (carried work ++ ledger o) ->
  exists o' more, guarded_round config work o = (o', Ok more) /\ ledger o' ≡ₚ taken work o ++ ledger o /\
    (more = true -> Kept o' /\ taken work o = carried work) /\ (more = false -> failed_ o' = true /\ waiting o' = []).
Proof.
  intros Hk HR Ha Hd. destruct (round_takes work o Hk HR Ha Hd) as [L K]. unfold guarded_round.
  destruct (round config work o) as [o1 [[]|x]] eqn:E; cbn [fst snd] in *.
  - exists o1, true. split_and!; [done..| |done]. intros _. split; [by apply K|].
    revert E. unfold round, taken, bind at 1. destruct (timers config o) as [o2 [[]|x]]; [done|]. intros [=].
  - assert (NoDup (ledger o1)) as Hd1.
    { rewrite L. unfold taken. destruct (timers config o).2; [done|]. by apply NoDup_app in Hd as (_ & _ & ?). }
    destruct (fail_pending_spec cs_failed o1 Hd1) as (o2 & E2 & L2 & a & ->).
    eexists _, false. unfold bind. rewrite E2. split_and!; [reflexivity| |done|done].
    rewrite <- L, <- L2. done.
Qed.

(** What an action does to the state machine. *)
Definition mirror (a : Action) : M ReplicatedStateMachine unit :=
  match a with
  | ApplyEntry e =>
      match le_kind e with
      | command => apply_command (le_command e) ;; ret tt
      | no_op => ret tt
      end
  | ApplySnapshot d =>
      match dr_value (decode_snapshot_state (sm_state_machine d)) with
      | None => throw runtime_error
      | Some state => restore state
      end
  | _ => ret tt
  end.

(** ** What leads to an answer *)

(** What does not depend on the clients. *)
Definition core (o : Owner) := (node_ o, state_machine_ o, snapshot_future_ o, last_snapshot_index_ o).

Lemma core_node o o' : core o' = core o -> node_ o' = node_ o.
Proof. intros E. exact (f_equal (fun c => c.1.1.1) E). Qed.

Lemma core_machine o o' : core o' = core o -> state_machine_ o' = state_machine_ o.
Proof. intros E. exact (f_equal (fun c => c.1.1.2) E). Qed.

(** From [o] to [o'] clients were only answered, and as [P] says. *)
Record Answers (P : nat -> ClientResult -> Prop) (o o' : Owner) : Prop := {
  an_core : core o' = core o;
  an_pending : pending_ o' ⊆ pending_ o;
  an_reads : pending_reads_ o' ⊆ pending_reads_ o;
  an_new : forall p x, (p, x) ∈ answers o' -> (p, x) ∈ answers o \/ P p x;
}.

#[local] Instance Answers_preorder P : PreOrder (Answers P).
Proof.
  split; [intros o; by constructor; auto|]. intros o1 o2 o3 [C1 P1 R1 N1] [C2 P2 R2 N2].
  constructor; [congruence|by etransitivity..|]. intros p x [Hx|]%N2; auto.
Qed.

Lemma set_value_answers P p x : P p x -> within (Answers P) (set_value p x).
Proof.
  intros HP o. unfold set_value, bind, get. case_bool_decide; [apply reflexivity|].
  constructor; [done..|]. intros q y. cbn [fst modify]. osimpl.
  rewrite elem_of_app, list_elem_of_singleton. intros [|[= -> ->]]; auto.
Qed.

Lemma now_answers P : within (Answers P) now.
Proof. intros o. destruct (now_keeps o) as (e & t & ->). by constructor; auto. Qed.

Lemma close_mutation_answers P i : within (Answers P) (modify (fun o => with_pending (delete i (pending_ o)) o)).
Proof. intros o. constructor; auto. cbn [fst modify]. osimpl. apply delete_subseteq. Qed.

Lemma close_reads_answers P i :
  within (Answers P) (modify (fun o => with_pending_reads (delete i (pending_reads_ o)) o)).
Proof. intros o. constructor; auto. cbn [fst modify]. osimpl. apply delete_subseteq. Qed.

Lemma fail_pending_answers P status :
  (forall p, P p (status_result status)) -> within (Answers P) (fail_pending status).
Proof.
  intros HP. apply within_bind; [apply _|apply within_get, _|]. intros o.
  apply within_bind; [apply _|apply within_for_each; [apply _|]; intros x _; by apply set_value_answers|]. intros _.
  apply within_bind; [apply _|intros o1; constructor; auto; apply map_empty_subseteq|]. intros _.
  apply within_bind; [apply _|apply within_get, _|]. intros o1.
  apply within_bind; [apply _| |intros _ o2; constructor; auto; apply map_empty_subseteq].
  apply within_for_each; [apply _|]. intros x _. apply within_for_each; [apply _|].
  intros y _. by apply set_value_answers.
Qed.

(** An answer that reports no success. *)
Definition unsuccessful (_ : nat) (x : ClientResult) : Prop := cr_status x <> cs_ok.

Lemma rejected_unsuccessful o p : unsuccessful p (rejected_result config o).
Proof. unfold unsuccessful, rejected_result. cbn. by case_bool_decide. Qed.

(** A success earned by the entry [e] when it is applied to the machine [m]: of
    the mutation that waits for [e] in [o] and is what [e] carries, or of a read
    that waits for [e], with the value its key has. *)
Definition earned (o : Owner) (m : ReplicatedStateMachine) (e : LogEntry) (p : nat) (x : ClientResult) : Prop :=
  (le_kind e = command /\
   pending_ o !! le_index e = Some {| pm_command := le_command e; pm_completion := p |} /\
   exists m' r, apply_command (le_command e) m = (m', Ok r) /\
     (ar_status r = applied \/ ar_status r = duplicate) /\ cr_value x = ar_response r) \/
  (le_kind e = no_op /\
   exists reads read, pending_reads_ o !! le_index e = Some reads /\ read ∈ reads /\
     pr_completion read = p /\ find m (pr_key read) = Some (cr_value x)).

Lemma earned_before o o' m e p x :
  pending_ o' ⊆ pending_ o -> pending_reads_ o' ⊆ pending_reads_ o -> earned o' m e p x -> earned o m e p x.
Proof.
  intros P R [(Hk & Hp & Hr)|(Hk & rs & rd & Hi & Hx)].
  - left. split_and!; [done|by eapply lookup_weaken|done].
  - right. split; [done|]. exists rs, rd. split; [by eapply lookup_weaken|done].
Qed.

Lemma answer_reads_answers P time rs o :
  (forall rd, rd ∈ rs -> P (pr_completion rd) (status_result cs_retry)) ->
  (forall rd, rd ∈ rs -> P (pr_completion rd)
    match find (state_machine_ o) (pr_key rd) with
    | None => status_result cs_not_found
    | Some value => {| cr_status := cs_ok; cr_value := value; cr_leader_endpoint := [] |}
    end) ->
  Answers P o (answer_reads time rs o).1.
Proof.
  revert o. induction rs as [|rd rs IH]; intros o H1 H2; [apply reflexivity|]. cbn [answer_reads].
  unfold bind at 1, get at 1. match goal with |- context [set_value _ ?r] => set (v := r) end.
  assert (P (pr_completion rd) v) as Hv.
  { unfold v. destruct (_ || _); [apply H1|apply H2]; by left. }
  pose proof (set_value_answers P _ _ Hv o) as HA. unfold bind.
  destruct (set_value _ v o) as [o1 [[]|x]]; [|done]. etransitivity; [exact HA|].
  assert (state_machine_ o1 = state_machine_ o) as Em by exact (core_machine _ _ (an_core _ _ _ HA)).
  apply IH; [|rewrite Em]; intros r Hr; [apply H1|apply H2]; by right.
Qed.

(** Where an answer set by the action [a] comes from. *)
Definition reason (a : Action) (o : Owner) (p : nat) (x : ClientResult) : Prop :=
  unsuccessful p x \/ exists e, a = ApplyEntry e /\ earned o (state_machine_ o) e p x.

(** The effect of an action apart from the promises. *)
Record Acted (a : Action) (o : Owner) (res : Owner * result unit) : Prop := {
  ac_node : node_ res.1 = node_ o;
  ac_pending : pending_ res.1 ⊆ pending_ o;
  ac_reads : pending_reads_ res.1 ⊆ pending_reads_ o;
  ac_new : forall p x, (p, x) ∈ answers res.1 -> (p, x) ∈ answers o \/ reason a o p x;
  ac_machine : res.2 = Ok tt -> mirror a (state_machine_ o) = (state_machine_ res.1, Ok tt);
  ac_job : snapshot_future_ res.1 = snapshot_future_ o \/
    exists e, a = ApplyEntry e /\ snapshot_future_ res.1 =
      Some {| j_index := le_index e; j_term := le_term e; j_state := snapshot (state_machine_ res.1) |};
}.

(** An action that answers without touching the core. *)
Lemma Acted_answers a o o1 (res : Owner * result unit) :
  node_ o1 = node_ o -> pending_ o1 = pending_ o -> pending_reads_ o1 = pending_reads_ o ->
  answers o1 = answers o -> snapshot_future_ o1 = snapshot_future_ o ->
  (res.2 = Ok tt -> mirror a (state_machine_ o) = (state_machine_ o1, Ok tt)) ->
  Answers (reason a o) o1 res.1 -> Acted a o res.
Proof.
  intros En Ep Er Ea Ej Em [C P R N]. unfold core in C.
  pose proof (f_equal (fun c => c.1.1.1) C) as C1. pose proof (f_equal (fun c => c.1.1.2) C) as C2.
  pose proof (f_equal (fun c => c.1.2) C) as C3. cbn in C1, C2, C3.
  constructor; rewrite ?C1, ?C2, ?C3, <- ?En, <- ?Ep, <- ?Er, <- ?Ea, <- ?Ej; auto.
Qed.

Lemma apply_entry_acted e o : Acted (ApplyEntry e) o (apply_entry e o).
Proof.
  unfold apply_entry. destruct (le_kind e) eqn:Ek.
  - unfold on_machine, lift. unfold bind at 1.
    destruct (apply_command (le_command e) (state_machine_ o)) as [k [r|x]] eqn:Ea.
    2:{ apply (Acted_answers _ _ (with_state_machine k o)); done. }
    unfold bind at 1, get at 1. osimpl. destruct (pending_ o !! le_index e) as [pm|] eqn:Hi.
    + apply (Acted_answers _ _ (with_state_machine k o)); try done.
      * intros _. cbn [mirror]. rewrite Ek. unfold bind. by rewrite Ea.
      * apply (within_bind (Answers (reason (ApplyEntry e) o)) (set_value _ _));
          [|intros _; apply close_mutation_answers]. apply set_value_answers.
        case_bool_decide as Hc; cbn [negb]; [|by left].
        assert ((ar_status r = applied \/ ar_status r = duplicate) \/ apply_status (ar_status r) <> cs_ok)
          as [Hs|Hs] by (destruct (ar_status r); auto; by right); [|by left].
        right. exists e. split; [done|]. left. split_and!; [done| |].
        -- rewrite Hi. destruct pm as [c q]. cbn in *. by rewrite Hc.
        -- by exists k, r.
    + apply (Acted_answers _ _ (with_state_machine k o)); try done.
      intros _. cbn [mirror]. rewrite Ek. unfold bind. by rewrite Ea.
  - unfold bind at 1, get at 1. destruct (pending_reads_ o !! le_index e) as [rs|] eqn:Hi.
    2:{ apply (Acted_answers _ _ o); try done. intros _. cbn [mirror]. by rewrite Ek. }
    destruct (now_keeps o) as (v & t & E). unfold bind at 1. rewrite E.
    apply (Acted_answers _ _ (with_env v o)); try done. { intros _. cbn [mirror]. by rewrite Ek. }
    assert (Answers (reason (ApplyEntry e) o) (with_env v o) (answer_reads t rs (with_env v o)).1) as HA.
    { apply answer_reads_answers; intros rd Hr; [by left|]. osimpl.
      destruct (find _ _) as [val|] eqn:Ef; [|by left]. right. exists e. split; [done|].
      right. split; [done|]. by exists rs, rd. }
    unfold bind. destruct (answer_reads t rs (with_env v o)) as [o1 [[]|x]]; [|exact HA].
    etransitivity; [exact HA|apply close_reads_answers].
Qed.

Lemma rejected_acted id o : Acted (ProposalRejected id) o (on_action config (ProposalRejected id) o).
Proof.
  assert (forall m : M Owner unit, within (Answers (reason (ProposalRejected id) o)) m ->
    Acted (ProposalRejected id) o (m o)) as Hm.
  { intros m Hm. by apply (Acted_answers _ _ o). }
  cbn [on_action]. unfold bind at 1, get at 1.
  destruct (active_proposal_index_ o) as [i|]; [|destruct (active_read_barrier_index_ o) as [i|]].
  - destruct (pending_ o !! i) as [pm|]; apply Hm; [|by apply within_ret, _].
    apply within_bind; [apply _|apply set_value_answers|intros _; apply close_mutation_answers].
    left. apply (rejected_unsuccessful o (pm_completion pm)).
  - destruct (pending_reads_ o !! i) as [rs|]; apply Hm; [|by apply within_ret, _].
    apply within_bind; [apply _|apply within_for_each; [apply _|]|intros _; apply close_reads_answers].
    intros rd _. apply set_value_answers. left. apply (rejected_unsuccessful o (pr_completion rd)).
  - apply Hm, within_ret, _.
Qed.

Lemma fail_acted a (o o1 : Owner) :
  node_ o1 = node_ o -> pending_ o1 = pending_ o -> pending_reads_ o1 = pending_reads_ o ->
  answers o1 = answers o -> snapshot_future_ o1 = snapshot_future_ o ->
  mirror a (state_machine_ o) = (state_machine_ o1, Ok tt) -> Acted a o (fail_pending cs_retry o1).
Proof.
  intros. apply (Acted_answers _ _ o1); try done. apply fail_pending_answers. intros p. by left.
Qed.

Lemma on_action_acted a o : Acted a o (on_action config a o).
Proof.
  assert (forall o1 r, node_ o1 = node_ o -> pending_ o1 = pending_ o -> pending_reads_ o1 = pending_reads_ o ->
    answers o1 = answers o -> snapshot_future_ o1 = snapshot_future_ o ->
    (r = Ok tt -> mirror a (state_machine_ o) = (state_machine_ o1, Ok tt)) -> Acted a o (o1, r)) as Hsame.
  { intros o1 r. intros. by apply (Acted_answers _ _ o1). }
  destruct a as [to m|t v|i es|d|from to t id|i j|e|d|id]; try by apply Hsame.
  - cbn [on_action]. unfold bind, get. destruct (_ && _); [by apply Hsame|].
    by destruct (is_request_message m); apply Hsame.
  - cbn [on_action]. unfold bind at 1, get at 1, bind at 1, modify at 1.
    destruct (_ && _); cbn [when]; [by apply fail_acted|by apply Hsame].
  - cbn [on_action]. pose proof (apply_entry_acted e o) as [N P R A M J]. unfold bind.
    destruct (apply_entry e o) as [o1 [[]|x]]; [|by constructor].
    unfold maybe_start_snapshot, bind, get. destruct (_ || _); [by constructor|].
    constructor; try done. cbn [fst]. right. by exists e.
  - cbn [on_action]. unfold install_state. unfold bind at 1.
    destruct (dr_value (decode_snapshot_state (sm_state_machine d))) as [state|] eqn:Ed; [|by apply Hsame].
    unfold on_machine, lift. destruct (restore state (state_machine_ o)) as [k [[]|x]] eqn:Er; [|by apply Hsame].
    unfold bind at 1, modify at 1. apply fail_acted; try done. cbn [mirror]. by rewrite Ed.
  - apply rejected_acted.
Qed.

(** Publishing a list of actions: the machine follows them. *)
Lemma publish_machine l o o' :
  for_each l (on_action config) o = (o', Ok tt) ->
  for_each l mirror (state_machine_ o) = (state_machine_ o', Ok tt) /\ node_ o' = node_ o /\
  pending_ o' ⊆ pending_ o /\ pending_reads_ o' ⊆ pending_reads_ o.
Proof.
  revert o. induction l as [|a l IH]; intros o E; cbn [for_each] in *.
  { injection E as <-. by split_and!. }
  unfold bind in E |- *. destruct (on_action_acted a o) as [N P R _ M _].
  destruct (on_action config a o) as [o1 [[]|x]]; [|done]. cbn [fst snd] in *.
  rewrite (M eq_refl). destruct (IH o1 E) as (E2 & N2 & P2 & R2).
  split_and!; [done|congruence|by etransitivity..].
Qed.

(** The action at which an answer was set. *)
Lemma publish_new l o p x :
  (p, x) ∈ answers (for_each l (on_action config) o).1 -> (p, x) ∉ answers o ->
  exists pre a post o1, l = pre ++ a :: post /\ for_each pre (on_action config) o = (o1, Ok tt) /\ reason a o1 p x.
Proof.
  revert o. induction l as [|a l IH]; intros o Hin Hno; cbn [for_each] in *; [done|].
  unfold bind in Hin. pose proof (ac_new _ _ _ (on_action_acted a o) p x) as Hnew.
  destruct (on_action config a o) as [o1 r] eqn:E. cbn [fst snd] in *.
  destruct (decide ((p, x) ∈ answers o1)) as [Hx|Hx].
  - exists [], a, l, o. split_and!; [done..|]. by destruct (Hnew Hx).
  - destruct r as [[]|e]; [|done]. destruct (IH o1 Hin Hx) as (pre & b & post & o2 & -> & E2 & Hr).
    exists (a :: pre), b, post, o2. split_and!; [done| |done]. cbn [for_each]. unfold bind. by rewrite E.
Qed.

Lemma publish_node l o : node_ (for_each l (on_action config) o).1 = node_ o.
Proof.
  revert o. induction l as [|a l IH]; intros o; [done|]. cbn [for_each]. unfold bind.
  pose proof (ac_node _ _ _ (on_action_acted a o)) as N.
  destruct (on_action config a o) as [o1 [[]|x]]; [by rewrite IH|done].
Qed.

End Safety.
