(* ===== verification/ClusterMirror.v ===== *)
(** * The state machine mirrors the committed log

    Through applied entries, installed snapshots and compactions, the state
    machine of a cluster node stays what its durable snapshot and the entries
    committed after it give. *)

From S2P Require Import Prelude Wire Protocol RaftTypes RaftFormat RaftNode RaftInvariant RaftStep RaftHandlers.
From S2P Require Import RaftSafety RaftImages Fs PersistedSafety ClusterCodecs StateMachine SnapshotCodec ClusterNode ClusterSafety.
Import ClusterCodecs StateMachine SnapshotCodec ClusterNode.

(** ** Segments of a log *)

(** The entries behind the sentinel, up to index [i]. *)
Definition segment (l : list LogEntry) (i : LogIndex) : list LogEntry :=
  take (Z.to_nat (i - base_of l)) (drop 1 l).

Lemma segment_base l : segment l (base_of l) = [].
Proof. unfold segment. by rewrite Z.sub_diag. Qed.

Lemma segment_snoc l i e :
  base_of l <= i -> log_at l (i + 1) = Some e -> segment l (i + 1) = segment l i ++ [e].
Proof.
  intros Hi He. unfold log_at in He. rewrite (proj2 (Z.ltb_ge _ _)) in He by lia. unfold segment.
  replace (Z.to_nat (i + 1 - base_of l)) with (S (Z.to_nat (i - base_of l))) in * by lia.
  apply take_S_r. by rewrite lookup_drop.
Qed.

Lemma segment_agree l l' n i :
  base_of l' = base_of l -> agree_upto n l l' -> i <= n -> segment l' i = segment l i.
Proof.
  intros Hb Ha Hi. unfold segment. rewrite Hb. apply list_eq. intros k.
  destruct (decide (k < Z.to_nat (i - base_of l))%nat) as [Hk|Hk].
  2:{ rewrite !lookup_ge_None_2; [done|rewrite length_take; lia..]. }
  rewrite !lookup_take_lt, !lookup_drop by done.
  destruct (Ha (base_of l + Z.of_nat (1 + k))) as [_ He]; [lia|].
  specialize (He ltac:(lia)). unfold log_at in He. rewrite Hb, (proj2 (Z.ltb_ge _ _)) in He by lia.
  by replace (Z.to_nat (base_of l + Z.of_nat (1 + k) - base_of l)) with (1 + k)%nat in He by lia.
Qed.

(** A log cut at [b]. *)
Lemma segment_cut l l' b i :
  base_of l <= b <= i -> base_of l' = b -> drop 1 l' = drop (Z.to_nat (b - base_of l + 1)) l ->
  segment l i = segment l b ++ segment l' i.
Proof.
  intros Hb Hb' Hd. unfold segment. rewrite Hb', Hd.
  replace (Z.to_nat (b - base_of l + 1)) with (1 + Z.to_nat (b - base_of l))%nat by lia.
  rewrite <- drop_drop. replace (Z.to_nat (i - base_of l))
    with (Z.to_nat (b - base_of l) + Z.to_nat (i - b))%nat by lia.
  symmetry. apply take_take_drop.
Qed.

Section Mirror.
Context {RNG : UniformRandom} `{UnorderedMap} (config : ClusterNodeConfig).

(** ** Replaying *)

Definition replay_entries (es : list LogEntry) : M ReplicatedStateMachine unit :=
  for_each es (fun e => mirror (ApplyEntry e)).

Lemma for_each_app {S A} (l k : list A) (f : A -> M S unit) s s' :
  for_each l f s = (s', Ok tt) -> for_each (l ++ k) f s = for_each k f s'.
Proof.
  revert s. induction l as [|x l IH]; intros s; cbn [for_each app]; [by intros [= <-]|].
  unfold bind. destruct (f x s) as [s1 [[]|]]; [|done]. apply IH.
Qed.

Lemma for_each_split {S A} (l k : list A) (f : A -> M S unit) s s' :
  for_each (l ++ k) f s = (s', Ok tt) ->
  exists s1, for_each l f s = (s1, Ok tt) /\ for_each k f s1 = (s', Ok tt).
Proof.
  revert s. induction l as [|x l IH]; intros s; cbn [for_each app]; [by exists s|].
  unfold bind. destruct (f x s) as [s1 [[]|]]; [|done]. apply IH.
Qed.

(** The machine that a node starts from: a fresh one, or its snapshot restored. *)
Definition based (init : ReplicatedStateMachine) (s : Impl) (m : ReplicatedStateMachine) : Prop :=
  match n_durable_snapshot s with
  | None => m = init
  | Some d => mirror (ApplySnapshot d) init = (m, Ok tt)
  end.

(** The machine that the snapshot of [s] and its log up to [i] give. *)
Definition replayed (init : ReplicatedStateMachine) (s : Impl) (i : LogIndex) (m : ReplicatedStateMachine) : Prop :=
  exists m0, based init s m0 /\ replay_entries (segment (n_log s) i) m0 = (m, Ok tt).

Lemma mirror_sound a m m' :
  StateMachine.Inv m -> mirror a m = (m', Ok tt) -> StateMachine.Inv m' /\ same_limits m m'.
Proof.
  intros HI. destruct a; cbn [mirror]; try (by intros [= <-]).
  - destruct (le_kind entry); [|by intros [= <-]]. unfold bind, apply_command, throw.
    destruct (dr_value _) as [c|] eqn:Ed; [|done]. apply decode_command_sound in Ed as [Hv ->].
    destruct (apply_spec m c HI Hv) as (m1 & r & E & HI1 & _). rewrite E. intros [= <-]. split; [done|].
    pose proof (apply_limits c (command_bytes c) m) as Hl. by rewrite E in Hl.
  - destruct (dr_value _) as [st|]; [|done]. unfold restore, bind, get, throw.
    pose proof (validate_snapshot_inv st (max_clients_ m) (max_dedup_bytes_ m)) as Hv.
    destruct (validate_snapshot_state _ _ _) as [n|]; [|done].
    destruct Hv as [Hok ->]; [destruct (inv_bytes _ HI); lia|]. intros [= <-]. split; [|done].
    destruct HI as [H1 H2 _ _]. constructor; cbn; try done. by destruct st.
Qed.

Lemma replay_sound es m m' :
  StateMachine.Inv m -> replay_entries es m = (m', Ok tt) -> StateMachine.Inv m' /\ same_limits m m'.
Proof.
  revert m. induction es as [|e es IH]; intros m HI; cbn [replay_entries for_each]; [by intros [= <-]|].
  unfold bind. destruct (mirror (ApplyEntry e) m) as [m1 [[]|]] eqn:E; [|done].
  destruct (mirror_sound _ _ _ HI E) as [HI1 [L1 L2]]. intros E2. destruct (IH m1 HI1 E2) as [HI2 [L3 L4]].
  split; [done|]. split; congruence.
Qed.

Lemma replayed_sound init s i m :
  StateMachine.Inv init -> replayed init s i m -> StateMachine.Inv m /\ same_limits init m.
Proof.
  intros HI (m0 & Hb & E). assert (StateMachine.Inv m0 /\ same_limits init m0) as [HI0 [L1 L2]].
  { unfold based in Hb. destruct (n_durable_snapshot s); [by eapply mirror_sound|by subst]. }
  destruct (replay_sound _ _ _ HI0 E) as [HI1 [L3 L4]]. split; [done|]. split; congruence.
Qed.

(** Restoring forgets the machine, but for its limits. *)
Lemma restore_forgets d init m m' :
  same_limits init m -> mirror (ApplySnapshot d) m = (m', Ok tt) -> mirror (ApplySnapshot d) init = (m', Ok tt).
Proof.
  intros [L1 L2]. cbn [mirror]. destruct (dr_value _) as [st|]; [|done]. unfold restore, bind, get.
  rewrite L1, L2. destruct (validate_snapshot_state _ _ _); [|done]. intros [= <-]. unfold modify. by rewrite L1, L2.
Qed.

(** ** While actions are published *)

Definition installs (rest : Actions) : Prop := exists d, ApplySnapshot d ∈ rest.

(** A snapshot job: overtaken by the node's snapshot, or a copy of the machine at
    an entry of the log. *)
Definition job_ok (init : ReplicatedStateMachine) (s : Impl) (j : SnapshotJob) : Prop :=
  base_index s < j_index j ->
  term_at (n_log s) (j_index j) = Some (j_term j) /\
  exists m, replayed init s (j_index j) m /\ j_state j = snapshot m.

(** The owner with the actions [rest] still to be published, and the entries up
    to [a] applied. *)
Record Mirroring (init : ReplicatedStateMachine) (rest : Actions) (a : LogIndex) (o : Owner) : Prop := {
  mi_observe : observe a rest = Some (n_last_applied (node_ o));
  mi_limits : same_limits init (state_machine_ o);
  mi_entries : forall e, ApplyEntry e ∈ rest -> base_index (node_ o) < le_index e ->
    log_at (n_log (node_ o)) (le_index e) = Some e;
  mi_image : exists image, image_of image rest = n_durable_snapshot (node_ o);
  mi_machine : installs rest \/ base_index (node_ o) <= a /\ replayed init (node_ o) a (state_machine_ o);
  mi_job : forall j, snapshot_future_ o = Some j ->
    j_index j <= a /\ (installs rest \/ job_ok init (node_ o) j);
}.

Lemma installs_dec rest : installs rest \/ ~ installs rest.
Proof.
  induction rest as [|a rest [IH|IH]]; [right; by intros [d []%elem_of_nil]|left; destruct IH as [d Hd]; exists d; by right|].
  assert ((exists d, a = ApplySnapshot d) \/ forall d, a <> ApplySnapshot d) as [[d ->]|Ha]
    by (destruct a; try (right; done); left; by eexists).
  - left. exists d. by left.
  - right. intros [d [Hd|Hd]%elem_of_cons]; [by destruct (Ha d)|]. apply IH. by exists d.
Qed.

Lemma image_of_calm image rest : ~ installs rest -> image_of image rest = image.
Proof.
  revert image. induction rest as [|a rest IH]; intros image Hn; [done|]. cbn.
  assert (~ installs rest) as Hr by (intros [d Hd]; apply Hn; exists d; by right).
  destruct a as [| | | | | | |d|]; try by apply IH. destruct Hn. exists d. by left.
Qed.

Lemma not_installs_cons a rest : ~ installs rest -> (forall d, a <> ApplySnapshot d) -> ~ installs (a :: rest).
Proof. intros Hr Ha [d [Hd|Hd]%elem_of_cons]; [by destruct (Ha d)|]. apply Hr. by exists d. Qed.

Lemma base_of_durable s :
  RaftInvariant.Inv s -> base_index s = match n_durable_snapshot s with Some d => sm_last_included_index d | None => 0 end.
Proof. intros HI. pose proof (RaftInvariant.inv_snapshot _ HI) as Hs. destruct (n_durable_snapshot s); [by destruct Hs|done]. Qed.

(** An action that is not about applying. *)
Lemma Mirroring_neutral init act rest a o o' :
  Mirroring init (act :: rest) a o -> on_action config act o = (o', Ok tt) ->
  (forall e, act <> ApplyEntry e) -> (forall d, act <> ApplySnapshot d) -> Mirroring init rest a o'.
Proof.
  intros [Mo Ml Me [im Mi] Mm Mj] E Hne Hns. pose proof (on_action_acted config act o) as [N _ _ _ M J].
  rewrite E in N, M, J. cbn [fst snd] in *. specialize (M eq_refl).
  assert (state_machine_ o' = state_machine_ o) as Em.
  { destruct act as [| | | | | |e|d|]; cbn [mirror] in M; try (by injection M as ->); [by destruct (Hne e)|by destruct (Hns d)]. }
  assert (snapshot_future_ o' = snapshot_future_ o) as Ej by (destruct J as [?|(e & -> & _)]; [done|by destruct (Hne e)]).
  assert (installs (act :: rest) -> installs rest) as Hi.
  { intros [d [Hd|Hd]%elem_of_cons]; [by destruct (Hns d)|by exists d]. }
  constructor; rewrite ?N, ?Em, ?Ej; try done.
  - destruct act as [| | | | | |e|d|]; try done; [by destruct (Hne e)|by destruct (Hns d)].
  - intros e He. apply Me. by right.
  - exists im. destruct act as [| | | | | | |d|]; try done. by destruct (Hns d).
  - destruct Mm as [?|?]; [left; by apply Hi|by right].
  - intros j Hj. destruct (Mj j Hj) as [? [?|?]]; split; try done; [left; by apply Hi|by right].
Qed.

Lemma Mirroring_entry init e rest a o o' :
  StateMachine.Inv init -> Mirroring init (ApplyEntry e :: rest) a o -> on_action config (ApplyEntry e) o = (o', Ok tt) ->
  Mirroring init rest (a + 1) o'.
Proof.
  intros HI [Mo Ml Me [im Mi] Mm Mj] E. pose proof (on_action_acted config (ApplyEntry e) o) as [N _ _ _ M J].
  rewrite E in N, M, J. cbn [fst snd] in *. specialize (M eq_refl). cbn [observe] in Mo.
  destruct (Z.eqb_spec (le_index e) (a + 1)) as [He|]; [|done]. rewrite He in Mo.
  assert (installs (ApplyEntry e :: rest) -> installs rest) as Hi by (intros [d [Hd|Hd]%elem_of_cons]; [done|by exists d]).
  assert (installs rest \/ base_index (node_ o) <= a + 1 /\ replayed init (node_ o) (a + 1) (state_machine_ o') /\
    log_at (n_log (node_ o)) (a + 1) = Some e) as Hm.
  { destruct Mm as [?|(Hb & m0 & Hbase & Hr)]; [left; by apply Hi|right].
    assert (log_at (n_log (node_ o)) (a + 1) = Some e) as Hl by (rewrite <- He; apply Me; [by left|lia]).
    split_and!; [lia| |done]. exists m0. split; [done|]. rewrite base_index_of in Hb.
    rewrite (segment_snoc _ _ e Hb Hl). unfold replay_entries in *. rewrite (for_each_app _ _ _ _ _ Hr).
    cbn [for_each]. unfold bind. by rewrite M. }
  constructor; rewrite ?N; try done.
  - destruct Ml as [L1 L2].
    assert (same_limits (state_machine_ o) (state_machine_ o')) as [L3 L4]; [|split; congruence].
    revert M. cbn [mirror]. destruct (le_kind e); [|by intros [= ->]]. unfold bind, apply_command, throw.
    destruct (dr_value _) as [c|]; [|done]. pose proof (apply_limits c (le_command e) (state_machine_ o)) as Hl.
    destruct (apply c _ _) as [m1 [r|]]; [|done]. by intros [= <-].
  - intros x Hx. apply Me. by right.
  - by exists im.
  - destruct Hm as [?|(? & ? & _)]; [by left|by right].
  - intros j Hj. destruct J as [Ej|(x & [= <-] & Ej)]; rewrite Ej in Hj.
    + destruct (Mj j Hj) as [? Hok]. split; [lia|]. destruct Hok as [?|?]; [left; by apply Hi|by right].
    + injection Hj as <-. cbn [j_index j_term j_state]. split; [lia|].
      destruct Hm as [?|(? & Hr & Hl)]; [by left|right]. intros _. cbn [j_index j_term j_state]. rewrite He. split.
      * unfold term_at. by rewrite Hl.
      * by exists (state_machine_ o').
Qed.

Lemma Mirroring_install init d rest a o o' :
  StateMachine.Inv init -> RaftInvariant.Inv (node_ o) ->
  Mirroring init (ApplySnapshot d :: rest) a o -> on_action config (ApplySnapshot d) o = (o', Ok tt) ->
  Mirroring init rest (sm_last_included_index d) o'.
Proof.
  intros HI HN [Mo Ml Me [im Mi] Mm Mj] E. pose proof (on_action_acted config (ApplySnapshot d) o) as [N _ _ _ M J].
  rewrite E in N, M, J. cbn [fst snd] in *. specialize (M eq_refl). cbn [observe] in Mo.
  destruct (Z.ltb_spec a (sm_last_included_index d)) as [Hd|]; [|done].
  pose proof (restore_forgets _ _ _ _ Ml M) as Mr.
  destruct (mirror_sound _ _ _ HI Mr) as [_ Hl].
  assert (installs rest \/ n_durable_snapshot (node_ o) = Some d /\ base_index (node_ o) = sm_last_included_index d) as Hm.
  { destruct (installs_dec rest) as [?|Hn]; [by left|right]. cbn in Mi. fold (image_of (Some d) rest) in Mi.
    rewrite image_of_calm in Mi by done. split; [done|]. rewrite (base_of_durable _ HN), <- Mi. done. }
  constructor; rewrite ?N; try done.
  - intros x Hx. apply Me. by right.
  - by exists (Some d).
  - destruct Hm as [?|[Hs Hb]]; [by left|right]. split; [lia|]. exists (state_machine_ o'). unfold based. rewrite Hs.
    split; [done|]. by rewrite <- Hb, base_index_of, segment_base.
  - intros j Hj. destruct J as [Ej|(x & [=] & _)]. rewrite Ej in Hj. destruct (Mj j Hj) as [Hle _]. split; [lia|].
    destruct Hm as [?|[Hs Hb]]; [by left|right]. intros Hx. lia.
Qed.

Lemma publish_mirroring init l a o o' :
  StateMachine.Inv init -> RaftInvariant.Inv (node_ o) -> Mirroring init l a o ->
  for_each l (on_action config) o = (o', Ok tt) -> Mirroring init [] (n_last_applied (node_ o')) o'.
Proof.
  intros HI. revert a o. induction l as [|act l IH]; intros a o HN HM; cbn [for_each].
  { intros [= <-]. pose proof (mi_observe _ _ _ _ HM) as Ho. cbn in Ho. injection Ho as <-. done. }
  unfold bind. pose proof (ac_node _ _ _ (on_action_acted config act o)) as N.
  destruct (on_action config act o) as [o1 [[]|]] eqn:E; [|done]. cbn [fst] in N.
  assert (exists a', Mirroring init l a' o1) as [a' HM'].
  { destruct act; try (exists a; by eapply Mirroring_neutral).
    - exists (a + 1). by eapply Mirroring_entry.
    - eexists. by eapply Mirroring_install. }
  apply (IH a'); [by rewrite N|done].
Qed.

(** ** Between operations *)

Record Mirrors (init : ReplicatedStateMachine) (o : Owner) : Prop := {
  ms_node : RaftInvariant.Inv (node_ o);
  ms_machine : replayed init (node_ o) (n_last_applied (node_ o)) (state_machine_ o);
  ms_job : forall j, snapshot_future_ o = Some j ->
    j_index j <= n_last_applied (node_ o) /\ job_ok init (node_ o) j;
}.

Lemma Mirrors_core init o o' :
  Mirrors init o -> node_ o' = node_ o -> state_machine_ o' = state_machine_ o ->
  snapshot_future_ o' = snapshot_future_ o -> Mirrors init o'.
Proof. intros [HN HM HJ] En Em Ej. constructor; by rewrite ?En, ?Em, ?Ej. Qed.

Lemma Mirroring_done init o :
  RaftInvariant.Inv (node_ o) -> Mirroring init [] (n_last_applied (node_ o)) o -> Mirrors init o.
Proof.
  intros HN [_ _ _ _ Mm Mj]. assert (~ installs []) as Hn by (by intros [d Hd%elem_of_nil]).
  constructor; [done| |].
  - by destruct Mm as [?|[_ ?]].
  - intros j Hj. destruct (Mj j Hj) as [? [?|?]]; done.
Qed.

Lemma for_each_published acts o :
  for_each (published acts) (on_action config) o = for_each acts (on_action config) o.
Proof.
  revert o. induction acts as [|a acts IH]; intros o; [done|]. unfold published. rewrite filter_cons.
  fold (published acts). destruct (decide _) as [Ha|Ha]; cbn [for_each].
  - unfold bind. destruct (on_action config a o) as [o1 [[]|]]; [apply IH|done].
  - rewrite IH. by destruct a.
Qed.

(** A log that keeps what is committed, under the same snapshot. *)
Lemma replayed_agree init s s' i m :
  n_durable_snapshot s' = n_durable_snapshot s -> base_index s' = base_index s ->
  agree_upto (n_commit_index s) (n_log s) (n_log s') -> i <= n_commit_index s ->
  replayed init s i m -> replayed init s' i m.
Proof.
  intros Hd Hb Ha Hi (m0 & Hm & Hr). exists m0. rewrite !base_index_of in Hb. unfold based. rewrite Hd.
  split; [done|]. by rewrite (segment_agree _ _ _ _ Hb Ha Hi).
Qed.

Lemma performs_mirroring init op acts s' o :
  StateMachine.Inv init -> Mirrors init o -> performs (perform op) (node_ o) acts s' ->
  (forall d, op <> OpCompact d) -> Mirroring init acts (n_last_applied (node_ o)) (with_node s' o).
Proof.
  intros HI [HN HM HJ] (E & HN' & HS & _) Hop. pose proof (perform_image op _ _ _ Hop E) as Him.
  pose proof (inv_applied _ HN) as Ha. pose proof (inv_commit _ HN) as Hc.
  assert (installs acts \/ n_durable_snapshot s' = n_durable_snapshot (node_ o) /\ base_index s' = base_index (node_ o)) as Hs.
  { destruct (installs_dec acts) as [?|Hn]; [by left|right]. rewrite image_of_calm in Him by done.
    split; [done|]. by rewrite (base_of_durable _ HN), (base_of_durable _ HN'), Him. }
  pose proof (st_committed _ _ _ HS : agree_upto (n_commit_index (node_ o)) (n_log (node_ o)) (n_log s')) as Hag.
  constructor; osimpl.
  - exact (st_observe _ _ _ HS).
  - by destruct (replayed_sound _ _ _ _ HI HM).
  - intros e He Hb. by apply (st_applied _ _ _ HS e He).
  - by eexists.
  - destruct Hs as [?|[Hd Hb]]; [by left|right]. split; [lia|].
    apply (replayed_agree init (node_ o)); [done|done|done|lia|done].
  - intros j Hj. destruct (HJ j Hj) as [Hle Hok]. split; [done|]. destruct Hs as [?|[Hd Hb]]; [by left|right].
    intros Hlt. rewrite Hb in Hlt. destruct (Hok Hlt) as (Ht & m & Hr & Hst).
    rewrite !base_index_of in *. split.
    + rewrite (proj1 (Hag (j_index j) ltac:(lia))). done.
    + exists m. split; [|done]. apply (replayed_agree init (node_ o)); [done|by rewrite !base_index_of|done|lia|done].
Qed.

Lemma run_node_mirrors init op o o' :
  StateMachine.Inv init -> Mirrors init o -> Room (node_ o) -> op_typed op -> (forall d, op <> OpCompact d) ->
  run_node config op o = (o', Ok tt) -> Mirrors init o'.
Proof.
  intros HI HM HR Ht Hop E.
  destruct (perform_cases op (node_ o) (ms_node _ _ HM) HR Ht) as [(acts & s' & Hs)|(e & s' & Es & _)].
  2:{ unfold run_node, bind, lift in E. by rewrite Es in E. }
  pose proof (performs_mirroring init op acts s' o HI HM Hs Hop) as HG. destruct Hs as (Es & HN' & _).
  destruct (store_write_keeps (with_node s' o)) as (v & r & Ew).
  unfold run_node, bind, lift in E. rewrite Es, Ew in E. destruct r as [[]|]; [|done].
  rewrite for_each_published in E.
  assert (Mirroring init acts (n_last_applied (node_ o)) (with_env v (with_node s' o))) as HG' by (by destruct HG).
  pose proof (publish_node config acts (with_env v (with_node s' o))) as N. rewrite E in N. cbn [fst] in N.
  apply Mirroring_done; [by rewrite N|]. exact (publish_mirroring init acts _ (with_env v (with_node s' o)) _ HI HN' HG' E).
Qed.

(** ** Compaction *)

Lemma image_restores init m index term bytes :
  StateMachine.Inv init -> StateMachine.Inv m -> same_limits init m ->
  encode_snapshot_state (snapshot m) = Ok bytes ->
  mirror (ApplySnapshot {| sm_last_included_index := index; sm_last_included_term := term;
                           sm_state_machine := bytes |}) init = (m, Ok tt).
Proof.
  intros HI Hm [L1 L2] E. apply encode_snapshot_inv in E as [He ->]. cbn [mirror sm_state_machine].
  rewrite decode_snapshot_bytes by done. cbn [dr_value decoded].
  pose proof (StateMachine.inv_state _ Hm) as Hs. rewrite L1, L2 in Hs.
  destruct (restore_ok init (snapshot m) HI Hs) as (m2 & -> & HI2 & Hs2 & N1 & N2).
  rewrite (Inv_snapshot_inj m2 m); [done|done|done|congruence|congruence|done].
Qed.

(** A finished job is always acceptable to the node. *)
Lemma job_compactable init o j bytes :
  Mirrors init o -> Room (node_ o) -> j_index j <= n_last_applied (node_ o) -> job_ok init (node_ o) j ->
  base_index (node_ o) < j_index j ->
  compactable (node_ o) {| sm_last_included_index := j_index j; sm_last_included_term := j_term j;
                           sm_state_machine := bytes |}.
Proof.
  intros HM [HR _] Hle Hok Hb. destruct (Hok Hb) as [Ht _]. pose proof (inv_commit _ (ms_node _ _ HM)).
  pose proof (inv_applied _ (ms_node _ _ HM)). split_and!; cbn [sm_last_included_index sm_last_included_term]; [lia..|done].
Qed.

(** Cutting the log at the job gives the same machine. *)
Lemma compacted_replayed init o j bytes d :
  StateMachine.Inv init -> Mirrors init o -> Room (node_ o) ->
  j_index j <= n_last_applied (node_ o) -> job_ok init (node_ o) j -> base_index (node_ o) < j_index j ->
  encode_snapshot_state (j_state j) = Ok bytes ->
  d = {| sm_last_included_index := j_index j; sm_last_included_term := j_term j; sm_state_machine := bytes |} ->
  replayed init (set_actions [] (compacted (node_ o) d)) (n_last_applied (node_ o)) (state_machine_ o).
Proof.
  intros HI HM HR Hle Hok Hb He ->. set (d := {| sm_last_included_index := _ |}).
  pose proof (job_compactable init o j bytes HM HR Hle Hok Hb) as Hc. fold d in Hc.
  destruct (compactable_entry _ _ (ms_node _ _ HM) Hc) as (e & _ & _ & _ & Hu).
  destruct (Hok Hb) as (_ & m & (m0 & Hbase & Hr) & Hst). rewrite Hst in He.
  destruct (replayed_sound init (node_ o) (j_index j) m HI) as [HIm HLm]; [by exists m0|].
  destruct (ms_machine _ _ HM) as (m1 & Hbase1 & Hr1).
  assert (m1 = m0) as ->.
  { unfold based in *. destruct (n_durable_snapshot (node_ o)); congruence. }
  rewrite (segment_cut (n_log (node_ o)) (installed_log (node_ o) d) (j_index j)) in Hr1.
  - unfold replay_entries in *. rewrite (for_each_app _ _ _ _ _ Hr) in Hr1. exists m. split; [|done].
    by apply image_restores.
  - rewrite base_index_of in Hb. lia.
  - done.
  - exact Hu.
Qed.

Lemma adopt_snapshot_mirrors init j progress o o' :
  StateMachine.Inv init -> Mirrors init o -> Room (node_ o) -> snapshot_future_ o = Some j ->
  adopt_snapshot config (job_result j progress) o = (o', Ok tt) -> Mirrors init o'.
Proof.
  intros HI HM HR Hj. destruct (ms_job _ _ HM j Hj) as [Hle Hok]. unfold adopt_snapshot, job_result.
  unfold bind at 1, modify at 1. set (o1 := with_snapshot_future None o).
  assert (Mirrors init o1) as HM1 by (destruct HM; by constructor).
  destruct (encode_snapshot_state (j_state j)) as [bytes|] eqn:He; [|done].
  destruct progress; try done. set (d := {| sm_last_included_index := _ |}).
  unfold bind at 1, get at 1.
  assert (base_of_snapshot (RaftNode_snapshot (node_ o1)) = base_index (node_ o)) as Hbase
    by (symmetry; apply base_of_durable, HM).
  rewrite Hbase. change (sm_last_included_index d) with (j_index j).
  destruct (Z.leb_spec (j_index j) (base_index (node_ o))) as [|Hlt]; [by intros [= <-]|].
  pose proof (compact_performs d (node_ o) (ms_node _ _ HM) (job_compactable init o j bytes HM HR Hle Hok Hlt)) as (Ec & HN' & _).
  pose proof (compacted_replayed init o j bytes d HI HM HR Hle Hok Hlt He eq_refl) as Hrep.
  set (s' := set_actions [] (compacted (node_ o) d)) in *.
  destruct (store_write_keeps (with_node s' o1)) as (v & r & Ew).
  assert (run_node config (OpCompact d) o1 = (with_env v (with_node s' o1), r)) as Er.
  { unfold run_node, bind, lift. cbn [perform]. change (node_ o1) with (node_ o). rewrite Ec, Ew. by destruct r as [[]|]. }
  unfold bind at 1. rewrite Er. destruct r as [[]|]; [|done]. unfold bind at 1, modify at 1, bind at 1, get at 1.
  set (o2 := with_last_snapshot_index _ _). assert (Mirrors init o2) as HM2 by (constructor; try done).
  cbv zeta. destruct (_ <? _); [|by intros [= <-]].
  destruct (list_find _ _) as [[k entry]|] eqn:Ef; [|by intros [= <-]].
  apply list_find_Some in Ef as (Hk & Hidx & _).
  unfold maybe_start_snapshot, bind, get. destruct (_ || _); intros [= <-]; [done|].
  constructor; try done. intros x [= <-]. cbn [j_index]. change (rs_last_applied _) with (n_last_applied s') in Hidx.
  split; [osimpl; rewrite Hidx; done|]. intros Hb. cbn [j_index j_term j_state]. rewrite Hidx in *.
  split; [|by exists (state_machine_ o)].
  change (rs_log _) with (drop 1 (n_log s')) in Hk. rewrite lookup_drop in Hk.
  pose proof (li_index _ _ (inv_log _ HN') _ _ Hk) as Hi. rewrite Hidx in Hi.
  unfold term_at, log_at. osimpl. change (node_ o2) with s'. rewrite (proj2 (Z.ltb_ge _ _)) by lia. rewrite Hi.
  replace (Z.to_nat (base_of (n_log s') + Z.of_nat (1 + k) - base_of (n_log s'))) with (1 + k)%nat by lia.
  by rewrite Hk.
Qed.

(** ** Rounds *)

Definition same_core (o o' : Owner) : Prop := core o' = core o.

#[local] Instance same_core_preorder : PreOrder same_core.
Proof. split; [done|]. intros o1 o2 o3. unfold same_core. congruence. Qed.

Lemma set_value_core p x : within same_core (set_value p x).
Proof. intros o. apply (an_core (fun _ _ => True)), set_value_answers; done. Qed.

Lemma expire_pending_reads_core time : within same_core (expire_pending_reads time).
Proof.
  assert (forall rs, within same_core (expire_reads time rs)) as He.
  { induction rs as [|x rs IH]; cbn [expire_reads]; [apply within_ret, _|].
    apply within_bind; [apply _|apply within_get, _|]. intros o.
    apply within_bind; [apply _|apply within_when; [apply _|apply set_value_core]|]. intros _.
    apply within_bind; [apply _|done|]. intros kept. apply within_ret, _. }
  apply within_bind; [apply _|apply within_get, _|]. intros o. apply within_for_each; [apply _|]. intros x _.
  by apply within_bind; [apply _|apply He|].
Qed.

Lemma Mirrors_within init {A} (m : M Owner A) o :
  within same_core m -> Mirrors init o -> Mirrors init (m o).1.
Proof.
  intros Hm HM. specialize (Hm o). unfold same_core, core in Hm. eapply Mirrors_core; [exact HM|..].
  - exact (f_equal (fun c => c.1.1.1) Hm).
  - exact (f_equal (fun c => c.1.1.2) Hm).
  - exact (f_equal (fun c => c.1.2) Hm).
Qed.

Lemma Mirrors_set_value init p x o o' : Mirrors init o -> set_value p x o = (o', Ok tt) -> Mirrors init o'.
Proof. intros HM E. pose proof (Mirrors_within init _ o (set_value_core p x) HM) as H'. by rewrite E in H'. Qed.

(** The node runs, and then only bookkeeping follows. *)
Lemma run_then_mirrors init op (k : M Owner unit) o o' :
  StateMachine.Inv init -> Mirrors init o -> Room (node_ o) -> op_typed op -> (forall d, op <> OpCompact d) ->
  within same_core k -> (run_node config op ;; k) o = (o', Ok tt) -> Mirrors init o'.
Proof.
  intros HI HM HR Ht Hop Hk. unfold bind. destruct (run_node config op o) as [o1 [[]|]] eqn:E; [|done].
  intros E2. pose proof (Mirrors_within init k o1 Hk (run_node_mirrors init op o o1 HI HM HR Ht Hop E)) as H'.
  by rewrite E2 in H'.
Qed.

Lemma timers_mirrors init o o' :
  StateMachine.Inv init -> Mirrors init o -> Room (node_ o) -> timers config o = (o', Ok tt) -> Mirrors init o'.
Proof.
  intros HI HM HR. unfold timers. destruct (now_keeps o) as (v & t & E). unfold bind at 1. rewrite E.
  unfold bind at 1, get at 1. assert (Mirrors init (with_env v o)) as HMe by by eapply Mirrors_core.
  unfold bind at 1. destruct (_ <=? _); cbn [when].
  - destruct ((run_node _ _ ;; _) _) as [o1 [[]|]] eqn:E1; [|done]. intros E2.
    apply run_then_mirrors with (init := init) in E1; try done.
    pose proof (Mirrors_within init _ o1 (expire_pending_reads_core t) E1) as H'. by rewrite E2 in H'.
  - intros E2. change (expire_pending_reads t (with_env v o) = (o', Ok tt)) in E2.
    pose proof (Mirrors_within init _ _ (expire_pending_reads_core t) HMe) as H'. by rewrite E2 in H'.
Qed.

Lemma process_mirrors init w o o' :
  StateMachine.Inv init -> Mirrors init o -> Room (node_ o) -> admitted w ->
  process config w o = (o', Ok tt) -> Mirrors init o'.
Proof.
  intros HI HM HR Ha. destruct w as [c p|key p deadline|envelope p|from m]; cbn [process admitted] in *.
  - unfold process_proposal. unfold bind at 1, get at 1. cbn [RaftNode_snapshot rs_role].
    case_bool_decide; cbn [negb]; [|by apply Mirrors_set_value]. rewrite encode_command_ok by done.
    unfold bind at 1, modify at 1. apply run_then_mirrors; try done. by eapply Mirrors_core.
  - unfold process_read. destruct (now_keeps o) as (v & t & E). unfold bind at 1. rewrite E.
    unfold bind at 1, get at 1. assert (Mirrors init (with_env v o)) as HMe by by eapply Mirrors_core.
    destruct (_ || _); [by apply Mirrors_set_value|]. cbn [RaftNode_snapshot rs_role].
    case_bool_decide; cbn [negb]; [|by apply Mirrors_set_value].
    destruct (_ <=? _); [by apply Mirrors_set_value|].
    unfold bind at 1, modify at 1. apply run_then_mirrors; try done. by eapply Mirrors_core.
  - unfold process_peer_request. unfold bind at 1, modify at 1. apply run_then_mirrors; try done.
    + by eapply Mirrors_core.
    + apply within_bind; [apply _|done|]. intros _. apply within_bind; [apply _|done|]. intros o1.
      by destruct (active_peer_response_ o1).
  - by apply run_node_mirrors.
Qed.

Lemma poll_mirrors init o o' :
  StateMachine.Inv init -> Mirrors init o -> Room (node_ o) ->
  poll_snapshot_creation config o = (o', Ok tt) -> Mirrors init o'.
Proof.
  intros HI HM HR. unfold poll_snapshot_creation. unfold bind at 1, get at 1.
  destruct (snapshot_future_ o) as [job|] eqn:Ej; [|by intros [= <-]].
  assert (exists e r, poll_job o = (with_env e o, Ok r)) as (e & r & E).
  { unfold poll_job. destruct (job_progress (env o)); [|by eexists _, _]. exists (env o). eexists. by destruct o. }
  unfold bind at 1. rewrite E. assert (Mirrors init (with_env e o)) as HMe by by eapply Mirrors_core.
  destruct r; [by intros [= <-]|by apply adopt_snapshot_mirrors..].
Qed.

Lemma guarded_round_mirrors init work o o' :
  StateMachine.Inv init -> Mirrors init o -> roomy config work o -> from_option admitted True work ->
  guarded_round config work o = (o', Ok true) -> Mirrors init o'.
Proof.
  intros HI HM (HR & HR1 & HR2) Ha. unfold guarded_round.
  destruct (round config work o) as [o3 [[]|x]] eqn:E.
  2:{ unfold bind. destruct (fail_pending _ o3) as [o4 [[]|]]; done. }
  intros [= <-]. unfold round in E. change (match work with None => ret tt | Some w => process config w end)
    with (serve config work) in E. unfold bind in E.
  destruct (timers config o) as [o1 [[]|]] eqn:E1; [|done]. cbn [fst] in *.
  destruct (serve config work o1) as [o2 [[]|]] eqn:E2; [|done]. cbn [fst] in *.
  apply poll_mirrors with (init := init) in E; try done.
  apply timers_mirrors with (init := init) in E1; try done.
  destruct work as [w|]; cbn [serve from_option] in *; [by apply (process_mirrors init w o1)|by injection E2 as <-].
Qed.

End Mirror.
