(* ===== verification/OwnerTheorems.v ===== *)
(** * What a cluster node promises to its clients

    Theorems about the owner thread of [ClusterNode.v]: who is answered, when,
    and with what. *)

From stdpp Require Import gmultiset.
From S2P Require Import Prelude Wire Protocol RaftTypes RaftFormat RaftNode RaftInvariant RaftStep RaftHandlers.
From S2P Require Import RaftSafety Fs PersistedSafety ClusterCodecs StateMachine SnapshotCodec ClusterNode ClusterSafety ClusterMirror.
Import ClusterCodecs StateMachine SnapshotCodec ClusterNode.



(** The size of a buffer that is filled piece by piece. *)
Ltac buffer_size :=
  unfold size_of, kMaxPayloadSize, kMaxKeySize, kMaxValueSize, zero_bytes in *;
  repeat first [rewrite length_write_at | rewrite length_replicate | rewrite length_write_u16 | rewrite length_take];
  lia.

Section Theorems.
Context {RNG : UniformRandom} `{UnorderedMap} (config : ClusterNodeConfig).

(** ** The ports *)

(** [f] is a response to [request]. *)
Definition responds (request f : Frame) : Prop :=
  validate f = none /\ message_namespace f = Namespace_client /\ request_id f = request_id request.

Lemma client_response_responds request type bytes :
  is_valid_message_type type = true -> message_type_matches_namespace Namespace_client type = true ->
  size_of bytes <= kMaxPayloadSize -> responds request (client_response request type bytes).
Proof.
  intros Ht Hn Hs. split_and!; [|done..]. unfold validate. cbn [client_response message_namespace message_type flags payload].
  by rewrite Ht, Hn, (proj2 (Z.ltb_ge _ _)).
Qed.

Lemma error_response_responds request code message : responds request (error_response request code message).
Proof.
  unfold error_response. apply client_response_responds; [done..|]. buffer_size.
Qed.

Lemma busy_response_responds request : responds request (busy_response request).
Proof. by apply client_response_responds. Qed.

Lemma answer_client_responds request outcome :
  (forall r, outcome = Some r -> size_of (cr_value r) <= kMaxValueSize) -> responds request (answer_client request outcome).
Proof.
  intros Hv. destruct outcome as [r|]; cbn [answer_client]; [|apply busy_response_responds]. specialize (Hv r eq_refl).
  unfold result_frame. destruct (cr_status r); try apply error_response_responds; try apply busy_response_responds.
  - apply client_response_responds; [done..|]. unfold kMaxPayloadSize, kMaxKeySize in *. lia.
  - case_bool_decide; [apply busy_response_responds|]. unfold redirect_response.
    destruct (Z.ltb_spec 65535 (size_of (cr_leader_endpoint r))); [apply busy_response_responds|].
    apply client_response_responds; [done..|]. buffer_size.
Qed.

Lemma wire_message_typed m : wire_message m -> message_typed m.
Proof.
  destruct m; cbn; try tauto. intros (? & He & _). split_and!; try tauto.
  eapply Forall_impl; [exact He|]. intros e [_ [Hu Hz] _ _]. unfold is_u64 in Hu. lia.
Qed.

(** C33. What the ports let in is what the owner relies on.  A valid client frame is
    answered at once with a valid response of the same request number, or becomes
    a request that carries the promise made for it and, for a mutation, a command
    that can be replicated; every outcome of such a request gives a valid
    response of the same number.  A frame on the peer port becomes a request of
    another configured member of the cluster, well typed, or is refused. *)
Theorem ports_let_in_only_sound_work request completion time :
  validate request = none -> is_u64 (request_id request) ->
  match admit_client config request completion time with
  | inl response => responds request response
  | inr work => admitted work /\ promises work = [completion]
  end /\
  (forall outcome, (forall r, outcome = Some r -> size_of (cr_value r) <= kMaxValueSize) ->
    responds request (answer_client request outcome)) /\
  match admit_peer config request completion with
  | Ok work => admitted work /\ exists envelope, work = PeerRequest envelope completion /\
      pe_cluster_id envelope = c_cluster_id config /\ pe_to envelope = c_node_id config /\
      pe_from envelope <> c_node_id config /\ pe_from envelope ∈ map pa_node_id (c_peers config)
  | Throw e => e = invalid_argument
  end.
Proof.
  intros Hv Hu. split_and!; [|intros outcome; apply answer_client_responds|].
  - unfold admit_client. destruct (negb _); [apply error_response_responds|].
    destruct (Byte.eqb (message_type request) MessageType_ping).
    { apply client_response_responds; [done..|]. apply (validate_size request Hv). }
    destruct (_ || _).
    { destruct (dr_value (decode_client_mutation request)) as [c|] eqn:Ed; [|apply error_response_responds].
      split; [|done]. by eapply client_mutation_valid. }
    destruct (Byte.eqb _ _); [|apply error_response_responds].
    destruct (dr_value (decode_client_get request)); [done|apply error_response_responds].
  - unfold admit_peer. destruct (dr_value (decode_peer_frame request)) as [envelope|] eqn:Ed; [|done].
    apply decode_peer_frame_sound in Ed as ((_ & _ & _ & Hw) & _). cbv zeta. destruct (_ || _) eqn:Eg; [done|].
    rewrite !orb_false_iff, !negb_false_iff, andb_true_iff, !Z.eqb_eq, negb_true_iff, Z.eqb_neq in Eg.
    destruct Eg as (((Hc & Ht) & Hf & Hp) & _). split; [by apply wire_message_typed|].
    exists envelope. split_and!; [done..|]. apply existsb_exists in Hp as (peer & Hin & Hid%Z.eqb_eq).
    apply list_elem_of_fmap. exists peer. split; [done|]. by apply list_elem_of_In.
Qed.

(** ** Everyone is answered, once *)

(** The rounds of a loop that goes on, with the work they took. *)
Inductive Served (o : Owner) : list Work -> Owner -> Prop :=
| served_start : Served o [] o
| served_round ws o1 work o2 :
    Served o ws o1 -> roomy config work o1 -> from_option admitted True work ->
    guarded_round config work o1 = (o2, Ok true) ->
    Served o (ws ++ option_list work) o2.

Definition all_promises (ws : list Work) : list nat := concat (map promises ws).

Lemma all_promises_app ws work : all_promises (ws ++ option_list work) = all_promises ws ++ carried work.
Proof.
  unfold all_promises. rewrite map_app, concat_app. by destruct work; cbn; rewrite ?app_nil_r.
Qed.


Lemma Served_Kept o ws o' :
  Kept o -> ledger o = [] -> Served o ws o' -> NoDup (all_promises ws) ->
  Kept o' /\ ledger o' ≡ₚ all_promises ws.
Proof.
  intros Hk L. induction 1 as [|ws o1 work o2 _ IH HR Ha E]; intros Hd; [by rewrite L|].
  rewrite all_promises_app in *. pose proof Hd as (Hd1 & _ & _)%NoDup_app.
  destruct (IH Hd1) as [K1 L1].
  destruct (guarded_round_spec config work o1 K1 HR Ha) as (o' & more & E' & L' & Hm & _).
  { rewrite L1. by rewrite Permutation_app_comm. }
  rewrite E in E'. injection E' as <- <-. destruct (Hm eq_refl) as [K2 T2].
  split; [done|]. by rewrite L', T2, L1, Permutation_app_comm.
Qed.

(** ** The whole node: ports, queue, owner and [stop] *)










Section Reached.
Context (o0 : Owner) (HK : Kept o0) (HL : ledger o0 = []).




End Reached.


(** ** Success means committed *)


(** ** Snapshots do not change the machine *)

(** What [start_owner] makes of a durable snapshot. *)
Lemma start_owner_machine node machine e m :
  based machine node m ->
  exists o, start_owner node machine e = Ok o /\ state_machine_ o = m /\ node_ o = node /\ snapshot_future_ o = None.
Proof.
  unfold based, start_owner. cbn [RaftNode_snapshot rs_durable_snapshot].
  destruct (n_durable_snapshot node) as [d|]; cbn [mirror].
  - unfold install_state. destruct (dr_value _) as [st|]; [|done]. intros E. unfold on_machine, lift. osimpl.
    rewrite E. by eexists.
  - intros ->. by eexists.
Qed.

Lemma start_owner_based node machine e o :
  start_owner node machine e = Ok o -> based machine node (state_machine_ o).
Proof.
  unfold based, start_owner. cbn [RaftNode_snapshot rs_durable_snapshot].
  destruct (n_durable_snapshot node) as [d|]; cbn [mirror]; [|by intros [= <-]].
  unfold install_state. destruct (dr_value _) as [st|]; [|done]. unfold on_machine, lift. osimpl.
  destruct (restore st machine) as [k [[]|]]; [|done]. by intros [= <-].
Qed.

Lemma start_owner_Mirrors c p t node machine e o :
  config_typed c -> persistent_typed p -> RaftNode_create c p t = Ok node ->
  start_owner node machine e = Ok o -> Mirrors machine o.
Proof.
  intros Hc Hp Hn Hs. destruct (create_Inv c p t node Hc Hp Hn) as (HI & Hpo & _ & _ & Hci & _).
  pose proof (start_owner_based _ _ _ _ Hs) as Hb.
  destruct (start_owner_machine node machine e _ Hb) as (o' & Hs' & _ & En & Ej).
  rewrite Hs in Hs'. injection Hs' as <-.
  assert (n_last_applied node = base_of (n_log node)) as Hla.
  { rewrite (inv_applied _ HI), Hci, <- base_index_of, (base_of_durable _ HI). by rewrite <- Hpo. }
  constructor; rewrite ?En, ?Ej; try done. exists (state_machine_ o). split; [done|].
  by rewrite Hla, segment_base.
Qed.

Lemma Served_Mirrors init o ws o' :
  StateMachine.Inv init -> Mirrors init o -> Served o ws o' -> Mirrors init o'.
Proof. intros HI HM. induction 1 as [|ws o1 work o2 _ IH HR Ha E]; [done|]. by eapply guarded_round_mirrors. Qed.

(** C8. Snapshots do not change what the node computes.  After any rounds, with
    entries applied, snapshots of its own taken in the background and compacted
    to, and snapshots of a leader installed, the state machine is what the
    durable snapshot and the applied entries that are still in the log give; and
    a node started again from the durable state always accepts that snapshot and
    starts from exactly the machine those entries continue. *)
Theorem machine_is_the_replayed_log c p t node max_clients max_bytes machine e o0 ws o :
  config_typed c -> persistent_typed p -> RaftNode_create c p t = Ok node ->
  0 <= max_clients -> 0 <= max_bytes -> make max_clients max_bytes = Ok machine ->
  start_owner node machine e = Ok o0 -> Served o0 ws o ->
  exists m, replay_entries (segment (n_log (node_ o)) (n_last_applied (node_ o))) m = (state_machine_ o, Ok tt) /\
    forall t' e' node', RaftNode_create c (persistent_of (node_ o)) t' = Ok node' ->
      exists o', start_owner node' machine e' = Ok o' /\ state_machine_ o' = m.
Proof.
  intros Hc Hp Hn H1 H2 Hm Hs HS.
  pose proof (tr_inv _ _ (make_Tracks _ _ _ H1 H2 Hm)) as HI.
  pose proof (Served_Mirrors machine o0 ws o HI (start_owner_Mirrors _ _ _ _ _ _ _ Hc Hp Hn Hs) HS) as [HN (m & Hb & Hr) _].
  exists m. split; [done|]. intros t' e' node' Hn'.
  destruct (persistent_of_valid _ HN) as [_ Hty].
  destruct (create_Inv c _ t' node' Hc Hty Hn') as (_ & Hpo & _).
  destruct (start_owner_machine node' machine e' m) as (o' & E & Em & _); [|by exists o'].
  unfold based in *. unfold persistent_of in Hpo. injection Hpo as _ _ Hd _. by rewrite Hd.
Qed.

End Theorems.
