(* ===== verification/ClusterWitnesses.v ===== *)
(** * Concrete messages, commands and snapshots of a cluster node

    Inputs on which the hypotheses of the theorems about the codecs and the
    replicated state machine hold together. *)

From S2P Require Import Prelude Wire Checksum Protocol RaftTypes RaftFormat ClusterCodecs StateMachine SnapshotCodec.
From S2P Require Import ClusterTheorems.
Import ClusterCodecs StateMachine SnapshotCodec.

(** Tables traversed in the order of [map_to_list]. *)
Definition listed_order : UnorderedMap :=
  {| traverse := fun _ _ _ _ m => map_to_list m; traverse_elements := fun _ _ _ _ m => reflexivity _ |}.

#[local] Existing Instance listed_order.

(** ** Peer frames *)

Definition example_envelope : PeerEnvelope :=
  {| pe_cluster_id := 9; pe_from := 1; pe_to := 2;
     pe_message := MAppendEntries
       {| ae_term := 3; ae_leader_id := 1; ae_previous_log_index := 4; ae_previous_log_term := 2;
          ae_entries := [mkLogEntry 5 3 command [Byte.x41; Byte.x42]]; ae_leader_commit := 4; ae_rpc_id := 8 |} |}.

Definition blank_frame : Frame :=
  {| message_namespace := Namespace_raft; message_type := MessageType_ok; flags := Byte.x00;
     request_id := 0; payload := [] |}.

Definition example_frame : Frame :=
  match encode_peer_frame example_envelope 77 with Ok f => f | Throw _ => blank_frame end.

(** The bytes of the frame, cut after 30. *)
Definition example_chunks : list (list byte) :=
  let bytes := sr_bytes (serialize example_frame) in [take 30 bytes; drop 30 bytes].

Lemma peer_messages_cross_the_wire_witness :
  exists p', consume_all Parser_default example_chunks =
      Some (p', {| pb_frames := [example_frame]; pb_error := none |}) /\
    map decode_peer_frame [example_frame] = [decoded example_envelope] /\ map request_id [example_frame] = [77].
Proof.
  refine (peer_messages_cross_the_wire [(example_envelope, 77)] [example_frame] example_chunks _ _ _).
  - constructor; [|constructor]. split; [|by vm_compute]. repeat (split || constructor); by vm_compute.
  - constructor; [|constructor]. by vm_compute.
  - by vm_compute.
Defined.

Lemma accepted_peer_frames_are_encodings_witness :
  encode_peer_frame example_envelope (request_id example_frame) = Ok example_frame.
Proof.
  pose proof (accepted_peer_frames_are_encodings example_frame example_envelope eq_refl eq_refl) as H.
  vm_compute in H |- *. exact H.
Defined.

(** ** Commands *)

Definition put_a : ReplicatedCommand :=
  {| rc_operation := put; rc_client_id := zero_bytes 16; rc_request_id := 1; rc_key := [Byte.x61];
     rc_value := [Byte.x31] |}.
Definition delete_a : ReplicatedCommand :=
  {| rc_operation := delete_key; rc_client_id := zero_bytes 16; rc_request_id := 2; rc_key := [Byte.x61];
     rc_value := [] |}.

Lemma put_a_valid : valid_command put_a.
Proof. split; [split| | | |]; by vm_compute. Qed.

Lemma delete_a_valid : valid_command delete_a.
Proof. split; [split| | | |]; by vm_compute. Qed.

Lemma command_codec_is_bijective_witness :
  encode_replicated_command put_a = Ok (command_bytes put_a) <->
  decode_replicated_command (command_bytes put_a) = decoded put_a.
Proof. apply (command_codec_is_bijective put_a (command_bytes put_a)). split; by vm_compute. Defined.

(** A PUT as a client sends it. *)
Definition put_frame : Frame :=
  {| message_namespace := Namespace_client; message_type := MessageType_put; flags := Byte.x00; request_id := 1;
     payload := zero_bytes 16 ++ write_u32 1 ++ write_u32 1 ++ [Byte.x61; Byte.x31] |}.

Lemma accepted_mutations_can_be_replicated_witness :
  exists bytes, encode_replicated_command put_a = Ok bytes /\
    decode_replicated_command bytes = decoded put_a /\
    0 < size_of bytes <= RaftFormat.kMaxRaftCommandSize /\ rc_request_id put_a = request_id put_frame.
Proof. apply (accepted_mutations_can_be_replicated put_frame put_a); by vm_compute. Defined.

(** ** The state machine *)

Definition example_machine : ReplicatedStateMachine :=
  {| max_clients_ := 2; max_dedup_bytes_ := 200; dedup_bytes_ := 0; values_ := ∅; clients_ := ∅ |}.

(** A command, its repetition, and a later one of the same client. *)
Definition example_commands : list ReplicatedCommand := [put_a; put_a; delete_a].

Lemma example_commands_valid : Forall valid_command example_commands.
Proof.
  apply Forall_cons; split; [apply put_a_valid|]. apply Forall_cons; split; [apply put_a_valid|].
  apply Forall_singleton, delete_a_valid.
Qed.

Lemma each_command_takes_effect_once_witness :
  exists m rs, apply_commands (map command_bytes example_commands) example_machine = (m, Ok rs) /\
    length rs = 3%nat /\ values_ m = values_after (zip example_commands rs) /\
    (forall pre c r post, zip example_commands rs = pre ++ (c, r) :: post -> verdict pre c r) /\
    client_count m <= 2 /\ dedup_bytes_ m = dedup_total (clients_ m) /\ dedup_bytes_ m <= 200.
Proof.
  apply (each_command_takes_effect_once 2 200 example_machine example_commands);
    [lia|lia|by vm_compute|apply example_commands_valid].
Defined.

Definition example_run := apply_commands (map command_bytes example_commands) example_machine.
Definition example_results : list MutationApplyResult := match example_run.2 with Ok rs => rs | Throw _ => [] end.
Definition example_image : list byte :=
  match encode_snapshot_state (snapshot example_run.1) with Ok bytes => bytes | Throw _ => [] end.

Lemma snapshot_restores_the_machine_witness :
  exists s, decode_snapshot_state example_image = decoded s /\ restore s example_machine = (example_run.1, Ok tt).
Proof.
  apply (snapshot_restores_the_machine listed_order listed_order 2 200 example_machine example_commands
    example_run.1 example_results example_image example_machine).
  - lia.
  - lia.
  - by vm_compute.
  - apply example_commands_valid.
  - by vm_compute.
  - by vm_compute.
  - apply (tr_inv example_machine []), (make_Tracks 2 200); [lia|lia|by vm_compute].
  - by split.
Defined.
