(* ===== verification/OwnerWitnesses.v ===== *)
(** * A cluster node of one voter, run

    The owner thread elects its node, serves a PUT, compacts its log to a
    snapshot taken in the background, and serves a GET; the hypotheses of the
    theorems about it hold together on these rounds. *)

From S2P Require Import Prelude Wire Protocol RaftTypes RaftFormat RaftNode RaftInvariant RaftStep RaftHandlers.
From S2P Require Import RaftSafety RaftWitnesses Fs PersistedSafety ClusterCodecs StateMachine SnapshotCodec ClusterNode.
From S2P Require Import ClusterSafety ClusterMirror OwnerTheorems ClusterWitnesses.
Import ClusterCodecs StateMachine SnapshotCodec ClusterNode.

#[local] Existing Instance lower_bound_random.
#[local] Existing Instance listed_order.

Definition single_raft : RaftConfig :=
  {| cfg_self_id := 1; cfg_cluster_id := 9; cfg_voters := [1];
     cfg_election_timeout_min := 10; cfg_election_timeout_max := 20; cfg_heartbeat_interval := 3;
     cfg_random_seed := 7; cfg_max_append_entries := 4096; cfg_max_append_bytes := 1049768 |}.

Lemma single_raft_typed : config_typed single_raft.
Proof. split; by vm_compute. Qed.

Definition single_node : Impl :=
  match RaftNode_create single_raft empty_persistent_state 0 with Ok s => s | Throw _ => blank end.

Lemma single_node_created : RaftNode_create single_raft empty_persistent_state 0 = Ok single_node.
Proof. by vm_compute. Qed.

Definition single_config : ClusterNodeConfig :=
  {| c_cluster_id := 9; c_node_id := 1; c_peers := []; c_raft_queue_capacity := 16; c_max_pending_reads := 16;
     c_snapshot_threshold := 2; c_client_timeout_ms := 1000 |}.

(** The clock is read fifty milliseconds after the start, and stands still. *)
Definition single_env : Env :=
  {| clock := 0; ticks := [(50000000, [])]; canceled := ∅; store_faults := []; job_progress := [job_written] |}.

Definition unstarted : Owner :=
  {| node_ := single_node; role_ := follower; leader_id_ := None; active_peer_from_ := None;
     active_peer_response_ := None; active_proposal_index_ := None; active_read_barrier_index_ := None;
     pending_ := ∅; pending_reads_ := ∅; state_machine_ := example_machine; snapshot_future_ := None;
     last_snapshot_index_ := 0; failed_ := false; next_tick := 0; answers := []; peer_answers := []; sent := [];
     env := single_env |}.

Definition started : Owner :=
  match start_owner single_node example_machine single_env with Ok o => o | Throw _ => unstarted end.

Lemma started_ok : start_owner single_node example_machine single_env = Ok started.
Proof. by vm_compute. Qed.

(** The owner after a round on [work]. *)
Definition next (work : option Work) (o : Owner) : Owner := (guarded_round single_config work o).1.

Definition put_work : Work := Proposal put_a 0.
Definition get_work : Work := Read [Byte.x61] 1 1000000000.

Definition elected_owner : Owner := next None started.
Definition put_owner : Owner := next (Some put_work) elected_owner.
Definition get_owner : Owner := next (Some get_work) put_owner.

Definition roomy_b (work : option Work) (o : Owner) : bool :=
  room_b (node_ o) && room_b (node_ (timers single_config o).1) &&
  room_b (node_ (serve single_config work (timers single_config o).1).1).

Lemma roomy_b_roomy work o : roomy_b work o = true -> roomy single_config work o.
Proof. intros [[? ?]%andb_true_iff ?]%andb_true_iff. split_and!; by apply room_b_Room. Qed.

Lemma served_example : Served single_config started [put_work; get_work] get_owner.
Proof.
  apply (served_round single_config started [put_work] put_owner (Some get_work) get_owner);
    [|apply roomy_b_roomy; by vm_compute|done|by vm_compute].
  apply (served_round single_config started [] elected_owner (Some put_work) put_owner);
    [|apply roomy_b_roomy; by vm_compute|apply put_a_valid|by vm_compute].
  apply (served_round single_config started [] started None elected_owner);
    [constructor|apply roomy_b_roomy; by vm_compute|done|by vm_compute].
Qed.

(** Both clients are answered, the GET with the value of the PUT. *)
Lemma served_answers :
  answers get_owner = [(0%nat, {| cr_status := cs_ok; cr_value := []; cr_leader_endpoint := [] |});
                       (1%nat, {| cr_status := cs_ok; cr_value := [Byte.x31]; cr_leader_endpoint := [] |})] /\
  base_index (node_ get_owner) = 2.
Proof. split; by vm_compute. Qed.








Definition put_answer : ClientResult := {| cr_status := cs_ok; cr_value := []; cr_leader_endpoint := [] |}.


Lemma machine_is_the_replayed_log_witness :
  exists m, replay_entries (segment (n_log (node_ get_owner)) (n_last_applied (node_ get_owner))) m =
      (state_machine_ get_owner, Ok tt) /\
    forall t' e' node', RaftNode_create single_raft (persistent_of (node_ get_owner)) t' = Ok node' ->
      exists o', start_owner node' example_machine e' = Ok o' /\ state_machine_ o' = m.
Proof.
  apply (machine_is_the_replayed_log single_config single_raft empty_persistent_state 0 single_node 2 200
    example_machine single_env started [put_work; get_work] get_owner); try lia.
  - exact single_raft_typed.
  - exact example_persistent_typed.
  - exact single_node_created.
  - by vm_compute.
  - exact started_ok.
  - exact served_example.
Defined.

Lemma ports_let_in_only_sound_work_witness :
  (admitted (Proposal put_a 0) /\ promises (Proposal put_a 0) = [0%nat]) /\
  responds put_frame (answer_client put_frame (Some put_answer)).
Proof.
  destruct (ports_let_in_only_sound_work single_config put_frame 0 0) as (HA & HB & _).
  - by vm_compute.
  - by vm_compute.
  - split; [exact HA|]. apply HB. by intros r [= <-].
Defined.
