(* ===== verification/PeerTransport.v ===== *)
(** * Sending requests to the peers

    [PeerTransport] of src/cluster/node.cpp: the queue of outgoing requests, which
    holds one request for each peer, and the exchange of a request for its
    response over a connection.  The calls on sockets are inputs; the sizes the
    compiler gives the message types are left open. *)

From S2P Require Import Prelude Wire Protocol RaftTypes RaftFormat ClusterCodecs StateMachine ClusterNode.
Import ClusterCodecs ClusterNode.

Module PeerTransport.

(** [sizeof] of the message types and of a log entry. *)
Class Sizeof := {
  sizeof_RequestVote : Z;
  sizeof_RequestVoteResponse : Z;
  sizeof_AppendEntries : Z;
  sizeof_AppendEntriesResponse : Z;
  sizeof_InstallSnapshot : Z;
  sizeof_InstallSnapshotResponse : Z;
  sizeof_LogEntry : Z
}.

Definition matches_peer_request (request response : Message) : bool :=
  match request with
  | MRequestVote _ => match response with MRequestVoteResponse _ => true | _ => false end
  | MInstallSnapshot snapshot =>
      match response with
      | MInstallSnapshotResponse reply =>
          (insr_rpc_id reply =? ins_rpc_id snapshot) &&
          (insr_last_included_index reply =? ins_last_included_index snapshot)
      | _ => false
      end
  | MAppendEntries append =>
      match response with
      | MAppendEntriesResponse reply =>
          if negb (aer_rpc_id reply =? ae_rpc_id append) then false
          else
            let last_sent := u64 (ae_previous_log_index append + size_of (ae_entries append)) in
            negb (aer_success reply) || (aer_match_index reply <=? last_sent)
      | _ => false
      end
  | _ => false
  end.

(** ** The queue *)

Section Queue.
Context `{Sizeof}.

(** The loop over the entries of an AppendEntries. *)
Definition entries_size (size : Z) (entries : list LogEntry) : Z :=
  foldl (fun size entry => u64 (size + sizeof_LogEntry + size_of (le_command entry))) size entries.

Definition peer_work_bytes (message : Message) : Z :=
  match message with
  | MRequestVote _ => u64 sizeof_RequestVote
  | MRequestVoteResponse _ => u64 sizeof_RequestVoteResponse
  | MAppendEntries m => entries_size (u64 sizeof_AppendEntries) (ae_entries m)
  | MAppendEntriesResponse _ => u64 sizeof_AppendEntriesResponse
  | MInstallSnapshot m => u64 (sizeof_InstallSnapshot + size_of (ins_data m))
  | MInstallSnapshotResponse _ => u64 sizeof_InstallSnapshotResponse
  end.

Record QueuedPeerWork := {
  qw_to : NodeId;
  qw_message : Message;
  qw_bytes : Z
}.

Record Transport := {
  cluster_id_ : Z;
  self_id_ : NodeId;
  capacity_ : Z;
  byte_capacity_ : Z;
  peers_ : gmap NodeId PeerAddress;
  next_request_id_ : Z;
  enabled_ : bool;
  queue_ : list QueuedPeerWork;
  queued_bytes_ : Z;
  stopping_ : bool
}.

Definition set_queue (queue : list QueuedPeerWork) (bytes : Z) (t : Transport) : Transport :=
  {| cluster_id_ := cluster_id_ t; self_id_ := self_id_ t; capacity_ := capacity_ t;
     byte_capacity_ := byte_capacity_ t; peers_ := peers_ t; next_request_id_ := next_request_id_ t;
     enabled_ := enabled_ t; queue_ := queue; queued_bytes_ := bytes; stopping_ := stopping_ t |}.

(** The constructor; [peers_.emplace] keeps the first address of an id. *)
Definition make_peers (peers : list PeerAddress) : gmap NodeId PeerAddress :=
  foldl (fun m peer => match m !! pa_node_id peer with Some _ => m | None => <[pa_node_id peer := peer]> m end)
    ∅ peers.

Definition make_transport (config : ClusterNodeConfig) (capacity byte_capacity : Z) : Transport :=
  {| cluster_id_ := c_cluster_id config; self_id_ := c_node_id config; capacity_ := capacity;
     byte_capacity_ := byte_capacity; peers_ := make_peers (c_peers config); next_request_id_ := 1;
     enabled_ := true; queue_ := []; queued_bytes_ := 0; stopping_ := false |}.

Definition send (to : NodeId) (message : Message) (t : Transport) : Transport * bool :=
  if negb (is_request_message message) || negb (enabled_ t) || stopping_ t then (t, false)
  else
    let bytes := peer_work_bytes message in
    let work := {| qw_to := to; qw_message := message; qw_bytes := bytes |} in
    match list_find (fun w => qw_to w = to) (queue_ t) with
    | Some (position, existing) =>
        let remaining := u64 (queued_bytes_ t - qw_bytes existing) in
        if u64 (byte_capacity_ t - remaining) <? bytes then (t, false)
        else (set_queue (<[position := work]> (queue_ t)) (u64 (remaining + bytes)) t, true)
    | None =>
        if (capacity_ t <=? size_of (queue_ t)) || (u64 (byte_capacity_ t - queued_bytes_ t) <? bytes)
        then (t, false)
        else (set_queue (queue_ t ++ [work]) (u64 (queued_bytes_ t + bytes)) t, true)
    end.

Definition set_enabled (enabled : bool) (t : Transport) : Transport :=
  let t := if enabled then t else set_queue [] 0 t in
  {| cluster_id_ := cluster_id_ t; self_id_ := self_id_ t; capacity_ := capacity_ t;
     byte_capacity_ := byte_capacity_ t; peers_ := peers_ t; next_request_id_ := next_request_id_ t;
     enabled_ := enabled; queue_ := queue_ t; queued_bytes_ := queued_bytes_ t; stopping_ := stopping_ t |}.

Definition stop (t : Transport) : Transport :=
  if stopping_ t then t
  else
    {| cluster_id_ := cluster_id_ t; self_id_ := self_id_ t; capacity_ := capacity_ t;
       byte_capacity_ := byte_capacity_ t; peers_ := peers_ t; next_request_id_ := next_request_id_ t;
       enabled_ := enabled_ t; queue_ := []; queued_bytes_ := 0; stopping_ := true |}.

(** The critical section of [worker_loop]: the worker leaves, waits or takes the
    front of the queue. *)
Inductive Taken :=
| leaves
| waits
| takes (to : NodeId) (message : Message).

Definition take_work (t : Transport) : Transport * Taken :=
  if stopping_ t then (t, leaves)
  else
    match queue_ t with
    | [] => (t, waits)
    | w :: rest => (set_queue rest (u64 (queued_bytes_ t - qw_bytes w)) t, takes (qw_to w) (qw_message w))
    end.

End Queue.

(** ** The exchange *)

(** What a call of [send] or [recv] on the connection returns. *)
Inductive Sent : Set :=
| accepted (count : nat)
| send_interrupted
| send_failed.

Inductive Received : Set :=
| received (bytes : list byte)
| recv_interrupted
| recv_ended.

(** Until all bytes are accepted; a connection that answers no more calls has
    failed. *)
Fixpoint send_all (calls : list Sent) (bytes : list byte) : bool :=
  match bytes with
  | [] => true
  | _ =>
      match calls with
      | [] => false
      | accepted count :: calls' => if Nat.eqb count 0 then false else send_all calls' (drop count bytes)
      | send_interrupted :: calls' => send_all calls' bytes
      | send_failed :: _ => false
      end
  end.

Fixpoint receive_loop (parser : Parser) (calls : list Received) : option Frame :=
  match calls with
  | [] => None
  | received bytes :: calls' =>
      if Nat.eqb (length bytes) 0 then None
      else
        match consume parser bytes with
        | None => None
        | Some (parser, batch) =>
            if negb (bool_decide (pb_error batch = none)) then None
            else
              match pb_frames batch with
              | [] => receive_loop parser calls'
              | [frame] => Some frame
              | _ => None
              end
        end
  | recv_interrupted :: calls' => receive_loop parser calls'
  | recv_ended :: _ => None
  end.

Definition receive_one_frame (calls : list Received) : option Frame := receive_loop Parser_default calls.

(** A connection: whether it is established, and the calls on it. *)
Record Connection := {
  connected : bool;
  send_calls : list Sent;
  recv_calls : list Received
}.

Definition bump_request_id (t : Transport) : Transport :=
  {| cluster_id_ := cluster_id_ t; self_id_ := self_id_ t; capacity_ := capacity_ t;
     byte_capacity_ := byte_capacity_ t; peers_ := peers_ t; next_request_id_ := u64 (next_request_id_ t + 1);
     enabled_ := enabled_ t; queue_ := queue_ t; queued_bytes_ := queued_bytes_ t; stopping_ := stopping_ t |}.

(** The checks on a response. *)
Definition accept_response (t : Transport) (to : NodeId) (message : Message) (request_id : Z)
    (response_frame : Frame) : option (NodeId * Message) :=
  if negb (Protocol.request_id response_frame =? request_id) then None
  else
    match dr_value (decode_peer_frame response_frame) with
    | None => None
    | Some response =>
        if negb (pe_cluster_id response =? cluster_id_ t) || negb (pe_from response =? to) ||
           negb (pe_to response =? self_id_ t) || is_request_message (pe_message response) ||
           negb (matches_peer_request message (pe_message response))
        then None
        else if enabled_ t then Some (to, pe_message response) else None
    end.

(** The rest of a round of [worker_loop], with what is handed to the response
    sink; every failure drops the message. *)
Definition exchange (connect : PeerAddress -> list byte -> Connection) (to : NodeId) (message : Message)
    (t : Transport) : Transport * option (NodeId * Message) :=
  match peers_ t !! to with
  | None => (t, None)
  | Some peer =>
      if negb (enabled_ t) then (t, None)
      else
        let request_id := next_request_id_ t in
        let t := bump_request_id t in
        match encode_peer_frame {| pe_cluster_id := cluster_id_ t; pe_from := self_id_ t; pe_to := to;
                                   pe_message := message |} request_id with
        | Throw _ => (t, None)
        | Ok frame =>
            let wire_frame := serialize frame in
            if negb (bool_decide (sr_error wire_frame = none)) then (t, None)
            else
              let socket := connect peer (sr_bytes wire_frame) in
              if negb (connected socket) then (t, None)
              else if negb (send_all (send_calls socket) (sr_bytes wire_frame)) then (t, None)
              else
                match receive_one_frame (recv_calls socket) with
                | None => (t, None)
                | Some response_frame => (t, accept_response t to message request_id response_frame)
                end
        end
  end.

End PeerTransport.
