(* ===== verification/TransportTheorems.v ===== *)
(** * What the peer transport promises

    The queue of outgoing requests, and a request and its response between two
    nodes. *)

From S2P Require Import Prelude Wire Protocol RaftTypes RaftFormat ClusterCodecs StateMachine ClusterNode ClusterTheorems.
From S2P Require Import RaftNode RaftInvariant RaftStep RaftHandlers ClusterSafety OwnerTheorems PeerTransport.
Import ClusterCodecs ClusterNode.
Import PeerTransport(Sizeof, matches_peer_request, peer_work_bytes, QueuedPeerWork, Transport, exchange, Connection,
  Received, received, recv_interrupted, recv_ended, receive_loop, receive_one_frame, send_all, accept_response).

(** ** A request and its response *)

(** The bytes the calls bring, when the connection is not closed. *)
Definition brought (calls : list Received) : list (list byte) :=
  omap (fun c => match c with received bytes => Some bytes | _ => None end) calls.




(** What is received is a frame the peer serialized. *)
Lemma receive_sound parser calls g :
  ParserOk parser -> Protocol.failed_ parser = false -> receive_loop parser calls = Some g ->
  validate g = none /\ exists rest, pending parser ++ concat (brought calls) = sr_bytes (serialize g) ++ rest.
Proof.
  revert parser. induction calls as [|c calls IH]; intros parser Hok Hf; [done|].
  destruct c as [bytes| |]; cbn [receive_loop]; [|by apply IH|done].
  destruct (Nat.eqb _ _); [done|].
  destruct (consume_refines parser bytes Hok Hf) as (p' & fs & e & E & Hp & Hok' & Hf'). rewrite E.
  cbn [pb_error pb_frames]. destruct (decide (e = none)) as [->|He]; [|by rewrite (bool_decide_false (e = none))].
  change (bool_decide _) with true. change (bool_decide _) with false in Hf'. cbn [negb].
  change (brought (received bytes :: calls)) with (bytes :: brought calls). cbn [concat].
  destruct (Parsed_sound _ _ _ _ Hp) as (Hv & rest & Hrest & Hr). specialize (Hr eq_refl). subst rest.
  destruct fs as [|x [|y l]]; [| |done].
  - intros E2. destruct (IH p' Hok' Hf' E2) as (Hg & rest & Hb). split; [done|]. exists rest.
    rewrite (assoc_L (++)), Hrest. cbn [map concat app]. exact Hb.
  - intros [= ->]. apply Forall_singleton in Hv as [Hg Hid]. split; [done|]. exists (pending p' ++ concat (brought calls)).
    rewrite (assoc_L (++)), Hrest, serialize_frame_bytes by done. cbn [map concat sr_bytes]. by rewrite app_nil_r, (assoc_L (++)).
Qed.

(** Nothing but an answer to the request that was sent reaches the owner.
    Whatever bytes come back, a message handed over as a response is decoded from
    a valid frame at the start of those bytes, which has the number of the
    request, comes from the peer that was asked and is addressed to this node of
    this cluster; it fits the request - a vote for a vote, and for entries and
    snapshots the same identifier and no more entries than were sent - and is
    well typed, as the owner relies on. *)
Theorem only_answers_reach_the_owner connect to m t from r :
  (exchange connect to m t).2 = Some (from, r) ->
  from = to /\ matches_peer_request m r = true /\ admitted (PeerResponse from r) /\
  exists peer f g rest, PeerTransport.peers_ t !! to = Some peer /\
    encode_peer_frame {| pe_cluster_id := PeerTransport.cluster_id_ t; pe_from := PeerTransport.self_id_ t;
                         pe_to := to; pe_message := m |} (PeerTransport.next_request_id_ t) = Ok f /\
    concat (brought (PeerTransport.recv_calls (connect peer (sr_bytes (serialize f))))) =
      sr_bytes (serialize g) ++ rest /\
    validate g = none /\ request_id g = PeerTransport.next_request_id_ t /\
    dr_value (decode_peer_frame g) =
      Some {| pe_cluster_id := PeerTransport.cluster_id_ t; pe_from := to; pe_to := PeerTransport.self_id_ t;
              pe_message := r |}.
Proof.
  unfold exchange. destruct (PeerTransport.peers_ t !! to) as [peer|] eqn:Hpeer; [|done].
  destruct (PeerTransport.enabled_ t) eqn:Hen; cbn [negb]; [|done]. cbv zeta.
  change (PeerTransport.cluster_id_ (PeerTransport.bump_request_id t)) with (PeerTransport.cluster_id_ t).
  change (PeerTransport.self_id_ (PeerTransport.bump_request_id t)) with (PeerTransport.self_id_ t).
  destruct (encode_peer_frame _ _) as [f|] eqn:Ef; [|done].
  destruct (negb _); [done|]. destruct (negb _); [done|]. destruct (negb _); [done|].
  destruct (receive_one_frame _) as [g|] eqn:Eg; [|done]. cbn [snd].
  destruct (receive_sound _ _ _ ParserOk_default eq_refl Eg) as (Hg & rest & Hb).
  unfold accept_response. destruct (Z.eqb_spec (request_id g) (PeerTransport.next_request_id_ t)) as [Hid|]; [|done]. cbn [negb].
  destruct (dr_value (decode_peer_frame g)) as [e|] eqn:Ed; [|done].
  destruct (_ || _) eqn:Eq; [done|]. rewrite !orb_false_iff, !negb_false_iff, !Z.eqb_eq in Eq.
  destruct Eq as ((((Hc & Hf) & Ht) & Hq) & Hm). cbn [PeerTransport.bump_request_id PeerTransport.enabled_
    PeerTransport.cluster_id_ PeerTransport.self_id_] in *.
  rewrite Hen. intros [= <- <-]. split_and!; [done|done| |].
  - apply decode_peer_frame_sound in Ed as ((_ & _ & _ & Hw) & _). by apply wire_message_typed.
  - exists peer, f, g, rest. split_and!; try done. destruct e. cbn in *. by subst.
Qed.

(** ** The queue of outgoing requests *)

Section Queue.
Context `{Sizeof}.

Inductive TransportOp :=
| t_send (to : NodeId) (m : Message)
| t_enable (b : bool)
| t_take
| t_stop.

(** The transport, and for each peer the request that was accepted last. *)
Definition transport_step (op : TransportOp) (st : Transport * gmap NodeId Message) : Transport * gmap NodeId Message :=
  match op with
  | t_send to m =>
      let '(t, sent) := PeerTransport.send to m st.1 in (t, if sent then <[to := m]> st.2 else st.2)
  | t_enable b => (PeerTransport.set_enabled b st.1, st.2)
  | t_take => ((PeerTransport.take_work st.1).1, st.2)
  | t_stop => (PeerTransport.stop st.1, st.2)
  end.

Definition bytes_of (q : list QueuedPeerWork) : Z := foldr (fun w n => PeerTransport.qw_bytes w + n) 0 q.

Record QueueOk (capacity byte_capacity : Z) (st : Transport * gmap NodeId Message) : Prop := {
  qo_limits : PeerTransport.capacity_ st.1 = capacity /\ PeerTransport.byte_capacity_ st.1 = byte_capacity;
  qo_one : NoDup (map PeerTransport.qw_to (PeerTransport.queue_ st.1));
  qo_count : size_of (PeerTransport.queue_ st.1) <= capacity;
  qo_bytes : PeerTransport.queued_bytes_ st.1 = bytes_of (PeerTransport.queue_ st.1) /\
    PeerTransport.queued_bytes_ st.1 <= byte_capacity;
  qo_work : Forall (fun w => is_request_message (PeerTransport.qw_message w) = true /\
    PeerTransport.qw_bytes w = peer_work_bytes (PeerTransport.qw_message w) /\
    st.2 !! PeerTransport.qw_to w = Some (PeerTransport.qw_message w)) (PeerTransport.queue_ st.1);
}.

Lemma u64_nonneg z : 0 <= u64 z.
Proof. apply Z.mod_pos_bound. done. Qed.

Lemma peer_work_bytes_nonneg m : 0 <= peer_work_bytes m.
Proof.
  destruct m as [| |m| | |]; cbn [peer_work_bytes]; try apply u64_nonneg. unfold PeerTransport.entries_size.
  generalize (u64_nonneg PeerTransport.sizeof_AppendEntries). generalize (u64 PeerTransport.sizeof_AppendEntries).
  induction (ae_entries m) as [|e es IH]; intros z Hz; [done|]. cbn [foldl]. apply IH, u64_nonneg.
Qed.

Lemma bytes_of_app q k : bytes_of (q ++ k) = bytes_of q + bytes_of k.
Proof. unfold bytes_of. induction q as [|w q IH]; cbn; lia. Qed.

Lemma bytes_of_nonneg q : Forall (fun w => 0 <= PeerTransport.qw_bytes w) q -> 0 <= bytes_of q.
Proof. unfold bytes_of. induction 1; cbn; lia. Qed.

Lemma QueueOk_nonneg c b st : QueueOk c b st -> Forall (fun w => 0 <= PeerTransport.qw_bytes w) (PeerTransport.queue_ st.1).
Proof. intros [_ _ _ _ Hw]. eapply Forall_impl; [exact Hw|]. intros w (_ & -> & _). apply peer_work_bytes_nonneg. Qed.

(** A request for a peer takes the place of the one that waits for it. *)
Lemma send_replaces c b t h to m i w :
  is_u64 b -> QueueOk c b (t, h) -> is_request_message m = true ->
  list_find (fun w => PeerTransport.qw_to w = to) (PeerTransport.queue_ t) = Some (i, w) ->
  let remaining := u64 (PeerTransport.queued_bytes_ t - PeerTransport.qw_bytes w) in
  (u64 (PeerTransport.byte_capacity_ t - remaining) <? peer_work_bytes m) = false ->
  QueueOk c b (PeerTransport.set_queue
    (<[i := {| PeerTransport.qw_to := to; PeerTransport.qw_message := m; PeerTransport.qw_bytes := peer_work_bytes m |}]>
      (PeerTransport.queue_ t)) (u64 (remaining + peer_work_bytes m)) t, <[to := m]> h).
Proof.
  intros Hb HQ Hm Hf. pose proof (QueueOk_nonneg _ _ _ HQ) as Hn. destruct HQ as [[Hc1 Hb1] H1 Hc [Hq Hqb] Hw].
  cbn [fst snd] in *. apply list_find_Some in Hf as (Hi & Hto & _).
  assert (exists pre post, PeerTransport.queue_ t = pre ++ w :: post /\ length pre = i) as (pre & post & Eq & Hlen).
  { pose proof (lookup_lt_Some _ _ _ Hi). exists (take i (PeerTransport.queue_ t)), (drop (S i) (PeerTransport.queue_ t)).
    split; [by rewrite take_drop_middle|rewrite length_take; lia]. }
  rewrite Eq in *. rewrite bytes_of_app in Hq. cbn [bytes_of foldr] in Hq. fold (bytes_of post) in Hq.
  apply Forall_app in Hn as [Hn1 [Hn2 Hn3]%Forall_cons]. apply bytes_of_nonneg in Hn1, Hn3.
  pose proof (peer_work_bytes_nonneg m) as Hpos. cbv zeta. rewrite Hb1. unfold is_u64 in Hb.
  rewrite (u64_small (PeerTransport.queued_bytes_ t - _)) by (unfold is_u64; lia).
  rewrite u64_small by (unfold is_u64; lia). rewrite Z.ltb_ge. intros Hle.
  rewrite map_app in H1. cbn [map] in H1. rewrite Hto in H1.
  assert (<[i := {| PeerTransport.qw_to := to; PeerTransport.qw_message := m; PeerTransport.qw_bytes := peer_work_bytes m |}]>
    (pre ++ w :: post) = pre ++ {| PeerTransport.qw_to := to; PeerTransport.qw_message := m;
      PeerTransport.qw_bytes := peer_work_bytes m |} :: post) as ->.
  { rewrite <- Hlen. rewrite <- (Nat.add_0_r (length pre)). by rewrite insert_app_r. }
  constructor; cbn [fst snd PeerTransport.set_queue PeerTransport.queue_ PeerTransport.queued_bytes_
    PeerTransport.capacity_ PeerTransport.byte_capacity_].
  - done.
  - by rewrite map_app.
  - unfold size_of in *. rewrite length_app in *. done.
  - rewrite u64_small by (unfold is_u64; lia). rewrite bytes_of_app. cbn [bytes_of foldr PeerTransport.qw_bytes].
    fold (bytes_of post). lia.
  - apply NoDup_app in H1 as (_ & Hd & [Hd2 _]%NoDup_cons). apply Forall_app in Hw as [Hw1 [_ Hw2]%Forall_cons].
    assert (forall x, x ∈ pre ++ post -> PeerTransport.qw_to x <> to) as Hne.
    { intros x Hx <-. apply elem_of_app in Hx as [Hx|Hx].
      - apply (Hd (PeerTransport.qw_to x)); [apply list_elem_of_fmap; by exists x|by left].
      - apply Hd2, list_elem_of_fmap. by exists x. }
    apply Forall_app. split; [|apply Forall_cons; split]; cbn [PeerTransport.qw_to PeerTransport.qw_message PeerTransport.qw_bytes].
    + apply Forall_forall. intros x Hx. rewrite Forall_forall in Hw1. rewrite lookup_insert_ne; [by apply Hw1|].
      intros ->. by apply (Hne x); [apply elem_of_app; left|].
    + by rewrite lookup_insert_eq.
    + apply Forall_forall. intros x Hx. rewrite Forall_forall in Hw2. rewrite lookup_insert_ne; [by apply Hw2|].
      intros ->. by apply (Hne x); [apply elem_of_app; right|].
Qed.

Lemma send_appends c b t h to m :
  is_u64 b -> QueueOk c b (t, h) -> is_request_message m = true ->
  list_find (fun w => PeerTransport.qw_to w = to) (PeerTransport.queue_ t) = None ->
  (PeerTransport.capacity_ t <=? size_of (PeerTransport.queue_ t)) = false ->
  (u64 (PeerTransport.byte_capacity_ t - PeerTransport.queued_bytes_ t) <? peer_work_bytes m) = false ->
  QueueOk c b (PeerTransport.set_queue (PeerTransport.queue_ t ++
    [{| PeerTransport.qw_to := to; PeerTransport.qw_message := m; PeerTransport.qw_bytes := peer_work_bytes m |}])
    (u64 (PeerTransport.queued_bytes_ t + peer_work_bytes m)) t, <[to := m]> h).
Proof.
  intros Hb HQ Hm Hf. pose proof (bytes_of_nonneg _ (QueueOk_nonneg _ _ _ HQ)) as Hn.
  destruct HQ as [[Hc1 Hb1] H1 Hc [Hq Hqb] Hw]. cbn [fst snd] in *. apply list_find_None in Hf. rewrite Forall_forall in Hf.
  pose proof (peer_work_bytes_nonneg m) as Hpos. unfold is_u64 in Hb.
  rewrite Hc1, Hb1, Z.leb_gt. intros Hcap. rewrite u64_small by (unfold is_u64; lia). rewrite Z.ltb_ge. intros Hle.
  constructor; cbn [fst snd PeerTransport.set_queue PeerTransport.queue_ PeerTransport.queued_bytes_
    PeerTransport.capacity_ PeerTransport.byte_capacity_].
  - done.
  - rewrite map_app. apply NoDup_app. split_and!; [done| |apply NoDup_singleton]. cbn [map PeerTransport.qw_to].
    intros x (w & Ew & Hx)%list_elem_of_fmap Hy%list_elem_of_singleton. apply (Hf w Hx). congruence.
  - unfold size_of in *. rewrite length_app. cbn. lia.
  - rewrite u64_small by (unfold is_u64; lia). rewrite bytes_of_app. cbn [bytes_of foldr PeerTransport.qw_bytes]. lia.
  - apply Forall_app. split; [|by apply Forall_singleton; rewrite lookup_insert_eq].
    rewrite Forall_forall in *. intros w Hx. rewrite lookup_insert_ne; [by apply Hw|]. intros ->. by apply (Hf w).
Qed.

Lemma transport_step_ok c b op st : is_u64 b -> 0 <= c -> QueueOk c b st -> QueueOk c b (transport_step op st).
Proof.
  intros Hb Hc HQ. destruct st as [t h].
  assert (forall t', PeerTransport.queue_ t' = [] -> PeerTransport.queued_bytes_ t' = 0 ->
    PeerTransport.capacity_ t' = c -> PeerTransport.byte_capacity_ t' = b -> QueueOk c b (t', h)) as Hempty.
  { intros t' E1 E2 E3 E4. unfold is_u64 in Hb.
    constructor; cbn [fst snd]; rewrite ?E1, ?E2; [done|constructor|done|split; [done|lia]|constructor]. }
  pose proof (qo_limits _ _ _ HQ) as [Ec Eb]. cbn [fst] in Ec, Eb.
  destruct op as [to m|e| |]; cbn [transport_step fst snd].
  - unfold PeerTransport.send. destruct (is_request_message m) eqn:Em; cbn [negb orb]; [|done].
    destruct (_ || _); [done|]. cbv zeta. destruct (list_find _ _) as [[i w]|] eqn:Ef.
    + destruct (_ <? _) eqn:El; [done|]. by apply send_replaces.
    + destruct (_ || _) eqn:El; [done|]. apply orb_false_iff in El as [E1 E2]. by apply send_appends.
  - destruct e; [|by apply Hempty]. by destruct HQ.
  - unfold PeerTransport.take_work. destruct (PeerTransport.stopping_ t); [done|].
    pose proof (QueueOk_nonneg _ _ _ HQ) as Hn. destruct HQ as [Hl H1 Hcn [Hq Hqb] Hw]. cbn [fst snd] in *.
    destruct (PeerTransport.queue_ t) as [|w rest] eqn:Eq; cbn [fst].
    { constructor; cbn [fst snd]; by rewrite ?Eq. }
    cbn [map] in H1. apply NoDup_cons in H1 as [_ H1]. apply Forall_cons in Hw as [_ Hw]. apply Forall_cons in Hn as [Hw0 Hn].
    apply bytes_of_nonneg in Hn. cbn [bytes_of foldr] in Hq. fold (bytes_of rest) in Hq. unfold is_u64 in Hb.
    constructor; cbn [fst snd PeerTransport.set_queue PeerTransport.queue_ PeerTransport.queued_bytes_
      PeerTransport.capacity_ PeerTransport.byte_capacity_]; try done.
    + unfold size_of in *. cbn [length] in Hcn. lia.
    + rewrite u64_small by (unfold is_u64; lia). lia.
  - unfold PeerTransport.stop. destruct (PeerTransport.stopping_ t); [done|by apply Hempty].
Qed.

(** C35. The queue of outgoing requests stays within its limits and fresh.  After any
    requests, enabling and disabling, and requests taken by the workers, it holds
    at most one request for each peer, which is the last one accepted for that
    peer, no more requests and no more bytes than configured, and the byte
    counter is exact. *)
Theorem outgoing_requests_are_bounded_and_newest config capacity byte_capacity ops :
  is_u64 byte_capacity -> 0 <= capacity ->
  QueueOk capacity byte_capacity
    (foldl (fun st op => transport_step op st) (PeerTransport.make_transport config capacity byte_capacity, ∅) ops).
Proof.
  intros Hb Hc.
  assert (forall st, QueueOk capacity byte_capacity st ->
    QueueOk capacity byte_capacity (foldl (fun st op => transport_step op st) st ops)) as Hrun.
  { induction ops as [|op ops IH]; intros st Hst; [done|]. cbn [foldl]. by apply IH, transport_step_ok. }
  apply Hrun. unfold is_u64 in Hb.
  constructor; cbn; [done|constructor|unfold size_of; cbn; lia|lia|constructor].
Qed.

End Queue.
