(* ===== verification/TransportWitnesses.v ===== *)
(** * Witnesses for the peer transport

    A request for entries from node 1 to node 2, its answer, and a queue for two
    requests. *)

From S2P Require Import Prelude Wire Protocol RaftTypes RaftFormat ClusterCodecs StateMachine ClusterNode ClusterTheorems.
From S2P Require Import RaftNode RaftInvariant RaftStep RaftHandlers ClusterSafety OwnerTheorems PeerTransport.
From S2P Require Import TransportTheorems ClusterWitnesses.
Import ClusterCodecs ClusterNode.

(** Sizes of a compiler. *)
#[local] Instance example_sizes : PeerTransport.Sizeof :=
  {| PeerTransport.sizeof_RequestVote := 32; PeerTransport.sizeof_RequestVoteResponse := 16;
     PeerTransport.sizeof_AppendEntries := 72; PeerTransport.sizeof_AppendEntriesResponse := 40;
     PeerTransport.sizeof_InstallSnapshot := 88; PeerTransport.sizeof_InstallSnapshotResponse := 40;
     PeerTransport.sizeof_LogEntry := 48 |}.

Definition peer_address (id : NodeId) : PeerAddress :=
  {| pa_node_id := id; pa_host := text "127.0.0.1"; pa_peer_port := 9000 + id; pa_client_port := 8000 + id |}.

Definition peer_config (id : NodeId) : ClusterNodeConfig :=
  {| c_cluster_id := 9; c_node_id := id; c_peers := map peer_address [1; 2; 3]; c_raft_queue_capacity := 16;
     c_max_pending_reads := 16; c_snapshot_threshold := 2; c_client_timeout_ms := 1000 |}.

Definition sender : PeerTransport.Transport := PeerTransport.make_transport (peer_config 1) 2 300.

Definition sent_message : Message := pe_message example_envelope.

Definition answer_message : Message := MAppendEntriesResponse (mkAppendEntriesResponse 3 true 5 0 8).

Definition sent_frame : Frame :=
  match encode_peer_frame example_envelope 1 with Ok f => f | Throw _ => blank_frame end.

Definition answer_frame : Frame :=
  match answer_peer_frame (peer_config 2) sent_frame 1 (Some answer_message) with
  | Ok f => f
  | Throw _ => blank_frame
  end.

(** The request is accepted in two calls, the answer comes in two. *)
Definition connection : PeerTransport.Connection :=
  let bytes := sr_bytes (serialize answer_frame) in
  {| PeerTransport.connected := true;
     PeerTransport.send_calls := [PeerTransport.accepted 10; PeerTransport.send_interrupted; PeerTransport.accepted 500];
     PeerTransport.recv_calls := [PeerTransport.received (take 30 bytes); PeerTransport.recv_interrupted;
                                  PeerTransport.received (drop 30 bytes)] |}.


Lemma only_answers_reach_the_owner_witness :
  PeerTransport.matches_peer_request sent_message answer_message = true /\
  admitted (PeerResponse 2 answer_message).
Proof.
  destruct (only_answers_reach_the_owner (fun _ _ => connection) 2 sent_message sender 2 answer_message)
    as (_ & Hm & Ha & _); [by vm_compute|]. by split.
Defined.

(** The second request for peer 2 takes the place of the first, and the one for
    peer 3 finds no room. *)
Definition example_operations : list TransportOp :=
  [t_send 2 (MRequestVote (mkRequestVote 3 1 4 2)); t_send 2 sent_message; t_send 3 sent_message;
   t_send 3 (MRequestVote (mkRequestVote 3 1 4 2)); t_take].

Lemma outgoing_requests_are_bounded_and_newest_witness :
  QueueOk 2 200
    (foldl (fun st op => transport_step op st) (PeerTransport.make_transport (peer_config 1) 2 200, ∅)
       example_operations).
Proof. apply outgoing_requests_are_bounded_and_newest; by vm_compute. Defined.
