(* ===== verification/ClusterConfig.v ===== *)
(** * The configuration of a cluster node

    [parse_peer_address], the checks of [ClusterNode::start] on its configuration,
    and the Raft configuration that [owner_loop] derives from it
    (src/cluster/node.cpp). *)

From S2P Require Import Prelude Wire Protocol RaftTypes RaftNode RaftInvariant RaftSafety ClusterNode.
Import ClusterNode.

Module ClusterConfig.

(** ** Numbers *)

(** [isspace] of the C locale. *)
Definition is_space (b : byte) : bool :=
  Byte.eqb b Byte.x20 || ((9 <=? Z_of_byte b) && (Z_of_byte b <=? 13)).

Definition digit (b : byte) : option Z :=
  if (48 <=? Z_of_byte b) && (Z_of_byte b <=? 57) then Some (Z_of_byte b - 48) else None.

Fixpoint skip_spaces (s : list byte) : list byte :=
  match s with
  | b :: rest => if is_space b then skip_spaces rest else s
  | [] => []
  end.

(** The digits at the front: their value, and what follows them. *)
Fixpoint read_digits (value : Z) (s : list byte) : Z * list byte :=
  match s with
  | b :: rest => match digit b with Some d => read_digits (value * 10 + d) rest | None => (value, s) end
  | [] => (value, [])
  end.

(** [std::stoull]: the number and what of the text is left.  White space and a
    sign may come first; a negative number is negated modulo 2^64. *)
Definition stoull (s : list byte) : result (Z * list byte) :=
  let s := skip_spaces s in
  let '(negative, s) :=
    match s with
    | b :: rest => if Byte.eqb b Byte.x2d then (true, rest) else if Byte.eqb b Byte.x2b then (false, rest) else (false, s)
    | [] => (false, [])
    end in
  match s with
  | [] => Throw invalid_argument
  | b :: _ =>
      match digit b with
      | None => Throw invalid_argument
      | Some _ =>
          let '(value, rest) := read_digits 0 s in
          if u64_max <? value then Throw out_of_range
          else Ok (if negative : bool then u64 (- value) else value, rest)
      end
  end.

Definition parse_number (value : list byte) (maximum : Z) (allow_zero : bool) : result Z :=
  if bool_decide (value = []) then Throw invalid_argument
  else
    match stoull value with
    | Throw e => Throw e
    | Ok (number, rest) =>
        if negb (bool_decide (rest = [])) || (maximum <? number) || (negb allow_zero && (number =? 0))
        then Throw invalid_argument
        else Ok number
    end.

(** ** Addresses *)

(** [std::string_view::find] of a character. *)
Definition find_char (c : byte) (s : list byte) : option nat := fst <$> list_find (fun b => b = c) s.

(** The host of an endpoint and the ports behind it. *)
Definition split_endpoint (endpoint : list byte) : result (list byte * list byte) :=
  if bool_decide (head endpoint = Some Byte.x5b) then
    match find_char Byte.x5d endpoint with
    | None => Throw invalid_argument
    | Some closing =>
        if Nat.eqb closing 1 || Nat.leb (length endpoint) (closing + 1) ||
           negb (bool_decide (endpoint !! (closing + 1)%nat = Some Byte.x3a))
        then Throw invalid_argument
        else Ok (subspan 1 (closing - 1) endpoint, drop (closing + 2) endpoint)
    end
  else
    match find_char Byte.x3a endpoint with
    | None | Some O => Throw invalid_argument
    | Some first_colon => Ok (take first_colon endpoint, drop (first_colon + 1) endpoint)
    end.

Definition parse_peer_address (text : list byte) : result PeerAddress :=
  match find_char Byte.x3d text with
  | None | Some O => Throw invalid_argument
  | Some equals =>
      if Nat.eqb (equals + 1) (length text) then Throw invalid_argument
      else
        match parse_number (take equals text) u64_max true with
        | Throw e => Throw e
        | Ok node_id =>
            match split_endpoint (drop (equals + 1) text) with
            | Throw e => Throw e
            | Ok (host, ports) =>
                match find_char Byte.x3a ports with
                | None | Some O => Throw invalid_argument
                | Some separator =>
                    if bool_decide (host = []) || Nat.eqb (separator + 1) (length ports) ||
                       bool_decide (is_Some (find_char Byte.x3a (drop (separator + 1) ports)))
                    then Throw invalid_argument
                    else
                      match parse_number (take separator ports) 65535 false with
                      | Throw e => Throw e
                      | Ok peer_port =>
                          match parse_number (drop (separator + 1) ports) 65535 false with
                          | Throw e => Throw e
                          | Ok client_port =>
                              Ok {| pa_node_id := node_id; pa_host := host; pa_peer_port := peer_port;
                                    pa_client_port := client_port |}
                          end
                      end
                end
            end
        end
  end.

(** ** Validation *)

(** The options that [validation_error] reads. *)
Record Options := {
  o_cluster_id : Z;
  o_node_id : NodeId;
  o_data_directory : list byte;
  o_peers : list PeerAddress;
  o_election_timeout_min : LogicalTime;
  o_election_timeout_max : LogicalTime;
  o_heartbeat_interval : LogicalTime;
  o_raft_queue_capacity : Z;
  o_peer_queue_capacity : Z;
  o_peer_queue_byte_capacity : Z;
  o_peer_worker_threads : Z;
  o_max_pending_reads : Z;
  o_snapshot_threshold : Z;
  o_rpc_timeout_ms : Z;
  o_client_timeout_ms : Z
}.

Section Validation.
(** Whether [inet_pton] reads a host as an IPv4 or IPv6 address. *)
Context (numeric_host : list byte -> bool).

(** The loop over the peers, with the ids seen so far. *)
Fixpoint peer_ids (ids : list NodeId) (peers : list PeerAddress) : string + list NodeId :=
  match peers with
  | [] => inr ids
  | peer :: rest =>
      if (pa_node_id peer =? 0) || bool_decide (pa_host peer = []) || (pa_peer_port peer =? 0) ||
         (pa_client_port peer =? 0) || negb (numeric_host (pa_host peer)) ||
         bool_decide (pa_node_id peer ∈ ids)
      then inl "invalid or duplicate peer endpoint"%string
      else peer_ids (ids ++ [pa_node_id peer]) rest
  end.

Definition validation_error (c : Options) : option string :=
  if (o_cluster_id c =? 0) || (o_node_id c =? 0) || bool_decide (o_data_directory c = []) ||
     (o_raft_queue_capacity c =? 0) || (o_peer_queue_capacity c =? 0) || (o_peer_queue_byte_capacity c =? 0) ||
     (o_peer_worker_threads c =? 0) || (o_max_pending_reads c =? 0) || (o_snapshot_threshold c =? 0) ||
     (o_rpc_timeout_ms c =? 0) || (o_client_timeout_ms c =? 0)
  then Some "invalid zero/empty cluster configuration"%string
  else
    match peer_ids [] (o_peers c) with
    | inl error => Some error
    | inr ids =>
        if bool_decide (ids = []) || (7 <? size_of ids) || (size_of ids mod 2 =? 0) ||
           negb (bool_decide (o_node_id c ∈ ids))
        then Some "membership must contain 1, 3, 5, or 7 voters and include self"%string
        else if (o_election_timeout_min c <=? o_heartbeat_interval c) ||
                (o_election_timeout_max c <? o_election_timeout_min c)
        then Some "invalid Raft timer relationship"%string
        else None
    end.

End Validation.

Definition voter_ids (peers : list PeerAddress) : list NodeId := map pa_node_id peers.

(** The Raft configuration of [owner_loop]; the batch limits are the defaults of
    [RaftConfig]. *)
Definition raft_config (c : Options) : RaftConfig :=
  {| cfg_self_id := o_node_id c; cfg_cluster_id := o_cluster_id c; cfg_voters := voter_ids (o_peers c);
     cfg_election_timeout_min := o_election_timeout_min c; cfg_election_timeout_max := o_election_timeout_max c;
     cfg_heartbeat_interval := o_heartbeat_interval c;
     cfg_random_seed := Z.lxor (o_cluster_id c) (u64 (Z.shiftl (o_node_id c) 32));
     cfg_max_append_entries := 4096; cfg_max_append_bytes := 1049768 |}.

End ClusterConfig.
