(* ===== verification/ConfigTheorems.v ===== *)
(** * Reading and checking the configuration of a node *)

From S2P Require Import Prelude Wire Protocol RaftTypes RaftNode RaftInvariant RaftSafety ClusterNode ClusterConfig.
Import ClusterNode ClusterConfig.

(** ** Printed numbers are read back *)

Lemma digit_of_Z d : 0 <= d < 10 -> digit (byte_of_Z (48 + d)) = Some d.
Proof.
  intros ?. unfold digit. rewrite Z_of_byte_of_Z, Z.mod_small by lia.
  rewrite (proj2 (Z.leb_le 48 (48 + d))), (proj2 (Z.leb_le (48 + d) 57)) by lia. simpl. f_equal. lia.
Qed.

Lemma read_decimal fuel : forall n ds, (0 < fuel)%nat -> 0 <= n < 10 ^ Z.of_nat fuel ->
  read_digits 0 (decimal fuel n ds) = read_digits n ds.
Proof.
  induction fuel as [|fuel IH]; intros n ds ? Hn; [lia|]. cbn [decimal].
  pose proof (Z.mod_pos_bound n 10 ltac:(lia)). pose proof (Z.div_mod n 10 ltac:(lia)).
  destruct (Z.ltb_spec n 10).
  - rewrite Z.mod_small by lia. cbn [read_digits]. rewrite digit_of_Z by lia. f_equal.
  - rewrite Nat2Z.inj_succ, Z.pow_succ_r in Hn by lia. destruct fuel; [simpl in Hn; lia|].
    rewrite IH; [|lia|split; [apply Z.div_pos; lia|apply Z.div_lt_upper_bound; lia]].
    cbn [read_digits]. rewrite digit_of_Z by lia. f_equal. lia.
Qed.

Definition all_digits (s : list byte) : Prop := Forall (fun b => is_Some (digit b)) s.

Lemma decimal_digits fuel : forall n ds, all_digits ds -> all_digits (decimal fuel n ds).
Proof.
  induction fuel as [|fuel IH]; intros n ds Hds; [done|]. cbn [decimal].
  pose proof (Z.mod_pos_bound n 10 ltac:(lia)).
  assert (all_digits (byte_of_Z (48 + n mod 10) :: ds)) by (constructor; [rewrite digit_of_Z by lia; eauto|done]).
  destruct (n <? 10); auto.
Qed.

Lemma to_string_digits n : all_digits (to_string n).
Proof. apply decimal_digits. constructor. Qed.

Lemma decimal_nonempty fuel : forall n ds, (0 < fuel)%nat \/ ds <> [] -> decimal fuel n ds <> [].
Proof.
  induction fuel as [|fuel IH]; intros n ds [?|?]; [lia|done|..]; cbn [decimal];
    destruct (n <? 10); try done; apply IH; by right.
Qed.

Lemma to_string_nonempty n : to_string n <> [].
Proof. apply decimal_nonempty. left. lia. Qed.

Lemma digit_range b : is_Some (digit b) -> 48 <= Z_of_byte b <= 57.
Proof. unfold digit. intros [d Hd]. destruct (_ && _) eqn:E; [|done]. lia. Qed.

Lemma digit_not b c : is_Some (digit b) -> digit c = None -> b <> c.
Proof. intros [d Hd] ? ->. congruence. Qed.

Lemma stoull_to_string n : is_u64 n -> stoull (to_string n) = Ok (n, []).
Proof.
  intros Hn. pose proof (to_string_digits n) as Hd. pose proof (to_string_nonempty n).
  assert (read_digits 0 (to_string n) = (n, [])) as Hr.
  { unfold to_string. rewrite read_decimal; [done|lia|]. unfold is_u64, u64_max in *. lia. }
  destruct (to_string n) as [|b rest]; [done|]. apply Forall_cons in Hd as [Hb _].
  pose proof (digit_range b Hb) as Hbr. unfold stoull. cbn [skip_spaces].
  assert (is_space b = false) as ->.
  { unfold is_space. apply orb_false_iff. split; [|lia].
    destruct (Byte.eqb b Byte.x20) eqn:E; [|done]. apply Byte.byte_dec_bl in E. by subst. }
  destruct (Byte.eqb b Byte.x2d) eqn:E1; [apply Byte.byte_dec_bl in E1; by subst|].
  destruct (Byte.eqb b Byte.x2b) eqn:E2; [apply Byte.byte_dec_bl in E2; by subst|].
  destruct Hb as [d Hd]. rewrite Hd, Hr. destruct (Z.ltb_spec u64_max n); [unfold is_u64, u64_max in *; lia|done].
Qed.

Lemma parse_number_to_string n maximum allow_zero :
  is_u64 n -> n <= maximum -> allow_zero = true \/ n <> 0 ->
  parse_number (to_string n) maximum allow_zero = Ok n.
Proof.
  intros Hn ? Hz. unfold parse_number. rewrite bool_decide_false by apply to_string_nonempty.
  rewrite stoull_to_string by done. rewrite bool_decide_true by done. simpl.
  destruct (Z.ltb_spec maximum n); [lia|]. simpl.
  destruct Hz as [->|?]; [done|]. destruct (Z.eqb_spec n 0); [done|]. by rewrite andb_false_r.
Qed.

(** ** Addresses *)

(** How an address is written on the command line. *)
Definition address_text (a : PeerAddress) : list byte :=
  to_string (pa_node_id a) ++ Byte.x3d ::
  format_endpoint (pa_host a) (pa_peer_port a) ++ Byte.x3a :: to_string (pa_client_port a).

(** A host that can stand in an address: an IPv6 address ends at its bracket, and
    any other host starts with none. *)
Definition host_ok (host : list byte) : Prop :=
  host <> [] /\ if bool_decide (Byte.x3a ∈ host) then Byte.x5d ∉ host else head host <> Some Byte.x5b.

Lemma find_char_app c a b : c ∉ a -> find_char c (a ++ c :: b) = Some (length a).
Proof.
  intros Hc. unfold find_char. rewrite list_find_app_r.
  - simpl. rewrite decide_True by done. simpl. f_equal; lia.
  - apply list_find_None, Forall_forall. intros x Hx ->. done.
Qed.

Lemma find_char_absent c s : c ∉ s -> find_char c s = None.
Proof.
  intros Hc. unfold find_char. rewrite (proj2 (list_find_None _ s)); [done|].
  apply Forall_forall. intros x Hx ->. done.
Qed.

Lemma drop_past {A} (a : list A) c b : drop (length a + 1) (a ++ c :: b) = b.
Proof. rewrite drop_app_ge by lia. by replace (length a + 1 - length a)%nat with 1%nat by lia. Qed.

Lemma digits_no c s : all_digits s -> digit c = None -> c ∉ s.
Proof. intros Hs Hc Hin. destruct (proj1 (Forall_forall _ s) Hs c Hin). congruence. Qed.

Lemma no_char_in_number c n : digit c = None -> c ∉ to_string n.
Proof. apply digits_no, to_string_digits. Qed.

Lemma split_bracketed host ports :
  host <> [] -> Byte.x5d ∉ host ->
  split_endpoint (Byte.x5b :: host ++ Byte.x5d :: Byte.x3a :: ports) = Ok (host, ports).
Proof.
  intros Hne Hin. unfold split_endpoint. rewrite bool_decide_true by done.
  pose proof (find_char_app Byte.x5d (Byte.x5b :: host) (Byte.x3a :: ports)
    ltac:(apply not_elem_of_cons; done)) as Hf.
  cbn [app length] in Hf. rewrite Hf.
  rewrite (proj2 (Nat.eqb_neq _ _)) by (destruct host; [done|simpl; lia]).
  rewrite (proj2 (Nat.leb_gt _ _)) by (cbn [length]; rewrite length_app; cbn [length]; lia).
  assert ((host ++ Byte.x5d :: Byte.x3a :: ports) !! (length host + 1)%nat = Some Byte.x3a) as Hat.
  { rewrite lookup_app_r by lia. replace (length host + 1 - length host)%nat with 1%nat by lia. done. }
  rewrite bool_decide_true by exact Hat.
  cbn [orb negb]. unfold subspan. do 2 f_equal.
  - cbn [drop]. apply take_app_length'. lia.
  - cbn [drop Nat.add]. rewrite drop_app_ge by lia.
    by replace (length host + 2 - length host)%nat with 2%nat by lia.
Qed.

Lemma split_plain host ports :
  host <> [] -> Byte.x3a ∉ host -> head host <> Some Byte.x5b ->
  split_endpoint (host ++ Byte.x3a :: ports) = Ok (host, ports).
Proof.
  intros Hne Hin Hh. unfold split_endpoint.
  rewrite bool_decide_false by (by destruct host). rewrite find_char_app by done.
  destruct (length host) as [|n] eqn:Hl; [by destruct host|]. do 2 f_equal.
  - by apply take_app_length'.
  - rewrite <- Hl. apply drop_past.
Qed.

Lemma split_format_endpoint host port rest :
  host_ok host ->
  split_endpoint (format_endpoint host port ++ rest) = Ok (host, to_string port ++ rest).
Proof.
  intros [Hne Hok]. unfold format_endpoint. case_bool_decide.
  - change (text "[") with [Byte.x5b]. change (text "]:") with [Byte.x5d; Byte.x3a].
    rewrite <- !app_assoc. by apply split_bracketed.
  - change (text ":") with [Byte.x3a]. rewrite <- !app_assoc. by apply split_plain.
Qed.

(** [parse_peer_address] reads back every address in the form
    [node_id=endpoint:client_port], the endpoint as [format_endpoint] writes it, IPv6 hosts
    in brackets included. *)
Theorem addresses_are_read_back (a : PeerAddress) :
  is_u64 (pa_node_id a) -> host_ok (pa_host a) ->
  0 < pa_peer_port a <= 65535 -> 0 < pa_client_port a <= 65535 ->
  parse_peer_address (address_text a) = Ok a.
Proof.
  destruct a as [id host peer client]. unfold parse_peer_address, address_text.
  cbn [pa_node_id pa_host pa_peer_port pa_client_port]. intros Hid Hh Hp Hc.
  assert (forall n, 0 < n <= 65535 -> is_u64 n) as Hport by (unfold is_u64, u64_max; lia).
  rewrite find_char_app by (by apply no_char_in_number).
  destruct (length (to_string id)) as [|n] eqn:Hl.
  { by apply nil_length_inv, to_string_nonempty in Hl. }
  rewrite <- Hl. rewrite (proj2 (Nat.eqb_neq _ _))
    by (rewrite !length_app; cbn [length]; rewrite !length_app; cbn [length]; lia).
  rewrite take_app_length, parse_number_to_string by (auto; unfold is_u64, u64_max in *; lia).
  rewrite drop_past, split_format_endpoint by done.
  rewrite find_char_app by (by apply no_char_in_number).
  destruct (length (to_string peer)) as [|m] eqn:Hl2.
  { by apply nil_length_inv, to_string_nonempty in Hl2. }
  rewrite <- Hl2. rewrite bool_decide_false by apply Hh.
  pose proof (to_string_nonempty client). rewrite (proj2 (Nat.eqb_neq _ _))
    by (rewrite !length_app; cbn [length]; destruct (to_string client); [done|cbn [length]; lia]).
  rewrite drop_past. cbn [orb]. rewrite find_char_absent by (by apply no_char_in_number).
  rewrite bool_decide_false by (by intros [? ?]).
  rewrite take_app_length, !parse_number_to_string by (auto; lia). done.
Qed.

(** ** Validation *)

Section Validation.
Context (numeric_host : list byte -> bool).

Lemma peer_ids_spec peers : forall seen ids,
  NoDup seen -> (forall v, v ∈ seen -> v <> 0) -> peer_ids numeric_host seen peers = inr ids ->
  ids = seen ++ voter_ids peers /\ NoDup ids /\ forall v, v ∈ ids -> v <> 0.
Proof.
  induction peers as [|p peers IH]; intros seen ids Hn Hz; cbn [peer_ids].
  { intros [= <-]. cbn. by rewrite app_nil_r. }
  destruct (_ || bool_decide (pa_node_id p ∈ seen)) eqn:E; [done|].
  apply orb_false_iff in E as [E Hs%bool_decide_eq_false]. rewrite !orb_false_iff in E.
  intros (-> & Hd & Hv)%IH.
  - cbn [voter_ids map] in *. rewrite <- app_assoc in *. auto.
  - apply NoDup_app. split_and!; [done|set_solver|apply NoDup_singleton].
  - intros v [?| ->%list_elem_of_singleton]%elem_of_app; [auto|]. lia.
Qed.

(** C36. What [ClusterNode::start] checks against what the Raft core asks: the Raft
    configuration that the owner thread derives from a configuration that passed
    [validation_error] is accepted by [validate_raft_config] exactly if the heartbeat
    interval is not zero.  A zero interval passes the node's own check, and is
    refused only when the owner thread opens the persisted node. *)
Theorem validated_configurations_start (c : Options) :
  validation_error numeric_host c = None -> 0 <= o_heartbeat_interval c ->
  validate_raft_config (raft_config c) =
    if o_heartbeat_interval c =? 0 then Throw invalid_argument else Ok tt.
Proof.
  unfold validation_error. intros Hv Hh. destruct (_ || (o_client_timeout_ms c =? 0)); [done|].
  destruct (peer_ids _ _ _) as [?|ids] eqn:Hp; [done|].
  apply peer_ids_spec in Hp as (-> & Hn & Hz); [|constructor|set_solver]. cbn [app] in *.
  destruct (_ || negb _) eqn:E1; [done|]. rewrite !orb_false_iff, negb_false_iff in E1.
  destruct E1 as [[[Hne%bool_decide_eq_false H7] Hodd] Hself].
  destruct (_ || _) eqn:E2; [done|]. apply orb_false_iff in E2 as [E2 E3].
  unfold validate_raft_config. cbn -[Z.ltb Z.leb Z.modulo voters_unique].
  rewrite H7, Hodd, Hself, (proj2 (voters_unique_spec ∅ _)) by set_solver.
  rewrite (proj2 (Z.eqb_neq (size_of _) 0))
    by (unfold size_of; destruct (voter_ids _); [done|simpl; lia]).
  rewrite E2, E3, (proj2 (Z.eqb_neq (o_election_timeout_min c) 0)) by lia.
  cbn [orb negb]. by destruct (o_heartbeat_interval c =? 0).
Qed.

End Validation.

(** ** Witnesses *)

Definition example_address : PeerAddress :=
  {| pa_node_id := 3; pa_host := text "::1"; pa_peer_port := 9001; pa_client_port := 8001 |}.

Lemma addresses_are_read_back_witness :
  address_text example_address = text "3=[::1]:9001:8001" /\
  parse_peer_address (address_text example_address) = Ok example_address.
Proof.
  split; [reflexivity|]. apply addresses_are_read_back; [by cbv|split; [done|]|by cbv|by cbv].
  vm_compute. intros H. repeat (apply elem_of_cons in H as [?|H]; [done|]). by apply elem_of_nil in H.
Defined.

Definition example_options (heartbeat : Z) : Options :=
  {| o_cluster_id := 7; o_node_id := 3; o_data_directory := text "data"; o_peers := [example_address];
     o_election_timeout_min := 600; o_election_timeout_max := 1000; o_heartbeat_interval := heartbeat;
     o_raft_queue_capacity := 4096; o_peer_queue_capacity := 4096; o_peer_queue_byte_capacity := 16777216;
     o_peer_worker_threads := 2; o_max_pending_reads := 64; o_snapshot_threshold := 1024;
     o_rpc_timeout_ms := 500; o_client_timeout_ms := 10000 |}.

Lemma validated_configurations_start_witness :
  validate_raft_config (raft_config (example_options 150)) = Ok tt /\
  validate_raft_config (raft_config (example_options 0)) = Throw invalid_argument.
Proof.
  split.
  - apply (validated_configurations_start (fun _ => true) (example_options 150)); [by vm_compute|done].
  - apply (validated_configurations_start (fun _ => true) (example_options 0)); [by vm_compute|done].
Defined.
