(* ===== verification/RequestExecutor.v ===== *)
(** * The pool of request handlers

    [RequestExecutor] of src/server/request_executor.cpp: a bounded queue of
    requests and the workers that run the handler on them.  Each step of a worker
    is one of its critical sections, so that workers, submitters and [stop]
    interleave as the threads do. *)

From S2P Require Import Prelude Wire Protocol.

Module RequestExecutor.

(** ** Data *)

Record ConnectionToken : Set := {
  tk_id : Z;
  tk_generation : Z
}.

#[export] Instance ConnectionToken_eq_dec : EqDecision ConnectionToken.
Proof. solve_decision. Defined.

Record Request : Set := {
  rq_token : ConnectionToken;
  rq_frame : Frame;
  rq_wire_bytes : Z
}.

Record RequestMetadata : Set := {
  md_namespace : Namespace;
  md_type : MessageType;
  md_request_id : Z
}.

Record Completion : Set := {
  cp_token : ConnectionToken;
  cp_request : RequestMetadata;
  cp_frame : Frame
}.

(** Where a worker is between its critical sections. *)
Inductive Worker : Set :=
| waiting
| handling (request : Request)
| delivering (completion : Completion)
| left_loop.

#[export] Instance Worker_inhabited : Inhabited Worker := populate waiting.

Record Executor : Set := {
  max_items_ : Z;
  max_bytes_ : Z;
  queue_ : list Request;
  workers_ : list Worker;
  outstanding_items_ : Z;
  outstanding_bytes_ : Z;
  stopping_ : bool
}.

(** What a call of the handler ends in: its response, an exception with its text,
    or something else that was thrown. *)
Inductive Outcome : Set :=
| returned (response : Frame)
| threw (what : option (list byte))
| threw_unknown.

(** ** Operations *)

Definition make (worker_count max_items max_bytes : Z) : result Executor :=
  if (worker_count =? 0) || (max_items =? 0) || (max_bytes =? 0) then Throw invalid_argument
  else
    Ok {| max_items_ := max_items; max_bytes_ := max_bytes; queue_ := [];
          workers_ := replicate (Z.to_nat worker_count) waiting;
          outstanding_items_ := 0; outstanding_bytes_ := 0; stopping_ := false |}.

Definition try_submit (request : Request) (e : Executor) : Executor * bool :=
  if stopping_ e || (max_items_ e <=? outstanding_items_ e) ||
     (u64 (max_bytes_ e - outstanding_bytes_ e) <? rq_wire_bytes request)
  then (e, false)
  else
    ({| max_items_ := max_items_ e; max_bytes_ := max_bytes_ e; queue_ := queue_ e ++ [request];
        workers_ := workers_ e; outstanding_items_ := u64 (outstanding_items_ e + 1);
        outstanding_bytes_ := u64 (outstanding_bytes_ e + rq_wire_bytes request);
        stopping_ := stopping_ e |}, true).

(** [stop] up to the joining of the workers. *)
Definition stop (e : Executor) : Executor :=
  {| max_items_ := max_items_ e; max_bytes_ := max_bytes_ e; queue_ := queue_ e; workers_ := workers_ e;
     outstanding_items_ := outstanding_items_ e; outstanding_bytes_ := outstanding_bytes_ e; stopping_ := true |}.

Definition kMaximumDiagnosticBytes : nat := 1024.

Definition error_response (request : Frame) (message : option (list byte)) : Frame :=
  let text :=
    match message with None => String.list_byte_of_string "handler failure" | Some message => message end in
  {| message_namespace := Namespace_client; message_type := MessageType_error; flags := Byte.x00;
     request_id := request_id request; payload := take kMaximumDiagnosticBytes text |}.

Definition response_of (request : Frame) (outcome : Outcome) : Frame :=
  match outcome with
  | returned response => response
  | threw what => error_response request what
  | threw_unknown => error_response request (Some (String.list_byte_of_string "unknown handler failure"))
  end.

Definition metadata_of (frame : Frame) : RequestMetadata :=
  {| md_namespace := message_namespace frame; md_type := message_type frame; md_request_id := request_id frame |}.

(** The first critical section of [worker_loop]: the worker leaves, waits on, or
    takes the front of the queue. *)
Definition worker_take (i : nat) (e : Executor) : Executor :=
  match workers_ e !! i with
  | Some waiting =>
      let '(queue, worker) :=
        match queue_ e with
        | [] => ([], if stopping_ e then left_loop else waiting)
        | request :: rest => (rest, handling request)
        end in
      {| max_items_ := max_items_ e; max_bytes_ := max_bytes_ e; queue_ := queue;
         workers_ := <[i := worker]> (workers_ e); outstanding_items_ := outstanding_items_ e;
         outstanding_bytes_ := outstanding_bytes_ e; stopping_ := stopping_ e |}
  | _ => e
  end.

(** The handler, as it behaves in this call, returns or throws, and the second
    critical section releases the request's share of the limits. *)
Definition worker_respond (i : nat) (handler : Frame -> Outcome) (e : Executor) : Executor :=
  match workers_ e !! i with
  | Some (handling request) =>
      {| max_items_ := max_items_ e; max_bytes_ := max_bytes_ e; queue_ := queue_ e;
         workers_ := <[i := delivering {| cp_token := rq_token request; cp_request := metadata_of (rq_frame request);
                                          cp_frame := response_of (rq_frame request) (handler (rq_frame request)) |}]> (workers_ e);
         outstanding_items_ := u64 (outstanding_items_ e - 1);
         outstanding_bytes_ := u64 (outstanding_bytes_ e - rq_wire_bytes request); stopping_ := stopping_ e |}
  | _ => e
  end.

(** The completion that is handed to the sink. *)
Definition worker_deliver (i : nat) (e : Executor) : Executor * option Completion :=
  match workers_ e !! i with
  | Some (delivering completion) =>
      ({| max_items_ := max_items_ e; max_bytes_ := max_bytes_ e; queue_ := queue_ e;
          workers_ := <[i := waiting]> (workers_ e); outstanding_items_ := outstanding_items_ e;
          outstanding_bytes_ := outstanding_bytes_ e; stopping_ := stopping_ e |}, Some completion)
  | _ => (e, None)
  end.

End RequestExecutor.
