(* ===== verification/TcpServer.v ===== *)
(** * The TCP server

    The reactor of src/server/tcp_server.cpp: connections, the dispatch of parsed
    requests to the executor, the queueing and writing of responses, and
    backpressure.  The calls on sockets are inputs.

    The source passes connections by reference.  A reference is modelled by the
    descriptor of the connection; using it after the connection has been erased
    is undefined behaviour, and the model then has no result ([None]).  The
    metrics, the observers, which only feed them, and the time of the last
    activity, which is never read, are left out. *)

From S2P Require Import Prelude Wire Protocol RequestExecutor.
Import RequestExecutor.

Module TcpServer.

Record ReactorConfig : Set := {
  max_request_size : Z;
  max_buffered_input_per_connection : Z;
  max_buffered_output_per_connection : Z;
  max_requests_in_flight_per_connection : Z;
  global_outstanding_work : Z;
  global_queued_work_bytes : Z;
  max_connections : Z;
  max_events_per_wait : Z;
  read_budget_per_event : Z;
  write_budget_per_event : Z;
  worker_threads : Z
}.

Definition validation_error (c : ReactorConfig) : option string :=
  if (max_request_size c <? Z.of_nat kHeaderSize) || (kMaxFrameSize <? max_request_size c)
  then Some "max_request_size is outside protocol bounds"%string
  else if max_buffered_input_per_connection c <? max_request_size c
  then Some "input buffer limit is smaller than one maximum request"%string
  else if max_buffered_output_per_connection c <? Z.of_nat kHeaderSize
  then Some "output buffer limit is smaller than one frame header"%string
  else if max_requests_in_flight_per_connection c =? 0
  then Some "per-connection in-flight limit must be positive"%string
  else if global_outstanding_work c <? max_requests_in_flight_per_connection c
  then Some "global work limit is smaller than the per-connection limit"%string
  else if global_queued_work_bytes c <? max_request_size c
  then Some "global work byte limit is smaller than one maximum request"%string
  else if (max_connections c =? 0) || (max_events_per_wait c =? 0) || (read_budget_per_event c =? 0) ||
          (write_budget_per_event c =? 0) || (worker_threads c =? 0)
  then Some "reactor counts, budgets, and worker count must be positive"%string
  else None.

(** ** State *)

Record Connection : Set := {
  fd : Z;
  token : ConnectionToken;
  parser : Parser;
  write_queue : list (list byte);
  write_offset : Z;
  buffered_output_bytes : Z;
  pending_request_count : Z;
  read_paused : bool;
  backpressured : bool
}.

(** A step of another thread: a worker of the executor takes a request, its handler
    ends, it hands over its completion; or the executor is told to stop. *)
Inductive ThreadStep : Set :=
| takes (i : nat)
| responds (i : nat) (handler : Frame -> Outcome)
| delivers (i : nat)
| stops.

(** What the reactor does to a connection: bytes are read from the socket, a request
    is dispatched, a response is queued, the socket takes bytes. *)
Inductive Event : Set :=
| bytes_read (t : ConnectionToken) (bytes : list byte)
| request_parsed (t : ConnectionToken) (request : Frame)
| response_queued (t : ConnectionToken) (response : Frame)
| bytes_written (t : ConnectionToken) (bytes : list byte).

(** [interest_] is what epoll watches for each descriptor: input, output.
    [schedule_] says what the other threads do before each submission of a
    request, and [log_] is what has been observed. *)
Record Reactor : Set := {
  config_ : ReactorConfig;
  executor_ : Executor;
  global_outstanding_ : Z;
  connections_ : gmap Z Connection;
  token_to_fd_ : gmap Z Z;
  next_connection_id_ : Z;
  next_generation_ : Z;
  completions_ : list Completion;
  completion_bytes_ : Z;
  interest_ : gmap Z (bool * bool);
  schedule_ : list (list ThreadStep);
  log_ : list Event
}.

Definition with_executor (x : Executor) (r : Reactor) : Reactor :=
  {| config_ := config_ r; executor_ := x; global_outstanding_ := global_outstanding_ r; connections_ := connections_ r;
     token_to_fd_ := token_to_fd_ r; next_connection_id_ := next_connection_id_ r; next_generation_ := next_generation_ r;
     completions_ := completions_ r; completion_bytes_ := completion_bytes_ r; interest_ := interest_ r;
     schedule_ := schedule_ r; log_ := log_ r |}.
Definition with_global (x : Z) (r : Reactor) : Reactor :=
  {| config_ := config_ r; executor_ := executor_ r; global_outstanding_ := x; connections_ := connections_ r;
     token_to_fd_ := token_to_fd_ r; next_connection_id_ := next_connection_id_ r; next_generation_ := next_generation_ r;
     completions_ := completions_ r; completion_bytes_ := completion_bytes_ r; interest_ := interest_ r;
     schedule_ := schedule_ r; log_ := log_ r |}.
Definition with_connections (x : gmap Z Connection) (r : Reactor) : Reactor :=
  {| config_ := config_ r; executor_ := executor_ r; global_outstanding_ := global_outstanding_ r; connections_ := x;
     token_to_fd_ := token_to_fd_ r; next_connection_id_ := next_connection_id_ r; next_generation_ := next_generation_ r;
     completions_ := completions_ r; completion_bytes_ := completion_bytes_ r; interest_ := interest_ r;
     schedule_ := schedule_ r; log_ := log_ r |}.
Definition with_tokens (x : gmap Z Z) (r : Reactor) : Reactor :=
  {| config_ := config_ r; executor_ := executor_ r; global_outstanding_ := global_outstanding_ r; connections_ := connections_ r;
     token_to_fd_ := x; next_connection_id_ := next_connection_id_ r; next_generation_ := next_generation_ r;
     completions_ := completions_ r; completion_bytes_ := completion_bytes_ r; interest_ := interest_ r;
     schedule_ := schedule_ r; log_ := log_ r |}.
Definition with_ids (id generation : Z) (r : Reactor) : Reactor :=
  {| config_ := config_ r; executor_ := executor_ r; global_outstanding_ := global_outstanding_ r; connections_ := connections_ r;
     token_to_fd_ := token_to_fd_ r; next_connection_id_ := id; next_generation_ := generation;
     completions_ := completions_ r; completion_bytes_ := completion_bytes_ r; interest_ := interest_ r;
     schedule_ := schedule_ r; log_ := log_ r |}.
Definition with_completions (x : list Completion) (bytes : Z) (r : Reactor) : Reactor :=
  {| config_ := config_ r; executor_ := executor_ r; global_outstanding_ := global_outstanding_ r; connections_ := connections_ r;
     token_to_fd_ := token_to_fd_ r; next_connection_id_ := next_connection_id_ r; next_generation_ := next_generation_ r;
     completions_ := x; completion_bytes_ := bytes; interest_ := interest_ r;
     schedule_ := schedule_ r; log_ := log_ r |}.
Definition with_interest (x : gmap Z (bool * bool)) (r : Reactor) : Reactor :=
  {| config_ := config_ r; executor_ := executor_ r; global_outstanding_ := global_outstanding_ r; connections_ := connections_ r;
     token_to_fd_ := token_to_fd_ r; next_connection_id_ := next_connection_id_ r; next_generation_ := next_generation_ r;
     completions_ := completions_ r; completion_bytes_ := completion_bytes_ r; interest_ := x;
     schedule_ := schedule_ r; log_ := log_ r |}.
Definition with_schedule (x : list (list ThreadStep)) (r : Reactor) : Reactor :=
  {| config_ := config_ r; executor_ := executor_ r; global_outstanding_ := global_outstanding_ r; connections_ := connections_ r;
     token_to_fd_ := token_to_fd_ r; next_connection_id_ := next_connection_id_ r; next_generation_ := next_generation_ r;
     completions_ := completions_ r; completion_bytes_ := completion_bytes_ r; interest_ := interest_ r;
     schedule_ := x; log_ := log_ r |}.

Definition observe (e : Event) (r : Reactor) : Reactor :=
  {| config_ := config_ r; executor_ := executor_ r; global_outstanding_ := global_outstanding_ r; connections_ := connections_ r;
     token_to_fd_ := token_to_fd_ r; next_connection_id_ := next_connection_id_ r; next_generation_ := next_generation_ r;
     completions_ := completions_ r; completion_bytes_ := completion_bytes_ r; interest_ := interest_ r;
     schedule_ := schedule_ r; log_ := log_ r ++ [e] |}.

Definition put_connection (c : Connection) (r : Reactor) : Reactor :=
  with_connections (<[fd c := c]> (connections_ r)) r.

Definition with_parser (x : Parser) (c : Connection) : Connection :=
  {| fd := fd c; token := token c; parser := x; write_queue := write_queue c; write_offset := write_offset c;
     buffered_output_bytes := buffered_output_bytes c; pending_request_count := pending_request_count c;
     read_paused := read_paused c; backpressured := backpressured c |}.
Definition with_output (queue : list (list byte)) (offset bytes : Z) (c : Connection) : Connection :=
  {| fd := fd c; token := token c; parser := parser c; write_queue := queue; write_offset := offset;
     buffered_output_bytes := bytes; pending_request_count := pending_request_count c;
     read_paused := read_paused c; backpressured := backpressured c |}.
Definition with_pending (x : Z) (c : Connection) : Connection :=
  {| fd := fd c; token := token c; parser := parser c; write_queue := write_queue c; write_offset := write_offset c;
     buffered_output_bytes := buffered_output_bytes c; pending_request_count := x;
     read_paused := read_paused c; backpressured := backpressured c |}.
Definition with_backpressure (x : bool) (c : Connection) : Connection :=
  {| fd := fd c; token := token c; parser := parser c; write_queue := write_queue c; write_offset := write_offset c;
     buffered_output_bytes := buffered_output_bytes c; pending_request_count := pending_request_count c;
     read_paused := x; backpressured := x |}.

(** The constructor. *)
Definition make_server (config : ReactorConfig) (schedule : list (list ThreadStep)) : result Reactor :=
  match make (worker_threads config) (global_outstanding_work config) (global_queued_work_bytes config) with
  | Throw e => Throw e
  | Ok executor =>
      Ok {| config_ := config; executor_ := executor; global_outstanding_ := 0; connections_ := ∅;
            token_to_fd_ := ∅; next_connection_id_ := 1; next_generation_ := 1; completions_ := [];
            completion_bytes_ := 0; interest_ := ∅; schedule_ := schedule; log_ := [] |}
  end.

(** The check of [start]: the reactor runs only when there is no error. *)
Definition start_error (r : Reactor) : option string := validation_error (config_ r).

(** ** Completions of the workers *)

Definition busy_response (id : Z) : Frame :=
  {| message_namespace := Namespace_client; message_type := MessageType_busy; flags := Byte.x00;
     request_id := id; payload := zero_bytes 4 |}.

Definition frame_size (frame : Frame) : Z := Z.of_nat kHeaderSize + size_of (payload frame).

Definition post_completion (completion : Completion) (r : Reactor) : Reactor :=
  let limit := global_queued_work_bytes (config_ r) in
  let frame :=
    if limit - Z.min (completion_bytes_ r) limit <? frame_size (cp_frame completion)
    then busy_response (md_request_id (cp_request completion)) else cp_frame completion in
  with_completions
    (completions_ r ++ [{| cp_token := cp_token completion; cp_request := cp_request completion; cp_frame := frame |}])
    (u64 (completion_bytes_ r + frame_size frame)) r.

Definition thread_step (t : ThreadStep) (r : Reactor) : Reactor :=
  match t with
  | takes i => with_executor (worker_take i (executor_ r)) r
  | responds i handler => with_executor (worker_respond i handler (executor_ r)) r
  | delivers i =>
      let '(executor, delivered) := worker_deliver i (executor_ r) in
      let r := with_executor executor r in
      match delivered with None => r | Some completion => post_completion completion r end
  | stops => with_executor (stop (executor_ r)) r
  end.

Definition thread_steps (ts : list ThreadStep) (r : Reactor) : Reactor := foldl (fun r t => thread_step t r) r ts.

(** The other threads run before a submission. *)
Definition interleave (r : Reactor) : Reactor :=
  match schedule_ r with
  | [] => r
  | ts :: schedule => thread_steps ts (with_schedule schedule r)
  end.

(** ** Connections *)

Definition update_interest (c : Connection) (r : Reactor) : Reactor :=
  with_interest
    (alter (fun _ => (negb (read_paused c), negb (bool_decide (write_queue c = [])))) (fd c) (interest_ r)) r.

Definition close_connection (d : Z) (r : Reactor) : Reactor :=
  match connections_ r !! d with
  | None => r
  | Some connection =>
      with_connections (delete d (connections_ r))
        (with_interest (delete d (interest_ r))
           (with_tokens (delete (tk_id (token connection)) (token_to_fd_ r)) r))
  end.

Definition set_backpressured (d : Z) (value : bool) (r : Reactor) : option Reactor :=
  match connections_ r !! d with
  | None => None
  | Some connection =>
      if Bool.eqb (backpressured connection) value then Some r
      else
        let connection := with_backpressure value connection in
        Some (update_interest connection (put_connection connection r))
  end.

Definition queue_response (d : Z) (frame : Frame) (r : Reactor) : option (Reactor * bool) :=
  match connections_ r !! d with
  | None => None
  | Some connection =>
      let serialized := serialize frame in
      let limit := max_buffered_output_per_connection (config_ r) in
      if negb (bool_decide (sr_error serialized = none)) ||
         (limit - Z.min (buffered_output_bytes connection) limit <? size_of (sr_bytes serialized))
      then Some (close_connection d r, false)
      else
        let connection :=
          with_output (write_queue connection ++ [sr_bytes serialized]) (write_offset connection)
            (u64 (buffered_output_bytes connection + size_of (sr_bytes serialized))) connection in
        Some (update_interest connection (observe (response_queued (token connection) frame)
                (put_connection connection r)), true)
  end.

(** ** Dispatch *)

(** The branches of [dispatch] that refuse a request. *)
Definition reject (d : Z) (frame : Frame) (r : Reactor) : option (Reactor * bool) :=
  match queue_response d (busy_response (request_id frame)) r with
  | None => None
  | Some (r, queued) =>
      match set_backpressured d true r with
      | None => None
      | Some r => Some (r, queued)
      end
  end.

Definition dispatch (d : Z) (frame : Frame) (r : Reactor) : option (Reactor * bool) :=
  match connections_ r !! d with
  | None => None
  | Some connection =>
      let wire_bytes := frame_size frame in
      if max_request_size (config_ r) <? wire_bytes then Some (close_connection d r, false)
      else
        let r := observe (request_parsed (token connection) frame) r in
        let limit := max_requests_in_flight_per_connection (config_ r) in
        if (limit <=? pending_request_count connection) ||
           (global_outstanding_work (config_ r) <=? global_outstanding_ r)
        then reject d frame r
        else
          let r := interleave r in
          let '(executor, submitted) :=
            try_submit {| rq_token := token connection; rq_frame := frame; rq_wire_bytes := wire_bytes |}
              (executor_ r) in
          let r := with_executor executor r in
          if negb submitted then reject d frame r
          else
            let connection := with_pending (u64 (pending_request_count connection + 1)) connection in
            let r := with_global (u64 (global_outstanding_ r + 1)) (put_connection connection r) in
            if limit <=? pending_request_count connection then
              match set_backpressured d true r with None => None | Some r => Some (r, true) end
            else Some (r, true)
  end.

(** The loop over the frames of a batch; [false] when the connection is gone. *)
Fixpoint dispatch_all (d : Z) (frames : list Frame) (r : Reactor) : option (Reactor * bool) :=
  match frames with
  | [] => Some (r, true)
  | frame :: rest =>
      match dispatch d frame r with
      | None => None
      | Some (r, dispatched) =>
          if negb dispatched && bool_decide (connections_ r !! d = None) then Some (r, false)
          else dispatch_all d rest r
      end
  end.

(** ** Reading *)

(** What a call of [recv] ends in: bytes (none when the peer has closed its side),
    an interruption, nothing to read, or another error. *)
Inductive Received : Set :=
| received (bytes : list byte)
| recv_interrupted
| recv_would_block
| recv_failed.

Definition buffer_size : Z := 65536.

(** [recv] hands over no more than was asked for; when no more calls are given,
    there is nothing to read. *)
Fixpoint read_loop (calls : list Received) (budget : Z) (d : Z) (r : Reactor) : option Reactor :=
  match connections_ r !! d with
  | None => Some r
  | Some connection =>
      if (budget <=? 0) || read_paused connection then Some r
      else
        match calls with
        | [] | recv_would_block :: _ => Some r
        | recv_interrupted :: calls' => read_loop calls' budget d r
        | recv_failed :: _ => Some (close_connection d r)
        | received bytes :: calls' =>
            let bytes := take (Z.to_nat (Z.min buffer_size budget)) bytes in
            if bool_decide (bytes = []) then Some (close_connection d r)
            else
              match consume (parser connection) bytes with
              | None => None
              | Some (p, batch) =>
                  let r := observe (bytes_read (token connection) bytes) (put_connection (with_parser p connection) r) in
                  if negb (bool_decide (pb_error batch = none)) ||
                     (max_buffered_input_per_connection (config_ r) <? buffered_bytes p)
                  then Some (close_connection d r)
                  else
                    match dispatch_all d (pb_frames batch) r with
                    | None => None
                    | Some (r, false) => Some r
                    | Some (r, true) => read_loop calls' (budget - size_of bytes) d r
                    end
              end
        end
  end.

Definition read_connection (calls : list Received) (d : Z) (r : Reactor) : option Reactor :=
  read_loop calls (read_budget_per_event (config_ r)) d r.

(** ** Writing *)

(** What a call of [send] ends in: so many bytes taken, an interruption, no room,
    or another error. *)
Inductive Sent : Set :=
| accepted (count : nat)
| send_interrupted
| send_would_block
| send_failed.

(** The output after the socket has taken bytes of the front of the queue. *)
Definition take_output (front : list byte) (rest : list (list byte)) (sent : Z) (c : Connection) : Connection :=
  let offset := write_offset c + sent in
  let bytes := u64 (buffered_output_bytes c - sent) in
  if offset =? size_of front then with_output rest 0 bytes c else with_output (front :: rest) offset bytes c.

Fixpoint write_loop (calls : list Sent) (budget : Z) (d : Z) (r : Reactor) : Reactor :=
  match connections_ r !! d with
  | None => r
  | Some connection =>
      match write_queue connection with
      | [] => update_interest connection r
      | front :: rest =>
          if budget <=? 0 then update_interest connection r
          else
            match calls with
            | [] | send_would_block :: _ => update_interest connection r
            | send_interrupted :: calls' => write_loop calls' budget d r
            | send_failed :: _ | accepted O :: _ => close_connection d r
            | accepted count :: calls' =>
                let requested := Z.min (size_of front - write_offset connection) budget in
                let sent := Z.min (Z.of_nat count) requested in
                let bytes := subspan (Z.to_nat (write_offset connection)) (Z.to_nat sent) front in
                write_loop calls' (budget - sent) d
                  (observe (bytes_written (token connection) bytes)
                     (put_connection (take_output front rest sent connection) r))
            end
      end
  end.

Definition write_connection (calls : list Sent) (d : Z) (r : Reactor) : Reactor :=
  write_loop calls (write_budget_per_event (config_ r)) d r.

(** ** Accepting *)

(** What a call of [accept4] ends in: a descriptor, with whether [set_tcp_nodelay]
    and the registration with epoll succeed, an interruption, or no connection. *)
Inductive Accepted : Set :=
| connected (d : Z) (nodelay registered : bool)
| accept_interrupted
| accept_failed.

Definition new_connection (d : Z) (t : ConnectionToken) : Connection :=
  {| fd := d; token := t; parser := Parser_default; write_queue := []; write_offset := 0;
     buffered_output_bytes := 0; pending_request_count := 0; read_paused := false; backpressured := false |}.

(** [std::unordered_map::emplace] keeps an entry that is there. *)
Definition try_emplace {A} (k : Z) (a : A) (m : gmap Z A) : gmap Z A :=
  match m !! k with Some _ => m | None => <[k := a]> m end.

Definition add_connection (d : Z) (registered : bool) (r : Reactor) : Reactor :=
  let t := {| tk_id := next_connection_id_ r; tk_generation := next_generation_ r |} in
  let r := with_ids (u64 (next_connection_id_ r + 1)) (u64 (next_generation_ r + 1)) r in
  let r := with_connections (try_emplace d (new_connection d t) (connections_ r)) r in
  let r := with_tokens (try_emplace (tk_id t) d (token_to_fd_ r)) r in
  if registered then with_interest (<[d := (true, false)]> (interest_ r)) r else close_connection d r.

Fixpoint accept_connections (calls : list Accepted) (r : Reactor) : Reactor :=
  match calls with
  | [] | accept_failed :: _ => r
  | accept_interrupted :: calls' => accept_connections calls' r
  | connected d nodelay registered :: calls' =>
      if (max_connections (config_ r) <=? Z.of_nat (size (connections_ r))) || negb nodelay
      then accept_connections calls' r
      else accept_connections calls' (add_connection d registered r)
  end.

(** ** Completions *)

Definition complete (completion : Completion) (r : Reactor) : option Reactor :=
  let r := if 0 <? global_outstanding_ r then with_global (global_outstanding_ r - 1) r else r in
  match token_to_fd_ r !! tk_id (cp_token completion) with
  | None => Some r
  | Some d =>
      match connections_ r !! d with
      | None => Some r
      | Some connection =>
          if negb (bool_decide (token connection = cp_token completion)) then Some r
          else
            let pending := pending_request_count connection in
            let connection := if 0 <? pending then with_pending (pending - 1) connection else connection in
            match queue_response d (cp_frame completion) (put_connection connection r) with
            | None => None
            | Some (r, false) => Some r
            | Some (r, true) =>
                if backpressured connection &&
                   (pending_request_count connection <? max_requests_in_flight_per_connection (config_ r)) &&
                   (global_outstanding_ r <? global_outstanding_work (config_ r))
                then set_backpressured d false r
                else Some r
            end
      end
  end.

Fixpoint complete_all (completions : list Completion) (r : Reactor) : option Reactor :=
  match completions with
  | [] => Some r
  | completion :: rest => match complete completion r with None => None | Some r => complete_all rest r end
  end.

Definition process_completions (r : Reactor) : option Reactor :=
  complete_all (completions_ r) (with_completions [] 0 r).

(** ** Shutdown *)

(** The loop closes whichever connection comes first until none is left. *)
Definition close_all_connections (r : Reactor) : Reactor :=
  foldl (fun r d => close_connection d r) r (map_to_list (connections_ r)).*1.

(** What [run] does after its loop. *)
Definition shut_down (r : Reactor) : option Reactor :=
  match process_completions r with None => None | Some r => Some (close_all_connections r) end.

(** ** The loop *)

(** An event of the reactor, with the results of the calls it leads to. *)
Inductive Input : Set :=
| listener_ready (calls : list Accepted)
| woken
| connection_ready (d : Z) (error input output hangup : bool) (reads : list Received) (writes : list Sent)
| other_thread (t : ThreadStep).

Definition handle_connection (d : Z) (error input output hangup : bool) (reads : list Received) (writes : list Sent)
    (r : Reactor) : option Reactor :=
  if error then Some (close_connection d r)
  else
    match (if input then read_connection reads d r else Some r) with
    | None => None
    | Some r =>
        if bool_decide (connections_ r !! d = None) then Some r
        else
          let r := if output then write_connection writes d r else r in
          Some (if hangup && negb input then close_connection d r else r)
    end.

Definition handle (i : Input) (r : Reactor) : option Reactor :=
  match i with
  | listener_ready calls => Some (accept_connections calls r)
  | woken => process_completions r
  | connection_ready d error input output hangup reads writes =>
      handle_connection d error input output hangup reads writes r
  | other_thread t => Some (thread_step t r)
  end.

Fixpoint run (inputs : list Input) (r : Reactor) : option Reactor :=
  match inputs with
  | [] => Some r
  | i :: rest => match handle i r with None => None | Some r => run rest r end
  end.

End TcpServer.
