(* ===== verification/TcpSafety.v ===== *)
(** * The invariant of the TCP server

    What is in flight between the reactor and the workers, what has been read,
    dispatched, answered and written on each connection, and that every step of
    the server keeps these accounts. *)

From S2P Require Import Prelude Wire Protocol RequestExecutor TcpServer.
Import RequestExecutor TcpServer.

(** ** Accounts *)

(** A request in flight: its connection and its number. *)
Abbreviation Flight := (list (ConnectionToken * Z)).

Definition request_flight (q : Request) : ConnectionToken * Z := (rq_token q, request_id (rq_frame q)).
Definition completion_flight (c : Completion) : ConnectionToken * Z := (cp_token c, md_request_id (cp_request c)).

Definition worker_flight (w : Worker) : Flight :=
  match w with
  | handling q => [request_flight q]
  | delivering c => [completion_flight c]
  | _ => []
  end.

Definition executor_flight (e : Executor) : Flight :=
  map request_flight (queue_ e) ++ mjoin (map worker_flight (workers_ e)).

Definition flight (r : Reactor) : Flight := executor_flight (executor_ r) ++ map completion_flight (completions_ r).

(** The numbers of the requests of a connection that are in flight. *)
Definition flying (t : ConnectionToken) (l : Flight) : list Z := omap (fun p => if decide (p.1 = t) then Some p.2 else None) l.

Definition event_token (e : Event) : ConnectionToken :=
  match e with bytes_read t _ | request_parsed t _ | response_queued t _ | bytes_written t _ => t end.

(** What the events of a connection are about. *)
Definition of_token {A} (f : Event -> list A) (t : ConnectionToken) (log : list Event) : list A :=
  mjoin (map (fun e => if decide (event_token e = t) then f e else []) log).

Definition read_of := of_token (fun e => match e with bytes_read _ bytes => bytes | _ => [] end).
Definition parsed := of_token (fun e => match e with request_parsed _ f => [f] | _ => [] end).
Definition queued := of_token (fun e => match e with response_queued _ f => [f] | _ => [] end).
Definition written := of_token (fun e => match e with bytes_written _ bytes => bytes | _ => [] end).

Definition stream (frames : list Frame) : list byte := concat (map (fun f => sr_bytes (serialize f)) frames).

(** The bytes of a connection that the socket has not taken. *)
Definition remaining (c : Connection) : list byte := drop (Z.to_nat (write_offset c)) (concat (write_queue c)).

Lemma of_token_app {A} (f : Event -> list A) t a b : of_token f t (a ++ b) = of_token f t a ++ of_token f t b.
Proof. unfold of_token. by rewrite map_app, join_app. Qed.

Lemma of_token_other {A} (f : Event -> list A) t log e : event_token e <> t -> of_token f t (log ++ [e]) = of_token f t log.
Proof. intros Hne. rewrite of_token_app. unfold of_token at 2. cbn. rewrite decide_False by done. by rewrite !app_nil_r. Qed.

Lemma of_token_snoc {A} (f : Event -> list A) t log e : event_token e = t -> of_token f t (log ++ [e]) = of_token f t log ++ f e.
Proof. intros Heq. rewrite of_token_app. unfold of_token at 2. cbn. rewrite decide_True by done. by rewrite app_nil_r. Qed.

Lemma flying_app t a b : flying t (a ++ b) = flying t a ++ flying t b.
Proof. apply omap_app. Qed.

#[export] Instance flying_proper t : Proper ((≡ₚ) ==> (≡ₚ)) (flying t).
Proof. intros a b H. unfold flying. by rewrite H. Qed.

(** ** The executor *)

Definition handled (w : Worker) : list Request := match w with handling q => [q] | _ => [] end.
Definition held (e : Executor) : list Request := queue_ e ++ mjoin (map handled (workers_ e)).
Definition request_bytes (l : list Request) : Z := foldr (fun q n => rq_wire_bytes q + n) 0 l.
Definition delivered (w : Worker) : list Completion := match w with delivering c => [c] | _ => [] end.

(** The counters are exact and within the limits. *)
Record ExecutorOk (e : Executor) : Prop := {
  eo_items : outstanding_items_ e = size_of (held e);
  eo_bytes : outstanding_bytes_ e = request_bytes (held e);
  eo_wire : Forall (fun q => 0 <= rq_wire_bytes q) (held e);
  eo_max_items : outstanding_items_ e <= max_items_ e;
  eo_max_bytes : outstanding_bytes_ e <= max_bytes_ e;
  eo_limits : is_u64 (max_items_ e) /\ is_u64 (max_bytes_ e)
}.

#[export] Instance request_bytes_proper : Proper ((≡ₚ) ==> (=)) request_bytes.
Proof. intros a b H. unfold request_bytes. induction H; cbn [foldr]; lia. Qed.

Lemma request_bytes_app a b : request_bytes (a ++ b) = request_bytes a + request_bytes b.
Proof. unfold request_bytes. induction a as [|q a IH]; cbn [foldr app]; lia. Qed.

Lemma request_bytes_nonneg l : Forall (fun q => 0 <= rq_wire_bytes q) l -> 0 <= request_bytes l.
Proof. unfold request_bytes. induction 1; cbn [foldr]; lia. Qed.

(** What replacing the state of one worker does to what the workers hold. *)
Lemma join_insert {A B} (f : A -> list B) (l : list A) i x y :
  l !! i = Some x -> f x ++ mjoin (map f (<[i := y]> l)) ≡ₚ f y ++ mjoin (map f l).
Proof.
  intros Hi. rewrite <- (take_drop_middle l i x Hi) at 2. rewrite insert_take_drop by (by eapply lookup_lt_Some).
  rewrite !map_app, !join_app. cbn [map mjoin list_join].
  rewrite (Permutation_app_swap_app _ (f y)), (Permutation_app_swap_app _ (f x)). apply Permutation_app_swap_app.
Qed.

Lemma held_bounds e : ExecutorOk e -> 0 <= outstanding_items_ e /\ 0 <= outstanding_bytes_ e.
Proof.
  intros [Ei Eb Ew _ _ _]. rewrite Ei, Eb. split; [apply size_of_nonneg|by apply request_bytes_nonneg].
Qed.

Lemma size_of_perm {A} (a b : list A) : a ≡ₚ b -> size_of a = size_of b.
Proof. intros H. unfold size_of. by rewrite H. Qed.

(** A step that keeps the requests held, and the counters. *)
Lemma ExecutorOk_perm e e' :
  ExecutorOk e -> held e' ≡ₚ held e -> outstanding_items_ e' = outstanding_items_ e ->
  outstanding_bytes_ e' = outstanding_bytes_ e -> max_items_ e' = max_items_ e -> max_bytes_ e' = max_bytes_ e ->
  ExecutorOk e'.
Proof.
  intros [Ei Eb Ew Li Lb Lu] Hp E1 E2 E3 E4.
  split; rewrite ?E1, ?E2, ?E3, ?E4; [by rewrite (size_of_perm _ _ Hp)|by rewrite Hp|by rewrite Hp|done..].
Qed.

Lemma worker_take_spec i e :
  let e' := worker_take i e in
  (ExecutorOk e -> ExecutorOk e') /\ executor_flight e' ≡ₚ executor_flight e /\
  mjoin (map delivered (workers_ e')) ≡ₚ mjoin (map delivered (workers_ e)) /\
  max_items_ e' = max_items_ e /\ max_bytes_ e' = max_bytes_ e.
Proof.
  unfold worker_take. destruct (workers_ e !! i) as [[| | |]|] eqn:Hi; try by split_and!.
  destruct (queue_ e) as [|q rest] eqn:Eq; cbn.
  - set (w := if stopping_ e then left_loop else waiting).
    pose proof (join_insert handled _ _ _ w Hi) as H1. pose proof (join_insert worker_flight _ _ _ w Hi) as H2.
    pose proof (join_insert delivered _ _ _ w Hi) as H3.
    assert (handled w = [] /\ worker_flight w = [] /\ delivered w = []) as (E1 & E2 & E3)
      by (unfold w; by destruct (stopping_ e)).
    rewrite E1 in H1. rewrite E2 in H2. rewrite E3 in H3. cbn in H1, H2, H3. split_and!; try done.
    + intros He. eapply ExecutorOk_perm; try done. unfold held. cbn. by rewrite Eq, H1.
    + unfold executor_flight. cbn. by rewrite Eq, H2.
  - pose proof (join_insert handled _ _ _ (handling q) Hi) as H1.
    pose proof (join_insert worker_flight _ _ _ (handling q) Hi) as H2.
    pose proof (join_insert delivered _ _ _ (handling q) Hi) as H3. cbn in H1, H2, H3. split_and!; try done.
    + intros He. eapply ExecutorOk_perm; try done. unfold held. cbn. rewrite Eq, H1. cbn. by rewrite Permutation_middle.
    + unfold executor_flight. cbn. rewrite Eq, H2. cbn. by rewrite Permutation_middle.
Qed.

(** A handler answers under the number of the request. *)
Definition answering (handler : Frame -> Outcome) : Prop :=
  forall f response, handler f = returned response -> request_id response = request_id f.

(** A completion whose response has the number of its request. *)
Definition echoes (c : Completion) : Prop := request_id (cp_frame c) = md_request_id (cp_request c).

Lemma worker_respond_spec i handler e :
  answering handler ->
  let e' := worker_respond i handler e in
  (ExecutorOk e -> ExecutorOk e') /\ executor_flight e' ≡ₚ executor_flight e /\
  (Forall echoes (mjoin (map delivered (workers_ e))) -> Forall echoes (mjoin (map delivered (workers_ e')))) /\
  max_items_ e' = max_items_ e /\ max_bytes_ e' = max_bytes_ e.
Proof.
  intros Ha. unfold worker_respond. destruct (workers_ e !! i) as [[|q| |]|] eqn:Hi; try by split_and!.
  set (c := {| cp_token := rq_token q; cp_request := metadata_of (rq_frame q);
               cp_frame := response_of (rq_frame q) (handler (rq_frame q)) |}). cbn.
  pose proof (join_insert handled _ _ _ (delivering c) Hi) as H1.
  pose proof (join_insert worker_flight _ _ _ (delivering c) Hi) as H2.
  pose proof (join_insert delivered _ _ _ (delivering c) Hi) as H3. cbn in H1, H2, H3. split_and!; try done.
  - intros He. pose proof (held_bounds e He) as [B1 B2]. destruct He as [Ei Eb Ew Li Lb [Lu Lv]]. unfold is_u64 in *.
    set (e' := Build_Executor _ _ _ _ _ _ _).
    assert (held e ≡ₚ q :: held e') as Hp
      by (unfold held, e'; cbn; by rewrite <- H1, Permutation_middle).
    rewrite Hp in Ew. apply Forall_cons in Ew as [Hq Ew]. pose proof (request_bytes_nonneg _ Ew).
    rewrite (size_of_perm _ _ Hp) in Ei. rewrite Hp in Eb. unfold size_of in Ei. cbn [length] in Ei.
    change (request_bytes (q :: held e')) with (rq_wire_bytes q + request_bytes (held e')) in Eb.
    split; cbn [outstanding_items_ outstanding_bytes_ max_items_ max_bytes_ e']; rewrite ?u64_small by (unfold is_u64; lia);
      unfold size_of; [lia|lia|done|lia|lia|done].
  - unfold executor_flight. cbn. apply Permutation_app_head. apply (Permutation_cons_inv (a := request_flight q)).
    by rewrite H2.
  - rewrite H3. intros HF. constructor; [|done]. unfold echoes, c. cbn. unfold response_of.
    destruct (handler (rq_frame q)) as [f| |] eqn:E; [by apply (Ha _ _ E)|done..].
Qed.

Lemma worker_deliver_spec i e :
  let '(e', d) := worker_deliver i e in
  (ExecutorOk e -> ExecutorOk e') /\ executor_flight e ≡ₚ map completion_flight (option_list d) ++ executor_flight e' /\
  mjoin (map delivered (workers_ e)) ≡ₚ option_list d ++ mjoin (map delivered (workers_ e')) /\
  max_items_ e' = max_items_ e /\ max_bytes_ e' = max_bytes_ e.
Proof.
  unfold worker_deliver. destruct (workers_ e !! i) as [[| |c|]|] eqn:Hi; try by split_and!.
  pose proof (join_insert handled _ _ _ waiting Hi) as H1. pose proof (join_insert worker_flight _ _ _ waiting Hi) as H2.
  pose proof (join_insert delivered _ _ _ waiting Hi) as H3. cbn in *. split_and!; try done.
  - intros He. eapply ExecutorOk_perm; try done. unfold held. cbn. by rewrite H1.
  - unfold executor_flight. cbn. by rewrite <- H2, Permutation_middle.
Qed.

Lemma try_submit_spec q e :
  ExecutorOk e -> 0 <= rq_wire_bytes q ->
  let '(e', submitted) := try_submit q e in
  ExecutorOk e' /\ executor_flight e' ≡ₚ (if submitted then [request_flight q] else []) ++ executor_flight e /\
  workers_ e' = workers_ e /\ max_items_ e' = max_items_ e /\ max_bytes_ e' = max_bytes_ e.
Proof.
  intros He Hq. unfold try_submit. destruct (_ || _) eqn:E; [by split_and!|].
  rewrite !orb_false_iff in E. destruct E as [[_ Hi] Hb]. pose proof (held_bounds e He) as [B1 B2].
  destruct He as [Ei Eb Ew Li Lb [Lu Lv]]. unfold is_u64 in *.
  rewrite u64_small in Hb by (unfold is_u64; lia). set (e' := Build_Executor _ _ _ _ _ _ _).
  assert (held e' ≡ₚ q :: held e) as Hp
    by (unfold held, e'; cbn; rewrite <- (assoc_L (++)); cbn [app]; by rewrite <- Permutation_middle).
  split_and!; try done.
  - split; cbn [outstanding_items_ outstanding_bytes_ max_items_ max_bytes_ e']; rewrite ?u64_small by (unfold is_u64; lia).
    + rewrite (size_of_perm _ _ Hp). unfold size_of in *. cbn [length]. lia.
    + rewrite Hp. change (request_bytes (q :: held e)) with (rq_wire_bytes q + request_bytes (held e)). lia.
    + rewrite Hp. by constructor.
    + lia.
    + lia.
    + done.
  - unfold executor_flight, e'. cbn. rewrite map_app, <- (assoc_L (++)). cbn [app map]. by rewrite <- Permutation_middle.
Qed.

(** ** The invariant *)

(** A connection, given what else is in flight, the numbers of the requests that
    are neither answered nor in flight, and the frames that are parsed but not
    yet dispatched. *)
Record ConnOk (r : Reactor) (extra : Flight) (owed : list Z) (todo : list Frame) (d : Z) (c : Connection) : Prop := {
  co_fd : fd c = d;
  co_token : token_to_fd_ r !! tk_id (token c) = Some d;
  co_id : tk_id (token c) < next_connection_id_ r;
  co_parser : ParserOk (parser c) /\ failed_ (parser c) = false;
  co_read : read_of (token c) (log_ r) = concat (map frame_bytes (parsed (token c) (log_ r) ++ todo)) ++ Protocol.pending (parser c);
  co_todo : Forall (fun f => validate f = none) (parsed (token c) (log_ r) ++ todo);
  co_input : buffered_bytes (parser c) <= max_buffered_input_per_connection (config_ r);
  co_answered : map request_id (parsed (token c) (log_ r)) ≡ₚ
    owed ++ map request_id (queued (token c) (log_ r)) ++ flying (token c) (extra ++ flight r);
  co_pending : pending_request_count c = size_of (flying (token c) (extra ++ flight r));
  co_pending_limit : pending_request_count c <= max_requests_in_flight_per_connection (config_ r);
  co_written : written (token c) (log_ r) ++ remaining c = stream (queued (token c) (log_ r));
  co_offset : 0 <= write_offset c /\ match write_queue c with [] => write_offset c = 0 | front :: _ => write_offset c < size_of front end;
  co_nonempty : Forall (fun bytes => bytes <> []) (write_queue c);
  co_buffered : buffered_output_bytes c = size_of (remaining c);
  co_output_limit : buffered_output_bytes c <= max_buffered_output_per_connection (config_ r);
  co_interest : exists out, interest_ r !! d = Some (negb (read_paused c), out) /\ (write_queue c <> [] -> out = true);
  co_paused : read_paused c = backpressured c
}.

(** The limits that the reactor relies on are machine numbers. *)
Definition config_ok (c : ReactorConfig) : Prop :=
  is_u64 (max_buffered_input_per_connection c) /\ is_u64 (max_buffered_output_per_connection c) /\
  is_u64 (max_requests_in_flight_per_connection c) /\
  is_u64 (global_outstanding_work c).

Definition step_ok (t : ThreadStep) : Prop := match t with responds _ handler => answering handler | _ => True end.

(** What is owed to each connection. *)
Abbreviation Debts := (Z -> list Z * list Frame).
Definition settled : Debts := fun _ => ([], []).
Definition debt (d : Z) (owed : list Z) (todo : list Frame) : Debts := fun d' => if decide (d' = d) then (owed, todo) else ([], []).

Record Inv (extra : Flight) (w : Debts) (r : Reactor) : Prop := {
  iv_config : config_ok (config_ r);
  iv_connections : forall d c, connections_ r !! d = Some c -> ConnOk r extra (w d).1 (w d).2 d c;
  iv_tokens : forall id d, token_to_fd_ r !! id = Some d -> exists c, connections_ r !! d = Some c /\ tk_id (token c) = id;
  iv_ids : Forall (fun p => tk_id p.1 < next_connection_id_ r) (extra ++ flight r) /\
    Forall (fun e => tk_id (event_token e) < next_connection_id_ r) (log_ r);
  iv_interest : dom (interest_ r) = dom (connections_ r) /\ Z.of_nat (size (connections_ r)) <= max_connections (config_ r);
  iv_global : global_outstanding_ r = size_of (extra ++ flight r);
  iv_global_limit : global_outstanding_ r <= global_outstanding_work (config_ r);
  iv_executor : ExecutorOk (executor_ r);
  iv_echo : Forall echoes (completions_ r ++ mjoin (map delivered (workers_ (executor_ r))));
  iv_schedule : Forall (Forall step_ok) (schedule_ r)
}.

(** ** Steps that leave a connection alone *)

Lemma ConnOk_mono r r' extra extra' owed todo d c :
  ConnOk r extra owed todo d c -> config_ r' = config_ r ->
  token_to_fd_ r' !! tk_id (token c) = token_to_fd_ r !! tk_id (token c) ->
  next_connection_id_ r <= next_connection_id_ r' ->
  (forall A (f : Event -> list A), of_token f (token c) (log_ r') = of_token f (token c) (log_ r)) ->
  flying (token c) (extra' ++ flight r') ≡ₚ flying (token c) (extra ++ flight r) ->
  interest_ r' !! d = interest_ r !! d -> ConnOk r' extra' owed todo d c.
Proof.
  intros [] Hc Ht Hn Hl Hf Hi. unfold read_of, parsed, queued, written in *.
  split; unfold read_of, parsed, queued, written; rewrite ?Hc, ?Ht, ?Hl, ?Hi; try done.
  - lia.
  - by rewrite Hf.
  - by rewrite (size_of_perm _ _ Hf).
Qed.

(** Two connections have different tokens. *)
Lemma tokens_differ extra w r d d' c c' :
  Inv extra w r -> connections_ r !! d = Some c -> connections_ r !! d' = Some c' -> d <> d' ->
  tk_id (token c) <> tk_id (token c').
Proof.
  intros HI Hc Hc' Hne E. pose proof (co_token _ _ _ _ _ _ (iv_connections _ _ _ HI _ _ Hc)) as H1.
  pose proof (co_token _ _ _ _ _ _ (iv_connections _ _ _ HI _ _ Hc')) as H2. congruence.
Qed.

(** A step of the other threads. *)
Lemma Inv_threads extra w r r' :
  Inv extra w r -> config_ r' = config_ r -> connections_ r' = connections_ r -> token_to_fd_ r' = token_to_fd_ r ->
  next_connection_id_ r' = next_connection_id_ r -> interest_ r' = interest_ r -> log_ r' = log_ r ->
  global_outstanding_ r' = global_outstanding_ r -> flight r' ≡ₚ flight r -> ExecutorOk (executor_ r') ->
  Forall echoes (completions_ r' ++ mjoin (map delivered (workers_ (executor_ r')))) ->
  Forall (Forall step_ok) (schedule_ r') -> Inv extra w r'.
Proof.
  intros HI E1 E2 E3 E4 E5 E6 E7 Hf He Hec Hs. destruct HI as [Ic Icn It [If Il] [Ii In] Ig Igl _ _ _].
  split; rewrite ?E1, ?E2, ?E3, ?E4, ?E5, ?E6, ?E7; try done.
  - intros d c Hc. eapply ConnOk_mono; [by apply Icn|..]; rewrite ?E1, ?E3, ?E4, ?E5, ?E6; try done. by rewrite Hf.
  - split; [|done]. by rewrite Hf.
  - rewrite Ig. apply size_of_perm. by rewrite Hf.
Qed.

Lemma thread_step_Inv extra w t r : Inv extra w r -> step_ok t -> Inv extra w (thread_step t r).
Proof.
  intros HI Ht. pose proof (iv_executor _ _ _ HI) as He. pose proof (iv_echo _ _ _ HI) as Hec.
  pose proof (iv_schedule _ _ _ HI) as Hs. apply Forall_app in Hec as [Hec1 Hec2].
  destruct t as [i|i handler|i|]; cbn [thread_step].
  - destruct (worker_take_spec i (executor_ r)) as (H1 & H2 & H3 & _).
    eapply Inv_threads; try done; cbn; [unfold flight; cbn; by rewrite H2|auto|apply Forall_app; by rewrite H3].
  - destruct (worker_respond_spec i handler (executor_ r) Ht) as (H1 & H2 & H3 & _).
    eapply Inv_threads; try done; cbn; [unfold flight; cbn; by rewrite H2|auto|apply Forall_app; auto].
  - pose proof (worker_deliver_spec i (executor_ r)) as Hd.
    destruct (worker_deliver i (executor_ r)) as [e' [c|]]; destruct Hd as (H1 & H2 & H3 & _); cbn in H2, H3.
    + rewrite H3 in Hec2. apply Forall_cons in Hec2 as [Hc Hec2].
      eapply Inv_threads; try done; cbn; [|auto|].
      * unfold flight. cbn. rewrite map_app, H2. cbn. by rewrite (assoc_L (++)), Permutation_app_comm.
      * rewrite !Forall_app. split_and!; [done| |done]. apply Forall_singleton.
        unfold echoes. cbn. by destruct (_ <? _).
    + eapply Inv_threads; try done; cbn; [unfold flight; cbn; by rewrite H2|auto|].
      apply Forall_app. by rewrite H3 in Hec2.
  - eapply Inv_threads; try done; cbn; [|by apply Forall_app]. by eapply ExecutorOk_perm.
Qed.

(** What the other threads leave as it is. *)
Definition SameTables (r r' : Reactor) : Prop :=
  config_ r' = config_ r /\ connections_ r' = connections_ r /\ global_outstanding_ r' = global_outstanding_ r /\
  log_ r' = log_ r.

Lemma thread_step_tables t r : SameTables r (thread_step t r).
Proof. destruct t; cbn; try done. destruct (worker_deliver _ _) as [e' [c|]]; done. Qed.

Lemma interleave_Inv extra w r : Inv extra w r -> Inv extra w (interleave r) /\ SameTables r (interleave r).
Proof.
  intros HI. unfold interleave. destruct (schedule_ r) as [|ts schedule] eqn:Es; [done|].
  pose proof (iv_schedule _ _ _ HI) as Hs. rewrite Es in Hs. apply Forall_cons in Hs as [Hts Hs].
  assert (Inv extra w (with_schedule schedule r) /\ SameTables r (with_schedule schedule r)) as HI'.
  { split; [|done]. pose proof (iv_executor _ _ _ HI). pose proof (iv_echo _ _ _ HI). by eapply Inv_threads. }
  clear Es HI. generalize dependent (with_schedule schedule r). unfold thread_steps.
  induction Hts as [|t ts Ht Hts IH]; intros r1 [H1 (S1 & S2 & S3 & S4)]; [done|]. cbn [foldl]. apply IH.
  destruct (thread_step_tables t r1) as (T1 & T2 & T3 & T4).
  split; [by apply thread_step_Inv|]. unfold SameTables. by rewrite T1, T2, T3, T4.
Qed.

(** ** Steps on one connection *)

(** Only the connection [d] changes, and only events of it are observed. *)
Record Only (d : Z) (c c' : Connection) (es : list Event) (r r' : Reactor) : Prop := {
  on_config : config_ r' = config_ r;
  on_connections : connections_ r' = <[d := c']> (connections_ r);
  on_tokens : token_to_fd_ r' = token_to_fd_ r;
  on_next : next_connection_id_ r' = next_connection_id_ r;
  on_token : token c' = token c;
  on_log : log_ r' = log_ r ++ es;
  on_events : Forall (fun e => event_token e = token c) es;
  on_interest : forall d', d' <> d -> interest_ r' !! d' = interest_ r !! d'
}.

Lemma of_token_others {A} (f : Event -> list A) t u log es :
  Forall (fun e => event_token e = u) es -> u <> t -> of_token f t (log ++ es) = of_token f t log.
Proof.
  intros Hes Hne. rewrite of_token_app. assert (of_token f t es = []) as ->; [|by rewrite app_nil_r].
  induction Hes as [|e es He _ IH]; [done|]. unfold of_token in *. cbn. rewrite decide_False by congruence. done.
Qed.

Lemma Inv_update extra w r extra' w' r' d c c' es :
  Inv extra w r -> connections_ r !! d = Some c -> Only d c c' es r r' ->
  (forall t, t <> token c -> flying t (extra' ++ flight r') ≡ₚ flying t (extra ++ flight r)) ->
  Forall (fun p => tk_id p.1 < next_connection_id_ r) (extra' ++ flight r') ->
  (forall d', d' <> d -> w' d' = w d') -> ConnOk r' extra' (w' d).1 (w' d).2 d c' ->
  global_outstanding_ r' = size_of (extra' ++ flight r') -> global_outstanding_ r' <= global_outstanding_work (config_ r) ->
  ExecutorOk (executor_ r') -> Forall echoes (completions_ r' ++ mjoin (map delivered (workers_ (executor_ r')))) ->
  Forall (Forall step_ok) (schedule_ r') -> Inv extra' w' r'.
Proof.
  intros HI Hc [E1 E2 E3 E4 E5 E6 E7 E8] Hf Hid Hw Hok Hg Hgl He Hec Hs.
  pose proof (iv_connections _ _ _ HI d c Hc) as Hco. pose proof HI as [Ic Icn It [If Il] [Ii In] _ _ _ _ _].
  assert (is_Some (interest_ r' !! d)) as Hd by (destruct (co_interest _ _ _ _ _ _ Hok) as (out & -> & _); eauto).
  split; rewrite ?E1, ?E2, ?E3, ?E4; try done.
  - intros d' c0 H0. destruct (decide (d' = d)) as [->|Hne].
    { rewrite lookup_insert_eq in H0. by injection H0 as <-. }
    rewrite lookup_insert_ne in H0 by done. rewrite (Hw d' Hne).
    pose proof (tokens_differ _ _ _ _ _ _ _ HI Hc H0 ltac:(done)) as Ht.
    eapply ConnOk_mono; [by apply Icn|done|by rewrite E3|by rewrite E4|..].
    + intros A f. rewrite E6. eapply of_token_others; [done|congruence].
    + apply Hf. congruence.
    + by apply E8.
  - intros id d' Hl. destruct (It id d' Hl) as (c0 & H0 & Hid0).
    destruct (decide (d' = d)) as [->|Hne]; [|exists c0; by rewrite lookup_insert_ne].
    exists c'. rewrite lookup_insert_eq. split; [done|]. congruence.
  - split; [done|]. rewrite E6. apply Forall_app. split; [done|]. eapply Forall_impl; [exact E7|]. intros e ->.
    apply (co_id _ _ _ _ _ _ Hco).
  - split; [|rewrite map_size_insert_Some by done; lia].
    apply set_eq. intros d'. rewrite dom_insert_L, elem_of_union, elem_of_singleton, <- Ii, !elem_of_dom.
    destruct (decide (d' = d)) as [->|Hne]; [tauto|]. rewrite E8 by done. naive_solver.
Qed.

Lemma close_connection_Inv extra w w' d r :
  Inv extra w r -> (forall d', d' <> d -> w' d' = w d') ->
  Inv extra w' (close_connection d r) /\ connections_ (close_connection d r) !! d = None.
Proof.
  intros HI Hw. unfold close_connection. destruct (connections_ r !! d) as [c|] eqn:Hc.
  2:{ split; [|done]. destruct HI as [Ic Icn It Iid [Ii In] Ig Igl Ie Iec Is]. split; try done.
      intros d' c0 H0. rewrite Hw by congruence. by apply Icn. }
  split; [|cbn; apply lookup_delete_eq]. pose proof HI as [Ic Icn It Iid [Ii In] Ig Igl Ie Iec Is].
  split; cbn [config_ connections_ token_to_fd_ next_connection_id_ log_ interest_ global_outstanding_ executor_ completions_
    schedule_ with_connections with_interest with_tokens]; try done.
  - intros d' c0 H0. apply lookup_delete_Some in H0 as [Hne H0]. rewrite Hw by done.
    pose proof (tokens_differ _ _ _ _ _ _ _ HI Hc H0 Hne) as Ht.
    eapply ConnOk_mono; [by apply Icn|done|..]; cbn; try done.
    + by rewrite lookup_delete_ne.
    + by rewrite lookup_delete_ne.
  - intros id d' Hl. apply lookup_delete_Some in Hl as [Hne Hl]. destruct (It id d' Hl) as (c0 & H0 & Hid).
    exists c0. rewrite lookup_delete_ne; [done|]. intros ->. congruence.
  - split; [by rewrite !dom_delete_L, Ii|]. rewrite map_size_delete_Some by done. lia.
Qed.

(** Pausing and resuming. *)
Lemma set_backpressured_Inv extra w d c v r :
  Inv extra w r -> connections_ r !! d = Some c ->
  exists r', set_backpressured d v r = Some r' /\ Inv extra w r' /\ config_ r' = config_ r /\
    connections_ r' = <[d := with_backpressure v c]> (connections_ r) /\ log_ r' = log_ r /\
    executor_ r' = executor_ r /\ global_outstanding_ r' = global_outstanding_ r.
Proof.
  intros HI Hc. unfold set_backpressured. rewrite Hc. pose proof (iv_connections _ _ _ HI _ _ Hc) as Hok.
  pose proof (co_paused _ _ _ _ _ _ Hok) as Hp. pose proof (co_fd _ _ _ _ _ _ Hok) as Hfd.
  destruct (Bool.eqb (backpressured c) v) eqn:E.
  { apply eqb_prop in E. exists r. split_and!; try done. symmetry. rewrite insert_id; [done|].
    rewrite Hc. f_equal. destruct c. cbn in *. by subst. }
  eexists. split; [reflexivity|]. cbn [config_ log_ executor_ global_outstanding_ connections_ update_interest with_interest
    put_connection with_connections fd with_backpressure]. rewrite Hfd. split_and!; try done.
  pose proof HI as [Ic Icn It [If Il] [Ii In] Ig Igl Ie Iec Is].
  destruct (co_interest _ _ _ _ _ _ Hok) as (out & Hout & Hq).
  eapply (Inv_update _ _ r _ _ _ d c (with_backpressure v c) []); try done.
  - split; cbn; rewrite ?Hfd; try done; [by rewrite app_nil_r|]. intros d' Hne. by rewrite lookup_alter_ne.
  - destruct Hok. split; try done. cbn. rewrite Hfd, lookup_alter_eq, Hout. cbn. eexists. split; [done|].
    intros. by rewrite bool_decide_false.
Qed.

(** ** Queueing a response *)

Lemma serialize_inv f :
  sr_error (serialize f) = none -> validate f = none /\ sr_bytes (serialize f) = frame_bytes f.
Proof.
  intros E. assert (validate f = none) as Hv by (unfold serialize in E; by destruct (validate f)).
  split; [done|]. by rewrite serialize_frame_bytes.
Qed.

Lemma size_of_frame_bytes f : size_of (frame_bytes f) = frame_size f.
Proof.
  unfold frame_bytes, frame_size. rewrite !size_of_app. unfold size_of at 1. rewrite length_frame_head.
  unfold size_of at 1. rewrite length_write_u32. unfold kHeaderSize. lia.
Qed.

Lemma remaining_size c :
  0 <= write_offset c /\ match write_queue c with [] => write_offset c = 0 | front :: _ => write_offset c < size_of front end ->
  (Z.to_nat (write_offset c) <= length (concat (write_queue c)))%nat.
Proof.
  intros [H0 H1]. destruct (write_queue c) as [|front rest]; cbn; [lia|]. rewrite length_app. unfold size_of in H1. lia.
Qed.

Definition queue_output (f : Frame) (c : Connection) : Connection :=
  with_output (write_queue c ++ [frame_bytes f]) (write_offset c) (buffered_output_bytes c + frame_size f) c.

Lemma queue_response_Inv extra w w' d c f owed todo r :
  Inv extra w r -> connections_ r !! d = Some c -> w d = (request_id f :: owed, todo) ->
  (forall d', d' <> d -> w' d' = w d') -> w' d = (owed, todo) ->
  exists r' b, queue_response d f r = Some (r', b) /\ Inv extra w' r' /\ config_ r' = config_ r /\
    executor_ r' = executor_ r /\ global_outstanding_ r' = global_outstanding_ r /\
    connections_ r' = (if b then <[d := queue_output f c]> (connections_ r) else delete d (connections_ r)) /\
    (validate f = none -> buffered_output_bytes c + frame_size f <= max_buffered_output_per_connection (config_ r) -> b = true).
Proof.
  intros HI Hc Hw Hw' Hwd. pose proof (iv_connections _ _ _ HI _ _ Hc) as Hok. rewrite Hw in Hok. cbn [fst snd] in Hok.
  pose proof HI as [(_ & Co & _) Icn It [If Il] [Ii In] Ig Igl Ie Iec Is].
  pose proof (co_buffered _ _ _ _ _ _ Hok) as Hb. pose proof (co_output_limit _ _ _ _ _ _ Hok) as Hlim.
  pose proof (size_of_nonneg (remaining c)) as Hnn. unfold is_u64 in Co.
  unfold queue_response. rewrite Hc. rewrite Z.min_l by lia. destruct (_ || _) eqn:E.
  { eexists _, false. split; [reflexivity|]. destruct (close_connection_Inv extra w w' d r HI Hw') as [HI' _].
    unfold close_connection in *. rewrite Hc in *. split_and!; try done. intros Hv Hfit.
    rewrite (serialize_frame_bytes f Hv) in E. cbn [sr_bytes sr_error] in E.
    rewrite size_of_frame_bytes, bool_decide_true in E by done. cbn [negb orb] in E. lia. }
  apply orb_false_iff in E as [E1 E2]. apply negb_false_iff, bool_decide_eq_true, serialize_inv in E1 as [Hv Hs].
  rewrite Hs, size_of_frame_bytes in *. rewrite u64_small by (unfold is_u64, frame_size, size_of in *; lia).
  eexists _, true. split; [reflexivity|]. pose proof (co_fd _ _ _ _ _ _ Hok) as Hfd.
  fold (queue_output f c). set (r' := update_interest _ _).
  split_and!; try done; [|by unfold r'; cbn; rewrite Hfd].
  destruct (co_interest _ _ _ _ _ _ Hok) as (out & Hout & _).
  eapply (Inv_update _ _ r _ _ _ d c (queue_output f c) [response_queued (token c) f]); try done.
  - split; cbn; rewrite ?Hfd; try done; [by apply Forall_singleton|]. intros d' Hne. by rewrite lookup_alter_ne.
  - rewrite Hwd. cbn [fst snd]. pose proof (remaining_size c (co_offset _ _ _ _ _ _ Hok)) as Hrs.
    assert (remaining (queue_output f c) = remaining c ++ frame_bytes f) as Hrem.
    { unfold remaining, queue_output. cbn. rewrite concat_app, drop_app_le by lia. cbn. by rewrite app_nil_r. }
    destruct Hok as [? ? ? ? Hread ? ? Hans ? ? Hwr Hoff ? ? ? _ ?].
    split; try done; unfold read_of, parsed, queued, written in *; unfold r'; cbn [token queue_output with_output log_
      update_interest with_interest observe put_connection with_connections];
      rewrite ?(of_token_snoc _ (token c)) by done; rewrite ?app_nil_r; try done.
    + rewrite map_app, Hans. cbn [map app]. rewrite <- !(assoc_L (++)). cbn [app]. by rewrite <- !Permutation_middle.
    + rewrite Hrem, (assoc_L (++)), Hwr. unfold stream. rewrite map_app, concat_app. cbn. by rewrite Hs, app_nil_r.
    + destruct Hoff as [H0 H1]. split; [done|]. revert H1. cbn [write_queue write_offset queue_output with_output].
      destruct (write_queue c); intros H1; [|done]. cbn [app].
      rewrite size_of_frame_bytes, H1. unfold frame_size, kHeaderSize, size_of. lia.
    + cbn [write_queue queue_output with_output]. apply Forall_app. split; [done|]. by apply Forall_singleton.
    + rewrite Hrem, size_of_app, size_of_frame_bytes. cbn [buffered_output_bytes queue_output with_output]. lia.
    + cbn. lia.
    + cbn. rewrite Hfd, lookup_alter_eq, Hout. cbn. eexists. split; [done|]. intros. by rewrite bool_decide_false.
Qed.

(** ** Dispatching a request *)

Definition busy_size : Z := 28.

Lemma busy_valid id : validate (busy_response id) = none.
Proof. done. Qed.

(** A refused request is answered and the connection paused - unless the answer
    does not fit the output buffer. *)
Lemma reject_Inv extra w w' d c f todo r :
  Inv extra w r -> connections_ r !! d = Some c -> w d = ([request_id f], todo) ->
  (forall d', d' <> d -> w' d' = w d') -> w' d = ([], todo) ->
  match reject d f r with
  | None => max_buffered_output_per_connection (config_ r) < buffered_output_bytes c + busy_size
  | Some (r', b) => b = true /\ Inv extra w' r' /\ config_ r' = config_ r /\
      connections_ r' !! d = Some (with_backpressure true (queue_output (busy_response (request_id f)) c))
  end.
Proof.
  intros HI Hc Hw Hw' Hwd. unfold reject.
  destruct (queue_response_Inv extra w w' d c (busy_response (request_id f)) [] todo r HI Hc Hw Hw' Hwd)
    as (r1 & b & -> & HI1 & Ec & _ & _ & Econ & Hfit).
  destruct b.
  - destruct (set_backpressured_Inv extra w' d (queue_output (busy_response (request_id f)) c) true r1 HI1)
      as (r2 & -> & HI2 & Ec2 & Econ2 & _); [by rewrite Econ, lookup_insert_eq|].
    split_and!; [done..|congruence|]. by rewrite Econ2, lookup_insert_eq.
  - unfold set_backpressured. rewrite Econ, lookup_delete_eq. apply Z.nle_gt. intros Hle.
    by specialize (Hfit (busy_valid _) Hle).
Qed.

(** A frame becomes a request that is owed an answer. *)
Lemma observe_request_Inv extra w w' d c f todo r :
  Inv extra w r -> connections_ r !! d = Some c -> w d = ([], f :: todo) ->
  (forall d', d' <> d -> w' d' = w d') -> w' d = ([request_id f], todo) ->
  Inv extra w' (observe (request_parsed (token c) f) r).
Proof.
  intros HI Hc Hw Hw' Hwd. pose proof (iv_connections _ _ _ HI _ _ Hc) as Hok. rewrite Hw in Hok.
  pose proof HI as [Ic Icn It [If Il] [Ii In] Ig Igl Ie Iec Is].
  eapply (Inv_update _ _ r _ _ _ d c c [request_parsed (token c) f]); try done.
  - split; cbn; try done; [by rewrite insert_id|by apply Forall_singleton].
  - rewrite Hwd. cbn [fst snd] in *. destruct Hok as [? ? ? ? Hread Htodo ? Hans ? ? Hwr ? ? ? ? ? ?].
    split; try done; unfold read_of, parsed, queued, written in *; cbn [log_ observe];
      rewrite ?(of_token_snoc _ (token c)) by done; rewrite ?app_nil_r; try done.
    + rewrite Hread, <- (assoc_L (++)). done.
    + by rewrite <- (assoc_L (++)).
    + rewrite map_app, Hans. cbn [map app]. by rewrite Permutation_app_comm.
Qed.

(** A request that the executor took is in flight. *)
Lemma submit_Inv extra w w' d c f todo r e' :
  Inv extra w r -> connections_ r !! d = Some c -> w d = ([request_id f], todo) ->
  (forall d', d' <> d -> w' d' = w d') -> w' d = ([], todo) ->
  pending_request_count c < max_requests_in_flight_per_connection (config_ r) ->
  global_outstanding_ r < global_outstanding_work (config_ r) ->
  try_submit {| rq_token := token c; rq_frame := f; rq_wire_bytes := frame_size f |} (executor_ r) = (e', true) ->
  Inv extra w' (with_global (u64 (global_outstanding_ r + 1))
    (put_connection (with_pending (u64 (pending_request_count c + 1)) c) (with_executor e' r))).
Proof.
  intros HI Hc Hw Hw' Hwd Hp Hg Hs. pose proof (iv_connections _ _ _ HI _ _ Hc) as Hok. rewrite Hw in Hok.
  pose proof HI as [(_ & _ & Cp & Cg) Icn It [If Il] [Ii In] Ig Igl Ie Iec Is].
  pose proof (co_fd _ _ _ _ _ _ Hok) as Hfd.
  pose proof (co_pending _ _ _ _ _ _ Hok) as Hpe. pose proof (size_of_nonneg (extra ++ flight r)).
  pose proof (size_of_nonneg (flying (token c) (extra ++ flight r))). unfold is_u64 in Cp, Cg.
  pose proof (try_submit_spec {| rq_token := token c; rq_frame := f; rq_wire_bytes := frame_size f |} (executor_ r) Ie)
    as Hsub. rewrite Hs in Hsub. destruct Hsub as (He' & Hf' & Hwk & _); [cbn; unfold frame_size, size_of; lia|].
  set (r' := with_global _ _). cbn [app] in Hf'.
  assert (extra ++ flight r' ≡ₚ (token c, request_id f) :: extra ++ flight r) as Hfl.
  { unfold flight, r'. cbn. rewrite Hf'. cbn. by rewrite <- Permutation_middle. }
  assert (flying (token c) (extra ++ flight r') ≡ₚ request_id f :: flying (token c) (extra ++ flight r)) as Hfly.
  { rewrite Hfl. cbn. by rewrite decide_True. }
  eapply (Inv_update _ _ r _ _ _ d c (with_pending (u64 (pending_request_count c + 1)) c) []); try done.
  - unfold r'. split; cbn; rewrite ?Hfd; try done. by rewrite app_nil_r.
  - intros t Ht. rewrite Hfl. cbn. rewrite decide_False by done. done.
  - rewrite Hfl. constructor; [apply (co_id _ _ _ _ _ _ Hok)|done].
  - rewrite Hwd. cbn [fst snd] in *. destruct Hok as [? ? ? ? ? ? ? Hans ? ? ? ? ? ? ? ? ?].
    split; try done; cbn [token with_pending pending_request_count]; rewrite ?u64_small by (unfold is_u64; lia).
    + unfold parsed, queued in *. cbn [log_ r' with_global put_connection with_connections with_executor app].
      rewrite Hfly, Hans. cbn [app]. by rewrite <- Permutation_middle.
    + rewrite (size_of_perm _ _ Hfly). unfold size_of in *. cbn [length]. lia.
    + cbn. lia.
  - rewrite (size_of_perm _ _ Hfl). cbn [global_outstanding_ r' with_global].
    rewrite u64_small by (unfold is_u64; lia). unfold size_of in *. cbn [length]. lia.
  - cbn [global_outstanding_ r' with_global]. rewrite u64_small by (unfold is_u64; lia). lia.
  - cbn. by rewrite Hwk.
Qed.

(** After a dispatch: the connection is closed, or there with at most a refusal
    more to write. *)
Definition dispatched_to (d : Z) (c : Connection) (b : bool) (r' : Reactor) : Prop :=
  if b then exists c', connections_ r' !! d = Some c' /\ parser c' = parser c /\ token c' = token c /\
    buffered_output_bytes c' <= buffered_output_bytes c + busy_size
  else connections_ r' !! d = None.

Lemma dispatch_Inv extra w w' d c f todo r :
  Inv extra w r -> connections_ r !! d = Some c -> w d = ([], f :: todo) ->
  (forall d', d' <> d -> w' d' = w d') -> w' d = ([], todo) ->
  match dispatch d f r with
  | None => max_buffered_output_per_connection (config_ r) < buffered_output_bytes c + busy_size
  | Some (r', b) => Inv extra w' r' /\ config_ r' = config_ r /\ dispatched_to d c b r'
  end.
Proof.
  intros HI Hc Hw Hw' Hwd. unfold dispatch. rewrite Hc. destruct (_ <? frame_size f).
  { destruct (close_connection_Inv extra w w' d r HI Hw') as [HI' Hn]. split_and!; [done| |done].
    unfold close_connection. by rewrite Hc. }
  set (w1 := fun d' => if decide (d' = d) then ([request_id f], todo) else w d').
  assert (w1 d = ([request_id f], todo)) as Hw1 by (unfold w1; by rewrite decide_True).
  assert (forall d', d' <> d -> w1 d' = w d') as Hne by (intros d' H; unfold w1; by rewrite decide_False).
  assert (forall d', d' <> d -> w' d' = w1 d') as Hne' by (intros d' H; rewrite Hne by done; by apply Hw').
  pose proof (observe_request_Inv extra w w1 d c f todo r HI Hc Hw Hne Hw1) as HI1.
  set (r1 := observe _ r) in *. cbv zeta.
  assert (forall r2, Inv extra w1 r2 -> connections_ r2 = connections_ r -> config_ r2 = config_ r ->
    match reject d f r2 with
    | None => max_buffered_output_per_connection (config_ r) < buffered_output_bytes c + busy_size
    | Some (r', b) => Inv extra w' r' /\ config_ r' = config_ r /\ dispatched_to d c b r'
    end) as Hrej.
  { intros r2 HI2 E2 Ec2. rewrite <- E2 in Hc. pose proof (reject_Inv extra w1 w' d c f todo r2 HI2 Hc Hw1 Hne' Hwd) as H.
    rewrite Ec2 in H. destruct (reject d f r2) as [[r' b]|]; [|done]. destruct H as (-> & H1 & H2 & H3).
    split_and!; [done..|]. eexists. split; [exact H3|]. split_and!; [done..|].
    cbn [buffered_output_bytes queue_output with_output with_backpressure].
    change (frame_size (busy_response _)) with busy_size. lia. }
  destruct (_ || _) eqn:El; [by apply Hrej|]. apply orb_false_iff in El as [Ep Eg].
  destruct (interleave_Inv extra w1 r1 HI1) as [HI2 (T1 & T2 & T3 & T4)].
  destruct (try_submit _ _) as [e' [|]] eqn:Es; cbn [negb].
  2:{ unfold try_submit in Es. destruct (_ || _); [|done]. injection Es as <-. apply Hrej; try done. by destruct (interleave r1). }
  assert (connections_ (interleave r1) !! d = Some c) as Hc2 by (by rewrite T2).
  pose proof (submit_Inv extra w1 w' d c f todo (interleave r1) e' HI2 Hc2 Hw1 Hne' Hwd) as HI3.
  rewrite T1, T3 in HI3. cbn [config_ r1 observe global_outstanding_] in HI3.
  change (config_ r1) with (config_ r) in *. change (global_outstanding_ r1) with (global_outstanding_ r) in *.
  specialize (HI3 ltac:(lia) ltac:(lia) Es).
  pose proof (co_fd _ _ _ _ _ _ (iv_connections _ _ _ HI _ _ Hc)) as Hfd.
  change (global_outstanding_ (put_connection _ _)) with (global_outstanding_ (interleave r1)).
  change (global_outstanding_ (with_executor e' (interleave r1))) with (global_outstanding_ (interleave r1)).
  rewrite T3. set (r3 := with_global _ _) in *.
  assert (connections_ r3 !! d = Some (with_pending (u64 (pending_request_count c + 1)) c)) as Hc3
    by (unfold r3; cbn; rewrite Hfd; apply lookup_insert_eq).
  assert (config_ r3 = config_ r) as Hcf by (unfold r3; cbn; by rewrite T1).
  match goal with |- context [if ?b then _ else _] => destruct b end.
  - destruct (set_backpressured_Inv extra w' d _ true r3 HI3 Hc3) as (r4 & -> & HI4 & C4 & N4 & _).
    split_and!; [done|congruence|]. eexists. split; [by rewrite N4, lookup_insert_eq|]. split_and!; [done..|].
    cbn. unfold busy_size. lia.
  - split_and!; [done..|]. eexists. split; [exact Hc3|]. split_and!; [done..|]. cbn. unfold busy_size. lia.
Qed.
