(* ===== verification/TcpEvents.v ===== *)
(** * The events of the reactor

    Every event keeps the invariant of the TCP server, and only reading can run
    into a connection that is gone. *)

From S2P Require Import Prelude Wire Protocol RequestExecutor TcpServer TcpSafety.
Import RequestExecutor TcpServer.

Lemma debt_here d owed todo : debt d owed todo d = (owed, todo).
Proof. unfold debt. by rewrite decide_True. Qed.

Lemma debt_other d owed todo d' : d' <> d -> debt d owed todo d' = ([], []).
Proof. intros. unfold debt. by rewrite decide_False. Qed.

Lemma close_config d r : config_ (close_connection d r) = config_ r.
Proof. unfold close_connection. by destruct (connections_ r !! d). Qed.

(** ** Reading *)

Lemma dispatch_all_Inv extra d frames r : forall c,
  Inv extra (debt d [] frames) r -> connections_ r !! d = Some c ->
  match dispatch_all d frames r with
  | None => max_buffered_output_per_connection (config_ r) < buffered_output_bytes c + busy_size * size_of frames
  | Some (r', b) => Inv extra settled r' /\ config_ r' = config_ r /\
      if b then exists c', connections_ r' !! d = Some c' /\ parser c' = parser c /\
        buffered_output_bytes c' <= buffered_output_bytes c + busy_size * size_of frames
      else connections_ r' !! d = None
  end.
Proof.
  revert r. induction frames as [|f frames IH]; intros r c HI Hc; cbn [dispatch_all].
  { split_and!; [|done|].
    - destruct HI as [? Icn ? ? ? ? ? ? ? ?]. split; try done. intros d' c' Hc'. specialize (Icn d' c' Hc').
      by destruct (decide (d' = d)) as [->|]; [rewrite debt_here in Icn|rewrite debt_other in Icn].
    - exists c. split_and!; [done..|]. unfold busy_size, size_of. cbn. lia. }
  pose proof (dispatch_Inv extra (debt d [] (f :: frames)) (debt d [] frames) d c f frames r HI Hc
    (debt_here _ _ _) ltac:(intros; by rewrite !debt_other) (debt_here _ _ _)) as Hd.
  unfold size_of. cbn [length]. destruct (dispatch d f r) as [[r1 b]|]; [|unfold busy_size in *; lia].
  destruct Hd as (HI1 & Hcf & Hto). destruct b; cbn [negb andb].
  - destruct Hto as (c1 & Hc1 & Hp1 & _ & Hb1). specialize (IH r1 c1 HI1 Hc1). rewrite Hcf in IH.
    destruct (dispatch_all d frames r1) as [[r2 b]|]; unfold size_of, busy_size in *; [|lia].
    destruct IH as (HI2 & Hcf2 & Hb). split_and!; [done..|]. destruct b; [|done].
    destruct Hb as (c2 & Hc2 & Hp2 & Hb2). exists c2. split_and!; [done|congruence|lia].
  - unfold dispatched_to in Hto. rewrite bool_decide_true by done. split_and!; [|done|done].
    destruct HI1 as [? Icn ? ? ? ? ? ? ? ?]. split; try done. intros d' c' Hc'. specialize (Icn d' c' Hc').
    rewrite debt_other in Icn by congruence. done.
Qed.

(** An event of a connection that is gone changes no account. *)
Lemma observe_gone_Inv extra w e r :
  Inv extra w r -> tk_id (event_token e) < next_connection_id_ r ->
  (forall d c, connections_ r !! d = Some c -> token c <> event_token e) -> Inv extra w (observe e r).
Proof.
  intros [Ic Icn It [If Il] [Ii In] Ig Igl Ie Iec Is] Hid Hne. split; try done.
  - intros d c Hc. eapply ConnOk_mono; [by apply Icn|done..| | |done]; [|done].
    intros A f. cbn. apply of_token_other. intros E. by apply (Hne d c Hc).
  - split; [done|]. cbn. apply Forall_app. split; [done|]. by apply Forall_singleton.
Qed.

(** Closing the connection after bytes that cannot be used. *)
Lemma close_read_Inv extra w d c p bytes r :
  Inv extra w r -> connections_ r !! d = Some c ->
  let r' := close_connection d (observe (bytes_read (token c) bytes) (put_connection (with_parser p c) r)) in
  Inv extra w r' /\ config_ r' = config_ r.
Proof.
  intros HI Hc. pose proof (iv_connections _ _ _ HI _ _ Hc) as Hok. pose proof (co_fd _ _ _ _ _ _ Hok) as Hfd.
  destruct (close_connection_Inv extra w w d r HI ltac:(done)) as [HI' Hn].
  assert (close_connection d (observe (bytes_read (token c) bytes) (put_connection (with_parser p c) r)) =
    observe (bytes_read (token c) bytes) (close_connection d r)) as ->.
  { unfold close_connection. cbn [connections_ observe put_connection with_connections fd with_parser].
    rewrite Hfd, lookup_insert_eq, Hc. unfold observe, with_connections, with_interest, with_tokens. cbn.
    by rewrite delete_insert_eq. }
  split; [|unfold close_connection; by rewrite Hc]. apply observe_gone_Inv; [done|..].
  - unfold close_connection. rewrite Hc. cbn. apply (co_id _ _ _ _ _ _ Hok).
  - intros d' c' Hc'. cbn [event_token]. unfold close_connection in Hc'. rewrite Hc in Hc'. cbn in Hc'.
    apply lookup_delete_Some in Hc' as [Hne Hc']. pose proof (tokens_differ _ _ _ _ _ _ _ HI Hc Hc' Hne). congruence.
Qed.

Lemma frames_size fs : Z.of_nat kHeaderSize * size_of fs <= size_of (concat (map frame_bytes fs)).
Proof.
  induction fs as [|f fs IH]; [done|]. cbn [map concat]. rewrite size_of_app, size_of_frame_bytes.
  unfold frame_size. pose proof (size_of_nonneg (payload f)). unfold size_of in *. cbn [length]. lia.
Qed.

(** Bytes that parse to whole frames. *)
Lemma parse_Inv extra d c p fs bytes r :
  Inv extra settled r -> connections_ r !! d = Some c ->
  Parsed (Protocol.pending (parser c) ++ bytes) fs none (Protocol.pending p) -> ParserOk p -> failed_ p = false ->
  buffered_bytes p <= max_buffered_input_per_connection (config_ r) ->
  Inv extra (debt d [] fs) (observe (bytes_read (token c) bytes) (put_connection (with_parser p c) r)) /\
  Z.of_nat kHeaderSize * size_of fs + buffered_bytes p <= buffered_bytes (parser c) + size_of bytes.
Proof.
  intros HI Hc HP Hp Hf Hin. pose proof (iv_connections _ _ _ HI _ _ Hc) as Hok.
  pose proof (co_fd _ _ _ _ _ _ Hok) as Hfd. apply Parsed_sound in HP as (Hv & rest & Hb & Hr). specialize (Hr eq_refl).
  subst rest. split.
  - pose proof HI as [Ic Icn It [If Il] [Ii In] Ig Igl Ie Iec Is].
    eapply (Inv_update _ _ r _ _ _ d c (with_parser p c) [bytes_read (token c) bytes]); try done.
    + split; cbn; rewrite ?Hfd; try done. by apply Forall_singleton.
    + intros d' Hne. by rewrite debt_other.
    + rewrite debt_here. cbn [fst snd settled] in *. destruct Hok as [? ? ? ? Hread Htodo ? Hans ? ? Hwr ? ? ? ? ? ?].
      split; try done; unfold read_of, parsed, queued, written in *; cbn [token with_parser log_ observe put_connection
        with_connections parser]; rewrite ?(of_token_snoc _ (token c)) by done; rewrite ?app_nil_r; try done.
      * rewrite Hread, app_nil_r, <- (assoc_L (++)), Hb, map_app, concat_app. by rewrite (assoc_L (++)).
      * rewrite app_nil_r in Htodo. apply Forall_app. split; [done|]. eapply Forall_impl; [exact Hv|]. by intros f [? _].
  - pose proof (frames_size fs). destruct (co_parser _ _ _ _ _ _ Hok) as [Hpc _].
    rewrite !buffered_pending by done. apply (f_equal size_of) in Hb. rewrite !size_of_app in Hb. lia.
Qed.

(** The bytes a read may still bring, with those that wait in the parser. *)
Definition input_bound (c : Connection) (budget : Z) : Z := buffered_bytes (parser c) + Z.max 0 budget.

(** Room for a refusal of every request that fits into these bytes. *)
Definition has_room (limit : Z) (c : Connection) (budget : Z) : Prop :=
  Z.of_nat kHeaderSize * buffered_output_bytes c + busy_size * input_bound c budget <= Z.of_nat kHeaderSize * limit.

Lemma read_loop_Inv extra calls d : forall budget r,
  Inv extra settled r ->
  match read_loop calls budget d r with
  | None => exists c, connections_ r !! d = Some c /\ ~ has_room (max_buffered_output_per_connection (config_ r)) c budget
  | Some r' => Inv extra settled r' /\ config_ r' = config_ r
  end.
Proof.
  induction calls as [|call calls IH]; intros budget r HI; cbn [read_loop];
    (destruct (connections_ r !! d) as [c|] eqn:Hc; [|done]); (destruct (_ || _) eqn:Eb; [done|]); [done|].
  destruct (close_connection_Inv extra settled settled d r HI ltac:(done)) as [HIc _].
  pose proof (close_config d r) as Hcc.
  destruct call as [bytes| | |]; [|by specialize (IH budget r HI); rewrite Hc in IH|done|done]. set (b := take _ bytes) in *.
  case_bool_decide as Hne; [done|]. destruct (iv_connections _ _ _ HI _ _ Hc) as [_ _ _ [Hp Hf] _ _ _ _ _ _ _ _ _ _ _ _ _].
  destruct (consume_refines (parser c) b Hp Hf) as (p & fs & e & -> & HP & Hp' & Hf'). cbn [pb_frames pb_error].
  destruct (negb _ || _) eqn:E; [by apply close_read_Inv|].
  apply orb_false_iff in E as [E Hin]. apply negb_false_iff, bool_decide_eq_true in E. subst e.
  destruct (parse_Inv extra d c p fs b r HI Hc HP Hp' Hf') as [HI1 Hsz]; [cbn in Hin; lia|]. set (r1 := observe _ _) in *.
  pose proof (co_fd _ _ _ _ _ _ (iv_connections _ _ _ HI _ _ Hc)) as Hfd.
  assert (connections_ r1 !! d = Some (with_parser p c)) as Hc1 by (unfold r1; cbn; rewrite Hfd; apply lookup_insert_eq).
  assert (size_of b <= budget) as Hle by (unfold size_of, b; rewrite length_take; lia).
  pose proof (size_of_nonneg b). pose proof (size_of_nonneg fs). assert (0 <= buffered_bytes p) by (unfold buffered_bytes; lia).
  pose proof (dispatch_all_Inv extra d fs r1 (with_parser p c) HI1 Hc1) as Hall.
  change (config_ r1) with (config_ r) in Hall. cbn [buffered_output_bytes with_parser parser] in Hall.
  unfold has_room, input_bound, busy_size, kHeaderSize in *.
  destruct (dispatch_all d fs r1) as [[r2 [|]]|].
  - destruct Hall as (HI2 & Hcf & c2 & Hc2 & Hp2 & Hb2). specialize (IH (budget - size_of b) r2 HI2). rewrite Hcf in IH.
    destruct (read_loop _ _ _ _); [done|]. destruct IH as (c3 & Hc3 & Hr). rewrite Hc2 in Hc3. injection Hc3 as <-.
    exists c. split; [done|]. rewrite Hp2 in Hr. cbn [parser with_parser] in Hr. lia.
  - by destruct Hall as (? & ? & _).
  - exists c. split; [done|]. lia.
Qed.

(** ** Writing *)

Lemma update_interest_Inv extra w d c r :
  Inv extra w r -> connections_ r !! d = Some c -> Inv extra w (update_interest c r).
Proof.
  intros HI Hc. pose proof (iv_connections _ _ _ HI _ _ Hc) as Hok. pose proof (co_fd _ _ _ _ _ _ Hok) as Hfd.
  destruct (co_interest _ _ _ _ _ _ Hok) as (out & Hout & _). pose proof HI as [Ic Icn It [If Il] [Ii In] Ig Igl Ie Iec Is].
  eapply (Inv_update _ _ r _ _ _ d c c []); try done.
  - split; cbn; try done; [by rewrite insert_id|by rewrite app_nil_r|]. intros d' Hne. rewrite Hfd. by rewrite lookup_alter_ne.
  - destruct Hok. split; try done. cbn. rewrite Hfd, lookup_alter_eq, Hout. cbn. eexists. split; [done|].
    intros. by rewrite bool_decide_false.
Qed.

Lemma take_output_Inv extra w d c front rest sent r :
  Inv extra w r -> connections_ r !! d = Some c -> write_queue c = front :: rest ->
  0 < sent <= size_of front - write_offset c ->
  Inv extra w (observe (bytes_written (token c) (subspan (Z.to_nat (write_offset c)) (Z.to_nat sent) front))
    (put_connection (take_output front rest sent c) r)).
Proof.
  intros HI Hc Hq Hs. pose proof (iv_connections _ _ _ HI _ _ Hc) as Hok. pose proof (co_fd _ _ _ _ _ _ Hok) as Hfd.
  pose proof HI as [Ic Icn It [If Il] [Ii In] Ig Igl Ie Iec Is]. set (bytes := subspan _ _ _).
  set (c' := take_output front rest sent c).
  assert (fd c' = d /\ token c' = token c /\ parser c' = parser c /\ pending_request_count c' = pending_request_count c /\
    read_paused c' = read_paused c /\ backpressured c' = backpressured c) as (F1 & F2 & F3 & F4 & F5 & F6)
    by (unfold c', take_output; by destruct (_ =? _)).
  eapply (Inv_update _ _ r _ _ _ d c c' [bytes_written (token c) bytes]); try done.
  { split; cbn; rewrite ?F1; try done. by apply Forall_singleton. }
  destruct Hok as [? ? ? ? ? ? ? ? ? ? Hwr [Ho _] Hnn Hb Hol (out & Hout & Hout') ?].
  rewrite Hq in Hnn. apply Forall_cons in Hnn as [Hfr Hnn].
  assert (remaining c = bytes ++ remaining c') as Hrem.
  { unfold remaining, c', take_output, bytes, subspan. rewrite Hq. cbn [concat]. unfold size_of in *.
    rewrite drop_app_le by lia. destruct (Z.eqb_spec (write_offset c + sent) (Z.of_nat (length front))); cbn [write_queue
      write_offset with_output concat drop Z.to_nat].
    - rewrite take_ge by (rewrite length_drop; lia). done.
    - rewrite (drop_app_le front) by lia. rewrite Z2Nat.inj_add, <- drop_drop by lia. by rewrite (assoc_L (++)), take_drop. }
  assert (size_of bytes = sent) as Hsz
    by (unfold bytes, subspan, size_of in *; rewrite length_take, length_drop; lia).
  pose proof (f_equal size_of Hrem) as Hsr. rewrite size_of_app in Hsr. pose proof (size_of_nonneg (remaining c')).
  unfold config_ok, is_u64 in Ic.
  assert (buffered_output_bytes c' = buffered_output_bytes c - sent) as F7.
  { unfold c', take_output. destruct (_ =? _); cbn; rewrite u64_small by (unfold is_u64; lia); done. }
  split; rewrite ?F1, ?F2, ?F3, ?F4, ?F5, ?F6, ?F7; try done; unfold read_of, parsed, queued, written in *;
    cbn [log_ observe put_connection with_connections]; rewrite ?(of_token_snoc _ (token c)) by done; rewrite ?app_nil_r; try done.
  - by rewrite <- Hwr, Hrem, (assoc_L (++)).
  - unfold c', take_output. destruct (Z.eqb_spec (write_offset c + sent) (size_of front)); cbn.
    + split; [done|]. destruct rest as [|n rest]; [done|]. apply Forall_cons in Hnn as [Hn _]. unfold size_of.
      destruct n; [done|cbn; lia].
    + lia.
  - unfold c', take_output. destruct (_ =? _); cbn; [done|]. by constructor.
  - lia.
  - cbn. lia.
  - exists out. split; [done|]. intros _. apply Hout'. by rewrite Hq.
Qed.

Lemma write_loop_Inv extra w calls d : forall budget r,
  Inv extra w r -> Inv extra w (write_loop calls budget d r) /\ config_ (write_loop calls budget d r) = config_ r.
Proof.
  induction calls as [|call calls IH]; intros budget r HI; cbn [write_loop];
    (destruct (connections_ r !! d) as [c|] eqn:Hc; [|done]); pose proof (update_interest_Inv _ _ _ _ _ HI Hc) as Hu;
    (destruct (write_queue c) as [|front rest] eqn:Hq; [done|]); (destruct (budget <=? 0) eqn:Eb; [done|]); [done|].
  destruct (close_connection_Inv extra w w d r HI ltac:(done)) as [HIc _].
  pose proof (close_config d r) as Hcc.
  destruct call as [[|n]| | |]; [done| |by apply IH|done|done].
  pose proof (co_offset _ _ _ _ _ _ (iv_connections _ _ _ HI _ _ Hc)) as [Ho Ho']. rewrite Hq in Ho'.
  destruct (IH (budget - Z.min (Z.of_nat (S n)) (Z.min (size_of front - write_offset c) budget))
    (observe (bytes_written (token c) (subspan (Z.to_nat (write_offset c))
        (Z.to_nat (Z.min (Z.of_nat (S n)) (Z.min (size_of front - write_offset c) budget))) front))
      (put_connection (take_output front rest (Z.min (Z.of_nat (S n)) (Z.min (size_of front - write_offset c) budget)) c) r)))
    as [H1 H2]; [|by split].
  apply (take_output_Inv _ _ d); try done. lia.
Qed.

(** ** Completions *)

Lemma size_cons {A} (x : A) l : size_of (x :: l) = 1 + size_of l.
Proof. unfold size_of. cbn [length]. lia. Qed.

(** The completion of a request whose connection is gone. *)
Lemma forget_Inv extra p w r :
  Inv (p :: extra) w r -> (forall d c, connections_ r !! d = Some c -> token c <> p.1) ->
  Inv extra w (with_global (global_outstanding_ r - 1) r).
Proof.
  intros [Ic Icn It [If Il] [Ii In] Ig Igl Ie Iec Is] Hne. cbn [app] in *. rewrite size_cons in Ig.
  apply Forall_cons in If as [_ If]. split; try done; [|cbn; change (flight (with_global _ r)) with (flight r); lia|cbn; lia].
  intros d c Hc. eapply ConnOk_mono; [by apply Icn|done..| |done]. cbn. by rewrite decide_False by (intros E; by apply (Hne d c Hc)).
Qed.

(** The completion of a request of a connection: an answer is owed. *)
Lemma return_Inv extra p d c r :
  Inv (p :: extra) settled r -> connections_ r !! d = Some c -> token c = p.1 ->
  0 < pending_request_count c /\
  Inv extra (debt d [p.2] []) (put_connection (with_pending (pending_request_count c - 1) c)
    (with_global (global_outstanding_ r - 1) r)).
Proof.
  intros HI Hc Ht. pose proof (iv_connections _ _ _ HI _ _ Hc) as Hok. pose proof (co_fd _ _ _ _ _ _ Hok) as Hfd.
  pose proof HI as [Ic Icn It [If Il] [Ii In] Ig Igl Ie Iec Is]. cbn [app] in If, Ig. rewrite size_cons in Ig.
  apply Forall_cons in If as [_ If].
  assert (forall l, flying (token c) (p :: l) = p.2 :: flying (token c) l) as Hfly by (intros l; cbn; by rewrite decide_True).
  pose proof (co_pending _ _ _ _ _ _ Hok) as Hp. cbn [app] in Hp. rewrite Hfly, size_cons in Hp.
  pose proof (size_of_nonneg (flying (token c) (extra ++ flight r))). split; [lia|].
  eapply (Inv_update _ _ r _ _ _ d c (with_pending (pending_request_count c - 1) c) []); try done.
  - split; cbn; rewrite ?Hfd; try done. by rewrite app_nil_r.
  - intros t Hne. cbn. rewrite decide_False by congruence. done.
  - intros d' Hne. by rewrite debt_other.
  - rewrite debt_here. cbn [fst snd settled] in *. destruct Hok as [? ? ? ? ? ? ? Hans ? ? ? ? ? ? ? ? ?].
    split; try done; cbn [token with_pending pending_request_count].
    + change (parsed (token c) (log_ r)) with (parsed (token c) (log_ (put_connection (with_pending
        (pending_request_count c - 1) c) (with_global (global_outstanding_ r - 1) r)))) in Hans.
      rewrite Hans. cbn [app]. rewrite Hfly. by rewrite <- Permutation_middle.
    + change (flight (put_connection _ _)) with (flight r). lia.
    + cbn. lia.
  - cbn. change (flight (put_connection _ _)) with (flight r). lia.
  - cbn. lia.
Qed.

(** The connections of some tokens read on, or are closed; the others stay as they
    are. *)
Definition resumed (ts : list ConnectionToken) (r r' : Reactor) : Prop :=
  forall d c', connections_ r' !! d = Some c' -> exists c, connections_ r !! d = Some c /\ token c' = token c /\
    if decide (token c ∈ ts) then backpressured c' = false else c' = c.

Lemma resumed_at extra w d c r r' (x : option Connection) :
  Inv extra w r -> connections_ r !! d = Some c -> connections_ r' = partial_alter (fun _ => x) d (connections_ r) ->
  (forall c', x = Some c' -> token c' = token c /\ backpressured c' = false) -> resumed [token c] r r'.
Proof.
  intros HI Hc Hcon Hx d' c' Hc'. rewrite Hcon in Hc'. destruct (decide (d' = d)) as [->|Hne].
  - rewrite lookup_partial_alter_eq in Hc'. exists c. destruct (Hx c' Hc') as [? ?]. split_and!; [done..|].
    rewrite decide_True by (by apply list_elem_of_singleton). done.
  - rewrite lookup_partial_alter_ne in Hc' by done. exists c'. split_and!; [done..|]. rewrite decide_False; [done|].
    intros E%list_elem_of_singleton. pose proof (tokens_differ _ _ _ _ _ _ _ HI Hc Hc' ltac:(done)). congruence.
Qed.

Lemma resumed_app ts us r r1 r2 : resumed ts r r1 -> resumed us r1 r2 -> resumed (ts ++ us) r r2.
Proof.
  intros H1 H2 d c2 Hc2. destruct (H2 d c2 Hc2) as (c1 & Hc1 & T1 & B1). destruct (H1 d c1 Hc1) as (c & Hc & T & B).
  exists c. split_and!; [done|congruence|]. rewrite T in B1. destruct (decide (token c ∈ us)).
  - rewrite decide_True by set_solver. done.
  - subst c2. destruct (decide (token c ∈ ts)); [rewrite decide_True by set_solver|rewrite decide_False by set_solver]; done.
Qed.

(** A completion is always processed: the response is queued on the connection the
    request came from, if that still exists, which then reads on, and the request
    is no longer in flight. *)
Lemma complete_gone extra q r :
  Inv (completion_flight q :: extra) settled r ->
  (forall d c, connections_ r !! d = Some c -> token c <> cp_token q) ->
  let r0 := with_global (global_outstanding_ r - 1) r in
  exists r', Some r0 = Some r' /\ Inv extra settled r' /\ config_ r' = config_ r /\ resumed [cp_token q] r r'.
Proof.
  intros HI Hne r0. exists r0. split_and!; [done|by eapply forget_Inv|done|].
  intros d c Hc. exists c. split_and!; [done..|]. rewrite decide_False; [done|].
  intros E%list_elem_of_singleton. by eapply Hne.
Qed.

Lemma complete_live extra q d c r :
  Inv (completion_flight q :: extra) settled r -> echoes q -> connections_ r !! d = Some c -> token c = cp_token q ->
  let c1 := with_pending (pending_request_count c - 1) c in
  let r1 := put_connection c1 (with_global (global_outstanding_ r - 1) r) in
  exists r', match queue_response d (cp_frame q) r1 with
    | None => None
    | Some (r, false) => Some r
    | Some (r, true) =>
        if backpressured c1 && (pending_request_count c1 <? max_requests_in_flight_per_connection (config_ r)) &&
           (global_outstanding_ r <? global_outstanding_work (config_ r))
        then set_backpressured d false r else Some r
    end = Some r' /\ Inv extra settled r' /\ config_ r' = config_ r /\ resumed [cp_token q] r r'.
Proof.
  intros HI Hq Hc Ht c1 r1. rewrite <- Ht. destruct (return_Inv extra (completion_flight q) d c r HI Hc Ht) as [Hp HI1].
  fold c1 r1 in HI1. pose proof (iv_connections _ _ _ HI _ _ Hc) as Hok. pose proof (co_fd _ _ _ _ _ _ Hok) as Hfd.
  pose proof (co_pending_limit _ _ _ _ _ _ Hok) as Hpl. pose proof (iv_global_limit _ _ _ HI) as Hgl.
  assert (connections_ r1 = <[d := c1]> (connections_ r)) as Hcon1 by (unfold r1; cbn; by rewrite Hfd).
  destruct (queue_response_Inv extra (debt d [(completion_flight q).2] []) settled d c1 (cp_frame q) [] [] r1 HI1)
    as (r2 & b & -> & HI2 & Hcf & _ & Hgb & Hcon & _).
  { by rewrite Hcon1, lookup_insert_eq. }
  { rewrite debt_here. unfold echoes in Hq. cbn. by rewrite Hq. }
  { intros d' Hne. by rewrite debt_other. }
  { done. }
  rewrite Hcon1 in Hcon. change (config_ r1) with (config_ r) in Hcf.
  change (global_outstanding_ r1) with (global_outstanding_ r - 1) in Hgb. destruct b.
  2:{ rewrite delete_insert_eq in Hcon. exists r2. split_and!; [done..|].
      by eapply (resumed_at _ _ d c r r2 None). }
  rewrite insert_insert_eq in Hcon. rewrite Hcf, Hgb, (proj2 (Z.ltb_lt (global_outstanding_ r - 1) _)) by lia.
  rewrite (proj2 (Z.ltb_lt (pending_request_count c1) _)) by (cbn; lia). rewrite !andb_true_r.
  change (backpressured c1) with (backpressured c). destruct (backpressured c) eqn:Eb.
  - destruct (set_backpressured_Inv extra settled d (queue_output (cp_frame q) c1) false r2 HI2)
      as (r3 & -> & HI3 & Hcf3 & Hcon3 & _); [by rewrite Hcon, lookup_insert_eq|].
    exists r3. split_and!; [done|done|congruence|]. rewrite Hcon, insert_insert_eq in Hcon3.
    eapply (resumed_at _ _ d c r r3 (Some _)); try done. by intros c' [= <-].
  - exists r2. split_and!; [done..|]. eapply (resumed_at _ _ d c r r2 (Some _)); try done. by intros c' [= <-].
Qed.

Lemma complete_Inv extra q r :
  Inv (completion_flight q :: extra) settled r -> echoes q ->
  exists r', complete q r = Some r' /\ Inv extra settled r' /\ config_ r' = config_ r /\ resumed [cp_token q] r r'.
Proof.
  intros HI Hq. pose proof (iv_global _ _ _ HI) as Hg. cbn [app] in Hg. rewrite size_cons in Hg.
  pose proof (size_of_nonneg (extra ++ flight r)). unfold complete. rewrite (proj2 (Z.ltb_lt 0 (global_outstanding_ r))) by lia.
  cbn [token_to_fd_ connections_ with_global].
  pose proof (fun d c Hc => co_token _ _ _ _ _ _ (iv_connections _ _ _ HI d c Hc)) as Htok.
  destruct (token_to_fd_ r !! tk_id (cp_token q)) as [d|] eqn:Ed.
  2:{ apply complete_gone; [done|]. intros d c Hc E. specialize (Htok d c Hc). congruence. }
  destruct (connections_ r !! d) as [c|] eqn:Hc.
  2:{ apply complete_gone; [done|]. intros d' c Hc' E. specialize (Htok d' c Hc'). congruence. }
  case_bool_decide as Et; cbn [negb].
  - destruct (return_Inv extra (completion_flight q) d c r HI Hc Et) as [Hp _].
    rewrite (proj2 (Z.ltb_lt 0 (pending_request_count c))) by lia. by apply complete_live.
  - apply complete_gone; [done|]. intros d' c' Hc' E. pose proof (Htok d' c' Hc'). rewrite E in *. congruence.
Qed.

Lemma complete_all_Inv qs : forall r,
  Inv (map completion_flight qs) settled r -> Forall echoes qs ->
  exists r', complete_all qs r = Some r' /\ Inv [] settled r' /\ config_ r' = config_ r /\ resumed (map cp_token qs) r r'.
Proof.
  induction qs as [|q qs IH]; intros r HI Hqs; cbn [complete_all].
  { exists r. split_and!; [done..|]. intros d c Hc. exists c. split_and!; [done..|]. by rewrite decide_False by apply not_elem_of_nil. }
  apply Forall_cons in Hqs as [Hq Hqs]. destruct (complete_Inv _ q r HI Hq) as (r1 & -> & HI1 & E1 & R1).
  destruct (IH r1 HI1 Hqs) as (r2 & -> & HI2 & E2 & R2). exists r2.
  split_and!; [done..|congruence|]. by apply (resumed_app [cp_token q] _ r r1 r2).
Qed.

(** The completions are taken off the queue, but are still in flight. *)
Lemma swap_Inv r : Inv [] settled r -> Inv (map completion_flight (completions_ r)) settled (with_completions [] 0 r).
Proof.
  intros [Ic Icn It [If Il] [Ii In] Ig Igl Ie Iec Is].
  assert (map completion_flight (completions_ r) ++ flight (with_completions [] 0 r) ≡ₚ [] ++ flight r) as Hf.
  { unfold flight. cbn. by rewrite app_nil_r, Permutation_app_comm. }
  apply Forall_app in Iec as [_ Iec]. split; try done.
  - intros d c Hc. eapply ConnOk_mono; [by apply Icn|done..| |done]. by rewrite Hf.
  - split; [|done]. by rewrite Hf.
  - cbn [global_outstanding_ with_completions]. by rewrite Ig, (size_of_perm _ _ Hf).
Qed.

Lemma process_completions_Inv r :
  Inv [] settled r -> exists r', process_completions r = Some r' /\ Inv [] settled r' /\ config_ r' = config_ r /\
    resumed (map cp_token (completions_ r)) r r'.
Proof.
  intros HI. pose proof (iv_echo _ _ _ HI) as He. apply Forall_app in He as [He _].
  destruct (complete_all_Inv _ _ (swap_Inv r HI) He) as (r' & E & HI' & Hcf & HR). by exists r'.
Qed.

(** ** Accepting *)

Lemma size_zero_of_token {A} (f : Event -> list A) t log :
  Forall (fun e => event_token e <> t) log -> of_token f t log = [].
Proof.
  induction 1 as [|e log He _ IH]; [done|]. unfold of_token in *. cbn. by rewrite decide_False.
Qed.

Lemma flying_fresh t l : Forall (fun p => tk_id p.1 <> tk_id t) l -> flying t l = [].
Proof. induction 1 as [|p l Hp _ IH]; [done|]. cbn. rewrite decide_False by congruence. done. Qed.

Lemma try_emplace_fresh {A} k (a : A) m : m !! k = None -> try_emplace k a m = <[k := a]> m.
Proof. intros E. unfold try_emplace. by rewrite E. Qed.

Lemma register_Inv d r :
  Inv [] settled r -> connections_ r !! d = None -> is_u64 (next_connection_id_ r + 1) ->
  Z.of_nat (size (connections_ r)) < max_connections (config_ r) -> Inv [] settled (add_connection d true r).
Proof.
  intros [Ic Icn It [If Il] [Ii In] Ig Igl Ie Iec Is] Hd Hn Hm. unfold add_connection. rewrite (u64_small (next_connection_id_ r + 1)) by done.
  set (t := {| tk_id := _; tk_generation := _ |}).
  assert (token_to_fd_ r !! next_connection_id_ r = None) as Hfresh.
  { destruct (token_to_fd_ r !! next_connection_id_ r) as [d'|] eqn:E; [|done].
    destruct (It _ _ E) as (c & Hc & Hid). pose proof (co_id _ _ _ _ _ _ (Icn _ _ Hc)). lia. }
  cbn [connections_ token_to_fd_ with_connections with_ids]. rewrite !try_emplace_fresh by done.
  split; cbn -[t]; try done.
  - intros d' c Hc. destruct (decide (d' = d)) as [->|Hne].
    + rewrite lookup_insert_eq in Hc. injection Hc as <-.
      assert (forall A (f : Event -> list A), of_token f t (log_ r) = []) as Hlog.
      { intros A f. apply size_zero_of_token. eapply Forall_impl; [exact Il|]. intros e He E. apply (f_equal tk_id) in E. cbn in He, E. lia. }
      assert (flying t (flight r) = []) as Hfl.
      { apply flying_fresh. eapply Forall_impl; [exact If|]. cbn. intros p Hp. lia. }
      unfold config_ok, is_u64 in Ic. split; unfold read_of, parsed, queued, written; cbn -[t flight of_token flying]; rewrite ?Hlog; try done.
      * by rewrite lookup_insert_eq.
      * cbn. lia.
      * split; [apply ParserOk_default|done].
      * unfold buffered_bytes. cbn. lia.
      * change (flight _) with (flight r). by rewrite Hfl.
      * change (flight _) with (flight r). by rewrite Hfl.
      * lia.
      * lia.
      * rewrite lookup_insert_eq. by exists false.
    + rewrite lookup_insert_ne in Hc by done. pose proof (Icn d' c Hc) as Hok. pose proof (co_id _ _ _ _ _ _ Hok).
      eapply ConnOk_mono; [exact Hok|done|..]; cbn; try done; [|lia|by rewrite lookup_insert_ne].
      rewrite lookup_insert_ne by lia. done.
  - intros id d' Hl. destruct (decide (id = next_connection_id_ r)) as [->|Hne].
    + rewrite lookup_insert_eq in Hl. injection Hl as <-. eexists. rewrite lookup_insert_eq. done.
    + rewrite lookup_insert_ne in Hl by done. destruct (It id d' Hl) as (c & Hc & Hid). exists c.
      rewrite lookup_insert_ne by congruence. done.
  - split; (eapply Forall_impl; [done|]); cbn; lia.
  - split; [by rewrite !dom_insert_L, Ii|]. rewrite map_size_insert_None by done. lia.
Qed.

(** A connection that cannot be registered is closed again. *)
Lemma add_unregistered d r : add_connection d false r = close_connection d (add_connection d true r).
Proof.
  unfold add_connection, close_connection. cbn. destruct (try_emplace d _ (connections_ r) !! d) eqn:E.
  - unfold with_connections, with_interest, with_tokens. cbn. by rewrite delete_insert_eq.
  - unfold try_emplace in E. destruct (connections_ r !! d) eqn:Ed; [congruence|]. by rewrite lookup_insert_eq in E.
Qed.

Lemma add_connection_Inv d registered r :
  Inv [] settled r -> connections_ r !! d = None -> is_u64 (next_connection_id_ r + 1) ->
  Z.of_nat (size (connections_ r)) < max_connections (config_ r) ->
  Inv [] settled (add_connection d registered r) /\ config_ (add_connection d registered r) = config_ r.
Proof.
  intros HI Hd Hn Hm. pose proof (register_Inv d r HI Hd Hn Hm) as HI1. destruct registered; [done|].
  destruct (close_connection_Inv [] settled settled d _ HI1 ltac:(done)) as [HI2 _].
  rewrite add_unregistered. split; [done|by rewrite close_config].
Qed.

(** The descriptors [accept4] returns are not open, and the identifiers of the
    connections do not wrap around. *)
Fixpoint accept_ok (calls : list Accepted) (r : Reactor) : Prop :=
  match calls with
  | [] | accept_failed :: _ => True
  | accept_interrupted :: calls' => accept_ok calls' r
  | connected d nodelay registered :: calls' =>
      connections_ r !! d = None /\ is_u64 (next_connection_id_ r + 1) /\
      if (max_connections (config_ r) <=? Z.of_nat (size (connections_ r))) || negb nodelay then accept_ok calls' r
      else accept_ok calls' (add_connection d registered r)
  end.

Lemma accept_connections_Inv calls : forall r,
  Inv [] settled r -> accept_ok calls r ->
  Inv [] settled (accept_connections calls r) /\ config_ (accept_connections calls r) = config_ r.
Proof.
  induction calls as [|[d nodelay registered| |] calls IH]; intros r HI Ha; cbn [accept_connections accept_ok] in *;
    [done| |by apply IH|done].
  destruct Ha as (Hd & Hn & Ha). destruct (_ || _) eqn:Em; [by apply IH|]. apply orb_false_iff in Em as [Em _].
  destruct (add_connection_Inv d registered r HI Hd Hn) as [HI' E]; [lia|]. rewrite <- E. by apply IH.
Qed.

(** ** All events *)

Definition input_ok (i : Input) (r : Reactor) : Prop :=
  match i with listener_ready calls => accept_ok calls r | other_thread t => step_ok t | _ => True end.

(** There is room for the refusals that reading may lead to. *)
Definition roomy (i : Input) (r : Reactor) : Prop :=
  match i with
  | connection_ready d _ true _ _ _ _ => forall c, connections_ r !! d = Some c ->
      has_room (max_buffered_output_per_connection (config_ r)) c (read_budget_per_event (config_ r))
  | _ => True
  end.

Lemma handle_Inv i r :
  Inv [] settled r -> input_ok i r ->
  match handle i r with
  | None => ~ roomy i r
  | Some r' => Inv [] settled r' /\ config_ r' = config_ r
  end.
Proof.
  intros HI Hi. destruct i as [calls| |d error input output hangup reads writes|t]; cbn [handle].
  - by apply accept_connections_Inv.
  - by destruct (process_completions_Inv r HI) as (r' & -> & ? & ? & _).
  - unfold handle_connection. destruct error.
    { split; [by eapply close_connection_Inv|apply close_config]. }
    assert (match (if input then read_connection reads d r else Some r) with
      | None => ~ roomy (connection_ready d false input output hangup reads writes) r
      | Some r' => Inv [] settled r' /\ config_ r' = config_ r end) as Hr.
    { destruct input; [|done]. unfold read_connection.
      pose proof (read_loop_Inv [] reads d (read_budget_per_event (config_ r)) r HI) as H.
      destruct (read_loop _ _ _ _); [done|]. destruct H as (c & Hc & Hn). intros Hroom. by apply Hn, Hroom. }
    destruct (if input then _ else _) as [r1|]; [|done]. destruct Hr as [HI1 E1]. case_bool_decide; [done|].
    assert (Inv [] settled (if output then write_connection writes d r1 else r1) /\
      config_ (if output then write_connection writes d r1 else r1) = config_ r) as [HI2 E2].
    { destruct output; [|done]. destruct (write_loop_Inv [] settled writes d (write_budget_per_event (config_ r1)) r1 HI1).
      split; [done|]. unfold write_connection. congruence. }
    destruct (hangup && negb input); [|done]. split; [by eapply close_connection_Inv|by rewrite close_config].
  - split; [by apply thread_step_Inv|]. apply thread_step_tables.
Qed.

(** ** Shutdown *)

Lemma close_all_gone ds : forall r d,
  connections_ (foldl (fun r d => close_connection d r) r ds) !! d =
    if decide (d ∈ ds) then None else connections_ r !! d.
Proof.
  induction ds as [|d0 ds IH]; intros r d; cbn [foldl]; [by rewrite decide_False by apply not_elem_of_nil|].
  assert (connections_ (close_connection d0 r) = delete d0 (connections_ r)) as E.
  { unfold close_connection. destruct (connections_ r !! d0) eqn:E0; [done|]. by rewrite delete_id. }
  rewrite IH, E. destruct (decide (d ∈ ds)); [by rewrite decide_True by set_solver|].
  destruct (decide (d = d0)) as [->|Hne]; [rewrite decide_True by set_solver; apply lookup_delete_eq|].
  rewrite decide_False by set_solver. by rewrite lookup_delete_ne.
Qed.

Lemma close_all_Inv ds : forall r, Inv [] settled r -> Inv [] settled (foldl (fun r d => close_connection d r) r ds).
Proof.
  induction ds as [|d ds IH]; intros r HI; [done|]. cbn [foldl]. apply IH. by eapply close_connection_Inv.
Qed.

(** Shutting down is always defined and leaves nothing open. *)
Lemma shut_down_Inv r :
  Inv [] settled r ->
  exists r', shut_down r = Some r' /\ Inv [] settled r' /\ connections_ r' = ∅ /\ token_to_fd_ r' = ∅ /\ interest_ r' = ∅.
Proof.
  intros HI. unfold shut_down. destruct (process_completions_Inv r HI) as (r1 & -> & HI1 & _). eexists. split; [done|].
  pose proof (close_all_Inv (map_to_list (connections_ r1)).*1 r1 HI1) as HI2.
  assert (connections_ (close_all_connections r1) = ∅) as E.
  { apply map_empty. intros d. unfold close_all_connections. rewrite close_all_gone. destruct (decide _) as [|Hn]; [done|].
    destruct (connections_ r1 !! d) as [c|] eqn:Hc; [|done]. destruct Hn. apply list_elem_of_fmap. exists (d, c).
    split; [done|]. by apply elem_of_map_to_list. }
  split_and!; [exact HI2|done|..].
  - apply map_empty. intros id. destruct (token_to_fd_ (close_all_connections r1) !! id) as [d|] eqn:Et; [|done].
    destruct (iv_tokens _ _ _ HI2 id d Et) as (c & Hc & _). unfold close_all_connections in E. by rewrite E in Hc.
  - apply dom_empty_inv_L. rewrite <- (dom_empty_L (D := gset Z) (A := Connection)), <- E. apply (iv_interest _ _ _ HI2).
Qed.
