(* ===== verification/TcpLineage.v ===== *)
(** * Where the connections of the TCP server come from

    A connection keeps its token until it is closed, an event of one connection
    leaves the others as they are, and a paused connection without requests in
    flight stays so. *)

From S2P Require Import Prelude Wire Protocol RequestExecutor TcpServer TcpSafety TcpEvents.
Import RequestExecutor TcpServer.

(** ** Events of one connection *)

Definition keyed (d : Z) (r : Reactor) : Prop := forall c, connections_ r !! d = Some c -> fd c = d.

(** Only the connection [d] is changed or closed. *)
Record Tame (d : Z) (r r' : Reactor) : Prop := {
  tm_next : next_connection_id_ r' = next_connection_id_ r;
  tm_other : forall d', d' <> d -> connections_ r' !! d' = connections_ r !! d';
  tm_here : forall c', connections_ r' !! d = Some c' ->
    exists c, connections_ r !! d = Some c /\ token c' = token c /\ fd c' = fd c
}.

#[export] Instance Tame_preorder d : PreOrder (Tame d).
Proof.
  split.
  - intros r. split; [done..|]. intros c Hc. by exists c.
  - intros r1 r2 r3 [N1 O1 H1] [N2 O2 H2]. split; [congruence| |].
    + intros d' Hne. by rewrite O2, O1.
    + intros c3 Hc3. destruct (H2 c3 Hc3) as (c2 & Hc2 & T2 & F2). destruct (H1 c2 Hc2) as (c1 & Hc1 & T1 & F1).
      exists c1. split_and!; [done|congruence..].
Qed.

Lemma Tame_keyed d r r' : Tame d r r' -> keyed d r -> keyed d r'.
Proof. intros [_ _ Hh] Hk c' Hc'. destruct (Hh c' Hc') as (c & Hc & _ & ->). by apply Hk. Qed.

(** The tables are the same. *)
Lemma Tame_same d r r' :
  connections_ r' = connections_ r -> next_connection_id_ r' = next_connection_id_ r -> Tame d r r'.
Proof. intros E1 E2. split; rewrite ?E1; [done..|]. intros c Hc. by exists c. Qed.

Lemma put_Tame d c c' r r' :
  connections_ r !! d = Some c -> keyed d r -> fd c' = fd c -> token c' = token c ->
  connections_ r' = <[fd c' := c']> (connections_ r) -> next_connection_id_ r' = next_connection_id_ r -> Tame d r r'.
Proof.
  intros Hc Hk Hf Ht Hcon Hn. rewrite Hf, (Hk c Hc) in Hcon. split; [done|..]; rewrite Hcon.
  - intros d' Hne. by rewrite lookup_insert_ne.
  - intros c0. rewrite lookup_insert_eq. intros [= <-]. by exists c.
Qed.

Lemma close_Tame d r : Tame d r (close_connection d r).
Proof.
  unfold close_connection. destruct (connections_ r !! d) as [c|] eqn:Hc; [|done]. split; cbn; [done|..].
  - intros d' Hne. by rewrite lookup_delete_ne.
  - intros c'. by rewrite lookup_delete_eq.
Qed.

Lemma set_backpressured_Tame d v r r' : keyed d r -> set_backpressured d v r = Some r' -> Tame d r r'.
Proof.
  intros Hk E. unfold set_backpressured in E. destruct (connections_ r !! d) as [c|] eqn:Hc; [|done].
  destruct (Bool.eqb _ _); injection E as <-; [done|]. by eapply (put_Tame d c (with_backpressure v c)).
Qed.

Lemma queue_response_Tame d f r r' b : keyed d r -> queue_response d f r = Some (r', b) -> Tame d r r'.
Proof.
  intros Hk E. unfold queue_response in E. destruct (connections_ r !! d) as [c|] eqn:Hc; [|done].
  destruct (_ || _); injection E as <- <-; [apply close_Tame|].
  eapply put_Tame; [exact Hc|exact Hk|..|reflexivity|reflexivity]; done.
Qed.

Lemma reject_Tame d f r r' b : keyed d r -> reject d f r = Some (r', b) -> Tame d r r'.
Proof.
  intros Hk E. unfold reject in E. destruct (queue_response _ _ _) as [[r1 q]|] eqn:E1; [|done].
  destruct (set_backpressured _ _ _) as [r2|] eqn:E2; [|done]. injection E as <- <-.
  apply queue_response_Tame in E1; [|done]. apply set_backpressured_Tame in E2; [|by eapply Tame_keyed].
  by etransitivity.
Qed.

Lemma thread_step_next t r : next_connection_id_ (thread_step t r) = next_connection_id_ r.
Proof. destruct t; cbn; try done. by destruct (worker_deliver _ _) as [e' [c|]]. Qed.

Lemma interleave_same r :
  connections_ (interleave r) = connections_ r /\ next_connection_id_ (interleave r) = next_connection_id_ r.
Proof.
  unfold interleave, thread_steps. destruct (schedule_ r) as [|ts schedule]; [done|].
  change (connections_ r) with (connections_ (with_schedule schedule r)).
  change (next_connection_id_ r) with (next_connection_id_ (with_schedule schedule r)).
  generalize (with_schedule schedule r). induction ts as [|t ts IH]; intros r1; [done|]. cbn [foldl].
  destruct (IH (thread_step t r1)) as [-> ->]. split; [|apply thread_step_next]. apply thread_step_tables.
Qed.

Lemma dispatch_Tame d f r r' b : keyed d r -> dispatch d f r = Some (r', b) -> Tame d r r'.
Proof.
  intros Hk E. unfold dispatch in E. destruct (connections_ r !! d) as [c|] eqn:Hc; [|done].
  destruct (_ <? frame_size f); [injection E as <- <-; apply close_Tame|]. cbv zeta in E.
  set (r1 := observe _ r) in *. destruct (interleave_same r1) as [C1 N1].
  assert (forall e, Tame d r (with_executor e (interleave r1))) as HT by (intros e; apply Tame_same; cbn; [by rewrite C1|by rewrite N1]).
  destruct (_ || _) in E.
  { apply reject_Tame in E; [|exact Hk]. by etransitivity; [apply (Tame_same d r r1)|]. }
  destruct (try_submit _ _) as [e [|]]; cbn [negb] in E.
  2:{ apply reject_Tame in E; [by etransitivity; [apply HT|]|]. by eapply (Tame_keyed d r). }
  set (c' := with_pending _ c) in *. set (r3 := with_global _ _) in *.
  assert (Tame d r r3) as HT3.
  { eapply (put_Tame d c c'); try done; unfold r3; cbn; by rewrite ?C1, ?N1. }
  destruct (_ <=? _) in E; [|by injection E as <- <-]. destruct (set_backpressured d true r3) as [r4|] eqn:E4; [|done].
  injection E as <- <-. etransitivity; [exact HT3|]. eapply set_backpressured_Tame; [|done]. by eapply Tame_keyed.
Qed.

Lemma dispatch_all_Tame d fs : forall r r' b, keyed d r -> dispatch_all d fs r = Some (r', b) -> Tame d r r'.
Proof.
  induction fs as [|f fs IH]; intros r r' b Hk; cbn [dispatch_all]; [by intros [= <- <-]|].
  destruct (dispatch d f r) as [[r1 b1]|] eqn:E1; [|done]. apply dispatch_Tame in E1; [|done].
  destruct (_ && _); [by intros [= <- <-]|]. intros E. etransitivity; [exact E1|]. eapply IH; [by eapply Tame_keyed|done].
Qed.

Lemma read_loop_Tame calls d : forall budget r r', keyed d r -> read_loop calls budget d r = Some r' -> Tame d r r'.
Proof.
  induction calls as [|call calls IH]; intros budget r r' Hk; cbn [read_loop];
    (destruct (connections_ r !! d) as [c|] eqn:Hc; [|by intros [= <-]]); (destruct (_ || _); [by intros [= <-]|]);
    [by intros [= <-]|].
  destruct call as [bytes| | |]; [|by apply IH|by intros [= <-]|intros [= <-]; apply close_Tame].
  case_bool_decide; [intros [= <-]; apply close_Tame|]. destruct (consume _ _) as [[p batch]|]; [|done].
  set (r1 := observe _ _). assert (Tame d r r1) as HT by (by eapply (put_Tame d c (with_parser p c))).
  destruct (negb _ || _); [intros [= <-]; etransitivity; [exact HT|apply close_Tame]|].
  pose proof (Tame_keyed _ _ _ HT Hk) as Hk1. destruct (dispatch_all _ _ _) as [[r2 [|]]|] eqn:E2; [| |done];
    apply dispatch_all_Tame in E2; try done.
  - intros E. etransitivity; [exact HT|]. etransitivity; [exact E2|]. eapply IH; [by eapply Tame_keyed|done].
  - intros [= <-]. by etransitivity.
Qed.

(** ** Paused connections *)

(** Paused, with no request in flight whose completion would resume it. *)
Definition stuck (c : Connection) : Prop := read_paused c = true /\ pending_request_count c = 0.

(** Every connection was there before, and if it was stuck it is still, or is new. *)
Record Lineage (r r' : Reactor) : Prop := {
  ln_next : next_connection_id_ r <= next_connection_id_ r';
  ln_origin : forall d c', connections_ r' !! d = Some c' ->
    (exists c, connections_ r !! d = Some c /\ token c' = token c /\ (stuck c -> stuck c')) \/
    next_connection_id_ r <= tk_id (token c')
}.

#[export] Instance Lineage_preorder : PreOrder Lineage.
Proof.
  split.
  - intros r. split; [done|]. intros d c Hc. left. by exists c.
  - intros r1 r2 r3 [N1 O1] [N2 O2]. split; [lia|]. intros d c3 Hc3. destruct (O2 d c3 Hc3) as [(c2 & Hc2 & T2 & S2)|?]; [|right; lia].
    destruct (O1 d c2 Hc2) as [(c1 & Hc1 & T1 & S1)|?]; [left; exists c1; split_and!; [done|congruence|auto]|right; by rewrite T2].
Qed.

Lemma Tame_Lineage d r r' :
  Tame d r r' -> (forall c c', connections_ r !! d = Some c -> connections_ r' !! d = Some c' -> stuck c -> stuck c') ->
  Lineage r r'.
Proof.
  intros [Hn Ho Hh] Hs. split; [by rewrite Hn|]. intros d' c' Hc'. left. destruct (decide (d' = d)) as [->|Hne].
  - destruct (Hh c' Hc') as (c & Hc & Ht & _). exists c. split_and!; [done..|]. by eapply Hs.
  - rewrite Ho in Hc' by done. by exists c'.
Qed.

Lemma close_Lineage d r : Lineage r (close_connection d r).
Proof.
  apply (Tame_Lineage d); [apply close_Tame|]. intros c c' Hc. unfold close_connection. rewrite Hc. cbn.
  by rewrite lookup_delete_eq.
Qed.

(** A stuck connection is not read. *)
Lemma read_loop_Lineage calls budget d r r' : keyed d r -> read_loop calls budget d r = Some r' -> Lineage r r'.
Proof.
  intros Hk E. apply (Tame_Lineage d); [by eapply read_loop_Tame|]. intros c c' Hc Hc' Hst.
  assert (read_loop calls budget d r = Some r) as E'.
  { destruct calls; cbn [read_loop]; rewrite Hc; destruct Hst as [-> _]; by rewrite orb_true_r. }
  rewrite E in E'. injection E' as ->. rewrite Hc in Hc'. by injection Hc' as <-.
Qed.

Lemma take_output_stuck front rest sent c : stuck (take_output front rest sent c) <-> stuck c.
Proof. unfold take_output. by destruct (_ =? _). Qed.

Lemma write_loop_Lineage calls d : forall budget r, keyed d r -> Lineage r (write_loop calls budget d r).
Proof.
  assert (forall c r, Lineage r (update_interest c r)) as Hu.
  { intros c r. split; [done|]. intros d' c' Hc'. left. by exists c'. }
  induction calls as [|call calls IH]; intros budget r Hk; cbn [write_loop];
    (destruct (connections_ r !! d) as [c|] eqn:Hc; [|done]); (destruct (write_queue c) as [|front rest]; [apply Hu|]);
    (destruct (budget <=? 0); [apply Hu|]); [apply Hu|].
  destruct call as [[|n]| | |]; [apply close_Lineage| |by apply IH|apply Hu|apply close_Lineage].
  set (sent := Z.min _ (Z.min _ _)). set (r1 := observe _ _).
  assert (fd (take_output front rest sent c) = fd c /\ token (take_output front rest sent c) = token c) as [F1 F2]
    by (unfold take_output; by destruct (_ =? _)).
  assert (Tame d r r1) as HT by (by eapply (put_Tame d c (take_output front rest sent c))).
  etransitivity; [|apply IH; by eapply Tame_keyed]. apply (Tame_Lineage d); [done|].
  intros c0 c' Hc0 Hc' Hst. rewrite Hc in Hc0. injection Hc0 as <-. unfold r1 in Hc'. cbn in Hc'.
  rewrite F1, (Hk c Hc), lookup_insert_eq in Hc'. injection Hc' as <-. by apply take_output_stuck.
Qed.

Lemma accept_Lineage calls : forall r, accept_ok calls r -> Lineage r (accept_connections calls r).
Proof.
  induction calls as [|[d nodelay registered| |] calls IH]; intros r Ha; cbn [accept_connections accept_ok] in *;
    [done| |by apply IH|done].
  destruct Ha as (Hd & Hn & Ha). destruct (_ || _); [by apply IH|]. etransitivity; [|by apply IH].
  assert (Lineage r (add_connection d true r)) as HL.
  { split; [cbn; rewrite u64_small by done; lia|]. intros d' c' Hc'. cbn in Hc'. rewrite try_emplace_fresh in Hc' by done. destruct (decide (d' = d)) as [->|Hne].
    - rewrite lookup_insert_eq in Hc'. injection Hc' as <-. right. cbn. lia.
    - rewrite lookup_insert_ne in Hc' by done. left. by exists c'. }
  destruct registered; [done|]. rewrite add_unregistered. etransitivity; [exact HL|apply close_Lineage].
Qed.

Lemma set_backpressured_next d v r r' : set_backpressured d v r = Some r' -> next_connection_id_ r' = next_connection_id_ r.
Proof.
  unfold set_backpressured. destruct (connections_ r !! d); [|done]. destruct (Bool.eqb _ _); by intros [= <-].
Qed.

Lemma queue_response_next d f r r' b : queue_response d f r = Some (r', b) -> next_connection_id_ r' = next_connection_id_ r.
Proof.
  unfold queue_response. destruct (connections_ r !! d) as [c|]; [|done].
  destruct (_ || _); intros [= <- <-]; [|done]. apply (close_Tame d r).
Qed.

Lemma complete_next q r r' : complete q r = Some r' -> next_connection_id_ r' = next_connection_id_ r.
Proof.
  unfold complete. set (r0 := if 0 <? _ then _ else _).
  assert (next_connection_id_ r0 = next_connection_id_ r) as <- by (unfold r0; by destruct (0 <? _)).
  destruct (token_to_fd_ r0 !! _) as [d|]; [|by intros [= <-]]. destruct (connections_ r0 !! d) as [c|]; [|by intros [= <-]].
  destruct (negb _); [by intros [= <-]|]. destruct (queue_response _ _ _) as [[r2 b]|] eqn:E; [|done].
  apply queue_response_next in E. change (next_connection_id_ r2 = next_connection_id_ r0) in E.
  destruct b; [|intros [= <-]; exact E]. destruct (_ && _); [|intros [= <-]; exact E].
  intros E2. apply set_backpressured_next in E2. by rewrite E2.
Qed.

Lemma complete_all_next qs : forall r r', complete_all qs r = Some r' -> next_connection_id_ r' = next_connection_id_ r.
Proof.
  induction qs as [|q qs IH]; intros r r'; cbn [complete_all]; [by intros [= <-]|].
  destruct (complete q r) as [r1|] eqn:E; [|done]. intros E2. by rewrite (IH _ _ E2), (complete_next _ _ _ E).
Qed.

(** Completions do not resume a connection that has no request in flight. *)
Lemma process_completions_Lineage r r' : Inv [] settled r -> process_completions r = Some r' -> Lineage r r'.
Proof.
  intros HI E. destruct (process_completions_Inv r HI) as (r1 & E1 & _ & _ & HR). rewrite E in E1. injection E1 as <-.
  unfold process_completions in E. apply complete_all_next in E. split; [by rewrite E|]. intros d c' Hc'. left.
  destruct (HR d c' Hc') as (c & Hc & Ht & Hb). exists c. split_and!; [done..|]. intros [Hp Hz].
  destruct (decide (token c ∈ map cp_token (completions_ r))) as [Hin|_]; [|by subst c'].
  exfalso. pose proof (co_pending _ _ _ _ _ _ (iv_connections _ _ _ HI _ _ Hc)) as Hf. rewrite Hz in Hf.
  apply list_elem_of_fmap in Hin as (q & Hq & Hin). unfold flight in Hf. cbn [app] in Hf. rewrite flying_app in Hf.
  assert (md_request_id (cp_request q) ∈ flying (token c) (map completion_flight (completions_ r))) as Hm.
  { unfold flying. apply list_elem_of_omap. exists (completion_flight q). split; [by apply list_elem_of_fmap_2|].
    cbn. by rewrite decide_True. }
  rewrite size_of_app in Hf. destruct (flying (token c) (map completion_flight (completions_ r))); [by apply not_elem_of_nil in Hm|].
  pose proof (size_of_nonneg (flying (token c) (executor_flight (executor_ r)))). unfold size_of in *. cbn [length] in Hf. lia.
Qed.

Lemma handle_Lineage i r r' : Inv [] settled r -> input_ok i r -> handle i r = Some r' -> Lineage r r'.
Proof.
  intros HI Hi. destruct i as [calls| |d error input output hangup reads writes|t]; cbn [handle].
  - intros [= <-]. by apply accept_Lineage.
  - by apply process_completions_Lineage.
  - assert (keyed d r) as Hk by (intros c Hc; apply (co_fd _ _ _ _ _ _ (iv_connections _ _ _ HI _ _ Hc))).
    unfold handle_connection. destruct error; [intros [= <-]; apply close_Lineage|].
    destruct (if input then _ else _) as [r1|] eqn:E1; [|done].
    assert (Lineage r r1 /\ keyed d r1) as [L1 Hk1].
    { destruct input; [|by injection E1 as <-]. unfold read_connection in E1. split; [by eapply read_loop_Lineage|].
      eapply Tame_keyed; [by eapply read_loop_Tame|done]. }
    case_bool_decide; intros [= <-]; [done|]. set (r2 := if output then _ else _).
    assert (Lineage r r2) as L2.
    { unfold r2. destruct output; [|done]. etransitivity; [exact L1|]. by apply write_loop_Lineage. }
    destruct (hangup && negb input); [|done]. etransitivity; [exact L2|apply close_Lineage].
  - intros [= <-]. split; [by rewrite thread_step_next|]. intros d c Hc. left. exists c.
    destruct (thread_step_tables t r) as (_ & E & _). rewrite E in Hc. done.
Qed.
