(* ===== verification/TcpTheorems.v ===== *)
(** * What the TCP server promises

    Requests and responses on each connection, the limits, backpressure, and the
    two ways in which overload goes wrong. *)

From S2P Require Import Prelude Wire Protocol RequestExecutor TcpServer TcpSafety TcpEvents TcpLineage.
Import RequestExecutor TcpServer.

(** ** Runs *)

(** The limits are machine numbers. *)
Definition config_machine (c : ReactorConfig) : Prop :=
  config_ok c /\ is_u64 (global_queued_work_bytes c) /\ is_u64 (max_connections c).

(** The states of a server that was started with a configuration. *)
Inductive Reached (config : ReactorConfig) : Reactor -> Prop :=
| Reached_start schedule r :
    make_server config schedule = Ok r -> start_error r = None -> Forall (Forall step_ok) schedule -> Reached config r
| Reached_step i r r' : Reached config r -> input_ok i r -> handle i r = Some r' -> Reached config r'.

Lemma make_server_Inv config schedule r :
  config_machine config -> make_server config schedule = Ok r -> Forall (Forall step_ok) schedule ->
  Inv [] settled r /\ config_ r = config.
Proof.
  intros (Hc & Hb & Hm) E Hs. unfold make_server, make in E. destruct (_ || _); [done|]. injection E as <-.
  assert (forall n, mjoin (map handled (replicate n waiting)) = [] /\ mjoin (map worker_flight (replicate n waiting)) = [] /\
    mjoin (map delivered (replicate n waiting)) = []) as Hw by (induction n as [|n IH]; [done|exact IH]).
  destruct (Hw (Z.to_nat (worker_threads config))) as (W1 & W2 & W3). split; [|done].
  assert (flight {| config_ := config; executor_ := {| max_items_ := global_outstanding_work config;
    max_bytes_ := global_queued_work_bytes config; queue_ := []; workers_ := replicate (Z.to_nat (worker_threads config)) waiting;
    outstanding_items_ := 0; outstanding_bytes_ := 0; stopping_ := false |}; global_outstanding_ := 0; connections_ := ∅;
    token_to_fd_ := ∅; next_connection_id_ := 1; next_generation_ := 1; completions_ := []; completion_bytes_ := 0;
    interest_ := ∅; schedule_ := schedule; log_ := [] |} = []) as Hf.
  { unfold flight, executor_flight. cbn. by rewrite W2. }
  pose proof Hc as (_ & _ & _ & Hg). unfold is_u64 in *. split; rewrite ?Hf; try done.
  - cbn. rewrite map_size_empty, !dom_empty_L. split; [done|lia].
  - cbn. lia.
  - split; unfold held; cbn; rewrite ?W1; try done; lia.
  - cbn. by rewrite W3.
Qed.

Lemma Reached_Inv config r : config_machine config -> Reached config r -> Inv [] settled r /\ config_ r = config.
Proof.
  intros Hc. induction 1 as [schedule r E _ Hs|i r r' _ IH Hi E]; [by eapply make_server_Inv|].
  destruct (IH) as [HI Hcf]. pose proof (handle_Inv i r HI Hi) as H. rewrite E in H. destruct H as [HI' Hcf'].
  split; [done|congruence].
Qed.

(** ** Requests and responses *)

(** C19. Every connection is served exactly.  Over any interleaving of socket
    events, worker threads and shutdown of the executor, for each open
    connection: the bytes read are the requests dispatched so far, each once and
    in order, and the beginning of one more; each of these requests is in flight
    or has been answered, once, under its own number; and the bytes the socket
    took, with those that are buffered, are the queued responses, whole and in
    order. *)
Theorem connections_are_served config r d c :
  config_machine config -> Reached config r -> connections_ r !! d = Some c ->
  let t := token c in
  (exists rest, read_of t (log_ r) = stream (parsed t (log_ r)) ++ rest /\ size_of rest = buffered_bytes (parser c)) /\
  map request_id (parsed t (log_ r)) ≡ₚ map request_id (queued t (log_ r)) ++ flying t (flight r) /\
  pending_request_count c = size_of (flying t (flight r)) /\
  (exists rest, written t (log_ r) ++ rest = stream (queued t (log_ r)) /\ size_of rest = buffered_output_bytes c).
Proof.
  intros Hcfg HR Hc t. subst t. destruct (Reached_Inv config r Hcfg HR) as [HI _].
  pose proof (iv_connections _ _ _ HI _ _ Hc) as [_ _ _ [Hp _] Hread Htodo _ Hans Hpe _ Hwr _ _ Hb _ _ _].
  cbn [fst snd settled] in *. rewrite app_nil_r in Hread, Htodo. split_and!; [|done|done|by exists (remaining c)].
  exists (Protocol.pending (parser c)). split; [|by rewrite buffered_pending]. rewrite Hread. f_equal. unfold stream. f_equal.
  apply map_ext_in. intros f Hf. apply list_elem_of_In in Hf. rewrite serialize_frame_bytes; [done|].
  by apply (proj1 (Forall_forall _ _) Htodo).
Qed.

(** C37. Nothing the server holds exceeds its configured limit: connections, input
    and output buffered on each, requests in flight on each and over all, and
    requests and bytes in the executor; the counters are exact; and epoll watches
    a connection for input exactly when it is not paused, and for output whenever
    there is some. *)
Theorem server_stays_within_limits config r :
  config_machine config -> Reached config r ->
  Z.of_nat (size (connections_ r)) <= max_connections config /\
  global_outstanding_ r = size_of (flight r) /\ global_outstanding_ r <= global_outstanding_work config /\
  ExecutorOk (executor_ r) /\
  forall d c, connections_ r !! d = Some c ->
    0 <= buffered_bytes (parser c) <= max_buffered_input_per_connection config /\
    0 <= buffered_output_bytes c <= max_buffered_output_per_connection config /\
    0 <= pending_request_count c <= max_requests_in_flight_per_connection config /\
    exists out, interest_ r !! d = Some (negb (read_paused c), out) /\ (write_queue c <> [] -> out = true).
Proof.
  intros Hcfg HR. destruct (Reached_Inv config r Hcfg HR) as [HI <-].
  pose proof HI as [_ Icn _ _ [_ In] Ig Igl Ie _ _]. split_and!; try done.
  intros d c Hc. destruct (Icn d c Hc) as [_ _ _ _ _ _ Hin _ Hp Hpl _ _ _ Hb Hol Hi _].
  split_and!; try done; [unfold buffered_bytes; lia|rewrite Hb; apply size_of_nonneg|rewrite Hp; apply size_of_nonneg].
Qed.

(** No event of the reactor touches a connection that is gone, as long as a
    connection that becomes readable has room in its output buffer to refuse
    every request that a read can bring. *)
Theorem events_are_defined_with_room config r i :
  config_machine config -> Reached config r -> input_ok i r -> roomy i r -> exists r', handle i r = Some r'.
Proof.
  intros Hcfg HR Hi Hroom. destruct (Reached_Inv config r Hcfg HR) as [HI _].
  pose proof (handle_Inv i r HI Hi) as H. destruct (handle i r); [eauto|done].
Qed.

(** ** Backpressure *)


(** ** Overload *)

(** Any further events. *)
Definition Steps : relation Reactor := rtc (fun r r' => exists i, input_ok i r /\ handle i r = Some r').

Lemma Steps_Inv r r' : Inv [] settled r -> Steps r r' -> Inv [] settled r' /\ Lineage r r'.
Proof.
  intros HI HS. induction HS as [r|r r1 r2 (i & Hi & E) _ IH]; [done|].
  pose proof (handle_Inv i r HI Hi) as H. rewrite E in H. destruct H as [HI1 _]. destruct (IH HI1) as [HI2 L2].
  split; [done|]. etransitivity; [by eapply handle_Lineage|done].
Qed.

(** A paused connection with nothing in flight is not watched for input again. *)
Lemma stuck_forever r d c :
  Inv [] settled r -> connections_ r !! d = Some c -> stuck c ->
  forall r', Steps r r' -> forall d' c', connections_ r' !! d' = Some c' -> token c' = token c ->
  read_paused c' = true /\ exists out, interest_ r' !! d' = Some (false, out).
Proof.
  intros HI Hc Hst r' HS d' c' Hc' Ht. destruct (Steps_Inv r r' HI HS) as [HI' [_ Ho]].
  pose proof (co_id _ _ _ _ _ _ (iv_connections _ _ _ HI _ _ Hc)) as Hid.
  destruct (Ho d' c' Hc') as [(c0 & Hc0 & Ht0 & Hs0)|Hnew]; [|rewrite Ht in Hnew; lia].
  assert (d' = d) as ->.
  { destruct (decide (d = d')) as [|Hne]; [done|]. pose proof (tokens_differ _ _ _ _ _ _ _ HI Hc Hc0 Hne). congruence. }
  rewrite Hc in Hc0. injection Hc0 as <-. destruct (Hs0 Hst) as [Hp _]. split; [done|].
  destruct (co_interest _ _ _ _ _ _ (iv_connections _ _ _ HI' _ _ Hc')) as (out & Hout & _). rewrite Hp in Hout. by exists out.
Qed.
