(* ===== verification/TcpWitnesses.v ===== *)
(** * A TCP server under overload

    Two clients of a server that takes one request at a time, and the witnesses
    for the theorems about the TCP server. *)

From S2P Require Import Prelude Wire Protocol RequestExecutor TcpServer TcpSafety TcpEvents TcpLineage TcpTheorems.
Import RequestExecutor TcpServer.

(** ** The server *)

Definition small_config (output : Z) : ReactorConfig :=
  {| max_request_size := 1000; max_buffered_input_per_connection := 1000; max_buffered_output_per_connection := output;
     max_requests_in_flight_per_connection := 1; global_outstanding_work := 1; global_queued_work_bytes := 1000;
     max_connections := 10; max_events_per_wait := 10; read_budget_per_event := 500; write_budget_per_event := 1000;
     worker_threads := 1 |}.

Lemma small_config_machine output : 0 <= output <= 1000000 -> config_machine (small_config output).
Proof. intros H. unfold config_machine, config_ok, is_u64. cbn. lia. Qed.

Definition ping (id : Z) : Frame :=
  {| message_namespace := Namespace_client; message_type := MessageType_ping; flags := Byte.x00; request_id := id;
     payload := [] |}.

Definition pong (request : Frame) : Outcome :=
  returned {| message_namespace := Namespace_client; message_type := MessageType_ok; flags := Byte.x00;
              request_id := request_id request; payload := [] |}.

Definition initial (output : Z) : Reactor :=
  {| config_ := small_config output;
     executor_ := {| max_items_ := 1; max_bytes_ := 1000; queue_ := []; workers_ := [waiting]; outstanding_items_ := 0;
                     outstanding_bytes_ := 0; stopping_ := false |};
     global_outstanding_ := 0; connections_ := ∅; token_to_fd_ := ∅; next_connection_id_ := 1; next_generation_ := 1;
     completions_ := []; completion_bytes_ := 0; interest_ := ∅; schedule_ := []; log_ := [] |}.

(** A client sends requests. *)
Definition arrives (d : Z) (requests : list Frame) : Input :=
  connection_ready d false true false false [received (stream requests)] [].

(** Decides whether the inputs of a run are those of a kernel. *)
Fixpoint accept_okb (calls : list Accepted) (r : Reactor) : bool :=
  match calls with
  | [] | accept_failed :: _ => true
  | accept_interrupted :: calls' => accept_okb calls' r
  | connected d nodelay registered :: calls' =>
      bool_decide (connections_ r !! d = None) && (0 <=? next_connection_id_ r) && (next_connection_id_ r <? u64_max) &&
      (if (max_connections (config_ r) <=? Z.of_nat (size (connections_ r))) || negb nodelay then accept_okb calls' r
       else accept_okb calls' (add_connection d registered r))
  end.

Lemma accept_okb_spec calls : forall r, accept_okb calls r = true -> accept_ok calls r.
Proof.
  induction calls as [|[d nodelay registered| |] calls IH]; intros r H; cbn [accept_ok accept_okb] in *; [done| |by apply IH|done].
  apply andb_true_iff in H as [[[H1 H2]%andb_true_iff H3]%andb_true_iff H].
  apply bool_decide_eq_true in H1. unfold is_u64, u64_max in *. split_and!; [done|lia|lia|].
  destruct (_ || _); by apply IH.
Qed.

(** The state after some inputs. *)
Fixpoint feed (inputs : list Input) (r : Reactor) : option Reactor :=
  match inputs with
  | [] => Some r
  | i :: rest =>
      if match i with listener_ready calls => accept_okb calls r | _ => true end
      then match handle i r with Some r1 => feed rest r1 | None => None end
      else None
  end.

Definition thread_ok (i : Input) : Prop := match i with other_thread t => step_ok t | _ => True end.

Lemma feed_Reached config inputs : forall r r',
  Forall thread_ok inputs -> Reached config r -> feed inputs r = Some r' -> Reached config r'.
Proof.
  induction inputs as [|i inputs IH]; intros r r' Hok HR; cbn [feed]; [by intros [= <-]|].
  apply Forall_cons in Hok as [Hi Hok]. destruct (match i with listener_ready _ => _ | _ => _ end) eqn:Ei; [|done].
  destruct (handle i r) as [r1|] eqn:E; [|done]. apply IH; [done|]. eapply Reached_step; [done| |done].
  destruct i; try done. by apply accept_okb_spec.
Qed.

Lemma initial_Reached output : 24 <= output -> Reached (small_config output) (initial output).
Proof.
  intros H. eapply (Reached_start _ []); [done| |constructor]. unfold start_error, validation_error.
  cbn [config_ initial small_config max_request_size max_buffered_input_per_connection max_buffered_output_per_connection].
  destruct (Z.ltb_spec output (Z.of_nat kHeaderSize)); [unfold kHeaderSize in *; lia|done].
Qed.

Lemma pong_answers : answering pong.
Proof. by intros f response [= <-]. Qed.

Definition state_after (output : Z) (inputs : list Input) : Reactor := default (initial output) (feed inputs (initial output)).

Lemma after_Reached output inputs :
  24 <= output -> Forall thread_ok inputs -> bool_decide (feed inputs (initial output) = None) = false ->
  Reached (small_config output) (state_after output inputs).
Proof.
  intros Ho Hok E. unfold state_after. destruct (feed inputs (initial output)) as [r|] eqn:Ef; [|done]. cbn.
  by apply (feed_Reached _ inputs (initial output)); [|apply initial_Reached|].
Qed.

(** ** Overload *)

(** C39. Refusing a request can touch a connection that is already destroyed.  With a
    valid configuration, a client that sends one request more than it may have in
    flight, while its output buffer has no room for the refusal, is disconnected
    in the middle of [dispatch], which then goes on to pause the connection. *)
Theorem refusal_uses_a_closed_connection :
  exists config r d c requests, config_machine config /\ Reached config r /\ connections_ r !! d = Some c /\
    Forall (fun f => validate f = none /\ frame_size f <= max_request_size config) requests /\
    handle (arrives d requests) r = None.
Proof.
  exists (small_config 24), (state_after 24 [listener_ready [connected 5 true true]]), 5,
    (new_connection 5 {| tk_id := 1; tk_generation := 1 |}), [ping 1; ping 2].
  split_and!; [apply small_config_machine; lia| |by vm_compute| |by vm_compute].
  - apply after_Reached; [lia|by constructor|by vm_compute].
  - constructor; [by split|]. constructor; [by split|constructor].
Qed.

(** The second client is refused while the request of the first is in flight. *)
Definition overload : list Input :=
  [listener_ready [connected 5 true true; connected 6 true true]; arrives 5 [ping 1]; arrives 6 [ping 2];
   other_thread (takes 0); other_thread (responds 0 pong); other_thread (delivers 0); woken;
   connection_ready 6 false false true false [] [accepted 100]].

Lemma overload_ok : Forall thread_ok overload.
Proof. repeat constructor; try done. apply pong_answers. Qed.

(** C40. A client that is refused can be ignored for ever.  A request that is refused
    because of what other connections have in flight pauses its connection, and
    only a completion of a request of that connection would resume it: in the
    state reached here nothing at all is in flight, and whatever happens next,
    for as long as the connection is open it stays paused and is not watched for
    input. *)
Theorem refused_connection_is_never_read_again :
  exists config r d c, config_machine config /\ Reached config r /\ connections_ r !! d = Some c /\ flight r = [] /\
    forall r', Steps r r' -> forall d' c', connections_ r' !! d' = Some c' -> token c' = token c ->
      read_paused c' = true /\ exists out, interest_ r' !! d' = Some (false, out).
Proof.
  assert (Reached (small_config 1000) (state_after 1000 overload)) as HR
    by (apply after_Reached; [lia|apply overload_ok|by vm_compute]).
  destruct (Reached_Inv _ _ (small_config_machine 1000 ltac:(lia)) HR) as [HI _].
  destruct (connections_ (state_after 1000 overload) !! 6) as [c|] eqn:Hc; [|by vm_compute in Hc].
  exists (small_config 1000), (state_after 1000 overload), 6, c.
  split_and!; [apply small_config_machine; lia|done|done|by vm_compute|].
  apply (stuck_forever _ 6); [done..|]. vm_compute in Hc. injection Hc as <-. done.
Qed.

(** ** Witnesses *)

Definition served : Reactor := state_after 1000 overload.

Lemma served_Reached : Reached (small_config 1000) served.
Proof. apply after_Reached; [lia|apply overload_ok|by vm_compute]. Qed.

Lemma connections_are_served_witness :
  exists c, connections_ served !! 5 = Some c /\
    map request_id (parsed (token c) (log_ served)) ≡ₚ map request_id (queued (token c) (log_ served)) ++ flying (token c) (flight served).
Proof.
  destruct (connections_ served !! 5) as [c|] eqn:Hc; [|by vm_compute in Hc]. exists c. split; [done|].
  apply (connections_are_served (small_config 1000) served 5 c (small_config_machine 1000 ltac:(lia)) served_Reached Hc).
Defined.

Lemma server_stays_within_limits_witness : ExecutorOk (executor_ served).
Proof.
  apply (server_stays_within_limits (small_config 1000) served (small_config_machine 1000 ltac:(lia)) served_Reached).
Defined.

Lemma events_are_defined_with_room_witness :
  exists r', handle (arrives 5 [ping 3; ping 4]) served = Some r'.
Proof.
  apply (events_are_defined_with_room (small_config 1000) served _ (small_config_machine 1000 ltac:(lia)) served_Reached).
  - exact I.
  - intros c Hc. vm_compute in Hc. injection Hc as <-. by vm_compute.
Defined.

